(* ===== verification/_CoqProject ===== *)
-Q . S2P
Prelude.v
StdContainers.v
CxxString.v
Timestamp.v
Endian.v
InetAddress.v
Buffer.v
LruMap.v
Db.v
DbServer.v
PpMaster.v
RWLock.v
HttpContext.v
HttpServer.v
HttpSession.v
Inspector.v
Codec.v
Zlib.v
Channel.v
Poller.v
EPollPoller.v
PollPoller.v
Pollers.v
TcpConnection.v
PolledConnection.v
TimerQueue.v
EventLoop.v
LoopObject.v
ChannelLife.v
Sockets.v
Acceptor.v
Connector.v
LoopPool.v
TcpServer.v
ServedConnection.v
TcpClient.v
Date.v
TimeZone.v
LogStream.v
AsyncLogging.v
Monitors.v
Threads.v
StackTrace.v
Singletons.v
Logger.v
FileUtil.v
LogFile.v
ProcessInfo.v
Rpc.v
RpcWire.v
