(* ===== verification/Prelude.v ===== *)
(** * pp_dSCache: a verification development

    pp_dSCache is a distributed cache in C++.  Its own part is the cache server
    (src/server: the store [Db], its predecessor [lruMap], the request handling
    [DbServer]) and the master (src/master: the slot tables of [PpMaster], the
    reader-writer lock [RWLock]).  Below them lies "mymuduo", a network library
    in the style of muduo (src/master/base, src/master/net): event loops,
    pollers, timers, connections, buffers, an HTTP server, a protobuf codec and
    RPC, logging, time zones, threads.  This library models the code of both,
    and proves what makes each part correct.

    ** How the code is modelled

    Every definition is executable wherever the code is.  Four kinds of result
    are kept apart by the monad [outcome] of this file: a value, a C++
    exception, a failed [assert] (or [abort]), and undefined behaviour.  A
    member function that changes its object is a state-passing call [ST S A];
    the state of an object is a record with the names of the C++ members.
    Integers are [Z] at their C++ width: [i32], [i64], [u32], [u64] wrap, and
    where signed overflow is undefined in C++ the definition says [Undef].
    [bytes] are lists of 8-bit characters.  Code that several
    threads run is a step relation whose steps are the critical sections, and
    its theorems hold for all reachable states.  What the environment does
    (system calls, clocks, the users' callbacks, third-party libraries such as
    protobuf, zlib and the resolver) is a parameter, an input of the operation
    or a nondeterministic step, never a fixed behaviour; where a documented law
    of such code is needed it is a class or a named hypothesis.  The host's
    byte order is a parameter.  [assert] is kept: the theorems about failed
    assertions are about a build without NDEBUG.

    ** The files

    Shared:
    - Prelude: outcomes, stateful calls, machine integers, bytes, tactics and
      the hint databases, generic lemmas.
    - StdContainers: [std::list] and [std::multimap] with iterator identity, so
      that using an invalidated iterator is visible.
    - CxxString: [stoi], [snprintf]'s decimals, [isspace], [std::search].

    The cache (src/server) and the master (src/master/*.h, *.cc):
    - LruMap: [lruMap] (lruMap.h, lruMap.cc).
    - Db: [Db] (Db.h, Db.cc): the map, the recency list, the index by slot.
    - DbServer: [DbServer] (DbServer.h, DbServer.cc): the text requests.
    - PpMaster: [PpMaster] (PpMaster.h, PpMaster.cc): redirection and slots.
    - RWLock: [RWLock] (RWLock.h).

    The network library (src/master/net):
    - Endian, InetAddress, Buffer: byte order, addresses, the I/O buffer.
    - Channel, Poller, EPollPoller, PollPoller, Pollers: channels, the abstract
      poller as an interface ([PollerOps], [PollerSpec]), its two
      implementations and their agreement.
    - TcpConnection: the connection's state machine and streams;
      PolledConnection: a connection against the poller interface.
    - TimerQueue: timers and the timerfd; EventLoop: the loop, functors of
      other threads, wakeups; LoopObject: a loop's construction, destruction
      and thread, over the poller interface; ChannelLife: when a channel may be
      destroyed, over the pollers' map of channels.
    - Sockets, Acceptor: programs over system calls, with other threads at work
      on the same descriptor table; the acceptor and its spare descriptor.
    - Connector: connecting with retries; LoopPool: loop threads and their pool.
    - TcpServer: the server over an interface of connections ([ConnOps],
      [ConnSpec]); ServedConnection: TcpConnection meets it; TcpClient: the
      client, its connector and its connections.
    - HttpContext, HttpServer: the request parser, responses, the server;
      HttpSession: a whole HTTP connection, from pieces of its stream to answers;
      Inspector: the registry of commands the server serves.
    - Codec: the frames of ProtobufCodecLite; Rpc: the two ends of an
      RpcChannel; RpcWire: both over a connection's bytes, and RpcServer.
    - Zlib: the compressing stream over an interface of zlib.

    The base library (src/master/base):
    - Timestamp, Date, TimeZone: instants, the Gregorian calendar, zone files
      and local time.
    - LogStream, AsyncLogging: formatted text in fixed buffers, the
      logging thread.
    - Logger, FileUtil, LogFile: log statements, appending and rolling files.
    - Monitors: condition variables, BlockingQueue, BoundedBlockingQueue,
      CountDownLatch, ThreadPool; Threads: MutexLock and its holder, timed waits,
      atomic integers, the cached thread number, starting a thread; Singletons:
      Singleton, ThreadLocal, ThreadLocalSingleton; StackTrace: the text of a
      trace, and Exception.
    - ProcessInfo: what is read from /proc, and the system's page.

    ** How the parts fit together

    A loop (EventLoop) polls through one of the pollers, which hand it the
    active channels; a channel (Channel) calls back its owner: the timer queue,
    a connection, an acceptor.  The channel and poller operations meet at the
    interface of the file Poller: the owners' theorems use [PollerSpec], which
    EPollPoller and PollPoller each discharge.  A connection (TcpConnection)
    uses two [Buffer]s; its file takes what the socket and the users do as an
    environment and PolledConnection shows that it meets the obligations of the
    poller interface.  HttpContext, Codec and Rpc run on the bytes a connection
    delivers, so their theorems are stated for every segmentation of the input.
    Calls of other threads reach a loop as queued functors: EventLoop proves that
    they run once, in order, and that none waits while the loop sleeps, which
    is what TimerQueue, TcpConnection, Connector and TcpServer rely on.

    ** What the theorems show

    - Cache: from any consistent state a session with [Db] is a session with a
      recency list, up to the first [setKV] of a key that is not cached, which
      is undefined in the code as it is (Db.cc:69; no code sets a capacity
      either); its slot index follows the keys; a session of requests with
      [DbServer] is answered from one such list per server id under the same
      restriction, where SET is
      refused unless the slot number is the server's own id.
    - Master: a request for a slot is redirected to its owner's address;
      [rangeSetSlots] is exact below slot 31 and overflows beyond; where
      [resetSlots] throws; mutual exclusion of [RWLock], and its deadlock.
    - Buffer and Endian: a buffer behaves as a byte queue under any sequence of
      operations, integers survive the wire between hosts of any byte order.
    - Pollers: an invariant that makes every assertion of both pollers hold and
      makes the kernel watch exactly what the channels want; equivalence of the
      two; what [poll] reports.
    - TcpConnection: the life cycle (each callback at most once and in order),
      both streams preserved in order, the end of the stream after the data
      that [sendInLoop] has accepted, with other threads' calls interleaved step
      by step.
    - TimerQueue, EventLoop: the two indices agree with the heap of timers,
      due timers run once and repeat, a cancelled timer does not run, whatever
      the wall clock does while the timerfd runs; functors
      in order, an iteration runs what waits, and the loop sleeps over no
      functor but those its own thread queued before [loop()].
    - Sockets, Acceptor: whatever the kernel answers and other threads do, only
      descriptors of its own are touched, each accepted one is handed over or
      closed; a full descriptor table does not stop the loop.
    - Connector, TcpServer, TcpClient: no socket is lost or closed twice, and, within
      their contracts, retries back off and go on, every connection is dealt to a loop, registered,
      closed and destroyed once, in that order and in the right loop, loops
      drain.
    - HTTP, codec, RPC: round trips of requests and frames under any
      segmentation, a whole HTTP connection answers its requests in order,
      bad frames are refused with their error, responses as written, each remote call
      answered at most once with the answer to that very request, also over
      bytes in any pieces (RpcWire refines Rpc); a compressed stream inflates
      to the pieces that were written.
    - Dates, zones: agreement with the calendar, round trips between instants
      and broken-down time, between zones and their files.
    - Logging, monitors: bounded text, a log statement's line, lines in order
      through the buffers and over the rolled files, FIFO queues without lost
      wakeups, the latch, the pool.
    - Inspector, ProcessInfo: the pages serve exactly the commands registered
      last, the index lists them all; a thread's line of /proc reads back.

    ** Contracts

    Where the code relies on its users or on timing without checking it, the
    definition says what it relies on, apart from what the environment can do at all, the theorem
    names it, and a lemma shows what happens otherwise: [Connector.in_contract]
    and [TcpClient.kop_contract] (when [start], [restart], [connect] are called,
    no retry timer before the queued reset), [TcpConnection.legal_thread] and
    [TcpConnection.legal_event] (a store of another thread after the close,
    reading started on a connection that is down, [connectDestroyed] while it
    closes), [TimerQueue.legal_event] (another thread reads the sequence number
    of the timer it added before the loop deletes it).  Handlers of the loop's
    thread are single steps except where they call the user, whose callback
    other threads' steps may interrupt; memory is sequentially consistent.

    ** Bounds and fuel

    Loops whose end is not structural take fuel and a theorem shows that the
    given fuel is enough: the parser's loop takes the number of readable bytes
    plus one (each turn takes a line or stops), the codec's receive loop
    likewise (each frame is at least 8 bytes), [resetSlots] takes one turn per
    block of slots, the compressing loops fewer turns than zlib's bound on the
    output has bytes.  Histories (logs, counters of what was appended or run) are
    ghost fields that no code reads.  Bounds such as 2^31 on sizes appear as
    hypotheses where the code's [int] needs them; each such property has a
    witness at a concrete input.

    ** What is not modelled

    Members that only forward to the operating system or to a third-party
    library: GzipFile (zlib), PerformanceInspector (gperftools),
    TCP_INFO, the pages that print CPU times
    and sizes as floating-point numbers, tests and benchmarks.  Log lines are left out of the other
    components, except where their effect on [errno] matters (Sockets).
    [PpServer], [Slots] and [PpMaster]'s constructor and
    [handle_server_request] have declarations but no code.  Time is in whole
    microseconds where the code goes through [double]. *)
From stdpp Require Export base tactics list numbers gmap sets strings.
From Stdlib Require Export ZArith Lia Sorted.
From Stdlib Require Ascii String.

Export Stdlib.Strings.Ascii (ascii(..), N_of_ascii, ascii_of_N, ascii_N_embedding,
  N_ascii_embedding, N_ascii_bounded).
Export (notations) Stdlib.Strings.Ascii.

#[export] Set Default Goal Selector "!".
#[export] Set Warnings "-clear-no-such-hyp".

Local Open Scope Z_scope.

(** ** Outcomes of C++ code

    A call returns a value, lets an exception propagate, stops at a failed
    [assert]/[abort], or executes something the C++17 standard leaves
    undefined.  The four are kept apart: [Undef] is never confused with an
    exception the caller could catch. *)

Inductive exn :=
  | out_of_range
  | invalid_argument
  | overflow_error
  | length_error
  | logic_error
  | bad_alloc.

Inductive outcome (A : Type) :=
  | Ret (a : A)
  | Throw (e : exn)
  | AssertFail
  | Undef.
Arguments Ret {A} _.
Arguments Throw {A} _.
Arguments AssertFail {A}.
Arguments Undef {A}.

#[export] Instance exn_eq_dec : EqDecision exn.
Proof. solve_decision. Defined.
#[export] Instance outcome_eq_dec `{EqDecision A} : EqDecision (outcome A).
Proof. solve_decision. Defined.

#[export] Instance outcome_ret : MRet outcome := λ A a, Ret a.
#[export] Instance outcome_bind : MBind outcome := λ A B f m,
  match m with
  | Ret a => f a
  | Throw e => Throw e
  | AssertFail => AssertFail
  | Undef => Undef
  end.
#[export] Instance outcome_fmap : FMap outcome := λ A B f m,
  match m with
  | Ret a => Ret (f a)
  | Throw e => Throw e
  | AssertFail => AssertFail
  | Undef => Undef
  end.

(** [assert(b)] of <assert.h>, compiled in. *)
Definition assert_ (b : bool) : outcome unit := if b then Ret () else AssertFail.
(** Execution is undefined unless [b]. *)
Definition defined (b : bool) : outcome unit := if b then Ret () else Undef.
(** [opt] as an outcome, undefined when absent (a dangling or singular
    iterator, an index past the end of operator[]). *)
Definition or_undef {A} (o : option A) : outcome A := from_option Ret Undef o.

Definition is_Ret {A} (o : outcome A) : Prop := ∃ a, o = Ret a.

Lemma outcome_bind_Ret {A B} (m : outcome A) (f : A → outcome B) b :
  m ≫= f = Ret b ↔ ∃ a, m = Ret a ∧ f a = Ret b.
Proof.
  split.
  - destruct m as [a| | |]; simpl; [|discriminate..]. intros H. by exists a.
  - intros (a & -> & H). done.
Qed.

Lemma assert_true b : b = true → assert_ b = Ret ().
Proof. by intros ->. Qed.

(** ** Stateful calls

    The state is threaded through exceptions: what a call changed before it
    threw stays changed. *)
Definition ST (S A : Type) : Type := S → outcome A * S.

#[export] Instance ST_ret S : MRet (ST S) := λ A a s, (Ret a, s).
#[export] Instance ST_bind S : MBind (ST S) := λ A B f m s,
  match m s with
  | (Ret a, s') => f a s'
  | (Throw e, s') => (Throw e, s')
  | (AssertFail, s') => (AssertFail, s')
  | (Undef, s') => (Undef, s')
  end.

Definition st_get {S} : ST S S := λ s, (Ret s, s).
Definition st_put {S} (s' : S) : ST S unit := λ _, (Ret (), s').
Definition st_modify {S} (f : S → S) : ST S unit := λ s, (Ret (), f s).
Definition st_gets {S A} (f : S → A) : ST S A := λ s, (Ret (f s), s).
(** A stateless outcome inside a stateful call. *)
Definition lift {S A} (o : outcome A) : ST S A := λ s, (o, s).

Lemma ST_bind_eq {S A B} (m : ST S A) (f : A → ST S B) s a s' :
  m s = (Ret a, s') → (m ≫= f) s = f a s'.
Proof. intros H. unfold mbind, ST_bind. by rewrite H. Qed.

Lemma ST_bind_Undef {S A B} (m : ST S A) (k : A → ST S B) s : (m s).1 = Undef → ((m ≫= k) s).1 = Undef.
Proof. unfold mbind, ST_bind. destruct (m s) as [r s']. cbn. by intros ->. Qed.

Lemma ST_bind_Ret {S A B} (m : ST S A) (f : A → ST S B) s b s'' :
  (m ≫= f) s = (Ret b, s'') ↔ ∃ a s', m s = (Ret a, s') ∧ f a s' = (Ret b, s'').
Proof.
  unfold mbind, ST_bind. split.
  - destruct (m s) as [[a| | |] s'] eqn:E; [|done..]. intros H. by exists a, s'.
  - intros (a & s' & -> & H). done.
Qed.

(** [safe m s Q]: from [s] the call returns with [Q], or memory runs out; no
    assertion fails and nothing undefined happens. *)
Definition safe {S A} (m : ST S A) (s : S) (Q : A → S → Prop) : Prop :=
  match m s with
  | (Ret a, s') => Q a s'
  | (Throw length_error, _) | (Throw bad_alloc, _) => True
  | _ => False
  end.

Section Safe.
Context {S : Type}.

Lemma safe_ret {A} (a : A) (s : S) (Q : A → S → Prop) : Q a s → safe (mret a) s Q.
Proof. done. Qed.

Lemma safe_bind {A B} (m : ST S A) (f : A → ST S B) s Q :
  safe m s (λ a s', safe (f a) s' Q) → safe (m ≫= f) s Q.
Proof. unfold safe, mbind, ST_bind. by destruct (m s) as [[a|[]| |] s']. Qed.

Lemma safe_mono {A} (m : ST S A) s (Q Q' : A → S → Prop) :
  safe m s Q → (∀ a s', Q a s' → Q' a s') → safe m s Q'.
Proof. unfold safe. intros H HQ. destruct (m s) as [[a|[]| |] s']; auto. Qed.

Lemma safe_get (s : S) (Q : S → S → Prop) : Q s s → safe st_get s Q.
Proof. done. Qed.

Lemma safe_put (s s' : S) (Q : unit → S → Prop) : Q () s' → safe (st_put s') s Q.
Proof. done. Qed.

Lemma safe_modify (f : S → S) s (Q : unit → S → Prop) : Q () (f s) → safe (st_modify f) s Q.
Proof. done. Qed.

Lemma safe_lift {A} (o : outcome A) s a (Q : A → S → Prop) : o = Ret a → Q a s → safe (lift o) s Q.
Proof. by intros ->. Qed.

Lemma safe_holds {A} (m : ST S A) s a s' (Q : A → S → Prop) : m s = (Ret a, s') → Q a s' → safe m s Q.
Proof. unfold safe. by intros ->. Qed.

Lemma safe_throws {A} (m : ST S A) s (Q : A → S → Prop) : fst (m s) = Throw length_error → safe m s Q.
Proof. unfold safe. by destruct (m s) as [? ?]; intros [= ->]. Qed.
End Safe.

(** Run the calls that only read or write the state. *)
Ltac safe_step1 :=
  cbv beta;
  lazymatch goal with
  | |- safe (mbind _ _) _ _ => apply safe_bind
  | |- safe st_get _ _ => apply safe_get
  | |- safe (st_put _) _ _ => apply safe_put
  | |- safe (st_modify _) _ _ => apply safe_modify
  | |- safe (mret _) _ _ => apply safe_ret
  end.
Ltac safe_step := repeat safe_step1; cbv beta.

(** ** Machine integers

    [int] is 32 bits, [size_t] and [uint64_t] 64 bits (LP64). *)
Definition wrapu (w z : Z) : Z := z mod 2 ^ w.
Definition wraps (w z : Z) : Z := (z + 2 ^ (w - 1)) mod 2 ^ w - 2 ^ (w - 1).
Definition u64 : Z → Z := wrapu 64.
Definition u32 : Z → Z := wrapu 32.
Definition i32 : Z → Z := wraps 32.
Definition i64 : Z → Z := wraps 64.

Definition in_u (w z : Z) : Prop := 0 ≤ z < 2 ^ w.
Definition in_s (w z : Z) : Prop := - 2 ^ (w - 1) ≤ z < 2 ^ (w - 1).
Definition in_sb (w z : Z) : bool := (- 2 ^ (w - 1) <=? z) && (z <? 2 ^ (w - 1)).

Lemma wrapu_small w z : in_u w z → wrapu w z = z.
Proof. intros H. by apply Z.mod_small. Qed.

Lemma wrapu_range w z : 0 ≤ w → in_u w (wrapu w z).
Proof. intros Hw. apply Z.mod_pos_bound, Z.pow_pos_nonneg; lia. Qed.

Lemma pow2_split w : 0 < w → 2 ^ w = 2 * 2 ^ (w - 1).
Proof. intros Hw. rewrite <-Z.pow_succ_r by lia. f_equal. lia. Qed.

Lemma wraps_range w z : 0 < w → in_s w (wraps w z).
Proof.
  intros Hw. unfold in_s, wraps. pose proof (pow2_split w Hw).
  assert (0 < 2 ^ (w - 1)) by (apply Z.pow_pos_nonneg; lia).
  pose proof (Z.mod_pos_bound (z + 2 ^ (w - 1)) (2 ^ w)). lia.
Qed.

Lemma wraps_small w z : 0 < w → in_s w z → wraps w z = z.
Proof.
  intros Hw Hz. unfold in_s, wraps in *. pose proof (pow2_split w Hw).
  rewrite Z.mod_small; lia.
Qed.

Lemma i32_small z : - 2 ^ 31 ≤ z < 2 ^ 31 → i32 z = z.
Proof. intros Hz. apply wraps_small; [done|]. unfold in_s. change (32 - 1) with 31. done. Qed.

(** Converting to unsigned and back to signed of the same width is the
    identity on the signed range. *)
Lemma wraps_wrapu w z : 0 < w → wraps w (wrapu w z) = wraps w z.
Proof.
  intros Hw. unfold wraps, wrapu. f_equal.
  rewrite Zplus_mod_idemp_l. done.
Qed.

Lemma wrapu_wraps w z : 0 < w → wrapu w (wraps w z) = wrapu w z.
Proof.
  intros Hw. unfold wraps, wrapu.
  rewrite Zminus_mod_idemp_l. f_equal. lia.
Qed.

Lemma in_sb_spec w z : in_sb w z = true ↔ in_s w z.
Proof. unfold in_sb, in_s. rewrite andb_true_iff, Z.leb_le, Z.ltb_lt. done. Qed.

(** Bitwise operations stay in the unsigned range. *)
Lemma testbit_in_u w z : 0 ≤ w → 0 ≤ z → (∀ i, w ≤ i → Z.testbit z i = false) → in_u w z.
Proof.
  intros Hw Hz Hb. split; [done|]. destruct (decide (z < 2 ^ w)) as [|Hge]; [done|exfalso].
  assert (w ≤ Z.log2 z) as Hl by (apply Z.log2_le_pow2; lia).
  pose proof (Z.bit_log2 z) as Hlog. rewrite Hb in Hlog by done.
  assert (0 < z) as Hz' by (pose proof (Z.pow_pos_nonneg 2 w); lia). discriminate (Hlog Hz').
Qed.

Lemma in_u_testbit w z i : in_u w z → w ≤ i → Z.testbit z i = false.
Proof.
  intros [H0 Hw] Hi. destruct (decide (z = 0)) as [->|]; [apply Z.bits_0|].
  apply Z.bits_above_log2; [lia|].
  assert (Z.log2 z < w); [apply Z.log2_lt_pow2; lia|lia].
Qed.

Lemma lxor_in_u w a b : 0 ≤ w → in_u w a → in_u w b → in_u w (Z.lxor a b).
Proof.
  intros Hw Ha Hb. apply testbit_in_u; [done|apply Z.lxor_nonneg; unfold in_u in *; lia|].
  intros i Hi. by rewrite Z.lxor_spec, (in_u_testbit w a), (in_u_testbit w b).
Qed.

Lemma lor_in_u w a b : 0 ≤ w → in_u w a → in_u w b → in_u w (Z.lor a b).
Proof.
  intros Hw Ha Hb. apply testbit_in_u; [done|apply Z.lor_nonneg; unfold in_u in *; lia|].
  intros i Hi. by rewrite Z.lor_spec, (in_u_testbit w a), (in_u_testbit w b).
Qed.

(** ** Characters and strings

    A [std::string] is a list of bytes; [s!"GET"] is the C++ literal. *)
Abbreviation bytes := (list ascii).

Definition b_of_string (s : string) : bytes := Stdlib.Strings.String.list_ascii_of_string s.
Notation "s! x" := (b_of_string x) (at level 1, x constr at level 0, format "s! x").

Definition byte_Z (c : ascii) : Z := Z.of_N (N_of_ascii c).
Definition Z_byte (z : Z) : ascii := ascii_of_N (Z.to_N (z mod 256)).

Lemma byte_Z_range c : 0 ≤ byte_Z c < 256.
Proof.
  unfold byte_Z. pose proof (N_ascii_bounded c). lia.
Qed.

Lemma Z_byte_Z c : Z_byte (byte_Z c) = c.
Proof.
  unfold Z_byte. rewrite Z.mod_small by apply byte_Z_range.
  unfold byte_Z. by rewrite N2Z.id, ascii_N_embedding.
Qed.

Lemma byte_Z_byte z : byte_Z (Z_byte z) = z mod 256.
Proof.
  unfold byte_Z, Z_byte.
  assert (0 ≤ z mod 256 < 256) by (apply Z.mod_pos_bound; lia).
  rewrite N_ascii_embedding by lia. lia.
Qed.

Definition zlen {A} (l : list A) : Z := Z.of_nat (length l).
Definition ztake {A} (n : Z) (l : list A) : list A := take (Z.to_nat n) l.
Definition zdrop {A} (n : Z) (l : list A) : list A := drop (Z.to_nat n) l.

Lemma zlen_app {A} (l k : list A) : zlen (l ++ k) = zlen l + zlen k.
Proof. unfold zlen. rewrite length_app. lia. Qed.
Lemma zlen_nonneg {A} (l : list A) : 0 ≤ zlen l.
Proof. unfold zlen. lia. Qed.
Lemma zlen_ztake {A} n (l : list A) : 0 ≤ n ≤ zlen l → zlen (ztake n l) = n.
Proof. unfold zlen, ztake. intros. rewrite length_take. lia. Qed.
Lemma zlen_zdrop {A} n (l : list A) : 0 ≤ n ≤ zlen l → zlen (zdrop n l) = zlen l - n.
Proof. unfold zlen, zdrop. intros. rewrite length_drop. lia. Qed.
Lemma ztake_zdrop {A} n (l : list A) : ztake n l ++ zdrop n l = l.
Proof. apply take_drop. Qed.
Lemma zlen_0_inv {A} (l : list A) : zlen l = 0 → l = [].
Proof. unfold zlen. destruct l; simpl; [done | lia]. Qed.

Lemma filter_all {A} (P : A → Prop) `{∀ x, Decision (P x)} (l : list A) :
  (∀ x, x ∈ l → P x) → filter P l = l.
Proof.
  induction l as [|x l IH]; intros HP; [done|].
  rewrite filter_cons_True by (apply HP; left). f_equal.
  apply IH. intros y Hy. apply HP. by right.
Qed.

Lemma StronglySorted_filter {A} (R : A → A → Prop) (P : A → Prop)
    `{∀ x, Decision (P x)} (l : list A) :
  StronglySorted R l → StronglySorted R (filter P l).
Proof.
  induction 1 as [|x l Hl IH Hall]; [constructor|].
  rewrite filter_cons. case_decide; [|done]. constructor; [done|].
  rewrite Forall_forall in *. intros y Hy. apply list_elem_of_filter in Hy as [_ ?]. auto.
Qed.

(** Filtering two related lists by predicates that agree on related elements. *)
Lemma Forall2_filter_iff {A B} (R : A → B → Prop) (P : A → Prop) (Q : B → Prop)
    `{∀ x, Decision (P x), ∀ y, Decision (Q y)} (l : list A) (k : list B) :
  Forall2 R l k → (∀ x y, x ∈ l → y ∈ k → R x y → (P x ↔ Q y)) →
  Forall2 R (filter P l) (filter Q k).
Proof.
  induction 1 as [|x y l k Hxy Hlk IH]; intros HPQ; [constructor|].
  assert (P x ↔ Q y) as Hiff by (apply HPQ; [left..|done]).
  assert (Forall2 R (filter P l) (filter Q k)) as Hrec.
  { apply IH. intros. apply HPQ; [by right..|done]. }
  rewrite !filter_cons.
  destruct (decide (P x)), (decide (Q y)); [by constructor|tauto..|done].
Qed.

Lemma Forall2_elem_l {A B} (R : A → B → Prop) (l : list A) (k : list B) x :
  Forall2 R l k → x ∈ l → ∃ y, y ∈ k ∧ R x y.
Proof.
  induction 1 as [|x' y l k Hxy Hlk IH]; intros Hx; [by apply not_elem_of_nil in Hx|].
  apply elem_of_cons in Hx as [->|Hx]; [exists y; split; [left|done]|].
  destruct (IH Hx) as (z & ? & ?). exists z. split; [by right|done].
Qed.

Lemma Forall2_elem_r {A B} (R : A → B → Prop) (l : list A) (k : list B) y :
  Forall2 R l k → y ∈ k → ∃ x, x ∈ l ∧ R x y.
Proof. intros HR%Forall2_flip. by apply (Forall2_elem_l (flip R)). Qed.

(** [s.substr(pos, n)]: throws when [pos > s.size()], clamps the length. *)
Definition substr (s : bytes) (pos n : Z) : outcome bytes :=
  if pos <=? zlen s then Ret (ztake n (zdrop pos s)) else Throw out_of_range.

Create HintDb cxx discriminated.
#[export] Hint Resolve zlen_nonneg byte_Z_range : cxx.

(** ** Automation shared by the components *)

(** Case analysis on every boolean comparison in the goal and the context. *)
Ltac bool_to_prop :=
  repeat match goal with
  | H : _ && _ = true |- _ => apply andb_prop in H as [??]
  | H : (_ <=? _) = true |- _ => apply Z.leb_le in H
  | H : (_ <=? _) = false |- _ => apply Z.leb_gt in H
  | H : (_ <? _) = true |- _ => apply Z.ltb_lt in H
  | H : (_ <? _) = false |- _ => apply Z.ltb_ge in H
  | H : (_ =? _) = true |- _ => apply Z.eqb_eq in H
  | H : (_ =? _) = false |- _ => apply Z.eqb_neq in H
  | H : bool_decide _ = true |- _ => apply bool_decide_eq_true in H
  | H : bool_decide _ = false |- _ => apply bool_decide_eq_false in H
  | H : negb _ = true |- _ => apply negb_true_iff in H
  | H : negb _ = false |- _ => apply negb_false_iff in H
  end.

(** Split on the boolean scrutinee of an [if] in the goal. *)
Ltac case_if :=
  match goal with
  | |- context [if ?b then _ else _] =>
      let E := fresh "E" in destruct b eqn:E; bool_to_prop
  end.

(** Split on the boolean scrutinee of an [if] in a hypothesis. *)
Ltac case_if_in H :=
  match type of H with
  | context [if ?b then _ else _] =>
      let E := fresh "E" in destruct b eqn:E; bool_to_prop
  end.
