(* ===== verification/StdContainers.v ===== *)
(** * Standard containers with iterator identity

    [std::list] and [std::multimap] as the code uses them: iterators are kept
    in other containers and dereferenced or erased later, so a node has an
    identity that survives insertions and removals elsewhere.  A node is a
    pair of its identity and its element; an iterator is the identity of a
    node, [None] being a singular (default-constructed) iterator. *)
From S2P Require Import Prelude.
Local Open Scope Z_scope.

Abbreviation iter := (option nat).

Record nodes (A : Type) := Nodes {
  nl_next : nat;                (* a fresh identity *)
  nl_nodes : list (nat * A);    (* the nodes, begin() first *)
}.
Arguments Nodes {A} _ _.
Arguments nl_next {A} _.
Arguments nl_nodes {A} _.

Section Nodes.
Context {A : Type}.
Implicit Types (l : nodes A) (a : A) (ns : list (nat * A)).

Definition nl_empty : nodes A := Nodes 0 [].
Definition nl_size l : Z := zlen (nl_nodes l).
Definition nl_elems l : list A := (nl_nodes l).*2.

(** [begin()]; [None] stands for [end()] of an empty container. *)
Definition nl_begin l : iter := fst <$> head (nl_nodes l).

Definition nl_push_front a l : nodes A :=
  Nodes (S (nl_next l)) ((nl_next l, a) :: nl_nodes l).

(** [back()]: undefined on an empty container. *)
Definition nl_back l : outcome A := or_undef (snd <$> last (nl_nodes l)).

(** [pop_back()]: undefined on an empty container. *)
Definition nl_pop_back l : outcome (nodes A) :=
  match last (nl_nodes l) with
  | None => Undef
  | Some _ => Ret (Nodes (nl_next l) (take (length (nl_nodes l) - 1) (nl_nodes l)))
  end.

Definition node_ne (i : nat) (n : nat * A) : bool := bool_decide (n.1 ≠ i).

(** [erase(it)]: undefined unless [it] designates a node of the container. *)
Definition nl_erase (it : iter) l : outcome (nodes A) :=
  match it with
  | Some i =>
      if bool_decide (i ∈ (nl_nodes l).*1)
      then Ret (Nodes (nl_next l) (filter (λ n, node_ne i n) (nl_nodes l)))
      else Undef
  | None => Undef
  end.

Definition nl_wf l : Prop :=
  NoDup (nl_nodes l).*1 ∧ Forall (λ n : nat * A, (n.1 < nl_next l)%nat) (nl_nodes l).

Lemma nl_wf_empty : nl_wf nl_empty.
Proof. split; constructor. Qed.

Lemma nl_wf_unique l i a b :
  nl_wf l → (i, a) ∈ nl_nodes l → (i, b) ∈ nl_nodes l → a = b.
Proof.
  intros [Hnd _] Ha Hb.
  apply list_elem_of_lookup in Ha as [j Ha].
  apply list_elem_of_lookup in Hb as [k Hb].
  assert (j = k) as ->; [|by simplify_eq].
  eapply (NoDup_lookup _ j k i Hnd); rewrite list_lookup_fmap, ?Ha, ?Hb; done.
Qed.

Lemma nl_wf_fresh l : nl_wf l → nl_next l ∉ (nl_nodes l).*1.
Proof.
  intros [_ Hlt] Hn. apply list_elem_of_fmap in Hn as (n & Heq & Hin).
  rewrite Forall_forall in Hlt. apply Hlt in Hin. lia.
Qed.

Lemma nl_push_front_wf a l : nl_wf l → nl_wf (nl_push_front a l).
Proof.
  intros Hwf. pose proof (nl_wf_fresh l Hwf) as Hfr. destruct Hwf as [Hnd Hlt].
  split; simpl.
  - by constructor.
  - constructor; simpl; [lia|]. eapply Forall_impl; [done|]. simpl. lia.
Qed.

Lemma nl_erase_Ret i l :
  i ∈ (nl_nodes l).*1 →
  nl_erase (Some i) l = Ret (Nodes (nl_next l) (filter (λ n, node_ne i n) (nl_nodes l))).
Proof. intros Hi. unfold nl_erase. by rewrite bool_decide_eq_true_2. Qed.

Lemma node_ne_self i a : ¬ node_ne i (i, a).
Proof. unfold node_ne. rewrite bool_decide_spec. simpl. auto. Qed.

Lemma filter_nodes_elem_of i j a ns :
  (j, a) ∈ filter (λ n, node_ne i n) ns ↔ j ≠ i ∧ (j, a) ∈ ns.
Proof.
  rewrite list_elem_of_filter. unfold node_ne. simpl.
  rewrite bool_decide_spec. done.
Qed.

(** Erasing the only node [i] of a well-formed container. *)
Lemma nodes_split_at l i a :
  nl_wf l → (i, a) ∈ nl_nodes l →
  nl_nodes l ≡ₚ (i, a) :: filter (λ n, node_ne i n) (nl_nodes l).
Proof.
  intros Hwf Hin. pose proof Hwf as [Hnd _]. apply NoDup_Permutation.
  - by eapply NoDup_fmap_1.
  - constructor; [|by apply NoDup_filter, (NoDup_fmap_1 fst)].
    rewrite filter_nodes_elem_of. by intros [? _].
  - intros [j b]. rewrite elem_of_cons, filter_nodes_elem_of. split.
    + intros Hb. destruct (decide (j = i)) as [->|]; [left|by right].
      f_equal. by eapply nl_wf_unique.
    + by intros [[= -> ->]|[_ Hb]].
Qed.

Lemma filter_nodes_sublist i ns : filter (λ n, node_ne i n) ns `sublist_of` ns.
Proof. apply sublist_filter. Qed.

(** Dropping nodes keeps a container well formed. *)
Lemma nl_wf_sublist l ns : nl_wf l → ns `sublist_of` nl_nodes l → nl_wf (Nodes (nl_next l) ns).
Proof.
  intros [Hnd Hlt] Hsub. split; simpl.
  - eapply sublist_NoDup; [done|by apply fmap_sublist].
  - rewrite Forall_forall in *. intros n Hn. by eapply Hlt, elem_of_sublist.
Qed.
End Nodes.
Arguments nl_erase : simpl never.

(** ** [std::multimap]: nodes sorted by key; an insertion goes after the
    elements with an equal key. *)
Section Multimap.
Context {V : Type}.
Implicit Types m : nodes (Z * V).

Fixpoint mm_insert_nodes (n : nat * (Z * V)) (ns : list (nat * (Z * V))) :=
  match ns with
  | [] => [n]
  | n' :: ns' => if n'.2.1 <=? n.2.1 then n' :: mm_insert_nodes n ns' else n :: ns
  end.

(** [insert(make_pair(k, v))]: the new container and the iterator it returns. *)
Definition mm_insert (k : Z) (v : V) m : nodes (Z * V) * iter :=
  (Nodes (S (nl_next m)) (mm_insert_nodes (nl_next m, (k, v)) (nl_nodes m)),
   Some (nl_next m)).

Definition mm_sorted m : Prop := StronglySorted (λ a b : nat * (Z * V), a.2.1 <= b.2.1) (nl_nodes m).

Lemma mm_insert_nodes_perm n ns : mm_insert_nodes n ns ≡ₚ n :: ns.
Proof.
  induction ns as [|n' ns IH]; simpl; [done|]. case_if; [|done].
  rewrite IH. apply Permutation_swap.
Qed.

Lemma mm_insert_nodes_sorted n ns :
  StronglySorted (λ a b : nat * (Z * V), a.2.1 <= b.2.1) ns →
  StronglySorted (λ a b : nat * (Z * V), a.2.1 <= b.2.1) (mm_insert_nodes n ns).
Proof.
  induction 1 as [|n' ns Hss IH Hall]; simpl; [repeat constructor|].
  case_if; constructor; [done| |by constructor|].
  - rewrite mm_insert_nodes_perm. by constructor.
  - constructor; [lia|]. eapply Forall_impl; [done|]. simpl. lia.
Qed.

Lemma mm_insert_wf k v m : nl_wf m → nl_wf (mm_insert k v m).1.
Proof.
  intros Hwf. pose proof (nl_push_front_wf (k, v) m Hwf) as [Hnd Hlt].
  split; simpl; by rewrite mm_insert_nodes_perm.
Qed.

Lemma mm_insert_elem_of k v m i e :
  (i, e) ∈ nl_nodes (mm_insert k v m).1 ↔
  (i, e) = (nl_next m, (k, v)) ∨ (i, e) ∈ nl_nodes m.
Proof. simpl. rewrite mm_insert_nodes_perm. by rewrite elem_of_cons. Qed.
End Multimap.

(** ** Ordered string maps ([std::map<string, V>])

    The entries in increasing key order, as iteration visits them; keys compare
    byte by byte, unsigned. *)
Fixpoint bytes_cmp (s t : bytes) : comparison :=
  match s, t with
  | [], [] => Eq
  | [], _ :: _ => Lt
  | _ :: _, [] => Gt
  | c :: s', d :: t' =>
      match Z.compare (byte_Z c) (byte_Z d) with
      | Eq => bytes_cmp s' t'
      | o => o
      end
  end.

Lemma byte_Z_inj c d : byte_Z c = byte_Z d → c = d.
Proof. intros H. by rewrite <-(Z_byte_Z c), <-(Z_byte_Z d), H. Qed.

Lemma bytes_cmp_Eq s t : bytes_cmp s t = Eq ↔ s = t.
Proof.
  revert t. induction s as [|c s IH]; intros [|d t]; simpl; [done..|].
  destruct (Z.compare_spec (byte_Z c) (byte_Z d)) as [Hc|Hc|Hc].
  - apply byte_Z_inj in Hc as ->. rewrite IH. split; [by intros ->|by intros [= ->]].
  - split; [done|]. intros [= -> ->]. lia.
  - split; [done|]. intros [= -> ->]. lia.
Qed.

Lemma bytes_cmp_Gt s t : bytes_cmp s t = Gt ↔ bytes_cmp t s = Lt.
Proof.
  revert t. induction s as [|c s IH]; intros [|d t]; simpl; [done..|].
  rewrite (Z.compare_antisym (byte_Z c) (byte_Z d)).
  destruct (Z.compare (byte_Z c) (byte_Z d)); simpl; [apply IH|done..].
Qed.

Lemma bytes_cmp_trans s t u : bytes_cmp s t = Lt → bytes_cmp t u = Lt → bytes_cmp s u = Lt.
Proof.
  revert t u. induction s as [|c s IH]; intros [|d t] [|f u]; simpl; try done.
  destruct (Z.compare_spec (byte_Z c) (byte_Z d)) as [Hc|Hc|Hc]; [|intros _|done];
    destruct (Z.compare_spec (byte_Z d) (byte_Z f)) as [Hd|Hd|Hd]; try done.
  - rewrite Hc, Hd, Z.compare_refl. apply IH.
  - intros _ _. rewrite Hc. by rewrite (proj2 (Z.compare_lt_iff _ _) Hd).
  - intros _. by rewrite <-Hd, (proj2 (Z.compare_lt_iff _ _) Hc).
  - intros _. by rewrite (proj2 (Z.compare_lt_iff (byte_Z c) (byte_Z f))) by lia.
Qed.

Section Smap.
Context {V : Type}.
Implicit Types (m : list (bytes * V)) (k : bytes).

(** [m[k] = v] *)
Fixpoint smap_insert k (v : V) m : list (bytes * V) :=
  match m with
  | [] => [(k, v)]
  | (k', v') :: m' =>
      match bytes_cmp k k' with
      | Lt => (k, v) :: m
      | Eq => (k, v) :: m'
      | Gt => (k', v') :: smap_insert k v m'
      end
  end.

(** [m.find(k)] *)
Fixpoint smap_find k m : option V :=
  match m with
  | [] => None
  | (k', v) :: m' => if bool_decide (k = k') then Some v else smap_find k m'
  end.

Definition smap_sorted m : Prop := StronglySorted (λ a b, bytes_cmp a b = Lt) (fst <$> m).

Lemma smap_find_insert k v m : smap_find k (smap_insert k v m) = Some v.
Proof.
  induction m as [|[k' v'] m IH]; simpl; [by rewrite bool_decide_eq_true_2|].
  destruct (bytes_cmp k k') eqn:E; simpl; [by rewrite bool_decide_eq_true_2..|].
  case_bool_decide as Hk; [|done]. apply bytes_cmp_Eq in Hk. congruence.
Qed.

Lemma smap_find_insert_ne k k' v m : k ≠ k' → smap_find k (smap_insert k' v m) = smap_find k m.
Proof.
  intros Hne. induction m as [|[k1 v1] m IH]; simpl; [by rewrite bool_decide_eq_false_2|].
  destruct (bytes_cmp k' k1) eqn:E; simpl.
  - apply bytes_cmp_Eq in E as ->. by rewrite !bool_decide_eq_false_2.
  - by rewrite (bool_decide_eq_false_2 (k = k')).
  - by rewrite IH.
Qed.

Lemma smap_insert_keys k v m x : x ∈ fst <$> smap_insert k v m → x = k ∨ x ∈ fst <$> m.
Proof.
  induction m as [|[k' v'] m IH]; simpl; [by intros ->%list_elem_of_singleton; left|].
  destruct (bytes_cmp k k'); simpl; rewrite !elem_of_cons.
  - intros [->|]; [by left|right; by right].
  - tauto.
  - intros [->|[->|]%IH]; [right; by left|by left|right; by right].
Qed.

Lemma smap_insert_sorted k v m : smap_sorted m → smap_sorted (smap_insert k v m).
Proof.
  unfold smap_sorted. induction m as [|[k' v'] m IH]; simpl; intros Hs; [by repeat constructor|].
  apply StronglySorted_inv in Hs as [Hs Hall]. destruct (bytes_cmp k k') eqn:E; simpl.
  - apply bytes_cmp_Eq in E as ->. by constructor.
  - constructor; [by constructor|]. constructor; [done|].
    eapply Forall_impl; [exact Hall|]. intros x Hx. by eapply bytes_cmp_trans.
  - constructor; [by apply IH|]. apply Forall_forall. intros x [->|Hx]%smap_insert_keys.
    + by apply bytes_cmp_Gt.
    + rewrite Forall_forall in Hall. by apply Hall.
Qed.

(** A later entry of the same key wins; the others keep theirs. *)
Lemma smap_find_insert_if k k' v m :
  smap_find k (smap_insert k' v m) = if bool_decide (k = k') then Some v else smap_find k m.
Proof.
  case_bool_decide as H; [subst; apply smap_find_insert|by apply smap_find_insert_ne].
Qed.

(** [m.erase(k)] *)
Definition smap_erase k m : list (bytes * V) := filter (λ p, p.1 ≠ k) m.

Lemma smap_find_erase_if k k' m :
  smap_find k (smap_erase k' m) = if bool_decide (k = k') then None else smap_find k m.
Proof.
  unfold smap_erase. induction m as [|[k1 v1] m IH]; [simpl; by case_bool_decide|].
  destruct (decide (k1 = k')) as [H1|H1].
  - rewrite filter_cons_False by (simpl; auto). rewrite IH. subst k1. cbn [smap_find].
    by case_bool_decide.
  - rewrite filter_cons_True by done. cbn [smap_find]. rewrite IH.
    case_bool_decide as Hk; [subst; by rewrite bool_decide_eq_false_2|done].
Qed.

Lemma smap_erase_keys k m : fst <$> smap_erase k m = filter (λ x, x ≠ k) (fst <$> m).
Proof.
  unfold smap_erase. induction m as [|[k1 v1] m IH]; [done|].
  rewrite fmap_cons. destruct (decide (k1 = k)) as [H1|H1].
  - by rewrite !filter_cons_False by (simpl; auto).
  - rewrite !filter_cons_True by done. by rewrite fmap_cons, IH.
Qed.

Lemma smap_erase_sorted k m : smap_sorted m → smap_sorted (smap_erase k m).
Proof. unfold smap_sorted. rewrite smap_erase_keys. apply StronglySorted_filter. Qed.

Lemma smap_find_elem k (v : V) m : smap_find k m = Some v → (k, v) ∈ m.
Proof.
  induction m as [|[k1 v1] m IH]; simpl; [done|].
  case_bool_decide as Hk; intros H; [injection H as ->; subst; by left|right; by apply IH].
Qed.

Lemma smap_elem_find k (v : V) m : smap_sorted m → (k, v) ∈ m → smap_find k m = Some v.
Proof.
  unfold smap_sorted. induction m as [|[k1 v1] m IH]; simpl; [by intros _ ?%elem_of_nil|].
  intros [Hs Hall]%StronglySorted_inv [[= -> ->]|Hin]%elem_of_cons; [by rewrite bool_decide_eq_true_2|].
  rewrite bool_decide_eq_false_2; [by apply IH|]. intros ->.
  rewrite Forall_forall in Hall. specialize (Hall k1).
  assert (Hc : bytes_cmp k1 k1 = Eq) by by apply bytes_cmp_Eq. rewrite Hc in Hall.
  discriminate Hall. change k1 with (fst (k1, v)). by apply list_elem_of_fmap_2.
Qed.

Lemma smap_find_None k m : smap_find k m = None ↔ k ∉ fst <$> m.
Proof.
  induction m as [|[k1 v1] m IH]; simpl; [split; [intros _; apply not_elem_of_nil|done]|].
  rewrite not_elem_of_cons, <-IH. case_bool_decide; naive_solver.
Qed.
End Smap.

(** The keys after an insertion do not depend on the values. *)
Lemma smap_insert_keys_eq {V W} k (v : V) (w : W) m n :
  fst <$> m = fst <$> n → fst <$> smap_insert k v m = fst <$> smap_insert k w n.
Proof.
  revert n. induction m as [|[k1 v1] m IH]; intros [|[k2 w2] n]; simpl; [done..|].
  intros [= -> Hk]. destruct (bytes_cmp k k2); simpl; [by rewrite Hk..|].
  f_equal. by apply IH.
Qed.
