(* ===== verification/CxxString.v ===== *)
(** * Strings of the C and C++ standard libraries

    [isspace]/[isdigit] in the C locale, [std::stoi], the decimal conversions
    of [snprintf], and the searches [std::find] and [std::search], with the
    round trip between printing and parsing. *)
From S2P Require Import Prelude.
Local Open Scope Z_scope.

Definition is_space (c : ascii) : bool :=
  (byte_Z c =? 32) || ((9 <=? byte_Z c) && (byte_Z c <=? 13)).
Definition is_digit (c : ascii) : bool := (48 <=? byte_Z c) && (byte_Z c <=? 57).
Definition digit_val (c : ascii) : Z := byte_Z c - 48.
Definition digit_char (d : Z) : ascii := Z_byte (48 + d).

Fixpoint skip_spaces (s : bytes) : bytes :=
  match s with
  | c :: s' => if is_space c then skip_spaces s' else s
  | [] => []
  end.

(** The value of the leading digits of [s], after those already read. *)
Fixpoint scan_digits (acc : Z) (s : bytes) : Z :=
  match s with
  | c :: s' => if is_digit c then scan_digits (10 * acc + digit_val c) s' else acc
  | [] => acc
  end.

Definition split_sign (s : bytes) : bool * bytes :=
  match s with
  | c :: s' =>
      if byte_Z c =? 45 then (true, s') else if byte_Z c =? 43 then (false, s') else (false, s)
  | [] => (false, s)
  end.

(** [std::stoi(s)]: leading white space, an optional sign, at least one
    digit; what follows the digits is ignored. *)
Definition stoi (s : bytes) : outcome Z :=
  let '(neg, s') := split_sign (skip_spaces s) in
  match s' with
  | c :: _ =>
      if is_digit c then
        let v := scan_digits 0 s' in
        let v := if neg : bool then - v else v in
        if in_sb 32 v then Ret v else Throw out_of_range
      else Throw invalid_argument
  | [] => Throw invalid_argument
  end.

(** [n] decimal digits, zero padded ("%0nd" for [0 <= z < 10^n]). *)
Fixpoint dec_w (n : nat) (z : Z) : bytes :=
  match n with
  | O => []
  | S n' => dec_w n' (z / 10) ++ [digit_char (z mod 10)]
  end.

(** The shortest decimal digits of a natural number ("%u"), least significant
    digit produced first. *)
Fixpoint dec_rev (fuel : nat) (z : Z) : bytes :=
  match fuel with
  | O => []
  | S fuel' => digit_char (z mod 10) :: (if z / 10 =? 0 then [] else dec_rev fuel' (z / 10))
  end.

(** Twenty digits hold every 64-bit number. *)
Definition dec_nat (z : Z) : bytes := reverse (dec_rev 20 z).
(** "%d" *)
Definition dec_int (z : Z) : bytes := if z <? 0 then s!"-" ++ dec_nat (- z) else dec_nat z.

Lemma length_dec_w n z : length (dec_w n z) = n.
Proof. revert z. induction n as [|n IH]; intros z; simpl; [done|]. rewrite length_app, IH. simpl. lia. Qed.

Lemma digit_char_Z d : 0 ≤ d < 10 → byte_Z (digit_char d) = 48 + d.
Proof. intros H. unfold digit_char. rewrite byte_Z_byte. apply Z.mod_small. lia. Qed.

Lemma digit_char_spec d : 0 ≤ d < 10 →
  is_digit (digit_char d) = true ∧ digit_val (digit_char d) = d ∧ is_space (digit_char d) = false.
Proof.
  intros H. unfold is_digit, digit_val, is_space. rewrite digit_char_Z by done. lia.
Qed.

Definition all_digits (s : bytes) : Prop := Forall (λ c, is_digit c = true) s.

(** The number all the digits of [s] denote. *)
Definition digits_val (s : bytes) : Z := scan_digits 0 s.

Lemma scan_digits_app acc s t :
  all_digits s → scan_digits acc (s ++ t) = scan_digits (scan_digits acc s) t.
Proof.
  intros H. revert acc. induction H as [|c s Hc Hs IH]; intros acc; simpl; [done|]. by rewrite Hc.
Qed.

Lemma scan_digits_shift acc s :
  all_digits s → scan_digits acc s = acc * 10 ^ zlen s + digits_val s.
Proof.
  unfold digits_val, zlen. intros H. revert acc.
  induction H as [|c s Hc Hs IH]; intros acc; simpl length; simpl scan_digits; [lia|].
  rewrite Hc, IH, (IH (10 * 0 + digit_val c)), Nat2Z.inj_succ, Z.pow_succ_r by lia. lia.
Qed.

Lemma digit_char_all d s : 0 ≤ d < 10 → all_digits s → all_digits (s ++ [digit_char d]).
Proof.
  intros Hd Hs. apply Forall_app. split; [done|]. constructor; [|done]. by apply digit_char_spec.
Qed.

Lemma dec_w_digits n z : all_digits (dec_w n z).
Proof.
  revert z. induction n as [|n IH]; intros z; simpl; [constructor|].
  apply digit_char_all; [|done]. apply Z.mod_pos_bound. lia.
Qed.

Lemma dec_w_val n z : 0 ≤ z < 10 ^ Z.of_nat n → digits_val (dec_w n z) = z.
Proof.
  revert z. induction n as [|n IH]; intros z Hz; [unfold digits_val; simpl in *; lia|].
  rewrite Nat2Z.inj_succ, Z.pow_succ_r in Hz by lia.
  simpl dec_w. unfold digits_val. rewrite scan_digits_app by apply dec_w_digits.
  fold (digits_val (dec_w n (z / 10))). rewrite IH.
  2:{ split; [apply Z.div_pos; lia|]. apply Z.div_lt_upper_bound; lia. }
  assert (0 ≤ z mod 10 < 10) as Hm by (apply Z.mod_pos_bound; lia).
  simpl. destruct (digit_char_spec _ Hm) as (-> & -> & _).
  pose proof (Z.div_mod z 10). lia.
Qed.

(** What a number printed in front of [t] is read as. *)
Lemma read_printed c s t :
  all_digits (c :: s) → (∀ c' t', t = c' :: t' → is_digit c' = false) →
  is_digit c = true ∧ 0 ≤ digits_val (c :: s) ∧ scan_digits 0 ((c :: s) ++ t) = digits_val (c :: s) ∧
  split_sign (skip_spaces ((c :: s) ++ t)) = (false, (c :: s) ++ t).
Proof.
  intros Hs Ht. inversion Hs as [|? ? Hc Hs']; subst.
  assert (0 ≤ byte_Z c - 48 ∧ 48 ≤ byte_Z c ≤ 57) as Hr.
  { unfold is_digit in Hc. bool_to_prop. lia. }
  assert (is_space c = false) as Hsp by (unfold is_space; lia).
  split; [done|]. split; [|split].
  - unfold digits_val. simpl. rewrite Hc.
    assert (∀ acc, 0 ≤ acc → 0 ≤ scan_digits acc s) as Hacc; [|apply Hacc; unfold digit_val; lia].
    clear Hs Hsp. induction Hs' as [|c' s Hc' Hs' IH]; intros acc Hacc; simpl; [done|]. rewrite Hc'.
    unfold is_digit in Hc'. bool_to_prop. unfold digit_val. apply IH. lia.
  - rewrite scan_digits_app by done. fold (digits_val (c :: s)).
    destruct t as [|c' t]; [done|]. simpl. by rewrite (Ht c' t).
  - change ((c :: s) ++ t) with (c :: (s ++ t)). cbn [skip_spaces]. rewrite Hsp. unfold split_sign.
    by rewrite (proj2 (Z.eqb_neq (byte_Z c) 45)), (proj2 (Z.eqb_neq (byte_Z c) 43)) by lia.
Qed.

(** Reading a string of digits that starts with a digit. *)
Lemma stoi_digits s t :
  all_digits s → s ≠ [] → (∀ c t', t = c :: t' → is_digit c = false) → digits_val s < 2 ^ 31 →
  stoi (s ++ t) = Ret (digits_val s).
Proof.
  intros Hs Hne Ht Hv. destruct s as [|c s]; [done|].
  destruct (read_printed c s t Hs Ht) as (Hc & Hpos & Hscan & Hsign).
  unfold stoi. rewrite Hsign. cbn [app] in *. rewrite Hc, Hscan, (proj2 (in_sb_spec 32 _)); [done|].
  unfold in_s. simpl. lia.
Qed.

(** [strtol(s, NULL, 10)], and [atol]: no digits read as 0, too large values
    as the largest. *)
Definition strtol (s : bytes) : Z :=
  let '(neg, s') := split_sign (skip_spaces s) in
  let v := scan_digits 0 s' in
  Z.max (- 2 ^ 63) (Z.min (2 ^ 63 - 1) (if neg : bool then - v else v)).

(** [atoi]: undefined when the value is no [int]. *)
Definition atoi (s : bytes) : outcome Z :=
  let v := strtol s in if in_sb 32 v then Ret v else Undef.

Lemma strtol_digits s t :
  all_digits s → s ≠ [] → (∀ c t', t = c :: t' → is_digit c = false) → digits_val s < 2 ^ 63 →
  strtol (s ++ t) = digits_val s.
Proof.
  intros Hs Hne Ht Hv. destruct s as [|c s]; [done|].
  destruct (read_printed c s t Hs Ht) as (Hc & Hpos & Hscan & Hsign).
  unfold strtol. rewrite Hsign, Hscan. simpl (2 ^ 63). simpl (2 ^ 63) in Hv. lia.
Qed.

Lemma stoi_dec_w n z :
  (0 < n)%nat → 0 ≤ z < 10 ^ Z.of_nat n → z < 2 ^ 31 → stoi (dec_w n z) = Ret z.
Proof.
  intros Hn Hz Hv. rewrite <-(app_nil_r (dec_w n z)). rewrite stoi_digits.
  - by rewrite dec_w_val.
  - apply dec_w_digits.
  - intros Heq%(f_equal length). rewrite length_dec_w in Heq. simpl in Heq. lia.
  - done.
  - by rewrite dec_w_val.
Qed.

Lemma stoi_throws s e : stoi s = Throw e → e = invalid_argument ∨ e = out_of_range.
Proof.
  unfold stoi. destruct (split_sign _) as [neg [|c t]]; [intros; simplify_eq; auto|].
  destruct (is_digit c); [|intros; simplify_eq; auto]. case_if; intros; simplify_eq; auto.
Qed.

Lemma stoi_total s : (∃ z, stoi s = Ret z ∧ in_s 32 z) ∨ (∃ e, stoi s = Throw e).
Proof.
  unfold stoi. destruct (split_sign _) as [neg [|c t]]; [eauto|].
  destruct (is_digit c); [|eauto]. case_if; [|eauto]. left.
  eexists. split; [done|]. by apply in_sb_spec.
Qed.

(** ** Unsigned decimal text ("%u") *)

Lemma digits_val_snoc s d :
  all_digits s → 0 ≤ d < 10 → digits_val (s ++ [digit_char d]) = 10 * digits_val s + d.
Proof.
  intros Hs Hd. unfold digits_val. rewrite scan_digits_app by done. simpl.
  destruct (digit_char_spec d Hd) as (-> & -> & _). done.
Qed.

Lemma dec_rev_digits fuel z : all_digits (reverse (dec_rev fuel z)).
Proof.
  revert z. induction fuel as [|fuel IH]; intros z; [constructor|]. simpl.
  rewrite reverse_cons. apply digit_char_all; [apply Z.mod_pos_bound; lia|].
  case_if; [constructor|apply IH].
Qed.

Lemma dec_rev_val fuel z :
  0 ≤ z < 10 ^ Z.of_nat fuel → digits_val (reverse (dec_rev fuel z)) = z.
Proof.
  revert z. induction fuel as [|fuel IH]; intros z Hz.
  { simpl in *. unfold digits_val. simpl. lia. }
  rewrite Nat2Z.inj_succ, Z.pow_succ_r in Hz by lia. simpl. rewrite reverse_cons.
  assert (0 ≤ z mod 10 < 10) by (apply Z.mod_pos_bound; lia).
  assert (z = 10 * (z / 10) + z mod 10) as Hdiv by (apply Z.div_mod; lia).
  rewrite digits_val_snoc; [|case_if; [constructor|apply dec_rev_digits]|done].
  case_if; [unfold digits_val; simpl; lia|]. rewrite IH by lia. lia.
Qed.

Lemma dec_rev_length fuel n z :
  (0 < n)%nat → 0 ≤ z < 10 ^ Z.of_nat n → (length (dec_rev fuel z) ≤ n)%nat.
Proof.
  revert n z. induction fuel as [|fuel IH]; intros n z Hn Hz; simpl; [lia|].
  case_if; simpl; [lia|]. destruct n as [|n]; [lia|].
  rewrite Nat2Z.inj_succ, Z.pow_succ_r in Hz by lia.
  assert (z = 10 * (z / 10) + z mod 10) as Hdiv by (apply Z.div_mod; lia).
  assert (0 ≤ z mod 10 < 10) by (apply Z.mod_pos_bound; lia).
  destruct n as [|n]; [change (10 ^ Z.of_nat 0) with 1 in Hz; lia|].
  assert (length (dec_rev fuel (z / 10)) ≤ S n)%nat; [apply IH; lia|lia].
Qed.

Lemma dec_nat_digits z : all_digits (dec_nat z).
Proof. apply dec_rev_digits. Qed.

Lemma dec_nat_val z : 0 ≤ z < 10 ^ 20 → digits_val (dec_nat z) = z.
Proof. apply (dec_rev_val 20). Qed.

Lemma dec_nat_length n z : (0 < n)%nat → 0 ≤ z < 10 ^ Z.of_nat n → zlen (dec_nat z) ≤ Z.of_nat n.
Proof.
  intros Hn Hz. unfold zlen, dec_nat. rewrite length_reverse.
  pose proof (dec_rev_length 20 n z Hn Hz). lia.
Qed.

Lemma dec_nat_ne z : dec_nat z ≠ [].
Proof.
  unfold dec_nat. intros H. apply (f_equal length) in H. rewrite length_reverse in H. discriminate.
Qed.

(** ** Padded numbers *)
Definition pad_left (c : ascii) (n : nat) (s : bytes) : bytes := replicate (n - length s) c ++ s.
Definition dec_pad (n : nat) (z : Z) : bytes := pad_left (Z_byte 32) n (dec_int z).
(** "%0nd": the sign counts for the width. *)
Definition dec_0 (n : nat) (z : Z) : bytes :=
  if z <? 0 then s!"-" ++ pad_left (Z_byte 48) (n - 1) (dec_nat (- z)) else pad_left (Z_byte 48) n (dec_nat z).

Lemma length_pad_left c n s : length (pad_left c n s) = Nat.max n (length s).
Proof. unfold pad_left. rewrite length_app, length_replicate. lia. Qed.

Lemma pad_left_id c n s : (n ≤ length s)%nat → pad_left c n s = s.
Proof. intros H. unfold pad_left. by replace (n - length s)%nat with 0%nat by lia. Qed.

Lemma zeros_digits k : all_digits (replicate k (Z_byte 48)).
Proof. apply Forall_replicate. vm_compute. reflexivity. Qed.

Lemma zeros_val k s : digits_val (replicate k (Z_byte 48) ++ s) = digits_val s.
Proof. unfold digits_val. induction k as [|k IH]; [done|exact IH]. Qed.

(** Digits of one length are determined by their value. *)
Lemma digits_unique s t : all_digits s → all_digits t → length s = length t → digits_val s = digits_val t → s = t.
Proof.
  revert t. induction s as [|c s IH] using rev_ind; intros t Hs Ht Hl Hv.
  { by destruct t. }
  destruct t as [|d t _] using rev_ind; [rewrite length_app in Hl; cbn in Hl; lia|].
  rewrite !length_app in Hl. cbn in Hl. unfold all_digits in *. apply Forall_app in Hs as [Hs Hc].
  apply Forall_app in Ht as [Ht Hd]. apply Forall_cons in Hc as [Hc _]. apply Forall_cons in Hd as [Hd _].
  unfold digits_val in *. rewrite (scan_digits_app 0 s), (scan_digits_app 0 t) in Hv by done. cbn in Hv. rewrite Hc, Hd in Hv. cbn in Hv.
  assert (∀ x, is_digit x = true → 0 ≤ digit_val x < 10) as Hr.
  { intros x. unfold is_digit, digit_val. intros Hx. bool_to_prop. lia. }
  pose proof (Hr _ Hc). pose proof (Hr _ Hd).
  assert (digit_val c = digit_val d ∧ scan_digits 0 s = scan_digits 0 t) as [Hcd Hst] by lia.
  f_equal; [apply IH; [done|done|lia|done]|]. unfold digit_val in Hcd.
  rewrite <-(Z_byte_Z c), <-(Z_byte_Z d). by replace (byte_Z c) with (byte_Z d) by lia.
Qed.

Lemma dec_0_w n z : (0 < n)%nat → 0 ≤ z < 10 ^ Z.of_nat n → z < 10 ^ 20 → dec_0 n z = dec_w n z.
Proof.
  intros Hn Hz Hm. unfold dec_0. rewrite (proj2 (Z.ltb_ge _ _)) by lia.
  pose proof (dec_nat_length n z Hn Hz) as Hl. unfold zlen in Hl. apply digits_unique.
  - unfold pad_left, all_digits. rewrite Forall_app. exact (conj (zeros_digits _) (dec_nat_digits z)).
  - apply dec_w_digits.
  - rewrite length_pad_left, length_dec_w. lia.
  - unfold pad_left. rewrite zeros_val, dec_nat_val, dec_w_val by lia. done.
Qed.

Lemma digits_bound s : all_digits s → 0 ≤ scan_digits 0 s < 10 ^ Z.of_nat (length s).
Proof.
  induction s as [|c s IH] using rev_ind; intros Hs; [cbn; lia|]. apply Forall_app in Hs as [Hs Hc].
  apply Forall_cons in Hc as [Hc _]. rewrite scan_digits_app by done. cbn. rewrite Hc, length_app, Nat2Z.inj_add, Z.pow_add_r by lia.
  specialize (IH Hs). unfold is_digit, digit_val in *. bool_to_prop. change (10 ^ Z.of_nat (length [c])) with 10. lia.
Qed.

(** ** Searching *)

Fixpoint is_prefix (p s : bytes) : bool :=
  match p, s with
  | [], _ => true
  | _ :: _, [] => false
  | c :: p', d :: s' => bool_decide (c = d) && is_prefix p' s'
  end.

Fixpoint find_from (p s : bytes) (i : Z) : option Z :=
  if is_prefix p s then Some i
  else match s with [] => None | _ :: s' => find_from p s' (i + 1) end.

(** [s.find(p, pos)]; [None] is [npos]. *)
Definition str_find (p s : bytes) (pos : Z) : option Z :=
  if pos <=? zlen s then find_from p (zdrop pos s) pos else None.

Fixpoint rfind_from (c : ascii) (s : bytes) (i : Z) (found : option Z) : option Z :=
  match s with
  | [] => found
  | d :: s' => rfind_from c s' (i + 1) (if bool_decide (d = c) then Some i else found)
  end.

(** [s.rfind(c)] *)
Definition str_rfind (c : ascii) (s : bytes) : option Z := rfind_from c s 0 None.

Lemma is_prefix_app p s : is_prefix p (p ++ s) = true.
Proof. induction p as [|c p IH]; simpl; [done|]. by rewrite bool_decide_eq_true_2. Qed.

Lemma is_prefix_true p s : is_prefix p s = true → ∃ t, s = p ++ t.
Proof.
  revert s. induction p as [|c p IH]; intros s H; [by exists s|].
  destruct s as [|d s]; [done|]. simpl in H. apply andb_true_iff in H as [->%bool_decide_eq_true Hp].
  destruct (IH _ Hp) as [t ->]. by exists t.
Qed.

Lemma find_from_char c s i :
  find_from [c] s i = None ∧ c ∉ s ∨
  ∃ a b, s = a ++ (c :: b) ∧ (c ∉ a) ∧ find_from [c] s i = Some (i + zlen a).
Proof.
  revert i. induction s as [|d s IH]; intros i; [left; split; [done|apply not_elem_of_nil]|].
  cbn [find_from is_prefix]. rewrite andb_true_r. case_bool_decide as Hd.
  - subst d. right. exists [], s. split; [done|]. split; [apply not_elem_of_nil|].
    cbn. by rewrite Z.add_0_r.
  - destruct (IH (i + 1)) as [[-> Hn]|(a & b & -> & Ha & ->)].
    + left. split; [done|]. by apply not_elem_of_cons.
    + right. exists (d :: a), b. split; [done|]. split; [by apply not_elem_of_cons|].
      f_equal. change (d :: a) with ([d] ++ a). rewrite zlen_app. change (zlen [d]) with 1. lia.
Qed.

Lemma zdrop_at {A} (a b : list A) n : n = zlen a → zdrop n (a ++ b) = b.
Proof. intros ->. unfold zdrop, zlen. rewrite Nat2Z.id. apply drop_app_length. Qed.

(** [s.find(c, pos)] from the end of [a]. *)
Lemma str_find_char c a s :
  str_find [c] (a ++ s) (zlen a) = None ∧ c ∉ s ∨
  ∃ x y, s = x ++ (c :: y) ∧ (c ∉ x) ∧ str_find [c] (a ++ s) (zlen a) = Some (zlen a + zlen x).
Proof.
  unfold str_find. pose proof (zlen_nonneg s).
  rewrite (proj2 (Z.leb_le _ _)) by (rewrite zlen_app; lia).
  rewrite (zdrop_at a s) by done. apply find_from_char.
Qed.
