(* ===== verification/Timestamp.v ===== *)
(** * Time stamps (master/base/Timestamp.h, Timestamp.cc)

    Microseconds since the Unix epoch in a 64-bit signed integer; 0 and below
    is "invalid".  The doubles of [addTime] are taken in whole microseconds. *)
From S2P Require Import Prelude CxxString.
Local Open Scope Z_scope.

Definition kMicroSecondsPerSecond : Z := 1000 * 1000.

Definition Timestamp_invalid : Z := 0.
Definition valid (t : Z) : bool := 0 <? t.
(** Division and remainder of C++ truncate. *)
Definition secondsSinceEpoch (t : Z) : Z := Z.quot t kMicroSecondsPerSecond.
Definition fromUnixTime (t microseconds : Z) : outcome Z :=
  let r := t * kMicroSecondsPerSecond + microseconds in
  _ ← defined (in_sb 64 (t * kMicroSecondsPerSecond) && in_sb 64 r); Ret r.

(** [addTime] of [delta] microseconds: signed overflow is undefined. *)
Definition addTime (t delta : Z) : outcome Z := _ ← defined (in_sb 64 (t + delta)); Ret (t + delta).

(** [now()] is what [gettimeofday] gives. *)
Definition now (tv_sec tv_usec : Z) : outcome Z := fromUnixTime tv_sec tv_usec.

Definition toString (t : Z) : bytes :=
  let seconds := Z.quot t kMicroSecondsPerSecond in
  let microseconds := Z.rem t kMicroSecondsPerSecond in
  ztake 30 (dec_int seconds ++ s!"." ++ dec_0 6 microseconds).

Lemma addTime_in_range t delta : in_s 64 (t + delta) → addTime t delta = Ret (t + delta).
Proof. intros H. unfold addTime. by rewrite (proj2 (in_sb_spec 64 _) H). Qed.

(** The text of a time stamp loses nothing: its digits before the point
    are the seconds, the six after it the microseconds, and together they give
    the time stamp back. *)
Theorem toString_exact t (Ht : 0 ≤ t < 2 ^ 63) :
  ∃ s u, toString t = s ++ s!"." ++ u ∧ all_digits s ∧ all_digits u ∧ zlen u = 6 ∧
    digits_val s = secondsSinceEpoch t ∧
    fromUnixTime (digits_val s) (digits_val u) = Ret t.
Proof.
  set (q := Z.quot t kMicroSecondsPerSecond). set (r := Z.rem t kMicroSecondsPerSecond).
  assert (t = 1000000 * q + r ∧ 0 ≤ r < 1000000 ∧ 0 ≤ q) as (Hqr & Hr & Hq).
  { unfold q, r. change kMicroSecondsPerSecond with 1000000. pose proof (Z.quot_rem' t 1000000).
    pose proof (Z.rem_bound_pos t 1000000). pose proof (Z.quot_pos t 1000000). lia. }
  exists (dec_nat q), (dec_w 6 r).
  assert (toString t = dec_nat q ++ s!"." ++ dec_w 6 r) as Hs.
  { unfold toString, dec_int. fold q r.
    rewrite (proj2 (Z.ltb_ge q 0)), (dec_0_w 6 r) by (simpl; lia).
    unfold ztake. apply take_ge. rewrite !length_app, length_dec_w.
    pose proof (dec_nat_length 20 q ltac:(lia) ltac:(lia)) as Hl. unfold zlen in Hl. simpl (length s!"."). lia. }
  assert (digits_val (dec_nat q) = q) as Hq' by (apply dec_nat_val; lia).
  assert (digits_val (dec_w 6 r) = r) as Hr' by (apply dec_w_val; simpl; lia).
  split; [done|]. split; [apply dec_nat_digits|]. split; [apply dec_w_digits|].
  split; [unfold zlen; by rewrite length_dec_w|]. split; [done|].
  rewrite Hq', Hr'. unfold fromUnixTime, kMicroSecondsPerSecond.
  rewrite !(proj2 (in_sb_spec 64 _)); [simpl; f_equal; lia|unfold in_s; lia..].
Qed.

Lemma toString_exact_witness : toString 1234567890000042 = s!"1234567890.000042" ∧
  ∃ s u, toString 1234567890000042 = s ++ s!"." ++ u.
Proof.
  split; [vm_compute; reflexivity|].
  destruct (toString_exact 1234567890000042 ltac:(lia)) as (s & u & H & _). exists s, u. exact H.
Defined.
