(* ===== verification/Endian.v ===== *)
(** * Byte order (master/net/Endian.h)

    The host is little- or big-endian: a parameter of every definition that
    looks at the bytes of an integer in memory.  [htobe64] and friends are
    the identity on a big-endian host and a byte swap on a little-endian one;
    the wire format they produce does not depend on the host. *)
From S2P Require Import Prelude.
Local Open Scope Z_scope.

Inductive endian := LittleEndian | BigEndian.

(** The low [n] bytes of a number, least significant first. *)
Fixpoint le_bytes (n : nat) (z : Z) : bytes :=
  match n with
  | O => []
  | S n' => Z_byte z :: le_bytes n' (z / 256)
  end.

Fixpoint le_val (bs : bytes) : Z :=
  match bs with
  | [] => 0
  | b :: bs' => byte_Z b + 256 * le_val bs'
  end.

(** The object representation of an [n]-byte unsigned integer, and back. *)
Definition obj_bytes (e : endian) (n : nat) (z : Z) : bytes :=
  match e with
  | LittleEndian => le_bytes n z
  | BigEndian => reverse (le_bytes n z)
  end.
Definition obj_val (e : endian) (bs : bytes) : Z :=
  match e with
  | LittleEndian => le_val bs
  | BigEndian => le_val (reverse bs)
  end.

(** [htobeN] and [beNtoh] of <endian.h> at [n] bytes. *)
Definition be_swap (e : endian) (n : nat) (z : Z) : Z :=
  match e with
  | LittleEndian => le_val (reverse (le_bytes n z))
  | BigEndian => z
  end.

Definition hostToNetwork64 (e : endian) (host64 : Z) : Z := be_swap e 8 host64.
Definition hostToNetwork32 (e : endian) (host32 : Z) : Z := be_swap e 4 host32.
Definition hostToNetwork16 (e : endian) (host16 : Z) : Z := be_swap e 2 host16.
Definition networkToHost64 (e : endian) (net64 : Z) : Z := be_swap e 8 net64.
Definition networkToHost32 (e : endian) (net32 : Z) : Z := be_swap e 4 net32.
Definition networkToHost16 (e : endian) (net16 : Z) : Z := be_swap e 2 net16.

(** The network representation: most significant byte first. *)
Definition be_bytes (n : nat) (z : Z) : bytes := reverse (le_bytes n z).
Definition be_val (bs : bytes) : Z := le_val (reverse bs).

Lemma length_le_bytes n z : length (le_bytes n z) = n.
Proof. revert z. induction n as [|n IH]; intros z; simpl; [done|]. by rewrite IH. Qed.

Lemma length_be_bytes n z : length (be_bytes n z) = n.
Proof. unfold be_bytes. by rewrite length_reverse, length_le_bytes. Qed.

Lemma length_obj_bytes e n z : length (obj_bytes e n z) = n.
Proof. destruct e; simpl; by rewrite ?length_reverse, length_le_bytes. Qed.

Lemma pow_8S n : 2 ^ (8 * Z.of_nat (S n)) = 256 * 2 ^ (8 * Z.of_nat n).
Proof.
  rewrite Nat2Z.inj_succ. replace (8 * Z.succ (Z.of_nat n)) with (8 + 8 * Z.of_nat n) by lia.
  rewrite Z.pow_add_r by lia. done.
Qed.

Lemma le_val_bytes n z : le_val (le_bytes n z) = z mod 2 ^ (8 * Z.of_nat n).
Proof.
  revert z. induction n as [|n IH]; intros z; [by rewrite Z.mod_1_r|].
  cbn [le_bytes le_val]. rewrite IH, byte_Z_byte, pow_8S.
  assert (0 < 2 ^ (8 * Z.of_nat n)) by (apply Z.pow_pos_nonneg; lia).
  rewrite (Z.rem_mul_r z) by lia. done.
Qed.

Lemma le_bytes_val bs : le_bytes (length bs) (le_val bs) = bs.
Proof.
  induction bs as [|b bs IH]; simpl; [done|]. pose proof (byte_Z_range b). f_equal.
  - unfold Z_byte. rewrite Z.mul_comm, Z.mod_add, Z.mod_small by lia.
    unfold byte_Z. by rewrite N2Z.id, ascii_N_embedding.
  - rewrite Z.mul_comm, Z.div_add, Z.div_small by lia. done.
Qed.

Lemma le_bytes_mod n z : le_bytes n (z mod 2 ^ (8 * Z.of_nat n)) = le_bytes n z.
Proof.
  rewrite <-le_val_bytes. rewrite <-(length_le_bytes n z) at 1. apply le_bytes_val.
Qed.

Lemma le_val_range bs : in_u (8 * zlen bs) (le_val bs).
Proof.
  unfold in_u, zlen. induction bs as [|b bs IH]; simpl length; [done|].
  rewrite pow_8S. simpl. pose proof (byte_Z_range b). lia.
Qed.

Lemma be_val_bytes n z : be_val (be_bytes n z) = z mod 2 ^ (8 * Z.of_nat n).
Proof. unfold be_val, be_bytes. by rewrite reverse_involutive, le_val_bytes. Qed.

Lemma be_bytes_val bs : be_bytes (length bs) (be_val bs) = bs.
Proof.
  unfold be_val, be_bytes. rewrite <-(length_reverse bs), le_bytes_val. apply reverse_involutive.
Qed.

(** What goes on the wire is big-endian on every host. *)
Lemma obj_bytes_swap e n z : obj_bytes e n (be_swap e n z) = be_bytes n z.
Proof.
  destruct e; simpl; [|done]. unfold be_bytes.
  rewrite <-(length_le_bytes n z) at 1. rewrite <-length_reverse. apply le_bytes_val.
Qed.

Lemma swap_obj_val e n bs : length bs = n → be_swap e n (obj_val e bs) = be_val bs.
Proof.
  intros <-. destruct e; simpl; [|done]. by rewrite le_bytes_val.
Qed.

Lemma obj_bytes_mod e n z : obj_bytes e n (z mod 2 ^ (8 * Z.of_nat n)) = obj_bytes e n z.
Proof. destruct e; simpl; by rewrite le_bytes_mod. Qed.

Lemma be_swap_mod e n z : in_u (8 * Z.of_nat n) z →
  be_swap e n (z mod 2 ^ (8 * Z.of_nat n)) = be_swap e n z.
Proof. intros Hz. by rewrite Z.mod_small. Qed.

Lemma be_swap_range e n z : in_u (8 * Z.of_nat n) z → in_u (8 * Z.of_nat n) (be_swap e n z).
Proof.
  intros Hz. destruct e; simpl; [|done].
  pose proof (le_val_range (reverse (le_bytes n z))) as Hr.
  unfold zlen in Hr. by rewrite length_reverse, length_le_bytes in Hr.
Qed.

(** A signed integer written through [hostToNetworkN] and stored as the
    object representation of the signed result. *)
Definition wire_bytes (e : endian) (n : nat) (x : Z) : bytes :=
  let w := 8 * Z.of_nat n in
  obj_bytes e n (wrapu w (wraps w (be_swap e n (wrapu w x)))).

(** A signed integer read back: [memcpy] into the signed object, then
    [networkToHostN] converted to the signed type. *)
Definition wire_val (e : endian) (n : nat) (bs : bytes) : Z :=
  let w := 8 * Z.of_nat n in
  wraps w (be_swap e n (wrapu w (wraps w (obj_val e bs)))).

Lemma wire_bytes_be e n x : (0 < n)%nat → wire_bytes e n x = be_bytes n x.
Proof.
  intros Hn. unfold wire_bytes.
  assert (in_u (8 * Z.of_nat n) (wrapu (8 * Z.of_nat n) x)) as Hx by (apply wrapu_range; lia).
  rewrite wrapu_wraps by lia. unfold wrapu at 1. rewrite obj_bytes_mod, obj_bytes_swap.
  unfold be_bytes, wrapu. by rewrite le_bytes_mod.
Qed.

Lemma wire_val_be e n bs :
  (0 < n)%nat → length bs = n → wire_val e n bs = wraps (8 * Z.of_nat n) (be_val bs).
Proof.
  intros Hn Hl. unfold wire_val. rewrite wrapu_wraps by lia.
  assert (in_u (8 * Z.of_nat n) (obj_val e bs)) as Hr.
  { rewrite <-Hl. destruct e; simpl; [apply le_val_range|].
    pose proof (le_val_range (reverse bs)) as H. unfold zlen in H. by rewrite length_reverse in H. }
  rewrite (wrapu_small _ _ Hr). by rewrite swap_obj_val.
Qed.

(** Encoding then decoding is the identity on the signed range. *)
Lemma wire_round_trip e n x :
  (0 < n)%nat → in_s (8 * Z.of_nat n) x → wire_val e n (wire_bytes e n x) = x.
Proof.
  intros Hn Hx. rewrite wire_bytes_be by done.
  rewrite wire_val_be by (done || apply length_be_bytes). rewrite be_val_bytes.
  fold (wrapu (8 * Z.of_nat n) x). rewrite wraps_wrapu by lia. apply wraps_small; [lia|done].
Qed.

(** Conversion to network order and back. *)
Lemma be_swap_involutive e n z : in_u (8 * Z.of_nat n) z → be_swap e n (be_swap e n z) = z.
Proof.
  intros Hz. destruct e; simpl; [|done].
  set (l := reverse (le_bytes n z)).
  assert (length l = n) as Hl by (unfold l; by rewrite length_reverse, length_le_bytes).
  rewrite <-Hl at 1. rewrite le_bytes_val. unfold l. rewrite reverse_involutive, le_val_bytes.
  by apply Z.mod_small.
Qed.
