(* ===== verification/InetAddress.v ===== *)
(** * Internet addresses (master/net/InetAddress.cc, master/net/SocketsOps.cc)

    An address holds its family, its port in network byte order and the
    address bytes as they lie in memory (4 or 16 of them).  [inet_ntop] and
    [inet_pton] are code of the C library: a class of parameters, with a class
    of the laws POSIX documents for them. *)
From S2P Require Import Prelude CxxString Endian.
Local Open Scope Z_scope.

Definition AF_INET : Z := 2.
Definition AF_INET6 : Z := 10.
Definition INET_ADDRSTRLEN : Z := 16.
Definition INET6_ADDRSTRLEN : Z := 46.

Record InetAddress := MkInet {
  sin_family : Z;
  sin_port : Z;
  sin_addr : bytes;
}.

#[export] Instance InetAddress_eq_dec : EqDecision InetAddress.
Proof. solve_decision. Defined.

Definition addr_len (family : Z) : Z := if family =? AF_INET then 4 else 16.

(** The C library's conversions between address bytes and text. *)
Class InetText := {
  inet_ntop : Z → bytes → bytes;
  inet_pton : Z → bytes → option bytes;
}.

(** What POSIX says of them: the text fits [INET_ADDRSTRLEN] or
    [INET6_ADDRSTRLEN] with its terminator, and reading a printed address
    gives it back. *)
Class InetTextLaws `{InetText} := {
  ntop_fits4 a : zlen a = 4 → zlen (inet_ntop AF_INET a) < INET_ADDRSTRLEN;
  ntop_fits6 a : zlen a = 16 → zlen (inet_ntop AF_INET6 a) < INET6_ADDRSTRLEN;
  pton_ntop f a : f = AF_INET ∨ f = AF_INET6 → zlen a = addr_len f →
    inet_pton f (inet_ntop f a) = Some a;
  pton_length f s a : inet_pton f s = Some a → zlen a = addr_len f;
}.

Definition kInaddrAny : Z := 0.
Definition kInaddrLoopback : Z := 2130706433.
Definition zero_bytes (n : Z) : bytes := replicate (Z.to_nat n) (ascii_of_N 0).
Definition in6addr_any : bytes := zero_bytes 16.
Definition in6addr_loopback : bytes := zero_bytes 15 ++ [ascii_of_N 1].

Section Addresses.
Context (e : endian) `{InetText}.

Definition InetAddress_any (port : Z) (loopbackOnly ipv6 : bool) : InetAddress :=
  if ipv6
  then MkInet AF_INET6 (hostToNetwork16 e port)
         (if loopbackOnly then in6addr_loopback else in6addr_any)
  else MkInet AF_INET (hostToNetwork16 e port)
         (obj_bytes e 4 (hostToNetwork32 e (if loopbackOnly then kInaddrLoopback else kInaddrAny))).

(** [sockets::fromIpPort]: on text [inet_pton] rejects, the zeroed address
    bytes stay (and the error is logged). *)
Definition fromIpPort (family : Z) (ip : bytes) (port : Z) : InetAddress :=
  MkInet family (hostToNetwork16 e port)
    (default (zero_bytes (addr_len family)) (inet_pton family ip)).

Definition InetAddress_ip (ip : bytes) (port : Z) (ipv6 : bool) : InetAddress :=
  fromIpPort (if ipv6 then AF_INET6 else AF_INET) ip port.

Definition family (a : InetAddress) : Z := sin_family a.
Definition portNetEndian (a : InetAddress) : Z := sin_port a.
Definition toPort (a : InetAddress) : Z := networkToHost16 e (portNetEndian a).

(** [sockets::toIp]: into a zeroed buffer of [size] bytes, as the C string
    it then holds. *)
Definition sockets_toIp (size : Z) (a : InetAddress) : outcome bytes :=
  if family a =? AF_INET then
    _ ← assert_ (INET_ADDRSTRLEN <=? size);
    Ret (inet_ntop AF_INET (sin_addr a))
  else if family a =? AF_INET6 then
    _ ← assert_ (INET6_ADDRSTRLEN <=? size);
    Ret (inet_ntop AF_INET6 (sin_addr a))
  else Ret [].

(** [sockets::toIpPort]: [snprintf] writes at most [size - end - 1]
    characters after the address. *)
Definition sockets_toIpPort (size : Z) (a : InetAddress) : outcome bytes :=
  ip ← sockets_toIp size a;
  let end_ := zlen ip in
  let port := networkToHost16 e (sin_port a) in
  _ ← assert_ (end_ <? size);
  Ret (ip ++ ztake (size - end_ - 1) (s!":" ++ dec_nat port)).

Definition toIp (a : InetAddress) : outcome bytes := sockets_toIp 64 a.
Definition toIpPort (a : InetAddress) : outcome bytes := sockets_toIpPort 64 a.

Definition ipNetEndian (a : InetAddress) : outcome Z :=
  _ ← assert_ (family a =? AF_INET);
  Ret (obj_val e (sin_addr a)).

(** [resolve]: [answer] is what [gethostbyname_r] found, the host's address
    type and bytes; the port and family of [out] stay. *)
Definition resolve (answer : option (Z * bytes)) (out : InetAddress) : outcome (bool * InetAddress) :=
  match answer with
  | Some (h_addrtype, h_addr) =>
      _ ← assert_ ((h_addrtype =? AF_INET) && (zlen h_addr =? 4));
      Ret (true, MkInet (sin_family out) (sin_port out) h_addr)
  | None => Ret (false, out)
  end.

(** An address of one of the two families with bytes of that family's size. *)
Definition inet_wf (a : InetAddress) : Prop :=
  (sin_family a = AF_INET ∨ sin_family a = AF_INET6) ∧
  zlen (sin_addr a) = addr_len (sin_family a) ∧ in_u 16 (sin_port a).

Lemma hostToNetwork16_range p : in_u 16 p → in_u 16 (hostToNetwork16 e p).
Proof. apply (be_swap_range e 2). Qed.

Lemma port_round_trip p : in_u 16 p → networkToHost16 e (hostToNetwork16 e p) = p.
Proof. apply (be_swap_involutive e 2). Qed.

Lemma host_port_round_trip p : in_u 16 p → hostToNetwork16 e (networkToHost16 e p) = p.
Proof. apply (be_swap_involutive e 2). Qed.

Lemma zlen_zero_bytes n : 0 ≤ n → zlen (zero_bytes n) = n.
Proof. intros. unfold zlen, zero_bytes. rewrite length_replicate. lia. Qed.

Lemma InetAddress_any_wf port lo v6 : in_u 16 port → inet_wf (InetAddress_any port lo v6).
Proof.
  intros Hp. unfold InetAddress_any, inet_wf. destruct v6; simpl.
  - split; [by right|]. split; [by destruct lo|by apply hostToNetwork16_range].
  - split; [by left|]. split; [|by apply hostToNetwork16_range].
    unfold zlen. by rewrite length_obj_bytes.
Qed.

Lemma fromIpPort_wf `{!InetTextLaws} f ip port :
  f = AF_INET ∨ f = AF_INET6 → in_u 16 port → inet_wf (fromIpPort f ip port).
Proof.
  intros Hf Hp. split; [done|]. split; [|by apply hostToNetwork16_range]. simpl.
  destruct (inet_pton f ip) as [a|] eqn:E; simpl; [by eapply pton_length|].
  apply zlen_zero_bytes. unfold addr_len. by case_if.
Qed.

Lemma toIp_wf `{!InetTextLaws} a :
  inet_wf a → toIp a = Ret (inet_ntop (sin_family a) (sin_addr a)) ∧
    zlen (inet_ntop (sin_family a) (sin_addr a)) < INET6_ADDRSTRLEN.
Proof.
  intros ([Hf|Hf] & Hl & _); unfold toIp, sockets_toIp, family; rewrite Hf in *; simpl.
  - split; [done|]. pose proof (ntop_fits4 _ Hl). unfold INET_ADDRSTRLEN, INET6_ADDRSTRLEN in *. lia.
  - split; [done|]. by apply ntop_fits6.
Qed.

Lemma toPort_text a : inet_wf a →
  zlen (dec_nat (toPort a)) ≤ 5 ∧ digits_val (dec_nat (toPort a)) = toPort a.
Proof.
  intros Ha. assert (in_u 16 (toPort a)) as Hp by (apply (be_swap_range e 2), Ha).
  unfold in_u in Hp. split; [|apply dec_nat_val; lia].
  apply (dec_nat_length 5); [lia|]. simpl in *. lia.
Qed.

Lemma toIpPort_wf `{!InetTextLaws} a : inet_wf a →
  toIpPort a = Ret (inet_ntop (sin_family a) (sin_addr a) ++ s!":" ++ dec_nat (toPort a)).
Proof.
  intros Ha. destruct (toIp_wf a Ha) as [Hip Hl]. destruct (toPort_text a Ha) as [Hd _].
  unfold INET6_ADDRSTRLEN in Hl. unfold toIpPort, sockets_toIpPort. unfold toIp in Hip.
  rewrite Hip. simpl. rewrite (proj2 (Z.ltb_lt _ _)) by lia. simpl. do 2 f_equal. unfold ztake.
  apply take_ge. change (length (s!":" ++ dec_nat (toPort a)) ≤
    Z.to_nat (64 - zlen (inet_ntop (sin_family a) (sin_addr a)) - 1))%nat.
  rewrite length_app. unfold zlen in *. simpl. lia.
Qed.
End Addresses.

(** ** Properties *)

(** [toIpPort] of any IPv4 or IPv6 address is the address text, a colon
    and the decimal port: no assertion fails and the 64-byte buffer never
    truncates it; and the port digits denote [toPort]. *)
Theorem toIpPort_text (e : endian) `{InetText, !InetTextLaws} (a : InetAddress) :
  inet_wf a → ∃ ip, toIp a = Ret ip ∧ toIpPort e a = Ret (ip ++ s!":" ++ dec_nat (toPort e a)) ∧
    zlen (ip ++ s!":" ++ dec_nat (toPort e a)) < 64 ∧
    digits_val (dec_nat (toPort e a)) = toPort e a.
Proof.
  intros Ha. destruct (toIp_wf a Ha) as [Hip Hl]. eexists. split; [done|].
  destruct (toPort_text e a Ha) as [Hd Hv]. split; [by apply toIpPort_wf|]. split; [|done].
  rewrite !zlen_app. change (zlen s!":") with 1. unfold INET6_ADDRSTRLEN in Hl. lia.
Qed.

(** Constructing an address from the text and port of another gives that
    address back, for either family and byte order; a port survives the
    conversion to network order. *)
Theorem InetAddress_round_trip (e : endian) `{InetText, !InetTextLaws} (a : InetAddress) :
  inet_wf a → ∃ ip, toIp a = Ret ip ∧
    InetAddress_ip e ip (toPort e a) (family a =? AF_INET6) = a ∧
    ∀ port lo v6, in_u 16 port → toPort e (InetAddress_any e port lo v6) = port ∧
      toPort e (InetAddress_ip e ip port v6) = port.
Proof.
  intros Ha. destruct (toIp_wf a Ha) as [Hip _]. eexists. split; [done|].
  destruct Ha as (Hf & Hl & Hp). split.
  - unfold InetAddress_ip, fromIpPort, family, toPort, portNetEndian.
    assert ((if sin_family a =? AF_INET6 then AF_INET6 else AF_INET) = sin_family a) as ->
      by (destruct Hf as [-> | ->]; done).
    rewrite pton_ntop by done. rewrite host_port_round_trip by done. by destruct a.
  - intros port lo v6 Hport. split; unfold toPort, portNetEndian, InetAddress_any.
    + destruct v6; by apply port_round_trip.
    + by apply port_round_trip.
Qed.

(** A concrete address text for the witnesses: two characters per byte. *)
Definition nibble_char (n : Z) : ascii := Z_byte (97 + n).
Fixpoint nib_text (a : bytes) : bytes :=
  match a with
  | [] => []
  | c :: a' => nibble_char (byte_Z c / 16) :: nibble_char (byte_Z c mod 16) :: nib_text a'
  end.
Fixpoint nib_parse (s : bytes) : bytes :=
  match s with
  | h :: l :: s' => Z_byte (16 * (byte_Z h - 97) + (byte_Z l - 97)) :: nib_parse s'
  | _ => []
  end.

Definition nib_inet : InetText := {|
  inet_ntop _ a := nib_text a;
  inet_pton f s := if zlen (nib_parse s) =? addr_len f then Some (nib_parse s) else None;
|}.

Lemma nib_text_length a : zlen (nib_text a) = 2 * zlen a.
Proof. unfold zlen. induction a as [|c a IH]; simpl in *; lia. Qed.

Lemma nib_round_trip a : nib_parse (nib_text a) = a.
Proof.
  induction a as [|c a IH]; simpl; [done|]. f_equal; [|done].
  pose proof (byte_Z_range c). unfold nibble_char. rewrite !byte_Z_byte.
  assert (0 ≤ byte_Z c / 16 < 16) by (split; [apply Z.div_pos; lia|apply Z.div_lt_upper_bound; lia]).
  assert (0 ≤ byte_Z c mod 16 < 16) by (apply Z.mod_pos_bound; lia).
  rewrite !Z.mod_small by lia. rewrite <-(Z_byte_Z c) at 3. f_equal.
  pose proof (Z.div_mod (byte_Z c) 16). lia.
Qed.

Lemma nib_laws : @InetTextLaws nib_inet.
Proof.
  split; simpl.
  - intros a Ha. rewrite nib_text_length, Ha. done.
  - intros a Ha. rewrite nib_text_length, Ha. done.
  - intros f a _ Hl. by rewrite nib_round_trip, Hl, Z.eqb_refl.
  - intros f s a. case_if; [|done]. by intros [= <-].
Qed.

Definition loopback80 : InetAddress := MkInet AF_INET 20480 [Z_byte 127; Z_byte 0; Z_byte 0; Z_byte 1].

Lemma loopback80_wf : inet_wf loopback80.
Proof. split; [by left|]. split; [done|]. split; [discriminate|reflexivity]. Qed.

Lemma toIpPort_text_witness :
  ∃ ip, @toIp nib_inet loopback80 = Ret ip ∧
    @toIpPort LittleEndian nib_inet loopback80 = Ret (ip ++ s!":" ++ dec_nat 80) ∧
    zlen (ip ++ s!":" ++ dec_nat 80) < 64 ∧ digits_val (dec_nat 80) = 80.
Proof. exact (@toIpPort_text LittleEndian nib_inet nib_laws loopback80 loopback80_wf). Defined.

Lemma InetAddress_round_trip_witness :
  ∃ ip, @toIp nib_inet loopback80 = Ret ip ∧
    @InetAddress_ip LittleEndian nib_inet ip 80 false = loopback80 ∧
    ∀ port lo v6, in_u 16 port → toPort LittleEndian (InetAddress_any LittleEndian port lo v6) = port ∧
      toPort LittleEndian (@InetAddress_ip LittleEndian nib_inet ip port v6) = port.
Proof.
  exact (@InetAddress_round_trip LittleEndian nib_inet nib_laws loopback80 loopback80_wf).
Defined.
