(* ===== verification/Buffer.v ===== *)
(** * The network buffer [Buffer] (master/net/Buffer.h, master/net/Buffer.cc)

    A byte vector with a reader and a writer index.  The members are
    stateful calls on the three fields; pointers into the vector are offsets,
    [assert]s are kept, indices are [size_t] with wrap-around, and a copy that
    leaves the vector is undefined.  The theorems say that under the class
    invariant no assertion fails and that the readable bytes behave as a byte
    queue. *)
From S2P Require Import Prelude Endian.
Local Open Scope Z_scope.

Definition kCheapPrepend : Z := 8.
Definition kInitialSize : Z := 1024.
(** [std::vector<char>::max_size()] *)
Definition max_size : Z := 2 ^ 63 - 1.

Record Buffer := MkBuffer {
  buffer_ : bytes;
  readerIndex_ : Z;
  writerIndex_ : Z;
}.

Definition zeros (n : Z) : bytes := replicate (Z.to_nat n) (ascii_of_N 0).

Definition Buffer_new (initialSize : Z) : Buffer :=
  MkBuffer (zeros (kCheapPrepend + initialSize)) kCheapPrepend kCheapPrepend.

Definition readableBytes (b : Buffer) : Z := u64 (writerIndex_ b - readerIndex_ b).
Definition writableBytes (b : Buffer) : Z := u64 (zlen (buffer_ b) - writerIndex_ b).
Definition prependableBytes (b : Buffer) : Z := readerIndex_ b.

(** Pointers are offsets from [begin()]. *)
Definition peek (b : Buffer) : Z := readerIndex_ b.
Definition beginWrite (b : Buffer) : Z := writerIndex_ b.

Definition set_reader (r : Z) (b : Buffer) : Buffer := MkBuffer (buffer_ b) r (writerIndex_ b).
Definition set_writer (w : Z) (b : Buffer) : Buffer := MkBuffer (buffer_ b) (readerIndex_ b) w.
Definition set_bytes (bs : bytes) (b : Buffer) : Buffer :=
  MkBuffer bs (readerIndex_ b) (writerIndex_ b).

(** The bytes in [[i, j)] of the vector. *)
Definition slice (i j : Z) (bs : bytes) : bytes := ztake (j - i) (zdrop i bs).

(** [std::copy(src, src + len, begin() + dst)]: undefined past the end. *)
Definition blit (dst : Z) (src : bytes) (bs : bytes) : outcome bytes :=
  if (0 <=? dst) && (dst + zlen src <=? zlen bs)
  then Ret (ztake dst bs ++ src ++ zdrop (dst + zlen src) bs)
  else Undef.

(** [buffer_.resize(n)]: new bytes are zero. *)
Definition resize (n : Z) (bs : bytes) : outcome bytes :=
  if n <=? max_size then Ret (ztake n bs ++ zeros (n - zlen bs)) else Throw length_error.

Definition assertST (p : Buffer → bool) : ST Buffer unit := λ b, (assert_ (p b), b).

(** The constructor's three assertions. *)
Definition Buffer_ctor (initialSize : Z) : outcome Buffer :=
  let b := Buffer_new initialSize in
  _ ← assert_ (readableBytes b =? 0);
  _ ← assert_ (writableBytes b =? initialSize);
  _ ← assert_ (prependableBytes b =? kCheapPrepend);
  Ret b.

Definition retrieveAll : ST Buffer unit :=
  st_modify (λ b, MkBuffer (buffer_ b) kCheapPrepend kCheapPrepend).

Definition retrieve (len : Z) : ST Buffer unit :=
  assertST (λ b, len <=? readableBytes b) ;;
  b ← st_get;
  if len <? readableBytes b
  then st_put (set_reader (u64 (readerIndex_ b + len)) b)
  else retrieveAll.

Definition retrieveUntil (end_ : Z) : ST Buffer unit :=
  assertST (λ b, peek b <=? end_) ;;
  assertST (λ b, end_ <=? beginWrite b) ;;
  b ← st_get;
  retrieve (end_ - peek b).

Definition retrieveInt64 : ST Buffer unit := retrieve 8.
Definition retrieveInt32 : ST Buffer unit := retrieve 4.
Definition retrieveInt16 : ST Buffer unit := retrieve 2.
Definition retrieveInt8 : ST Buffer unit := retrieve 1.

(** Reading [len] bytes at [peek()]; undefined past the end of the vector. *)
Definition read_at (pos len : Z) (bs : bytes) : outcome bytes :=
  if (0 <=? pos) && (0 <=? len) && (pos + len <=? zlen bs) then Ret (slice pos (pos + len) bs)
  else Undef.

Definition retrieveAsString (len : Z) : ST Buffer bytes :=
  assertST (λ b, len <=? readableBytes b) ;;
  b ← st_get;
  result ← lift (read_at (peek b) len (buffer_ b));
  retrieve len ;;
  mret result.

Definition retrieveAllAsString : ST Buffer bytes :=
  b ← st_get;
  retrieveAsString (readableBytes b).

(** [StringPiece(peek(), static_cast<int>(readableBytes()))]: the length goes
    through [int] and back to [size_t]. *)
Definition toStringPiece (b : Buffer) : outcome bytes :=
  read_at (peek b) (u64 (i32 (readableBytes b))) (buffer_ b).

Definition makeSpace (len : Z) : ST Buffer unit :=
  b ← st_get;
  if u64 (writableBytes b + prependableBytes b) <? u64 (len + kCheapPrepend) then
    bs ← lift (resize (u64 (writerIndex_ b + len)) (buffer_ b));
    st_put (set_bytes bs b)
  else
    assertST (λ b, kCheapPrepend <? readerIndex_ b) ;;
    let readable := readableBytes b in
    src ← lift (read_at (readerIndex_ b) (writerIndex_ b - readerIndex_ b) (buffer_ b));
    bs ← lift (blit kCheapPrepend src (buffer_ b));
    st_put (MkBuffer bs kCheapPrepend (u64 (kCheapPrepend + readable))) ;;
    assertST (λ b', readable =? readableBytes b').

Definition ensureWritableBytes (len : Z) : ST Buffer unit :=
  b ← st_get;
  (if writableBytes b <? len then makeSpace len else mret ()) ;;
  assertST (λ b', len <=? writableBytes b').

Definition hasWritten (len : Z) : ST Buffer unit :=
  assertST (λ b, len <=? writableBytes b) ;;
  st_modify (λ b, set_writer (u64 (writerIndex_ b + len)) b).

Definition unwrite (len : Z) : ST Buffer unit :=
  assertST (λ b, len <=? readableBytes b) ;;
  st_modify (λ b, set_writer (u64 (writerIndex_ b - len)) b).

Definition append (data : bytes) : ST Buffer unit :=
  ensureWritableBytes (zlen data) ;;
  b ← st_get;
  bs ← lift (blit (beginWrite b) data (buffer_ b));
  st_put (set_bytes bs b) ;;
  hasWritten (zlen data).

Definition prepend (data : bytes) : ST Buffer unit :=
  assertST (λ b, zlen data <=? prependableBytes b) ;;
  st_modify (λ b, set_reader (u64 (readerIndex_ b - zlen data)) b) ;;
  b ← st_get;
  bs ← lift (blit (readerIndex_ b) data (buffer_ b));
  st_put (set_bytes bs b).

(** [shrink]: a fresh buffer takes the readable bytes and replaces this one. *)
Definition shrink (reserve : Z) : ST Buffer unit := λ b,
  let r := (ensureWritableBytes (u64 (readableBytes b + reserve)) ;;
            data ← lift (toStringPiece b);
            append data) (Buffer_new kInitialSize) in
  match r with
  | (Ret _, other) => (Ret (), other)
  | (Throw e, _) => (Throw e, b)
  | (AssertFail, _) => (AssertFail, b)
  | (Undef, _) => (Undef, b)
  end.

(** ** Searches *)

(** [std::search(first, last, pat)] on the bytes from [first]: the offset of
    the first occurrence. *)
Fixpoint search (pat s : bytes) : option Z :=
  if bool_decide (take (length pat) s = pat) then Some 0
  else match s with
       | [] => None
       | _ :: s' => Z.succ <$> search pat s'
       end.

Definition kCRLF : bytes := [ascii_of_N 13; ascii_of_N 10].

(** [findCRLF(start)]: the asserted bounds, then the search in
    [[start, beginWrite())]. *)
Definition findCRLF_from (start : Z) (b : Buffer) : outcome (option Z) :=
  _ ← assert_ (peek b <=? start);
  _ ← assert_ (start <=? beginWrite b);
  Ret (Z.add start <$> search kCRLF (slice start (beginWrite b) (buffer_ b))).

Definition findCRLF (b : Buffer) : option Z :=
  Z.add (peek b) <$> search kCRLF (slice (peek b) (beginWrite b) (buffer_ b)).

(** [memchr] for a line feed. *)
Definition findEOL_from (start : Z) (b : Buffer) : outcome (option Z) :=
  _ ← assert_ (peek b <=? start);
  _ ← assert_ (start <=? beginWrite b);
  Ret (Z.add start <$> search [ascii_of_N 10] (slice start (beginWrite b) (buffer_ b))).

Definition findEOL (b : Buffer) : option Z :=
  Z.add (peek b) <$> search [ascii_of_N 10] (slice (peek b) (beginWrite b) (buffer_ b)).

(** ** Integers in network byte order *)
Section Integers.
Context (e : endian).

Definition appendInt64 (x : Z) : ST Buffer unit := append (wire_bytes e 8 x).
Definition appendInt32 (x : Z) : ST Buffer unit := append (wire_bytes e 4 x).
Definition appendInt16 (x : Z) : ST Buffer unit := append (wire_bytes e 2 x).
Definition appendInt8 (x : Z) : ST Buffer unit := append [Z_byte x].

Definition prependInt64 (x : Z) : ST Buffer unit := prepend (wire_bytes e 8 x).
Definition prependInt32 (x : Z) : ST Buffer unit := prepend (wire_bytes e 4 x).
Definition prependInt16 (x : Z) : ST Buffer unit := prepend (wire_bytes e 2 x).
Definition prependInt8 (x : Z) : ST Buffer unit := prepend [Z_byte x].

(** [memcpy] of [n] bytes from [peek()] and the conversion. *)
Definition peekIntN (n : nat) (b : Buffer) : outcome Z :=
  _ ← assert_ (Z.of_nat n <=? readableBytes b);
  bs ← read_at (peek b) (Z.of_nat n) (buffer_ b);
  Ret (wire_val e n bs).

Definition peekInt64 (b : Buffer) : outcome Z := peekIntN 8 b.
Definition peekInt32 (b : Buffer) : outcome Z := peekIntN 4 b.
Definition peekInt16 (b : Buffer) : outcome Z := peekIntN 2 b.
Definition peekInt8 (b : Buffer) : outcome Z :=
  _ ← assert_ (1 <=? readableBytes b);
  bs ← read_at (peek b) 1 (buffer_ b);
  Ret (wraps 8 (le_val bs)).

Definition readInt64 : ST Buffer Z := b ← st_get; x ← lift (peekInt64 b); retrieveInt64 ;; mret x.
Definition readInt32 : ST Buffer Z := b ← st_get; x ← lift (peekInt32 b); retrieveInt32 ;; mret x.
Definition readInt16 : ST Buffer Z := b ← st_get; x ← lift (peekInt16 b); retrieveInt16 ;; mret x.
Definition readInt8 : ST Buffer Z := b ← st_get; x ← lift (peekInt8 b); retrieveInt8 ;; mret x.
End Integers.

(** ** [readFd]: the kernel's answer to [readv] *)
Inductive sysread := SysErr (errno : Z) | SysData (data : bytes).

Definition kExtraBuf : Z := 65536.

(** How many bytes the two [iovec]s offer to the kernel. *)
Definition readFd_capacity (b : Buffer) : Z :=
  if writableBytes b <? kExtraBuf then writableBytes b + kExtraBuf else writableBytes b.

(** The result and [*savedErrno]; the kernel fills the writable space first,
    then [extrabuf], which is appended. *)
Definition readFd (r : sysread) : ST Buffer (Z * option Z) :=
  b ← st_get;
  let writable := writableBytes b in
  match r with
  | SysErr err => mret (-1, Some err)
  | SysData data =>
      let n := zlen data in
      bs ← lift (blit (writerIndex_ b) (ztake writable data) (buffer_ b));
      st_put (set_bytes bs b) ;;
      (if n <=? writable
       then st_modify (λ b, set_writer (u64 (writerIndex_ b + n)) b)
       else
         st_modify (λ b, set_writer (zlen (buffer_ b)) b) ;;
         append (zdrop writable data)) ;;
      mret (n, None)
  end.

(** ** The class invariant and the readable bytes

    [holds p b data]: the indices are ordered and inside the vector, [p] bytes
    are prependable and the readable bytes are [data]. *)
Definition mk3 (pre data post : bytes) : Buffer :=
  MkBuffer (pre ++ data ++ post) (zlen pre) (zlen pre + zlen data).

Definition holds (p : Z) (b : Buffer) (data : bytes) : Prop :=
  ∃ pre post, b = mk3 pre data post ∧ zlen pre = p ∧
    kCheapPrepend ≤ zlen (pre ++ data ++ post) ≤ max_size.

Section Slices.
Implicit Types (pre mid post src : bytes).

Lemma zdrop_app pre mid : zdrop (zlen pre) (pre ++ mid) = mid.
Proof. unfold zdrop, zlen. by rewrite Nat2Z.id, drop_app_length. Qed.

Lemma ztake_app pre mid : ztake (zlen pre) (pre ++ mid) = pre.
Proof. unfold ztake, zlen. by rewrite Nat2Z.id, take_app_length. Qed.

Lemma slice_mid pre mid post :
  slice (zlen pre) (zlen pre + zlen mid) (pre ++ mid ++ post) = mid.
Proof.
  unfold slice. rewrite zdrop_app. replace (zlen pre + zlen mid - zlen pre) with (zlen mid) by lia.
  apply ztake_app.
Qed.

Lemma blit_mid pre mid post src :
  zlen src = zlen mid → blit (zlen pre) src (pre ++ mid ++ post) = Ret (pre ++ src ++ post).
Proof.
  intros Hl. unfold blit. rewrite !zlen_app, Hl.
  pose proof (zlen_nonneg pre). pose proof (zlen_nonneg post).
  rewrite !(proj2 (Z.leb_le _ _)) by lia. simpl. rewrite ztake_app.
  do 3 f_equal. rewrite <-zlen_app, app_assoc. apply zdrop_app.
Qed.

Lemma read_mid pre mid post : read_at (zlen pre) (zlen mid) (pre ++ mid ++ post) = Ret mid.
Proof.
  unfold read_at. rewrite !zlen_app. pose proof (zlen_nonneg pre).
  pose proof (zlen_nonneg mid). pose proof (zlen_nonneg post).
  rewrite !(proj2 (Z.leb_le _ _)) by lia. simpl. by rewrite slice_mid.
Qed.

(** A list split at a length. *)
Lemma split_at n (l : bytes) : 0 ≤ n ≤ zlen l → ∃ x y, l = x ++ y ∧ zlen x = n.
Proof.
  intros Hn. exists (ztake n l), (zdrop n l).
  by rewrite ztake_zdrop, zlen_ztake by done.
Qed.

Lemma zlen_zeros n : 0 ≤ n → zlen (zeros n) = n.
Proof. intros. unfold zeros, zlen. rewrite length_replicate. lia. Qed.

Lemma zlen_reverse (l : bytes) : zlen (reverse l) = zlen l.
Proof. unfold zlen. by rewrite length_reverse. Qed.
End Slices.

Ltac zlens :=
  unfold kCheapPrepend, kInitialSize, max_size, kExtraBuf in *;
  rewrite ?zlen_app in *;
  repeat match goal with
  | l : list ascii |- _ =>
      lazymatch goal with
      | _ : 0 <= zlen l |- _ => fail
      | _ => pose proof (zlen_nonneg l)
      end
  end.

Section Invariant.
Implicit Types (b : Buffer) (data : bytes).

Lemma holds_mk3 pre data post :
  kCheapPrepend ≤ zlen (pre ++ data ++ post) ≤ max_size →
  holds (zlen pre) (mk3 pre data post) data.
Proof. intros Hsz. by exists pre, post. Qed.

Lemma holds_bounds p b data : holds p b data →
  0 ≤ p ∧ p + zlen data ≤ zlen (buffer_ b) ≤ max_size ∧ kCheapPrepend ≤ zlen (buffer_ b).
Proof.
  intros (pre & post & -> & <- & Hsz). simpl. zlens. lia.
Qed.

Lemma holds_readable p b data : holds p b data → readableBytes b = zlen data.
Proof.
  intros (pre & post & -> & <- & Hsz). unfold readableBytes, u64. simpl.
  rewrite wrapu_small; [lia|]. unfold in_u. zlens. lia.
Qed.

Lemma holds_prependable p b data : holds p b data → prependableBytes b = p.
Proof. by intros (pre & post & -> & <- & Hsz). Qed.

Lemma holds_writable p b data : holds p b data →
  writableBytes b = zlen (buffer_ b) - p - zlen data.
Proof.
  intros (pre & post & -> & <- & Hsz). unfold writableBytes, u64. simpl.
  rewrite wrapu_small; [zlens; lia|]. unfold in_u. zlens. lia.
Qed.

Lemma holds_read p b data n x y :
  holds p b data → data = x ++ y → zlen x = n → read_at (peek b) n (buffer_ b) = Ret x.
Proof.
  intros (pre & post & -> & <- & Hsz) -> <-. simpl. rewrite <-app_assoc. apply read_mid.
Qed.

Lemma holds_new n : 0 ≤ n → kCheapPrepend + n ≤ max_size → holds kCheapPrepend (Buffer_new n) [].
Proof.
  intros Hn Hmax. exists (zeros kCheapPrepend), (zeros n). unfold Buffer_new, mk3.
  assert (zeros (kCheapPrepend + n) = zeros kCheapPrepend ++ zeros n) as ->.
  { unfold zeros. rewrite <-replicate_add. f_equal. unfold kCheapPrepend. lia. }
  assert (zlen (zeros kCheapPrepend) = kCheapPrepend) as H8 by done.
  rewrite H8. change (zlen (@nil ascii)) with 0. rewrite Z.add_0_r. split; [done|]. split; [done|].
  change ([] ++ zeros n) with (zeros n). rewrite zlen_app, H8, zlen_zeros by done. lia.
Qed.

(** Moving the indices of a buffer that is large enough to the start. *)
Lemma holds_reset p b data :
  holds p b data → holds kCheapPrepend (MkBuffer (buffer_ b) kCheapPrepend kCheapPrepend) [].
Proof.
  intros Hh. pose proof (holds_bounds _ _ _ Hh) as (? & ? & ?).
  destruct (split_at kCheapPrepend (buffer_ b)) as (x & y & Heq & Hx).
  { unfold kCheapPrepend in *. lia. }
  exists x, y. unfold mk3. change ([] ++ y) with y. change (zlen (@nil ascii)) with 0.
  rewrite <-Heq, Hx, Z.add_0_r. split; [done|]. split; [done|]. lia.
Qed.

Lemma retrieveAll_holds p b data : holds p b data →
  ∃ b', retrieveAll b = (Ret (), b') ∧ holds kCheapPrepend b' [] ∧ buffer_ b' = buffer_ b.
Proof. intros Hh. eexists. split; [done|]. split; [by eapply holds_reset|done]. Qed.

Lemma retrieve_holds p b x y : holds p b (x ++ y) →
  ∃ b' p', retrieve (zlen x) b = (Ret (), b') ∧ holds p' b' y ∧
    p' = (if bool_decide (y = []) then kCheapPrepend else p + zlen x) ∧
    buffer_ b' = buffer_ b.
Proof.
  intros Hh. unfold retrieve, assertST, mbind, ST_bind, st_get.
  rewrite (holds_readable _ _ _ Hh), zlen_app. zlens.
  rewrite (proj2 (Z.leb_le _ _)) by lia. simpl.
  case_bool_decide as Hy.
  - subst y. unfold zlen at 3. simpl. rewrite (proj2 (Z.ltb_ge _ _)) by lia.
    destruct (retrieveAll_holds _ _ _ Hh) as (b' & -> & Hb' & Hbb).
    exists b', kCheapPrepend. by repeat split.
  - assert (0 < zlen y) by (destruct y; [done|]; unfold zlen; simpl; lia).
    rewrite (proj2 (Z.ltb_lt _ _)) by lia. eexists _, _. split; [done|]. split; [|by split].
    destruct Hh as (pre & post & -> & <- & Hsz). exists (pre ++ x), post.
    unfold mk3, set_reader. simpl. unfold u64. zlens.
    rewrite wrapu_small by (unfold in_u; lia). rewrite <-!app_assoc in *.
    split; [f_equal; lia|]. split; lia.
Qed.

Lemma resize_grow (bs : bytes) n : zlen bs ≤ n ≤ max_size →
  resize n bs = Ret (bs ++ zeros (n - zlen bs)).
Proof.
  intros Hn. unfold resize. rewrite (proj2 (Z.leb_le _ _)) by lia.
  do 2 f_equal. unfold ztake. apply take_ge. unfold zlen in Hn. lia.
Qed.

(** [makeSpace] either grows the vector or slides the content to the front;
    its assertions hold and [len] bytes fit afterwards, or the vector cannot
    grow so far. *)
Lemma makeSpace_total p b data len :
  holds p b data → writableBytes b < len → 0 ≤ len → len ≤ max_size →
  (∃ b' p', makeSpace len b = (Ret (), b') ∧ holds p' b' data ∧
    len ≤ writableBytes b' ∧ (p' = p ∨ (p' = kCheapPrepend ∧ kCheapPrepend ≤ p)) ∧
    zlen (buffer_ b') ≤ Z.max (zlen (buffer_ b)) (p + zlen data + len)) ∨
  (makeSpace len b = (Throw length_error, b) ∧ max_size < p + zlen data + len).
Proof.
  intros Hh Hw Hlen Hmax. pose proof (holds_bounds _ _ _ Hh) as Hb.
  pose proof (holds_writable _ _ _ Hh) as Hwr. rewrite Hwr in Hw.
  unfold makeSpace, mbind, ST_bind, st_get, assertST, lift, st_put, prependableBytes, u64.
  rewrite Hwr. destruct Hh as (pre & post & -> & <- & Hsz). simpl in *. zlens.
  rewrite !(wrapu_small 64) by (unfold in_u; lia).
  case_if.
  - destruct (decide (zlen pre + zlen data + len ≤ 2 ^ 63 - 1)) as [Hfit|Hfit]; [left|right].
    2:{ unfold resize, max_size. rewrite (proj2 (Z.leb_gt _ _)) by lia. split; [done|lia]. }
    rewrite resize_grow by (unfold max_size; rewrite !zlen_app; lia).
    eexists _, (zlen pre). split; [done|].
    assert (holds (zlen pre) (set_bytes ((pre ++ data ++ post) ++
      zeros (zlen pre + zlen data + len - zlen (pre ++ data ++ post))) (mk3 pre data post)) data) as Hh'.
    { exists pre, (post ++ zeros (zlen pre + zlen data + len - zlen (pre ++ data ++ post))).
      unfold mk3, set_bytes. simpl. rewrite <-!app_assoc. split; [done|]. split; [done|].
      unfold kCheapPrepend, max_size. rewrite !zlen_app, zlen_zeros by lia. lia. }
    split; [done|]. rewrite (holds_writable _ _ _ Hh'). simpl.
    rewrite !zlen_app, zlen_zeros by lia. split; [lia|]. split; [by left|lia].
  - left. change (readerIndex_ (mk3 pre data post)) with (zlen pre).
    rewrite (proj2 (Z.ltb_lt 8 _)) by lia. simpl.
    replace (zlen pre + zlen data - zlen pre) with (zlen data) by lia. rewrite read_mid.
    destruct (split_at 8 pre) as (x & y & -> & Hx); [lia|].
    destruct (split_at (zlen data) ((y ++ data))) as (m & r & Hm & Hml); [zlens; lia|].
    assert ((x ++ y) ++ data ++ post = x ++ m ++ (r ++ post)) as ->.
    { rewrite <-!app_assoc, (app_assoc y), Hm, <-app_assoc. done. }
    rewrite <-Hx, blit_mid by done. rewrite Hx. simpl.
    assert (zlen r = zlen y) as Hr by (apply (f_equal zlen) in Hm; rewrite !zlen_app in Hm; lia).
    assert (holds 8 (MkBuffer (x ++ data ++ r ++ post) 8 (8 + zlen data)) data) as Hh'.
    { exists x, (r ++ post). unfold mk3. rewrite Hx. split; [done|]. split; [done|].
      unfold kCheapPrepend, max_size. zlens. lia. }
    rewrite (holds_readable (zlen (x ++ y)) (mk3 _ _ _) data).
    2:{ apply holds_mk3. unfold kCheapPrepend, max_size. rewrite !zlen_app in *. lia. }
    rewrite (wrapu_small 64 (8 + zlen data)) by (unfold in_u; zlens; lia).
    eexists _, 8. split; [|split; [exact Hh'|]].
    + by rewrite (holds_readable _ _ _ Hh'), Z.eqb_refl.
    + rewrite (holds_writable _ _ _ Hh'). simpl. zlens. split; [lia|]. split; [right; lia|lia].
Qed.

(** [ensureWritableBytes] makes the room, or the vector cannot grow so far. *)
Lemma ensureWritableBytes_total p b data len :
  holds p b data → 0 ≤ len → len ≤ max_size →
  (∃ b' p', ensureWritableBytes len b = (Ret (), b') ∧ holds p' b' data ∧
    len ≤ writableBytes b' ∧ (p' = p ∨ (p' = kCheapPrepend ∧ kCheapPrepend ≤ p)) ∧
    zlen (buffer_ b') ≤ Z.max (zlen (buffer_ b)) (p + zlen data + len)) ∨
  (ensureWritableBytes len b = (Throw length_error, b) ∧ max_size < p + zlen data + len).
Proof.
  intros Hh Hlen Hmax. pose proof (holds_bounds _ _ _ Hh) as Hb.
  unfold ensureWritableBytes. unfold mbind at 1 3, ST_bind at 1 3, st_get. simpl. case_if.
  - destruct (makeSpace_total _ _ _ _ Hh E Hlen Hmax) as [(b' & p' & Hm & Hh' & Hw & Hp)|[Hm Ht]].
    + left. exists b', p'. split; [|done]. rewrite (ST_bind_eq _ _ _ _ _ Hm).
      unfold assertST. by rewrite (proj2 (Z.leb_le _ _)) by lia.
    + right. split; [|done]. unfold mbind, ST_bind. by rewrite Hm.
  - left. exists b, p. unfold assertST, mbind, ST_bind, mret, ST_ret.
    rewrite (proj2 (Z.leb_le _ _)) by lia. split; [done|]. split; [done|].
    split; [lia|]. split; [by left|lia].
Qed.

Lemma ensureWritableBytes_holds p b data len :
  holds p b data → 0 ≤ len → zlen (buffer_ b) + len ≤ max_size →
  ∃ b' p', ensureWritableBytes len b = (Ret (), b') ∧ holds p' b' data ∧
    len ≤ writableBytes b' ∧ (p' = p ∨ (p' = kCheapPrepend ∧ kCheapPrepend ≤ p)) ∧
    zlen (buffer_ b') ≤ zlen (buffer_ b) + len.
Proof.
  intros Hh Hlen Hmax. pose proof (holds_bounds _ _ _ Hh) as Hb.
  pose proof (zlen_nonneg (buffer_ b)). pose proof (zlen_nonneg data).
  destruct (ensureWritableBytes_total _ _ _ len Hh) as [(b' & p' & ? & ? & ? & ? & ?)|[_ ?]]; [lia|lia| |lia].
  exists b', p'. do 4 (split; [done|]). lia.
Qed.

Lemma hasWritten_holds pre data src post :
  kCheapPrepend ≤ zlen (pre ++ data ++ src ++ post) ≤ max_size →
  hasWritten (zlen src) (mk3 pre data (src ++ post)) = (Ret (), mk3 pre (data ++ src) post).
Proof.
  intros Hsz. unfold hasWritten, assertST, mbind, ST_bind, st_modify.
  rewrite (holds_writable (zlen pre) _ data) by (by apply holds_mk3). simpl.
  zlens. rewrite (proj2 (Z.leb_le _ _)) by lia. simpl. unfold set_writer, mk3. simpl.
  f_equal. rewrite <-!app_assoc, zlen_app. f_equal. unfold u64.
  rewrite wrapu_small; [lia|]. unfold in_u. lia.
Qed.

(** Storing [src] at [beginWrite()] when it fits. *)
Lemma write_holds p b data src :
  holds p b data → zlen src ≤ writableBytes b →
  ∃ bs, blit (beginWrite b) src (buffer_ b) = Ret bs ∧ zlen bs = zlen (buffer_ b) ∧
    ∃ b', hasWritten (zlen src) (set_bytes bs b) = (Ret (), b') ∧ holds p b' (data ++ src) ∧
      buffer_ b' = bs.
Proof.
  intros Hh Hw. rewrite (holds_writable _ _ _ Hh) in Hw.
  destruct Hh as (pre & post & -> & <- & Hsz). simpl in *.
  destruct (split_at (zlen src) post) as (x & y & -> & Hx); [zlens; lia|].
  exists (pre ++ data ++ src ++ y). rewrite <-zlen_app, app_assoc, blit_mid by done.
  rewrite <-app_assoc. split; [done|]. split; [rewrite !zlen_app; lia|].
  exists (mk3 pre (data ++ src) y). split; [|split].
  - apply (hasWritten_holds pre data src y). rewrite !zlen_app in *. lia.
  - apply holds_mk3. rewrite !zlen_app in *. lia.
  - simpl. by rewrite <-app_assoc.
Qed.

Lemma append_holds p b data src :
  holds p b data → zlen (buffer_ b) + zlen src ≤ max_size →
  ∃ b' p', append src b = (Ret (), b') ∧ holds p' b' (data ++ src) ∧
    (p' = p ∨ (p' = kCheapPrepend ∧ kCheapPrepend ≤ p)) ∧
    zlen (buffer_ b') ≤ zlen (buffer_ b) + zlen src.
Proof.
  intros Hh Hmax.
  destruct (ensureWritableBytes_holds _ _ _ (zlen src) Hh)
    as (b1 & p' & He & Hh1 & Hw & Hp & Hsz); [apply zlen_nonneg|done|].
  destruct (write_holds _ _ _ src Hh1 Hw) as (bs & Hbl & Hbs & b2 & Hhw & Hh2 & Hb2).
  pose proof (holds_bounds _ _ _ Hh).
  exists b2, p'. split; [|split; [done|split; [done|rewrite Hb2; zlens; lia]]].
  unfold append. rewrite (ST_bind_eq _ _ _ _ _ He). unfold mbind, ST_bind, st_get, lift, st_put.
  by rewrite Hbl, Hhw.
Qed.

(** [append] of any length: the bytes are in, or the vector cannot grow. *)
Lemma append_total p b data src :
  holds p b data → zlen src ≤ max_size →
  (∃ b' p', append src b = (Ret (), b') ∧ holds p' b' (data ++ src) ∧
    (p' = p ∨ (p' = kCheapPrepend ∧ kCheapPrepend ≤ p))) ∨
  append src b = (Throw length_error, b).
Proof.
  intros Hh Hmax.
  destruct (ensureWritableBytes_total _ _ _ (zlen src) Hh)
    as [(b1 & p' & He & Hh1 & Hw & Hp & Hsz)|[He _]]; [apply zlen_nonneg|done| |].
  - left. destruct (write_holds _ _ _ src Hh1 Hw) as (bs & Hbl & Hbs & b2 & Hhw & Hh2 & Hb2).
    exists b2, p'. split; [|done].
    unfold append. rewrite (ST_bind_eq _ _ _ _ _ He). unfold mbind, ST_bind, st_get, lift, st_put.
    by rewrite Hbl, Hhw.
  - right. unfold append, mbind, ST_bind. by rewrite He.
Qed.

Lemma unwrite_holds p b x y :
  holds p b (x ++ y) → ∃ b', unwrite (zlen y) b = (Ret (), b') ∧ holds p b' x ∧
    buffer_ b' = buffer_ b.
Proof.
  intros Hh. unfold unwrite, assertST, mbind, ST_bind, st_modify.
  rewrite (holds_readable _ _ _ Hh), zlen_app. zlens.
  rewrite (proj2 (Z.leb_le _ _)) by lia. simpl. eexists. split; [done|].
  destruct Hh as (pre & post & -> & <- & Hsz). split; [|done]. exists pre, (y ++ post).
  unfold mk3, set_writer. simpl. unfold u64. zlens.
  rewrite wrapu_small by (unfold in_u; lia). rewrite <-!app_assoc.
  split; [f_equal; lia|]. split; lia.
Qed.

Lemma prepend_holds p b data src :
  holds p b data → zlen src ≤ p →
  ∃ b', prepend src b = (Ret (), b') ∧ holds (p - zlen src) b' (src ++ data) ∧
    zlen (buffer_ b') = zlen (buffer_ b).
Proof.
  intros (pre & post & -> & <- & Hsz) Hp. unfold prepend, assertST, prependableBytes.
  destruct (split_at (zlen pre - zlen src) pre) as (x & y & -> & Hx); [zlens; lia|].
  unfold mbind, ST_bind, st_modify, st_get, st_put, lift. simpl.
  rewrite (proj2 (Z.leb_le _ _)) by lia. simpl. unfold u64. zlens.
  rewrite wrapu_small by (unfold in_u; lia).
  replace (zlen x + zlen y - zlen src) with (zlen x) by lia.
  rewrite <-app_assoc, blit_mid by lia. eexists. split; [done|].
  unfold set_bytes, set_reader. simpl. split; [|rewrite !zlen_app; lia].
  exists x, post. unfold mk3. rewrite !zlen_app, <-!app_assoc. split; [f_equal; lia|].
  unfold kCheapPrepend, max_size. lia.
Qed.

Lemma retrieveAsString_holds p b x y : holds p b (x ++ y) →
  ∃ b' p', retrieveAsString (zlen x) b = (Ret x, b') ∧ holds p' b' y ∧
    p' = (if bool_decide (y = []) then kCheapPrepend else p + zlen x) ∧
    buffer_ b' = buffer_ b.
Proof.
  intros Hh. destruct (retrieve_holds _ _ _ _ Hh) as (b' & p' & Hr & Hh' & Hp & Hb).
  exists b', p'. split; [|done]. unfold retrieveAsString.
  unfold assertST, mbind, ST_bind, st_get, lift.
  rewrite (holds_readable _ _ _ Hh), zlen_app. pose proof (zlen_nonneg y).
  rewrite (proj2 (Z.leb_le _ _)) by lia. simpl.
  by rewrite (holds_read _ _ _ _ x y Hh), Hr.
Qed.

(** Appending what fits leaves the vector's size alone. *)
Lemma append_fits p b data src :
  holds p b data → zlen src ≤ writableBytes b →
  ∃ b', append src b = (Ret (), b') ∧ holds p b' (data ++ src) ∧
    zlen (buffer_ b') = zlen (buffer_ b).
Proof.
  intros Hh Hw. destruct (write_holds _ _ _ src Hh Hw) as (bs & Hbl & Hbs & b2 & Hhw & Hh2 & Hb2).
  exists b2. split; [|split; [done|by rewrite Hb2]].
  unfold append, ensureWritableBytes, assertST, mbind, ST_bind, st_get, mret, ST_ret, lift, st_put.
  rewrite (proj2 (Z.ltb_ge _ _)) by lia. rewrite (proj2 (Z.leb_le _ _)) by lia. simpl.
  by rewrite Hbl, Hhw.
Qed.

Lemma toStringPiece_holds p b data :
  holds p b data → zlen data < 2 ^ 31 → toStringPiece b = Ret data.
Proof.
  intros Hh Hlen. unfold toStringPiece. rewrite (holds_readable _ _ _ Hh).
  pose proof (zlen_nonneg data). unfold i32, u64.
  rewrite wraps_small by (unfold in_s; lia). rewrite wrapu_small by (unfold in_u; lia).
  apply (holds_read _ _ _ _ data [] Hh); [by rewrite app_nil_r|done].
Qed.

Lemma shrink_holds p b data reserve :
  holds p b data → zlen data < 2 ^ 31 → 0 ≤ reserve →
  kCheapPrepend + kInitialSize + zlen data + reserve ≤ max_size →
  ∃ b', shrink reserve b = (Ret (), b') ∧ holds kCheapPrepend b' data ∧
    reserve ≤ writableBytes b' ∧
    zlen (buffer_ b') ≤ kCheapPrepend + kInitialSize + zlen data + reserve.
Proof.
  intros Hh Hlen Hr Hmax. pose proof (zlen_nonneg data).
  assert (holds kCheapPrepend (Buffer_new kInitialSize) []) as H0.
  { apply holds_new; [done|]. unfold kCheapPrepend, kInitialSize, max_size in *. lia. }
  assert (zlen (buffer_ (Buffer_new kInitialSize)) = kCheapPrepend + kInitialSize) as Hsz0 by done.
  destruct (ensureWritableBytes_holds _ _ _ (zlen data + reserve) H0)
    as (b1 & p1 & He & Hh1 & Hw1 & Hp1 & Hsz1); [lia|lia|].
  destruct (append_fits _ _ _ data Hh1) as (b2 & Ha & Hh2 & Hsz2); [lia|].
  exists b2. assert (p1 = kCheapPrepend) as -> by tauto. simpl in Hh2.
  unfold shrink. rewrite (holds_readable _ _ _ Hh). unfold u64.
  rewrite wrapu_small by (unfold in_u, kCheapPrepend, kInitialSize, max_size in *; lia).
  rewrite (ST_bind_eq _ _ _ _ _ He). unfold mbind, ST_bind, lift.
  rewrite (toStringPiece_holds _ _ _ Hh Hlen). rewrite Ha. split; [done|]. split; [done|].
  rewrite (holds_writable _ _ _ Hh1) in Hw1. rewrite (holds_writable _ _ _ Hh2).
  change (zlen (@nil ascii)) with 0 in *. unfold kCheapPrepend, kInitialSize in *. lia.
Qed.

(** [readFd]: what the kernel delivered is appended to the readable bytes,
    whether it went into the vector or through the stack buffer, or the vector
    cannot grow. *)
Lemma readFd_total p b data got :
  holds p b data → zlen got ≤ readFd_capacity b → zlen got ≤ max_size →
  (∃ b' p', readFd (SysData got) b = (Ret (zlen got, None), b') ∧ holds p' b' (data ++ got) ∧
    (p' = p ∨ (p' = kCheapPrepend ∧ kCheapPrepend ≤ p)) ∧
    zlen (buffer_ b') ≤ zlen (buffer_ b) + zlen got) ∨
  (fst (readFd (SysData got) b) = Throw length_error ∧ max_size < zlen (buffer_ b) + zlen got).
Proof.
  intros Hh Hcap Hmax. pose proof (holds_writable _ _ _ Hh) as Hwr.
  pose proof (holds_bounds _ _ _ Hh) as Hb. unfold readFd, readFd_capacity in *.
  unfold mbind, ST_bind, st_get, lift, st_put, st_modify.
  set (w := writableBytes b) in *. simpl.
  assert (zlen (ztake w got) ≤ w ∧ ztake w got ++ zdrop w got = got ∧
    (zlen got ≤ w → ztake w got = got)) as (Hx & Hxy & Hall).
  { unfold ztake, zdrop, zlen. rewrite length_take, take_drop. repeat split; [lia|].
    intros. apply take_ge. lia. }
  destruct (write_holds _ _ _ _ Hh Hx) as (bs & Hbl & Hbs & b2 & Hhw & Hh2 & Hb2).
  unfold beginWrite in Hbl. rewrite Hbl.
  assert (hasWritten (zlen (ztake w got)) (set_bytes bs b) =
    (Ret (), set_writer (u64 (writerIndex_ b + zlen (ztake w got))) (set_bytes bs b))) as Hset.
  { unfold hasWritten, assertST, mbind, ST_bind, st_modify in *.
    destruct (_ <=? _); [done|discriminate]. }
  rewrite Hset in Hhw. injection Hhw as Hb2'. case_if.
  - left. exists b2, p. rewrite Hall in * by lia. simpl in *.
    rewrite <-Hb2'. split; [done|]. rewrite Hb2'. split; [done|]. split; [by left|].
    rewrite Hb2. pose proof (zlen_nonneg got). lia.
  - assert (zlen (ztake w got) = w) as Hxw by (apply zlen_ztake; lia).
    assert (set_writer (zlen (buffer_ (set_bytes bs b))) (set_bytes bs b) = b2) as ->.
    { simpl. rewrite <-Hb2', Hxw, Hwr, Hbs. unfold set_writer. simpl. f_equal. unfold u64.
      destruct Hh as (pre & post & -> & <- & Hsz). simpl in *.
      rewrite wrapu_small; [lia|]. unfold in_u. zlens. lia. }
    destruct (decide (zlen (buffer_ b) + zlen got ≤ max_size)) as [Hfit|Hfit].
    + left. destruct (append_holds _ _ _ (zdrop w got) Hh2) as (b3 & p3 & Ha & Hh3 & Hp3 & Hsz3).
      { rewrite Hb2, zlen_zdrop by lia. lia. }
      rewrite <-app_assoc, Hxy in Hh3. rewrite zlen_zdrop in Hsz3 by lia.
      exists b3, p3. rewrite Ha. split; [done|]. split; [done|]. split; [done|].
      rewrite Hb2 in Hsz3. lia.
    + destruct (append_total _ _ _ (zdrop w got) Hh2) as [(b3 & p3 & Ha & Hh3 & Hp3)|Ha].
      { rewrite zlen_zdrop by lia. lia. }
      * left. rewrite <-app_assoc, Hxy in Hh3. exists b3, p3. rewrite Ha.
        split; [done|]. split; [done|]. split; [done|]. pose proof (holds_bounds _ _ _ Hh3). lia.
      * right. rewrite Ha. split; [done|lia].
Qed.

Lemma readFd_holds p b data got :
  holds p b data → zlen got ≤ readFd_capacity b → zlen (buffer_ b) + zlen got ≤ max_size →
  ∃ b' p', readFd (SysData got) b = (Ret (zlen got, None), b') ∧ holds p' b' (data ++ got) ∧
    (p' = p ∨ (p' = kCheapPrepend ∧ kCheapPrepend ≤ p)) ∧
    zlen (buffer_ b') ≤ zlen (buffer_ b) + zlen got.
Proof.
  intros Hh Hcap Hmax. pose proof (holds_bounds _ _ _ Hh) as Hb.
  pose proof (zlen_nonneg (buffer_ b)). pose proof (zlen_nonneg data).
  destruct (readFd_total _ _ _ got Hh Hcap) as [?|[_ ?]]; [lia|done|lia].
Qed.
End Invariant.

(** ** Integers and searches on the readable bytes *)
Section Reads.
Implicit Types (b : Buffer) (data : bytes).

Lemma peekIntN_holds e p b n x rest :
  (0 < n)%nat → holds p b (be_bytes n x ++ rest) →
  peekIntN e n b = Ret (wraps (8 * Z.of_nat n) x).
Proof.
  intros Hn Hh. unfold peekIntN. rewrite (holds_readable _ _ _ Hh), zlen_app.
  assert (zlen (be_bytes n x) = Z.of_nat n) as Hl by (unfold zlen; by rewrite length_be_bytes).
  pose proof (zlen_nonneg rest). rewrite (proj2 (Z.leb_le _ _)) by lia. simpl.
  rewrite (holds_read _ _ _ _ _ _ Hh eq_refl Hl). simpl.
  rewrite wire_val_be by (done || apply length_be_bytes). rewrite be_val_bytes.
  f_equal. apply (wraps_wrapu (8 * Z.of_nat n)). lia.
Qed.

Lemma peekInt8_holds p b x rest :
  holds p b (be_bytes 1 x ++ rest) → peekInt8 b = Ret (wraps 8 x).
Proof.
  intros Hh. unfold peekInt8. rewrite (holds_readable _ _ _ Hh), zlen_app.
  pose proof (zlen_nonneg rest). change (zlen (be_bytes 1 x)) with 1.
  rewrite (proj2 (Z.leb_le _ _)) by lia. simpl.
  rewrite (holds_read _ _ _ 1 _ _ Hh eq_refl) by done.
  change (Ret (wraps 8 (le_val (le_bytes 1 x))) = Ret (wraps 8 x)). rewrite le_val_bytes.
  f_equal. apply (wraps_wrapu 8). lia.
Qed.

(** The wire length and the bytes of the width-indexed calls. *)
Inductive iwidth := W8 | W16 | W32 | W64.
Definition iw_bytes (w : iwidth) : nat :=
  match w with W8 => 1 | W16 => 2 | W32 => 4 | W64 => 8 end.
Definition appendInt (e : endian) (w : iwidth) : Z → ST Buffer unit :=
  match w with
  | W8 => appendInt8 | W16 => appendInt16 e | W32 => appendInt32 e | W64 => appendInt64 e
  end.
Definition prependInt (e : endian) (w : iwidth) : Z → ST Buffer unit :=
  match w with
  | W8 => prependInt8 | W16 => prependInt16 e | W32 => prependInt32 e | W64 => prependInt64 e
  end.
Definition readInt (e : endian) (w : iwidth) : ST Buffer Z :=
  match w with
  | W8 => readInt8 | W16 => readInt16 e | W32 => readInt32 e | W64 => readInt64 e
  end.

Lemma appendInt_eq e w x : appendInt e w x = append (be_bytes (iw_bytes w) x).
Proof.
  destruct w; simpl; [done|..]; unfold appendInt16, appendInt32, appendInt64;
    by rewrite wire_bytes_be by lia.
Qed.

Lemma prependInt_eq e w x : prependInt e w x = prepend (be_bytes (iw_bytes w) x).
Proof.
  destruct w; simpl; [done|..]; unfold prependInt16, prependInt32, prependInt64;
    by rewrite wire_bytes_be by lia.
Qed.

Lemma readInt_holds e w p b x rest :
  holds p b (be_bytes (iw_bytes w) x ++ rest) →
  ∃ b' p', readInt e w b = (Ret (wraps (8 * Z.of_nat (iw_bytes w)) x), b') ∧
    holds p' b' rest ∧ buffer_ b' = buffer_ b ∧
    p' = (if bool_decide (rest = []) then kCheapPrepend else p + Z.of_nat (iw_bytes w)).
Proof.
  intros Hh. destruct (retrieve_holds _ _ _ _ Hh) as (b' & p' & Hr & Hh' & Hp & Hb).
  assert (zlen (be_bytes (iw_bytes w) x) = Z.of_nat (iw_bytes w)) as Hl.
  { unfold zlen. by rewrite length_be_bytes. }
  rewrite Hl in *. exists b', p'. split; [|done].
  destruct w; cbn [iw_bytes readInt] in *;
    unfold readInt8, readInt16, readInt32, readInt64, retrieveInt8, retrieveInt16, retrieveInt32,
      retrieveInt64, peekInt16, peekInt32, peekInt64, mbind, ST_bind, st_get, lift.
  1: rewrite (peekInt8_holds _ _ _ _ Hh). 2-4: rewrite (peekIntN_holds _ _ _ _ _ _ (Nat.lt_0_succ _) Hh).
  all: cbv [Z.of_nat Pos.of_succ_nat Pos.succ] in Hr; by rewrite Hr.
Qed.

(** [pat] occurs in [s] at position [k]. *)
Definition occurs_at (pat s : bytes) (k : Z) : Prop :=
  0 ≤ k ∧ take (length pat) (zdrop k s) = pat.

Lemma occurs_at_cons pat c s k :
  0 < k → occurs_at pat (c :: s) k ↔ occurs_at pat s (k - 1).
Proof.
  intros Hk. unfold occurs_at, zdrop. replace (Z.to_nat k) with (S (Z.to_nat (k - 1))) by lia.
  simpl. split; intros [_ ?]; (split; [lia|done]).
Qed.

Lemma search_Some pat s k :
  search pat s = Some k ↔ occurs_at pat s k ∧ ∀ j, occurs_at pat s j → k ≤ j.
Proof.
  revert k. induction s as [|c s IH]; intros k; simpl; case_bool_decide as Hd.
  1,3: split;
    [ intros [= <-]; split; [by split|by intros j [? _]]
    | intros [[Hk _] Hmin]; f_equal; assert (k ≤ 0) by (apply Hmin; by split); lia ].
  - split; [done|]. intros [[_ Hk] _]. unfold zdrop in Hk. by rewrite drop_nil in Hk.
  - rewrite fmap_Some. setoid_rewrite IH.
    assert (∀ j, occurs_at pat (c :: s) j → 0 < j) as Hpos.
    { intros j [Hj Ht]. destruct (decide (j = 0)) as [->|]; [done|lia]. }
    split.
    + intros (k' & [Hk' Hmin] & ->). assert (0 ≤ k') by apply Hk'. split.
      * apply occurs_at_cons; [lia|]. by replace (Z.succ k' - 1) with k' by lia.
      * intros j Hj. pose proof (Hpos j Hj). apply occurs_at_cons in Hj; [|done].
        specialize (Hmin _ Hj). lia.
    + intros [Hk Hmin]. pose proof (Hpos k Hk). apply occurs_at_cons in Hk; [|done].
      exists (k - 1). split; [split; [done|]|lia]. intros j Hj. assert (0 ≤ j) by apply Hj.
      enough (k ≤ j + 1) by lia. apply Hmin, occurs_at_cons; [lia|].
      by replace (j + 1 - 1) with j by lia.
Qed.

Lemma search_None pat s : search pat s = None ↔ ∀ k, ¬ occurs_at pat s k.
Proof.
  induction s as [|c s IH]; simpl; case_bool_decide as Hd.
  1,3: split; [done|]; intros Hn; exfalso; apply (Hn 0); by split.
  - split; [|done]. intros _ k [_ Hk]. unfold zdrop in Hk. by rewrite drop_nil in Hk.
  - rewrite fmap_None, IH. split; intros Hn k Hk.
    + destruct (decide (k = 0)) as [->|]; [by destruct Hk|].
      apply occurs_at_cons in Hk; [by apply Hn in Hk|]. destruct Hk. lia.
    + assert (0 ≤ k) by apply Hk. apply (Hn (k + 1)), occurs_at_cons; [lia|].
      by replace (k + 1 - 1) with k by lia.
Qed.

Lemma holds_slice p b data :
  holds p b data → slice (peek b) (beginWrite b) (buffer_ b) = data ∧ peek b = p ∧
    beginWrite b = p + zlen data.
Proof. intros (pre & post & -> & <- & Hsz). simpl. by rewrite slice_mid. Qed.
Lemma findCRLF_holds p b data :
  holds p b data → findCRLF b = Z.add (peek b) <$> search kCRLF data.
Proof. intros Hh. destruct (holds_slice _ _ _ Hh) as (Hsl & _). unfold findCRLF. by rewrite Hsl. Qed.

(** Taking the first line: its bytes can be read in place and
    [retrieveUntil] past its end leaves the rest. *)
Lemma first_line_holds p b data k :
  holds p b data → search kCRLF data = Some k →
  data = ztake k data ++ kCRLF ++ zdrop (k + 2) data ∧ zlen (ztake k data) = k ∧
  read_at (peek b) k (buffer_ b) = Ret (ztake k data) ∧
  ∃ b' p', retrieveUntil (peek b + k + 2) b = (Ret (), b') ∧ holds p' b' (zdrop (k + 2) data) ∧
    (kCheapPrepend ≤ p → kCheapPrepend ≤ p') ∧ buffer_ b' = buffer_ b.
Proof.
  intros Hh [[Hk0 Hk] _]%search_Some. destruct (holds_slice _ _ _ Hh) as (_ & Hp & Hw).
  set (line := ztake k data). set (rest := zdrop (k + 2) data).
  assert (data = line ++ kCRLF ++ rest) as Hd.
  { unfold line, rest. rewrite <-(ztake_zdrop k data) at 1. f_equal.
    rewrite <-(take_drop (length kCRLF) (zdrop k data)), Hk. f_equal. unfold zdrop.
    rewrite drop_drop. f_equal. unfold kCRLF. simpl. lia. }
  assert (zlen line = k) as Hl.
  { apply zlen_ztake. split; [done|]. destruct (decide (k ≤ zlen data)); [done|exfalso].
    unfold zdrop in Hk. rewrite drop_ge in Hk by (unfold zlen in *; lia). done. }
  split; [done|]. split; [done|]. split; [by apply (holds_read _ _ _ _ _ _ Hh Hd)|].
  assert (data = (line ++ kCRLF) ++ rest) as Hd' by (by rewrite <-app_assoc).
  rewrite Hd' in Hh. destruct (retrieve_holds _ _ _ _ Hh) as (b' & p' & Hr & Hh' & Hpp & Hb').
  exists b', p'. pose proof (zlen_nonneg rest).
  assert (zlen data = k + 2 + zlen rest) as Hlen by (rewrite Hd', !zlen_app, Hl; done).
  split; [|split; [done|split; [|done]]].
  - unfold retrieveUntil, assertST, mbind, ST_bind, st_get.
    rewrite (proj2 (Z.leb_le _ _)) by lia. rewrite (proj2 (Z.leb_le _ _)) by lia. simpl.
    rewrite <-Hr. f_equal. rewrite zlen_app, Hl. change (zlen kCRLF) with 2. lia.
  - intros. rewrite Hpp, zlen_app. case_bool_decide; [done|]. pose proof (zlen_nonneg line).
    change (zlen kCRLF) with 2. lia.
Qed.
End Reads.

(** ** Sequences of calls *)

(** The calls of one client of the buffer; [BReadFd] is a [readFd] for which
    the kernel delivered [got]. *)
Inductive bcmd :=
  | BAppend (data : bytes)
  | BRetrieve (len : Z)
  | BRetrieveAll
  | BRetrieveAsString (len : Z)
  | BRetrieveAllAsString
  | BEnsureWritable (len : Z)
  | BUnwrite (len : Z)
  | BShrink (reserve : Z)
  | BReadFd (got : bytes).

Definition run_bcmd (c : bcmd) : ST Buffer bytes :=
  match c with
  | BAppend data => append data ;; mret []
  | BRetrieve len => retrieve len ;; mret []
  | BRetrieveAll => retrieveAll ;; mret []
  | BRetrieveAsString len => retrieveAsString len
  | BRetrieveAllAsString => retrieveAllAsString
  | BEnsureWritable len => ensureWritableBytes len ;; mret []
  | BUnwrite len => unwrite len ;; mret []
  | BShrink reserve => shrink reserve ;; mret []
  | BReadFd got => readFd (SysData got) ;; mret []
  end.

Fixpoint run_bcmds (cs : list bcmd) : ST Buffer (list bytes) :=
  match cs with
  | [] => mret []
  | c :: cs' => r ← run_bcmd c; rs ← run_bcmds cs'; mret (r :: rs)
  end.

(** The specification: a byte queue. *)
Definition queue_cmd (c : bcmd) (q : bytes) : bytes * bytes :=
  match c with
  | BAppend data | BReadFd data => ([], q ++ data)
  | BRetrieve len => ([], zdrop len q)
  | BRetrieveAll => ([], [])
  | BRetrieveAsString len => (ztake len q, zdrop len q)
  | BRetrieveAllAsString => (q, [])
  | BEnsureWritable _ | BShrink _ => ([], q)
  | BUnwrite len => ([], ztake (zlen q - len) q)
  end.

Fixpoint queue_cmds (cs : list bcmd) (q : bytes) : list bytes * bytes :=
  match cs with
  | [] => ([], q)
  | c :: cs' =>
      let '(r, q') := queue_cmd c q in
      let '(rs, q'') := queue_cmds cs' q' in (r :: rs, q'')
  end.

(** The callers' obligations: a retrieve or unwrite stays within the content;
    one [readFd] delivers at most what its stack buffer takes; [shrink] passes
    the content through a [StringPiece] of [int] length. *)
Definition legal (c : bcmd) (q : bytes) : bool :=
  match c with
  | BRetrieve len | BRetrieveAsString len | BUnwrite len => (0 <=? len) && (len <=? zlen q)
  | BEnsureWritable len => 0 <=? len
  | BShrink reserve => (0 <=? reserve) && (zlen q <? 2 ^ 31)
  | BReadFd got => zlen got <=? kExtraBuf
  | _ => true
  end.

Fixpoint legals (cs : list bcmd) (q : bytes) : bool :=
  match cs with
  | [] => true
  | c :: cs' => legal c q && legals cs' (queue_cmd c q).2
  end.

(** What a call may add to the vector. *)
Definition growth (c : bcmd) : Z :=
  match c with
  | BAppend data | BReadFd data => zlen data
  | BEnsureWritable len => len
  | BShrink reserve => kCheapPrepend + kInitialSize + reserve
  | _ => 0
  end.

Fixpoint growths (cs : list bcmd) : Z :=
  match cs with
  | [] => 0
  | c :: cs' => growth c + growths cs'
  end.

Section Sessions.
Implicit Types (b : Buffer) (q : bytes).

(** What every call of [bcmd] preserves: at least the cheap-prepend area is
    in front, and the vector is no larger than [n]. *)
Definition queue_repr (n : Z) (b : Buffer) (q : bytes) : Prop :=
  (∃ p, kCheapPrepend ≤ p ∧ holds p b q) ∧ zlen (buffer_ b) ≤ n.

Lemma split_take len q : 0 ≤ len ≤ zlen q → zlen (ztake len q) = len ∧ ztake len q ++ zdrop len q = q.
Proof. intros. split; [by apply zlen_ztake|apply ztake_zdrop]. Qed.

Lemma run_bcmd_step c b q n :
  queue_repr n b q → legal c q = true → n + growth c ≤ max_size → 0 ≤ growth c ∧ ∃ b',
    run_bcmd c b = (Ret (queue_cmd c q).1, b') ∧ queue_repr (n + growth c) b' (queue_cmd c q).2.
Proof.
  intros [(p & Hp & Hh) Hn] Hl Hmax. unfold queue_repr.
  pose proof (holds_bounds _ _ _ Hh) as Hb.
  destruct c as [data|len| |len| |len|len|reserve|got]; simpl in *; bool_to_prop.
  - pose proof (zlen_nonneg data). split; [lia|].
    destruct (append_holds _ _ _ data Hh) as (b' & p' & Hr & Hh' & Hp' & Hs); [lia|].
    exists b'. rewrite (ST_bind_eq _ _ _ _ _ Hr). split; [done|]. split; [exists p'; split; [lia|done]|lia].
  - split; [lia|]. destruct (split_take len q) as [Hx Hxy]; [lia|]. rewrite <-Hxy in Hh.
    destruct (retrieve_holds _ _ _ _ Hh) as (b' & p' & Hr & Hh' & -> & Hb'). rewrite Hx in *.
    exists b'. rewrite (ST_bind_eq _ _ _ _ _ Hr). split; [done|].
    split; [eexists; split; [|done]; case_bool_decide; lia|rewrite Hb'; lia].
  - split; [lia|]. destruct (retrieveAll_holds _ _ _ Hh) as (b' & Hr & Hh' & Hb').
    exists b'. rewrite (ST_bind_eq _ _ _ _ _ Hr). split; [done|].
    split; [by exists kCheapPrepend|rewrite Hb'; lia].
  - split; [lia|]. destruct (split_take len q) as [Hx Hxy]; [lia|]. rewrite <-Hxy in Hh.
    destruct (retrieveAsString_holds _ _ _ _ Hh) as (b' & p' & Hr & Hh' & -> & Hb').
    rewrite Hx in *. exists b'. split; [done|].
    split; [eexists; split; [|done]; case_bool_decide; lia|rewrite Hb'; lia].
  - split; [lia|]. rewrite <-(app_nil_r q) in Hh.
    destruct (retrieveAsString_holds _ _ _ _ Hh) as (b' & p' & Hr & Hh' & -> & Hb').
    exists b'. unfold retrieveAllAsString. unfold mbind, ST_bind, st_get.
    rewrite (holds_readable _ _ _ Hh), app_nil_r. split; [done|].
    split; [by exists kCheapPrepend|rewrite Hb'; lia].
  - split; [lia|].
    destruct (ensureWritableBytes_holds _ _ _ len Hh) as (b' & p' & Hr & Hh' & _ & Hp' & Hs); [lia..|].
    exists b'. rewrite (ST_bind_eq _ _ _ _ _ Hr). split; [done|]. split; [exists p'; split; [lia|done]|lia].
  - split; [lia|]. pose proof (zlen_ztake (zlen q - len) q) as Hx.
    assert (zlen (zdrop (zlen q - len) q) = len) as Hy by (rewrite zlen_zdrop; lia).
    rewrite <-(ztake_zdrop (zlen q - len) q) in Hh.
    destruct (unwrite_holds _ _ _ _ Hh) as (b' & Hr & Hh' & Hb'). rewrite Hy in Hr.
    exists b'. rewrite (ST_bind_eq _ _ _ _ _ Hr). split; [done|].
    split; [by exists p|rewrite Hb'; lia].
  - assert (0 ≤ kCheapPrepend + kInitialSize) by done. split; [lia|].
    destruct (shrink_holds _ _ _ reserve Hh) as (b' & Hr & Hh' & _ & Hs); [lia..|].
    exists b'. rewrite (ST_bind_eq _ _ _ _ _ Hr). split; [done|].
    split; [by exists kCheapPrepend|lia].
  - pose proof (zlen_nonneg got). split; [lia|].
    destruct (readFd_holds _ _ _ got Hh) as (b' & p' & Hr & Hh' & Hp' & Hs); [|lia|].
    { unfold readFd_capacity. case_if; [|lia].
      pose proof (holds_writable _ _ _ Hh). lia. }
    exists b'. rewrite (ST_bind_eq _ _ _ _ _ Hr). split; [done|]. split; [exists p'; split; [lia|done]|lia].
Qed.

Lemma legals_growths cs q : legals cs q = true → 0 ≤ growths cs.
Proof.
  revert q. induction cs as [|c cs IH]; intros q Hl; simpl in *; [done|].
  bool_to_prop. specialize (IH _ H0). destruct c; simpl in *; bool_to_prop;
    unfold kCheapPrepend, kInitialSize in *; zlens; lia.
Qed.

Lemma run_bcmds_step cs b q n :
  queue_repr n b q → legals cs q = true → n + growths cs ≤ max_size → ∃ b',
    run_bcmds cs b = (Ret (queue_cmds cs q).1, b') ∧
    queue_repr (n + growths cs) b' (queue_cmds cs q).2.
Proof.
  revert b q n. induction cs as [|c cs IH]; intros b q n Hq Hl Hmax; simpl in *.
  { exists b. split; [done|]. by rewrite Z.add_0_r. }
  bool_to_prop. pose proof (legals_growths _ _ H0).
  destruct (run_bcmd_step c b q n Hq H) as [Hg (b1 & Hr & Hq1)]; [lia|].
  destruct (IH b1 _ _ Hq1 H0) as (b2 & Hr2 & Hq2); [lia|].
  exists b2. rewrite (ST_bind_eq _ _ _ _ _ Hr), (ST_bind_eq _ _ _ _ _ Hr2).
  destruct (queue_cmd c q) as [r q']; simpl in *. destruct (queue_cmds cs q') as [rs q''].
  simpl in *. split; [done|]. by rewrite Z.add_assoc.
Qed.

Lemma queue_repr_new initialSize :
  0 ≤ initialSize → kCheapPrepend + initialSize ≤ max_size →
  queue_repr (kCheapPrepend + initialSize) (Buffer_new initialSize) [].
Proof.
  intros H0 Hmax. split; [exists kCheapPrepend; split; [done|by apply holds_new]|].
  simpl. rewrite zlen_zeros; [done|]. unfold kCheapPrepend. lia.
Qed.
End Sessions.

(** ** Properties *)

(** C9: From a fresh buffer, every sequence of appends, retrieves, string
    reads, reservations, unwrites, shrinks and [readFd]s within the callers'
    obligations and the vector's maximum size runs without a failed assertion,
    an exception or an out-of-bounds copy, returns what a byte queue returns,
    leaves the queue's bytes as the readable bytes and keeps the eight
    prependable bytes. *)
Theorem buffer_session_is_byte_queue (initialSize : Z) (cs : list bcmd) :
  0 ≤ initialSize → legals cs [] = true →
  kCheapPrepend + initialSize + growths cs ≤ max_size →
  ∃ b', run_bcmds cs (Buffer_new initialSize) = (Ret (queue_cmds cs []).1, b') ∧
    slice (peek b') (beginWrite b') (buffer_ b') = (queue_cmds cs []).2 ∧
    readableBytes b' = zlen (queue_cmds cs []).2 ∧
    kCheapPrepend ≤ prependableBytes b'.
Proof.
  intros H0 Hl Hmax.
  pose proof (legals_growths _ _ Hl) as Hg.
  pose proof (queue_repr_new initialSize H0) as Hq.
  destruct (run_bcmds_step cs _ _ _ (Hq ltac:(lia)) Hl Hmax)
    as (b' & Hr & (p & Hp & Hh) & _).
  exists b'. split; [done|]. split; [by destruct (holds_slice _ _ _ Hh)|].
  split; [by eapply holds_readable|]. by rewrite (holds_prependable _ _ _ Hh).
Qed.

Definition demo_cmds : list bcmd :=
  [BAppend s!"hello"; BRetrieve 2; BReadFd s!" world"; BRetrieveAsString 3; BShrink 0;
   BUnwrite 1; BRetrieveAllAsString].

Lemma buffer_session_is_byte_queue_witness :
  ∃ b', run_bcmds demo_cmds (Buffer_new 4) =
      (Ret [[]; []; []; s!"llo"; []; []; s!" worl"], b') ∧
    slice (peek b') (beginWrite b') (buffer_ b') = [] ∧ readableBytes b' = 0 ∧
    kCheapPrepend ≤ prependableBytes b'.
Proof.
  apply (buffer_session_is_byte_queue 4 demo_cmds); [lia|reflexivity|vm_compute; discriminate].
Defined.

(** [readFd] loses and reorders nothing: up to the offered capacity (the
    writable space, plus 64 KiB when that space is smaller), whatever the
    kernel delivers is appended to the readable bytes in order and its length
    returned, whether or not it overflowed into the stack buffer; an error
    saves [errno], returns -1 and leaves the buffer as it was. *)
Theorem readFd_appends_everything (p : Z) (b : Buffer) (data got : bytes) (errno : Z) :
  holds p b data → zlen got ≤ readFd_capacity b → zlen (buffer_ b) + zlen got ≤ max_size →
  readFd (SysErr errno) b = (Ret (-1, Some errno), b) ∧
  ∃ b', readFd (SysData got) b = (Ret (zlen got, None), b') ∧
    slice (peek b') (beginWrite b') (buffer_ b') = data ++ got ∧
    readableBytes b' = zlen data + zlen got.
Proof.
  intros Hh Hcap Hmax. split; [done|].
  destruct (readFd_holds _ _ _ got Hh Hcap Hmax) as (b' & p' & Hr & Hh' & _).
  exists b'. split; [done|]. split; [by destruct (holds_slice _ _ _ Hh')|].
  by rewrite (holds_readable _ _ _ Hh'), zlen_app.
Qed.

Lemma readFd_appends_everything_witness :
  readFd (SysErr 11) (Buffer_new 2) = (Ret (-1, Some 11), Buffer_new 2) ∧
  ∃ b', readFd (SysData s!"abcde") (Buffer_new 2) = (Ret (5, None), b') ∧
    slice (peek b') (beginWrite b') (buffer_ b') = s!"abcde" ∧ readableBytes b' = 5.
Proof.
  apply (readFd_appends_everything kCheapPrepend (Buffer_new 2) []).
  - by apply holds_new.
  - vm_compute. discriminate.
  - vm_compute. discriminate.
Defined.

(** An integer appended on a host of either byte order and received into
    another buffer is read back as the same integer on a host of either byte
    order, at each width; the bytes that follow it stay readable. *)
Theorem int_crosses_hosts (e1 e2 : endian) (w : iwidth) (x p1 p2 : Z) (b1 b2 : Buffer)
    (sent rest : bytes) :
  in_s (8 * Z.of_nat (iw_bytes w)) x → holds p1 b1 sent → holds p2 b2 [] →
  zlen (buffer_ b1) + 8 ≤ max_size →
  8 + zlen rest ≤ readFd_capacity b2 → zlen (buffer_ b2) + 8 + zlen rest ≤ max_size →
  ∃ b1' wire b2' b2'', appendInt e1 w x b1 = (Ret (), b1') ∧
    slice (peek b1') (beginWrite b1') (buffer_ b1') = sent ++ wire ∧
    readFd (SysData (wire ++ rest)) b2 = (Ret (zlen (wire ++ rest), None), b2') ∧
    readInt e2 w b2' = (Ret x, b2'') ∧
    slice (peek b2'') (beginWrite b2'') (buffer_ b2'') = rest.
Proof.
  intros Hx Hh1 Hh2 Hm1 Hc Hm2.
  assert (zlen (be_bytes (iw_bytes w) x) = Z.of_nat (iw_bytes w)) as Hl
    by (unfold zlen; by rewrite length_be_bytes).
  assert (0 < Z.of_nat (iw_bytes w) ≤ 8) as H8 by (destruct w; simpl; lia).
  destruct (append_holds _ _ _ (be_bytes (iw_bytes w) x) Hh1) as (b1' & p1' & Ha & Hh1' & _); [lia|].
  destruct (readFd_holds _ _ _ (be_bytes (iw_bytes w) x ++ rest) Hh2)
    as (b2' & p2' & Hr & Hh2' & _); [rewrite zlen_app; lia..|].
  destruct (readInt_holds e2 w _ _ _ _ Hh2') as (b2'' & p2'' & Hi & Hh2'' & _).
  rewrite wraps_small in Hi by (done || lia).
  exists b1', (be_bytes (iw_bytes w) x), b2', b2''. rewrite appendInt_eq.
  split; [done|]. split; [by destruct (holds_slice _ _ _ Hh1')|].
  split; [done|]. split; [done|]. by destruct (holds_slice _ _ _ Hh2'').
Qed.

Lemma int_crosses_hosts_witness :
  ∃ b1' wire b2' b2'', appendInt LittleEndian W32 (-2) (Buffer_new 16) = (Ret (), b1') ∧
    slice (peek b1') (beginWrite b1') (buffer_ b1') = [] ++ wire ∧
    readFd (SysData (wire ++ s!"tail")) (Buffer_new 1) = (Ret (zlen (wire ++ s!"tail"), None), b2') ∧
    readInt BigEndian W32 b2' = (Ret (-2), b2'') ∧
    slice (peek b2'') (beginWrite b2'') (buffer_ b2'') = s!"tail".
Proof.
  apply (int_crosses_hosts LittleEndian BigEndian W32 (-2) kCheapPrepend kCheapPrepend);
    [split; vm_compute; congruence|by apply holds_new|by apply holds_new|vm_compute; discriminate..].
Defined.

(** While at least the cheap-prepend area is in front (as every session
    leaves it), prepending an integer of any width puts its big-endian bytes
    before the readable ones without resizing the vector, and reading it back
    gives the integer and the original content. *)
Theorem prependInt_is_cheap (e : endian) (w : iwidth) (x p : Z) (b : Buffer) (data : bytes) :
  holds p b data → kCheapPrepend ≤ p → in_s (8 * Z.of_nat (iw_bytes w)) x →
  ∃ b' b'', prependInt e w x b = (Ret (), b') ∧ zlen (buffer_ b') = zlen (buffer_ b) ∧
    slice (peek b') (beginWrite b') (buffer_ b') = be_bytes (iw_bytes w) x ++ data ∧
    beginWrite b' = beginWrite b ∧
    readInt e w b' = (Ret x, b'') ∧
    slice (peek b'') (beginWrite b'') (buffer_ b'') = data.
Proof.
  intros Hh Hp Hx.
  assert (zlen (be_bytes (iw_bytes w) x) = Z.of_nat (iw_bytes w)) as Hl
    by (unfold zlen; by rewrite length_be_bytes).
  assert (Z.of_nat (iw_bytes w) ≤ 8) as H8 by (destruct w; simpl; lia).
  destruct (prepend_holds _ _ _ (be_bytes (iw_bytes w) x) Hh) as (b' & Hr & Hh' & Hs).
  { unfold kCheapPrepend in Hp. lia. }
  destruct (readInt_holds e w _ _ _ _ Hh') as (b'' & p'' & Hi & Hh'' & _).
  rewrite wraps_small in Hi by (done || (destruct w; simpl; lia)).
  destruct (holds_slice _ _ _ Hh') as (Hsl & _ & Hw). destruct (holds_slice _ _ _ Hh) as (_ & _ & Hw0).
  exists b', b''. rewrite prependInt_eq. split; [done|]. split; [done|]. split; [done|].
  split; [rewrite Hw, Hw0, zlen_app; lia|]. split; [done|]. by destruct (holds_slice _ _ _ Hh'').
Qed.

Lemma prependInt_is_cheap_witness :
  ∃ b' b'', prependInt LittleEndian W64 (-1) (mk3 (zeros 8) s!"body" []) = (Ret (), b') ∧
    zlen (buffer_ b') = 12 ∧
    slice (peek b') (beginWrite b') (buffer_ b') = be_bytes 8 (-1) ++ s!"body" ∧
    beginWrite b' = 12 ∧
    readInt LittleEndian W64 b' = (Ret (-1), b'') ∧
    slice (peek b'') (beginWrite b'') (buffer_ b'') = s!"body".
Proof.
  apply (prependInt_is_cheap LittleEndian W64 (-1) 8 (mk3 (zeros 8) s!"body" []) s!"body").
  - apply (holds_mk3 (zeros 8) s!"body" []). vm_compute. split; discriminate.
  - vm_compute. discriminate.
  - split; vm_compute; congruence.
Defined.

(** [findCRLF] finds the first line end and nothing else: it returns
    null exactly when no CRLF is readable; otherwise the position it returns
    splits the content into a line with no earlier CRLF and the rest, and
    [retrieveUntil] of the position past it consumes exactly the line. *)
Theorem findCRLF_frames_lines (p : Z) (b : Buffer) (data : bytes) :
  holds p b data →
  (findCRLF b = None ↔ ∀ k, ¬ occurs_at kCRLF data k) ∧
  ∀ pos, findCRLF b = Some pos → ∃ line rest b',
    data = line ++ kCRLF ++ rest ∧ pos = peek b + zlen line ∧
    (∀ k, occurs_at kCRLF data k → zlen line ≤ k) ∧
    findCRLF_from (peek b) b = Ret (Some pos) ∧
    retrieveUntil (pos + 2) b = (Ret (), b') ∧
    slice (peek b') (beginWrite b') (buffer_ b') = rest.
Proof.
  intros Hh. destruct (holds_slice _ _ _ Hh) as (Hsl & Hp & Hw). split.
  { rewrite (findCRLF_holds _ _ _ Hh), fmap_None. apply search_None. }
  intros pos Hpos. rewrite (findCRLF_holds _ _ _ Hh) in Hpos.
  apply fmap_Some in Hpos as (k & Hk & ->).
  destruct (first_line_holds _ _ _ _ Hh Hk) as (Hd & Hl & _ & b' & p' & Hr & Hh' & _).
  exists (ztake k data), (zdrop (k + 2) data), b'. rewrite Hl.
  split; [done|]. split; [done|]. split; [by apply search_Some in Hk as [_ ?]|].
  split; [|split; [done|by destruct (holds_slice _ _ _ Hh')]].
  pose proof (zlen_nonneg data). unfold findCRLF_from.
  rewrite (proj2 (Z.leb_le (peek b) (peek b))), (proj2 (Z.leb_le (peek b) (beginWrite b))) by lia.
  simpl. by rewrite Hsl, Hk.
Qed.

Definition line_buffer : Buffer := mk3 (zeros 8) (s!"GET" ++ kCRLF ++ s!"x") [].

Lemma findCRLF_frames_lines_witness :
  (findCRLF line_buffer = None ↔ ∀ k, ¬ occurs_at kCRLF (s!"GET" ++ kCRLF ++ s!"x") k) ∧
  ∀ pos, findCRLF line_buffer = Some pos → ∃ line rest b',
    s!"GET" ++ kCRLF ++ s!"x" = line ++ kCRLF ++ rest ∧ pos = peek line_buffer + zlen line ∧
    (∀ k, occurs_at kCRLF (s!"GET" ++ kCRLF ++ s!"x") k → zlen line ≤ k) ∧
    findCRLF_from (peek line_buffer) line_buffer = Ret (Some pos) ∧
    retrieveUntil (pos + 2) line_buffer = (Ret (), b') ∧
    slice (peek b') (beginWrite b') (buffer_ b') = rest.
Proof.
  apply (findCRLF_frames_lines 8). apply (holds_mk3 (zeros 8) (s!"GET" ++ kCRLF ++ s!"x") []).
  vm_compute. split; discriminate.
Defined.
