(* ===== verification/LruMap.v ===== *)
(** * The LRU map [lruMap] (server/lruMap.h, server/lruMap.cc)

    The predecessor of [Db]: the same list-plus-map structure without the
    slot index.  Its [Set] tests [mapItor == map_.end()] for the branch meant
    for a key that is present, so the two branches are exchanged. *)
From S2P Require Import Prelude StdContainers.
Local Open Scope Z_scope.

Record lruMap := MkLru {
  maxSize_ : Z;
  lruList_ : nodes bytes;
  map_ : gmap bytes (iter * bytes);
}.

(** [lruMap(int maxSize)] *)
Definition lruMap_new (maxSize : Z) : lruMap := MkLru maxSize nl_empty ∅.

Definition isOverSize (d : lruMap) : bool := u64 (maxSize_ d) <=? nl_size (lruList_ d).

Definition Contain (key : bytes) (d : lruMap) : bool := bool_decide (is_Some (map_ d !! key)).

(** [Get(key, value)]: the result carries the content of [value] after the call. *)
Definition Get (key value : bytes) : ST lruMap (bool * bytes) :=
  d ← st_get;
  match map_ d !! key with
  | None => mret (false, value)
  | Some (it, v) =>
      l ← lift (nl_erase it (lruList_ d));
      let l' := nl_push_front key l in
      st_put (MkLru (maxSize_ d) l' (<[key := (nl_begin l', v)]> (map_ d))) ;;
      mret (true, v)
  end.

Definition Del (key : bytes) : ST lruMap bool :=
  d ← st_get;
  match map_ d !! key with
  | None => mret false
  | Some (listItor, _) =>
      l ← lift (nl_erase listItor (lruList_ d));
      st_put (MkLru (maxSize_ d) l (delete key (map_ d))) ;;
      mret true
  end.

(** [Set(key, value)].  With [mapItor == end()] the code writes
    [mapItor->second.second], which is undefined.  With the key present it
    takes the add path: evict when full (reading [mapItor->first] afterwards
    is undefined when the evicted key was this one), push the key once more
    and point [map_] at the new node. *)
Definition Set_ (key value : bytes) : ST lruMap bool :=
  d ← st_get;
  match map_ d !! key with
  | None => lift Undef
  | Some _ =>
      (if isOverSize d then
         back ← lift (nl_back (lruList_ d));
         l ← lift (nl_pop_back (lruList_ d));
         st_put (MkLru (maxSize_ d) l (delete back (map_ d)))
       else mret ()) ;;
      d' ← st_get;
      match map_ d' !! key with
      | None => lift Undef
      | Some _ =>
          let l' := nl_push_front key (lruList_ d') in
          st_put (MkLru (maxSize_ d') l' (<[key := (nl_begin l', value)]> (map_ d'))) ;;
          mret true
      end
  end.

(** ** Representation: the contents, most recently used first *)
Definition lru_node (m : gmap bytes (iter * bytes)) (n : nat * bytes) (e : bytes * bytes) : Prop :=
  n.2 = e.1 ∧ m !! e.1 = Some (Some n.1, e.2).

Record lru_repr (d : lruMap) (es : list (bytes * bytes)) : Prop := {
  lrepr_wf : nl_wf (lruList_ d);
  lrepr_keys : NoDup es.*1;
  lrepr_nodes : Forall2 (lru_node (map_ d)) (nl_nodes (lruList_ d)) es;
  lrepr_map : ∀ k, is_Some (map_ d !! k) → k ∈ es.*1;
}.

Definition lru_without (k : bytes) (es : list (bytes * bytes)) : list (bytes * bytes) :=
  filter (λ e, e.1 ≠ k) es.

Section Lru.
Implicit Types (d : lruMap) (es : list (bytes * bytes)) (k : bytes).

Lemma lru_new_repr n : lru_repr (lruMap_new n) [].
Proof.
  constructor; simpl; try constructor; try constructor.
  intros k Hk. rewrite lookup_empty in Hk. by destruct Hk.
Qed.

Lemma lru_without_keys k es : k ∉ (lru_without k es).*1.
Proof.
  intros (e & -> & He)%list_elem_of_fmap. by apply list_elem_of_filter in He as [? _].
Qed.

Lemma lru_found d es k it v :
  lru_repr d es → map_ d !! k = Some (it, v) →
  ∃ id, it = Some id ∧ (k, v) ∈ es ∧ (id, k) ∈ nl_nodes (lruList_ d).
Proof.
  intros [] Hm. assert (k ∈ es.*1) as Hk by (apply lrepr_map0; eauto).
  apply list_elem_of_fmap in Hk as ([k' v'] & -> & He). simpl in *.
  destruct (Forall2_elem_r _ _ _ _ lrepr_nodes0 He) as ([id k] & Hn & Hkey & Hm').
  simpl in *. subst k. rewrite Hm in Hm'. simplify_eq. eauto.
Qed.

(** The nodes other than [k]'s represent the other entries. *)
Lemma lru_others d es k id v m :
  lru_repr d es → map_ d !! k = Some (Some id, v) → (id, k) ∈ nl_nodes (lruList_ d) →
  (∀ k', k' ≠ k → m !! k' = map_ d !! k') →
  Forall2 (lru_node m) (filter (λ n, node_ne id n) (nl_nodes (lruList_ d))) (lru_without k es).
Proof.
  intros [] Hm Hid Hmm.
  eapply (Forall2_impl (λ n e, lru_node (map_ d) n e ∧ e.1 ≠ k)).
  - assert (Forall2 (lru_node (map_ d))
        (filter (λ n, node_ne id n) (nl_nodes (lruList_ d))) (lru_without k es)) as H2.
    { apply Forall2_filter_iff; [done|]. intros [i k'] [k'' v'] Hn _ [Hk Hm'].
      simpl in *. subst k''. unfold node_ne. rewrite bool_decide_spec. simpl. split.
      - intros Hne ->. rewrite Hm in Hm'. by simplify_eq.
      - intros Hne ->. apply Hne. by eapply nl_wf_unique. }
    apply Forall2_same_length_lookup in H2 as [Hlen H2].
    apply Forall2_same_length_lookup. split; [done|]. intros i n e Hi Hi'.
    split; [by eapply H2|]. apply list_elem_of_lookup_2, list_elem_of_filter in Hi'. tauto.
  - intros n e [[Hk Hm'] Hne]. split; [done|]. by rewrite Hmm.
Qed.

Lemma lru_map_others d es k (m : gmap bytes (iter * bytes)) :
  lru_repr d es → (∀ k', k' ≠ k → m !! k' = map_ d !! k') →
  ∀ k', k' ≠ k → is_Some (m !! k') → k' ∈ (lru_without k es).*1.
Proof.
  intros [] Hmm k' Hne Hk'. rewrite Hmm in Hk' by done.
  apply lrepr_map0, list_elem_of_fmap in Hk' as (e & -> & He).
  by apply list_elem_of_fmap_2, list_elem_of_filter.
Qed.

Lemma Get_step d es k v value :
  lru_repr d es → (k, v) ∈ es →
  ∃ d', Get k value d = (Ret (true, v), d') ∧ lru_repr d' ((k, v) :: lru_without k es).
Proof.
  intros Hr He. pose proof Hr as [].
  destruct (Forall2_elem_r _ _ _ _ lrepr_nodes0 He) as ([id k'] & Hid & Hkey & Hm).
  simpl in *. subst k'. unfold Get, mbind, ST_bind, st_get, lift. rewrite Hm.
  rewrite nl_erase_Ret by (by apply (list_elem_of_fmap_2 fst) in Hid).
  eexists. split; [reflexivity|].
  assert (∀ i w k', k' ≠ k → (<[k:=(i, w)]> (map_ d)) !! k' = map_ d !! k') as Hmap.
  { intros i w k' Hne. apply lookup_insert_ne. congruence. }
  constructor; simpl.
  - by apply nl_push_front_wf, nl_wf_sublist; [|apply sublist_filter].
  - constructor; [apply lru_without_keys|].
    eapply sublist_NoDup; [done|]. apply fmap_sublist, sublist_filter.
  - constructor; [split; [done|]; simpl; by rewrite lookup_insert_eq|]. refine (lru_others d es k id v _ Hr Hm Hid (Hmap _ _)).
  - intros k' Hk'. rewrite elem_of_cons. destruct (decide (k' = k)) as [|Hne]; [by left|right].
    refine (lru_map_others d es k _ Hr (Hmap _ _) k' Hne Hk').
Qed.

Lemma Del_step d es k v :
  lru_repr d es → (k, v) ∈ es →
  ∃ d', Del k d = (Ret true, d') ∧ lru_repr d' (lru_without k es).
Proof.
  intros Hr He. pose proof Hr as [].
  destruct (Forall2_elem_r _ _ _ _ lrepr_nodes0 He) as ([id k'] & Hid & Hkey & Hm).
  simpl in *. subst k'. unfold Del, mbind, ST_bind, st_get, lift. rewrite Hm.
  rewrite nl_erase_Ret by (by apply (list_elem_of_fmap_2 fst) in Hid).
  eexists. split; [reflexivity|]. constructor; simpl.
  - by apply nl_wf_sublist; [|apply sublist_filter].
  - eapply sublist_NoDup; [done|]. apply fmap_sublist, sublist_filter.
  - eapply lru_others; [done..|]. intros. by rewrite lookup_delete_ne.
  - intros k' Hk'. destruct (decide (k' = k)) as [->|].
    { rewrite lookup_delete_eq in Hk'. by destruct Hk'. }
    eapply (lru_map_others _ _ _ (delete k (map_ d))); [done| |done|done].
    intros. by rewrite lookup_delete_ne.
Qed.
End Lru.

(** On a consistent map [Get] of a present key returns its value and moves
    the key to the front of the recency list, [Del] removes exactly that key,
    and both report an absent key without touching the map. *)
Theorem lruMap_get_del_refine (d : lruMap) (es : list (bytes * bytes)) (key value : bytes) :
  lru_repr d es →
  (∀ v, (key, v) ∈ es →
    (∃ d', Get key value d = (Ret (true, v), d') ∧ lru_repr d' ((key, v) :: lru_without key es)) ∧
    (∃ d', Del key d = (Ret true, d') ∧ lru_repr d' (lru_without key es))) ∧
  (key ∉ es.*1 → Get key value d = (Ret (false, value), d) ∧ Del key d = (Ret false, d)).
Proof.
  intros Hr. split.
  - intros v He. split; [by apply Get_step|by eapply Del_step].
  - intros Hk. unfold Get, Del, mbind, ST_bind, st_get.
    destruct (map_ d !! key) as [[it v]|] eqn:Hm; [|done].
    destruct (lru_found _ _ _ _ _ Hr Hm) as (id & -> & He & _).
    exfalso. apply Hk, list_elem_of_fmap. by exists (key, v).
Qed.

(** [Set] never leaves a consistent map: on a key that is absent it is
    undefined (it writes through [map_.end()]); on a key that is present and
    with room to spare it succeeds but leaves two list nodes for the key, so
    no sequence of entries is represented any more. *)
Theorem Set_exchanges_its_branches (d : lruMap) (es : list (bytes * bytes)) (key value : bytes) :
  lru_repr d es →
  (Contain key d = false → (Set_ key value d).1 = Undef) ∧
  (Contain key d = true → isOverSize d = false →
    ∃ d', Set_ key value d = (Ret true, d') ∧
      (map_ d' !! key = Some (nl_begin (lruList_ d'), value)) ∧
      nl_elems (lruList_ d') = key :: nl_elems (lruList_ d) ∧
      ∀ es', ¬ lru_repr d' es').
Proof.
  intros Hr. unfold Contain, Set_, mbind, ST_bind, st_get, lift. split.
  - intros Hk%bool_decide_eq_false%eq_None_not_Some. by rewrite Hk.
  - intros Hk%bool_decide_eq_true Hsz. destruct Hk as [[it v] Hm].
    destruct (lru_found _ _ _ _ _ Hr Hm) as (id & -> & He & Hid).
    rewrite Hm, Hsz. cbn. rewrite Hm. eexists. split; [reflexivity|]. simpl.
    rewrite lookup_insert_eq. split; [done|]. split; [done|].
    intros es' []. simpl in *. inversion lrepr_nodes0 as [|n1 e1 ? ? [Hk1 Hm1] Hrest]; subst.
    destruct (Forall2_elem_l _ _ _ _ Hrest Hid) as ([k2 v2] & He2 & Hk2 & Hm2).
    simpl in *. subst k2. destruct e1 as [k1 v1]. simpl in *. subst k1.
    inversion lrepr_keys0 as [|? ? Hnin _]; subst. apply Hnin.
    apply list_elem_of_fmap. by exists (key, v2).
Qed.

(** A map holding one key. *)
Definition one_key : lruMap := MkLru 4 (nl_push_front s!"k" nl_empty) {[ s!"k" := (Some 0%nat, s!"v") ]}.

Lemma one_key_repr : lru_repr one_key [(s!"k", s!"v")].
Proof.
  constructor; simpl.
  - apply nl_push_front_wf, nl_wf_empty.
  - repeat constructor. apply not_elem_of_nil.
  - repeat constructor.
  - intros k. unfold one_key. simpl. rewrite lookup_singleton_is_Some. intros <-. left.
Qed.

Lemma Set_exchanges_its_branches_witness :
  (Contain s!"x" one_key = false → (Set_ s!"x" s!"w" one_key).1 = Undef) ∧
  ∃ d', Set_ s!"k" s!"w" one_key = (Ret true, d') ∧
      (map_ d' !! s!"k" = Some (nl_begin (lruList_ d'), s!"w")) ∧
      nl_elems (lruList_ d') = s!"k" :: nl_elems (lruList_ one_key) ∧
      ∀ es', ¬ lru_repr d' es'.
Proof.
  split.
  - apply (Set_exchanges_its_branches one_key [(s!"k", s!"v")] s!"x" s!"w" one_key_repr).
  - apply (Set_exchanges_its_branches one_key [(s!"k", s!"v")] s!"k" s!"w" one_key_repr);
      reflexivity.
Defined.

Lemma lruMap_get_del_refine_witness :
  ((∃ d', Get s!"k" [] one_key = (Ret (true, s!"v"), d') ∧
      lru_repr d' ((s!"k", s!"v") :: lru_without s!"k" [(s!"k", s!"v")])) ∧
    (∃ d', Del s!"k" one_key = (Ret true, d') ∧ lru_repr d' (lru_without s!"k" [(s!"k", s!"v")]))).
Proof.
  apply (lruMap_get_del_refine one_key [(s!"k", s!"v")] s!"k" [] one_key_repr). left.
Defined.
