(* ===== verification/Db.v ===== *)
(** * The cache database [Db] (server/Db.h, server/Db.cc)

    One [Db] holds the keys of one replica: [lruList_] orders the keys by
    recency, [map_] finds a key's value together with its position in
    [lruList_] and in [slotToKey_], and [slotToKey_] indexes the keys by hash
    slot for data migration.  [slots_] is the set of slots the server owns.

    Iterators stored in [map_] are node identities (StdContainers), so the
    [erase] calls of the code are defined exactly when the stored iterator
    still designates a node. *)
From S2P Require Import Prelude StdContainers.
Local Open Scope Z_scope.

Definition SLOTS_NUM : Z := 16384.

(** [itorPair]: the positions in [lruList_] and in [slotToKey_]. *)
Abbreviation itorPair := (iter * iter)%type.
Abbreviation mapValue := (itorPair * bytes)%type.

(** [slots_] is the 16384-bit set as the number with those bits. *)
Record Db := MkDb {
  slots_num_ : Z;
  scaleUp_ : bool;
  slots_ : Z;
  maxSize_ : Z;
  lruList_ : nodes bytes;
  map_ : gmap bytes mapValue;
  slotToKey_ : nodes (Z * bytes);
}.

(** [Db] as [std::map::operator[]] creates it: value-initialised, hence zero;
    no function of the class ever assigns [maxSize_]. *)
Definition Db_default : Db := MkDb 0 false 0 0 nl_empty ∅ nl_empty.

Definition set_cache (l : nodes bytes) (m : gmap bytes mapValue) (s : nodes (Z * bytes))
    (d : Db) : Db :=
  MkDb (slots_num_ d) (scaleUp_ d) (slots_ d) (maxSize_ d) l m s.
Definition set_slots (z : Z) (d : Db) : Db :=
  MkDb (slots_num_ d) (scaleUp_ d) z (maxSize_ d) (lruList_ d) (map_ d) (slotToKey_ d).
Definition set_slots_num (z : Z) (d : Db) : Db :=
  MkDb z (scaleUp_ d) (slots_ d) (maxSize_ d) (lruList_ d) (map_ d) (slotToKey_ d).

(** [lruList_.size() >= maxSize_]: the [int] is converted to [size_t]. *)
Definition isOverSize (d : Db) : bool := u64 (maxSize_ d) <=? nl_size (lruList_ d).

Definition Contain (key : bytes) (d : Db) : bool := bool_decide (is_Some (map_ d !! key)).

(** [getKV(key, value)]: [value] is the caller's variable; the result carries
    its content after the call. *)
Definition getKV (key value : bytes) : ST Db (bool * bytes) :=
  d ← st_get;
  match map_ d !! key with
  | None => mret (false, value)
  | Some ((it, mit), v) =>
      l ← lift (nl_erase it (lruList_ d));
      let l' := nl_push_front key l in
      st_put (set_cache l' (<[key := ((nl_begin l', mit), v)]> (map_ d)) (slotToKey_ d) d) ;;
      mret (true, v)
  end.

Definition delKV (key : bytes) : ST Db bool :=
  d ← st_get;
  match map_ d !! key with
  | None => mret false
  | Some ((listItor, multimapItor), _) =>
      l ← lift (nl_erase listItor (lruList_ d));
      s ← lift (nl_erase multimapItor (slotToKey_ d));
      st_put (set_cache l (delete key (map_ d)) s d) ;;
      mret true
  end.

(** The eviction of [setKV] (Db.cc:63-66); [map_[back]] default-inserts a
    singular iterator for a key that is not in [map_]. *)
Definition evict : ST Db unit :=
  d ← st_get;
  back ← lift (nl_back (lruList_ d));
  let multimapItor := from_option (λ v : mapValue, v.1.2) None (map_ d !! back) in
  s ← lift (nl_erase multimapItor (slotToKey_ d));
  l ← lift (nl_pop_back (lruList_ d));
  st_put (set_cache l (delete back (map_ d)) s d).

(** [mapItor->first] for [mapItor == map_.end()]: the end iterator designates no
    element, and reading through it is undefined. *)
Definition map_end_first : outcome bytes := Undef.

(** [setKV(key, value, slot)].  The add path pushes [mapItor->first] although
    [mapItor] is [map_.end()] there (Db.cc:69). *)
Definition setKV (key value : bytes) (slot : Z) : ST Db bool :=
  d ← st_get;
  match map_ d !! key with
  | Some ((it, mit), _) =>
      l ← lift (nl_erase it (lruList_ d));
      let l' := nl_push_front key l in
      st_put (set_cache l' (<[key := ((nl_begin l', mit), value)]> (map_ d)) (slotToKey_ d) d) ;;
      mret true
  | None =>
      (if isOverSize d then evict else mret ()) ;;
      k ← lift map_end_first;
      d' ← st_get;
      let l' := nl_push_front k (lruList_ d') in
      let ins := mm_insert slot key (slotToKey_ d') in
      st_put (set_cache l' (<[key := ((nl_begin l', ins.2), value)]> (map_ d')) ins.1 d') ;;
      mret true
  end.

Definition getSlotsNum (d : Db) : Z := slots_num_ d.

(** [slots_.size()] is the width of the bitset, whatever bits are set. *)
Definition setSlotNum : ST Db unit := st_modify (set_slots_num SLOTS_NUM).

Definition addSlots (newSlots : Z) : ST Db unit := st_modify (set_slots newSlots).

(** [std::swap(newSlots, slots_); newSlots ^= slots_]: the result is the
    content of the reference parameter after the call. *)
Definition delSlots (newSlots : Z) : ST Db Z :=
  d ← st_get;
  st_put (set_slots newSlots d) ;;
  mret (Z.lxor (slots_ d) newSlots).

(** [bitset::test]: the [int] is converted to [size_t], and a position past
    the end throws. *)
Definition testSlot (slot : Z) (d : Db) : outcome bool :=
  let pos := u64 slot in
  if pos <? SLOTS_NUM then Ret (Z.testbit (slots_ d) pos) else Throw out_of_range.

(** ** The LRU cache a [Db] is meant to be

    The contents, most recently used first. *)
Record entry := Entry { e_key : bytes; e_val : bytes; e_slot : Z }.

Definition without (k : bytes) (es : list entry) : list entry :=
  filter (λ e, e_key e ≠ k) es.

Definition spec_find (k : bytes) (es : list entry) : option entry :=
  head (filter (λ e, e_key e = k) es).

(** A hit moves the entry to the front. *)
Definition spec_get (k : bytes) (es : list entry) : option bytes * list entry :=
  match spec_find k es with
  | Some e => (Some (e_val e), e :: without k es)
  | None => (None, es)
  end.

Definition spec_del (k : bytes) (es : list entry) : bool * list entry :=
  (bool_decide (k ∈ e_key <$> es), without k es).

(** Setting a present key keeps its slot and moves it to the front; of an absent
    one nothing is specified, since the code is undefined there. *)
Definition spec_set (k v : bytes) (es : list entry) : option (list entry) :=
  (λ e, Entry k v (e_slot e) :: without k es) <$> spec_find k es.

(** A [Db] represents the cache contents [es]. *)
Definition node_repr (m : gmap bytes mapValue) (s : nodes (Z * bytes))
    (n : nat * bytes) (e : entry) : Prop :=
  n.2 = e_key e ∧
  ∃ mid, m !! e_key e = Some ((Some n.1, Some mid), e_val e) ∧
         (mid, (e_slot e, e_key e)) ∈ nl_nodes s.

Definition slot_pair (e : entry) : Z * bytes := (e_slot e, e_key e).

Record db_repr (d : Db) (es : list entry) : Prop := {
  repr_list_wf : nl_wf (lruList_ d);
  repr_index_wf : nl_wf (slotToKey_ d);
  repr_index_sorted : mm_sorted (slotToKey_ d);
  repr_keys : NoDup (e_key <$> es);
  repr_nodes : Forall2 (node_repr (map_ d) (slotToKey_ d)) (nl_nodes (lruList_ d)) es;
  repr_map : ∀ k, is_Some (map_ d !! k) → k ∈ e_key <$> es;
  repr_index : nl_elems (slotToKey_ d) ≡ₚ slot_pair <$> es;
}.

(** ** Lemmas on cache contents *)
Section Contents.
Implicit Types (es : list entry) (k : bytes).

Lemma without_elem_of e k es : e ∈ without k es ↔ e_key e ≠ k ∧ e ∈ es.
Proof. unfold without. by rewrite list_elem_of_filter. Qed.

Lemma without_keys k es : k ∉ e_key <$> without k es.
Proof.
  intros (e & -> & He)%list_elem_of_fmap. by apply without_elem_of in He as [? _].
Qed.

Lemma without_NoDup k es : NoDup (e_key <$> es) → NoDup (e_key <$> without k es).
Proof.
  intros H. eapply sublist_NoDup; [done|]. apply fmap_sublist, sublist_filter.
Qed.

Lemma without_fresh k es : k ∉ e_key <$> es → without k es = es.
Proof.
  intros Hk. apply filter_all. intros e He <-.
  apply Hk, list_elem_of_fmap. by exists e.
Qed.

Lemma same_key_eq es e e' :
  NoDup (e_key <$> es) → e ∈ es → e' ∈ es → e_key e = e_key e' → e = e'.
Proof.
  intros Hnd He He' Hk.
  apply list_elem_of_lookup in He as [i Hi]. apply list_elem_of_lookup in He' as [j Hj].
  assert (i = j) as ->; [|by simplify_eq].
  eapply (NoDup_lookup _ i j (e_key e) Hnd); rewrite list_lookup_fmap, ?Hi, ?Hj; simpl; congruence.
Qed.

Lemma spec_find_elem k es e : spec_find k es = Some e → e ∈ es ∧ e_key e = k.
Proof.
  unfold spec_find. intros He.
  assert (e ∈ filter (λ e, e_key e = k) es) as Hin.
  { destruct (filter _ es) as [|e' l]; simplify_eq/=. left. }
  apply list_elem_of_filter in Hin. tauto.
Qed.

Lemma spec_find_Some es e : NoDup (e_key <$> es) → e ∈ es → spec_find (e_key e) es = Some e.
Proof.
  intros Hnd He. destruct (spec_find (e_key e) es) as [e'|] eqn:E.
  - apply spec_find_elem in E as [He' Hk]. f_equal. by eapply same_key_eq.
  - exfalso. unfold spec_find in E.
    assert (e ∈ filter (λ e', e_key e' = e_key e) es) as Hin by (by apply list_elem_of_filter).
    destruct (filter _ es); [by apply not_elem_of_nil in Hin|done].
Qed.

Lemma spec_find_None es k : k ∉ e_key <$> es → spec_find k es = None.
Proof.
  intros Hk. destruct (spec_find k es) as [e|] eqn:E; [|done]. exfalso.
  apply spec_find_elem in E as [He <-]. apply Hk, list_elem_of_fmap. eauto.
Qed.

Lemma without_split es e : NoDup (e_key <$> es) → e ∈ es → es ≡ₚ e :: without (e_key e) es.
Proof.
  intros Hnd He. apply NoDup_Permutation.
  - by eapply NoDup_fmap_1.
  - constructor; [|by apply NoDup_filter, (NoDup_fmap_1 e_key)].
    rewrite without_elem_of. by intros [? _].
  - intros e'. rewrite elem_of_cons, without_elem_of. split.
    + intros He'. destruct (decide (e_key e' = e_key e)); [left|by right].
      by eapply same_key_eq.
    + by intros [->|[_ ?]].
Qed.

Lemma without_last es e :
  NoDup (e_key <$> es) → last es = Some e →
  without (e_key e) es = take (length es - 1) es.
Proof.
  intros Hnd [l ->]%last_Some. rewrite length_app. simpl.
  replace (length l + 1 - 1)%nat with (length l) by lia.
  rewrite take_app_length. unfold without. rewrite filter_app.
  rewrite fmap_app, NoDup_app in Hnd. destruct Hnd as (_ & Hd & _).
  rewrite (filter_cons_False _ e []) by (intros H; by apply H). rewrite app_nil_r.
  apply without_fresh. intros H. apply (Hd _ H). simpl. left.
Qed.
End Contents.

(** ** What a representation gives *)
Section Repr.
Implicit Types (d : Db) (es : list entry) (k : bytes).

Lemma repr_found d es k x :
  db_repr d es → map_ d !! k = Some x →
  ∃ id mid e, x = ((Some id, Some mid), e_val e) ∧ e ∈ es ∧ e_key e = k ∧
    (id, k) ∈ nl_nodes (lruList_ d) ∧ (mid, (e_slot e, k)) ∈ nl_nodes (slotToKey_ d).
Proof.
  intros [] Hx. assert (k ∈ e_key <$> es) as Hk by (apply repr_map0; eauto).
  apply list_elem_of_fmap in Hk as (e & -> & He).
  destruct (Forall2_elem_r _ _ _ _ repr_nodes0 He) as ([id k'] & Hn & Hkey & mid & Hm & Hs).
  simpl in *. subst k'. exists id, mid, e. split; [congruence|]. done.
Qed.

Lemma repr_missing d es k : db_repr d es → map_ d !! k = None → k ∉ e_key <$> es.
Proof.
  intros [] Hx (e & -> & He)%list_elem_of_fmap.
  destruct (Forall2_elem_r _ _ _ _ repr_nodes0 He) as (n & Hn & Hkey & mid & Hm & Hs).
  congruence.
Qed.

Lemma repr_size d es : db_repr d es → nl_size (lruList_ d) = zlen es.
Proof. intros []. unfold nl_size, zlen. f_equal. by eapply Forall2_length. Qed.

(** The node of [k] is the only node whose entry has key [k]. *)
Lemma repr_node_iff d es id mid e n e' :
  db_repr d es → map_ d !! e_key e = Some ((Some id, Some mid), e_val e) →
  (id, e_key e) ∈ nl_nodes (lruList_ d) →
  n ∈ nl_nodes (lruList_ d) → node_repr (map_ d) (slotToKey_ d) n e' →
  node_ne id n ↔ e_key e' ≠ e_key e.
Proof.
  intros Hr Hm Hid Hn (Hk & mid' & Hm' & _). unfold node_ne. rewrite bool_decide_spec.
  destruct n as [id' k']; simpl in *. subst k'. split.
  - intros Hne Heq. rewrite Heq, Hm in Hm'. by simplify_eq.
  - intros Hne ->. apply Hne. by eapply (nl_wf_unique _ _ _ _ (repr_list_wf _ _ Hr)).
Qed.

(** The nodes other than the one of [e] represent the other entries, under
    any map and index that agree on the other keys. *)
Lemma repr_others d es id mid e m s :
  db_repr d es → map_ d !! e_key e = Some ((Some id, Some mid), e_val e) →
  (id, e_key e) ∈ nl_nodes (lruList_ d) →
  (∀ k, k ≠ e_key e → m !! k = map_ d !! k) →
  (∀ i sl k, k ≠ e_key e → (i, (sl, k)) ∈ nl_nodes (slotToKey_ d) → (i, (sl, k)) ∈ nl_nodes s) →
  Forall2 (node_repr m s) (filter (λ n, node_ne id n) (nl_nodes (lruList_ d)))
    (without (e_key e) es).
Proof.
  intros Hr Hm Hid Hmm Hss.
  eapply (Forall2_impl (λ n e', node_repr (map_ d) (slotToKey_ d) n e' ∧ e_key e' ≠ e_key e)).
  - assert (Forall2 (node_repr (map_ d) (slotToKey_ d))
        (filter (λ n, node_ne id n) (nl_nodes (lruList_ d))) (without (e_key e) es)) as H2.
    { apply Forall2_filter_iff; [apply Hr|]. intros n e' Hn _ Hne.
      by eapply repr_node_iff. }
    apply Forall2_same_length_lookup in H2 as [Hlen H2].
    apply Forall2_same_length_lookup. split; [done|]. intros i n e' Hi Hi'.
    split; [by eapply H2|].
    apply list_elem_of_lookup_2, without_elem_of in Hi'. tauto.
  - intros n e' [(Hk & mid' & Hm' & Hs') Hne]. split; [done|]. exists mid'.
    split; [by rewrite Hmm|by apply Hss].
Qed.

(** Moving a present key to the front with a new value. *)
Lemma repr_touch d es id mid e v :
  db_repr d es → map_ d !! e_key e = Some ((Some id, Some mid), e_val e) → e ∈ es →
  (id, e_key e) ∈ nl_nodes (lruList_ d) →
  (mid, (e_slot e, e_key e)) ∈ nl_nodes (slotToKey_ d) →
  let l' := nl_push_front (e_key e)
    (Nodes (nl_next (lruList_ d)) (filter (λ n, node_ne id n) (nl_nodes (lruList_ d)))) in
  db_repr (set_cache l' (<[e_key e := ((nl_begin l', Some mid), v)]> (map_ d)) (slotToKey_ d) d)
    (Entry (e_key e) v (e_slot e) :: without (e_key e) es).
Proof.
  intros Hr Hm He Hid Hmid l'. pose proof Hr as [].
  assert (∀ k : bytes, k ≠ e_key e →
    <[e_key e := ((nl_begin l', Some mid), v)]> (map_ d) !! k = map_ d !! k) as Hmap.
  { intros k Hk. by rewrite lookup_insert_ne. }
  constructor; simpl; try done.
  - apply nl_push_front_wf, nl_wf_sublist; [done|apply sublist_filter].
  - constructor; [apply without_keys|by apply without_NoDup].
  - constructor.
    + split; [done|]. exists mid. simpl. by rewrite lookup_insert_eq.
    + eapply repr_others; eauto.
  - intros k Hk. rewrite elem_of_cons. destruct (decide (k = e_key e)) as [|Hne]; [by left|].
    right. rewrite Hmap in Hk by done. apply repr_map0 in Hk.
    apply list_elem_of_fmap in Hk as (e' & -> & He').
    apply list_elem_of_fmap. exists e'. split; [done|]. by apply without_elem_of.
  - rewrite repr_index0. rewrite (without_split es e) at 1 by done. done.
Qed.

(** Dropping a present key. *)
Lemma repr_drop d es id mid e :
  db_repr d es → map_ d !! e_key e = Some ((Some id, Some mid), e_val e) → e ∈ es →
  (id, e_key e) ∈ nl_nodes (lruList_ d) →
  (mid, (e_slot e, e_key e)) ∈ nl_nodes (slotToKey_ d) →
  db_repr (set_cache
      (Nodes (nl_next (lruList_ d)) (filter (λ n, node_ne id n) (nl_nodes (lruList_ d))))
      (delete (e_key e) (map_ d))
      (Nodes (nl_next (slotToKey_ d)) (filter (λ n, node_ne mid n) (nl_nodes (slotToKey_ d)))) d)
    (without (e_key e) es).
Proof.
  intros Hr Hm He Hid Hmid. pose proof Hr as [].
  constructor; simpl; try done.
  - apply nl_wf_sublist; [done|apply sublist_filter].
  - apply nl_wf_sublist; [done|apply sublist_filter].
  - by apply StronglySorted_filter.
  - by apply without_NoDup.
  - eapply repr_others; eauto.
    + intros k Hk. by rewrite lookup_delete_ne.
    + intros i sl k Hk Hi. simpl. apply filter_nodes_elem_of. split; [|done].
      intros ->. apply Hk. by eapply nl_wf_unique in Hmid; [|done|exact Hi]; simplify_eq.
  - intros k Hk. destruct (decide (k = e_key e)) as [->|Hne].
    { rewrite lookup_delete_eq in Hk. by destruct Hk. }
    rewrite lookup_delete_ne in Hk by done. apply repr_map0 in Hk.
    apply list_elem_of_fmap in Hk as (e' & -> & He').
    apply list_elem_of_fmap. exists e'. split; [done|]. by apply without_elem_of.
  - apply (Permutation_cons_inv (a := slot_pair e)).
    change (slot_pair e :: (slot_pair <$> without (e_key e) es))
      with (slot_pair <$> (e :: without (e_key e) es)).
    rewrite <-without_split by done. rewrite <-repr_index0. unfold nl_elems. simpl.
    rewrite (nodes_split_at (slotToKey_ d) mid _ repr_index_wf0 Hmid) at 2. done.
Qed.

(** Adding a fresh key at the front. *)
Lemma repr_add d es k v slot :
  db_repr d es → k ∉ e_key <$> es →
  let l' := nl_push_front k (lruList_ d) in
  let ins := mm_insert slot k (slotToKey_ d) in
  db_repr (set_cache l' (<[k := ((nl_begin l', ins.2), v)]> (map_ d)) ins.1 d)
    (Entry k v slot :: es).
Proof.
  intros Hr Hk l' ins. pose proof Hr as [].
  constructor; simpl; try done.
  - by apply nl_push_front_wf.
  - by apply mm_insert_wf.
  - by apply mm_insert_nodes_sorted.
  - by constructor.
  - constructor.
    + split; [done|]. exists (nl_next (slotToKey_ d)). simpl.
      rewrite lookup_insert_eq. split; [done|]. rewrite mm_insert_nodes_perm. left.
    + eapply Forall2_impl; [exact repr_nodes0|]. intros n e (Hn & mid & Hm & Hs).
      split; [done|]. exists mid. split.
      * rewrite lookup_insert_ne; [done|]. intros ->. apply Hk, repr_map0. eauto.
      * simpl. rewrite mm_insert_nodes_perm. by right.
  - intros k' Hk'. rewrite elem_of_cons. destruct (decide (k' = k)) as [|Hne]; [by left|].
    right. rewrite lookup_insert_ne in Hk' by done. by apply repr_map0.
  - unfold nl_elems. simpl. rewrite mm_insert_nodes_perm. simpl. f_equiv. done.
Qed.
End Repr.

(** ** The operations implement the cache *)
Section Refinement.
Implicit Types (d : Db) (es : list entry) (k : bytes).

(** Everything of a [Db] the cache operations do not touch. *)
Definition same_config d d' : Prop :=
  slots_ d' = slots_ d ∧ maxSize_ d' = maxSize_ d ∧ slots_num_ d' = slots_num_ d.

Lemma spec_get_hit es e : NoDup (e_key <$> es) → e ∈ es →
  spec_get (e_key e) es = (Some (e_val e), e :: without (e_key e) es).
Proof. intros. unfold spec_get. by rewrite spec_find_Some. Qed.

Lemma getKV_step d es k value :
  db_repr d es → ∃ d', getKV k value d =
    (Ret (from_option (pair true) (false, value) (spec_get k es).1), d') ∧
    db_repr d' (spec_get k es).2 ∧ same_config d d'.
Proof.
  intros Hr. unfold getKV, st_get. unfold mbind, ST_bind at 1.
  destruct (map_ d !! k) as [x|] eqn:Hm.
  - destruct (repr_found d es k x Hr Hm) as (id & mid & e & -> & He & <- & Hid & Hmid).
    rewrite spec_get_hit by (done || apply Hr).
    unfold mbind, ST_bind, lift. rewrite nl_erase_Ret by (by apply (list_elem_of_fmap_2 fst) in Hid).
    eexists. split; [reflexivity|]. split; [|done]. simpl.
    pose proof (repr_touch d es id mid e (e_val e) Hr Hm He Hid Hmid) as Ht. by destruct e.
  - unfold spec_get. rewrite spec_find_None by (by eapply repr_missing).
    by exists d.
Qed.

Lemma delKV_step d es k :
  db_repr d es → ∃ d', delKV k d = (Ret (spec_del k es).1, d') ∧
    db_repr d' (spec_del k es).2 ∧ same_config d d'.
Proof.
  intros Hr. unfold delKV, st_get. unfold mbind, ST_bind at 1.
  destruct (map_ d !! k) as [x|] eqn:Hm.
  - destruct (repr_found d es k x Hr Hm) as (id & mid & e & -> & He & <- & Hid & Hmid).
    unfold mbind, ST_bind, lift.
    rewrite !nl_erase_Ret by (by apply (list_elem_of_fmap_2 fst) in Hid, Hmid).
    eexists. split; [|split; [by apply repr_drop|done]].
    simpl. rewrite bool_decide_eq_true_2; [done|]. by apply list_elem_of_fmap_2.
  - exists d. unfold spec_del. simpl.
    rewrite bool_decide_eq_false_2, without_fresh by (by eapply repr_missing). done.
Qed.

Lemma evict_step d es e :
  db_repr d es → last es = Some e → ∃ d', evict d = (Ret (), d') ∧
    db_repr d' (take (length es - 1) es) ∧ same_config d d'.
Proof.
  intros Hr Hlast. pose proof Hr as [].
  assert (e ∈ es) as He by (apply last_Some in Hlast as [l ->]; apply elem_of_app; right; left).
  apply last_Some in Hlast as [es0 ->].
  pose proof repr_nodes0 as Hn. apply Forall2_app_inv_r in Hn as (ns0 & nl & _ & Hn & Hns).
  inversion Hn as [|n ? ? ? Hrep Hnil]; subst. inversion Hnil; subst.
  pose proof Hrep as (Hkey & mid & Hm & Hmid). destruct n as [id k]. simpl in *. subst k.
  assert ((id, e_key e) ∈ nl_nodes (lruList_ d)) as Hid
    by (rewrite Hns; apply elem_of_app; right; left).
  pose proof (repr_drop _ _ _ _ _ Hr Hm He Hid Hmid) as Hd.
  assert (filter (λ n, node_ne id n) (nl_nodes (lruList_ d)) = ns0) as Hf.
  { pose proof repr_list_wf0 as [Hnd _]. rewrite Hns in Hnd |- *.
    rewrite fmap_app, NoDup_app in Hnd. destruct Hnd as (_ & Hdis & _).
    rewrite filter_app, (filter_cons_False _ _ []), app_nil_r by apply node_ne_self.
    apply filter_all. intros n Hin. unfold node_ne. rewrite bool_decide_spec. intros Heq.
    apply (Hdis n.1); [by apply list_elem_of_fmap_2|]. rewrite Heq. left. }
  rewrite without_last, Hf in Hd by (by rewrite ?last_snoc).
  eexists. split; [|split; [exact Hd|done]].
  assert (nl_back (lruList_ d) = Ret (e_key e)) as Hback
    by (unfold nl_back; by rewrite Hns, last_snoc).
  assert (nl_pop_back (lruList_ d) = Ret (Nodes (nl_next (lruList_ d)) ns0)) as Hpop.
  { unfold nl_pop_back. by rewrite Hns, last_snoc, length_app, Nat.add_sub, take_app_length. }
  unfold evict, st_get, lift, st_put, mbind, ST_bind. rewrite Hback, Hm. simpl.
  rewrite nl_erase_Ret by (by apply (list_elem_of_fmap_2 fst) in Hmid). by rewrite Hpop.
Qed.

Lemma evict_returns_or_undef d : ∃ d', evict d = (Ret (), d') ∨ evict d = (Undef, d').
Proof.
  unfold evict, mbind, ST_bind, st_get, st_put, lift, nl_back, or_undef, nl_erase, nl_pop_back.
  destruct (last (nl_nodes (lruList_ d))) as [[i k]|]; simpl; [|eauto].
  destruct (from_option _ None (map_ d !! k)); simpl; [|eauto].
  case_if; simpl; eauto.
Qed.

(** An absent key: the end iterator is read, after the eviction of a full
    store. *)
Lemma setKV_absent d k v slot : map_ d !! k = None → (setKV k v slot d).1 = Undef.
Proof.
  intros Hm. unfold setKV, mbind, ST_bind, st_get, lift. rewrite Hm. destruct (isOverSize d); [|done].
  destruct (evict_returns_or_undef d) as [d' [-> | ->]]; done.
Qed.

Lemma setKV_step d es k v slot : db_repr d es →
  match spec_set k v es with
  | Some es' => ∃ d', setKV k v slot d = (Ret true, d') ∧ db_repr d' es' ∧ same_config d d'
  | None => (setKV k v slot d).1 = Undef
  end.
Proof.
  intros Hr. unfold spec_set. destruct (map_ d !! k) as [x|] eqn:Hm.
  - destruct (repr_found d es k x Hr Hm) as (id & mid & e & -> & He & <- & Hid & Hmid).
    rewrite spec_find_Some by (done || apply Hr). cbn [fmap option_fmap option_map].
    unfold setKV, mbind, ST_bind, st_get, lift. rewrite Hm.
    rewrite nl_erase_Ret by (by apply (list_elem_of_fmap_2 fst) in Hid).
    eexists. split; [reflexivity|]. split; [|done]. by apply repr_touch.
  - rewrite spec_find_None by (by apply (repr_missing d)). by apply setKV_absent.
Qed.
End Refinement.

(** ** Sessions of cache operations *)
Inductive cmd := CGet (k : bytes) | CSet (k v : bytes) (slot : Z) | CDel (k : bytes).

(** One call; the string is the value a [getKV] hit delivers. *)
Definition run_cmd (c : cmd) : ST Db (bool * bytes) :=
  match c with
  | CGet k => getKV k []
  | CSet k v slot => b ← setKV k v slot; mret (b, [])
  | CDel k => b ← delKV k; mret (b, [])
  end.

Fixpoint run_cmds (cs : list cmd) : ST Db (list (bool * bytes)) :=
  match cs with
  | [] => mret []
  | c :: cs => r ← run_cmd c; rs ← run_cmds cs; mret (r :: rs)
  end.

(** [None]: undefined. *)
Definition spec_cmd (c : cmd) (es : list entry) : option ((bool * bytes) * list entry) :=
  match c with
  | CGet k => Some (from_option (pair true) (false, []) (spec_get k es).1, (spec_get k es).2)
  | CSet k v _ => (pair (true, [])) <$> spec_set k v es
  | CDel k => Some (((spec_del k es).1, []), (spec_del k es).2)
  end.

Fixpoint spec_cmds (cs : list cmd) (es : list entry) : option (list (bool * bytes) * list entry) :=
  match cs with
  | [] => Some ([], es)
  | c :: cs =>
      '(r, es1) ← spec_cmd c es;
      '(rs, es2) ← spec_cmds cs es1;
      Some (r :: rs, es2)
  end.

(** A [Db] with no keys and the given [maxSize_]. *)
Definition empty_db (cap : Z) : Db := MkDb 0 false 0 cap nl_empty ∅ nl_empty.

Section Sessions.
Implicit Types (d : Db) (es : list entry) (k : bytes).

Lemma empty_db_repr cap : db_repr (empty_db cap) [].
Proof.
  constructor; simpl; try constructor; try constructor.
  intros k Hk. rewrite lookup_empty in Hk. by destruct Hk.
Qed.

Lemma same_config_trans d1 d2 d3 : same_config d1 d2 → same_config d2 d3 → same_config d1 d3.
Proof. intros (? & ? & ?) (? & ? & ?). repeat split; congruence. Qed.

Lemma run_cmd_step d es c : db_repr d es →
  match spec_cmd c es with
  | Some (r, es') => ∃ d', run_cmd c d = (Ret r, d') ∧ db_repr d' es' ∧ same_config d d'
  | None => (run_cmd c d).1 = Undef
  end.
Proof.
  intros Hr. destruct c as [k|k v slot|k]; cbn [spec_cmd run_cmd].
  - by apply getKV_step.
  - pose proof (setKV_step d es k v slot Hr) as H. destruct (spec_set k v es) as [es'|]; cbn.
    + destruct H as (d' & Hs & ? & ?). exists d'. by rewrite (ST_bind_eq _ _ _ _ _ Hs).
    + by apply ST_bind_Undef.
  - destruct (delKV_step d es k Hr) as (d' & Hs & ? & ?).
    exists d'. by rewrite (ST_bind_eq _ _ _ _ _ Hs).
Qed.
End Sessions.

(** ** Properties *)

(** C1: In whatever consistent state a database is (its recency list, hash map
    and slot index describe the same entries, [db_repr]), any sequence of
    [getKV], [setKV] and [delKV] calls behaves as a recency list does: as long as
    no [setKV] names a key that is not cached, every call returns exactly what
    the list says, a hit moves its entry to the front, and the three structures
    stay consistent; at the first [setKV] of a key that is not cached the
    program is undefined, whatever room there is, because the add path reads
    [mapItor->first] through [map_.end()] (Db.cc:69). *)
Theorem db_session_refines_lru (cs : list cmd) (d : Db) (es : list entry) (Hr : db_repr d es) :
  match spec_cmds cs es with
  | Some (rs, es') => ∃ d', run_cmds cs d = (Ret rs, d') ∧ db_repr d' es' ∧ same_config d d'
  | None => (run_cmds cs d).1 = Undef
  end.
Proof.
  revert d es Hr. induction cs as [|c cs IH]; intros d es Hr; cbn [spec_cmds run_cmds]; [by exists d|].
  pose proof (run_cmd_step d es c Hr) as H. destruct (spec_cmd c es) as [[r es1]|].
  2:{ by apply ST_bind_Undef. }
  destruct H as (d1 & H1 & Hr1 & Hc1). rewrite (ST_bind_eq _ _ _ _ _ H1).
  cbn [mbind option_bind]. specialize (IH d1 es1 Hr1). destruct (spec_cmds cs es1) as [[rs es2]|].
  - destruct IH as (d2 & H2 & Hr2 & Hc2). exists d2. rewrite (ST_bind_eq _ _ _ _ _ H2).
    split; [done|]. split; [done|]. by eapply same_config_trans.
  - by apply ST_bind_Undef.
Qed.

(** Two keys, the second one more recent. *)
Definition two_keys : Db :=
  let d := empty_db 2 in
  let add k v slot d :=
    let l' := nl_push_front k (lruList_ d) in
    let ins := mm_insert slot k (slotToKey_ d) in
    set_cache l' (<[k := ((nl_begin l', ins.2), v)]> (map_ d)) ins.1 d in
  add s!"b" s!"2" 9 (add s!"a" s!"1" 7 d).

Lemma two_keys_repr : db_repr two_keys [Entry s!"b" s!"2" 9; Entry s!"a" s!"1" 7].
Proof.
  unfold two_keys. apply repr_add; [apply repr_add; [apply empty_db_repr|apply not_elem_of_nil]|].
  apply (bool_decide_unpack (s!"b" ∉ [s!"a"])). exact I.
Qed.

Lemma db_session_refines_lru_witness :
  (∃ d', run_cmds [CGet s!"a"; CSet s!"b" s!"22" 1; CGet s!"c"; CDel s!"a"; CGet s!"b"] two_keys =
      (Ret [(true, s!"1"); (true, []); (false, []); (true, []); (true, s!"22")], d') ∧
    db_repr d' [Entry s!"b" s!"22" 9] ∧ same_config two_keys d') ∧
  (run_cmds [CGet s!"a"; CSet s!"c" s!"3" 1] two_keys).1 = Undef.
Proof.
  split.
  - exact (db_session_refines_lru [CGet s!"a"; CSet s!"b" s!"22" 1; CGet s!"c"; CDel s!"a"; CGet s!"b"]
      two_keys _ two_keys_repr).
  - exact (db_session_refines_lru [CGet s!"a"; CSet s!"c" s!"3" 1] two_keys _ two_keys_repr).
Defined.

(** Every [setKV] of a key that is not cached is undefined, whatever the
    database holds. *)
Theorem setKV_fresh_key_undefined (d : Db) (key value : bytes) (slot : Z) :
  Contain key d = false → (setKV key value slot d).1 = Undef.
Proof. unfold Contain. intros Hk. apply setKV_absent. by apply bool_decide_eq_false, eq_None_not_Some in Hk. Qed.

Lemma setKV_fresh_key_undefined_witness :
  Contain s!"k" (empty_db 4) = false ∧ (setKV s!"k" s!"v" 3 (empty_db 4)).1 = Undef.
Proof. split; [reflexivity|]. apply setKV_fresh_key_undefined. reflexivity. Defined.

(** In a [Db] as [idToDb_[id]] creates it the eviction before that read is
    undefined already: [maxSize_] is zero, and [back()] is called on the empty
    list. *)
Theorem default_db_evicts_nothing : isOverSize Db_default = true ∧ (evict Db_default).1 = Undef.
Proof. by split. Qed.

(** [delSlots(newSlots)] installs the new slot set and hands back exactly
    the slots on which the two sets differ; when the new set is a subset of
    the old one these are the slots the server gives away, so a slot is kept
    or handed back, never both and never neither. *)
Theorem delSlots_hands_back_difference (d : Db) (newSlots : Z) :
  in_u SLOTS_NUM newSlots → in_u SLOTS_NUM (slots_ d) →
  ∃ diff d', delSlots newSlots d = (Ret diff, d') ∧ in_u SLOTS_NUM diff ∧
    (∀ s, 0 ≤ s < SLOTS_NUM → testSlot s d' = Ret (Z.testbit newSlots s)) ∧
    (∀ s, 0 ≤ s → Z.testbit diff s = xorb (Z.testbit (slots_ d) s) (Z.testbit newSlots s)) ∧
    (Z.land newSlots (slots_ d) = newSlots → ∀ s, 0 ≤ s →
      Z.testbit (slots_ d) s = Z.testbit newSlots s || Z.testbit diff s ∧
      Z.testbit newSlots s && Z.testbit diff s = false).
Proof.
  intros Hn Hs. exists (Z.lxor (slots_ d) newSlots), (set_slots newSlots d).
  split; [done|]. split; [by apply lxor_in_u; [unfold SLOTS_NUM; lia|..]|]. split; [|split].
  - intros s Hs'. unfold testSlot, u64. rewrite wrapu_small by (unfold in_u, SLOTS_NUM in *; lia).
    by rewrite (proj2 (Z.ltb_lt _ _)) by lia.
  - intros s _. by rewrite Z.lxor_spec.
  - intros Hsub s _. rewrite Z.lxor_spec. rewrite <-Hsub, Z.land_spec.
    by destruct (Z.testbit newSlots s), (Z.testbit (slots_ d) s).
Qed.

Lemma delSlots_hands_back_difference_witness :
  ∃ diff d', delSlots 5 (set_slots 13 Db_default) = (Ret diff, d') ∧ in_u SLOTS_NUM diff ∧
    (∀ s, 0 ≤ s < SLOTS_NUM → testSlot s d' = Ret (Z.testbit 5 s)) ∧
    (∀ s, 0 ≤ s → Z.testbit diff s = xorb (Z.testbit 13 s) (Z.testbit 5 s)) ∧
    (Z.land 5 13 = 5 → ∀ s, 0 ≤ s →
      Z.testbit 13 s = Z.testbit 5 s || Z.testbit diff s ∧
      Z.testbit 5 s && Z.testbit diff s = false).
Proof.
  apply (delSlots_hands_back_difference (set_slots 13 Db_default) 5);
    (split; [discriminate|reflexivity]).
Defined.
