(* ===== verification/DbServer.v ===== *)
(** * The cache server [DbServer] (server/DbServer.h, server/DbServer.cc)

    One server keeps its own database and the replicas of its slaves, indexed
    by server id, and answers text requests of fixed layout: two characters of
    server id, five of slot, three of command, eight of key and eight of
    value.  [std::mutex dbmtx_] is held from the slot check to the reply, so a
    request is one atomic step on the databases; [updateSlots] is declared in
    the header and defined nowhere. *)
From stdpp Require Import functions.
From S2P Require Import Prelude CxxString StdContainers Db.
Local Open Scope Z_scope.

Record DbServer := MkServer {
  serverId_ : Z;
  ids_ : list Z;
  idToDb_ : gmap Z Db;
}.

Definition set_dbs (m : gmap Z Db) (s : DbServer) : DbServer := MkServer (serverId_ s) (ids_ s) m.

(** [idToDb_[id]]: the value-initialised [Db] when the id has none. *)
Definition db_of (id : Z) (s : DbServer) : Db := default Db_default (idToDb_ s !! id).

(** A member call on [idToDb_[id]]; the map entry exists afterwards. *)
Definition on_db {A} (id : Z) (m : ST Db A) : ST DbServer A := λ s,
  let r := m (db_of id s) in (r.1, set_dbs (<[id := r.2]> (idToDb_ s)) s).

Fixpoint id_in (id : Z) (l : list Z) : bool :=
  match l with
  | [] => false
  | i :: l' => if id =? i then true else id_in id l'
  end.

Definition isRightId (id : Z) (s : DbServer) : bool := id_in id (ids_ s).

Definition isRightSlot (id slot : Z) : ST DbServer bool :=
  on_db id (λ d, (testSlot slot d, d)).

Definition isThisServer (id : Z) (s : DbServer) : bool := id =? serverId_ s.

(** The commands, under the lock (DbServer.cc:32-60).  Flowing off the end
    of the function with an unknown command is undefined. *)
Definition dispatch (id slot : Z) (cmd key mes : bytes) : ST DbServer bytes :=
  s ← st_get;
  if bool_decide (cmd = s!"GET") then
    r ← on_db id (getKV key []);
    mret (if r.1 : bool then r.2 else s!"GETKeyNotFound")
  else if bool_decide (cmd = s!"DEL") then
    r ← on_db id (delKV key);
    mret (if r : bool then s!"DELDown" else s!"DELKeyNotFound")
  else if bool_decide (cmd = s!"SET") then
    if negb (isThisServer slot s) then mret s!"Moved"
    else
      value ← lift (substr mes 18 8);
      _ ← on_db (serverId_ s) (setKV key value slot);
      mret s!"SETDONE"
  else lift Undef.

Definition handle_client_request (mes : bytes) : ST DbServer bytes :=
  s ← st_get;
  idStr ← lift (substr mes 0 2);
  id ← lift (stoi idStr);
  if negb (isRightId id s) then mret s!"WrongServerId"
  else
    slotStr ← lift (substr mes 2 5);
    cmd ← lift (substr mes 7 3);
    key ← lift (substr mes 10 8);
    slot ← lift (stoi slotStr);
    right ← isRightSlot id slot;
    if negb right then mret s!"WrongSlot"
    else dispatch id slot cmd key mes.

(** A request in the documented layout. *)
Definition encode_request (id slot : Z) (cmd key value : bytes) : bytes :=
  dec_w 2 id ++ dec_w 5 slot ++ cmd ++ key ++ value.

(** ** Decoding a well-formed request *)
Section Requests.
Implicit Types (s : DbServer) (mes key value cmd : bytes).

Lemma id_in_spec id l : id_in id l = bool_decide (id ∈ l).
Proof.
  induction l as [|i l IH]; [done|]. cbn [id_in]. case_if.
  - subst. symmetry. apply bool_decide_eq_true. left.
  - rewrite IH. apply bool_decide_ext. rewrite elem_of_cons. tauto.
Qed.

Lemma substr_at (a b c : bytes) pos n :
  zlen a = pos → zlen b = n → substr (a ++ b ++ c) pos n = Ret b.
Proof.
  intros <- <-. unfold substr, ztake, zdrop. rewrite zlen_app.
  rewrite (proj2 (Z.leb_le _ _)) by (pose proof (zlen_nonneg (b ++ c)); lia).
  unfold zlen. rewrite !Nat2Z.id, drop_app_length, take_app_length. done.
Qed.

Lemma zlen_dec_w n z : zlen (dec_w n z) = Z.of_nat n.
Proof. unfold zlen. by rewrite length_dec_w. Qed.

Section Layout.
Context (id slot : Z) (cmd key value : bytes).
Context (Hcmd : zlen cmd = 3) (Hkey : zlen key = 8).
Let mes := encode_request id slot cmd key value.

Lemma request_id : substr mes 0 2 = Ret (dec_w 2 id).
Proof. apply (substr_at []); [done|apply zlen_dec_w]. Qed.

Lemma request_slot : substr mes 2 5 = Ret (dec_w 5 slot).
Proof. apply substr_at; apply zlen_dec_w. Qed.

Lemma request_cmd : substr mes 7 3 = Ret cmd.
Proof.
  unfold mes, encode_request. rewrite app_assoc.
  apply substr_at; [|done]. by rewrite zlen_app, !zlen_dec_w.
Qed.

Lemma request_key : substr mes 10 8 = Ret key.
Proof.
  unfold mes, encode_request. rewrite app_assoc, app_assoc.
  apply substr_at; [|done]. by rewrite !zlen_app, !zlen_dec_w, Hcmd.
Qed.
End Layout.

(** The fields of an encoded request reach [dispatch] as they were. *)
Lemma handle_encoded id slot cmd key value s :
  0 ≤ id < 100 → 0 ≤ slot < SLOTS_NUM → zlen cmd = 3 → zlen key = 8 →
  id ∈ ids_ s → Z.testbit (slots_ (db_of id s)) slot = true →
  handle_client_request (encode_request id slot cmd key value) s =
  dispatch id slot cmd key (encode_request id slot cmd key value)
    (set_dbs (<[id := db_of id s]> (idToDb_ s)) s).
Proof.
  intros Hid Hslot Hcmd Hkey Hin Hbit. unfold SLOTS_NUM in Hslot.
  unfold handle_client_request, isRightId, isRightSlot, on_db.
  rewrite request_id, request_slot, request_cmd, request_key by done.
  unfold mbind, ST_bind, lift, st_get.
  rewrite !stoi_dec_w by (simpl; lia).
  rewrite id_in_spec, bool_decide_eq_true_2 by done. simpl.
  unfold testSlot, u64. rewrite wrapu_small by (unfold in_u; lia).
  by rewrite (proj2 (Z.ltb_lt _ _)), Hbit by (unfold SLOTS_NUM; lia).
Qed.

Lemma db_of_insert id d s : db_of id (set_dbs (<[id := d]> (idToDb_ s)) s) = d.
Proof. unfold db_of. simpl. by rewrite lookup_insert_eq. Qed.

Lemma on_db_ret {A} id (m : ST Db A) s r d' :
  m (db_of id s) = (Ret r, d') →
  on_db id m s = (Ret r, set_dbs (<[id := d']> (idToDb_ s)) s).
Proof. intros H. unfold on_db. by rewrite H. Qed.

Lemma set_dbs_insert id d d' s :
  set_dbs (<[id := d']> (idToDb_ (set_dbs (<[id := d]> (idToDb_ s)) s)))
    (set_dbs (<[id := d]> (idToDb_ s)) s) = set_dbs (<[id := d']> (idToDb_ s)) s.
Proof. unfold set_dbs. simpl. by rewrite insert_insert_eq. Qed.
End Requests.

(** A [GET] or [DEL] request in the documented layout, for a server id the
    server knows and a slot that database owns, is answered from exactly that
    database: [GET] replies the cached value (or [GETKeyNotFound]) and makes
    the key the most recent one, [DEL] removes it; no other database changes. *)
Theorem get_del_requests_served (s : DbServer) (id slot : Z)
    (key value : bytes) (es : list entry) :
  0 ≤ id < 100 → 0 ≤ slot < SLOTS_NUM → zlen key = 8 → id ∈ ids_ s →
  Z.testbit (slots_ (db_of id s)) slot = true → db_repr (db_of id s) es →
  (∃ d', handle_client_request (encode_request id slot s!"GET" key value) s =
      (Ret (default s!"GETKeyNotFound" (spec_get key es).1), set_dbs (<[id := d']> (idToDb_ s)) s) ∧
    db_repr d' (spec_get key es).2 ∧ same_config (db_of id s) d') ∧
  (∃ d', handle_client_request (encode_request id slot s!"DEL" key value) s =
      (Ret (if (spec_del key es).1 then s!"DELDown" else s!"DELKeyNotFound"),
       set_dbs (<[id := d']> (idToDb_ s)) s) ∧
    db_repr d' (spec_del key es).2 ∧ same_config (db_of id s) d').
Proof.
  intros Hid Hslot Hkey Hin Hbit Hr. split.
  - destruct (getKV_step _ _ key [] Hr) as (d' & Hget & Hr' & Hc). exists d'.
    rewrite handle_encoded by done. split; [|done].
    unfold dispatch. unfold mbind at 1, ST_bind at 1, st_get. cbn match.
    rewrite bool_decide_eq_true_2 by done.
    erewrite ST_bind_eq by (apply on_db_ret; by rewrite db_of_insert).
    rewrite set_dbs_insert. by destruct (spec_get key es).1.
  - destruct (delKV_step _ _ key Hr) as (d' & Hdel & Hr' & Hc). exists d'.
    rewrite handle_encoded by done. split; [|done].
    unfold dispatch. unfold mbind at 1, ST_bind at 1, st_get. cbn match.
    rewrite bool_decide_eq_false_2, bool_decide_eq_true_2 by done.
    erewrite ST_bind_eq by (apply on_db_ret; by rewrite db_of_insert).
    by rewrite set_dbs_insert.
Qed.

(** A server with id 1 whose database owns every slot and caches one key. *)
Definition sample_db : Db :=
  let d := MkDb 0 false (Z.ones SLOTS_NUM) 4 nl_empty ∅ nl_empty in
  let l := nl_push_front s!"keykey01" (lruList_ d) in
  let ins := mm_insert 1 s!"keykey01" (slotToKey_ d) in
  set_cache l (<[s!"keykey01" := ((nl_begin l, ins.2), s!"valueval")]> (map_ d)) ins.1 d.
Definition sample_server : DbServer := MkServer 1 [1; 2] {[ 1 := sample_db ]}.

Lemma sample_db_repr : db_repr sample_db [Entry s!"keykey01" s!"valueval" 1].
Proof.
  unfold sample_db. apply repr_add; [|apply not_elem_of_nil]. destruct (empty_db_repr 4). by constructor.
Qed.

Lemma get_del_requests_served_witness :
  ∃ d', handle_client_request (encode_request 1 77 s!"GET" s!"keykey01" []) sample_server =
      (Ret s!"valueval", set_dbs (<[1 := d']> (idToDb_ sample_server)) sample_server).
Proof.
  edestruct (get_del_requests_served sample_server 1 77 s!"keykey01" []
    [Entry s!"keykey01" s!"valueval" 1]) as [(d' & H & _) _];
    [lia|unfold SLOTS_NUM; lia|reflexivity|left|vm_compute; reflexivity|exact sample_db_repr|].
  exists d'. exact H.
Defined.

(** [SET] is admitted by comparing the slot, not the server id, with
    [serverId_]: a [SET] the slot check accepted stores nothing and answers
    [Moved] for every slot other than the one numerically equal to the
    server's own id, whatever server id the request names. *)
Theorem set_refused_unless_slot_is_server_id (s : DbServer) (id slot : Z)
    (key value : bytes) :
  0 ≤ id < 100 → 0 ≤ slot < SLOTS_NUM → zlen key = 8 → id ∈ ids_ s →
  Z.testbit (slots_ (db_of id s)) slot = true → slot ≠ serverId_ s →
  handle_client_request (encode_request id slot s!"SET" key value) s =
    (Ret s!"Moved", set_dbs (<[id := db_of id s]> (idToDb_ s)) s).
Proof.
  intros Hid Hslot Hkey Hin Hbit Hne. rewrite handle_encoded by done.
  unfold dispatch, isThisServer, mbind, ST_bind, st_get.
  rewrite !bool_decide_eq_false_2, bool_decide_eq_true_2 by done. simpl.
  by rewrite (proj2 (Z.eqb_neq _ _)).
Qed.

Lemma set_refused_unless_slot_is_server_id_witness :
  handle_client_request (encode_request 1 77 s!"SET" s!"keykey01" s!"newvalue") sample_server =
    (Ret s!"Moved", set_dbs (<[1 := db_of 1 sample_server]> (idToDb_ sample_server)) sample_server).
Proof.
  apply set_refused_unless_slot_is_server_id;
    [lia|unfold SLOTS_NUM; lia|reflexivity|left|vm_compute; reflexivity|discriminate].
Defined.

(** A message too short to hold a key (under ten bytes) never reaches a
    database: it is answered [WrongServerId] or makes the request throw
    [out_of_range] or [invalid_argument], and the server is unchanged. *)
Theorem short_request_is_harmless (s : DbServer) (mes : bytes) :
  zlen mes < 10 →
  ∃ r, handle_client_request mes s = (r, s) ∧
    (r = Ret s!"WrongServerId" ∨ r = Throw out_of_range ∨ r = Throw invalid_argument).
Proof.
  intros Hlen. unfold handle_client_request, mbind, ST_bind, st_get, lift.
  unfold substr at 1. rewrite (proj2 (Z.leb_le _ _)) by apply zlen_nonneg.
  destruct (stoi_total (ztake 2 (zdrop 0 mes))) as [(id & Hs & _)|[e Hs]]; rewrite Hs.
  2:{ eexists. split; [done|]. destruct (stoi_throws _ _ Hs) as [-> | ->]; auto. }
  destruct (isRightId id s); simpl; [|eauto].
  unfold substr. destruct (2 <=? zlen mes); [|eauto]. destruct (7 <=? zlen mes); [|eauto].
  rewrite (proj2 (Z.leb_gt _ _)) by lia. eauto.
Qed.

Lemma short_request_is_harmless_witness :
  ∃ r, handle_client_request s!"0100012" sample_server = (r, sample_server) ∧
    (r = Ret s!"WrongServerId" ∨ r = Throw out_of_range ∨ r = Throw invalid_argument).
Proof. apply short_request_is_harmless. reflexivity. Defined.

(** A well-addressed request whose command is none of [GET], [DEL] and
    [SET] flows off the end of [handle_client_request]: undefined behaviour
    triggered by the client's bytes alone. *)
Theorem unknown_command_undefined (s : DbServer) (id slot : Z)
    (cmd key value : bytes) :
  0 ≤ id < 100 → 0 ≤ slot < SLOTS_NUM → zlen cmd = 3 → zlen key = 8 → id ∈ ids_ s →
  Z.testbit (slots_ (db_of id s)) slot = true →
  cmd ∉ [s!"GET"; s!"DEL"; s!"SET"] →
  (handle_client_request (encode_request id slot cmd key value) s).1 = Undef.
Proof.
  intros Hid Hslot Hcmd Hkey Hin Hbit Hnot. rewrite handle_encoded by done.
  rewrite !not_elem_of_cons in Hnot. destruct Hnot as (? & ? & ? & _).
  unfold dispatch, mbind, ST_bind, st_get. by rewrite !bool_decide_eq_false_2.
Qed.

Lemma unknown_command_undefined_witness :
  (handle_client_request (encode_request 1 77 s!"PUT" s!"keykey01" []) sample_server).1 = Undef.
Proof.
  apply unknown_command_undefined;
    [lia|unfold SLOTS_NUM; lia|reflexivity|reflexivity|left|vm_compute; reflexivity|].
  rewrite !not_elem_of_cons. repeat split; try discriminate. apply not_elem_of_nil.
Defined.

(** ** Sessions of requests

    The contents a server promises: one recency list for each server id it
    knows.  [own id slot]: the slot belongs to that id.  A SET is refused with
    [Moved] unless its slot number is the server's own id, and is then done in the
    server's own cache, whatever id it names. *)
Inductive rcmd := RGet | RSet | RDel.

Record request := Request {
  r_cmd : rcmd;
  r_id : Z;
  r_slot : Z;
  r_key : bytes;
  r_value : bytes;
}.

Definition cmd_text (c : rcmd) : bytes :=
  match c with RGet => s!"GET" | RSet => s!"SET" | RDel => s!"DEL" end.

Definition request_text (r : request) : bytes :=
  encode_request (r_id r) (r_slot r) (cmd_text (r_cmd r)) (r_key r) (r_value r).

Definition request_ok (r : request) : Prop :=
  0 ≤ r_id r < 100 ∧ 0 ≤ r_slot r < SLOTS_NUM ∧ zlen (r_key r) = 8 ∧ zlen (r_value r) = 8.

(** A client's requests, one after the other. *)
Fixpoint run_requests (rs : list request) : ST DbServer (list bytes) :=
  match rs with
  | [] => mret []
  | r :: rs =>
      reply ← handle_client_request (request_text r);
      replies ← run_requests rs;
      mret (reply :: replies)
  end.

Section ServerSpec.
Context (server : Z) (ids : list Z) (own : Z → Z → bool).

(** [None]: undefined. *)
Definition spec_request (r : request) (A : Z → list entry) : option (bytes * (Z → list entry)) :=
  let id := r_id r in
  if negb (bool_decide (id ∈ ids)) then Some (s!"WrongServerId", A)
  else if negb (own id (r_slot r)) then Some (s!"WrongSlot", A)
  else match r_cmd r with
  | RGet => let x := spec_get (r_key r) (A id) in Some (default s!"GETKeyNotFound" x.1, <[id := x.2]> A)
  | RDel => let x := spec_del (r_key r) (A id) in
      Some (if x.1 : bool then s!"DELDown" else s!"DELKeyNotFound", <[id := x.2]> A)
  | RSet => if r_slot r =? server
      then (λ es, (s!"SETDONE", <[server := es]> A)) <$> spec_set (r_key r) (r_value r) (A server)
      else Some (s!"Moved", A)
  end.

Fixpoint spec_requests (rs : list request) (A : Z → list entry) : option (list bytes * (Z → list entry)) :=
  match rs with
  | [] => Some ([], A)
  | r :: rs =>
      '(x, A1) ← spec_request r A;
      '(xs, A2) ← spec_requests rs A1;
      Some (x :: xs, A2)
  end.
End ServerSpec.

(** The specification of the server [s]: its ids and slots. *)
Definition spec_of {B} (f : Z → list Z → (Z → Z → bool) → B) (s : DbServer) : B :=
  f (serverId_ s) (ids_ s) (λ id slot, Z.testbit (slots_ (db_of id s)) slot).

Definition server_repr (s : DbServer) (A : Z → list entry) : Prop :=
  ∀ id, id ∈ ids_ s → db_repr (db_of id s) (A id).

Section SessionProofs.
Implicit Types (s : DbServer) (A : Z → list entry) (r : request).

Definition same_server s s' : Prop :=
  serverId_ s' = serverId_ s ∧ ids_ s' = ids_ s ∧ ∀ id, same_config (db_of id s) (db_of id s').

Lemma same_server_refl s : same_server s s.
Proof. by repeat split. Qed.

Lemma same_server_trans s1 s2 s3 : same_server s1 s2 → same_server s2 s3 → same_server s1 s3.
Proof.
  intros (? & ? & H1) (? & ? & H2). split; [congruence|]. split; [congruence|].
  intros id. destruct (H1 id) as (? & ? & ?), (H2 id) as (? & ? & ?). repeat split; congruence.
Qed.

Lemma same_server_specs s s' r A : same_server s s' → spec_of spec_request s' r A = spec_of spec_request s r A.
Proof.
  intros (Hs & Hi & Hc). unfold spec_of, spec_request. rewrite Hs, Hi.
  by destruct (Hc (r_id r)) as (-> & _).
Qed.

Lemma same_server_sessions s s' rs A :
  same_server s s' → spec_of spec_requests s' rs A = spec_of spec_requests s rs A.
Proof.
  intros Hs. revert A. induction rs as [|r rs IH]; intros A; [done|]. unfold spec_of in *. cbn [spec_requests].
  pose proof (same_server_specs s s' r A Hs) as Hr. unfold spec_of in Hr. rewrite Hr.
  destruct (spec_request (serverId_ s) _ _ r A) as [[x A1]|]; simpl; [|done]. by rewrite IH.
Qed.

Lemma db_of_ne id id' d s : id ≠ id' → db_of id' (set_dbs (<[id := d]> (idToDb_ s)) s) = db_of id' s.
Proof. intros Hne. unfold db_of. simpl. by rewrite lookup_insert_ne. Qed.

(** One database takes a step, the others stay. *)
Lemma server_repr_insert s A id d es :
  server_repr s A → db_repr d es → same_config (db_of id s) d →
  let s' := set_dbs (<[id := d]> (idToDb_ s)) s in
  server_repr s' (<[id := es]> A) ∧ same_server s s'.
Proof.
  intros Hr Hd Hc s'. split.
  - intros id' Hin. destruct (decide (id = id')) as [->|Hne].
    + unfold s'. by rewrite db_of_insert, fn_lookup_insert.
    + unfold s'. rewrite db_of_ne, fn_lookup_insert_ne by done. by apply Hr.
  - split; [done|]. split; [done|]. intros id'. destruct (decide (id = id')) as [->|Hne].
    + unfold s'. by rewrite db_of_insert.
    + unfold s'. by rewrite db_of_ne.
Qed.

(** Looking a database up adds it to the map, which changes nothing else. *)
Lemma server_repr_touch s A id : server_repr s A →
  let s' := set_dbs (<[id := db_of id s]> (idToDb_ s)) s in server_repr s' A ∧ same_server s s'.
Proof.
  intros Hr s'. assert (∀ id', db_of id' s' = db_of id' s) as Heq.
  { intros id'. destruct (decide (id = id')) as [->|]; [apply db_of_insert|by apply db_of_ne]. }
  split; [intros id' Hin; rewrite Heq; by apply Hr|].
  do 2 (split; [done|]). intros id'. by rewrite Heq.
Qed.

(** The checks before the commands. *)
Lemma handle_unknown_id id slot cmd key value s : 0 ≤ id < 100 → id ∉ ids_ s →
  handle_client_request (encode_request id slot cmd key value) s = (Ret s!"WrongServerId", s).
Proof.
  intros Hid Hin. unfold handle_client_request, isRightId. rewrite request_id.
  unfold mbind, ST_bind, lift, st_get. rewrite stoi_dec_w by (simpl; lia).
  by rewrite id_in_spec, bool_decide_eq_false_2.
Qed.

Lemma handle_foreign_slot id slot cmd key value s :
  0 ≤ id < 100 → 0 ≤ slot < SLOTS_NUM → zlen cmd = 3 → zlen key = 8 →
  id ∈ ids_ s → Z.testbit (slots_ (db_of id s)) slot = false →
  handle_client_request (encode_request id slot cmd key value) s =
  (Ret s!"WrongSlot", set_dbs (<[id := db_of id s]> (idToDb_ s)) s).
Proof.
  intros Hid Hslot Hcmd Hkey Hin Hbit. unfold SLOTS_NUM in Hslot.
  unfold handle_client_request, isRightId, isRightSlot, on_db.
  rewrite request_id, request_slot, request_cmd, request_key by done.
  unfold mbind, ST_bind, lift, st_get. rewrite !stoi_dec_w by (simpl; lia).
  rewrite id_in_spec, bool_decide_eq_true_2 by done. simpl.
  unfold testSlot, u64. rewrite wrapu_small by (unfold in_u; lia).
  by rewrite (proj2 (Z.ltb_lt _ _)), Hbit by (unfold SLOTS_NUM; lia).
Qed.

(** A [SET] for the slot that equals the server's id is done in the server's own
    cache, or undefined. *)
Lemma handle_own_set id key value s es :
  0 ≤ id < 100 → 0 ≤ serverId_ s < SLOTS_NUM → zlen key = 8 → zlen value = 8 → id ∈ ids_ s →
  Z.testbit (slots_ (db_of id s)) (serverId_ s) = true →
  db_repr (db_of (serverId_ s) s) es →
  let s1 := set_dbs (<[id := db_of id s]> (idToDb_ s)) s in
  match spec_set key value es with
  | Some es' => ∃ d', handle_client_request (encode_request id (serverId_ s) s!"SET" key value) s =
      (Ret s!"SETDONE", set_dbs (<[serverId_ s := d']> (idToDb_ s1)) s1) ∧
      db_repr d' es' ∧ same_config (db_of (serverId_ s) s) d'
  | None => (handle_client_request (encode_request id (serverId_ s) s!"SET" key value) s).1 = Undef
  end.
Proof.
  intros Hid Hslot Hkey Hval Hin Hbit Hr s1.
  assert (db_of (serverId_ s1) s1 = db_of (serverId_ s) s) as Hown.
  { unfold s1. simpl. destruct (decide (id = serverId_ s)) as [->|]; [apply db_of_insert|by apply db_of_ne]. }
  assert (handle_client_request (encode_request id (serverId_ s) s!"SET" key value) s =
    (_ ← on_db (serverId_ s) (setKV key value (serverId_ s)); mret s!"SETDONE") s1) as ->.
  { rewrite handle_encoded by done. fold s1. unfold dispatch. rewrite (ST_bind_eq st_get _ s1 s1 s1 eq_refl).
    rewrite !bool_decide_eq_false_2, bool_decide_eq_true_2 by done.
    unfold isThisServer. rewrite Z.eqb_refl. cbn [negb].
    assert (substr (encode_request id (serverId_ s) s!"SET" key value) 18 8 = Ret value) as ->; [|done].
    replace (encode_request id (serverId_ s) s!"SET" key value)
      with ((dec_w 2 id ++ dec_w 5 (serverId_ s) ++ s!"SET" ++ key) ++ value ++ []).
    - apply substr_at; [|done]. by rewrite !zlen_app, !zlen_dec_w, Hkey.
    - unfold encode_request. by rewrite app_nil_r, <-!app_assoc. }
  pose proof (setKV_step _ _ key value (serverId_ s) Hr) as H. destruct (spec_set key value es) as [es'|].
  - destruct H as (d' & Hset & Hr' & Hc). exists d'. split; [|done].
    rewrite <-Hown in Hset. change (serverId_ s) with (serverId_ s1) in Hset |- *.
    by rewrite (ST_bind_eq _ _ _ _ _ (on_db_ret _ _ _ _ _ Hset)).
  - unfold mbind, ST_bind, on_db. change (serverId_ s1) with (serverId_ s) in Hown. rewrite Hown.
    by destruct (setKV key value (serverId_ s) (db_of (serverId_ s) s)) as [[] ?].
Qed.

Lemma request_step r s A : server_repr s A → serverId_ s ∈ ids_ s → request_ok r →
  match spec_of spec_request s r A with
  | Some (x, A') => ∃ s', handle_client_request (request_text r) s = (Ret x, s') ∧ server_repr s' A' ∧ same_server s s'
  | None => (handle_client_request (request_text r) s).1 = Undef
  end.
Proof.
  intros Hr Hown (Hid & Hslot & Hkey & Hval). destruct r as [c id slot key value].
  unfold spec_of, spec_request, request_text. cbn [r_cmd r_id r_slot r_key r_value] in *.
  destruct (decide (id ∈ ids_ s)) as [Hin|Hin].
  2:{ rewrite bool_decide_eq_false_2 by done. exists s. rewrite handle_unknown_id by done.
      split; [done|]. split; [done|apply same_server_refl]. }
  rewrite bool_decide_eq_true_2 by done. cbn [negb].
  destruct (server_repr_touch s A id Hr) as [Hr1 Hs1].
  destruct (Z.testbit (slots_ (db_of id s)) slot) eqn:Hbit; cbn [negb].
  2:{ eexists. rewrite handle_foreign_slot by (done || by destruct c). done. }
  destruct (get_del_requests_served s id slot key value _ Hid Hslot Hkey Hin Hbit (Hr id Hin))
    as [(d1 & Hget & Hd1 & Hc1) (d2 & Hdel & Hd2 & Hc2)].
  destruct c; cbn [cmd_text].
  - rewrite Hget. eexists. split; [done|]. by apply server_repr_insert.
  - destruct (decide (slot = serverId_ s)) as [->|Hne].
    2:{ rewrite (proj2 (Z.eqb_neq _ _)) by done. eexists. by rewrite set_refused_unless_slot_is_server_id. }
    rewrite Z.eqb_refl. pose proof (handle_own_set id key value s _ Hid Hslot Hkey Hval Hin Hbit (Hr _ Hown)) as H.
    cbv zeta in H. destruct (spec_set key value (A (serverId_ s))) as [es'|]; cbn [fmap option_fmap option_map]; [|done].
    destruct H as (d' & Hset & Hd' & Hc'). rewrite Hset. eexists. split; [done|]. destruct Hs1 as (H1 & H2 & H3).
    destruct (server_repr_insert _ A (serverId_ s) d' _ Hr1 Hd') as [Hr2 Hs2].
    { destruct (H3 (serverId_ s)) as (? & ? & ?), Hc' as (? & ? & ?). repeat split; congruence. }
    split; [done|]. by eapply same_server_trans; [split_and!; [exact H1|exact H2|exact H3]|].
  - rewrite Hdel. eexists. split; [done|]. by apply server_repr_insert.
Qed.
End SessionProofs.

(** C2: Any sequence of well-formed requests, whatever ids and slots they name,
    to a server whose databases are consistent, is answered as the code's rules
    say: an unknown id with [WrongServerId], a slot that id does not own with
    [WrongSlot], GET and DEL from the recency list of the id they name, SET with
    [Moved] unless its slot number equals the server's own id (the code compares
    those two), and then from the server's own list, whatever id it names.  As
    long as no accepted SET names a key that list does not hold, no request
    throws or is undefined and the databases stay consistent with the lists; the
    first such SET is undefined (Db.cc:69). *)
Theorem server_session_refines_caches (rs : list request) (s : DbServer) (A : Z → list entry) :
  server_repr s A → serverId_ s ∈ ids_ s → Forall request_ok rs →
  match spec_of spec_requests s rs A with
  | Some (replies, A') => ∃ s', run_requests rs s = (Ret replies, s') ∧ server_repr s' A' ∧ same_server s s'
  | None => (run_requests rs s).1 = Undef
  end.
Proof.
  intros Hr Hown Hrs. revert s A Hr Hown.
  induction Hrs as [|r rs Hok Hrs IH]; intros s A Hr Hown.
  { exists s. split; [done|]. split; [done|apply same_server_refl]. }
  pose proof (request_step r s A Hr Hown Hok) as H. unfold spec_of in *. cbn [spec_requests run_requests].
  destruct (spec_request _ _ _ r A) as [[x A1]|].
  2:{ by apply ST_bind_Undef. }
  destruct H as (s1 & H1 & Hr1 & Hs1). pose proof Hs1 as (Hid & Hids & _).
  rewrite (ST_bind_eq _ _ _ _ _ H1). cbn [mbind option_bind].
  specialize (IH s1 A1 Hr1 ltac:(by rewrite Hid, Hids)). pose proof (same_server_sessions s s1 rs A1 Hs1) as He.
  unfold spec_of in He. rewrite He in IH. destruct (spec_requests _ _ _ rs A1) as [[xs A2]|].
  - destruct IH as (s2 & H2 & Hr2 & Hs2). exists s2. rewrite (ST_bind_eq _ _ _ _ _ H2).
    split; [done|]. split; [done|]. by eapply same_server_trans.
  - by apply ST_bind_Undef.
Qed.

(** A session with server 1 (which also keeps the replica of server 2): the
    cached key is overwritten through slot 1, read, deleted and missed. *)
Definition demo_requests : list request :=
  [Request RGet 1 77 s!"keykey01" s!"--------"; Request RSet 1 1 s!"keykey01" s!"newvalue";
   Request RGet 1 77 s!"keykey01" s!"--------"; Request RSet 1 77 s!"keykey02" s!"othervvv";
   Request RGet 2 77 s!"keykey01" s!"--------"; Request RDel 1 77 s!"keykey01" s!"--------";
   Request RGet 1 77 s!"keykey01" s!"--------"; Request RGet 3 77 s!"keykey01" s!"--------"].

Definition demo_contents : Z → list entry := <[1 := [Entry s!"keykey01" s!"valueval" 1]]> (λ _, []).

Lemma demo_contents_repr : server_repr sample_server demo_contents.
Proof.
  intros id [->|[->|[]%not_elem_of_nil]%elem_of_cons]%elem_of_cons.
  - exact sample_db_repr.
  - apply (empty_db_repr 0).
Qed.

Lemma server_session_refines_caches_witness :
  (∃ s', run_requests demo_requests sample_server =
    (Ret [s!"valueval"; s!"SETDONE"; s!"newvalue"; s!"Moved"; s!"WrongSlot"; s!"DELDown";
          s!"GETKeyNotFound"; s!"WrongServerId"], s')) ∧
  (run_requests [Request RSet 1 1 s!"keykey02" s!"newvalue"] sample_server).1 = Undef.
Proof.
  split.
  - pose proof (server_session_refines_caches demo_requests sample_server demo_contents demo_contents_repr) as H.
    destruct H as (s' & H & _); [left| |by exists s'].
    unfold demo_requests. repeat (apply Forall_cons; split; [by vm_compute|]). by apply Forall_nil.
  - refine (server_session_refines_caches [Request RSet 1 1 s!"keykey02" s!"newvalue"] sample_server demo_contents demo_contents_repr _ _);
      [left|]. apply Forall_cons; split; [by vm_compute|by apply Forall_nil].
Defined.
