(* ===== verification/PpMaster.v ===== *)
(** * The master [PpMaster] (master/PpMaster.h, master/PpMaster.cc)

    The master maps hash slots to server ids and ids to addresses, and hands
    slots out to servers.  A [std::bitset<16384>] is the integer with those
    bits.  Shifts and subtractions are done at the width of their C++ types:
    an [int] expression that overflows, or a shift count outside the width, is
    undefined in C++17; the value an implementation produces for an oversized
    64-bit shift is a parameter.  [running_], [dbNum_], [nowDbNum_] and
    [readyServer] are read and written by no function; the constructor and
    [handle_server_request] are declared and defined nowhere. *)
From S2P Require Import Prelude CxxString Endian InetAddress.
Local Open Scope Z_scope.

Definition SLOTS_NUM : Z := 16384.

(** ** Arithmetic of the C++ types *)

(** [a << k] on [int] (C++14 and later: the value may reach the sign bit). *)
Definition shl_int (a k : Z) : outcome Z :=
  if (0 <=? k) && (k <? 32) && (0 <=? a) && (a * 2 ^ k <? 2 ^ 32)
  then Ret (i32 (a * 2 ^ k)) else Undef.
Definition sub_int (a b : Z) : outcome Z :=
  if in_sb 32 (a - b) then Ret (a - b) else Undef.

(** [__builtin_ctzll] of a non-zero value. *)
Fixpoint ctz_pos (p : positive) : Z :=
  match p with
  | xO q => Z.succ (ctz_pos q)
  | _ => 0
  end.
Definition ctzll (x : Z) : Z := match x with Zpos p => ctz_pos p | _ => 0 end.

(** [bitset::to_ullong]. *)
Definition to_ullong (bits : Z) : outcome Z := if bits <? 2 ^ 64 then Ret bits else Throw overflow_error.

(** ** The master's state *)
Record PpMaster := MkMaster {
  idToAddr_ : gmap Z InetAddress;
  idToSlots_ : gmap Z Z;
  slotsToId_ : list Z;
  shared_holds : nat;
}.

Definition set_addrs (m : gmap Z InetAddress) (p : PpMaster) : PpMaster :=
  MkMaster m (idToSlots_ p) (slotsToId_ p) (shared_holds p).
Definition set_slots (m : gmap Z Z) (p : PpMaster) : PpMaster :=
  MkMaster (idToAddr_ p) m (slotsToId_ p) (shared_holds p).
Definition set_holds (n : nat) (p : PpMaster) : PpMaster :=
  MkMaster (idToAddr_ p) (idToSlots_ p) (slotsToId_ p) n.

(** [idToSlots_[id]]. *)
Definition slots_of (id : Z) (p : PpMaster) : Z := default 0 (idToSlots_ p !! id).
Definition put_slots (id bits : Z) (p : PpMaster) : PpMaster :=
  set_slots (<[id := bits]> (idToSlots_ p)) p.

(** Unchecked [v[i]] of a vector. *)
Definition vector_at {A} (l : list A) (i : Z) : outcome A :=
  if 0 <=? i then or_undef (l !! Z.to_nat i) else Undef.

Definition handle_client_request (e : endian) `{InetText} (mes : bytes) : ST PpMaster bytes :=
  slotStr ← lift (substr mes 0 5);
  slot ← lift (stoi slotStr);
  st_modify (λ p, set_holds (S (shared_holds p)) p) ;;
  p ← st_get;
  id ← lift (vector_at (slotsToId_ p) slot);
  let addr := default (InetAddress_any e 0 false false) (idToAddr_ p !! id) in
  st_put (set_addrs (<[id := addr]> (idToAddr_ p)) p) ;;
  IpPort ← lift (toIpPort e addr);
  st_modify (λ p, set_holds (pred (shared_holds p)) p) ;;
  mret IpPort.

Definition rangeSetSlots (serverId start end_ : Z) : ST PpMaster unit :=
  width ← lift (sub_int end_ start);
  one ← lift (shl_int 1 width);
  ones ← lift (sub_int one 1);
  mask ← lift (shl_int ones start);
  st_modify (λ p, put_slots serverId (Z.lor (slots_of serverId p) (u64 mask)) p).

Definition block_size : Z := 64.
Definition num_blocks : nat := 256.

Section Shifts.
(** What [x << k] and [x >> k] give on 64 bits when [k] is not in [0, 63]. *)
Context (shl_over shr_over : Z → Z → outcome Z).

Definition shl64 (x k : Z) : outcome Z :=
  if (0 <=? k) && (k <? 64) then Ret (u64 (Z.shiftl x k)) else shl_over x k.
Definition shr64 (x k : Z) : outcome Z :=
  if (0 <=? k) && (k <? 64) then Ret (Z.shiftr x k) else shr_over x k.

(** The inner loop of [resetSlots]: the positions of the set bits of [block],
    offset by [base], until [count] reaches [n]; with the new [count]. *)
Fixpoint collect (fuel : nat) (base n count block : Z) : list Z * Z :=
  match fuel with
  | O => ([], count)
  | S fuel' =>
      if block =? 0 then ([], count)
      else
        let pos := base + ctzll block in
        let count' := count + 1 in
        if count' =? n then ([pos], count')
        else
          let '(l, c) := collect fuel' base n count' (Z.land block (block - 1)) in
          (pos :: l, c)
  end.

(** The loop over [positions[i]]: [ret.set(pos)] and the clearing of
    [masks[i]]. *)
Fixpoint mark (positions : list Z) (ret mask : Z) : outcome (Z * Z) :=
  match positions with
  | [] => Ret (ret, mask)
  | pos :: rest =>
      _ ← (if pos <? SLOTS_NUM then Ret () else Throw out_of_range);
      bit ← shl64 1 pos;
      mark rest (Z.setbit ret pos) (Z.land mask (u64 (Z.lnot bit)))
  end.

Fixpoint resetSlots_loop (fuel : nat) (serverId n i count ret : Z) : ST PpMaster Z :=
  match fuel with
  | O => mret ret
  | S fuel' =>
      if count <? n then
        st_modify (λ p, put_slots serverId (slots_of serverId p) p) ;;
        p ← st_get;
        all ← lift (to_ullong (slots_of serverId p));
        block ← lift (shr64 all (i * block_size));
        top ← lift (shl64 1 block_size);
        let found := collect (Z.to_nat block_size) (i * block_size) n count block in
        marked ← lift (mark found.1 ret (u64 (top - 1)));
        cleared ← lift (shl64 marked.2 (i * block_size));
        st_modify (λ p, put_slots serverId
          (Z.land (slots_of serverId p) (u64 (Z.lnot cleared))) p) ;;
        resetSlots_loop fuel' serverId n (i + 1) found.2 marked.1
      else mret ret
  end.

Definition resetSlots (serverId n : Z) : ST PpMaster Z :=
  resetSlots_loop num_blocks serverId n 0 0 0.

(** The first of the two definitions of [set_vector_bits]. *)
Fixpoint store_all (positions : list Z) (vec : list Z) : outcome (list Z) :=
  match positions with
  | [] => Ret vec
  | pos :: rest =>
      _ ← vector_at vec pos;
      store_all rest (<[Z.to_nat pos := 2]> vec)
  end.

Fixpoint set_vector_loop (fuel : nat) (i reset_bits : Z) (vec : list Z) : outcome (list Z) :=
  match fuel with
  | O => Ret vec
  | S fuel' =>
      all ← to_ullong reset_bits;
      block ← shr64 all (i * block_size);
      let found := collect (Z.to_nat block_size) (i * block_size) (-1) 0 block in
      vec' ← store_all found.1 vec;
      set_vector_loop fuel' (i + 1) reset_bits vec'
  end.

Definition set_vector_bits (reset_bits : Z) (vec : list Z) : outcome (list Z) :=
  set_vector_loop num_blocks 0 reset_bits vec.
End Shifts.

(** Standard C++: the oversized shift is undefined. *)
Definition undef_shift (x k : Z) : outcome Z := Undef.
(** An implementation whose oversized shift gives zero. *)
Definition zero_shift (x k : Z) : outcome Z := Ret 0.

(** ** Bits *)

Lemma ctz_pos_nonneg p : 0 ≤ ctz_pos p.
Proof. induction p; simpl; lia. Qed.

Lemma ctzll_nonneg x : 0 ≤ ctzll x.
Proof. destruct x; simpl; [done|apply ctz_pos_nonneg|done]. Qed.

Lemma testbit_double x i : 0 < i → Z.testbit (2 * x) i = Z.testbit x (i - 1).
Proof.
  intros Hi. replace i with (Z.succ (i - 1)) at 1 by lia. apply Z.testbit_even_succ. lia.
Qed.

Lemma testbit_ctz_pos p : Z.testbit (Zpos p) (ctz_pos p) = true.
Proof.
  induction p as [q _|q IH|]; [done| |done]. simpl ctz_pos.
  pose proof (ctz_pos_nonneg q). rewrite (Pos2Z.inj_xO q), testbit_double by lia.
  by replace (Z.succ (ctz_pos q) - 1) with (ctz_pos q) by lia.
Qed.

Lemma land_pred_pos p i : 0 ≤ i →
  Z.testbit (Z.land (Zpos p) (Zpos p - 1)) i = Z.testbit (Zpos p) i && negb (i =? ctz_pos p).
Proof.
  revert i. induction p as [q _|q IH|]; intros i Hi.
  - rewrite Z.land_spec. replace (Zpos q~1 - 1) with (2 * Zpos q) by lia. simpl ctz_pos.
    rewrite (Pos2Z.inj_xI q).
    destruct (Z.eqb_spec i 0) as [->|]; [by rewrite Z.testbit_even_0, !andb_false_r|].
    rewrite andb_true_r. rewrite testbit_double by lia.
    replace i with (Z.succ (i - 1)) at 1 3 by lia. rewrite Z.testbit_odd_succ by lia. by destruct (Z.testbit _ _).
  - simpl ctz_pos. pose proof (ctz_pos_nonneg q).
    destruct (decide (i = 0)) as [->|].
    { rewrite Z.land_spec, (Pos2Z.inj_xO q), Z.testbit_even_0. done. }
    rewrite Z.land_spec. rewrite (Pos2Z.inj_xO q) at 1 3. rewrite testbit_double by lia.
    assert (Z.testbit (Zpos q~0 - 1) i = Z.testbit (Zpos q - 1) (i - 1)) as ->.
    { replace (Zpos q~0 - 1) with (2 * (Zpos q - 1) + 1) by lia.
      replace i with (Z.succ (i - 1)) at 1 by lia. apply Z.testbit_odd_succ. lia. }
    rewrite <-Z.land_spec, IH by lia. f_equal.
    destruct (Z.eqb_spec (i - 1) (ctz_pos q)), (Z.eqb_spec i (Z.succ (ctz_pos q))); (done || lia).
  - rewrite Z.land_spec. simpl ctz_pos. change (1 - 1) with 0. rewrite Z.bits_0, andb_false_r.
    destruct (Z.eqb_spec i 0) as [->|]; [by rewrite andb_false_r|]. rewrite andb_true_r. change 1 with (2 * 0 + 1).
    replace i with (Z.succ (i - 1)) by lia. rewrite Z.testbit_odd_succ by lia. by rewrite Z.bits_0.
Qed.

(** [block &= block - 1] clears the lowest set bit and nothing else. *)
Lemma land_pred x i : 0 < x → 0 ≤ i →
  Z.testbit (Z.land x (x - 1)) i = Z.testbit x i && negb (i =? ctzll x).
Proof. destruct x as [|p|p]; [lia| |lia]. intros _. apply land_pred_pos. Qed.

Lemma testbit_ctzll x : 0 < x → Z.testbit x (ctzll x) = true.
Proof. destruct x as [|p|p]; [lia| |lia]. intros _. apply testbit_ctz_pos. Qed.

Lemma testbit_below_ctz_pos p i : 0 ≤ i < ctz_pos p → Z.testbit (Zpos p) i = false.
Proof.
  revert i. induction p as [q _|q IH|]; simpl ctz_pos; intros i Hi; [lia| |lia].
  rewrite (Pos2Z.inj_xO q). destruct (decide (i = 0)) as [->|]; [apply Z.testbit_even_0|].
  rewrite testbit_double by lia. apply IH. lia.
Qed.

Lemma testbit_below_ctz x i : 0 ≤ i < ctzll x → Z.testbit x i = false.
Proof.
  destruct x as [|p|p]; simpl; intros Hi; [lia| |lia]. by apply testbit_below_ctz_pos.
Qed.

Lemma u64_lnot_testbit m i : 0 ≤ i < 64 → Z.testbit (u64 (Z.lnot m)) i = negb (Z.testbit m i).
Proof. intros Hi. unfold u64, wrapu. rewrite Z.mod_pow2_bits_low, Z.lnot_spec by lia. done. Qed.

Lemma slots_of_put id bits p : slots_of id (put_slots id bits p) = bits.
Proof. unfold slots_of, put_slots. simpl. by rewrite lookup_insert_eq. Qed.

Lemma bool_decide_cons_or (i p : Z) l :
  bool_decide (i ∈ p :: l) = bool_decide (i = p) || bool_decide (i ∈ l).
Proof.
  rewrite <-bool_decide_or. apply bool_decide_ext. apply elem_of_cons.
Qed.

(** [collect] returns distinct set bits, either as many as were asked for or
    all of them; no set bit lies below [64 - fuel]. *)
Lemma collect_spec fuel n c x :
  (fuel ≤ 64)%nat → in_u 64 x → c < n →
  (∀ i, 0 ≤ i < 64 - Z.of_nat fuel → Z.testbit x i = false) →
  let r := collect fuel 0 n c x in
  NoDup r.1 ∧ (∀ p, p ∈ r.1 → 0 ≤ p < 64 ∧ Z.testbit x p = true) ∧ r.2 = c + zlen r.1 ∧
  r.2 ≤ n ∧ (r.2 < n → ∀ i, 0 ≤ i → Z.testbit x i = true → i ∈ r.1).
Proof.
  revert c x. induction fuel as [|fuel IH]; intros c x Hf Hx Hc Hlow; simpl.
  { split; [constructor|]. split; [by intros p Hp%not_elem_of_nil|]. unfold zlen. simpl.
    split; [lia|]. split; [lia|]. intros _ i Hi Hb. exfalso.
    destruct (decide (i < 64)); [rewrite Hlow in Hb by lia; done|].
    rewrite (in_u_testbit 64) in Hb; [done..|lia]. }
  destruct (Z.eqb_spec x 0) as [->|Hx0]; simpl.
  { split; [constructor|]. split; [by intros p Hp%not_elem_of_nil|]. unfold zlen. simpl.
    split; [lia|]. split; [lia|]. intros _ i _. by rewrite Z.bits_0. }
  assert (0 < x) as Hpos by (unfold in_u in Hx; lia).
  pose proof (ctzll_nonneg x) as Hnn. pose proof (testbit_ctzll x Hpos) as Hbit.
  assert (ctzll x < 64) as Hlt.
  { destruct (decide (ctzll x < 64)); [done|]. rewrite (in_u_testbit 64) in Hbit; [done..|lia]. }
  assert (63 - Z.of_nat fuel ≤ ctzll x) as Hge.
  { destruct (decide (63 - Z.of_nat fuel ≤ ctzll x)); [done|].
    rewrite Hlow in Hbit by lia. done. }
  destruct (Z.eqb_spec (c + 1) n) as [Hn|Hn]; simpl.
  { split; [apply NoDup_singleton|]. split; [intros p ->%list_elem_of_singleton; by split|].
    unfold zlen. simpl. split; [done|]. split; [lia|]. intros. lia. }
  assert (∀ i, 0 ≤ i → Z.testbit (Z.land x (x - 1)) i =
    Z.testbit x i && negb (i =? ctzll x)) as Hland by (intros; by apply land_pred).
  specialize (IH (c + 1) (Z.land x (x - 1))).
  destruct (collect fuel 0 n (c + 1) (Z.land x (x - 1))) as [l c']. simpl in IH. simpl.
  destruct IH as (Hnd & Hin & Hcnt & Hle & Hall); [lia| |lia| |].
  - apply testbit_in_u; [done|apply Z.land_nonneg; lia|]. intros i Hi.
    rewrite Hland by lia. by rewrite (in_u_testbit 64) by done.
  - intros i Hi. rewrite Hland by lia. destruct (Z.eqb_spec i (ctzll x)); [by rewrite andb_false_r|].
    destruct (decide (i < 63 - Z.of_nat fuel)); [rewrite Hlow by lia; done|].
    assert (Z.testbit x i = false) as ->; [|done].
    apply testbit_below_ctz. lia.
  - split; [|split; [|split; [|split]]].
    + constructor; [|done]. intros [_ Hb]%Hin. rewrite Hland, Z.eqb_refl, andb_false_r in Hb by done. done.
    + intros p [->|Hp]%elem_of_cons; [done|]. apply Hin in Hp as [Hp Hb].
      rewrite Hland in Hb by lia. apply andb_prop in Hb as [-> _]. done.
    + rewrite Hcnt. unfold zlen. simpl. lia.
    + done.
    + intros Hlt' i Hi Hb. destruct (decide (i = ctzll x)) as [->|]; [left|right].
      apply Hall; [done|done|]. rewrite Hland, Hb by done. by destruct (Z.eqb_spec i (ctzll x)).
Qed.

(** [mark] sets the positions in [ret] and clears them in [mask]. *)
Lemma mark_spec over l ret mask :
  (∀ p, p ∈ l → 0 ≤ p < 64) → ∃ ret' mask', mark over l ret mask = Ret (ret', mask') ∧
    (∀ i, 0 ≤ i → Z.testbit ret' i = Z.testbit ret i || bool_decide (i ∈ l)) ∧
    (∀ i, 0 ≤ i < 64 → Z.testbit mask' i = Z.testbit mask i && negb (bool_decide (i ∈ l))) ∧
    (in_u 64 mask → in_u 64 mask') ∧ (0 ≤ ret → 0 ≤ ret').
Proof.
  revert ret mask. induction l as [|p l IH]; intros ret mask Hl.
  { exists ret, mask. split; [done|]. split; [|split; [|by split]]; intros i Hi.
    - by rewrite bool_decide_eq_false_2, orb_false_r by apply not_elem_of_nil.
    - by rewrite bool_decide_eq_false_2, andb_true_r by apply not_elem_of_nil. }
  assert (0 ≤ p < 64) as Hp by (apply Hl; left). simpl. unfold SLOTS_NUM, shl64.
  rewrite (proj2 (Z.ltb_lt p 16384)) by lia. simpl.
  rewrite (proj2 (Z.leb_le 0 p)), (proj2 (Z.ltb_lt p 64)) by lia. simpl.
  destruct (IH (Z.setbit ret p) (Z.land mask (u64 (Z.lnot (u64 (Z.shiftl 1 p))))))
    as (ret' & mask' & Hm & Hr & Hk & Hu & Hnn); [intros q Hq; apply Hl; by right|].
  exists ret', mask'. split; [done|]. split; [|split; [|split]].
  - intros i Hi. rewrite Hr, Z.setbit_eqb by lia. rewrite bool_decide_cons_or.
    destruct (Z.eqb_spec p i) as [->|]; simpl.
    + rewrite (bool_decide_eq_true_2 (i = i)) by done. by rewrite orb_true_r.
    + rewrite (bool_decide_eq_false_2 (i = p)) by congruence. done.
  - intros i Hi. rewrite Hk, Z.land_spec, u64_lnot_testbit by lia. rewrite bool_decide_cons_or.
    assert (Z.testbit (u64 (Z.shiftl 1 p)) i = bool_decide (i = p)) as ->.
    { unfold u64, wrapu. rewrite Z.mod_pow2_bits_low, Z.shiftl_spec by lia.
      destruct (decide (i = p)) as [->|]; [by rewrite Z.sub_diag, bool_decide_eq_true_2|].
      rewrite bool_decide_eq_false_2 by done. change 1 with (2 ^ 0). apply Z.pow2_bits_false. lia. }
    rewrite negb_orb, andb_assoc. done.
  - intros Hmask. apply Hu. apply testbit_in_u; [done|apply Z.land_nonneg; unfold in_u in *; lia|].
    intros i Hi. by rewrite Z.land_spec, (in_u_testbit 64 mask).
  - intros Hret. apply Hnn. unfold Z.setbit. apply Z.lor_nonneg. split; [done|].
    apply Z.shiftl_nonneg. lia.
Qed.

Lemma bits_inj_nonneg a b : (∀ i, 0 ≤ i → Z.testbit a i = Z.testbit b i) → a = b.
Proof.
  intros H. apply Z.bits_inj'. exact H.
Qed.

(** One block holds everything asked for: the loop stops after block 0 with
    the found positions in [ret] and only those left in the server's set. *)
Lemma resetSlots_first_block shr_over serverId n p :
  0 < n → in_u 64 (slots_of serverId p) →
  let found := collect 64 0 n 0 (slots_of serverId p) in found.2 = n →
  ∃ ret p', resetSlots zero_shift shr_over serverId n p = (Ret ret, p') ∧
    slots_of serverId p' = ret ∧ (∀ i, 0 ≤ i → Z.testbit ret i = bool_decide (i ∈ found.1)).
Proof.
  intros Hn HS found Hfound. set (S := slots_of serverId p) in *.
  destruct (collect_spec 64 n 0 S) as (Hnd & Hin & _); [lia|done|lia|intros; lia|].
  fold found in Hnd, Hin.
  destruct (mark_spec zero_shift found.1 0 (u64 (0 - 1))) as (ret & mask & Hm & Hr & Hk & Hu & Hnn).
  { intros q Hq. by apply Hin. }
  exists ret. unfold resetSlots. change num_blocks with (Datatypes.S 255).
  assert (Hloop : ∀ fuel q, resetSlots_loop zero_shift shr_over fuel serverId n 1 n ret q = (Ret ret, q)).
  { intros [|fuel] q; cbn [resetSlots_loop]; [done|]. by rewrite Z.ltb_irrefl. }
  generalize 255%nat as fuel. intros fuel.
  cbn [resetSlots_loop]. rewrite (proj2 (Z.ltb_lt 0 n)) by done.
  unfold mbind, ST_bind, st_modify, st_get, lift. rewrite slots_of_put. fold S.
  unfold to_ullong. rewrite (proj2 (Z.ltb_lt S _)) by apply HS.
  change (shr64 shr_over S (0 * block_size)) with (Ret (Z.shiftr S 0)). rewrite Z.shiftr_0_r.
  change (shl64 zero_shift 1 block_size) with (@Ret Z 0).
  change (Z.to_nat block_size) with 64%nat. change (0 * block_size) with 0. fold found.
  cbv iota beta. rewrite Hm, Hfound. cbn [fst snd].
  assert (in_u 64 mask) as Hmask by (apply Hu; by apply wrapu_range).
  change (shl64 zero_shift mask 0) with (Ret (u64 (Z.shiftl mask 0))).
  rewrite Z.shiftl_0_r. assert (u64 mask = mask) as -> by by apply wrapu_small.
  cbv iota beta.
  rewrite Hloop. eexists. split; [done|]. rewrite !slots_of_put. fold S.
  assert (∀ i, 0 ≤ i → Z.testbit ret i = bool_decide (i ∈ found.1)) as Hret.
  { intros i Hi. rewrite Hr by done. by rewrite Z.bits_0. }
  split; [|done]. apply bits_inj_nonneg. intros i Hi. rewrite Hret, Z.land_spec by done.
  destruct (decide (i < 64)).
  - rewrite u64_lnot_testbit, Hk by lia. unfold u64, wrapu. change ((0 - 1) mod 2 ^ 64) with (Z.ones 64).
    rewrite Z.ones_spec_low by lia. simpl. rewrite negb_involutive.
    case_bool_decide as Hi'; [by rewrite (proj2 (Hin i Hi'))|by rewrite andb_false_r].
  - rewrite (in_u_testbit 64 S) by (done || lia). simpl.
    rewrite bool_decide_eq_false_2; [done|]. intros Hi'%Hin. lia.
Qed.

(** ** Properties *)

(** C3: A client request that starts with a valid five-digit slot is answered
    with the text of the address of the slot's server, the default address
    [0.0.0.0:0] when that server has none; a prefix that is no number throws
    without touching the master, and a slot beyond the table, which the
    server-side check left to the client would refuse, reads out of bounds.
    The shared lock is released whenever a reply is returned. *)
Theorem client_request_redirects (e : endian) `{InetText, !InetTextLaws} (p : PpMaster)
    (slot : Z) (rest : bytes) :
  map_Forall (λ _, inet_wf) (idToAddr_ p) → 0 ≤ slot < 10 ^ 5 →
  (∀ id, slotsToId_ p !! Z.to_nat slot = Some id →
    let addr := default (InetAddress_any e 0 false false) (idToAddr_ p !! id) in
    ∃ ip p', handle_client_request e (dec_w 5 slot ++ rest) p = (Ret ip, p') ∧
      toIpPort e addr = Ret ip ∧ p' = set_addrs (<[id := addr]> (idToAddr_ p)) p) ∧
  (slotsToId_ p !! Z.to_nat slot = None →
    (handle_client_request e (dec_w 5 slot ++ rest) p).1 = Undef) ∧
  (∀ mes ex, stoi (ztake 5 mes) = Throw ex → handle_client_request e mes p = (Throw ex, p)).
Proof.
  intros Hwf Hslot.
  assert (substr (dec_w 5 slot ++ rest) 0 5 = Ret (dec_w 5 slot)) as Hsub.
  { unfold substr. rewrite (proj2 (Z.leb_le _ _)) by (pose proof (zlen_nonneg (dec_w 5 slot ++ rest)); lia).
    f_equal. }
  assert (stoi (dec_w 5 slot) = Ret slot) as Hst by (apply stoi_dec_w; simpl in *; lia).
  unfold handle_client_request, mbind, ST_bind, lift, st_modify, st_get, st_put, vector_at.
  rewrite Hsub, Hst, (proj2 (Z.leb_le 0 slot)) by lia. cbn [slotsToId_ set_holds]. split; [|split].
  - intros id Hid. rewrite Hid. cbn [or_undef from_option idToAddr_ set_holds].
    set (addr := default _ (idToAddr_ p !! id)).
    assert (inet_wf addr) as Ha.
    { unfold addr. destruct (idToAddr_ p !! id) as [a|] eqn:E; simpl; [by eapply Hwf|].
      apply (InetAddress_any_wf e 0 false false). unfold in_u. lia. }
    pose proof (toIpPort_wf e addr Ha) as Hip. rewrite Hip. eexists _, _. split; [done|]. split; [done|]. by destruct p.
  - intros Hn. rewrite Hn. done.
  - intros mes ex Hex. unfold substr. rewrite (proj2 (Z.leb_le 0 _)) by apply zlen_nonneg.
    change (zdrop 0 mes) with mes. by rewrite Hex.
Qed.

Definition demo_master : PpMaster := MkMaster (<[3 := loopback80]> ∅) ∅ [3; 4] 0.

Lemma client_request_redirects_witness :
  (∀ id, slotsToId_ demo_master !! Z.to_nat 1 = Some id →
    let addr := default (InetAddress_any LittleEndian 0 false false) (idToAddr_ demo_master !! id) in
    ∃ ip p', @handle_client_request LittleEndian nib_inet (dec_w 5 1 ++ s!"GET") demo_master = (Ret ip, p') ∧
      @toIpPort LittleEndian nib_inet addr = Ret ip ∧
      p' = set_addrs (<[id := addr]> (idToAddr_ demo_master)) demo_master) ∧
  (slotsToId_ demo_master !! Z.to_nat 1 = None →
    (@handle_client_request LittleEndian nib_inet (dec_w 5 1 ++ s!"GET") demo_master).1 = Undef) ∧
  (∀ mes ex, stoi (ztake 5 mes) = Throw ex →
    @handle_client_request LittleEndian nib_inet mes demo_master = (Throw ex, demo_master)).
Proof.
  apply (@client_request_redirects LittleEndian nib_inet nib_laws demo_master 1 s!"GET"); [|lia].
  apply map_Forall_insert_2; [apply loopback80_wf|apply map_Forall_empty].
Defined.

(** C4: [rangeSetSlots] adds exactly the slots of [start, end) for ranges
    below slot 31; a range of 31 slots or more, or one that starts at slot 32
    or later, is undefined although the table has 16384 slots. *)
Theorem rangeSetSlots_exact (p : PpMaster) (serverId start end_ : Z) :
  0 ≤ start ≤ end_ → end_ ≤ SLOTS_NUM →
  (end_ ≤ 31 → end_ - start ≤ 30 →
    ∃ p', rangeSetSlots serverId start end_ p = (Ret (), p') ∧
      ∀ i, 0 ≤ i → Z.testbit (slots_of serverId p') i =
        Z.testbit (slots_of serverId p) i || (start <=? i) && (i <? end_)) ∧
  (31 ≤ end_ - start ∨ 32 ≤ start → (rangeSetSlots serverId start end_ p).1 = Undef).
Proof.
  intros Hs He. unfold SLOTS_NUM in He. set (w := end_ - start).
  unfold rangeSetSlots, mbind, ST_bind, lift, st_modify.
  assert (sub_int end_ start = Ret w) as ->.
  { unfold sub_int. rewrite (proj2 (in_sb_spec _ _)); [done|]. unfold in_s. lia. }
  split.
  - intros He31 Hw. assert (0 ≤ w ≤ 30) as Hw' by lia.
    assert (2 ^ w ≤ 2 ^ 30) as Hpw by (apply Z.pow_le_mono_r; lia).
    assert (0 < 2 ^ w) as Hpw0 by (apply Z.pow_pos_nonneg; lia).
    assert (2 ^ w * 2 ^ start = 2 ^ end_) as Hend by (unfold w; rewrite <-Z.pow_add_r by lia; f_equal; lia).
    assert (2 ^ end_ ≤ 2 ^ 31) as Hpe by (apply Z.pow_le_mono_r; lia).
    assert (0 < 2 ^ start) as Hps by (apply Z.pow_pos_nonneg; lia).
    assert (shl_int 1 w = Ret (2 ^ w)) as ->.
    { unfold shl_int. rewrite (proj2 (Z.leb_le 0 w)), (proj2 (Z.ltb_lt w 32)) by lia. simpl andb.
      rewrite Z.mul_1_l. rewrite (proj2 (Z.ltb_lt _ _)) by lia. f_equal.
      apply wraps_small; [done|]. unfold in_s. lia. }
    assert (sub_int (2 ^ w) 1 = Ret (2 ^ w - 1)) as ->.
    { unfold sub_int. rewrite (proj2 (in_sb_spec _ _)); [done|]. unfold in_s. lia. }
    assert (shl_int (2 ^ w - 1) start = Ret ((2 ^ w - 1) * 2 ^ start)) as ->.
    { unfold shl_int. rewrite !(proj2 (Z.leb_le 0 _)) by lia.
      rewrite !(proj2 (Z.ltb_lt _ _)) by nia. f_equal. apply wraps_small; [done|]. unfold in_s. nia. }
    eexists. split; [done|]. intros i Hi. rewrite slots_of_put, Z.lor_spec. f_equal.
    unfold u64. rewrite wrapu_small by (unfold in_u; nia).
    rewrite <-Z.shiftl_mul_pow2, Z.shiftl_spec by lia.
    assert (2 ^ w - 1 = Z.ones w) as -> by (rewrite Z.ones_equiv; lia).
    rewrite Z.testbit_ones by lia. unfold w.
    apply eq_true_iff_eq. rewrite !andb_true_iff, !Z.leb_le, !Z.ltb_lt. lia.
  - intros Hbig. unfold shl_int at 1.
    destruct (decide (w < 32)) as [Hw|Hw].
    2:{ rewrite (proj2 (Z.ltb_ge w 32)) by lia. by rewrite andb_false_r. }
    rewrite (proj2 (Z.leb_le 0 w)), (proj2 (Z.ltb_lt w 32)) by lia. simpl andb. rewrite Z.mul_1_l.
    assert (2 ^ w ≤ 2 ^ 31) as Hpw by (apply Z.pow_le_mono_r; lia).
    assert (0 < 2 ^ w) as Hpw0 by (apply Z.pow_pos_nonneg; lia).
    rewrite (proj2 (Z.ltb_lt (2 ^ w) _)) by lia.
    destruct (decide (w = 31)) as [->|Hw31]; [done|].
    assert (2 ^ w ≤ 2 ^ 30) as Hpw' by (apply Z.pow_le_mono_r; lia).
    unfold i32. rewrite wraps_small by (unfold in_s; lia).
    assert (sub_int (2 ^ w) 1 = Ret (2 ^ w - 1)) as ->.
    { unfold sub_int. rewrite (proj2 (in_sb_spec _ _)); [done|]. unfold in_s. lia. }
    unfold shl_int. rewrite (proj2 (Z.ltb_ge start 32)) by lia. by rewrite andb_false_r.
Qed.

Lemma rangeSetSlots_exact_witness :
  (7 ≤ 31 → 7 - 4 ≤ 30 →
    ∃ p', rangeSetSlots 3 4 7 demo_master = (Ret (), p') ∧
      ∀ i, 0 ≤ i → Z.testbit (slots_of 3 p') i =
        Z.testbit (slots_of 3 demo_master) i || (4 <=? i) && (i <? 7)) ∧
  (31 ≤ 7 - 4 ∨ 32 ≤ 4 → (rangeSetSlots 3 4 7 demo_master).1 = Undef).
Proof. apply (rangeSetSlots_exact demo_master 3 4 7); [lia|unfold SLOTS_NUM; lia]. Defined.

(** A range that ends at slot 32 sets slots 32 to 63 as well: the mask's sign
    bit is extended to 64 bits. *)
Example rangeSetSlots_sign_extends :
  slots_of 3 (rangeSetSlots 3 30 32 demo_master).2 = Z.shiftl (Z.ones 34) 30.
Proof. reflexivity. Qed.

(** In standard C++ [resetSlots] never returns for a positive count: it
    throws [overflow_error] when the server owns a slot from 64 on, and
    otherwise shifts a 64-bit one by 64. *)
Theorem resetSlots_never_returns (p : PpMaster) (serverId n : Z) :
  0 < n → (resetSlots undef_shift undef_shift serverId n p).1 =
    if slots_of serverId p <? 2 ^ 64 then Undef else Throw overflow_error.
Proof.
  intros Hn. unfold resetSlots. change num_blocks with (Datatypes.S 255).
  generalize 255%nat as fuel. intros fuel. cbn [resetSlots_loop].
  rewrite (proj2 (Z.ltb_lt 0 n)) by done.
  unfold mbind, ST_bind, st_modify, st_get, lift. rewrite slots_of_put. unfold to_ullong.
  case_if; [|done].
  change (shr64 undef_shift (slots_of serverId p) (0 * block_size))
    with (Ret (Z.shiftr (slots_of serverId p) 0)). done.
Qed.

Lemma resetSlots_never_returns_witness :
  0 < 2 ∧ (resetSlots undef_shift undef_shift 3 2 demo_master).1 =
    if slots_of 3 demo_master <? 2 ^ 64 then Undef else Throw overflow_error.
Proof. split; [lia|]. apply (resetSlots_never_returns demo_master 3 2). lia. Defined.

(** Where a 64-bit shift by 64 gives zero, [resetSlots] of [n] slots from a
    server owning at least [n] slots, all below 64, reports [n] of the owned
    slots but inverts the update: the reported slots are the only ones the
    server keeps. *)
Theorem resetSlots_keeps_what_it_reports (p : PpMaster) (serverId n : Z) (owned : list Z)
    (shr_over : Z → Z → outcome Z) :
  0 < n ≤ zlen owned → NoDup owned →
  (∀ s, s ∈ owned → 0 ≤ s ∧ Z.testbit (slots_of serverId p) s = true) →
  in_u 64 (slots_of serverId p) →
  ∃ ret given p', resetSlots zero_shift shr_over serverId n p = (Ret ret, p') ∧
    NoDup given ∧ zlen given = n ∧
    (∀ s, s ∈ given → Z.testbit (slots_of serverId p) s = true) ∧
    (∀ s, 0 ≤ s → Z.testbit ret s = bool_decide (s ∈ given)) ∧
    slots_of serverId p' = ret.
Proof.
  intros Hn Hnd Hown HS.
  pose proof (collect_spec 64 n 0 (slots_of serverId p) ltac:(lia) HS ltac:(lia) ltac:(lia)) as Hc.
  pose proof (resetSlots_first_block shr_over serverId n p ltac:(lia) HS) as Hfirst.
  destruct (collect 64 0 n 0 (slots_of serverId p)) as [l c]. cbn [fst snd] in Hc, Hfirst.
  destruct Hc as (Hnd' & Hin & Hcnt & Hle & Hall).
  assert (c = n) as Hfound.
  { destruct (decide (c < n)) as [Hlt|]; [exfalso|lia].
    assert (owned ⊆+ l) as Hsub.
    { apply NoDup_submseteq; [done|]. intros s [Hs Hb]%Hown. by apply Hall. }
    apply submseteq_length in Hsub. unfold zlen in *. lia. }
  destruct (Hfirst Hfound) as (ret & p' & Hr & Hp' & Hbits).
  exists ret, l, p'. split; [done|]. split; [done|]. split; [lia|].
  split; [by intros s [_ Hs]%Hin|]. by split.
Qed.

Definition demo_slots : PpMaster := put_slots 3 22 demo_master.

Lemma resetSlots_keeps_what_it_reports_witness :
  ∃ ret given p', resetSlots zero_shift undef_shift 3 2 demo_slots = (Ret ret, p') ∧
    NoDup given ∧ zlen given = 2 ∧
    (∀ s, s ∈ given → Z.testbit (slots_of 3 demo_slots) s = true) ∧
    (∀ s, 0 ≤ s → Z.testbit ret s = bool_decide (s ∈ given)) ∧
    slots_of 3 p' = ret.
Proof.
  apply (resetSlots_keeps_what_it_reports demo_slots 3 2 [1; 2; 4]).
  - split; [lia|vm_compute; discriminate].
  - apply (bool_decide_unpack _). vm_compute. exact I.
  - intros s Hs. repeat (apply elem_of_cons in Hs as [->|Hs]; [split; [lia|reflexivity]|]).
    by apply not_elem_of_nil in Hs.
  - split; [discriminate|reflexivity].
Defined.

(** [set_vector_bits] has no defined run either: it processes all 256 blocks
    and shifts by 64 in the second. *)
Lemma set_vector_loop_S over fuel i reset_bits vec :
  set_vector_loop over (S fuel) i reset_bits vec =
    (all ← to_ullong reset_bits;
     block ← shr64 over all (i * block_size);
     vec' ← store_all (collect (Z.to_nat block_size) (i * block_size) (-1) 0 block).1 vec;
     set_vector_loop over fuel (i + 1) reset_bits vec').
Proof. reflexivity. Qed.

Lemma set_vector_loop_second fuel reset_bits vec vec' :
  set_vector_loop undef_shift (S fuel) 1 reset_bits vec ≠ Ret vec'.
Proof.
  rewrite set_vector_loop_S. intros (x & _ & H)%outcome_bind_Ret.
  apply outcome_bind_Ret in H as (block & H & _). discriminate H.
Qed.

Lemma set_vector_loop_never fuel reset_bits vec vec' :
  set_vector_loop undef_shift (S (S fuel)) 0 reset_bits vec ≠ Ret vec'.
Proof.
  rewrite set_vector_loop_S. intros (x & _ & H)%outcome_bind_Ret.
  apply outcome_bind_Ret in H as (block & _ & H).
  apply outcome_bind_Ret in H as (v & _ & H). by apply set_vector_loop_second in H.
Qed.

Lemma set_vector_bits_never_returns reset_bits vec vec' :
  set_vector_bits undef_shift reset_bits vec ≠ Ret vec'.
Proof. exact (set_vector_loop_never 254 reset_bits vec vec'). Qed.
