(* ===== verification/RWLock.v ===== *)
(** * The reader-writer lock [RWLock] (master/RWLock.h)

    [RWLock] wraps [std::shared_mutex] with a mutex [m], a [has_writer] flag
    and condition variables.  Threads interleave at their blocking points: a
    thread's [pc] says where in which member it is, and [rw_step] is one move
    of one thread.  The body between two blocking points runs under [m], so it
    is one step.  A wait on [cv_readers] may end at any time, by a notification
    or spuriously. *)
From stdpp Require Import functions relations.
From S2P Require Import Prelude.

Inductive pc :=
  | Idle
  | LockM      (* lock(): waiting for m *)
  | LockS      (* lock(): holds m, in std::shared_mutex::lock() *)
  | Writing    (* lock() returned *)
  | UnlockM    (* unlock(): waiting for m *)
  | SharedM    (* lock_shared(): waiting for m *)
  | SharedCv   (* lock_shared(): in cv_readers.wait, m released *)
  | SharedS    (* lock_shared(): holds m, in std::shared_mutex::lock_shared() *)
  | Reading.   (* lock_shared() returned *)

#[export] Instance pc_eq_dec : EqDecision pc.
Proof. solve_decision. Defined.

(** The members, and the state of the base [std::shared_mutex]: its exclusive
    owner and its shared owners. *)
Record RWLock := MkLock {
  pcs : nat → pc;
  m : option nat;
  has_writer : bool;
  owner : option nat;
  sharers : gset nat;
}.

Definition rw_init : RWLock := MkLock (λ _, Idle) None false None ∅.

Definition at_pc (t : nat) (p : pc) (s : RWLock) : nat → pc := <[t := p]> (pcs s).

(** ** The members, one move of thread [t] at a time *)

Definition lock_call t s := MkLock (at_pc t LockM s) (m s) (has_writer s) (owner s) (sharers s).
(** [unique_lock lock(m); has_writer = true; cv_writers.notify_all();] *)
Definition lock_enter t s := MkLock (at_pc t LockS s) (Some t) true (owner s) (sharers s).
(** [std::shared_mutex::lock()] returns; [m] is released. *)
Definition lock_done t s := MkLock (at_pc t Writing s) None (has_writer s) (Some t) (sharers s).

Definition unlock_call t s := MkLock (at_pc t UnlockM s) (m s) (has_writer s) (owner s) (sharers s).
Definition unlock_body t s := MkLock (at_pc t Idle s) None false None (sharers s).

Definition lock_shared_call t s :=
  MkLock (at_pc t SharedM s) (m s) (has_writer s) (owner s) (sharers s).
(** The wait's predicate, evaluated under [m]. *)
Definition lock_shared_check t s :=
  if has_writer s
  then MkLock (at_pc t SharedCv s) None (has_writer s) (owner s) (sharers s)
  else MkLock (at_pc t SharedS s) (Some t) (has_writer s) (owner s) (sharers s).
Definition lock_shared_wake t s :=
  MkLock (at_pc t SharedM s) (m s) (has_writer s) (owner s) (sharers s).
Definition lock_shared_done t s :=
  MkLock (at_pc t Reading s) None (has_writer s) (owner s) ({[t]} ∪ sharers s).

Definition unlock_shared t s :=
  MkLock (at_pc t Idle s) (m s) (has_writer s) (owner s) (sharers s ∖ {[t]}).

Inductive rw_step : RWLock → RWLock → Prop :=
  | step_lock_call t s : pcs s t = Idle → rw_step s (lock_call t s)
  | step_lock_enter t s : pcs s t = LockM → m s = None → rw_step s (lock_enter t s)
  | step_lock_done t s :
      pcs s t = LockS → owner s = None → sharers s = ∅ → rw_step s (lock_done t s)
  | step_unlock_call t s : pcs s t = Writing → rw_step s (unlock_call t s)
  | step_unlock_body t s : pcs s t = UnlockM → m s = None → rw_step s (unlock_body t s)
  | step_lock_shared_call t s : pcs s t = Idle → rw_step s (lock_shared_call t s)
  | step_lock_shared_check t s :
      pcs s t = SharedM → m s = None → rw_step s (lock_shared_check t s)
  | step_lock_shared_wake t s : pcs s t = SharedCv → rw_step s (lock_shared_wake t s)
  | step_lock_shared_done t s :
      pcs s t = SharedS → owner s = None → rw_step s (lock_shared_done t s)
  | step_unlock_shared t s : pcs s t = Reading → rw_step s (unlock_shared t s).

Definition rw_reachable (s : RWLock) : Prop := rtc rw_step rw_init s.

(** ** Invariant *)

Definition exclusive (p : pc) : bool := match p with Writing | UnlockM => true | _ => false end.
Definition in_m (p : pc) : bool := match p with LockS | SharedS => true | _ => false end.

Record rw_inv (s : RWLock) : Prop := {
  inv_m t : m s = Some t ↔ in_m (pcs s t) = true;
  inv_owner t : owner s = Some t ↔ exclusive (pcs s t) = true;
  inv_sharers t : t ∈ sharers s ↔ pcs s t = Reading;
  inv_excl t : owner s = Some t → sharers s = ∅;
}.

Lemma at_pc_eq t p s : at_pc t p s t = p.
Proof. unfold at_pc. by rewrite fn_lookup_insert. Qed.
Lemma at_pc_ne t t' p s : t ≠ t' → at_pc t p s t' = pcs s t'.
Proof. intros. unfold at_pc. by rewrite fn_lookup_insert_ne. Qed.

(** The thread that moves, and the others. *)
Ltac rw_thread t t' :=
  destruct (decide (t = t')) as [->|];
  [rewrite ?at_pc_eq in *|rewrite ?at_pc_ne in * by done].

Lemma rw_init_inv : rw_inv rw_init.
Proof. split; simpl; intros; (done || set_solver). Qed.

Lemma rw_step_inv s s' : rw_step s s' → rw_inv s → rw_inv s'.
Proof.
  intros Hst [Hm Ho Hr Hx].
  destruct Hst as [t s Hp|t s Hp Hn|t s Hp Hn He|t s Hp|t s Hp Hn|t s Hp|t s Hp Hn|t s Hp|t s Hp Hn|t s Hp];
    pose proof (Hm t) as Hmt; pose proof (Ho t) as Hot; pose proof (Hr t) as Hrt; rewrite Hp in *.
  7: unfold lock_shared_check; destruct (has_writer s).
  all: split; simpl in *; intros t'; rw_thread t t'; simpl;
    pose proof (Hm t') as Hmt'; pose proof (Ho t') as Hot'; pose proof (Hr t') as Hrt';
    try (specialize (Hx t')); try rewrite Hn in *; try rewrite He in *.
  all: try (split; intros; (done || congruence || set_solver)).
  all: try (intros; (done || congruence || set_solver)).
Qed.

Lemma rw_steps_inv s s' : rtc rw_step s s' → rw_inv s → rw_inv s'.
Proof.
  induction 1 as [|a b c Hab _ IH]; [done|]. intros Ha. apply IH. by apply (rw_step_inv a).
Qed.

Lemma rw_reachable_inv s : rw_reachable s → rw_inv s.
Proof. intros H. eapply rw_steps_inv; [apply H|apply rw_init_inv]. Qed.

(** ** The deadlock of two writers

    While one writer is inside, the next one enters [lock()], takes [m] and
    waits for the shared mutex without releasing [m]; the first one's
    [unlock()] waits for [m]. *)
Definition writers_stuck (a b : nat) (s : RWLock) : Prop :=
  pcs s a = UnlockM ∧ pcs s b = LockS ∧ m s = Some b ∧ owner s = Some a.

Lemma writers_stuck_step a b s s' :
  a ≠ b → rw_step s s' → rw_inv s → writers_stuck a b s → writers_stuck a b s'.
Proof.
  intros Hab Hst Hinv (Ha & Hb & Hm & Ho).
  assert (∀ t p, pcs s t ≠ UnlockM → pcs s t ≠ LockS → at_pc t p s a = UnlockM ∧ at_pc t p s b = LockS)
    as Hother.
  { intros t p H1 H2. rewrite !at_pc_ne; [done|congruence..]. }
  destruct Hst as [t s Hp|t s Hp Hn|t s Hp Hn He|t s Hp|t s Hp Hn|t s Hp|t s Hp Hn|t s Hp|t s Hp Hn|t s Hp];
    try congruence;
    destruct (Hother t Idle); try congruence;
    (split; [apply Hother; congruence|split; [apply Hother; congruence|by split]]).
Qed.

Lemma writers_stuck_forever a b s s' :
  a ≠ b → rtc rw_step s s' → rw_inv s → writers_stuck a b s → writers_stuck a b s'.
Proof.
  intros Hab. induction 1 as [|x y z Hxy _ IH]; [done|]. intros Hi Hs.
  apply IH; [by apply (rw_step_inv x)|by apply (writers_stuck_step a b x)].
Qed.

(** ** Properties *)

(** C26: Mutual exclusion: in every interleaving, while a thread is between the
    return of [lock()] and the end of [unlock()], no other thread is, and no
    thread holds the lock shared. *)
Theorem rwlock_mutual_exclusion (s : RWLock) (t t' : nat) :
  rw_reachable s → exclusive (pcs s t) = true → t' ≠ t →
  exclusive (pcs s t') = false ∧ pcs s t' ≠ Reading ∧ pcs s t ≠ Reading.
Proof.
  intros Hr Ht Hne. destruct (rw_reachable_inv s Hr) as [Hm Ho Hs Hx].
  pose proof (proj2 (Ho t) Ht) as Hot. split; [|split].
  - apply not_true_is_false. intros Ht'%Ho. congruence.
  - intros Hread%Hs. rewrite (Hx _ Hot) in Hread. set_solver.
  - intros Hread. by rewrite Hread in Ht.
Qed.

Definition one_writer : RWLock := lock_done 0 (lock_enter 0 (lock_call 0 rw_init)).

Lemma one_writer_reachable : rw_reachable one_writer.
Proof.
  eapply rtc_l; [by apply (step_lock_call 0)|]. eapply rtc_l; [by apply (step_lock_enter 0)|].
  eapply rtc_l; [by apply (step_lock_done 0)|]. apply rtc_refl.
Qed.

Lemma rwlock_mutual_exclusion_witness :
  exclusive (pcs one_writer 1) = false ∧ pcs one_writer 1 ≠ Reading ∧ pcs one_writer 0 ≠ Reading.
Proof.
  apply (rwlock_mutual_exclusion one_writer 0 1); [apply one_writer_reachable|reflexivity|done].
Defined.

(** A second writer deadlocks the lock: a state is reachable in which
    writer 0 waits in [unlock()] for [m], writer 1 waits in [lock()] holding
    [m], and whatever any thread does from there, both stay there and no
    thread enters the lock again. *)
Theorem rwlock_two_writers_deadlock :
  ∃ s, rw_reachable s ∧ pcs s 0 = UnlockM ∧ pcs s 1 = LockS ∧
    ∀ s', rtc rw_step s s' → pcs s' 0 = UnlockM ∧ pcs s' 1 = LockS ∧ m s' = Some 1 ∧
      ∀ t, exclusive (pcs s' t) = true ∨ pcs s' t = Reading → t = 0.
Proof.
  exists (unlock_call 0 (lock_enter 1 (lock_call 1 one_writer))).
  assert (rw_reachable (unlock_call 0 (lock_enter 1 (lock_call 1 one_writer)))) as Hr.
  { unfold rw_reachable. etrans; [apply one_writer_reachable|].
    eapply rtc_l; [by apply (step_lock_call 1)|]. eapply rtc_l; [by apply (step_lock_enter 1)|].
    eapply rtc_l; [by apply (step_unlock_call 0)|]. apply rtc_refl. }
  split; [done|]. split; [done|]. split; [done|]. intros s' Hs.
  destruct (writers_stuck_forever 0 1 _ s' ltac:(lia) Hs) as (Ha & Hb & Hm & Ho);
    [by apply rw_reachable_inv|done|].
  split; [done|]. split; [done|]. split; [done|]. intros t Ht.
  assert (rw_inv s') as [Him Hio His Hix].
  { apply rw_reachable_inv. unfold rw_reachable. by etrans; [apply Hr|]. }
  destruct Ht as [Ht%Hio|Ht%His]; [congruence|]. rewrite (Hix 0 Ho) in Ht. set_solver.
Qed.
