(* ===== verification/HttpContext.v ===== *)
(** * The HTTP request parser (master/net/http/HttpRequest.h, HttpContext.h, HttpContext.cc)

    The parser is a state machine fed from the connection's [Buffer]: each turn
    of its loop takes one line, or leaves an incomplete one for the next call.
    [parseRequest] runs on the modelled [Buffer]; [parse_content] is the same
    loop on the readable bytes alone, and the first group of lemmas shows that
    the two agree.  [isspace] is that of the C locale. *)
From S2P Require Import Prelude CxxString StdContainers Buffer.
Local Open Scope Z_scope.

Inductive Method := kInvalid | kGet | kPost | kHead | kPut | kDelete.
Inductive Version := kUnknown | kHttp10 | kHttp11.

#[export] Instance Method_eq_dec : EqDecision Method.
Proof. solve_decision. Defined.
#[export] Instance Version_eq_dec : EqDecision Version.
Proof. solve_decision. Defined.

Record HttpRequest := MkRequest {
  method_ : Method;
  version_ : Version;
  path_ : bytes;
  query_ : bytes;
  receiveTime_ : Z;
  headers_ : list (bytes * bytes);
}.

Definition HttpRequest_new : HttpRequest := MkRequest kInvalid kUnknown [] [] 0 [].

Definition setVersion (v : Version) (r : HttpRequest) : HttpRequest :=
  MkRequest (method_ r) v (path_ r) (query_ r) (receiveTime_ r) (headers_ r).
Definition setPath (p : bytes) (r : HttpRequest) : HttpRequest :=
  MkRequest (method_ r) (version_ r) p (query_ r) (receiveTime_ r) (headers_ r).
Definition setQuery (q : bytes) (r : HttpRequest) : HttpRequest :=
  MkRequest (method_ r) (version_ r) (path_ r) q (receiveTime_ r) (headers_ r).
Definition setReceiveTime (t : Z) (r : HttpRequest) : HttpRequest :=
  MkRequest (method_ r) (version_ r) (path_ r) (query_ r) t (headers_ r).
Definition set_method (m : Method) (r : HttpRequest) : HttpRequest :=
  MkRequest m (version_ r) (path_ r) (query_ r) (receiveTime_ r) (headers_ r).
Definition set_headers (h : list (bytes * bytes)) (r : HttpRequest) : HttpRequest :=
  MkRequest (method_ r) (version_ r) (path_ r) (query_ r) (receiveTime_ r) h.

Definition method_of (m : bytes) : Method :=
  if bool_decide (m = s!"GET") then kGet
  else if bool_decide (m = s!"POST") then kPost
  else if bool_decide (m = s!"HEAD") then kHead
  else if bool_decide (m = s!"PUT") then kPut
  else if bool_decide (m = s!"DELETE") then kDelete
  else kInvalid.

Definition methodString (m : Method) : bytes :=
  match m with
  | kGet => s!"GET"
  | kPost => s!"POST"
  | kHead => s!"HEAD"
  | kPut => s!"PUT"
  | kDelete => s!"DELETE"
  | kInvalid => s!"UNKNOWN"
  end.

(** [setMethod]: asserts that no method is set yet. *)
Definition setMethod (m : bytes) : ST HttpRequest bool :=
  r ← st_get;
  lift (assert_ (bool_decide (method_ r = kInvalid))) ;;
  st_put (set_method (method_of m) r) ;;
  mret (negb (bool_decide (method_of m = kInvalid))).

(** [std::find(first, last, c)]: what precedes the first [c], and what follows
    it when there is one. *)
Fixpoint break_at (c : ascii) (s : bytes) : bytes * option bytes :=
  match s with
  | [] => ([], None)
  | d :: s' =>
      if bool_decide (d = c) then ([], Some s')
      else let '(before, after) := break_at c s' in (d :: before, after)
  end.

Fixpoint drop_trailing_spaces (s : bytes) : bytes :=
  match s with
  | [] => []
  | c :: s' =>
      match drop_trailing_spaces s' with
      | [] => if is_space c then [] else [c]
      | t => c :: t
      end
  end.

(** [addHeader(start, colon, end)]: [field] is [start, colon) and [rest] is
    what follows the colon. *)
Definition addHeader (field rest : bytes) (r : HttpRequest) : HttpRequest :=
  set_headers (smap_insert field (drop_trailing_spaces (skip_spaces rest)) (headers_ r)) r.

Definition getHeader (field : bytes) (r : HttpRequest) : bytes :=
  default [] (smap_find field (headers_ r)).

Inductive HttpRequestParseState := kExpectRequestLine | kExpectHeaders | kExpectBody | kGotAll.

#[export] Instance ParseState_eq_dec : EqDecision HttpRequestParseState.
Proof. solve_decision. Defined.

Record HttpContext := MkContext {
  state_ : HttpRequestParseState;
  request_ : HttpRequest;
}.

Definition HttpContext_new : HttpContext := MkContext kExpectRequestLine HttpRequest_new.
Definition gotAll (c : HttpContext) : bool := bool_decide (state_ c = kGotAll).
Definition reset (c : HttpContext) : HttpContext := HttpContext_new.

Definition sp : ascii := ascii_of_N 32.
Definition qmark : ascii := ascii_of_N 63.
Definition colon_char : ascii := ascii_of_N 58.

(** [processRequestLine(begin, end)] on the bytes of the line. *)
Definition processRequestLine (line : bytes) : ST HttpRequest bool :=
  match break_at sp line with
  | (m, Some rest) =>
      valid ← setMethod m;
      if valid : bool then
        match break_at sp rest with
        | (target, Some ver) =>
            (match break_at qmark target with
             | (p, Some q) => st_modify (setPath p) ;; st_modify (setQuery (qmark :: q))
             | (p, None) => st_modify (setPath target)
             end) ;;
            if (zlen ver =? 8) && bool_decide (ztake 7 ver = s!"HTTP/1.") then
              if bool_decide (zdrop 7 ver = s!"1") then st_modify (setVersion kHttp11) ;; mret true
              else if bool_decide (zdrop 7 ver = s!"0") then st_modify (setVersion kHttp10) ;; mret true
              else mret false
            else mret false
        | _ => mret false
        end
      else mret false
  | _ => mret false
  end.

(** A call on the context's request, and one on the buffer. *)
Definition on_request {A} (c : ST HttpRequest A) : ST (HttpContext * Buffer) A := λ s,
  let '(o, r) := c (request_ s.1) in (o, (MkContext (state_ s.1) r, s.2)).
Definition on_buffer {A} (c : ST Buffer A) : ST (HttpContext * Buffer) A := λ s,
  let '(o, b) := c s.2 in (o, (s.1, b)).
Definition set_state (st : HttpRequestParseState) : ST (HttpContext * Buffer) unit :=
  st_modify (λ s, (MkContext st (request_ s.1), s.2)).

(** The bytes in [peek(), pos). *)
Definition line_to (pos : Z) (b : Buffer) : outcome bytes := read_at (peek b) (pos - peek b) (buffer_ b).

(** [parseRequest]'s loop.  It spins for ever in [kExpectBody] and [kGotAll],
    which have no branch that stops it; [fuel] bounds the turns. *)
Fixpoint parse_loop (fuel : nat) (receiveTime : Z) (ok : bool) : ST (HttpContext * Buffer) bool :=
  match fuel with
  | O => lift Undef
  | S fuel' =>
      s ← st_get;
      match state_ s.1 with
      | kExpectRequestLine =>
          match findCRLF s.2 with
          | Some crlf =>
              line ← lift (line_to crlf s.2);
              ok' ← on_request (processRequestLine line);
              if ok' : bool then
                on_request (st_modify (setReceiveTime receiveTime)) ;;
                on_buffer (retrieveUntil (crlf + 2)) ;;
                set_state kExpectHeaders ;;
                parse_loop fuel' receiveTime ok'
              else mret ok'
          | None => mret ok
          end
      | kExpectHeaders =>
          match findCRLF s.2 with
          | Some crlf =>
              line ← lift (line_to crlf s.2);
              match break_at colon_char line with
              | (field, Some rest) =>
                  on_request (st_modify (addHeader field rest)) ;;
                  on_buffer (retrieveUntil (crlf + 2)) ;;
                  parse_loop fuel' receiveTime ok
              | (_, None) =>
                  set_state kGotAll ;;
                  on_buffer (retrieveUntil (crlf + 2)) ;;
                  mret ok
              end
          | None => mret ok
          end
      | _ => parse_loop fuel' receiveTime ok
      end
  end.

(** Every turn but the last takes at least the two bytes of a line end. *)
Definition parseRequest (receiveTime : Z) : ST (HttpContext * Buffer) bool := λ s,
  parse_loop (S (Z.to_nat (readableBytes s.2))) receiveTime true s.

(** ** The parser on the readable bytes *)

(** The first line and what follows its line end. *)
Definition split_line (data : bytes) : option (bytes * bytes) :=
  (λ k, (ztake k data, zdrop (k + 2) data)) <$> search kCRLF data.

Fixpoint parse_content (fuel : nat) (receiveTime : Z) (ok : bool) (c : HttpContext) (data : bytes) :
    outcome (bool * HttpContext * bytes) :=
  match fuel with
  | O => Undef
  | S fuel' =>
      match state_ c, split_line data with
      | kExpectRequestLine, Some (line, rest) =>
          match processRequestLine line (request_ c) with
          | (Ret true, r) =>
              parse_content fuel' receiveTime true
                (MkContext kExpectHeaders (setReceiveTime receiveTime r)) rest
          | (Ret false, r) => Ret (false, MkContext kExpectRequestLine r, data)
          | _ => AssertFail
          end
      | kExpectHeaders, Some (line, rest) =>
          match break_at colon_char line with
          | (field, Some value) =>
              parse_content fuel' receiveTime ok
                (MkContext kExpectHeaders (addHeader field value (request_ c))) rest
          | (_, None) => Ret (ok, MkContext kGotAll (request_ c), rest)
          end
      | kExpectRequestLine, None | kExpectHeaders, None => Ret (ok, c, data)
      | _, _ => parse_content fuel' receiveTime ok c data
      end
  end.

Definition parse_bytes (receiveTime : Z) (c : HttpContext) (data : bytes) :
    outcome (bool * HttpContext * bytes) :=
  parse_content (S (length data)) receiveTime true c data.

(** ** The loop on the buffer is the loop on the bytes *)
Section Refinement.
Implicit Types (c : HttpContext) (b : Buffer) (data : bytes).

Lemma setMethod_cases m r :
  (method_ r = kInvalid ∧
    setMethod m r = (Ret (negb (bool_decide (method_of m = kInvalid))), set_method (method_of m) r)) ∨
  (method_ r ≠ kInvalid ∧ setMethod m r = (AssertFail, r)).
Proof.
  unfold setMethod, mbind, ST_bind, st_get, lift, st_put. case_bool_decide; [by left|by right].
Qed.

(** [processRequestLine] answers, or stops at the assertion in [setMethod]. *)
Lemma processRequestLine_cases line r :
  (∃ ok, (processRequestLine line r).1 = Ret ok) ∨
  (method_ r ≠ kInvalid ∧ processRequestLine line r = (AssertFail, r)).
Proof.
  unfold processRequestLine. destruct (break_at sp line) as [m [rest|]]; [|by left; eexists].
  unfold mbind, ST_bind. destruct (setMethod_cases m r) as [[_ ->]|[Hne ->]]; [left|by right].
  destruct (negb _); [|by eexists]. destruct (break_at sp rest) as [target [ver|]]; [|by eexists].
  destruct (break_at qmark target) as [p [q|]]; simpl;
    (destruct ((zlen ver =? 8) && _); [|by eexists]);
    (case_bool_decide; [by eexists|]); case_bool_decide; by eexists.
Qed.

Lemma split_line_Some data k :
  search kCRLF data = Some k → split_line data = Some (ztake k data, zdrop (k + 2) data).
Proof. intros H. unfold split_line. by rewrite H. Qed.

Lemma line_to_holds p b data k :
  holds p b data → search kCRLF data = Some k → line_to (peek b + k) b = Ret (ztake k data).
Proof.
  intros Hh Hk. unfold line_to. replace (peek b + k - peek b) with k by lia.
  by destruct (first_line_holds _ _ _ _ Hh Hk) as (_ & _ & ? & _).
Qed.

(** What [parse_loop] returns, in terms of [parse_content]. *)
Definition loop_result (b : Buffer) (o : outcome (bool * HttpContext * bytes))
    (r : outcome bool * (HttpContext * Buffer)) : Prop :=
  match o with
  | Ret (ok, c', data') => r.1 = Ret ok ∧ r.2.1 = c' ∧
      (∃ p', kCheapPrepend ≤ p' ∧ holds p' r.2.2 data') ∧ buffer_ r.2.2 = buffer_ b
  | AssertFail => r.1 = AssertFail
  | Undef => r.1 = Undef
  | Throw _ => False
  end.

Lemma loop_result_bytes b b' o r : buffer_ b' = buffer_ b → loop_result b' o r → loop_result b o r.
Proof. intros Hb. unfold loop_result. rewrite Hb. done. Qed.

Lemma parse_loop_content fuel t ok c b data p :
  kCheapPrepend ≤ p → holds p b data →
  loop_result b (parse_content fuel t ok c data) (parse_loop fuel t ok (c, b)).
Proof.
  revert ok c b data p. induction fuel as [|fuel IH]; intros ok c b data p Hp Hh; [done|].
  cbn [parse_loop parse_content]. unfold mbind at 1, ST_bind at 1, st_get. cbn [fst snd].
  rewrite (findCRLF_holds _ _ _ Hh). unfold split_line.
  destruct (state_ c) eqn:Hst; [| |by eapply IH|by eapply IH].
  - destruct (search kCRLF data) as [k|] eqn:Hk; simpl; [|by (split_and!; [done|done|by exists p|done])].
    unfold mbind, ST_bind, lift. rewrite (line_to_holds _ _ _ _ Hh Hk). unfold on_request. simpl.
    destruct (processRequestLine_cases (ztake k data) (request_ c)) as [[ok' Hok]|[_ Hf]].
    2:{ by rewrite Hf. }
    destruct (processRequestLine (ztake k data) (request_ c)) as [o r]. simpl in Hok. subst o.
    destruct ok'; [|simpl; rewrite Hst; by (split_and!; [done|done|by exists p|done])]. cbn. unfold on_buffer. cbn.
    destruct (first_line_holds _ _ _ _ Hh Hk) as (_ & _ & _ & b' & p' & -> & Hh' & Hp' & Hb').
    cbn. eapply loop_result_bytes; [exact Hb'|]. eapply IH; [|done]. by apply Hp'.
  - destruct (search kCRLF data) as [k|] eqn:Hk; simpl; [|by (split_and!; [done|done|by exists p|done])].
    unfold mbind, ST_bind, lift. rewrite (line_to_holds _ _ _ _ Hh Hk).
    destruct (first_line_holds _ _ _ _ Hh Hk) as (_ & _ & _ & b' & p' & Hr & Hh' & Hp' & Hb').
    destruct (break_at colon_char (ztake k data)) as [field [rest|]];
      unfold on_request, on_buffer; cbn; rewrite Hr; cbn; rewrite ?Hst.
    + eapply loop_result_bytes; [exact Hb'|]. eapply IH; [|done]. by apply Hp'.
    + repeat split; [|done]. exists p'. split; [by apply Hp'|done].
Qed.

Lemma parseRequest_content t c b data p :
  kCheapPrepend ≤ p → holds p b data →
  loop_result b (parse_bytes t c data) (parseRequest t (c, b)).
Proof.
  intros Hp Hh. unfold parseRequest, parse_bytes. cbn [snd].
  rewrite (holds_readable _ _ _ Hh). unfold zlen. rewrite Nat2Z.id. by eapply parse_loop_content.
Qed.
End Refinement.

(** ** Fuel, segmentation and rendering *)
Section Content.
Implicit Types (c : HttpContext) (data : bytes).

Definition parsing c : Prop := state_ c = kExpectRequestLine ∨ state_ c = kExpectHeaders.

Lemma split_line_spec data line rest :
  split_line data = Some (line, rest) → data = line ++ kCRLF ++ rest.
Proof.
  unfold split_line. intros (k & Hk & [= -> ->])%fmap_Some.
  apply search_Some in Hk as [[Hk0 Hk] _].
  rewrite <-(ztake_zdrop k data) at 1. f_equal.
  rewrite <-(take_drop (length kCRLF) (zdrop k data)), Hk. f_equal. unfold zdrop.
  rewrite drop_drop. f_equal. unfold kCRLF. simpl. lia.
Qed.

Lemma split_line_length data line rest :
  split_line data = Some (line, rest) → (length data = length line + 2 + length rest)%nat.
Proof. intros ->%split_line_spec. rewrite !length_app. simpl. lia. Qed.

(** More fuel than bytes gives one result. *)
Lemma parse_content_fuel f1 f2 t ok c data :
  (length data < f1)%nat → (length data < f2)%nat → parsing c →
  parse_content f1 t ok c data = parse_content f2 t ok c data.
Proof.
  revert f2 ok c data. induction f1 as [|f1 IH]; intros f2 ok c data H1 H2 Hc; [lia|].
  destruct f2 as [|f2]; [lia|]. cbn [parse_content].
  destruct Hc as [Hc|Hc]; rewrite Hc; (destruct (split_line data) as [[line rest]|] eqn:E; [|done]);
    apply split_line_length in E.
  - destruct (processRequestLine line (request_ c)) as [[[|]| | |] r]; try done.
    apply IH; [lia..|by right].
  - destruct (break_at colon_char line) as [field [value|]]; [|done]. apply IH; [lia..|by right].
Qed.

Lemma parse_content_bytes fuel t ok c data :
  (length data < fuel)%nat → parsing c →
  parse_content fuel t ok c data = parse_content (S (length data)) t ok c data.
Proof. intros. apply parse_content_fuel; [lia..|done]. Qed.

(** The loop stops: with that fuel it answers, or fails the assertion on the
    request's method. *)
Lemma parse_content_stops fuel t ok c data :
  (length data < fuel)%nat → parsing c →
  (∃ ok' c' data', parse_content fuel t ok c data = Ret (ok', c', data') ∧ (parsing c' ∨ gotAll c' = true)) ∨
  (parse_content fuel t ok c data = AssertFail ∧ state_ c = kExpectRequestLine ∧
    method_ (request_ c) ≠ kInvalid).
Proof.
  revert ok c data. induction fuel as [|fuel IH]; intros ok c data Hf Hc; [lia|].
  cbn [parse_content]. pose proof Hc as [Hst|Hst]; rewrite Hst;
    (destruct (split_line data) as [[line rest]|] eqn:E; [|left; by eauto 10]);
    apply split_line_length in E.
  - destruct (processRequestLine_cases line (request_ c)) as [[ok' Hok]|[Hne Hr]].
    2:{ rewrite Hr. by right. }
    destruct (processRequestLine line (request_ c)) as [o r]. simpl in Hok. subst o.
    destruct ok'.
    + destruct (IH true (MkContext kExpectHeaders (setReceiveTime t r)) rest) as [?|(_ & ? & _)];
        [lia|by right|by left|done].
    + left. do 3 eexists. split; [done|]. left. by left.
  - destruct (break_at colon_char line) as [field [value|]].
    + destruct (IH ok (MkContext kExpectHeaders (addHeader field value (request_ c))) rest)
        as [?|(_ & ? & _)]; [lia|by right|by left|done].
    + left. do 3 eexists. split; [done|]. by right.
Qed.

Lemma search_app pat s u k : pat ≠ [] → search pat s = Some k → search pat (s ++ u) = Some k.
Proof.
  intros Hne. revert k. induction s as [|x s IH]; intros k; simpl.
  - rewrite take_nil. case_bool_decide; [congruence|done].
  - case_bool_decide as Hhd.
    + intros [= <-]. rewrite bool_decide_eq_true_2; [done|].
      change (x :: s ++ u) with ((x :: s) ++ u). rewrite take_app_le; [done|].
      rewrite <-Hhd at 1. rewrite length_take. lia.
    + intros (k' & Hk' & ->)%fmap_Some. rewrite (IH _ Hk').
      rewrite bool_decide_eq_false_2; [done|]. intros Hhd'. apply Hhd.
      change (x :: s ++ u) with ((x :: s) ++ u) in Hhd'. rewrite take_app_le in Hhd'; [done|].
      apply search_Some in Hk' as [[_ Hk'] _]. unfold zdrop in Hk'.
      apply (f_equal length) in Hk'. rewrite length_take, length_drop in Hk'. simpl. lia.
Qed.

Lemma split_line_app data more line rest :
  split_line data = Some (line, rest) → split_line (data ++ more) = Some (line, rest ++ more).
Proof.
  intros H. pose proof (split_line_spec _ _ _ H) as Hd. unfold split_line in *.
  apply fmap_Some in H as (k & Hk & [= Hl Hr]). rewrite (search_app _ _ _ k); [|done|done].
  simpl. do 2 f_equal.
  - rewrite Hl. apply search_Some in Hk as [[Hk0 Hk] _].
    unfold ztake, zdrop in *. rewrite take_app_le; [done|].
    apply (f_equal length) in Hk. rewrite length_take, length_drop in Hk.
    change (length kCRLF) with 2%nat in Hk. lia.
  - rewrite Hr. apply search_Some in Hk as [[Hk0 Hk] _].
    unfold zdrop in *. rewrite drop_app_le; [done|].
    apply (f_equal length) in Hk. rewrite length_take, length_drop in Hk.
    change (length kCRLF) with 2%nat in Hk. lia.
Qed.

Lemma parse_content_rest fuel t ok c data ok1 c1 rest :
  parse_content fuel t ok c data = Ret (ok1, c1, rest) → (length rest ≤ length data)%nat.
Proof.
  revert ok c data. induction fuel as [|fuel IH]; intros ok c data Hp; [done|].
  cbn [parse_content] in Hp. destruct (split_line data) as [[l r]|] eqn:E.
  - apply split_line_length in E. destruct (state_ c).
    + destruct (processRequestLine l (request_ c)) as [[[|]| | |] r']; simplify_eq; [|lia].
      apply IH in Hp. lia.
    + destruct (break_at colon_char l) as [f [v|]]; simplify_eq; [|lia]. apply IH in Hp. lia.
    + by apply IH in Hp.
    + by apply IH in Hp.
  - destruct (state_ c); simplify_eq; [lia..| |]; by apply IH in Hp.
Qed.

(** Bytes that arrive later change nothing about what was parsed before. *)
Lemma parse_content_app fuel t ok c data more c1 rest :
  (length (data ++ more) < fuel)%nat → parsing c →
  parse_content fuel t ok c data = Ret (true, c1, rest) → gotAll c1 = false →
  parse_content fuel t ok c (data ++ more) = parse_content fuel t true c1 (rest ++ more) ∧ parsing c1.
Proof.
  revert ok c data. induction fuel as [|fuel IH]; intros ok c data Hf Hc; [lia|].
  intros Hp Hg. cbn [parse_content] in Hp.
  destruct (split_line data) as [[line tl]|] eqn:E.
  2:{ assert (ok = true ∧ c1 = c ∧ rest = data) as (-> & -> & ->)
        by (destruct Hc as [Hc|Hc]; rewrite Hc in Hp; by simplify_eq). done. }
  pose proof (split_line_length _ _ _ E) as Hlen.
  pose proof (split_line_app _ more _ _ E) as E'. rewrite length_app in Hf.
  cbn [parse_content]. rewrite E'.
  assert (∀ ok' c', parsing c' → parse_content fuel t ok' c' tl = Ret (true, c1, rest) →
    parse_content fuel t ok' c' (tl ++ more) = parse_content (S fuel) t true c1 (rest ++ more) ∧ parsing c1)
    as Hrec.
  { intros ok' c' Hc' Hp'. destruct (IH ok' c' tl) as [-> Hc1]; [rewrite length_app; lia|done..|].
    split; [|done]. pose proof (parse_content_rest _ _ _ _ _ _ _ _ Hp').
    apply parse_content_fuel; [rewrite length_app; lia..|done]. }
  destruct Hc as [Hc|Hc]; rewrite Hc in Hp |- *.
  - destruct (processRequestLine line (request_ c)) as [[[|]| | |] r]; simplify_eq.
    apply Hrec; [by right|done].
  - destruct (break_at colon_char line) as [field [value|]]; simplify_eq.
    apply Hrec; [by right|done].
Qed.
End Content.

(** ** The text of a request *)
Definition cr : ascii := ascii_of_N 13.

Definition version_text (v : Version) : bytes :=
  if bool_decide (v = kHttp10) then s!"HTTP/1.0" else s!"HTTP/1.1".
Definition request_line (m : Method) (path query : bytes) (v : Version) : bytes :=
  methodString m ++ sp :: (path ++ query) ++ sp :: version_text v.
Definition header_line (h : bytes * bytes) : bytes := h.1 ++ colon_char :: sp :: h.2.
Fixpoint header_lines (hs : list (bytes * bytes)) : bytes :=
  match hs with
  | [] => kCRLF
  | h :: hs' => header_line h ++ kCRLF ++ header_lines hs'
  end.
Definition render_request (m : Method) (path query : bytes) (v : Version)
    (hs : list (bytes * bytes)) : bytes :=
  request_line m path query v ++ kCRLF ++ header_lines hs.

(** Bytes without any of [cs]. *)
Definition without_chars (cs : list ascii) (s : bytes) : bool :=
  forallb (λ c, negb (bool_decide (c ∈ cs))) s.

(** A request whose text means what it says: no separator inside a part, the
    query empty or starting with a question mark, values without outer
    spaces. *)
Definition request_ok (m : Method) (path query : bytes) (v : Version) (hs : list (bytes * bytes)) : bool :=
  negb (bool_decide (m = kInvalid)) && negb (bool_decide (v = kUnknown)) &&
  without_chars [sp; qmark; cr] path && without_chars [sp; cr] query &&
  (match query with [] => true | c :: _ => bool_decide (c = qmark) end) &&
  forallb (λ h, without_chars [colon_char; cr] h.1 && without_chars [cr] h.2 &&
    bool_decide (drop_trailing_spaces (skip_spaces h.2) = h.2)) hs.

Definition header_map (hs : list (bytes * bytes)) : list (bytes * bytes) :=
  foldl (λ acc h, smap_insert h.1 h.2 acc) [] hs.

Section Rendering.

Lemma without_chars_elem cs s c : without_chars cs s = true → c ∈ cs → c ∉ s.
Proof.
  unfold without_chars. rewrite forallb_forall. intros Hs Hc Hin.
  apply list_elem_of_In, Hs in Hin. by rewrite bool_decide_eq_true_2 in Hin.
Qed.

Lemma break_at_app c a b : c ∉ a → break_at c (a ++ c :: b) = (a, Some b).
Proof.
  induction a as [|d a IH]; simpl; intros Hc; [by rewrite bool_decide_eq_true_2|].
  rewrite not_elem_of_cons in Hc. rewrite bool_decide_eq_false_2 by (intros ->; tauto).
  rewrite IH by tauto. done.
Qed.

Lemma break_at_None c a : c ∉ a → break_at c a = (a, None).
Proof.
  induction a as [|d a IH]; simpl; intros Hc; [done|].
  rewrite not_elem_of_cons in Hc. rewrite bool_decide_eq_false_2 by (intros ->; tauto).
  rewrite IH by tauto. done.
Qed.

Lemma search_crlf line rest : cr ∉ line → search kCRLF (line ++ kCRLF ++ rest) = Some (zlen line).
Proof.
  induction line as [|c line IH]; intros Hcr.
  { change ([] ++ kCRLF ++ rest) with (cr :: ascii_of_N 10 :: rest). cbn [search].
    rewrite bool_decide_eq_true_2 by done. done. }
  rewrite not_elem_of_cons in Hcr. change ((c :: line) ++ kCRLF ++ rest) with (c :: (line ++ kCRLF ++ rest)).
  cbn [search]. rewrite bool_decide_eq_false_2.
  2:{ cbn. intros [= Hc _]. destruct Hcr as [Hne _]. by apply Hne. }
  rewrite IH by tauto. simpl. f_equal. unfold zlen. simpl. lia.
Qed.

Lemma split_line_crlf line rest : cr ∉ line → split_line (line ++ kCRLF ++ rest) = Some (line, rest).
Proof.
  intros Hcr. unfold split_line. rewrite search_crlf by done.
  cbn [fmap option_fmap option_map]. do 2 f_equal.
  - apply ztake_app.
  - rewrite app_assoc. change 2 with (zlen kCRLF). rewrite <-zlen_app. apply zdrop_app.
Qed.

Lemma methodString_chars m c : c ∈ [sp; cr] → c ∉ methodString m.
Proof.
  intros Hc. apply (without_chars_elem [sp; cr]); [|done].
  destruct m; vm_compute; done.
Qed.

Lemma version_text_chars v : cr ∉ version_text v.
Proof.
  apply (without_chars_elem [cr]); [|by left]. unfold version_text. case_bool_decide; by vm_compute.
Qed.

Lemma method_of_String m : m ≠ kInvalid → method_of (methodString m) = m.
Proof. destruct m; intros Hm; (done || by vm_compute). Qed.

(** A well-formed request line sets method, path, query and version. *)
Lemma processRequestLine_rendered m path query v hs r :
  request_ok m path query v hs = true → method_ r = kInvalid → query_ r = [] →
  processRequestLine (request_line m path query v) r =
    (Ret true, MkRequest m v path query (receiveTime_ r) (headers_ r)).
Proof.
  unfold request_ok. rewrite !andb_true_iff, !negb_true_iff, !bool_decide_eq_false.
  intros [[[[[Hm Hv] Hp] Hq] Hqm] _] Hr Hrq.
  unfold processRequestLine, request_line.
  rewrite break_at_app by (apply methodString_chars; left).
  unfold mbind, ST_bind. destruct (setMethod_cases (methodString m) r) as [[_ ->]|[? _]]; [|done].
  rewrite method_of_String by done. rewrite bool_decide_eq_false_2 by done. cbn [negb].
  assert (sp ∉ path ++ query) as Hsp.
  { rewrite elem_of_app. intros [H|H]; revert H;
      [apply (without_chars_elem [sp; qmark; cr])|apply (without_chars_elem [sp; cr])]; (done || left). }
  rewrite break_at_app by done.
  assert (qmark ∉ path) as Hqp by (apply (without_chars_elem [sp; qmark; cr]); [done|right; left]).
  assert (Hver : ((zlen (version_text v) =? 8) && bool_decide (ztake 7 (version_text v) = s!"HTTP/1.")) = true
    ∧ bool_decide (zdrop 7 (version_text v) = s!"1") = bool_decide (v = kHttp11)
    ∧ bool_decide (zdrop 7 (version_text v) = s!"0") = bool_decide (v = kHttp10)).
  { by destruct v. }
  destruct Hver as (Hv1 & Hv2 & Hv3). rewrite Hv1, Hv2, Hv3. destruct r as [rm rv rp rq rt rh].
  simpl in Hr, Hrq. subst.
  destruct query as [|c query].
  - rewrite app_nil_r, break_at_None by done. by destruct v.
  - apply bool_decide_eq_true in Hqm as ->. rewrite break_at_app by done. by destruct v.
Qed.

Lemma request_line_cr m path query v hs :
  request_ok m path query v hs = true → cr ∉ request_line m path query v.
Proof.
  unfold request_ok. rewrite !andb_true_iff. intros [[[[_ Hp] Hq] _] _].
  unfold request_line. rewrite elem_of_app, elem_of_cons, elem_of_app, elem_of_app, elem_of_cons.
  intros [H|[H|[[H|H]|[H|H]]]]; revert H; [apply methodString_chars; set_solver|done| | |done|apply version_text_chars].
  - apply (without_chars_elem [sp; qmark; cr]); [done|set_solver].
  - apply (without_chars_elem [sp; cr]); [done|set_solver].
Qed.

Lemma parse_header_lines hs fuel t c acc rest :
  forallb (λ h, without_chars [colon_char; cr] h.1 && without_chars [cr] h.2 &&
    bool_decide (drop_trailing_spaces (skip_spaces h.2) = h.2)) hs = true →
  (length (header_lines hs ++ rest) < fuel)%nat → state_ c = kExpectHeaders → headers_ (request_ c) = acc →
  parse_content fuel t true c (header_lines hs ++ rest) =
    Ret (true, MkContext kGotAll
      (set_headers (foldl (λ acc h, smap_insert h.1 h.2 acc) acc hs) (request_ c)), rest).
Proof.
  revert fuel c acc. induction hs as [|[f v] hs IH]; intros fuel c acc Hok Hf Hst Hacc;
    (destruct fuel as [|fuel]; [lia|]); cbn [parse_content header_lines foldl]; rewrite Hst.
  - change (kCRLF ++ rest) with ([] ++ kCRLF ++ rest). rewrite split_line_crlf by apply not_elem_of_nil.
    simpl. by destruct c as [? []]; simpl in *; subst.
  - cbn [forallb] in Hok. rewrite !andb_true_iff in Hok. destruct Hok as [[[Hfc Hvc] Htrim] Hok].
    cbn [fst snd] in *. apply bool_decide_eq_true in Htrim.
    rewrite <-!app_assoc. rewrite split_line_crlf.
    2:{ unfold header_line. simpl. rewrite elem_of_app, !elem_of_cons.
        intros [H|[H|[H|H]]]; revert H; [|done|done|].
        - apply (without_chars_elem [colon_char; cr]); [done|set_solver].
        - apply (without_chars_elem [cr]); [done|set_solver]. }
    unfold header_line at 1. cbn [fst snd].
    rewrite break_at_app by (apply (without_chars_elem [colon_char; cr]); [done|left]).
    cbn [header_lines] in Hf. rewrite <-!app_assoc, !length_app in Hf.
    change (length kCRLF) with 2%nat in Hf.
    rewrite (IH _ _ (smap_insert f v acc)); [|done|rewrite length_app; lia|done|].
    + simpl. by destruct c as [? []].
    + unfold addHeader. cbn [request_ headers_ set_headers]. subst acc. f_equal.
      change (skip_spaces (sp :: v)) with (skip_spaces v). done.
Qed.

Lemma parse_rendered m path query v hs rest t :
  request_ok m path query v hs = true →
  parse_bytes t HttpContext_new (render_request m path query v hs ++ rest) =
    Ret (true, MkContext kGotAll (MkRequest m v path query t (header_map hs)), rest).
Proof.
  intros Hok. unfold parse_bytes.
  cbn [parse_content HttpContext_new state_]. unfold render_request. rewrite <-!app_assoc.
  rewrite split_line_crlf by (by eapply request_line_cr). cbn [request_ HttpContext_new].
  rewrite (processRequestLine_rendered m path query v hs) by done.
  rewrite (parse_header_lines hs _ _ _ []).
  - done.
  - unfold request_ok in Hok. rewrite andb_true_iff in Hok. by destruct Hok.
  - rewrite !length_app. change (length kCRLF) with 2%nat. lia.
  - done.
  - done.
Qed.
End Rendering.

(** What the owner of the connection sees of a parse: the answer, the context
    and the bytes left in the buffer. *)
Definition observe (r : outcome bool * (HttpContext * Buffer)) : option (bool * HttpContext * bytes) :=
  match r.1 with
  | Ret ok => Some (ok, r.2.1, slice (peek r.2.2) (beginWrite r.2.2) (buffer_ r.2.2))
  | _ => None
  end.

Definition to_option {A} (o : outcome A) : option A := match o with Ret a => Some a | _ => None end.

Lemma observe_loop b o r : loop_result b o r → observe r = to_option o.
Proof.
  unfold loop_result, observe. destruct o as [[[ok c'] data']| | |]; simpl; [|by intros []|by intros ->..].
  intros (-> & -> & (p' & _ & Hh) & _). by destruct (holds_slice _ _ _ Hh) as [-> _].
Qed.

Lemma observe_parse t c b data p :
  kCheapPrepend ≤ p → holds p b data →
  observe (parseRequest t (c, b)) = to_option (parse_bytes t c data).
Proof. intros Hp Hh. eapply observe_loop. by eapply parseRequest_content. Qed.

(** Appending keeps the cheap-prepend area. *)
Lemma append_holds8 p b data more :
  kCheapPrepend ≤ p → holds p b data → zlen (buffer_ b) + zlen more ≤ max_size →
  ∃ b' p', append more b = (Ret (), b') ∧ kCheapPrepend ≤ p' ∧ holds p' b' (data ++ more).
Proof.
  intros Hp Hh Hm. destruct (append_holds _ _ _ more Hh Hm) as (b' & p' & Ha & Hh' & Hp' & _).
  exists b', p'. split; [done|]. split; [lia|done].
Qed.

(** ** Properties *)

(** C10: A request parsed from the front of the buffer is the one that was
    written: method, path, query, version and the header map (the last value
    of a repeated field winning) come back exactly, the context is complete,
    and the bytes after the request stay in the buffer. *)
Theorem http_request_round_trip (m : Method) (path query : bytes) (v : Version)
    (hs : list (bytes * bytes)) (rest : bytes) (t p : Z) (b : Buffer) :
  request_ok m path query v hs = true → kCheapPrepend ≤ p →
  holds p b (render_request m path query v hs ++ rest) →
  observe (parseRequest t (HttpContext_new, b)) =
    Some (true, MkContext kGotAll (MkRequest m v path query t (header_map hs)), rest).
Proof.
  intros Hok Hp Hh. by rewrite (observe_parse _ _ _ _ _ Hp Hh), parse_rendered.
Qed.

Definition demo_request : bytes :=
  render_request kGet s!"/a" s!"?x=1" kHttp11 [(s!"Host", s!"h"); (s!"A", s!"b c")] ++ s!"next".
Definition demo_buffer : Buffer := mk3 (zeros 8) demo_request [].

Lemma demo_buffer_holds : holds kCheapPrepend demo_buffer demo_request.
Proof. apply (holds_mk3 (zeros 8) demo_request []). vm_compute. split; discriminate. Qed.

Lemma http_request_round_trip_witness :
  observe (parseRequest 7 (HttpContext_new, demo_buffer)) =
    Some (true, MkContext kGotAll (MkRequest kGet kHttp11 s!"/a" s!"?x=1" 7
      (header_map [(s!"Host", s!"h"); (s!"A", s!"b c")])), s!"next").
Proof.
  apply (http_request_round_trip kGet s!"/a" s!"?x=1" kHttp11 _ s!"next" 7 kCheapPrepend demo_buffer).
  - by vm_compute.
  - done.
  - apply demo_buffer_holds.
Defined.

(** How TCP cuts the stream does not matter: when the bytes received so
    far parse without error and without completing the request, parsing them,
    then appending the rest and parsing again, gives the same answer, context
    and remaining bytes as parsing everything at once. *)
Theorem http_parse_any_segmentation (t p : Z) (c c1 : HttpContext) (b b1 : Buffer) (data more : bytes) :
  parsing c → kCheapPrepend ≤ p → holds p b data → zlen (buffer_ b) + zlen more ≤ max_size →
  parseRequest t (c, b) = (Ret true, (c1, b1)) → gotAll c1 = false →
  ∃ b' b1', append more b = (Ret (), b') ∧ append more b1 = (Ret (), b1') ∧
    observe (parseRequest t (c1, b1')) = observe (parseRequest t (c, b')).
Proof.
  intros Hc Hp Hh Hm Hparse Hg.
  pose proof (parseRequest_content t c b data p Hp Hh) as Hres. rewrite Hparse in Hres.
  destruct (parse_bytes t c data) as [[[ok c'] rest]| | |] eqn:Epb; simpl in Hres; try done.
  destruct Hres as ([= <-] & <- & (p1 & Hp1 & Hh1) & Hb1).
  destruct (append_holds8 _ _ _ more Hp Hh Hm) as (b' & p' & Ha & Hp' & Hh').
  destruct (append_holds8 _ _ _ more Hp1 Hh1) as (b1' & p1' & Ha1 & Hp1' & Hh1'); [by rewrite Hb1|].
  exists b', b1'. split; [done|]. split; [done|].
  rewrite (observe_parse _ _ _ _ _ Hp' Hh'), (observe_parse _ _ _ _ _ Hp1' Hh1'). f_equal.
  unfold parse_bytes in *. set (fuel := S (length (data ++ more))).
  rewrite <-(parse_content_bytes fuel) in Epb by (done || (unfold fuel; rewrite length_app; lia)).
  pose proof (parse_content_rest _ _ _ _ _ _ _ _ Epb) as Hle.
  destruct (parse_content_app fuel t true c data more c1 rest) as [Heq Hc1]; [unfold fuel; lia|done..|].
  unfold fuel in *. rewrite Heq. symmetry. apply parse_content_bytes; [|done]. rewrite !length_app. lia.
Qed.

Definition half_buffer : Buffer := mk3 (zeros 8) (s!"GET / HTT") [].

Lemma http_parse_any_segmentation_witness :
  ∃ b' b1', append (s!"P/1.1" ++ kCRLF) half_buffer = (Ret (), b') ∧
    append (s!"P/1.1" ++ kCRLF) half_buffer = (Ret (), b1') ∧
    observe (parseRequest 0 (HttpContext_new, b1')) = observe (parseRequest 0 (HttpContext_new, b')).
Proof.
  apply (http_parse_any_segmentation 0 kCheapPrepend HttpContext_new HttpContext_new half_buffer
    half_buffer s!"GET / HTT" (s!"P/1.1" ++ kCRLF)).
  - by left.
  - done.
  - apply (holds_mk3 (zeros 8) s!"GET / HTT" []). vm_compute. split; discriminate.
  - vm_compute. discriminate.
  - vm_compute. reflexivity.
  - reflexivity.
Defined.

(** [parseRequest] terminates on every input and never touches memory
    outside the buffer: from a context that is not complete it returns, with
    a context that is still parsing or complete; the one exception is a
    context that expects a request line and already has a method, where it
    may stop at the assertion in [setMethod].  A fresh context always
    returns. *)
Theorem http_parse_total (t p : Z) (c : HttpContext) (b : Buffer) (data : bytes) :
  parsing c → kCheapPrepend ≤ p → holds p b data →
  (∃ ok c' b' p' rest, parseRequest t (c, b) = (Ret ok, (c', b')) ∧ (parsing c' ∨ gotAll c' = true) ∧
    kCheapPrepend ≤ p' ∧ holds p' b' rest) ∨
  ((parseRequest t (c, b)).1 = AssertFail ∧ state_ c = kExpectRequestLine ∧
    method_ (request_ c) ≠ kInvalid).
Proof.
  intros Hc Hp Hh. pose proof (parseRequest_content t c b data p Hp Hh) as Hres.
  destruct (parse_content_stops (S (length data)) t true c data) as
    [(ok & c' & rest & Heq & Hc')|(Heq & Hst & Hm)]; [lia|done|left|right];
    unfold parse_bytes in Hres; rewrite Heq in Hres; simpl in Hres; [|done].
  destruct (parseRequest t (c, b)) as [o [c2 b']]. simpl in Hres.
  destruct Hres as (-> & -> & (p' & Hp' & Hh') & _). by exists ok, c', b', p', rest.
Qed.

Lemma http_parse_total_witness :
  (∃ ok c' b' p' rest, parseRequest 7 (HttpContext_new, demo_buffer) = (Ret ok, (c', b')) ∧
    (parsing c' ∨ gotAll c' = true) ∧ kCheapPrepend ≤ p' ∧ holds p' b' rest) ∨
  ((parseRequest 7 (HttpContext_new, demo_buffer)).1 = AssertFail ∧
    kExpectRequestLine = kExpectRequestLine ∧ kInvalid ≠ kInvalid).
Proof.
  apply (http_parse_total 7 kCheapPrepend HttpContext_new demo_buffer demo_request);
    [by left|done|apply demo_buffer_holds].
Defined.

(** A request line that is rejected after its method was recognised (a
    wrong version, say) stays in the buffer and in the context; the next
    bytes the client sends make [parseRequest] fail the assertion
    [method_ == kInvalid], which aborts the process. *)
Theorem http_bad_line_then_data_aborts (t t' p : Z) (b : Buffer) (line rest more : bytes)
    (r : HttpRequest) :
  cr ∉ line → processRequestLine line HttpRequest_new = (Ret false, r) → method_ r ≠ kInvalid →
  kCheapPrepend ≤ p → holds p b (line ++ kCRLF ++ rest) →
  zlen (buffer_ b) + zlen more ≤ max_size →
  ∃ c1 b1 b2, parseRequest t (HttpContext_new, b) = (Ret false, (c1, b1)) ∧
    append more b1 = (Ret (), b2) ∧ (parseRequest t' (c1, b2)).1 = AssertFail.
Proof.
  intros Hcr Hline Hr Hp Hh Hm.
  pose proof (parseRequest_content t HttpContext_new b _ p Hp Hh) as Hres.
  unfold parse_bytes in Hres. cbn [parse_content HttpContext_new state_ request_] in Hres.
  rewrite split_line_crlf, Hline in Hres by done.
  destruct (parseRequest t (HttpContext_new, b)) as [o [c1 b1]].
  cbn [loop_result fst snd] in Hres.
  destruct Hres as (-> & -> & (p1 & Hp1 & Hh1) & Hb1).
  destruct (append_holds8 _ _ _ more Hp1 Hh1) as (b2 & p2 & Ha & Hp2 & Hh2); [by rewrite Hb1|].
  exists (MkContext kExpectRequestLine r), b1, b2. split; [done|]. split; [done|].
  pose proof (parseRequest_content t' (MkContext kExpectRequestLine r) b2 _ p2 Hp2 Hh2) as Hres2.
  unfold parse_bytes in Hres2. cbn [parse_content state_ request_] in Hres2.
  rewrite <-!app_assoc, split_line_crlf in Hres2 by done.
  assert (processRequestLine line r = (AssertFail, r)) as Hfail.
  { unfold processRequestLine in *. destruct (break_at sp line) as [m [rest'|]]; [|by injection Hline as <-].
    unfold mbind, ST_bind in *. by destruct (setMethod_cases m r) as [[? _]|[_ ->]]. }
  by rewrite Hfail in Hres2.
Qed.

Definition bad_buffer : Buffer := mk3 (zeros 8) (s!"GET / HTTP/2.0" ++ kCRLF ++ []) [].

Lemma http_bad_line_then_data_aborts_witness :
  ∃ c1 b1 b2, parseRequest 0 (HttpContext_new, bad_buffer) = (Ret false, (c1, b1)) ∧
    append s!"x" b1 = (Ret (), b2) ∧ (parseRequest 1 (c1, b2)).1 = AssertFail.
Proof.
  apply (http_bad_line_then_data_aborts 0 1 kCheapPrepend bad_buffer s!"GET / HTTP/2.0" [] s!"x"
    (MkRequest kGet kUnknown s!"/" [] 0 [])).
  - apply (without_chars_elem [cr]); [by vm_compute|left].
  - by vm_compute.
  - discriminate.
  - done.
  - apply (holds_mk3 (zeros 8) (s!"GET / HTTP/2.0" ++ kCRLF ++ []) []). vm_compute. split; discriminate.
  - vm_compute. discriminate.
Defined.
