(* ===== verification/HttpServer.v ===== *)
(** * HTTP responses and the server's handlers
    (master/net/http/HttpResponse.h, HttpResponse.cc, HttpServer.cc)

    A response is written into a [Buffer] by a sequence of appends.  The
    server's [onMessage] parses what arrived on a connection and answers; what
    it asks of the connection is returned as a list of operations, and the
    user's [HttpCallback] is a parameter. *)
From S2P Require Import Prelude CxxString StdContainers Buffer HttpContext.
Local Open Scope Z_scope.

Definition kUnknownStatus : Z := 0.
Definition k200Ok : Z := 200.
Definition k301MovedPermanently : Z := 301.
Definition k400BadRequest : Z := 400.
Definition k404NotFound : Z := 404.

Record HttpResponse := MkResponse {
  resp_headers : list (bytes * bytes);
  statusCode_ : Z;
  statusMessage_ : bytes;
  closeConnection_ : bool;
  body_ : bytes;
}.

Definition HttpResponse_new (close : bool) : HttpResponse := MkResponse [] kUnknownStatus [] close [].

Definition setStatusCode (c : Z) (r : HttpResponse) : HttpResponse :=
  MkResponse (resp_headers r) c (statusMessage_ r) (closeConnection_ r) (body_ r).
Definition setStatusMessage (m : bytes) (r : HttpResponse) : HttpResponse :=
  MkResponse (resp_headers r) (statusCode_ r) m (closeConnection_ r) (body_ r).
Definition setCloseConnection (on : bool) (r : HttpResponse) : HttpResponse :=
  MkResponse (resp_headers r) (statusCode_ r) (statusMessage_ r) on (body_ r).
Definition setBody (b : bytes) (r : HttpResponse) : HttpResponse :=
  MkResponse (resp_headers r) (statusCode_ r) (statusMessage_ r) (closeConnection_ r) b.
Definition addHeader (key value : bytes) (r : HttpResponse) : HttpResponse :=
  MkResponse (smap_insert key value (resp_headers r)) (statusCode_ r) (statusMessage_ r)
    (closeConnection_ r) (body_ r).
Definition setContentType (t : bytes) (r : HttpResponse) : HttpResponse := addHeader s!"Content-Type" t r.

(** [snprintf(buf, sizeof buf, ...)] with [char buf[32]]. *)
Definition snprintf32 (s : bytes) : bytes := ztake 31 s.

Fixpoint append_headers (hs : list (bytes * bytes)) : ST Buffer unit :=
  match hs with
  | [] => mret ()
  | (k, v) :: hs' =>
      append k ;; append s!": " ;; append v ;; append kCRLF ;; append_headers hs'
  end.

Definition appendToBuffer (r : HttpResponse) : ST Buffer unit :=
  append (snprintf32 (s!"HTTP/1.1 " ++ dec_int (statusCode_ r) ++ s!" ")) ;;
  append (statusMessage_ r) ;;
  append kCRLF ;;
  (if closeConnection_ r
   then append (s!"Connection: close" ++ kCRLF)
   else
     append (snprintf32 (s!"Content-Length: " ++ dec_nat (zlen (body_ r)) ++ kCRLF)) ;;
     append (s!"Connection: Keep-Alive" ++ kCRLF)) ;;
  append_headers (resp_headers r) ;;
  append kCRLF ;;
  append (body_ r).

Definition defaultHttpCallback (req : HttpRequest) (resp : HttpResponse) : HttpResponse :=
  setCloseConnection true (setStatusMessage s!"Not Found" (setStatusCode k404NotFound resp)).

(** What a handler asks of its [TcpConnection]. *)
Inductive conn_op := Send (data : bytes) | Shutdown.

Section Server.
Context (httpCallback : HttpRequest → HttpResponse → HttpResponse).

Definition should_close (req : HttpRequest) : bool :=
  let connection := getHeader s!"Connection" req in
  bool_decide (connection = s!"close") ||
  (bool_decide (version_ req = kHttp10) && negb (bool_decide (connection = s!"Keep-Alive"))).

(** [conn->send(&buf)] sends the readable bytes. *)
Definition onRequest (req : HttpRequest) : outcome (list conn_op) :=
  let response := httpCallback req (HttpResponse_new (should_close req)) in
  let '(o, buf) := appendToBuffer response (Buffer_new kInitialSize) in
  _ ← o;
  data ← read_at (peek buf) (readableBytes buf) (buffer_ buf);
  Ret (Send data :: (if closeConnection_ response then [Shutdown] else [])).

Definition onMessage (receiveTime : Z) : ST (HttpContext * Buffer) (list conn_op) :=
  ok ← parseRequest receiveTime;
  let bad := if ok : bool then []
             else [Send (s!"HTTP/1.1 400 Bad Request" ++ kCRLF ++ kCRLF); Shutdown] in
  s ← st_get;
  if gotAll s.1 then
    answer ← lift (onRequest (request_ s.1));
    st_put (reset s.1, s.2) ;;
    mret (bad ++ answer)
  else mret bad.
End Server.

(** ** The text of a response *)
Fixpoint headers_text (hs : list (bytes * bytes)) : bytes :=
  match hs with
  | [] => []
  | (k, v) :: hs' => k ++ s!": " ++ v ++ kCRLF ++ headers_text hs'
  end.

Definition response_text (r : HttpResponse) : bytes :=
  (s!"HTTP/1.1 " ++ dec_int (statusCode_ r) ++ s!" ") ++ statusMessage_ r ++ kCRLF ++
  (if closeConnection_ r then s!"Connection: close" ++ kCRLF
   else (s!"Content-Length: " ++ dec_nat (zlen (body_ r)) ++ kCRLF) ++
        s!"Connection: Keep-Alive" ++ kCRLF) ++
  headers_text (resp_headers r) ++ kCRLF ++ body_ r.

Section Text.
Implicit Types (b : Buffer) (q : bytes).

Lemma append_queue n b q x :
  queue_repr n b q → n + zlen x ≤ max_size →
  ∃ b', append x b = (Ret (), b') ∧ queue_repr (n + zlen x) b' (q ++ x).
Proof.
  intros Hq Hm. destruct (run_bcmd_step (BAppend x) b q n Hq eq_refl Hm) as [_ (b' & Hr & Hq')].
  simpl in Hr, Hq'. unfold mbind, ST_bind in Hr.
  destruct (append x b) as [[[]| | |] b1]; [|discriminate Hr..].
  injection Hr as <-. by exists b1.
Qed.

(** [m] appends exactly [x]. *)
Definition appends (m : ST Buffer unit) (x : bytes) : Prop :=
  ∀ n b q, queue_repr n b q → n + zlen x ≤ max_size →
    ∃ b', m b = (Ret (), b') ∧ queue_repr (n + zlen x) b' (q ++ x).

Lemma appends_append x : appends (append x) x.
Proof. intros n b q. apply append_queue. Qed.

Lemma appends_ret : appends (mret ()) [].
Proof. intros n b q Hq _. exists b. by rewrite app_nil_r, Z.add_0_r. Qed.

Lemma appends_bind m k x y : appends m x → appends k y → appends (m ;; k) (x ++ y).
Proof.
  intros Hx Hy n b q Hq Hm. rewrite zlen_app in Hm.
  pose proof (zlen_nonneg x). pose proof (zlen_nonneg y).
  destruct (Hx n b q Hq) as (b1 & H1 & Hq1); [lia|].
  destruct (Hy _ b1 _ Hq1) as (b2 & H2 & Hq2); [lia|].
  exists b2. rewrite (ST_bind_eq _ _ _ _ _ H1). split; [done|].
  rewrite zlen_app, app_assoc, Z.add_assoc. done.
Qed.

Lemma appends_headers hs : appends (append_headers hs) (headers_text hs).
Proof.
  induction hs as [|[k v] hs IH]; cbn [append_headers headers_text]; [apply appends_ret|].
  do 4 (apply appends_bind; [apply appends_append|]). apply IH.
Qed.

Lemma snprintf32_fits s : zlen s ≤ 31 → snprintf32 s = s.
Proof. intros H. unfold snprintf32, ztake. apply take_ge. unfold zlen in H. lia. Qed.

Lemma zlen_dec_int z : in_s 32 z → zlen (dec_int z) ≤ 11.
Proof.
  intros [H1 H2]. simpl in *. unfold dec_int. case_if.
  - rewrite zlen_app. change (zlen s!"-") with 1.
    pose proof (dec_nat_length 10 (- z) ltac:(lia) ltac:(simpl; lia)). lia.
  - pose proof (dec_nat_length 10 z ltac:(lia) ltac:(simpl; lia)). lia.
Qed.

(** A response whose numbers fit the 32-byte line buffer. *)
Definition response_ok (r : HttpResponse) : Prop :=
  in_s 32 (statusCode_ r) ∧ zlen (body_ r) < 10 ^ 13.

Lemma appends_response r : response_ok r → appends (appendToBuffer r) (response_text r).
Proof.
  intros [Hs Hb]. unfold appendToBuffer, response_text.
  pose proof (zlen_dec_int _ Hs). pose proof (zlen_nonneg (body_ r)).
  pose proof (dec_nat_length 13 (zlen (body_ r)) ltac:(lia) (conj (zlen_nonneg _) Hb)) as Hd.
  change (Z.of_nat 13) with 13 in Hd.
  rewrite (snprintf32_fits (s!"HTTP/1.1 " ++ _)).
  2:{ rewrite !zlen_app. change (zlen s!"HTTP/1.1 ") with 9. change (zlen s!" ") with 1. lia. }
  rewrite snprintf32_fits.
  2:{ rewrite !zlen_app. change (zlen s!"Content-Length: ") with 16. change (zlen kCRLF) with 2. lia. }
  do 3 (apply appends_bind; [apply appends_append|]).
  apply appends_bind.
  { destruct (closeConnection_ r); [apply appends_append|].
    apply appends_bind; apply appends_append. }
  apply appends_bind; [apply appends_headers|].
  apply appends_bind; apply appends_append.
Qed.

Lemma queue_repr_read n b q :
  queue_repr n b q → read_at (peek b) (readableBytes b) (buffer_ b) = Ret q.
Proof.
  intros [(p & _ & Hh) _]. rewrite (holds_readable _ _ _ Hh).
  apply (holds_read _ _ _ _ q [] Hh); [by rewrite app_nil_r|done].
Qed.

Lemma onRequest_answer cb req :
  let resp := cb req (HttpResponse_new (should_close req)) in
  response_ok resp → kCheapPrepend + kInitialSize + zlen (response_text resp) ≤ max_size →
  onRequest cb req = Ret (Send (response_text resp) :: (if closeConnection_ resp then [Shutdown] else [])).
Proof.
  intros resp Hok Hm. unfold onRequest. fold resp.
  destruct (appends_response resp Hok (kCheapPrepend + kInitialSize) (Buffer_new kInitialSize) [])
    as (b' & -> & Hq); [apply queue_repr_new; vm_compute; discriminate|done|].
  simpl. by rewrite (queue_repr_read _ _ _ Hq).
Qed.
End Text.

(** ** Properties *)

(** [appendToBuffer] appends exactly the response's text: the status line,
    the connection and content-length lines, the headers in key order, an
    empty line and the body, with no line truncated; the content length it
    announces is the number of body bytes it writes. *)
Theorem http_response_written (r : HttpResponse) (n : Z) (b : Buffer) (q : bytes) :
  response_ok r → queue_repr n b q → n + zlen (response_text r) ≤ max_size →
  ∃ b', appendToBuffer r b = (Ret (), b') ∧
    slice (peek b') (beginWrite b') (buffer_ b') = q ++ response_text r ∧
    digits_val (dec_nat (zlen (body_ r))) = zlen (body_ r).
Proof.
  intros Hok Hq Hm. destruct (appends_response r Hok n b q Hq Hm) as (b' & Hr & (p & _ & Hh) & _).
  exists b'. split; [done|]. split; [by destruct (holds_slice _ _ _ Hh)|].
  apply dec_nat_val. destruct Hok as [_ Hb]. pose proof (zlen_nonneg (body_ r)). lia.
Qed.

Definition demo_response : HttpResponse :=
  setBody s!"hello" (addHeader s!"Server" s!"m" (setContentType s!"text/plain"
    (setStatusMessage s!"OK" (setStatusCode k200Ok (HttpResponse_new false))))).

Lemma http_response_written_witness :
  ∃ b', appendToBuffer demo_response (Buffer_new 64) = (Ret (), b') ∧
    slice (peek b') (beginWrite b') (buffer_ b') = [] ++ response_text demo_response ∧
    digits_val (dec_nat 5) = 5.
Proof.
  apply (http_response_written demo_response (kCheapPrepend + 64) (Buffer_new 64) []).
  - split; [split; vm_compute; congruence|by vm_compute].
  - apply queue_repr_new; vm_compute; discriminate.
  - vm_compute. discriminate.
Defined.

(** C27: When a well-formed request is at the front of the buffer, [onMessage]
    sends exactly one response, the text of what the callback made of the
    parsed request, and shuts the connection down exactly when that response
    says so; the context is fresh again and the following bytes, even a whole
    second request, wait in the buffer for the next message.  A request line
    that does not parse is answered with 400 and a shutdown, without calling
    the callback. *)
Theorem http_server_answers (cb : HttpRequest → HttpResponse → HttpResponse) (m : Method)
    (path query : bytes) (v : Version) (hs : list (bytes * bytes)) (rest : bytes) (t p : Z) (b : Buffer) :
  request_ok m path query v hs = true → kCheapPrepend ≤ p →
  holds p b (render_request m path query v hs ++ rest) →
  let req := MkRequest m v path query t (header_map hs) in
  let resp := cb req (HttpResponse_new (should_close req)) in
  response_ok resp → kCheapPrepend + kInitialSize + zlen (response_text resp) ≤ max_size →
  ∃ b' p', onMessage cb t (HttpContext_new, b) =
      (Ret (Send (response_text resp) :: (if closeConnection_ resp then [Shutdown] else [])),
       (HttpContext_new, b')) ∧
    holds p' b' rest ∧
    ∀ line b0, cr ∉ line → (processRequestLine line HttpRequest_new).1 = Ret false →
      holds p b0 (line ++ kCRLF ++ rest) →
      (onMessage cb t (HttpContext_new, b0)).1 =
        Ret [Send (s!"HTTP/1.1 400 Bad Request" ++ kCRLF ++ kCRLF); Shutdown].
Proof.
  intros Hok Hp Hh req resp Hrok Hm.
  pose proof (parseRequest_content t HttpContext_new b _ p Hp Hh) as Hres.
  rewrite (parse_rendered m path query v hs rest t) in Hres by done.
  destruct (parseRequest t (HttpContext_new, b)) as [o [c1 b1]] eqn:E.
  cbn [loop_result fst snd] in Hres. destruct Hres as (-> & -> & (p' & _ & Hh') & _).
  exists b1, p'. split; [|split; [done|]].
  - unfold onMessage. rewrite (ST_bind_eq _ _ _ _ _ E). unfold mbind, ST_bind, st_get, lift.
    change (gotAll _) with true. cbn [fst snd request_ app].
    by rewrite onRequest_answer.
  - intros line b0 Hcr Hline Hh0.
    pose proof (parseRequest_content t HttpContext_new b0 _ p Hp Hh0) as Hres.
    unfold parse_bytes in Hres. cbn [parse_content HttpContext_new state_ request_] in Hres.
    rewrite split_line_crlf in Hres by done.
    destruct (processRequestLine line HttpRequest_new) as [o r]. cbn [fst] in Hline. subst o.
    destruct (parseRequest t (HttpContext_new, b0)) as [o [c2 b2]] eqn:E2.
    cbn [loop_result fst snd] in Hres. destruct Hres as (-> & -> & _).
    unfold onMessage. by rewrite (ST_bind_eq _ _ _ _ _ E2).
Qed.

Lemma http_server_answers_witness :
  ∃ b' p', onMessage defaultHttpCallback 7 (HttpContext_new, demo_buffer) =
      (Ret [Send (response_text (defaultHttpCallback HttpRequest_new (HttpResponse_new false))); Shutdown],
       (HttpContext_new, b')) ∧
    holds p' b' s!"next" ∧
    ∀ line b0, cr ∉ line → (processRequestLine line HttpRequest_new).1 = Ret false →
      holds kCheapPrepend b0 (line ++ kCRLF ++ s!"next") →
      (onMessage defaultHttpCallback 7 (HttpContext_new, b0)).1 =
        Ret [Send (s!"HTTP/1.1 400 Bad Request" ++ kCRLF ++ kCRLF); Shutdown].
Proof.
  apply (http_server_answers defaultHttpCallback kGet s!"/a" s!"?x=1" kHttp11
    [(s!"Host", s!"h"); (s!"A", s!"b c")] s!"next" 7 kCheapPrepend demo_buffer).
  - by vm_compute.
  - done.
  - apply demo_buffer_holds.
  - split; [split; vm_compute; congruence|by vm_compute].
  - vm_compute. discriminate.
Defined.
