(* ===== verification/HttpSession.v ===== *)
(** * An HTTP connection from end to end (master/net/http/HttpServer.cc,
    TcpConnection.cc, HttpContext.cc)

    [HttpServer::onConnection] puts a fresh [HttpContext] into the connection;
    from then on every piece of the stream that the kernel delivers goes
    through [Buffer::readFd], [HttpServer::onMessage] and the parser.  The
    theorems are about whole connections: however the stream is cut, the calls
    made on the connection are the answers to the requests, in order, and a
    client that waits for each answer gets them all.  (After an answer with
    [closeConnection] the connection is shut down, and [TcpConnection::send]
    drops what comes later.) *)
From S2P Require Import Prelude Buffer HttpContext HttpServer.
Local Open Scope Z_scope.

(** The context is a [std::any] that is empty until [onConnection] fills it. *)
Record HttpConn := MkHttpConn {
  context_ : option HttpContext;
  inputBuffer_ : Buffer;
}.

(** A new [TcpConnection]. *)
Definition HttpConn_new : HttpConn := MkHttpConn None (Buffer_new kInitialSize).

Section Server.
Context (cb : HttpRequest → HttpResponse → HttpResponse).

Definition onConnection (connected : bool) : ST HttpConn unit :=
  if connected then st_modify (λ s, MkHttpConn (Some HttpContext_new) (inputBuffer_ s)) else mret ().

(** [onMessage] bound to the connection; [any_cast] of an empty context is a
    null pointer, which is used. *)
Definition messageCallback (t : Z) : ST HttpConn (list conn_op) := λ s,
  match context_ s with
  | None => (Undef, s)
  | Some c =>
      let '(o, cb') := onMessage cb t (c, inputBuffer_ s) in (o, MkHttpConn (Some cb'.1) cb'.2)
  end.

(** [TcpConnection::handleRead] when the kernel has [data], that is the branch
    [n > 0]; the end of the stream and errors are in [TcpConnection.handleRead]. *)
Definition receive (t : Z) (data : bytes) : ST HttpConn (list conn_op) := λ s,
  match readFd (SysData data) (inputBuffer_ s) with
  | (Ret (n, _), b) =>
      let s' := MkHttpConn (context_ s) b in
      if 0 <? n then messageCallback t s' else (Ret [], s')
  | (Throw e, b) => (Throw e, MkHttpConn (context_ s) b)
  | (AssertFail, b) => (AssertFail, MkHttpConn (context_ s) b)
  | (Undef, b) => (Undef, MkHttpConn (context_ s) b)
  end.

(** The pieces of the stream, each with the time of its arrival. *)
Fixpoint receive_all (segs : list (Z * bytes)) : ST HttpConn (list conn_op) :=
  match segs with
  | [] => mret []
  | (t, data) :: segs => ops ← receive t data; more ← receive_all segs; mret (ops ++ more)
  end.

(** A connection's life up to here: established, then the stream. *)
Definition http_connection (segs : list (Z * bytes)) : ST HttpConn (list conn_op) :=
  onConnection true ;; receive_all segs.
End Server.

(** ** The parser across pieces *)
Section Pieces.
Implicit Types (c : HttpContext) (data more : bytes).

(** The headers do not look at the time. *)
Lemma parse_headers_time fuel t t' ok c data :
  state_ c = kExpectHeaders → parse_content fuel t ok c data = parse_content fuel t' ok c data.
Proof.
  revert ok c data. induction fuel as [|fuel IH]; intros ok c data Hc; [done|].
  cbn [parse_content]. rewrite Hc. destruct (split_line data) as [[line rest]|]; [|done].
  destruct (break_at colon_char line) as [f [v|]]; [|done]. by apply IH.
Qed.

Lemma parse_headers_state fuel t ok c data ok1 c1 rest :
  state_ c = kExpectHeaders → parse_content fuel t ok c data = Ret (ok1, c1, rest) →
  state_ c1 ≠ kExpectRequestLine.
Proof.
  revert ok c data. induction fuel as [|fuel IH]; intros ok c data Hc; [done|].
  cbn [parse_content]. rewrite Hc. destruct (split_line data) as [[line tl]|].
  - destruct (break_at colon_char line) as [f [v|]]; [by apply IH|]. by intros [= <- <- <-].
  - intros [= <- <- <-]. by rewrite Hc.
Qed.

(** A parse that is still at the request line has taken nothing. *)
Lemma parse_line_waits fuel t c data c1 rest : parsing c →
  parse_content fuel t true c data = Ret (true, c1, rest) → state_ c1 = kExpectRequestLine →
  c1 = c ∧ rest = data.
Proof.
  intros Hc Hp H1. destruct fuel as [|fuel]; [done|]. cbn [parse_content] in Hp.
  destruct Hc as [Hc|Hc]; rewrite Hc in Hp; destruct (split_line data) as [[line tl]|]; simplify_eq; try done.
  - destruct (processRequestLine line (request_ c)) as [[[|]| | |] r]; simplify_eq.
    exfalso. eapply parse_headers_state; [|exact Hp|exact H1]; done.
  - destruct (break_at colon_char line) as [f [v|]]; simplify_eq.
    exfalso. eapply parse_headers_state; [|exact Hp|exact H1]; done.
Qed.

(** What is decided stays decided when more bytes arrive. *)
Lemma parse_decided fuel t c data more : (length (data ++ more) < fuel)%nat → parsing c →
  (∃ c1 rest, parse_content fuel t true c data = Ret (true, c1, rest) ∧ gotAll c1 = false) ∨
  (∃ ok1 c1 rest, parse_content fuel t true c data = Ret (ok1, c1, rest) ∧
     parse_content fuel t true c (data ++ more) = Ret (ok1, c1, rest ++ more)) ∨
  (parse_content fuel t true c data = AssertFail ∧ parse_content fuel t true c (data ++ more) = AssertFail).
Proof.
  revert c data. induction fuel as [|fuel IH]; intros c data Hf Hc; [lia|]. cbn [parse_content].
  destruct (split_line data) as [[line tl]|] eqn:E.
  2:{ left. exists c, data. unfold gotAll. by destruct Hc as [-> | ->]. }
  pose proof (split_line_length _ _ _ E) as Hlen. rewrite (split_line_app _ more _ _ E).
  rewrite length_app in *. assert (length (tl ++ more) < fuel)%nat as Htl by (rewrite length_app; lia).
  destruct Hc as [Hc|Hc]; rewrite Hc.
  - destruct (processRequestLine_cases line (request_ c)) as [[ok Hok]|[_ Hr]].
    2:{ rewrite Hr. auto. }
    destruct (processRequestLine line (request_ c)) as [o r]. simpl in Hok. subst o.
    destruct ok; [apply IH; [done|by right]|]. right. left. by eexists _, _, _.
  - destruct (break_at colon_char line) as [f [v|]]; [apply IH; [done|by right]|].
    right. left. by eexists _, _, _.
Qed.
End Pieces.

(** ** Requests and their answers *)
Record http_req := HttpReq {
  q_method : Method;
  q_path : bytes;
  q_query : bytes;
  q_version : Version;
  q_headers : list (bytes * bytes);
}.

Definition req_text (r : http_req) : bytes :=
  render_request (q_method r) (q_path r) (q_query r) (q_version r) (q_headers r).
Definition req_ok (r : http_req) : bool :=
  request_ok (q_method r) (q_path r) (q_query r) (q_version r) (q_headers r).
(** As the callback sees it, with the time its request line arrived. *)
Definition req_at (r : http_req) (t : Z) : HttpRequest :=
  MkRequest (q_method r) (q_version r) (q_path r) (q_query r) t (header_map (q_headers r)).

Section Answers.
Context (cb : HttpRequest → HttpResponse → HttpResponse).

Definition answer (r : http_req) (t : Z) : list conn_op :=
  let resp := cb (req_at r t) (HttpResponse_new (should_close (req_at r t))) in
  Send (response_text resp) :: (if closeConnection_ resp then [Shutdown] else []).

Definition answerable (r : http_req) : Prop :=
  req_ok r = true ∧ ∀ t,
    let resp := cb (req_at r t) (HttpResponse_new (should_close (req_at r t))) in
    response_ok resp ∧ kCheapPrepend + kInitialSize + zlen (response_text resp) ≤ max_size.

(** [at_request c q u ts]: the context [c] and the buffered bytes [q] are what
    the bytes [u] of the current request have become, whose request line, if it
    is complete, arrived at one of the times [ts]. *)
Definition at_request (c : HttpContext) (q u : bytes) (ts : list Z) : Prop :=
  (c = HttpContext_new ∧ q = u) ∨
  (state_ c = kExpectHeaders ∧ ∃ t0, t0 ∈ ts ∧
    ∀ t more, parse_bytes t c (q ++ more) = parse_bytes t0 HttpContext_new (u ++ more)).

Lemma at_request_parsing c q u ts : at_request c q u ts → parsing c.
Proof. intros [[-> _]|[? _]]; [by left|by right]. Qed.

(** Either way the parser sees the current request's bytes. *)
Lemma at_request_parse c q u ts t : at_request c q u ts → ∃ t0, t0 ∈ t :: ts ∧
  ∀ more, parse_bytes t c (q ++ more) = parse_bytes t0 HttpContext_new (u ++ more).
Proof.
  intros [[-> ->]|[_ (t0 & Ht0 & Heq)]]; [exists t; split; [left|done]|exists t0; split; [by right|done]].
Qed.

(** A piece that does not complete the request. *)
Lemma at_request_more c q u ts t c1 rest :
  at_request c q u ts → parse_bytes t c q = Ret (true, c1, rest) → gotAll c1 = false →
  at_request c1 rest u (t :: ts).
Proof.
  intros Hat Hp Hg. pose proof (at_request_parsing _ _ _ _ Hat) as Hc.
  pose proof (at_request_parse _ _ _ _ t Hat) as (t0 & Ht0 & Heq).
  unfold parse_bytes in Hp.
  destruct (decide (state_ c1 = kExpectRequestLine)) as [H1|H1].
  - destruct (parse_line_waits _ _ _ _ _ _ Hc Hp H1) as [-> ->].
    destruct Hat as [?|[? _]]; [by left|congruence].
  - assert (∀ more, parse_bytes t c (q ++ more) = parse_bytes t c1 (rest ++ more) ∧ parsing c1) as Happ.
    { intros more. pose proof (parse_content_rest _ _ _ _ _ _ _ _ Hp). unfold parse_bytes.
      destruct (parse_content_app (S (length (q ++ more))) t true c q more c1 rest) as [-> Hc1]; [lia|done| |done|].
      - rewrite <-Hp. apply parse_content_fuel; [rewrite length_app; lia|lia|done].
      - split; [|done]. apply parse_content_bytes; [rewrite !length_app; lia|done]. }
    right. destruct (Happ []) as [_ [?|Hc1]]; [done|]. split; [done|].
    exists t0. split; [done|]. intros t' more. rewrite <-Heq. destruct (Happ more) as [-> _].
    by apply parse_headers_time.
Qed.

(** A strict prefix of a well-formed request does not complete it. *)
Lemma request_prefix_waits r t u more : req_ok r = true → u ++ more = req_text r → more ≠ [] →
  ∃ c1 rest, parse_bytes t HttpContext_new u = Ret (true, c1, rest) ∧ gotAll c1 = false.
Proof.
  intros Hok Hu Hne. set (fuel := S (length (u ++ more))).
  pose proof (parse_rendered _ _ _ _ _ [] t Hok) as Hall. rewrite app_nil_r in Hall. fold (req_text r) in Hall.
  rewrite <-Hu in Hall. unfold parse_bytes in *. fold fuel in Hall.
  rewrite <-(parse_content_bytes fuel) by (by left || (unfold fuel; rewrite length_app; lia)).
  destruct (parse_decided fuel t HttpContext_new u more) as
    [?|[(ok1 & c1 & rest & H1 & H2)|(_ & H2)]]; [unfold fuel; lia|by left|done| |congruence].
  exfalso. rewrite H2 in Hall. injection Hall as _ _ Hr. by apply app_eq_nil in Hr as [_ ?].
Qed.

(** ** One piece of the stream *)
Definition conn_inv (s : HttpConn) (u : bytes) (ts : list Z) (n : Z) : Prop :=
  ∃ c p q, context_ s = Some c ∧ kCheapPrepend ≤ p ∧ holds p (inputBuffer_ s) q ∧
    at_request c q u ts ∧ zlen (buffer_ (inputBuffer_ s)) ≤ n.

Definition piece_ok (data : bytes) : Prop := data ≠ [] ∧ zlen data ≤ kExtraBuf.

(** The bytes reach the parser. *)
Lemma receive_reads t data s u ts n :
  conn_inv s u ts n → piece_ok data → n + zlen data ≤ max_size → ∃ c p q b,
    receive cb t data s = messageCallback cb t (MkHttpConn (Some c) b) ∧
    kCheapPrepend ≤ p ∧ holds p b q ∧ at_request c q (u ++ data) ts ∧ zlen (buffer_ b) ≤ n + zlen data.
Proof.
  intros (c & p & q & Hc & Hp & Hh & Hat & Hn) [Hne Hd] Hmax.
  destruct (readFd_holds _ _ _ data Hh) as (b & p' & Hr & Hh' & Hp' & Hsz); [|lia|].
  { unfold readFd_capacity. rewrite (holds_writable _ _ _ Hh). pose proof (holds_bounds _ _ _ Hh). case_if; lia. }
  exists c, p', (q ++ data), b. split.
  - unfold receive. rewrite Hr. rewrite (proj2 (Z.ltb_lt _ _)); [by rewrite Hc|].
    destruct data; [done|]. unfold zlen. simpl. lia.
  - split; [lia|]. split; [done|]. split; [|lia].
    destruct Hat as [[-> ->]|[Hs (t0 & Ht0 & Heq)]]; [by left|right]. split; [done|]. exists t0.
    split; [done|]. intros t' more. rewrite <-!app_assoc. apply Heq.
Qed.

(** The request is not complete yet: nothing is sent. *)
Lemma receive_waits t data s u ts n r more :
  conn_inv s u ts n → piece_ok data → n + zlen data ≤ max_size → req_ok r = true →
  (u ++ data) ++ more = req_text r → more ≠ [] →
  ∃ s', receive cb t data s = (Ret [], s') ∧ conn_inv s' (u ++ data) (t :: ts) (n + zlen data).
Proof.
  intros Hi Hd Hmax Hok Hu Hne.
  destruct (receive_reads t data s u ts n Hi Hd Hmax) as (c & p & q & b & -> & Hp & Hh & Hat & Hb).
  pose proof (at_request_parse _ _ _ _ t Hat) as (t0 & Ht0 & Heq). specialize (Heq []). rewrite !app_nil_r in Heq.
  destruct (request_prefix_waits r t0 (u ++ data) more Hok Hu Hne) as (c1 & rest & Hpre & Hg). rewrite <-Heq in Hpre.
  pose proof (parseRequest_content t c b q p Hp Hh) as Hres. rewrite Hpre in Hres.
  destruct (parseRequest t (c, b)) as [o [c2 b']] eqn:E. simpl in Hres.
  destruct Hres as (-> & <- & (p' & Hp' & Hh') & Hb'). eexists. split.
  - unfold messageCallback, onMessage. cbn [context_ inputBuffer_]. rewrite (ST_bind_eq _ _ _ _ _ E).
    unfold mbind, ST_bind, st_get. cbn [fst snd]. by rewrite Hg.
  - exists c2, p', rest. do 3 (split; [done|]). split; [by eapply at_request_more|]. simpl. by rewrite Hb'.
Qed.

(** The request is complete: its answer is sent, and what follows waits. *)
Lemma receive_answers t data s u ts n r u' :
  conn_inv s u ts n → piece_ok data → n + zlen data ≤ max_size → answerable r →
  u ++ data = req_text r ++ u' → ∃ s' t0, t0 ∈ t :: ts ∧
    receive cb t data s = (Ret (answer r t0), s') ∧ conn_inv s' u' [] (n + zlen data).
Proof.
  intros Hi Hd Hmax [Hok Hans] Hu.
  destruct (receive_reads t data s u ts n Hi Hd Hmax) as (c & p & q & b & -> & Hp & Hh & Hat & Hb).
  pose proof (at_request_parse _ _ _ _ t Hat) as (t0 & Ht0 & Heq). specialize (Heq []). rewrite !app_nil_r in Heq.
  pose proof (parse_rendered _ _ _ _ _ u' t0 Hok) as Hall. fold (req_text r) (req_at r t0) in Hall.
  rewrite <-Hu, <-Heq in Hall.
  pose proof (parseRequest_content t c b q p Hp Hh) as Hres. rewrite Hall in Hres.
  destruct (parseRequest t (c, b)) as [o [c2 b']] eqn:E. simpl in Hres.
  destruct Hres as (-> & -> & (p' & Hp' & Hh') & Hb'). destruct (Hans t0) as [Hr Hm].
  eexists _, t0. split; [done|]. split.
  - unfold messageCallback, onMessage. cbn [context_ inputBuffer_]. rewrite (ST_bind_eq _ _ _ _ _ E).
    unfold mbind, ST_bind, st_get, lift. change (gotAll _) with true. cbn [fst snd request_ app].
    by rewrite (onRequest_answer cb (req_at r t0)).
  - exists HttpContext_new, p', u'. do 3 (split; [done|]). split; [by left|]. simpl. by rewrite Hb'.
Qed.

(** ** Whole streams *)
Lemma receive_all_app segs1 segs2 s s1 s2 o1 o2 :
  receive_all cb segs1 s = (Ret o1, s1) → receive_all cb segs2 s1 = (Ret o2, s2) →
  receive_all cb (segs1 ++ segs2) s = (Ret (o1 ++ o2), s2).
Proof.
  revert s o1. induction segs1 as [|[t data] segs1 IH]; intros s o1 H1 H2; [by injection H1 as <- ->|].
  cbn [receive_all app] in *. apply ST_bind_Ret in H1 as (a & s' & Ha & H1).
  apply ST_bind_Ret in H1 as (b & s'' & Hb & [= <- ->]).
  rewrite (ST_bind_eq _ _ _ _ _ Ha), (ST_bind_eq _ _ _ _ _ (IH _ _ Hb H2)). by rewrite <-app_assoc.
Qed.

Abbreviation stream segs := (concat (snd <$> segs)).

Lemma req_text_nonempty r : req_text r ≠ [].
Proof. unfold req_text, render_request, request_line. by destruct (methodString (q_method r)). Qed.

(** The pieces of one request: the last one brings the answer. *)
Lemma receive_request segs s u ts n r :
  conn_inv s u ts n → Forall piece_ok (snd <$> segs) → n + zlen (stream segs) ≤ max_size → answerable r →
  u ++ stream segs = req_text r → segs ≠ [] → ∃ s' t0, t0 ∈ (fst <$> segs) ++ ts ∧
    receive_all cb segs s = (Ret (answer r t0), s') ∧ conn_inv s' [] [] (n + zlen (stream segs)).
Proof.
  revert s u ts n. induction segs as [|[t data] segs IH]; intros s u ts n Hi Hok Hmax Ha Hu Hne; [done|].
  cbn [fmap list_fmap concat fst snd] in *. apply Forall_cons in Hok as [Hd Hok].
  rewrite zlen_app in Hmax |- *. pose proof (zlen_nonneg (stream segs)). cbn [receive_all].
  destruct segs as [|seg segs].
  - cbn [fmap list_fmap concat] in *. rewrite app_nil_r in Hu.
    destruct (receive_answers t data s u ts n r [] Hi Hd) as (s' & t0 & Ht0 & Hr & Hi'); [lia|done|by rewrite app_nil_r|].
    exists s', t0. rewrite (ST_bind_eq _ _ _ _ _ Hr). cbn [receive_all]. unfold mbind, ST_bind, mret, ST_ret.
    rewrite app_nil_r, Z.add_0_r. split; [exact Ht0|done].
  - assert (stream (seg :: segs) ≠ []) as Hmore.
    { apply Forall_cons in Hok as [[Hx _] _]. cbn. by destruct (seg.2). }
    destruct (receive_waits t data s u ts n r (stream (seg :: segs)) Hi Hd) as (s1 & Hr & Hi1); [lia|apply Ha|by rewrite <-app_assoc|done|].
    destruct (IH s1 _ _ _ Hi1) as (s' & t0 & Ht0 & Hr' & Hi'); [done|lia|done|by rewrite <-app_assoc|done|].
    exists s', t0. rewrite (ST_bind_eq _ _ _ _ _ Hr), (ST_bind_eq _ _ _ _ _ Hr'). rewrite Z.add_assoc.
    split; [|done]. revert Ht0. rewrite !elem_of_app, !elem_of_cons. cbn. rewrite elem_of_cons. tauto.
Qed.

(** A client that waits for each answer. *)
Lemma receive_requests reqs batches s n :
  conn_inv s [] [] n → Forall2 (λ r b, stream b = req_text r) reqs batches →
  Forall piece_ok (snd <$> concat batches) → n + zlen (stream (concat batches)) ≤ max_size →
  Forall answerable reqs → ∃ s' ts n',
    receive_all cb (concat batches) s = (Ret (concat (zip_with answer reqs ts)), s') ∧
    Forall2 (λ t b, t ∈ (fst <$> b)) ts batches ∧ conn_inv s' [] [] n'.
Proof.
  intros Hi Hb. revert s n Hi. induction Hb as [|r b reqs batches Hr Hb IH]; intros s n Hi Hok Hmax Ha.
  { exists s, [], n. done. }
  cbn [concat] in *. rewrite fmap_app, concat_app, zlen_app in *. apply Forall_app in Hok as [Hok1 Hok].
  apply Forall_cons in Ha as [Ha1 Ha]. pose proof (zlen_nonneg (stream (concat batches))).
  assert (b ≠ []) as Hne by (intros ->; by apply (req_text_nonempty r)).
  destruct (receive_request b s [] [] n r Hi Hok1) as (s1 & t0 & Ht0 & H1 & Hi1); [lia|done..|].
  destruct (IH s1 _ Hi1 Hok) as (s' & ts & n' & H2 & Hts & Hi'); [lia|done|].
  exists s', (t0 :: ts), n'. rewrite app_nil_r in Ht0. split; [|by split; [constructor|]].
  cbn [zip_with concat]. rewrite (receive_all_app b _ _ _ _ _ _ H1 H2). done.
Qed.

(** Any pieces of a stream of requests, pipelined or not. *)
Lemma receive_stream segs s u ts n reqs :
  conn_inv s u ts n → Forall piece_ok (snd <$> segs) → n + zlen (stream segs) ≤ max_size →
  Forall answerable reqs → (u ++ stream segs) `prefix_of` concat (req_text <$> reqs) → ∃ s' k ts',
    receive_all cb segs s = (Ret (concat (zip_with answer (take k reqs) ts')), s') ∧
    (k ≤ length reqs)%nat ∧ length ts' = k ∧ Forall (λ t, t ∈ (fst <$> segs) ++ ts) ts'.
Proof.
  revert s u ts n reqs. induction segs as [|[t data] segs IH]; intros s u ts n reqs Hi Hok Hmax Ha Hpre.
  { exists s, 0%nat, []. split; [done|]. split; [lia|done]. }
  cbn [fmap list_fmap concat fst snd] in *. apply Forall_cons in Hok as [Hd Hok].
  rewrite zlen_app in Hmax. pose proof (zlen_nonneg (stream segs)). rewrite app_assoc in Hpre.
  cbn [receive_all]. destruct reqs as [|r reqs].
  { cbn in Hpre. apply prefix_nil_inv in Hpre. apply app_eq_nil in Hpre as [Hpre _].
    apply app_eq_nil in Hpre as [_ ->]. by destruct Hd. }
  pose proof Ha as [Har Ha']%Forall_cons. cbn [fmap list_fmap concat] in Hpre.
  assert (∀ x, x ∈ (fst <$> segs) ++ t :: ts → x ∈ t :: (fst <$> segs) ++ ts) as Hin.
  { intros x. rewrite elem_of_app, !elem_of_cons, elem_of_app. tauto. }
  destruct (decide (req_text r `prefix_of` u ++ data)) as [[u' Hu']|Hnot].
  - destruct (receive_answers t data s u ts n r u' Hi Hd) as (s1 & t0 & Ht0 & H1 & Hi1); [lia|done..|].
    destruct (IH s1 u' [] _ reqs Hi1 Hok) as (s' & k & ts' & H2 & Hk & Hl & Hts); [lia|done| |].
    { rewrite Hu', <-app_assoc in Hpre. by apply prefix_app_inv in Hpre. }
    exists s', (S k), (t0 :: ts'). rewrite (ST_bind_eq _ _ _ _ _ H1), (ST_bind_eq _ _ _ _ _ H2).
    split; [done|]. split; [cbn; lia|]. split; [cbn; lia|]. constructor.
    + revert Ht0. rewrite elem_of_app, !elem_of_cons. tauto.
    + eapply Forall_impl; [exact Hts|]. intros x. cbv beta. rewrite app_nil_r, elem_of_app, elem_of_cons. tauto.
  - destruct (prefix_weak_total (u ++ data) (req_text r) (req_text r ++ concat (req_text <$> reqs)))
      as [[more Hmore]|?]; [by eapply prefix_app_l|by apply prefix_app_r| |done].
    assert (more ≠ []) as Hne by (intros ->; apply Hnot; rewrite Hmore, app_nil_r; done).
    destruct (receive_waits t data s u ts n r more Hi Hd) as (s1 & H1 & Hi1); [lia|apply Har|done..|].
    destruct (IH s1 _ _ _ (r :: reqs) Hi1 Hok) as (s' & k & ts' & H2 & Hk & Hl & Hts); [lia|done|done|].
    exists s', k, ts'. rewrite (ST_bind_eq _ _ _ _ _ H1), (ST_bind_eq _ _ _ _ _ H2).
    do 3 (split; [done|]). eapply Forall_impl; [exact Hts|]. intros x. by apply Hin.
Qed.
End Answers.

(** ** Properties *)

(** C11: An HTTP connection, however its stream is cut into pieces: for any stream
    of well-formed requests (or the beginning of one) the server calls [send]
    with the answers to the first so many requests, each once, in order
    ([shutdown] after those that close), and nothing else, without a failed
    assertion; the callback sees each request exactly as it was written.  When each piece belongs to one request, as for a client
    that waits for each answer before it sends on, every request is answered,
    with the time of one of its own pieces. *)
Theorem http_connection_answers (cb : HttpRequest → HttpResponse → HttpResponse)
    (reqs : list http_req) (segs : list (Z * bytes)) :
  Forall (answerable cb) reqs → Forall piece_ok (snd <$> segs) →
  kCheapPrepend + kInitialSize + zlen (concat (snd <$> segs)) ≤ max_size →
  (concat (snd <$> segs) `prefix_of` concat (req_text <$> reqs) → ∃ s k ts,
    http_connection cb segs HttpConn_new = (Ret (concat (zip_with (answer cb) (take k reqs) ts)), s) ∧
    (k ≤ length reqs)%nat ∧ length ts = k ∧ Forall (λ t, t ∈ (fst <$> segs)) ts) ∧
  (∀ batches, segs = concat batches → Forall2 (λ r b, concat (snd <$> b) = req_text r) reqs batches →
    ∃ s ts, http_connection cb segs HttpConn_new = (Ret (concat (zip_with (answer cb) reqs ts)), s) ∧
      Forall2 (λ t b, t ∈ (fst <$> b)) ts batches ∧ context_ s = Some HttpContext_new).
Proof.
  intros Ha Hok Hmax. set (s0 := MkHttpConn (Some HttpContext_new) (Buffer_new kInitialSize)).
  assert (conn_inv s0 [] [] (kCheapPrepend + kInitialSize)) as Hi.
  { exists HttpContext_new, kCheapPrepend, []. split; [done|]. split; [done|].
    split; [by apply holds_new|]. split; [by left|done]. }
  assert (∀ r, receive_all cb segs s0 = r → http_connection cb segs HttpConn_new = r) as Hrun by (by intros r <-).
  split.
  - intros Hpre. destruct (receive_stream cb segs s0 [] [] _ reqs Hi Hok Hmax Ha Hpre)
      as (s & k & ts & Hr & Hk & Hl & Hts).
    exists s, k, ts. rewrite app_nil_r in Hts. split; [by apply Hrun|done].
  - intros batches -> Hb. destruct (receive_requests cb reqs batches s0 _ Hi Hb Hok Hmax Ha)
      as (s & ts & n & Hr & Hts & c & p & q & Hc & _ & _ & Hat & _).
    exists s, ts. split; [by apply Hrun|]. split; [done|].
    destruct Hat as [[-> _]|[_ (t0 & []%not_elem_of_nil & _)]]. done.
Qed.

(** Two requests on a connection that stays open: the first arrives in two
    pieces; the callback greets. *)
Definition demo_callback (_ : HttpRequest) (r : HttpResponse) : HttpResponse :=
  setBody s!"hello" (setStatusMessage s!"OK" (setStatusCode k200Ok r)).
Definition demo_http_req (p : bytes) : http_req := HttpReq kGet p [] kHttp11 [(s!"Host", s!"h")].
Definition demo_batches : list (list (Z * bytes)) :=
  [[(5, s!"GET /a HT"); (6, s!"TP/1.1" ++ kCRLF ++ s!"Host: h" ++ kCRLF ++ kCRLF)];
   [(9, req_text (demo_http_req s!"/b"))]].

Lemma demo_answerable p : req_ok (demo_http_req p) = true → answerable demo_callback (demo_http_req p).
Proof. intros Hok. split; [done|]. intros t. split; [split; [split; vm_compute; congruence|by vm_compute]|]. vm_compute. discriminate. Qed.

Lemma http_connection_answers_witness : ∃ s ts,
  http_connection demo_callback (concat demo_batches) HttpConn_new =
    (Ret (concat (zip_with (answer demo_callback)
      [demo_http_req s!"/a"; demo_http_req s!"/b"] ts)), s) ∧
  Forall2 (λ t b, t ∈ (fst <$> b)) ts demo_batches ∧ context_ s = Some HttpContext_new.
Proof.
  refine (proj2 (http_connection_answers demo_callback
    [demo_http_req s!"/a"; demo_http_req s!"/b"] (concat demo_batches) _ _ _) demo_batches eq_refl _).
  - repeat constructor; by apply demo_answerable.
  - repeat constructor; done.
  - done.
  - repeat constructor.
Defined.
