(* ===== verification/Inspector.v ===== *)
(** * The inspector's registry and pages (master/net/inspect/Inspector.cc, Inspector.h)

    An inspector is an HTTP server whose callback answers "/module/command"
    from two [std::map]s of maps, the commands and their help texts.  [add],
    [remove] and the map accesses of [onRequest] each run under [mutex_], so
    the calls of all threads are a sequence of these operations.  A command's
    callback is a parameter; an empty [std::function] is [None].  The log
    lines of [onRequest] are left out. *)
From stdpp Require Import sorting.
From S2P Require Import Prelude CxxString StdContainers HttpContext HttpServer.
Local Open Scope Z_scope.

Definition slash : ascii := ascii_of_N 47.

Fixpoint split_loop (fuel : nat) (str : bytes) (start : Z) (pos : option Z) (result : list bytes)
    : outcome (list bytes * Z) :=
  match fuel, pos with
  | _, None => Ret (result, start)
  | O, _ => Undef
  | S fuel', Some pos =>
      result ← (if start <? pos
                then piece ← substr str start (pos - start); Ret (result ++ [piece])
                else Ret result);
      split_loop fuel' str (pos + 1) (str_find [slash] str (pos + 1)) result
  end.

Definition split (str : bytes) : outcome (list bytes) :=
  '(result, start) ← split_loop (length str + 1) str 0 (str_find [slash] str 0) [];
  if start <? zlen str
  then piece ← substr str start (zlen str); Ret (result ++ [piece])
  else Ret result.

Definition favicon_bytes : list Z := [
  137; 80; 78; 71; 13; 10; 26; 10; 0; 0; 0; 13; 73; 72; 68; 82; 0; 0; 0; 16;
  0; 0; 0; 16; 8; 6; 0; 0; 0; 31; 243; 255; 97; 0; 0; 0; 4; 115; 66; 73;
  84; 8; 8; 8; 8; 124; 8; 100; 136; 0; 0; 0; 9; 112; 72; 89; 115; 0; 0; 11;
  18; 0; 0; 11; 18; 1; 210; 221; 126; 252; 0; 0; 0; 28; 116; 69; 88; 116; 83; 111;
  102; 116; 119; 97; 114; 101; 0; 65; 100; 111; 98; 101; 32; 70; 105; 114; 101; 119; 111; 114;
  107; 115; 32; 67; 83; 51; 152; 214; 70; 3; 0; 0; 0; 21; 116; 69; 88; 116; 67; 114;
  101; 97; 116; 105; 111; 110; 32; 84; 105; 109; 101; 0; 50; 47; 49; 55; 47; 48; 56; 32;
  156; 170; 88; 0; 0; 4; 17; 116; 69; 88; 116; 88; 77; 76; 58; 99; 111; 109; 46; 97;
  100; 111; 98; 101; 46; 120; 109; 112; 0; 60; 63; 120; 112; 97; 99; 107; 101; 116; 32; 98;
  101; 103; 105; 110; 61; 34; 32; 32; 32; 34; 32; 105; 100; 61; 34; 87; 53; 77; 48; 77;
  112; 67; 101; 104; 105; 72; 122; 114; 101; 83; 122; 78; 84; 99; 122; 107; 99; 57; 100; 34;
  63; 62; 10; 60; 120; 58; 120; 109; 112; 109; 101; 116; 97; 32; 120; 109; 108; 110; 115; 58;
  120; 61; 34; 97; 100; 111; 98; 101; 58; 110; 115; 58; 109; 101; 116; 97; 47; 34; 32; 120;
  58; 120; 109; 112; 116; 107; 61; 34; 65; 100; 111; 98; 101; 32; 88; 77; 80; 32; 67; 111;
  114; 101; 32; 52; 46; 49; 45; 99; 48; 51; 52; 32; 52; 54; 46; 50; 55; 50; 57; 55;
  54; 44; 32; 83; 97; 116; 32; 74; 97; 110; 32; 50; 55; 32; 50; 48; 48; 55; 32; 50;
  50; 58; 49; 49; 58; 52; 49; 32; 32; 32; 32; 32; 32; 32; 32; 34; 62; 10; 32; 32;
  32; 60; 114; 100; 102; 58; 82; 68; 70; 32; 120; 109; 108; 110; 115; 58; 114; 100; 102; 61;
  34; 104; 116; 116; 112; 58; 47; 47; 119; 119; 119; 46; 119; 51; 46; 111; 114; 103; 47; 49;
  57; 57; 57; 47; 48; 50; 47; 50; 50; 45; 114; 100; 102; 45; 115; 121; 110; 116; 97; 120;
  45; 110; 115; 35; 34; 62; 10; 32; 32; 32; 32; 32; 32; 60; 114; 100; 102; 58; 68; 101;
  115; 99; 114; 105; 112; 116; 105; 111; 110; 32; 114; 100; 102; 58; 97; 98; 111; 117; 116; 61;
  34; 34; 10; 32; 32; 32; 32; 32; 32; 32; 32; 32; 32; 32; 32; 120; 109; 108; 110; 115;
  58; 120; 97; 112; 61; 34; 104; 116; 116; 112; 58; 47; 47; 110; 115; 46; 97; 100; 111; 98;
  101; 46; 99; 111; 109; 47; 120; 97; 112; 47; 49; 46; 48; 47; 34; 62; 10; 32; 32; 32;
  32; 32; 32; 32; 32; 32; 60; 120; 97; 112; 58; 67; 114; 101; 97; 116; 111; 114; 84; 111;
  111; 108; 62; 65; 100; 111; 98; 101; 32; 70; 105; 114; 101; 119; 111; 114; 107; 115; 32; 67;
  83; 51; 60; 47; 120; 97; 112; 58; 67; 114; 101; 97; 116; 111; 114; 84; 111; 111; 108; 62;
  10; 32; 32; 32; 32; 32; 32; 32; 32; 32; 60; 120; 97; 112; 58; 67; 114; 101; 97; 116;
  101; 68; 97; 116; 101; 62; 50; 48; 48; 56; 45; 48; 50; 45; 49; 55; 84; 48; 50; 58;
  51; 54; 58; 52; 53; 90; 60; 47; 120; 97; 112; 58; 67; 114; 101; 97; 116; 101; 68; 97;
  116; 101; 62; 10; 32; 32; 32; 32; 32; 32; 32; 32; 32; 60; 120; 97; 112; 58; 77; 111;
  100; 105; 102; 121; 68; 97; 116; 101; 62; 50; 48; 48; 56; 45; 48; 51; 45; 50; 52; 84;
  49; 57; 58; 48; 48; 58; 52; 50; 90; 60; 47; 120; 97; 112; 58; 77; 111; 100; 105; 102;
  121; 68; 97; 116; 101; 62; 10; 32; 32; 32; 32; 32; 32; 60; 47; 114; 100; 102; 58; 68;
  101; 115; 99; 114; 105; 112; 116; 105; 111; 110; 62; 10; 32; 32; 32; 32; 32; 32; 60; 114;
  100; 102; 58; 68; 101; 115; 99; 114; 105; 112; 116; 105; 111; 110; 32; 114; 100; 102; 58; 97;
  98; 111; 117; 116; 61; 34; 34; 10; 32; 32; 32; 32; 32; 32; 32; 32; 32; 32; 32; 32;
  120; 109; 108; 110; 115; 58; 100; 99; 61; 34; 104; 116; 116; 112; 58; 47; 47; 112; 117; 114;
  108; 46; 111; 114; 103; 47; 100; 99; 47; 101; 108; 101; 109; 101; 110; 116; 115; 47; 49; 46;
  49; 47; 34; 62; 10; 32; 32; 32; 32; 32; 32; 32; 32; 32; 60; 100; 99; 58; 102; 111;
  114; 109; 97; 116; 62; 105; 109; 97; 103; 101; 47; 112; 110; 103; 60; 47; 100; 99; 58; 102;
  111; 114; 109; 97; 116; 62; 10; 32; 32; 32; 32; 32; 32; 60; 47; 114; 100; 102; 58; 68;
  101; 115; 99; 114; 105; 112; 116; 105; 111; 110; 62; 10; 32; 32; 32; 60; 47; 114; 100; 102;
  58; 82; 68; 70; 62; 10; 60; 47; 120; 58; 120; 109; 112; 109; 101; 116; 97; 62; 10; 32;
  32; 32; 32; 32; 32; 32; 32; 32; 32; 32; 32; 32; 32; 32; 32; 32; 32; 32; 32; 32;
  32; 32; 32; 32; 32; 32; 32; 32; 32; 32; 32; 32; 32; 32; 32; 32; 32; 32; 32; 32;
  32; 32; 32; 32; 32; 32; 32; 32; 32; 32; 32; 32; 32; 32; 32; 32; 32; 32; 32; 32;
  32; 32; 32; 32; 32; 32; 32; 32; 32; 32; 32; 32; 32; 32; 32; 32; 32; 32; 32; 32;
  32; 32; 32; 32; 32; 32; 32; 32; 32; 32; 32; 32; 32; 32; 32; 32; 32; 32; 32; 10;
  32; 32; 32; 32; 32; 32; 32; 32; 32; 32; 32; 32; 32; 32; 32; 32; 32; 32; 32; 32;
  32; 32; 32; 32; 32; 32; 32; 32; 32; 32; 32; 32; 32; 32; 32; 32; 32; 32; 32; 32;
  32; 32; 32; 32; 32; 32; 32; 32; 32; 32; 32; 32; 32; 32; 32; 32; 32; 32; 32; 32;
  32; 32; 32; 32; 32; 32; 32; 32; 32; 32; 32; 32; 32; 32; 32; 32; 32; 32; 32; 32;
  32; 32; 32; 32; 32; 32; 32; 32; 32; 32; 32; 32; 32; 32; 32; 32; 32; 32; 32; 32;
  10; 32; 32; 32; 32; 32; 32; 32; 32; 32; 32; 32; 32; 32; 32; 32; 32; 32; 32; 32;
  32; 32; 32; 32; 32; 32; 32; 32; 32; 32; 32; 32; 32; 32; 32; 32; 32; 32; 32; 32;
  32; 32; 32; 32; 32; 32; 32; 32; 32; 32; 32; 32; 32; 32; 32; 32; 32; 32; 32; 32;
  32; 32; 32; 32; 32; 32; 32; 32; 32; 32; 32; 32; 32; 32; 32; 32; 32; 32; 32; 32;
  32; 32; 32; 32; 32; 32; 32; 32; 32; 32; 32; 32; 53; 29; 82; 100; 0; 0; 2; 11;
  73; 68; 65; 84; 56; 141; 165; 147; 65; 107; 26; 65; 24; 134; 159; 137; 6; 35; 46; 116;
  245; 32; 74; 14; 107; 32; 228; 226; 165; 120; 200; 161; 120; 137; 130; 23; 133; 130; 130; 61;
  38; 98; 88; 114; 205; 79; 241; 24; 75; 27; 47; 165; 50; 224; 181; 158; 53; 26; 88; 47;
  233; 15; 232; 101; 109; 132; 162; 132; 44; 10; 107; 88; 98; 167; 135; 104; 104; 19; 161; 165;
  121; 225; 59; 12; 195; 251; 204; 55; 239; 124; 35; 148; 82; 188; 68; 126; 0; 33; 4; 0;
  173; 86; 203; 24; 143; 199; 13; 219; 182; 211; 142; 227; 248; 131; 193; 160; 138; 199; 227; 63;
  18; 137; 68; 185; 92; 46; 247; 86; 166; 223; 15; 21; 74; 41; 132; 16; 52; 155; 205; 119;
  150; 101; 125; 54; 12; 67; 228; 114; 57; 226; 241; 56; 183; 183; 183; 244; 251; 125; 6; 131;
  1; 169; 84; 234; 67; 165; 82; 57; 126; 10; 64; 41; 69; 171; 213; 50; 78; 79; 79; 127;
  74; 41; 213; 221; 221; 221; 179; 234; 245; 122; 234; 228; 228; 68; 73; 41; 211; 43; 207; 170;
  54; 0; 198; 227; 113; 99; 103; 103; 71; 228; 243; 121; 0; 60; 207; 163; 80; 40; 224; 186;
  46; 158; 231; 145; 74; 165; 216; 219; 219; 99; 52; 26; 125; 124; 154; 193; 6; 128; 109; 219;
  233; 108; 54; 139; 207; 231; 195; 243; 60; 92; 215; 5; 96; 54; 155; 225; 186; 46; 139; 197;
  130; 76; 38; 131; 109; 219; 187; 107; 67; 116; 28; 199; 31; 139; 197; 0; 40; 22; 139; 143;
  155; 213; 106; 21; 0; 41; 37; 154; 166; 49; 159; 207; 197; 90; 192; 214; 214; 150; 154; 76;
  38; 34; 20; 10; 33; 165; 100; 54; 155; 81; 173; 86; 169; 213; 106; 104; 154; 6; 192; 245;
  245; 53; 186; 174; 223; 175; 189; 130; 97; 24; 223; 44; 203; 122; 32; 250; 253; 4; 2; 1;
  0; 52; 77; 35; 16; 8; 176; 88; 44; 232; 118; 187; 36; 18; 137; 139; 181; 29; 108; 111;
  111; 31; 117; 58; 157; 126; 56; 28; 38; 151; 203; 33; 132; 64; 74; 9; 192; 230; 230; 38;
  237; 118; 155; 201; 100; 162; 166; 211; 233; 39; 120; 152; 155; 213; 83; 62; 206; 193; 249; 249;
  249; 251; 193; 96; 112; 156; 76; 38; 217; 223; 223; 39; 18; 137; 48; 28; 14; 185; 188; 188;
  228; 230; 230; 70; 249; 124; 190; 47; 211; 233; 52; 15; 52; 234; 245; 122; 229; 25; 96; 25;
  214; 155; 209; 104; 212; 24; 14; 135; 187; 243; 249; 92; 232; 186; 126; 111; 24; 198; 69; 52;
  26; 61; 44; 149; 74; 223; 77; 211; 188; 2; 94; 3; 95; 129; 131; 179; 179; 51; 231; 15;
  192; 223; 100; 154; 166; 177; 52; 235; 128; 3; 28; 108; 252; 147; 115; 169; 122; 189; 110; 3;
  71; 203; 165; 14; 188; 226; 127; 126; 163; 105; 154; 135; 166; 105; 190; 85; 74; 61; 100; 240;
  18; 253; 2; 13; 83; 6; 36; 136; 63; 225; 105; 0; 0; 0; 0; 73; 69; 78; 68; 174;
  66; 96; 130].

Definition favicon : bytes := Z_byte <$> favicon_bytes.

Section Registry.
Context {Callback : Type}.

(** [std::map<string, Callback>] and [std::map<string, string>]. *)
#[local] Abbreviation CommandList := (list (bytes * option Callback)).
#[local] Abbreviation HelpList := (list (bytes * bytes)).

Record Inspector := MkInspector {
  modules_ : list (bytes * CommandList);
  helps_ : list (bytes * HelpList);
}.

Definition Inspector_empty : Inspector := MkInspector [] [].

(** [m[k1][k2] = v] *)
Definition smap2_insert {V} (k1 k2 : bytes) (v : V) (m : list (bytes * list (bytes * V)))
    : list (bytes * list (bytes * V)) :=
  smap_insert k1 (smap_insert k2 v (default [] (smap_find k1 m))) m.

(** [m[k1].erase(k2)] *)
Definition smap2_erase {V} (k1 k2 : bytes) (m : list (bytes * list (bytes * V)))
    : list (bytes * list (bytes * V)) :=
  smap_insert k1 (smap_erase k2 (default [] (smap_find k1 m))) m.

Definition add (module command : bytes) (cb : option Callback) (help : bytes) (i : Inspector) : Inspector :=
  MkInspector (smap2_insert module command cb (modules_ i)) (smap2_insert module command help (helps_ i)).

Definition remove (module command : bytes) (i : Inspector) : Inspector :=
  match smap_find module (modules_ i) with
  | Some _ => MkInspector (smap2_erase module command (modules_ i)) (smap2_erase module command (helps_ i))
  | None => i
  end.

Definition spaces (n : Z) : bytes := replicate (Z.to_nat n) sp.

Definition help_line (module command help : bytes) : bytes :=
  let len := zlen module + zlen command in
  s!"/" ++ module ++ s!"/" ++ command ++ spaces (if 25 <=? len then 1 else 25 - len) ++ help ++
  [ascii_of_N 10].

(** The two loops that build the index page. *)
Definition help_page (i : Inspector) : bytes :=
  foldl (λ result ml, foldl (λ result it, result ++ help_line ml.1 it.1 it.2) result ml.2) [] (helps_ i).

Definition ok_page (type body : bytes) (resp : HttpResponse) : HttpResponse :=
  setBody body (setContentType type (setStatusMessage s!"OK" (setStatusCode k200Ok resp))).

Definition not_found (resp : HttpResponse) : HttpResponse :=
  setStatusMessage s!"Not Found" (setStatusCode k404NotFound resp).

(** [registerCommands] of ProcessInspector.cc and SystemInspector.cc. *)
Record ProcessPages := MkProcessPages {
  proc_overview : Callback; proc_pid : Callback; proc_status : Callback; proc_threads : Callback }.
Record SystemPages := MkSystemPages {
  sys_overview : Callback; sys_loadavg : Callback; sys_version : Callback;
  sys_cpuinfo : Callback; sys_meminfo : Callback; sys_stat : Callback }.

Definition process_registerCommands (p : ProcessPages) (ins : Inspector) : Inspector :=
  let ins := add s!"proc" s!"overview" (Some (proc_overview p)) s!"print basic overview" ins in
  let ins := add s!"proc" s!"pid" (Some (proc_pid p)) s!"print pid" ins in
  let ins := add s!"proc" s!"status" (Some (proc_status p)) s!"print /proc/self/status" ins in
  add s!"proc" s!"threads" (Some (proc_threads p)) s!"list /proc/self/task" ins.

Definition system_registerCommands (p : SystemPages) (ins : Inspector) : Inspector :=
  let ins := add s!"sys" s!"overview" (Some (sys_overview p)) s!"print system overview" ins in
  let ins := add s!"sys" s!"loadavg" (Some (sys_loadavg p)) s!"print /proc/loadavg" ins in
  let ins := add s!"sys" s!"version" (Some (sys_version p)) s!"print /proc/version" ins in
  let ins := add s!"sys" s!"cpuinfo" (Some (sys_cpuinfo p)) s!"print /proc/cpuinfo" ins in
  let ins := add s!"sys" s!"meminfo" (Some (sys_meminfo p)) s!"print /proc/meminfo" ins in
  add s!"sys" s!"stat" (Some (sys_stat p)) s!"print /proc/stat" ins.

(** The state is [g_globalInspector != 0].  [server_] and the timer that
    starts it are those of HttpServer.v and EventLoop.v; HAVE_TCMALLOC is not
    defined. *)
Definition Inspector_ctor (isMainThread : bool) (pp : ProcessPages) (sp : SystemPages) : ST bool Inspector :=
  lift (assert_ isMainThread) ;;
  g_globalInspector ← st_get;
  lift (assert_ (negb g_globalInspector)) ;;
  st_put true ;;
  mret (system_registerCommands sp (process_registerCommands pp Inspector_empty)).

Definition Inspector_dtor (isMainThread : bool) : ST bool unit :=
  lift (assert_ isMainThread) ;; st_put false.

Context (run_callback : Callback → Method → list bytes → bytes).

Definition onRequest (i : Inspector) (req : HttpRequest) (resp : HttpResponse) : outcome HttpResponse :=
  if bool_decide (path_ req = s!"/") then Ret (ok_page s!"text/plain" (help_page i) resp)
  else
    result ← split (path_ req);
    Ret (match result with
         | [] => not_found resp
         | [module] =>
             if bool_decide (module = s!"favicon.ico") then ok_page s!"image/png" favicon resp
             else not_found resp
         | module :: command :: args =>
             match smap_find module (modules_ i) with
             | Some commList =>
                 match smap_find command commList with
                 | Some (Some cb) => ok_page s!"text/plain" (run_callback cb (method_ req) args) resp
                 | _ => not_found resp
                 end
             | None => not_found resp
             end
         end).
End Registry.
Arguments Inspector : clear implicits.
#[local] Arguments help_line : simpl never.

(** ** Splitting a path *)

Definition nonempty (x : bytes) : list bytes := match x with [] => [] | _ => [x] end.

(** The non-empty pieces between slashes, read from the left. *)
Fixpoint segments (cur s : bytes) : list bytes :=
  match s with
  | [] => nonempty cur
  | c :: s' => if bool_decide (c = slash) then nonempty cur ++ segments [] s' else segments (cur ++ [c]) s'
  end.

Lemma segments_plain cur s : slash ∉ s → segments cur s = nonempty (cur ++ s).
Proof.
  revert cur. induction s as [|c s IH]; intros cur Hs; simpl; [by rewrite app_nil_r|].
  apply not_elem_of_cons in Hs as [Hc Hs]. rewrite bool_decide_eq_false_2 by congruence.
  by rewrite IH, <-app_assoc.
Qed.

Lemma segments_slash cur x s :
  slash ∉ x → segments cur (x ++ slash :: s) = nonempty (cur ++ x) ++ segments [] s.
Proof.
  revert cur. induction x as [|c x IH]; intros cur Hx; [by rewrite app_nil_r|].
  apply not_elem_of_cons in Hx as [Hc Hx]. cbn [app segments].
  rewrite bool_decide_eq_false_2 by congruence. by rewrite IH, <-app_assoc.
Qed.

Lemma split_substr pre x s n : n = zlen x → substr (pre ++ x ++ s) (zlen pre) n = Ret x.
Proof.
  intros ->. unfold substr. pose proof (zlen_nonneg x). pose proof (zlen_nonneg s).
  rewrite (proj2 (Z.leb_le _ _)) by (rewrite !zlen_app; lia).
  rewrite zdrop_at by done. unfold ztake, zlen. by rewrite Nat2Z.id, take_app_length.
Qed.

Lemma split_loop_segments fuel pre s result :
  (length s < fuel)%nat →
  ('(r, start) ← split_loop fuel (pre ++ s) (zlen pre) (str_find [slash] (pre ++ s) (zlen pre)) result;
   if start <? zlen (pre ++ s)
   then piece ← substr (pre ++ s) start (zlen (pre ++ s)); Ret (r ++ [piece])
   else Ret r) = Ret (result ++ segments [] s).
Proof.
  revert pre s result. induction fuel as [|fuel IH]; intros pre s result Hf; [lia|].
  destruct (str_find_char slash pre s) as [[-> Hs]|(x & y & -> & Hx & ->)]; cbn [split_loop].
  - rewrite segments_plain by done. cbn. rewrite zlen_app.
    destruct s as [|c s]; [rewrite Z.add_0_r, Z.ltb_irrefl; by rewrite app_nil_r|].
    rewrite (proj2 (Z.ltb_lt _ _)) by (unfold zlen; simpl; lia).
    unfold substr. rewrite (proj2 (Z.leb_le _ _)) by (rewrite zlen_app; unfold zlen; lia).
    rewrite zdrop_at by done. cbn. do 3 f_equal. apply take_ge. unfold zlen. simpl. lia.
  - rewrite segments_slash by done. rewrite length_app in Hf. simpl in Hf.
    replace (zlen pre + zlen x + 1) with (zlen (pre ++ x ++ [slash]))
      by (rewrite !zlen_app; change (zlen [slash]) with 1; lia).
    specialize (IH (pre ++ x ++ [slash]) y (result ++ nonempty x) ltac:(lia)).
    replace ((pre ++ x ++ [slash]) ++ y) with (pre ++ x ++ slash :: y) in IH by (by rewrite <-!app_assoc).
    change (nonempty ([] ++ x)) with (nonempty x). rewrite (app_assoc result), <-IH.
    destruct x as [|c x].
    + rewrite Z.add_0_r, Z.ltb_irrefl. cbn [nonempty]. by rewrite app_nil_r.
    + rewrite (proj2 (Z.ltb_lt _ _)) by (unfold zlen; simpl; lia).
      rewrite (split_substr pre (c :: x) (slash :: y)) by lia. done.
Qed.

Lemma split_segments s : split s = Ret (segments [] s).
Proof. apply (split_loop_segments (length s + 1) [] s []). lia. Qed.

(** "/a/b/c" *)
Definition path_of (names : list bytes) : bytes := concat ((λ n, slash :: n) <$> names).

Definition name_ok (n : bytes) : bool := bool_decide (n ≠ [] ∧ slash ∉ n).

Lemma segments_path_of names cur :
  Forall name_ok names → segments cur (path_of names) = nonempty cur ++ names.
Proof.
  intros Hn. revert cur. induction Hn as [|n names Hn Hns IH]; intros cur; [by rewrite app_nil_r|].
  unfold name_ok in Hn. apply bool_decide_unpack in Hn as [Hne Hs].
  unfold path_of. cbn [fmap list_fmap concat app segments]. rewrite bool_decide_eq_true_2 by done.
  f_equal. assert (Hsplit : ∀ names', Forall name_ok names' →
    path_of names' = [] ∧ names' = [] ∨ ∃ t, path_of names' = slash :: t).
  { intros [|n' names'] _; [by left|]. right. by eexists. }
  destruct (Hsplit names Hns) as [[Hp ->]|[t Ht]].
  - change (concat _) with (path_of []). rewrite app_nil_r, segments_plain by done. by destruct n.
  - change (concat _) with (path_of names). rewrite Ht, segments_slash by done.
    rewrite Ht in IH. specialize (IH []). cbn [nonempty app segments] in IH.
    rewrite bool_decide_eq_true_2 in IH by done. cbn [nonempty app] in IH. rewrite IH. by destruct n.
Qed.

(** ** Maps of maps *)

Section Map2.
Context {V : Type}.
Implicit Types m : list (bytes * list (bytes * V)).

Definition find2 k1 k2 m : option V := smap_find k1 m ≫= smap_find k2.

Lemma find2_default k1 k2 m : find2 k1 k2 m = smap_find k2 (default [] (smap_find k1 m)).
Proof. unfold find2. by destruct (smap_find k1 m). Qed.

Lemma find2_insert a b k1 k2 v m :
  find2 a b (smap2_insert k1 k2 v m) = if bool_decide (a = k1 ∧ b = k2) then Some v else find2 a b m.
Proof.
  unfold smap2_insert. rewrite !find2_default, smap_find_insert_if.
  case_bool_decide as H1; simpl; [|by rewrite bool_decide_eq_false_2 by tauto].
  subst a. rewrite smap_find_insert_if. by repeat case_bool_decide; try tauto.
Qed.

Lemma find2_erase a b k1 k2 m :
  find2 a b (smap2_erase k1 k2 m) = if bool_decide (a = k1 ∧ b = k2) then None else find2 a b m.
Proof.
  unfold smap2_erase. rewrite !find2_default, smap_find_insert_if.
  case_bool_decide as H1; simpl; [|by rewrite bool_decide_eq_false_2 by tauto].
  subst a. rewrite smap_find_erase_if. by repeat case_bool_decide; try tauto.
Qed.

End Map2.

Section Maps.
Context {V W : Type}.
Implicit Types (m : list (bytes * list (bytes * V))) (n : list (bytes * list (bytes * W))).

(** The same names in the same order, each list of commands sorted. *)
Definition same_names (p : bytes * list (bytes * V)) (q : bytes * list (bytes * W)) : Prop :=
  p.1 = q.1 ∧ fst <$> p.2 = fst <$> q.2 ∧ smap_sorted p.2.

Lemma same_names_insert k v w m n :
  same_names (k, v) (k, w) → Forall2 same_names m n →
  Forall2 same_names (smap_insert k v m) (smap_insert k w n).
Proof.
  intros Hvw H. induction H as [|[k1 v1] [k2 w1] m n Hp H IH]; simpl; [by constructor|].
  assert (Hk := Hp). destruct Hk as [Hk _]. simpl in Hk. subst k2.
  destruct (bytes_cmp k k1); constructor; try done. by constructor.
Qed.

Lemma same_names_find k m n :
  Forall2 same_names m n →
  is_Some (smap_find k m) ∧ is_Some (smap_find k n) ∨ smap_find k m = None ∧ smap_find k n = None.
Proof.
  induction 1 as [|[k1 v1] [k2 w1] m n [Hk _] _ IH]; simpl in *; [by right|]. subst k2.
  case_bool_decide; [left; eauto|done].
Qed.

Lemma same_names_inner k m n :
  Forall2 same_names m n → same_names (k, default [] (smap_find k m)) (k, default [] (smap_find k n)).
Proof.
  induction 1 as [|[k1 v1] [k2 w1] m n [Hk Hp] _ IH]; simpl in *; [by repeat constructor|]. subst k2.
  by case_bool_decide.
Qed.

Lemma same_names_find2 k1 k2 m n : Forall2 same_names m n → find2 k1 k2 m = None ↔ find2 k1 k2 n = None.
Proof.
  intros H. rewrite !find2_default, !smap_find_None.
  destruct (same_names_inner k1 _ _ H) as (_ & Hk & _). simpl in Hk. by rewrite Hk.
Qed.
End Maps.

Section Claims.
Context {Callback : Type}.
Implicit Types (i : Inspector Callback).

Inductive reg_op := RAdd (module command : bytes) (cb : option Callback) (help : bytes)
                  | RRemove (module command : bytes).

Definition run_reg (ops : list reg_op) : Inspector Callback :=
  foldl (λ i o, match o with RAdd m c cb h => add m c cb h i | RRemove m c => remove m c i end)
    Inspector_empty ops.

(** The registry the calls describe: the last one that names a command counts. *)
Fixpoint registered (rev_ops : list reg_op) (module command : bytes) : option (option Callback * bytes) :=
  match rev_ops with
  | [] => None
  | RAdd m c cb h :: ops =>
      if bool_decide (module = m ∧ command = c) then Some (cb, h) else registered ops module command
  | RRemove m c :: ops =>
      if bool_decide (module = m ∧ command = c) then None else registered ops module command
  end.

Definition inspector_wf i : Prop :=
  Forall2 same_names (modules_ i) (helps_ i) ∧ smap_sorted (modules_ i).

Lemma add_wf m c cb h i : inspector_wf i → inspector_wf (add m c cb h i).
Proof.
  intros [Hf Hs]. split; [|by apply smap_insert_sorted].
  apply same_names_insert; [|done]. destruct (same_names_inner m _ _ Hf) as (_ & Hk & Hi).
  split; [done|]. split; [by apply smap_insert_keys_eq|by apply smap_insert_sorted].
Qed.

Lemma remove_wf m c i : inspector_wf i → inspector_wf (remove m c i).
Proof.
  intros [Hf Hs]. unfold remove. destruct (smap_find m (modules_ i)); [|done].
  split; [|by apply smap_insert_sorted].
  apply same_names_insert; [|done]. destruct (same_names_inner m _ _ Hf) as (_ & Hk & Hi).
  split; [done|]. split; [|by apply smap_erase_sorted]. cbn [snd] in *. by rewrite !smap_erase_keys, Hk.
Qed.

Lemma run_reg_snoc ops o :
  run_reg (ops ++ [o]) = match o with RAdd m c cb h => add m c cb h (run_reg ops)
                                    | RRemove m c => remove m c (run_reg ops) end.
Proof. unfold run_reg. by rewrite foldl_app. Qed.

Lemma run_reg_wf ops : inspector_wf (run_reg ops).
Proof.
  induction ops as [|[m c cb h|m c] ops IH] using rev_ind; [by repeat constructor|..];
    rewrite run_reg_snoc; first [by apply add_wf|by apply remove_wf].
Qed.

Lemma run_reg_finds ops m c :
  find2 m c (modules_ (run_reg ops)) = fst <$> registered (reverse ops) m c ∧
  find2 m c (helps_ (run_reg ops)) = snd <$> registered (reverse ops) m c.
Proof.
  induction ops as [|o ops [IH1 IH2]] using rev_ind; [done|].
  rewrite run_reg_snoc, reverse_snoc. destruct o as [m1 c1 cb h|m1 c1]; cbn [registered].
  - cbn [add modules_ helps_]. rewrite !find2_insert. by case_bool_decide.
  - destruct (run_reg_wf ops) as [Hf _]. unfold remove.
    destruct (same_names_find m1 _ _ Hf) as [[[x Hx] _]|[Hx Hy]].
    + rewrite Hx. cbn [modules_ helps_]. rewrite !find2_erase. by case_bool_decide.
    + rewrite Hx. case_bool_decide as Hd; [|done]. destruct Hd as [-> ->].
      unfold find2. by rewrite Hx, Hy.
Qed.

(** The entries of the help table, in the order of the index page. *)
Definition module_entries (ml : bytes * list (bytes * bytes)) : list (bytes * bytes * bytes) :=
  map (λ it, (ml.1, it.1, it.2)) ml.2.

Definition entries i : list (bytes * bytes * bytes) := concat (map module_entries (helps_ i)).

Definition entry_line (e : bytes * bytes * bytes) : bytes := help_line e.1.1 e.1.2 e.2.

(** By module, then by command. *)
Definition entry_lt (d e : bytes * bytes * bytes) : Prop :=
  bytes_cmp d.1.1 e.1.1 = Lt ∨ d.1.1 = e.1.1 ∧ bytes_cmp d.1.2 e.1.2 = Lt.

Lemma foldl_lines m hl acc :
  foldl (λ result it, result ++ help_line m it.1 it.2) acc hl =
  acc ++ concat (map entry_line (module_entries (m, hl))).
Proof.
  revert acc. induction hl as [|[c h] hl IH]; intros acc; simpl; [by rewrite app_nil_r|].
  by rewrite IH, <-app_assoc.
Qed.

Lemma help_page_entries i : help_page i = concat (map entry_line (entries i)).
Proof.
  unfold help_page, entries. change (concat (map entry_line ?l)) with ([] ++ concat (map entry_line l)).
  generalize ([] : bytes) as acc.
  induction (helps_ i) as [|[m hl] hs IH]; intros acc; simpl; [by rewrite app_nil_r|].
  by rewrite IH, map_app, concat_app, foldl_lines, <-app_assoc.
Qed.

Lemma elem_of_entries i m c h : (m, c, h) ∈ entries i ↔ ∃ hl, (m, hl) ∈ helps_ i ∧ (c, h) ∈ hl.
Proof.
  unfold entries. rewrite list_elem_of_In, in_concat. split.
  - intros (l & ([m1 hl] & <- & Hm)%in_map_iff & ([c1 h1] & [= <- <- <-] & Hc)%in_map_iff).
    exists hl. by rewrite !list_elem_of_In.
  - intros (hl & Hm & Hc). rewrite list_elem_of_In in Hm. rewrite list_elem_of_In in Hc.
    exists (module_entries (m, hl)). split; [by apply in_map|]. by apply (in_map (λ it, (m, it.1, it.2)) hl (c, h)).
Qed.

Lemma entries_sorted (hs : list (bytes * list (bytes * bytes))) :
  smap_sorted hs → Forall (λ ml, smap_sorted ml.2) hs →
  StronglySorted entry_lt (concat (map module_entries hs)).
Proof.
  unfold smap_sorted. induction hs as [|[m hl] hs IH]; intros Hs Hall; [constructor|].
  rewrite fmap_cons in Hs. apply StronglySorted_cons in Hs as [Hm Hs]. apply Forall_cons in Hall as [Hl Hall].
  apply StronglySorted_app. split; [|split; [|by apply IH]]; cycle 1.
  - clear -Hl. cbn [snd] in Hl. induction hl as [|[c h] hl IH]; [constructor|].
    rewrite fmap_cons in Hl. apply StronglySorted_cons in Hl as [Hc Hl]. constructor; [by apply IH|].
    rewrite Forall_fmap, Forall_forall in Hc. apply Forall_forall. intros e He.
    rewrite list_elem_of_In in He. apply in_map_iff in He as (it & <- & Hit).
    right. split; [done|]. apply (Hc it). by rewrite list_elem_of_In.
  - intros d e Hd He. rewrite list_elem_of_In in Hd. rewrite list_elem_of_In in He.
    apply in_map_iff in Hd as (it & <- & _). apply in_concat in He as (l & Hl1 & He).
    apply in_map_iff in Hl1 as (ml & <- & Hml). apply in_map_iff in He as (it' & <- & _).
    left. rewrite Forall_fmap, Forall_forall in Hm. apply (Hm ml). by rewrite list_elem_of_In.
Qed.

Lemma same_names_helps i :
  inspector_wf i → (modules_ i).*1 = (helps_ i).*1 ∧ smap_sorted (helps_ i) ∧
    Forall (λ ml, smap_sorted ml.2) (helps_ i).
Proof.
  intros [Hf Hs].
  assert ((modules_ i).*1 = (helps_ i).*1) as Hk.
  { clear Hs. induction Hf as [|p q ? ? [Hp _] _ IH]; [done|]. by rewrite !fmap_cons, Hp, IH. }
  split; [done|]. split; [unfold smap_sorted; by rewrite <-Hk|].
  clear Hs Hk. induction Hf as [|p q ? ? (_ & Hk & Hp) _ IH]; constructor; [|done].
  unfold smap_sorted. by rewrite <-Hk.
Qed.

Lemma run_reg_entries ops m c h :
  (m, c, h) ∈ entries (run_reg ops) ↔ snd <$> registered (reverse ops) m c = Some h.
Proof.
  destruct (run_reg_finds ops m c) as [_ <-].
  destruct (same_names_helps _ (run_reg_wf ops)) as (_ & Hs & Hall).
  rewrite elem_of_entries. unfold find2. split.
  - intros (hl & Hm & Hc). rewrite (smap_elem_find _ _ _ Hs Hm). simpl.
    apply smap_elem_find; [|done]. rewrite Forall_forall in Hall. by apply (Hall (m, hl)).
  - intros (hl & Hm & Hc)%bind_Some. exists hl. split; by apply smap_find_elem.
Qed.

(** What the constructor registers. *)
Definition ctor_ops (pp : ProcessPages) (sp : SystemPages) : list reg_op :=
  [RAdd s!"proc" s!"overview" (Some (proc_overview pp)) s!"print basic overview";
   RAdd s!"proc" s!"pid" (Some (proc_pid pp)) s!"print pid";
   RAdd s!"proc" s!"status" (Some (proc_status pp)) s!"print /proc/self/status";
   RAdd s!"proc" s!"threads" (Some (proc_threads pp)) s!"list /proc/self/task";
   RAdd s!"sys" s!"overview" (Some (sys_overview sp)) s!"print system overview";
   RAdd s!"sys" s!"loadavg" (Some (sys_loadavg sp)) s!"print /proc/loadavg";
   RAdd s!"sys" s!"version" (Some (sys_version sp)) s!"print /proc/version";
   RAdd s!"sys" s!"cpuinfo" (Some (sys_cpuinfo sp)) s!"print /proc/cpuinfo";
   RAdd s!"sys" s!"meminfo" (Some (sys_meminfo sp)) s!"print /proc/meminfo";
   RAdd s!"sys" s!"stat" (Some (sys_stat sp)) s!"print /proc/stat"].

Lemma ctor_run pp sp : Inspector_ctor true pp sp false = (Ret (run_reg (ctor_ops pp sp)), true).
Proof. reflexivity. Qed.

Lemma path_of_not_root n names : name_ok n → path_of (n :: names) ≠ s!"/".
Proof.
  intros [Hne _]%bool_decide_unpack. destruct n as [|c n]; [done|]. discriminate.
Qed.

Lemma onRequest_names run i req resp :
  path_ req ≠ s!"/" →
  onRequest run i req resp =
    Ret (match segments [] (path_ req) with
         | [] => not_found resp
         | [m] => if bool_decide (m = s!"favicon.ico") then ok_page s!"image/png" favicon resp
                  else not_found resp
         | m :: c :: args =>
             match find2 m c (modules_ i) with
             | Some (Some cb) => ok_page s!"text/plain" (run cb (method_ req) args) resp
             | _ => not_found resp
             end
         end).
Proof.
  intros Hp. unfold onRequest. rewrite bool_decide_eq_false_2, split_segments by done. cbn.
  unfold find2. destruct (segments [] (path_ req)) as [|m [|c args]]; [done..|].
  by destruct (smap_find m (modules_ i)).
Qed.

(** C29: An inspector's two tables always have the same shape: built by the
    constructor and changed by any sequence of [add] and [remove], the command
    table and the help table list the same modules, and for each module the
    same commands, in strictly increasing order; a command has a help text
    exactly when it is registered. *)
Theorem inspector_tables_agree (pp : ProcessPages) (sp : SystemPages) (ops : list reg_op) :
  let i := run_reg (ctor_ops pp sp ++ ops) in
  Inspector_ctor true pp sp false = (Ret (run_reg (ctor_ops pp sp)), true) ∧
  Forall2 same_names (modules_ i) (helps_ i) ∧ smap_sorted (modules_ i) ∧ smap_sorted (helps_ i) ∧
  ∀ m c, find2 m c (modules_ i) = None ↔ find2 m c (helps_ i) = None.
Proof.
  intros i. pose proof (run_reg_wf (ctor_ops pp sp ++ ops)) as Hwf. fold i in Hwf.
  destruct (same_names_helps _ Hwf) as (_ & Hh & _). destruct Hwf as [Hf Hs].
  split; [apply ctor_run|]. do 3 (split; [done|]). intros m c. by apply same_names_find2.
Qed.

(** C28: The inspector serves its registry.  After any sequence of [add] and
    [remove], a request for "/module/command/arg..." is answered with what the
    callback registered last for that command makes of the method and the
    arguments, and with 404 when the command was never added, was removed or
    has an empty callback; "/" is answered with one line for every registered
    command, ordered by module and command; and a shorter path other than the
    icon's is a 404. *)
Theorem inspector_serves_registry (run : Callback → Method → list bytes → bytes) (pp : ProcessPages)
    (sp : SystemPages) (ops : list reg_op) (req : HttpRequest) (resp : HttpResponse) :
  let i := run_reg (ctor_ops pp sp ++ ops) in
  let reg := registered (reverse (ctor_ops pp sp ++ ops)) in
  (∀ m c args, Forall name_ok (m :: c :: args) → path_ req = path_of (m :: c :: args) →
     onRequest run i req resp =
       Ret (match reg m c with
            | Some (Some cb, _) => ok_page s!"text/plain" (run cb (method_ req) args) resp
            | _ => not_found resp
            end)) ∧
  (path_ req = s!"/" → ∃ l, onRequest run i req resp =
       Ret (ok_page s!"text/plain" (concat (map entry_line l)) resp) ∧
     StronglySorted entry_lt l ∧ ∀ m c h, (m, c, h) ∈ l ↔ snd <$> reg m c = Some h) ∧
  (∀ m, name_ok m → m ≠ s!"favicon.ico" → path_ req = path_of [m] →
     onRequest run i req resp = Ret (not_found resp)).
Proof.
  intros i reg. split; [|split].
  - intros m c args Hn Hp. rewrite onRequest_names, Hp, segments_path_of
      by (try done; rewrite Hp; apply path_of_not_root; by inversion Hn).
    cbn [nonempty app]. destruct (run_reg_finds (ctor_ops pp sp ++ ops) m c) as [Hf _].
    fold i reg in Hf. rewrite Hf. destruct (reg m c) as [[[cb|] h]|]; done.
  - intros Hp. exists (entries i). unfold onRequest. rewrite bool_decide_eq_true_2, help_page_entries by done.
    split; [done|]. split; [|intros m c h; apply run_reg_entries].
    destruct (same_names_helps _ (run_reg_wf (ctor_ops pp sp ++ ops))) as (_ & Hs & Hall). by apply entries_sorted.
  - intros m Hm Hf Hp. rewrite onRequest_names, Hp, segments_path_of
      by (try done; rewrite ?Hp; (by apply path_of_not_root) || (by constructor)).
    cbn [nonempty app]. by rewrite bool_decide_eq_false_2.
Qed.
End Claims.

Definition demo_pages : ProcessPages := MkProcessPages 0 1 2 3.
Definition demo_sys : SystemPages := MkSystemPages 4 5 6 7 8 9.
Definition demo_run (cb : Z) (m : Method) (args : list bytes) : bytes := dec_int cb ++ concat args.
Definition demo_reg_ops : list reg_op :=
  [RAdd s!"app" s!"sum" (Some 10) s!"add them"; RRemove s!"proc" s!"pid"; RAdd s!"app" s!"none" None s!"empty"].
Definition get_path (p : bytes) : HttpRequest := MkRequest kGet kHttp11 p [] 0 [].

Lemma inspector_serves_registry_witness :
  Forall name_ok [s!"app"; s!"sum"; s!"1"; s!"2"] ∧
  onRequest demo_run (run_reg (ctor_ops demo_pages demo_sys ++ demo_reg_ops)) (get_path s!"//app/sum/1/2")
    (HttpResponse_new false) = Ret (ok_page s!"text/plain" s!"1012" (HttpResponse_new false)) ∧
  onRequest demo_run (run_reg (ctor_ops demo_pages demo_sys ++ demo_reg_ops)) (get_path s!"/app/sum/1/2")
    (HttpResponse_new false) = Ret (ok_page s!"text/plain" s!"1012" (HttpResponse_new false)) ∧
  onRequest demo_run (run_reg (ctor_ops demo_pages demo_sys ++ demo_reg_ops)) (get_path s!"/proc/pid")
    (HttpResponse_new false) = Ret (not_found (HttpResponse_new false)).
Proof.
  split; [repeat constructor|]. split; [by vm_compute|]. split.
  - apply (proj1 (inspector_serves_registry demo_run demo_pages demo_sys demo_reg_ops
      (get_path s!"/app/sum/1/2") (HttpResponse_new false)) s!"app" s!"sum" [s!"1"; s!"2"]);
      [repeat constructor|by vm_compute].
  - apply (proj1 (inspector_serves_registry demo_run demo_pages demo_sys demo_reg_ops
      (get_path s!"/proc/pid") (HttpResponse_new false)) s!"proc" s!"pid" []);
      [repeat constructor|by vm_compute].
Defined.

(** An entry of the registry that holds no callable function is listed on the
    index page and answered with 404. *)
Lemma empty_callback_is_not_found :
  onRequest demo_run (run_reg (ctor_ops demo_pages demo_sys ++ demo_reg_ops)) (get_path s!"/app/none")
    (HttpResponse_new false) = Ret (not_found (HttpResponse_new false)) ∧
  (s!"app", s!"none", s!"empty") ∈ entries (run_reg (ctor_ops demo_pages demo_sys ++ demo_reg_ops)).
Proof. split; [by vm_compute|apply run_reg_entries; by vm_compute]. Qed.
