(* ===== verification/Codec.v ===== *)
(** * The protobuf frame codec (master/net/protobuf/ProtobufCodecLite.h, ProtobufCodecLite.cc)

    A frame is a four-byte big-endian length, a tag, the serialized message and
    an Adler-32 checksum of tag and message.  Protobuf's serialization and
    zlib's [adler32] are parameters (classes of operations, with the documented
    round trip as a law); the raw-message callback is a parameter, and the
    calls of the message and error callbacks are returned as events, in order.
    An error callback, as the default one, leaves the buffer alone. *)
From S2P Require Import Prelude CxxString Endian Buffer HttpServer.
Local Open Scope Z_scope.

(** What the codec uses of a [google::protobuf::Message] type and of zlib. *)
Class ProtoMessage (M : Type) := {
  serialize : M → bytes;
  parseFromArray : bytes → option M;
  adler32 : bytes → Z;
}.
Class ProtoMessageLaws (M : Type) `{ProtoMessage M} :=
  parse_serialize : ∀ m : M, parseFromArray (serialize m) = Some m.

Definition kHeaderLen : Z := 4.
Definition kChecksumLen : Z := 4.
Definition kMaxMessageLen : Z := 64 * 1024 * 1024.

Inductive ErrorCode :=
  | kNoError | kInvalidLength | kCheckSumError | kInvalidNameLen | kUnknownMessageType | kParseError.

#[export] Instance ErrorCode_eq_dec : EqDecision ErrorCode.
Proof. solve_decision. Defined.

Definition errorCodeToString (c : ErrorCode) : bytes :=
  match c with
  | kNoError => s!"NoError"
  | kInvalidLength => s!"InvalidLength"
  | kCheckSumError => s!"CheckSumError"
  | kInvalidNameLen => s!"InvalidNameLen"
  | kUnknownMessageType => s!"UnknownMessageType"
  | kParseError => s!"ParseError"
  end.

Section Codec.
Context (e : endian) {M : Type} `{ProtoMessage M}.
(** [tag_] and [rawCb_] ([None] when no raw callback is set). *)
Context (tag : bytes) (rawCb : option (bytes → bool)).

Inductive codec_event := EMessage (m : M) | EError (c : ErrorCode).

Definition kMinMessageLen : Z := i32 (zlen tag + kChecksumLen).

Definition checksum (s : bytes) : Z := i32 (adler32 s).
Definition asInt32 (s : bytes) : Z := wire_val e 4 s.

Definition validateChecksum (buf : bytes) (len : Z) : bool :=
  let expectedCheckSum := asInt32 (slice (len - kChecksumLen) len buf) in
  checksum (ztake (len - kChecksumLen) buf) =? expectedCheckSum.

(** [parse(buf, len, message)]. *)
Definition parse (buf : bytes) (len : Z) : M + ErrorCode :=
  if validateChecksum buf len then
    if bool_decide (ztake (zlen tag) buf = tag) then
      let dataLen := len - kChecksumLen - zlen tag in
      match parseFromArray (ztake dataLen (zdrop (zlen tag) buf)) with
      | Some m => inl m
      | None => inr kParseError
      end
    else inr kUnknownMessageType
  else inr kCheckSumError.

(** [serializeToBuffer]: the message's bytes are written in place. *)
Definition serializeToBuffer (m : M) : ST Buffer Z :=
  let byte_size := zlen (serialize m) in
  ensureWritableBytes (byte_size + kChecksumLen) ;;
  b ← st_get;
  bs ← lift (blit (beginWrite b) (serialize m) (buffer_ b));
  st_put (set_bytes bs b) ;;
  hasWritten byte_size ;;
  mret byte_size.

Definition fillEmptyBuffer (m : M) : ST Buffer unit :=
  assertST (λ b, readableBytes b =? 0) ;;
  append tag ;;
  byte_size ← serializeToBuffer m;
  b ← st_get;
  body ← lift (read_at (peek b) (i32 (readableBytes b)) (buffer_ b));
  appendInt32 e (checksum body) ;;
  assertST (λ b, readableBytes b =? zlen tag + byte_size + kChecksumLen) ;;
  b' ← st_get;
  prepend (wire_bytes e 4 (i32 (readableBytes b'))).

(** [send]: the bytes handed to the connection. *)
Definition send (m : M) : outcome bytes :=
  let '(o, buf) := fillEmptyBuffer m (Buffer_new kInitialSize) in
  _ ← o;
  read_at (peek buf) (readableBytes buf) (buffer_ buf).

Fixpoint codec_loop (fuel : nat) : ST Buffer (list codec_event) :=
  match fuel with
  | O => lift Undef
  | S fuel' =>
      b ← st_get;
      if u32 (kMinMessageLen + kHeaderLen) <=? readableBytes b then
        len ← lift (peekInt32 e b);
        if (kMaxMessageLen <? len) || (len <? kMinMessageLen) then mret [EError kInvalidLength]
        else if kHeaderLen + len <=? readableBytes b then
          frame ← lift (read_at (peek b) (kHeaderLen + len) (buffer_ b));
          if (match rawCb with Some cb => negb (cb frame) | None => false end) then
            retrieve (kHeaderLen + len) ;;
            codec_loop fuel'
          else
            match parse (zdrop kHeaderLen frame) len with
            | inl m =>
                retrieve (kHeaderLen + len) ;;
                es ← codec_loop fuel';
                mret (EMessage m :: es)
            | inr c => mret [EError c]
            end
        else mret []
      else mret []
  end.

(** Every turn that goes on takes a frame's bytes. *)
Definition onMessage : ST Buffer (list codec_event) := λ b,
  codec_loop (S (Z.to_nat (readableBytes b))) b.

(** ** The loop on the readable bytes *)
Fixpoint codec_content (fuel : nat) (data : bytes) : outcome (list codec_event * bytes) :=
  match fuel with
  | O => Undef
  | S fuel' =>
      if kMinMessageLen + kHeaderLen <=? zlen data then
        let len := wraps 32 (be_val (ztake 4 data)) in
        if (kMaxMessageLen <? len) || (len <? kMinMessageLen) then Ret ([EError kInvalidLength], data)
        else if kHeaderLen + len <=? zlen data then
          let frame := ztake (kHeaderLen + len) data in
          if (match rawCb with Some cb => negb (cb frame) | None => false end)
          then codec_content fuel' (zdrop (kHeaderLen + len) data)
          else
            match parse (zdrop kHeaderLen frame) len with
            | inl m =>
                r ← codec_content fuel' (zdrop (kHeaderLen + len) data);
                Ret (EMessage m :: r.1, r.2)
            | inr c => Ret ([EError c], data)
            end
        else Ret ([], data)
      else Ret ([], data)
  end.

Definition codec_bytes (data : bytes) : outcome (list codec_event * bytes) :=
  codec_content (S (length data)) data.

(** ** The frame of a message *)
Definition frame_body (m : M) : bytes :=
  tag ++ serialize m ++ be_bytes 4 (checksum (tag ++ serialize m)).
Definition frame (m : M) : bytes := be_bytes 4 (zlen (frame_body m)) ++ frame_body m.

(** A tag that leaves room for messages, and a message within the limit. *)
Definition tag_ok : Prop := zlen tag ≤ kMaxMessageLen - 4.
Definition msg_ok (m : M) : Prop := zlen (frame_body m) ≤ kMaxMessageLen.
End Codec.
Arguments EMessage {M} _.
Arguments EError {M} _.

Section CodecProofs.
Context (e : endian) {M : Type} `{ProtoMessage M}.
Context (tag : bytes) (rawCb : option (bytes → bool)).
Context (Htag : tag_ok tag).
Implicit Types (b : Buffer) (data : bytes) (m : M).

Lemma kMin_eq : kMinMessageLen tag = zlen tag + 4.
Proof.
  unfold kMinMessageLen, i32, kChecksumLen. pose proof (zlen_nonneg tag).
  unfold tag_ok, kMaxMessageLen in Htag. apply wraps_small; [done|]. unfold in_s. lia.
Qed.

Lemma kMin_header : u32 (kMinMessageLen tag + kHeaderLen) = kMinMessageLen tag + kHeaderLen.
Proof.
  rewrite kMin_eq. unfold kHeaderLen, u32. pose proof (zlen_nonneg tag).
  unfold tag_ok, kMaxMessageLen in Htag. apply wrapu_small. unfold in_u. lia.
Qed.

Lemma zlen_be_bytes n x : zlen (be_bytes n x) = Z.of_nat n.
Proof. unfold zlen. by rewrite length_be_bytes. Qed.

Lemma peekInt32_content p b data :
  holds p b data → 4 ≤ zlen data → peekInt32 e b = Ret (wraps 32 (be_val (ztake 4 data))).
Proof.
  intros Hh Hl. unfold peekInt32. rewrite <-(ztake_zdrop 4 data) in Hh.
  assert (length (ztake 4 data) = 4%nat) as Hl4.
  { pose proof (zlen_ztake 4 data). unfold zlen in *. lia. }
  assert (ztake 4 data = be_bytes 4 (be_val (ztake 4 data))) as Heq.
  { by rewrite <-Hl4, be_bytes_val at 1. }
  rewrite Heq in Hh. by rewrite (peekIntN_holds e _ _ 4 _ _ ltac:(lia) Hh).
Qed.

Definition codec_result b (o : outcome (list (codec_event (M := M)) * bytes))
    (r : outcome (list codec_event) * Buffer) : Prop :=
  match o with
  | Ret (es, data') => r.1 = Ret es ∧ (∃ p', kCheapPrepend ≤ p' ∧ holds p' r.2 data') ∧
      buffer_ r.2 = buffer_ b
  | Undef => r.1 = Undef
  | _ => False
  end.

Lemma retrieve_front p b data n :
  kCheapPrepend ≤ p → holds p b data → 0 ≤ n ≤ zlen data →
  ∃ b' p', retrieve n b = (Ret (), b') ∧ holds p' b' (zdrop n data) ∧ kCheapPrepend ≤ p' ∧
    buffer_ b' = buffer_ b.
Proof.
  intros Hp Hh Hn. destruct (split_take n data Hn) as [Hl Hd]. rewrite <-Hd in Hh.
  destruct (retrieve_holds _ _ _ _ Hh) as (b' & p' & Hr & Hh' & -> & Hb). rewrite Hl in *.
  exists b'. eexists. split; [done|]. split; [done|]. split; [|done]. case_bool_decide; lia.
Qed.

Lemma codec_loop_content fuel p b data :
  kCheapPrepend ≤ p → holds p b data →
  codec_result b (codec_content e tag rawCb fuel data) (codec_loop e tag rawCb fuel b).
Proof.
  revert p b data. induction fuel as [|fuel IH]; intros p b data Hp Hh; [done|].
  cbn [codec_loop codec_content]. rewrite (ST_bind_eq st_get _ b b b eq_refl).
  rewrite (holds_readable _ _ _ Hh), kMin_header.
  assert (codec_result b (Ret ([], data)) (Ret [], b)) as Hstop.
  { split; [done|]. split; [by exists p|done]. }
  destruct (_ <=? _) eqn:Hmin; [|done]. bool_to_prop.
  rewrite kMin_eq in Hmin. unfold kHeaderLen in Hmin. pose proof (zlen_nonneg tag).
  unfold mbind, ST_bind, lift. rewrite (peekInt32_content _ _ _ Hh) by lia. cbv iota.
  set (len := wraps 32 _).
  destruct ((kMaxMessageLen <? len) || (len <? kMinMessageLen tag)) eqn:Hlen.
  { split; [done|]. split; [by exists p|done]. }
  apply orb_false_iff in Hlen as [Hl1 Hl2]. bool_to_prop. rewrite kMin_eq in Hl2.
  destruct (kHeaderLen + len <=? zlen data) eqn:Hfull; [|done]. bool_to_prop.
  assert (0 ≤ kHeaderLen + len ≤ zlen data) as Hn by (unfold kHeaderLen in *; lia).
  destruct (split_take _ data Hn) as [Htl Htd].
  rewrite (holds_read _ _ _ _ _ _ Hh (eq_sym Htd) Htl). cbv iota.
  destruct (retrieve_front _ _ _ _ Hp Hh Hn) as (b' & p' & Hr & Hh' & Hp' & Hb').
  specialize (IH p' b' _ Hp' Hh'). unfold codec_result in *. rewrite Hb' in IH.
  destruct (match rawCb with Some cb => _ | None => _ end); [by rewrite Hr|].
  destruct (parse e tag _ len) as [m|c]; [|split; [done|]; split; [by exists p|done]].
  rewrite Hr. destruct (codec_loop e tag rawCb fuel b') as [o b2].
  destruct (codec_content e tag rawCb fuel _) as [[es data']| | |]; simpl in *; [|done..|by subst o].
  destruct IH as (-> & ? & ?). done.
Qed.

Lemma ztake_zlen_app {A} (l k : list A) n : n = zlen l → ztake n (l ++ k) = l.
Proof. intros ->. unfold ztake, zlen. by rewrite Nat2Z.id, take_app_length. Qed.

Lemma zdrop_zlen_app {A} (l k : list A) n : n = zlen l → zdrop n (l ++ k) = k.
Proof. intros ->. unfold zdrop, zlen. by rewrite Nat2Z.id, drop_app_length. Qed.

Lemma be_val_len x : in_s 32 x → wraps 32 (be_val (be_bytes 4 x)) = x.
Proof.
  intros Hx. rewrite be_val_bytes. transitivity (wraps 32 (wrapu 32 x)); [done|].
  rewrite wraps_wrapu by lia. by apply wraps_small.
Qed.

Lemma zlen_frame_body m : zlen (frame_body tag m) = zlen tag + zlen (serialize m) + 4.
Proof. unfold frame_body. rewrite !zlen_app, zlen_be_bytes. lia. Qed.

Lemma frame_body_range m : msg_ok tag m →
  in_s 32 (zlen (frame_body tag m)) ∧ zlen tag + 4 ≤ zlen (frame_body tag m) ≤ kMaxMessageLen.
Proof.
  unfold msg_ok, kMaxMessageLen. intros Hm. rewrite zlen_frame_body in *.
  pose proof (zlen_nonneg tag). pose proof (zlen_nonneg (serialize m)). unfold in_s. lia.
Qed.

(** The checksum, the tag and the length check out on a frame's own body. *)
Lemma parse_frame_body m `{!ProtoMessageLaws M} :
  parse e tag (frame_body tag m) (zlen (frame_body tag m)) = inl m.
Proof.
  rewrite zlen_frame_body. unfold parse, validateChecksum, frame_body, kChecksumLen.
  replace (zlen tag + zlen (serialize m) + 4 - 4) with (zlen (tag ++ serialize m)) by (rewrite zlen_app; lia).
  rewrite app_assoc. rewrite ztake_zlen_app by done.
  assert (slice (zlen (tag ++ serialize m)) (zlen tag + zlen (serialize m) + 4)
    ((tag ++ serialize m) ++ be_bytes 4 (checksum (tag ++ serialize m))) =
    be_bytes 4 (checksum (tag ++ serialize m))) as ->.
  { unfold slice. rewrite zdrop_zlen_app by done. unfold ztake. apply take_ge.
    rewrite length_be_bytes, zlen_app. lia. }
  unfold asInt32. rewrite wire_val_be by (lia || apply length_be_bytes).
  change (8 * Z.of_nat 4) with 32. rewrite be_val_len by (apply wraps_range; lia).
  rewrite Z.eqb_refl, <-app_assoc, ztake_zlen_app by done.
  rewrite bool_decide_eq_true_2 by done. rewrite zdrop_zlen_app by done.
  rewrite zlen_app. rewrite ztake_zlen_app by lia. by rewrite parse_serialize.
Qed.

(** The raw callback lets the frame through. *)
Definition raw_accepts (f : bytes) : Prop :=
  match rawCb with Some cb => cb f = true | None => True end.

Lemma codec_content_frame fuel m rest `{!ProtoMessageLaws M} :
  msg_ok tag m → raw_accepts (frame tag m) →
  codec_content e tag rawCb (S fuel) (frame tag m ++ rest) =
    (r ← codec_content e tag rawCb fuel rest; Ret (EMessage m :: r.1, r.2)).
Proof.
  intros Hm Hraw. destruct (frame_body_range m Hm) as [Hs [Hr1 Hr2]].
  pose proof (zlen_nonneg rest). cbn [codec_content].
  assert (zlen (frame tag m) = 4 + zlen (frame_body tag m)) as Hfl
    by (unfold frame; by rewrite zlen_app, zlen_be_bytes).
  rewrite kMin_eq. unfold kHeaderLen. rewrite (zlen_app (frame tag m)), Hfl.
  rewrite (proj2 (Z.leb_le _ _)) by lia.
  assert (ztake 4 (frame tag m ++ rest) = be_bytes 4 (zlen (frame_body tag m))) as ->.
  { unfold frame. rewrite <-app_assoc. by apply ztake_zlen_app. }
  rewrite be_val_len by done. rewrite (proj2 (Z.ltb_ge kMaxMessageLen _)) by lia.
  rewrite (proj2 (Z.ltb_ge (zlen (frame_body tag m)) _)) by lia. cbn [orb].
  rewrite (proj2 (Z.leb_le _ _)) by lia.
  rewrite ztake_zlen_app, zdrop_zlen_app by done.
  assert ((match rawCb with Some cb => negb (cb (frame tag m)) | None => false end) = false) as ->.
  { unfold raw_accepts in Hraw. destruct rawCb; [by rewrite Hraw|done]. }
  assert (zdrop 4 (frame tag m) = frame_body tag m) as -> by (by apply zdrop_zlen_app).
  by rewrite parse_frame_body.
Qed.

Lemma codec_content_partial fuel m k :
  msg_ok tag m → 0 ≤ k < zlen (frame tag m) →
  codec_content e tag rawCb (S fuel) (ztake k (frame tag m)) = Ret ([], ztake k (frame tag m)).
Proof.
  intros Hm Hk. destruct (frame_body_range m Hm) as [Hs [Hr1 Hr2]].
  assert (zlen (frame tag m) = 4 + zlen (frame_body tag m)) as Hfl
    by (unfold frame; by rewrite zlen_app, zlen_be_bytes).
  pose proof (zlen_nonneg tag). cbn [codec_content]. rewrite kMin_eq. unfold kHeaderLen.
  rewrite zlen_ztake by lia. case_if; [|done].
  assert (ztake 4 (ztake k (frame tag m)) = be_bytes 4 (zlen (frame_body tag m))) as ->.
  { unfold ztake at 1 2. rewrite take_take. rewrite Nat.min_l by lia.
    by apply (ztake_zlen_app _ _ 4). }
  rewrite be_val_len by done. rewrite (proj2 (Z.ltb_ge kMaxMessageLen _)) by lia.
  rewrite (proj2 (Z.ltb_ge (zlen (frame_body tag m)) _)) by lia. cbn [orb].
  by rewrite (proj2 (Z.leb_gt _ _)) by lia.
Qed.

(** A stream of frames. *)
Fixpoint frames (ms : list M) : bytes :=
  match ms with
  | [] => []
  | m :: ms' => frame tag m ++ frames ms'
  end.

Lemma codec_content_frames fuel ms m k `{!ProtoMessageLaws M} :
  (length ms < fuel)%nat → Forall (msg_ok tag) (m :: ms) →
  Forall (λ m, raw_accepts (frame tag m)) ms → 0 ≤ k < zlen (frame tag m) →
  codec_content e tag rawCb fuel (frames ms ++ ztake k (frame tag m)) =
    Ret (EMessage <$> ms, ztake k (frame tag m)).
Proof.
  intros Hf Hok. apply Forall_cons in Hok as [Hm Hok]. revert fuel Hf.
  induction ms as [|m' ms IH]; intros fuel Hf Hraw Hk; (destruct fuel as [|fuel]; [lia|]).
  { by apply codec_content_partial. }
  apply Forall_cons in Hok as [Hm' Hok]. apply Forall_cons in Hraw as [Hr' Hraw].
  cbn [frames]. rewrite <-app_assoc, codec_content_frame by done.
  simpl in Hf. by rewrite IH by (done || lia).
Qed.

Lemma length_frames ms : (length ms ≤ length (frames ms))%nat.
Proof.
  induction ms as [|m ms IH]; simpl; [lia|]. rewrite length_app.
  assert (1 ≤ length (frame tag m))%nat; [|lia]. unfold frame. rewrite length_app, length_be_bytes. lia.
Qed.

Lemma serializeToBuffer_holds p b q m :
  kCheapPrepend ≤ p → holds p b q → zlen (buffer_ b) + zlen (serialize m) + 4 ≤ max_size →
  ∃ b' p', serializeToBuffer m b = (Ret (zlen (serialize m)), b') ∧ holds p' b' (q ++ serialize m) ∧
    kCheapPrepend ≤ p' ∧ zlen (buffer_ b') ≤ zlen (buffer_ b) + zlen (serialize m) + 4.
Proof.
  intros Hp Hh Hm. pose proof (zlen_nonneg (serialize m)).
  destruct (ensureWritableBytes_holds _ _ _ (zlen (serialize m) + kChecksumLen) Hh)
    as (b1 & p1 & He & Hh1 & Hw & Hp1 & Hs1); [unfold kChecksumLen; lia..|].
  unfold kChecksumLen in *.
  destruct (write_holds _ _ _ (serialize m) Hh1) as (bs & Hbl & Hbs & b2 & Hhw & Hh2 & Hb2); [lia|].
  exists b2, p1. split; [|split; [done|split; [lia|rewrite Hb2; lia]]].
  unfold serializeToBuffer, kChecksumLen. rewrite (ST_bind_eq _ _ _ _ _ He).
  unfold mbind, ST_bind, st_get, lift, st_put. by rewrite Hbl, Hhw.
Qed.

Lemma fillEmptyBuffer_holds p b m :
  kCheapPrepend ≤ p → holds p b [] → msg_ok tag m →
  zlen (buffer_ b) + zlen (frame tag m) + 8 ≤ max_size →
  ∃ b' p', fillEmptyBuffer e tag m b = (Ret (), b') ∧ holds p' b' (frame tag m).
Proof.
  intros Hp Hh Hm Hmax. destruct (frame_body_range m Hm) as [Hs [Hr1 Hr2]].
  assert (zlen (frame tag m) = 4 + zlen (frame_body tag m)) as Hfl
    by (unfold frame; by rewrite zlen_app, zlen_be_bytes).
  rewrite zlen_frame_body in *. pose proof (zlen_nonneg tag). pose proof (zlen_nonneg (serialize m)).
  unfold kMaxMessageLen in Hr2.
  destruct (append_holds _ _ _ tag Hh) as (b1 & p1 & Hs_1 & Hh1 & Hp1 & Hs1); [lia|].
  destruct (serializeToBuffer_holds p1 b1 _ m ltac:(lia) Hh1) as (b2 & p2 & Hs_2 & Hh2 & Hp2 & Hs2); [lia|].
  simpl in Hh2. set (q := tag ++ serialize m) in *.
  assert (zlen q = zlen tag + zlen (serialize m)) as Hq by apply zlen_app.
  destruct (append_holds _ _ _ (be_bytes 4 (checksum q)) Hh2) as (b3 & p3 & Hs_3 & Hh3 & Hp3 & Hs3).
  { rewrite zlen_be_bytes. lia. }
  destruct (prepend_holds _ _ _ (be_bytes 4 (zlen (frame_body tag m))) Hh3) as (b4 & Hs_4 & Hh4 & _).
  { rewrite zlen_be_bytes. unfold kCheapPrepend in *. lia. }
  assert (q ++ be_bytes 4 (checksum q) = frame_body tag m) as Hbody
    by (unfold q, frame_body; by rewrite <-app_assoc).
  rewrite Hbody in *.
  exists b4, (p3 - zlen (be_bytes 4 (zlen (frame_body tag m)))). split; [|done].
  unfold fillEmptyBuffer, appendInt32.
  unfold assertST. unfold mbind at 1, ST_bind at 1.
  rewrite (holds_readable _ _ _ Hh). change (zlen (@nil ascii) =? 0) with true. cbn [assert_].
  rewrite (ST_bind_eq _ _ _ _ _ Hs_1), (ST_bind_eq _ _ _ _ _ Hs_2).
  rewrite (ST_bind_eq st_get _ b2 b2 b2 eq_refl). rewrite (holds_readable _ _ _ Hh2).
  unfold i32. rewrite (wraps_small 32 (zlen q)) by (done || (unfold in_s; lia)).
  unfold mbind at 1, ST_bind at 1, lift.
  rewrite (holds_read _ _ _ (zlen q) q [] Hh2) by (rewrite ?app_nil_r; done).
  rewrite wire_bytes_be by lia. rewrite (ST_bind_eq _ _ _ _ _ Hs_3).
  unfold mbind at 1, ST_bind at 1. rewrite (holds_readable _ _ _ Hh3), zlen_frame_body.
  unfold kChecksumLen. rewrite Z.eqb_refl. cbn [assert_].
  rewrite (ST_bind_eq st_get _ b3 b3 b3 eq_refl). rewrite (holds_readable _ _ _ Hh3).
  rewrite wire_bytes_be by lia. rewrite wraps_small by (rewrite ?zlen_frame_body; done). apply Hs_4.
Qed.

Lemma send_frame m : msg_ok tag m → send e tag m = Ret (frame tag m).
Proof.
  intros Hm. assert (zlen (frame tag m) ≤ 4 + kMaxMessageLen) as Hfl.
  { unfold frame. rewrite zlen_app, zlen_be_bytes. unfold msg_ok in Hm. lia. }
  unfold kMaxMessageLen in Hfl.
  destruct (fillEmptyBuffer_holds kCheapPrepend (Buffer_new kInitialSize) m) as (b' & p' & Hf & Hh').
  - done.
  - apply holds_new; vm_compute; discriminate.
  - done.
  - change (zlen (buffer_ (Buffer_new kInitialSize))) with 1032. unfold max_size. lia.
  - unfold send. rewrite Hf. simpl. rewrite (holds_readable _ _ _ Hh').
    apply (holds_read _ _ _ _ _ [] Hh'); [by rewrite app_nil_r|done].
Qed.

(** [onMessage] on a buffer that holds frames and a proper prefix of one. *)
Lemma onMessage_frames p b ms m k `{!ProtoMessageLaws M} :
  Forall (msg_ok tag) (m :: ms) → Forall (λ m, raw_accepts (frame tag m)) ms → 0 ≤ k < zlen (frame tag m) →
  kCheapPrepend ≤ p → holds p b (frames ms ++ ztake k (frame tag m)) →
  ∃ b' p', onMessage e tag rawCb b = (Ret (EMessage <$> ms), b') ∧ holds p' b' (ztake k (frame tag m)) ∧
    kCheapPrepend ≤ p'.
Proof.
  intros Hok Hraw Hk Hp Hh.
  pose proof (codec_loop_content (S (Z.to_nat (readableBytes b))) p b _ Hp Hh) as Hres.
  rewrite (codec_content_frames _ ms m k) in Hres; [|rewrite (holds_readable _ _ _ Hh), zlen_app|done..].
  - unfold onMessage. destruct (codec_loop _ _ _ _ b) as [o b'].
    destruct Hres as (Ho & (p' & Hp' & Hh') & _). simpl in *. subst o. by exists b', p'.
  - pose proof (length_frames ms). unfold zlen. lia.
Qed.

(** The loop stops on every input. *)
Lemma codec_content_stops fuel data :
  (length data < fuel)%nat →
  ∃ es data', codec_content e tag rawCb fuel data = Ret (es, data') ∧
    ∃ n, 0 ≤ n ≤ zlen data ∧ data' = zdrop n data.
Proof.
  revert data. induction fuel as [|fuel IH]; intros data Hf; [lia|].
  cbn [codec_content]. rewrite kMin_eq. pose proof (zlen_nonneg data).
  assert (data = zdrop 0 data) as Hd0 by done. pose proof (zlen_nonneg tag).
  case_if; [|do 2 eexists; split; [done|]; exists 0; split; [lia|done]].
  set (len := wraps 32 _). destruct (_ || _) eqn:Hl.
  { do 2 eexists. split; [done|]. exists 0. split; [lia|done]. }
  apply orb_false_iff in Hl as [_ Hl]. bool_to_prop. unfold kHeaderLen in *.
  destruct (4 + len <=? zlen data) eqn:Hfull; bool_to_prop.
  2:{ do 2 eexists. split; [done|]. exists 0. split; [lia|done]. }
  destruct (IH (zdrop (4 + len) data)) as (es & d' & Heq & n & Hn & Hd').
  { unfold zdrop, zlen in *. rewrite length_drop. lia. }
  assert (∃ n, 0 ≤ n ≤ zlen data ∧ d' = zdrop n data) as Hex.
  { exists (4 + len + n). rewrite zlen_zdrop in Hn by lia. split; [lia|]. subst d'. unfold zdrop.
    rewrite drop_drop. f_equal. lia. }
  destruct (match rawCb with Some cb => _ | None => _ end); [by exists es, d'|].
  destruct (parse e tag _ len) as [m|c].
  - rewrite Heq. by exists (EMessage m :: es), d'.
  - do 2 eexists. split; [done|]. exists 0. split; [lia|done].
Qed.
(** One turn of the loop on a frame whose header and shortest body are there. *)
Lemma codec_content_header fuel len body rest :
  rawCb = None → in_s 32 len → zlen tag + 4 ≤ zlen body →
  let data := be_bytes 4 len ++ body ++ rest in
  codec_content e tag rawCb (S fuel) data =
    if (kMaxMessageLen <? len) || (len <? zlen tag + 4) then Ret ([EError kInvalidLength], data)
    else if 4 + len <=? zlen data then
      match parse e tag (zdrop 4 (ztake (4 + len) data)) len with
      | inl m => r ← codec_content e tag rawCb fuel (zdrop (4 + len) data); Ret (EMessage m :: r.1, r.2)
      | inr c => Ret ([EError c], data)
      end
    else Ret ([], data).
Proof.
  intros Hraw Hlen Hbody data. pose proof (zlen_nonneg rest).
  assert (zlen data = 4 + zlen body + zlen rest) as Hdl
    by (unfold data; rewrite !zlen_app, zlen_be_bytes; lia).
  cbn [codec_content]. rewrite kMin_eq, Hraw. unfold kHeaderLen.
  rewrite (proj2 (Z.leb_le _ _)) by lia.
  assert (ztake 4 data = be_bytes 4 len) as -> by by apply ztake_zlen_app.
  by rewrite be_val_len.
Qed.

(** The checksum is that of everything before it. *)
Lemma validateChecksum_split content sum len : zlen sum = 4 → len = zlen content + 4 →
  validateChecksum e (content ++ sum) len = (wraps 32 (adler32 content) =? wraps 32 (be_val sum)).
Proof.
  intros Hsum ->. unfold validateChecksum, kChecksumLen, asInt32, checksum, i32.
  rewrite ztake_zlen_app by lia. unfold slice. rewrite zdrop_zlen_app by lia.
  assert (ztake (zlen content + 4 - (zlen content + 4 - 4)) sum = sum) as ->.
  { unfold ztake. apply take_ge. unfold zlen in *. lia. }
  rewrite wire_val_be by (unfold zlen in *; lia). done.
Qed.
End CodecProofs.

(** ** Properties *)

(** C12: Frames survive the wire: a receiver whose buffer holds the frames of
    [ms] followed by any proper prefix of one more frame calls the message
    callback with exactly those messages, in order, and keeps the prefix; and
    what the sender builds for a message is that frame, for either byte order
    on either side. *)
Theorem codec_stream_round_trip (e1 e2 : endian) {M : Type} `{ProtoMessage M, !ProtoMessageLaws M}
    (tag : bytes) (ms : list M) (m : M) (k p : Z) (b : Buffer) :
  tag_ok tag → Forall (msg_ok tag) (m :: ms) → 0 ≤ k < zlen (frame tag m) →
  kCheapPrepend ≤ p → holds p b (frames tag ms ++ ztake k (frame tag m)) →
  (∃ b' p', onMessage e2 tag None b = (Ret (EMessage <$> ms), b') ∧
    holds p' b' (ztake k (frame tag m))) ∧
  send e1 tag m = Ret (frame tag m).
Proof.
  intros Htag Hok Hk Hp Hh. split.
  - destruct (onMessage_frames e2 tag None Htag p b ms m k Hok) as (b' & p' & Hr & Hh' & _);
      [by apply Forall_forall|done..|]. by exists b', p'.
  - apply send_frame. by apply Forall_cons in Hok as [Hm _].
Qed.

(** A concrete message type for the witnesses: byte strings, with a checksum
    that adds the bytes up. *)
Definition byte_messages : ProtoMessage bytes := {|
  serialize m := m;
  parseFromArray s := Some s;
  adler32 s := foldr (λ c acc, acc + byte_Z c) 1 s;
|}.
Lemma byte_messages_laws : @ProtoMessageLaws bytes byte_messages.
Proof. by intros m. Qed.

Definition two_frames : Buffer :=
  mk3 (zeros 8) (@frames bytes byte_messages s!"RPC0" [s!"one"; s!"two"] ++
    ztake 6 (@frame bytes byte_messages s!"RPC0" s!"three")) [].

Lemma codec_stream_round_trip_witness :
  (∃ b' p', @onMessage BigEndian bytes byte_messages s!"RPC0" None two_frames =
      (Ret [EMessage s!"one"; EMessage s!"two"], b') ∧
    holds p' b' (ztake 6 (@frame bytes byte_messages s!"RPC0" s!"three"))) ∧
  @send LittleEndian bytes byte_messages s!"RPC0" s!"three" =
    Ret (@frame bytes byte_messages s!"RPC0" s!"three").
Proof.
  apply (@codec_stream_round_trip LittleEndian BigEndian bytes byte_messages byte_messages_laws
    s!"RPC0" [s!"one"; s!"two"] s!"three" 6 kCheapPrepend two_frames).
  - vm_compute. discriminate.
  - repeat constructor; vm_compute; discriminate.
  - split; [discriminate|by vm_compute].
  - done.
  - apply (holds_mk3 (zeros 8) _ []). vm_compute. split; discriminate.
Defined.

(** On any bytes at all [onMessage] terminates without undefined behaviour
    or a failed assertion, consuming a prefix of what is readable; with no
    error event, the bytes it leaves are those a later call continues from. *)
Theorem codec_total (e : endian) {M : Type} `{ProtoMessage M} (tag : bytes)
    (rawCb : option (bytes → bool)) (p : Z) (b : Buffer) (data : bytes) :
  tag_ok tag → kCheapPrepend ≤ p → holds p b data →
  ∃ es b' p' n, onMessage e tag rawCb b = (Ret es, b') ∧ 0 ≤ n ≤ zlen data ∧
    holds p' b' (zdrop n data) ∧ kCheapPrepend ≤ p'.
Proof.
  intros Htag Hp Hh.
  pose proof (codec_loop_content e tag rawCb Htag (S (Z.to_nat (readableBytes b))) p b _ Hp Hh) as Hres.
  destruct (codec_content_stops e tag rawCb Htag (S (Z.to_nat (readableBytes b))) data)
    as (es & d' & Heq & n & Hn & ->).
  { rewrite (holds_readable _ _ _ Hh). unfold zlen. lia. }
  rewrite Heq in Hres. unfold onMessage. destruct (codec_loop _ _ _ _ b) as [o b'].
  destruct Hres as (Ho & (p' & Hp' & Hh') & _). simpl in *. subst o. by exists es, b', p', n.
Qed.

Lemma codec_total_witness :
  ∃ es b' p' n, @onMessage LittleEndian bytes byte_messages s!"RPC0" None
      (mk3 (zeros 8) s!"some garbage bytes" []) = (Ret es, b') ∧ 0 ≤ n ≤ 18 ∧
    holds p' b' (zdrop n s!"some garbage bytes") ∧ kCheapPrepend ≤ p'.
Proof.
  apply (@codec_total LittleEndian bytes byte_messages s!"RPC0" None kCheapPrepend
    (mk3 (zeros 8) s!"some garbage bytes" []) s!"some garbage bytes").
  - vm_compute. discriminate.
  - done.
  - apply (holds_mk3 (zeros 8) _ []). vm_compute. split; discriminate.
Defined.

(** C13: A frame that does not check out is never delivered: a length outside
    [tag + 4, 64 MiB] is reported as [kInvalidLength], a body whose checksum
    is not that of its tag and payload as [kCheckSumError], and a body of
    another tag with a good checksum as [kUnknownMessageType]; the error is
    the only event and the buffer is left as it was. *)
Theorem codec_rejects_bad_frames (e : endian) {M : Type} `{ProtoMessage M} (tag : bytes)
    (p : Z) (b : Buffer) (len : Z) (content sum rest : bytes) :
  let data := be_bytes 4 len ++ (content ++ sum) ++ rest in
  let result c := ∃ b' p', onMessage e tag None b = (Ret [EError (M := M) c], b') ∧ holds p' b' data in
  tag_ok tag → kCheapPrepend ≤ p → holds p b data → in_s 32 len → zlen sum = 4 →
  zlen tag ≤ zlen content →
  (len < zlen tag + 4 ∨ kMaxMessageLen < len → result kInvalidLength) ∧
  (len = zlen (content ++ sum) → len ≤ kMaxMessageLen →
    (wraps 32 (be_val sum) ≠ wraps 32 (adler32 content) → result kCheckSumError) ∧
    (wraps 32 (be_val sum) = wraps 32 (adler32 content) → ztake (zlen tag) content ≠ tag →
      result kUnknownMessageType)).
Proof.
  intros data result Htag Hp Hh Hlen Hsum Hct.
  pose proof (codec_loop_content e tag None Htag (S (Z.to_nat (readableBytes b))) p b _ Hp Hh) as Hres.
  assert (∀ c, codec_content e tag None (S (Z.to_nat (readableBytes b))) data = Ret ([EError c], data) →
    result c) as Hout.
  { intros c Heq. rewrite Heq in Hres. unfold result, onMessage. destruct (codec_loop _ _ _ _ b) as [o b'].
    destruct Hres as (Ho & (p' & _ & Hh') & _). simpl in *. subst o. by exists b', p'. }
  assert (zlen data = 4 + (zlen content + 4) + zlen rest) as Hdl
    by (unfold data; rewrite !zlen_app, zlen_be_bytes; lia).
  pose proof (zlen_nonneg tag). pose proof (zlen_nonneg rest).
  assert (zlen tag + 4 ≤ zlen (content ++ sum)) as Hb4 by (rewrite zlen_app; lia).
  pose proof (codec_content_header e tag None Htag (Z.to_nat (readableBytes b)) len _ rest eq_refl Hlen Hb4)
    as Heq. cbv zeta in Heq. fold data in Heq.
  split.
  - intros Hbad. apply Hout. rewrite Heq. destruct Hbad as [Hb|Hb].
    + by rewrite (proj2 (Z.ltb_lt len _)), orb_true_r by done.
    + by rewrite (proj2 (Z.ltb_lt _ len)) by done.
  - intros Hl Hmax. rewrite zlen_app in Hl.
    assert (zdrop 4 (ztake (4 + len) data) = content ++ sum) as Hbody.
    { unfold data. rewrite app_assoc. rewrite ztake_zlen_app.
      - by apply zdrop_zlen_app.
      - rewrite !zlen_app, zlen_be_bytes. lia. }
    rewrite Hbody in Heq. rewrite (proj2 (Z.ltb_ge _ len)) in Heq by lia.
    rewrite (proj2 (Z.ltb_ge len _)) in Heq by lia. cbn [orb] in Heq.
    rewrite (proj2 (Z.leb_le _ _)) in Heq by lia.
    unfold parse in Heq.
    rewrite validateChecksum_split in Heq by lia. split.
    + intros Hne. apply Hout. rewrite Heq. by rewrite (proj2 (Z.eqb_neq _ _)) by congruence.
    + intros He Hnt. apply Hout. rewrite Heq. rewrite (proj2 (Z.eqb_eq _ _)) by congruence.
      rewrite bool_decide_eq_false_2; [done|]. unfold ztake in *.
      rewrite take_app_le; [done|]. unfold zlen in *. lia.
Qed.

Definition bad_frame : bytes := be_bytes 4 11 ++ (s!"RPC0one" ++ be_bytes 4 99) ++ s!"more".

Lemma codec_rejects_bad_frames_witness :
  ∃ b' p', @onMessage LittleEndian bytes byte_messages s!"RPC0" None
      (mk3 (zeros 8) bad_frame []) = (Ret [EError kCheckSumError], b') ∧ holds p' b' bad_frame.
Proof.
  refine (proj1 (proj2 (@codec_rejects_bad_frames LittleEndian bytes byte_messages s!"RPC0" kCheapPrepend
    (mk3 (zeros 8) bad_frame []) 11 s!"RPC0one" (be_bytes 4 99) s!"more" _ _ _ _ _ _) _ _) _).
  - vm_compute. discriminate.
  - done.
  - apply (holds_mk3 (zeros 8) bad_frame []). vm_compute. split; discriminate.
  - split; vm_compute; congruence.
  - reflexivity.
  - vm_compute. discriminate.
  - reflexivity.
  - vm_compute. discriminate.
  - vm_compute. discriminate.
Defined.
