(* ===== verification/Zlib.v ===== *)
(** * Compressed output (master/net/ZlibStream.h)

    [ZlibOutputStream] feeds what is written to zlib's [deflate] and lets it
    write into a [Buffer], which grows as needed.  zlib itself is an interface,
    with the laws its manual documents; the theorems say that whatever pieces
    are written, every loop ends, no assertion fails and the buffer receives a
    stream that inflates to exactly those pieces.  [ZlibInputStream] has
    declarations only. *)
From S2P Require Import Prelude Buffer.
Local Open Scope Z_scope.

(** ** zlib

    [deflate d flush input avail_out]: the code, how many bytes of the input it
    took, what it wrote at [next_out] and the stream's new state. *)
Class Zlib := {
  dstream : Type;
  deflateInit : Z → Z * dstream;
  deflate : dstream → Z → bytes → Z → Z * Z * bytes * dstream;
  deflateEnd : dstream → Z;
  deflateBound : Z → Z;
}.

Definition Z_OK : Z := 0.
Definition Z_STREAM_END : Z := 1.
Definition Z_NO_FLUSH : Z := 0.
Definition Z_FINISH : Z := 4.
Definition Z_DEFAULT_COMPRESSION : Z := -1.

(** What zlib.h promises.  [deflated d i o fin]: the stream [d] has taken the
    bytes [i], has written [o], and has ended ([fin]).  [deflate] takes input
    and writes output until the one is empty or the other is full; with
    [Z_FINISH] it answers [Z_STREAM_END] when all is written and [Z_OK] when it
    needs more room.  [deflateBound] bounds the output; an ended stream
    inflates to its input. *)
Class ZlibLaws `{Zlib} := {
  deflated : dstream → bytes → bytes → bool → Prop;
  inflated : bytes → option bytes;
  zl_init d : deflateInit Z_DEFAULT_COMPRESSION = (Z_OK, d) → deflated d [] [] false;
  zl_sizes d fl i o input n e k out d' : deflated d i o false → 0 < n →
    deflate d fl input n = (e, k, out, d') → 0 ≤ k ≤ zlen input ∧ zlen out ≤ n;
  zl_no_flush d i o input n e k out d' : deflated d i o false → 0 < n → input ≠ [] →
    deflate d Z_NO_FLUSH input n = (e, k, out, d') →
    e = Z_OK ∧ deflated d' (i ++ ztake k input) (o ++ out) false ∧ (k = zlen input ∨ zlen out = n);
  zl_finish d i o input n e k out d' : deflated d i o false → 0 < n →
    deflate d Z_FINISH input n = (e, k, out, d') →
    (e = Z_OK ∧ deflated d' (i ++ ztake k input) (o ++ out) false ∧ zlen out = n) ∨
    (e = Z_STREAM_END ∧ deflated d' (i ++ ztake k input) (o ++ out) true ∧ k = zlen input);
  zl_bound d i o fin : deflated d i o fin → zlen o ≤ deflateBound (zlen i);
  zl_bound_mono m n : m ≤ n → deflateBound m ≤ deflateBound n;
  zl_end d i o : deflated d i o true → deflateEnd d = Z_OK;
  zl_inverse d i o : deflated d i o true → inflated o = Some i;
}.

(** ** The stream *)
Section Stream.
Context `{Zlib}.

(** The members of [z_stream] that the code uses.  A pointer into the input is
    the bytes from there to the end of the object it points into. *)
Record z_stream := MkZ {
  next_in : option bytes;
  avail_in : Z;
  total_in : Z;
  total_out : Z;
  zstate : dstream;
}.

Record ZlibOutputStream := MkStream {
  output_ : Buffer;
  zstream_ : z_stream;
  zerror_ : Z;
  bufferSize_ : Z;
}.

Definition set_output (b : Buffer) (s : ZlibOutputStream) : ZlibOutputStream :=
  MkStream b (zstream_ s) (zerror_ s) (bufferSize_ s).
Definition set_zstream (z : z_stream) (s : ZlibOutputStream) : ZlibOutputStream :=
  MkStream (output_ s) z (zerror_ s) (bufferSize_ s).
Definition set_zerror (e : Z) (s : ZlibOutputStream) : ZlibOutputStream :=
  MkStream (output_ s) (zstream_ s) e (bufferSize_ s).
Definition set_bufferSize (n : Z) (s : ZlibOutputStream) : ZlibOutputStream :=
  MkStream (output_ s) (zstream_ s) (zerror_ s) n.

(** [next_in = in; avail_in = n] *)
Definition set_next (m : option bytes) (n : Z) (s : ZlibOutputStream) : ZlibOutputStream :=
  set_zstream (MkZ m n (total_in (zstream_ s)) (total_out (zstream_ s)) (zstate (zstream_ s))) s.

Definition ZlibOutputStream_ctor (output : Buffer) : ZlibOutputStream :=
  let '(e, d) := deflateInit Z_DEFAULT_COMPRESSION in
  MkStream output (MkZ None 0 0 0 d) e 1024.

Definition zlibErrorCode (s : ZlibOutputStream) : Z := zerror_ s.
Definition inputBytes (s : ZlibOutputStream) : Z := i64 (total_in (zstream_ s)).
Definition outputBytes (s : ZlibOutputStream) : Z := i64 (total_out (zstream_ s)).
Definition internalOutputBufferSize (s : ZlibOutputStream) : Z := bufferSize_ s.

Definition on_output {A} (m : ST Buffer A) : ST ZlibOutputStream A := λ s,
  let '(r, b) := m (output_ s) in (r, set_output b s).

(** The [avail_in] bytes at [next_in]. *)
Definition next_bytes (z : z_stream) : outcome bytes :=
  match next_in z with
  | Some m => if (0 <=? avail_in z) && (avail_in z <=? zlen m) then Ret (ztake (avail_in z) m) else Undef
  | None => if avail_in z =? 0 then Ret [] else Undef
  end.

(** [::deflate(&zstream_, flush)] with [next_out] at [beginWrite()]. *)
Definition run_deflate (flush avail_out : Z) : ST ZlibOutputStream (Z * Z) :=
  s ← st_get;
  let z := zstream_ s in
  input ← lift (next_bytes z);
  let '(error, used, out, d) := deflate (zstate z) flush input avail_out in
  bs ← lift (blit (beginWrite (output_ s)) out (buffer_ (output_ s)));
  st_put (set_output (set_bytes bs (output_ s))
    (set_zstream (MkZ (zdrop used <$> next_in z) (avail_in z - used)
      (u64 (total_in z + used)) (u64 (total_out z + zlen out)) d) s)) ;;
  mret (error, avail_out - zlen out).

Definition compress (flush : Z) : ST ZlibOutputStream Z :=
  s ← st_get;
  on_output (ensureWritableBytes (bufferSize_ s)) ;;
  s ← st_get;
  ea ← run_deflate flush (u32 (i32 (writableBytes (output_ s))));
  s ← st_get;
  on_output (hasWritten (u64 (writableBytes (output_ s) - ea.2))) ;;
  st_modify (λ s, if (writableBytes (output_ s) =? 0) && (bufferSize_ s <? 65536)
                  then set_bufferSize (bufferSize_ s * 2) s else s) ;;
  mret ea.1.

(** The loops run until zlib has taken all or answers an error; running out of
    fuel is an endless loop, which the theorems exclude. *)
Fixpoint write_loop (fuel : nat) : ST ZlibOutputStream unit :=
  match fuel with
  | O => lift Undef
  | S n =>
      s ← st_get;
      if (0 <? avail_in (zstream_ s)) && (zerror_ s =? Z_OK) then
        e ← compress Z_NO_FLUSH;
        st_modify (set_zerror e) ;;
        write_loop n
      else mret ()
  end.

(** [std::string_view]: [None] has a null [data()]. *)
Definition view_bytes (v : option bytes) : bytes := default [] v.

Definition write (fuel : nat) (buf : option bytes) : ST ZlibOutputStream bool :=
  s ← st_get;
  if negb (zerror_ s =? Z_OK) then mret false else
  lift (assert_ (bool_decide (next_in (zstream_ s) = None) && (avail_in (zstream_ s) =? 0))) ;;
  st_modify (set_next buf (u32 (zlen (view_bytes buf)))) ;;
  write_loop fuel ;;
  s ← st_get;
  (if avail_in (zstream_ s) =? 0 then
     lift (assert_ (bool_decide (next_in (zstream_ s) = (λ _, []) <$> buf))) ;;
     st_modify (set_next None (avail_in (zstream_ s)))
   else mret ()) ;;
  s ← st_get;
  mret (zerror_ s =? Z_OK).

(** [write(Buffer *input)]: the stream and the input buffer. *)
Definition on_stream {A} (m : ST ZlibOutputStream A) : ST (ZlibOutputStream * Buffer) A := λ s,
  let '(r, x) := m s.1 in (r, (x, s.2)).
Definition on_input {A} (m : ST Buffer A) : ST (ZlibOutputStream * Buffer) A := λ s,
  let '(r, b) := m s.2 in (r, (s.1, b)).

Definition write_buffer : ST (ZlibOutputStream * Buffer) bool :=
  s ← st_get;
  if negb (zerror_ s.1 =? Z_OK) then mret false else
  on_stream (st_modify (set_next (Some (zdrop (peek s.2) (buffer_ s.2)))
    (u32 (i32 (readableBytes s.2))))) ;;
  s ← st_get;
  (if (0 <? avail_in (zstream_ s.1)) && (zerror_ s.1 =? Z_OK) then
     e ← on_stream (compress Z_NO_FLUSH);
     on_stream (st_modify (set_zerror e))
   else mret ()) ;;
  s ← st_get;
  on_input (retrieve (u64 (readableBytes s.2 - avail_in (zstream_ s.1)))) ;;
  mret (zerror_ s.1 =? Z_OK).

Fixpoint finish_loop (fuel : nat) : ST ZlibOutputStream unit :=
  match fuel with
  | O => lift Undef
  | S n =>
      s ← st_get;
      if zerror_ s =? Z_OK then
        e ← compress Z_FINISH;
        st_modify (set_zerror e) ;;
        finish_loop n
      else mret ()
  end.

Definition finish (fuel : nat) : ST ZlibOutputStream bool :=
  s ← st_get;
  if negb (zerror_ s =? Z_OK) then mret false else
  finish_loop fuel ;;
  s ← st_get;
  let e := deflateEnd (zstate (zstream_ s)) in
  st_modify (set_zerror Z_STREAM_END) ;;
  mret (e =? Z_OK).

Definition ZlibOutputStream_dtor (fuel : nat) : ST ZlibOutputStream unit :=
  finish fuel ;; mret ().

(** A user's session: every piece, then [finish]. *)
Fixpoint write_all (fuel : nat) (ps : list (option bytes)) : ST ZlibOutputStream bool :=
  match ps with
  | [] => mret true
  | v :: ps => ok ← write fuel v; oks ← write_all fuel ps; mret (ok && oks)
  end.

Definition deflate_session (fuel : nat) (ps : list (option bytes)) : ST ZlibOutputStream bool :=
  oks ← write_all fuel ps;
  ok ← finish fuel;
  mret (oks && ok).

End Stream.

(** ** The output buffer

    [out_ok p0 q B o s]: the buffer holds what was there at first, [q], and then
    the output [o]; it stays small enough for the code's 32-bit counts. *)
Section Proofs.
Context `{Zlib, !ZlibLaws}.
Context (p0 : Z) (q : bytes) (size0 B : Z).
Implicit Types (s : ZlibOutputStream) (z : z_stream) (i o m : bytes).

(** The largest size the vector can reach. *)
Definition out_cap : Z := Z.max size0 (p0 + zlen q + B + 65536).
Hypothesis cap_small : out_cap < 2 ^ 32.

Record out_ok (o : bytes) (s : ZlibOutputStream) : Prop := {
  oo_holds : ∃ p, kCheapPrepend ≤ p ≤ p0 ∧ holds p (output_ s) (q ++ o);
  oo_size : zlen (buffer_ (output_ s)) ≤ out_cap;
  oo_chunk : ∃ j, 0 ≤ j ≤ 6 ∧ bufferSize_ s = 1024 * 2 ^ j;
}.

Lemma chunk_range n : (∃ j, 0 ≤ j ≤ 6 ∧ n = 1024 * 2 ^ j) → 1024 ≤ n ≤ 65536.
Proof.
  intros (j & Hj & ->). pose proof (Z.pow_le_mono_r 2 0 j). pose proof (Z.pow_le_mono_r 2 j 6). lia.
Qed.

Lemma chunk_double n : (∃ j, 0 ≤ j ≤ 6 ∧ n = 1024 * 2 ^ j) → n < 65536 → ∃ j, 0 ≤ j ≤ 6 ∧ n * 2 = 1024 * 2 ^ j.
Proof.
  intros (j & Hj & ->) Hlt. exists (j + 1). rewrite Z.pow_add_r by lia. split; [|lia].
  destruct (decide (j = 6)) as [->|]; [done|lia].
Qed.

Lemma out_ok_zstream o s s' :
  output_ s' = output_ s → bufferSize_ s' = bufferSize_ s → out_ok o s → out_ok o s'.
Proof. intros H1 H2 []. split; by rewrite ?H1, ?H2. Qed.

(** One call of [compress], whatever zlib answers within the room it is given. *)
Lemma compress_writes flush o s m :
  out_ok o s → next_bytes (zstream_ s) = Ret m → zlen o ≤ B → ∃ n, 1024 ≤ n ∧
  ∀ e k out d, deflate (zstate (zstream_ s)) flush m n = (e, k, out, d) →
  zlen out ≤ n → zlen (o ++ out) ≤ B →
  ∃ s', compress flush s = (Ret e, s') ∧ out_ok (o ++ out) s' ∧ zerror_ s' = zerror_ s ∧
    zstream_ s' = MkZ (zdrop k <$> next_in (zstream_ s)) (avail_in (zstream_ s) - k)
      (u64 (total_in (zstream_ s) + k)) (u64 (total_out (zstream_ s) + zlen out)) d.
Proof.
  intros [(p & Hp & Hh) Hsz Hj] Hm Ho. pose proof (chunk_range _ Hj) as Hc. unfold out_cap in *.
  pose proof (holds_bounds _ _ _ Hh) as Hb. rewrite zlen_app in Hb.
  pose proof (zlen_nonneg q). pose proof (zlen_nonneg o).
  destruct (ensureWritableBytes_total _ _ _ (bufferSize_ s) Hh)
    as [(b1 & p1 & He & Hh1 & Hw & Hp1 & Hs1)|[_ Hbad]]; [lia|unfold max_size; lia| |].
  2:{ rewrite zlen_app in Hbad. unfold max_size, kCheapPrepend in *. lia. }
  rewrite zlen_app in Hs1. pose proof (holds_bounds _ _ _ Hh1) as Hb1.
  pose proof (holds_writable _ _ _ Hh1) as Hwr. rewrite zlen_app in Hb1, Hwr.
  set (n := writableBytes b1) in *. exists n. split; [lia|]. intros e k out d Hd Hout Hob.
  destruct (write_holds _ _ _ out Hh1 Hout) as (bs & Hbl & Hbs & b2 & Hhw & Hh2 & Hb2).
  assert (u32 (i32 n) = n) as Hn.
  { unfold u32, i32. rewrite wrapu_wraps by done. apply wrapu_small. unfold in_u. lia. }
  assert (u64 (n - (n - zlen out)) = zlen out) as Hlen.
  { pose proof (zlen_nonneg out). unfold u64. rewrite wrapu_small; [lia|]. unfold in_u. lia. }
  assert (writableBytes (set_bytes bs b1) = n) as Hwb by (unfold writableBytes; simpl; by rewrite Hbs).
  eexists. split; [|split; [|split]].
  - unfold compress, run_deflate, on_output, st_get, st_put, st_modify, lift, mbind, ST_bind, mret, ST_ret.
    rewrite He. simpl. fold n. rewrite Hn, Hm. simpl. rewrite Hd, Hbl. simpl.
    rewrite Hwb, Hlen, Hhw. done.
  - split.
    + exists p1. split; [lia|]. rewrite app_assoc. by case_match.
    + case_match; simpl; rewrite Hb2, Hbs; unfold out_cap; lia.
    + case_match eqn:E; simpl; [|done]. apply andb_true_iff in E as [_ Hlt%Z.ltb_lt]. by apply chunk_double.
  - by case_match.
  - by case_match.
Qed.

(** ** The stream

    [streaming i o m s]: no error so far, zlib has taken [i] and written [o],
    and [m] is what [next_in] and [avail_in] still offer. *)
Record streaming (i o m : bytes) (s : ZlibOutputStream) : Prop := {
  st_out : out_ok o s;
  st_next : next_bytes (zstream_ s) = Ret m;
  st_deflated : deflated (zstate (zstream_ s)) i o false;
  st_error : zerror_ s = Z_OK;
  st_bound : deflateBound (zlen (i ++ m)) ≤ B;
  st_total : total_in (zstream_ s) = u64 (zlen i);
}.

Lemma next_bytes_avail z m : next_bytes z = Ret m → avail_in z = zlen m.
Proof.
  unfold next_bytes. destruct (next_in z) as [l|]; case_match eqn:E; intros [= <-].
  - apply andb_true_iff in E as [?%Z.leb_le ?%Z.leb_le]. by rewrite zlen_ztake.
  - by apply Z.eqb_eq in E.
Qed.

Lemma next_bytes_used z m k ti to d : next_bytes z = Ret m → 0 ≤ k ≤ zlen m →
  next_bytes (MkZ (zdrop k <$> next_in z) (avail_in z - k) ti to d) = Ret (zdrop k m).
Proof.
  intros Hm Hk. pose proof (next_bytes_avail _ _ Hm) as Ha. unfold next_bytes in *. simpl.
  destruct (next_in z) as [l|]; simpl; case_match eqn:E; simplify_eq.
  - apply andb_true_iff in E as [?%Z.leb_le ?%Z.leb_le]. rewrite !(proj2 (Z.leb_le _ _)); [|rewrite zlen_zdrop; lia|lia].
    simpl. f_equal. unfold ztake, zdrop. rewrite take_drop_commute. do 2 f_equal. lia.
  - apply Z.eqb_eq in E. change (zlen (@nil ascii)) with 0 in *.
    rewrite (proj2 (Z.eqb_eq _ _)) by lia. unfold zdrop. by rewrite drop_nil.
Qed.

Lemma deflated_bound i o m fin d : deflated d i o fin → deflateBound (zlen (i ++ m)) ≤ B → zlen o ≤ B.
Proof.
  intros Hd Hb. pose proof (zl_bound _ _ _ _ Hd). pose proof (zlen_nonneg m).
  pose proof (zl_bound_mono (zlen i) (zlen (i ++ m))) as Hm. rewrite zlen_app in *. lia.
Qed.

(** What is taken and what is left, after one call. *)
Lemma taken_left i m k : (i ++ ztake k m) ++ zdrop k m = i ++ m.
Proof. rewrite <-app_assoc. unfold ztake, zdrop. by rewrite take_drop. Qed.

Lemma zlen_taken i m k : 0 ≤ k ≤ zlen m → zlen (i ++ ztake k m) = zlen i + k.
Proof. intros Hk. by rewrite zlen_app, zlen_ztake. Qed.

Lemma u64_add_l a b : u64 (u64 a + b) = u64 (a + b).
Proof. unfold u64, wrapu. by rewrite Zplus_mod_idemp_l. Qed.

Lemma ztake_whole m : ztake (zlen m) m = m.
Proof. unfold ztake, zlen. rewrite Nat2Z.id. by apply take_ge. Qed.

Lemma zdrop_whole m : zdrop (zlen m) m = [].
Proof. unfold zdrop, zlen. rewrite Nat2Z.id. by apply drop_ge. Qed.

(** One call of [compress] on a stream without error. *)
Lemma compress_step flush i o m s :
  streaming i o m s → (flush = Z_NO_FLUSH ∧ m ≠ []) ∨ flush = Z_FINISH →
  ∃ e s' k out, compress flush s = (Ret e, s') ∧ 0 ≤ k ≤ zlen m ∧
    next_in (zstream_ s') = zdrop k <$> next_in (zstream_ s) ∧
    ((e = Z_OK ∧ streaming (i ++ ztake k m) (o ++ out) (zdrop k m) s' ∧
       ((flush = Z_NO_FLUSH ∧ k = zlen m) ∨ 1024 ≤ zlen out)) ∨
     (e = Z_STREAM_END ∧ flush = Z_FINISH ∧ k = zlen m ∧ out_ok (o ++ out) s' ∧
       deflated (zstate (zstream_ s')) (i ++ m) (o ++ out) true ∧
       total_in (zstream_ s') = u64 (zlen (i ++ m)))).
Proof.
  intros [Hout Hm Hd He Hb Ht] Hfl. pose proof (deflated_bound _ _ _ _ _ Hd Hb) as Hob.
  destruct (compress_writes flush o s m Hout Hm Hob) as (n & Hn & Hc).
  destruct (deflate (zstate (zstream_ s)) flush m n) as [[[e k] out] d] eqn:E.
  assert (0 < n) as Hn0 by lia.
  destruct (zl_sizes _ _ _ _ _ _ _ _ _ _ Hd Hn0 E) as [Hk Hl].
  assert ((e = Z_OK ∧ deflated d (i ++ ztake k m) (o ++ out) false ∧
            ((flush = Z_NO_FLUSH ∧ k = zlen m) ∨ 1024 ≤ zlen out)) ∨
          (e = Z_STREAM_END ∧ deflated d (i ++ ztake k m) (o ++ out) true ∧ k = zlen m ∧ flush = Z_FINISH)) as Hcase.
  { destruct Hfl as [[-> Hne]| ->].
    - destruct (zl_no_flush _ _ _ _ _ _ _ _ _ Hd Hn0 Hne E) as (-> & ? & [?|?]); left; repeat split; auto; right; lia.
    - destruct (zl_finish _ _ _ _ _ _ _ _ _ Hd Hn0 E) as [(-> & ? & ?)|(-> & ? & ?)]; [left|right]; repeat split; auto; right; lia. }
  assert (∃ fin, deflated d (i ++ ztake k m) (o ++ out) fin) as (fin & Hdo).
  { destruct Hcase as [(_ & ? & _)|(_ & ? & _)]; eauto. }
  assert (zlen (o ++ out) ≤ B) as Hob'.
  { apply (deflated_bound _ _ (zdrop k m) _ _ Hdo). by rewrite taken_left. }
  destruct (Hc _ _ _ _ eq_refl Hl Hob') as (s' & Hrun & Hout' & He' & Hz').
  exists e, s', k, out. split; [done|]. split; [done|]. rewrite Hz'. simpl. split; [done|].
  destruct Hcase as [(-> & Hd' & Hk')|(-> & Hd' & -> & Hf)]; [left|right].
  - split; [done|]. split; [|done]. split; rewrite ?Hz'; simpl; [done| |done|congruence|by rewrite taken_left|].
    + by apply next_bytes_used.
    + by rewrite Ht, u64_add_l, zlen_taken.
  - rewrite ztake_whole in Hd'. rewrite Ht, u64_add_l, zlen_app. done.
Qed.

Lemma streaming_set_error i o m s : streaming i o m s → set_zerror Z_OK s = s.
Proof. intros []. destruct s; simpl in *. by subst. Qed.

(** The loops end: every turn but the last one fills at least 1024 bytes. *)
Lemma write_loop_takes fuel i o m s : streaming i o m s → (0 < fuel)%nat →
  (m ≠ [] → B - zlen o + 1 < Z.of_nat fuel) →
  ∃ s' o', write_loop fuel s = (Ret (), s') ∧ streaming (i ++ m) o' [] s' ∧
    next_in (zstream_ s') = zdrop (zlen m) <$> next_in (zstream_ s).
Proof.
  revert i o m s. induction fuel as [|fuel IH]; [lia|]. intros i o m s Hs _ Hf. simpl.
  unfold mbind at 1, ST_bind at 1, st_get. pose proof (next_bytes_avail _ _ (st_next _ _ _ _ Hs)) as Ha.
  rewrite Ha, (st_error _ _ _ _ Hs). destruct m as [|c m'] eqn:Em.
  { exists s, o. rewrite app_nil_r. split; [done|]. split; [done|]. by destruct (next_in _). }
  rewrite <-Em in *. assert (0 < zlen m) by (subst m; unfold zlen; simpl; lia).
  rewrite (proj2 (Z.ltb_lt _ _)) by done. simpl.
  destruct (compress_step Z_NO_FLUSH i o m s Hs) as (e & s1 & k & out & Hrun & Hk & Hn & Hcase); [left; split; [done|by subst m]|].
  destruct Hcase as [(-> & Hs1 & Hend)|(_ & ? & _)]; [|done].
  rewrite (ST_bind_eq _ _ _ _ _ Hrun). unfold mbind, ST_bind, st_modify.
  rewrite (streaming_set_error _ _ _ _ Hs1).
  assert (m ≠ []) as Hne by (by subst m). specialize (Hf Hne).
  pose proof (deflated_bound _ _ _ _ _ (st_deflated _ _ _ _ Hs1) (st_bound _ _ _ _ Hs1)) as Hob.
  rewrite zlen_app in Hob. pose proof (zlen_nonneg out). pose proof (zlen_nonneg o).
  destruct (IH _ _ _ _ Hs1) as (s' & o' & Hl & Hs' & Hn'); [lia| |].
  { rewrite zlen_app. destruct Hend as [[_ ->]|?]; [by rewrite zdrop_whole|lia]. }
  exists s', o'. rewrite taken_left in Hs'. split; [done|]. split; [done|].
  rewrite Hn', Hn, <-option_fmap_compose. apply option_fmap_ext. intros l. simpl.
  rewrite zlen_zdrop by done. unfold zdrop. rewrite drop_drop. f_equal. lia.
Qed.

Lemma finish_loop_ends fuel i o m s : streaming i o m s → B - zlen o + 1 < Z.of_nat fuel →
  ∃ s' o', finish_loop fuel s = (Ret (), s') ∧ out_ok o' s' ∧
    deflated (zstate (zstream_ s')) (i ++ m) o' true ∧ total_in (zstream_ s') = u64 (zlen (i ++ m)).
Proof.
  revert i o m s. induction fuel as [|fuel IH]; intros i o m s Hs Hf;
    pose proof (deflated_bound _ _ _ _ _ (st_deflated _ _ _ _ Hs) (st_bound _ _ _ _ Hs)) as Hob0; [lia|].
  simpl. unfold mbind at 1, ST_bind at 1, st_get. rewrite (st_error _ _ _ _ Hs). simpl.
  destruct (compress_step Z_FINISH i o m s Hs) as (e & s1 & k & out & Hrun & Hk & _ & Hcase); [by right|].
  rewrite (ST_bind_eq _ _ _ _ _ Hrun). unfold mbind, ST_bind, st_modify.
  destruct Hcase as [(-> & Hs1 & [[? _]|Hend])|(-> & _ & -> & Ho & Hd & Ht)]; [done| |].
  - rewrite (streaming_set_error _ _ _ _ Hs1).
    destruct (IH _ _ _ _ Hs1) as (s' & o' & Hl & Hs'); [rewrite zlen_app; lia|].
    rewrite taken_left in Hs'. by exists s', o'.
  - destruct fuel as [|fuel]; [lia|]. exists (set_zerror Z_STREAM_END s1), (o ++ out).
    split; [done|]. split; [by apply (out_ok_zstream _ s1)|done].
Qed.

(** ** The operations *)
Definition ready (i o : bytes) (s : ZlibOutputStream) : Prop :=
  streaming i o [] s ∧ next_in (zstream_ s) = None.

Lemma write_takes fuel v i o s : ready i o s → zlen (view_bytes v) < 2 ^ 32 →
  deflateBound (zlen (i ++ view_bytes v)) ≤ B → B + 1 < Z.of_nat fuel →
  ∃ s' o', write fuel v s = (Ret true, s') ∧ ready (i ++ view_bytes v) o' s'.
Proof.
  intros [Hs Hn] Hv Hb Hf. pose proof (next_bytes_avail _ _ (st_next _ _ _ _ Hs)) as Ha.
  pose proof (zlen_nonneg (view_bytes v)) as Hv0. pose proof (zlen_nonneg o) as Ho.
  set (s1 := set_next v (u32 (zlen (view_bytes v))) s).
  assert (streaming i o (view_bytes v) s1) as Hs1.
  { destruct Hs as [Ho' _ Hd He _ Ht]. split; [by apply (out_ok_zstream _ s)| |done..].
    unfold s1, next_bytes, u32. simpl. rewrite wrapu_small by (unfold in_u; lia).
    destruct v as [l|]; simpl in *; [|done].
    rewrite !(proj2 (Z.leb_le _ _)) by lia. simpl. by rewrite ztake_whole. }
  pose proof (deflated_bound _ _ _ _ _ (st_deflated _ _ _ _ Hs1) (st_bound _ _ _ _ Hs1)) as Hob.
  destruct (write_loop_takes fuel _ _ _ _ Hs1) as (s2 & o' & Hl & Hs2 & Hn2); [lia|intros _; lia|].
  unfold write, mbind, ST_bind, st_get, st_modify, lift, mret, ST_ret.
  rewrite (st_error _ _ _ _ Hs), Hn, Ha. simpl. fold s1. rewrite Hl.
  pose proof (next_bytes_avail _ _ (st_next _ _ _ _ Hs2)) as Ha2. rewrite Ha2. simpl.
  rewrite (bool_decide_eq_true_2 (next_in (zstream_ s2) = _)).
  2:{ rewrite Hn2. destruct v as [l|]; simpl; [by rewrite zdrop_whole|done]. }
  simpl. rewrite (st_error _ _ _ _ Hs2). eexists _, o'. split; [done|]. split; [|done].
  destruct Hs2 as [Ho2 _ Hd2 He2 Hb2 Ht2]. split; [by apply (out_ok_zstream _ s2)|done..].
Qed.

Lemma finish_ends fuel i o m s : streaming i o m s → B + 1 < Z.of_nat fuel →
  ∃ s' o', finish fuel s = (Ret true, s') ∧ out_ok o' s' ∧ zerror_ s' = Z_STREAM_END ∧
    inflated o' = Some (i ++ m) ∧ total_in (zstream_ s') = u64 (zlen (i ++ m)).
Proof.
  intros Hs Hf. pose proof (zlen_nonneg o).
  destruct (finish_loop_ends fuel _ _ _ _ Hs) as (s' & o' & Hl & Ho & Hd & Ht); [lia|].
  unfold finish, mbind, ST_bind, st_get, st_modify, mret, ST_ret. rewrite (st_error _ _ _ _ Hs). simpl.
  rewrite Hl, (zl_end _ _ _ Hd). eexists _, o'. split; [done|].
  split; [by apply (out_ok_zstream _ s')|]. split; [done|]. split; [by eapply zl_inverse|done].
Qed.

Lemma write_all_takes fuel ps i o s : ready i o s → Forall (λ v, zlen (view_bytes v) < 2 ^ 32) ps →
  deflateBound (zlen (i ++ concat (view_bytes <$> ps))) ≤ B → B + 1 < Z.of_nat fuel →
  ∃ s' o', write_all fuel ps s = (Ret true, s') ∧ ready (i ++ concat (view_bytes <$> ps)) o' s'.
Proof.
  intros Hs Hps Hb Hf. revert i o s Hs Hb. induction Hps as [|v ps Hv Hps IH]; intros i o s Hs Hb.
  { exists s, o. simpl. by rewrite app_nil_r. }
  cbn [fmap list_fmap concat] in *. rewrite app_assoc in Hb.
  destruct (write_takes fuel v i o s Hs Hv) as (s1 & o1 & Hw & Hs1); [|done|].
  { etrans; [|exact Hb]. apply zl_bound_mono. rewrite (zlen_app (i ++ _)).
    pose proof (zlen_nonneg (concat (view_bytes <$> ps))). lia. }
  destruct (IH _ _ _ Hs1 Hb) as (s2 & o2 & Hw2 & Hs2). exists s2, o2. simpl.
  rewrite (ST_bind_eq _ _ _ _ _ Hw), (ST_bind_eq _ _ _ _ _ Hw2), app_assoc. done.
Qed.
End Proofs.

(** ** Properties *)

(** C30: Whatever pieces are written to a fresh stream, every [write] and the
    [finish] return true, no assertion fails and every loop ends; the buffer
    holds what it held before and then a stream that inflates to exactly the
    pieces, however often the buffer had to grow in between.  Afterwards the
    stream refuses further calls and changes nothing. *)
Theorem zlib_stream_round_trip `{Zlib, !ZlibLaws} (p : Z) (b : Buffer) (q : bytes) (d : dstream)
    (ps : list (option bytes)) (fuel : nat) :
  let total := concat (view_bytes <$> ps) in
  let bound := deflateBound (zlen total) in
  kCheapPrepend ≤ p → holds p b q → deflateInit Z_DEFAULT_COMPRESSION = (Z_OK, d) →
  Forall (λ v, zlen (view_bytes v) < 2 ^ 32) ps → zlen total < 2 ^ 63 →
  Z.max (zlen (buffer_ b)) (p + zlen q + bound + 65536) < 2 ^ 32 → bound + 1 < Z.of_nat fuel →
  ∃ s, deflate_session fuel ps (ZlibOutputStream_ctor b) = (Ret true, s) ∧
    zlibErrorCode s = Z_STREAM_END ∧ inputBytes s = zlen total ∧
    (∃ p' z, holds p' (output_ s) (q ++ z) ∧ inflated z = Some total) ∧
    (∀ v, write fuel v s = (Ret false, s)) ∧ finish fuel s = (Ret false, s).
Proof.
  intros total bound Hp Hh Hd Hps Htot Hcap Hf. set (s0 := ZlibOutputStream_ctor b).
  assert (ready p q (zlen (buffer_ b)) bound [] [] s0) as Hready.
  { unfold s0, ZlibOutputStream_ctor. rewrite Hd. split; [|done]. split; simpl.
    - split; simpl; [exists p; by rewrite app_nil_r|unfold out_cap; lia|by exists 0].
    - done.
    - by apply zl_init.
    - done.
    - apply zl_bound_mono, zlen_nonneg.
    - done. }
  destruct (write_all_takes p q (zlen (buffer_ b)) bound Hcap fuel ps [] [] s0 Hready Hps)
    as (s1 & o1 & Hw & [Hs1 _]); [done|done|].
  destruct (finish_ends p q (zlen (buffer_ b)) bound Hcap fuel _ _ _ s1 Hs1 Hf)
    as (s & o & Hfin & [(p' & _ & Ho) _ _] & He & Hi & Ht).
  exists s. unfold deflate_session. rewrite (ST_bind_eq _ _ _ _ _ Hw), (ST_bind_eq _ _ _ _ _ Hfin).
  rewrite app_nil_r in *. fold total in Hi, Ht. split; [done|]. split; [done|]. split.
  { unfold inputBytes. rewrite Ht. unfold i64, u64. rewrite wraps_wrapu by done.
    apply wraps_small; [done|]. pose proof (zlen_nonneg total). unfold in_s. simpl. lia. }
  split; [by exists p', o|]. unfold write, finish, mbind, ST_bind, st_get. by rewrite He.
Qed.

(** ** Writing from a buffer *)
Section WriteBuffer.
Context `{Zlib, !ZlibLaws} (p0 : Z) (q : bytes) (size0 B : Z).
Hypothesis cap_small : out_cap p0 q size0 B < 2 ^ 32.
Local Abbreviation streaming := (streaming p0 q size0 B).
Implicit Types (s : ZlibOutputStream) (b : Buffer).

(** [next_in] at the buffer's readable bytes. *)
Definition point_at (b : Buffer) : ZlibOutputStream → ZlibOutputStream :=
  set_next (Some (zdrop (peek b) (buffer_ b))) (u32 (i32 (readableBytes b))).

Lemma point_at_streaming s i o m p b data : streaming i o m s → holds p b data → zlen data < 2 ^ 32 →
  deflateBound (zlen (i ++ data)) ≤ B → streaming i o data (point_at b s).
Proof.
  intros [Ho _ Hd He _ Ht] Hh Hlen Hb. pose proof (zlen_nonneg data) as Hd0.
  split; [by apply (out_ok_zstream _ _ _ _ _ s)| |done..].
  assert (u32 (i32 (readableBytes b)) = zlen data) as Hu.
  { rewrite (holds_readable _ _ _ Hh). unfold u32, i32. rewrite wrapu_wraps by done.
    apply wrapu_small. unfold in_u. lia. }
  unfold point_at, next_bytes. simpl. rewrite Hu. destruct Hh as (pre & post & -> & <- & Hsz). simpl.
  rewrite zdrop_app, zlen_app. pose proof (zlen_nonneg post).
  rewrite !(proj2 (Z.leb_le _ _)) by lia. simpl. by rewrite ztake_app.
Qed.

(** The single call of [compress]. *)
Lemma feed_once s i o b data : streaming i o data s → is_Some (next_in (zstream_ s)) →
  ∃ s' k o', (if (0 <? avail_in (zstream_ s)) && (zerror_ s =? Z_OK) then
      e ← on_stream (compress Z_NO_FLUSH); on_stream (st_modify (set_zerror e)) else mret ()) (s, b)
      = (Ret (), (s', b)) ∧ 0 ≤ k ≤ zlen data ∧
    streaming (i ++ ztake k data) o' (zdrop k data) s' ∧ is_Some (next_in (zstream_ s')).
Proof.
  intros Hs Hsome. rewrite (next_bytes_avail _ _ (st_next _ _ _ _ _ _ _ _ Hs)), (st_error _ _ _ _ _ _ _ _ Hs).
  destruct (decide (data = [])) as [->|Hne].
  { exists s, 0, o. simpl. split; [done|]. split; [done|]. by rewrite app_nil_r. }
  rewrite (proj2 (Z.ltb_lt _ _)) by (destruct data; [done|unfold zlen; simpl; lia]). simpl.
  destruct (compress_step p0 q size0 B cap_small Z_NO_FLUSH i o data s Hs)
    as (e & s2 & k & out & Hrun & Hk & Hn & Hcase); [by left|].
  destruct Hcase as [(-> & Hs2 & _)|(_ & ? & _)]; [|done]. exists s2, k, (o ++ out).
  unfold on_stream, mbind, ST_bind, st_modify. simpl. rewrite Hrun. simpl.
  rewrite (streaming_set_error _ _ _ _ _ _ _ _ Hs2). do 3 (split; [done|]). by rewrite Hn, fmap_is_Some.
Qed.

(** [write(Buffer *input)] takes some of the readable bytes and retrieves
    exactly those; [next_in] stays at what it did not take. *)
Lemma write_buffer_takes s i o m p b data : streaming i o m s → holds p b data →
  zlen data < 2 ^ 32 → deflateBound (zlen (i ++ data)) ≤ B →
  ∃ s' b' p' k o', write_buffer (s, b) = (Ret true, (s', b')) ∧ 0 ≤ k ≤ zlen data ∧
    holds p' b' (zdrop k data) ∧
    streaming (i ++ ztake k data) o' (zdrop k data) s' ∧ is_Some (next_in (zstream_ s')).
Proof.
  intros Hs Hh Hlen Hb. pose proof (point_at_streaming _ _ _ _ _ _ _ Hs Hh Hlen Hb) as Hs1.
  destruct (feed_once _ _ _ b _ Hs1) as (s2 & k & o2 & Hrun & Hk & Hs2 & Hn2); [by eexists|].
  assert (holds p b (ztake k data ++ zdrop k data)) as Hh2 by (by rewrite ztake_zdrop).
  destruct (retrieve_holds _ _ _ _ Hh2) as (b' & p' & Hr & Hb' & _). rewrite zlen_ztake in Hr by done.
  exists s2, b', p', k, o2. split; [|done].
  unfold write_buffer. rewrite (ST_bind_eq st_get _ (s, b) (s, b) (s, b) eq_refl). cbn [fst snd].
  rewrite (st_error _ _ _ _ _ _ _ _ Hs). cbn [negb Z.eqb Z_OK].
  rewrite (ST_bind_eq _ _ (s, b) () (point_at b s, b) eq_refl), (ST_bind_eq st_get _ _ _ _ eq_refl).
  rewrite (ST_bind_eq _ _ _ _ _ Hrun), (ST_bind_eq st_get _ _ _ _ eq_refl).
  cbn [fst snd]. rewrite (next_bytes_avail _ _ (st_next _ _ _ _ _ _ _ _ Hs2)).
  rewrite (holds_readable _ _ _ Hh), zlen_zdrop by done.
  assert (u64 (zlen data - (zlen data - k)) = k) as ->.
  { unfold u64. rewrite wrapu_small; [lia|]. unfold in_u. lia. }
  unfold mbind, ST_bind, on_input. cbn [snd fst]. rewrite Hr, (st_error _ _ _ _ _ _ _ _ Hs2). done.
Qed.

(** [write(Buffer *input)] leaves [next_in] set: a later write of a piece fails
    its assertion, and [finish] compresses the bytes that were not taken,
    although they are still readable in the input buffer. *)
Theorem buffer_write_leaves_next_in s i o m p b data fuel : streaming i o m s → holds p b data →
  zlen data < 2 ^ 32 → deflateBound (zlen (i ++ data)) ≤ B → B + 1 < Z.of_nat fuel →
  ∃ s' b' p' k, write_buffer (s, b) = (Ret true, (s', b')) ∧ 0 ≤ k ≤ zlen data ∧
    holds p' b' (zdrop k data) ∧ (∀ v, (write fuel v s').1 = AssertFail) ∧
    ∃ s'' o'', finish fuel s' = (Ret true, s'') ∧ out_ok p0 q size0 B o'' s'' ∧
      inflated o'' = Some (i ++ data).
Proof.
  intros Hs Hh Hlen Hb Hf.
  destruct (write_buffer_takes _ _ _ _ _ _ _ Hs Hh Hlen Hb) as (s' & b' & p' & k & o' & Hw & Hk & Hb' & Hs' & [l Hn]).
  exists s', b', p', k. do 3 (split; [done|]). split.
  - intros v. unfold write, mbind, ST_bind, st_get. by rewrite (st_error _ _ _ _ _ _ _ _ Hs'), Hn.
  - destruct (finish_ends p0 q size0 B cap_small fuel _ _ _ _ Hs' Hf) as (s'' & o'' & Hfin & Ho & _ & Hi & _).
    rewrite taken_left in Hi. by exists s'', o''.
Qed.
End WriteBuffer.

(** A piece of 2^32 bytes: its length is cut to 32 bits, nothing is
    compressed and the assertion on [next_in] fails. *)
Theorem write_oversized_piece `{Zlib} (fuel : nat) (s : ZlibOutputStream) (l : bytes) :
  zerror_ s = Z_OK → next_in (zstream_ s) = None → avail_in (zstream_ s) = 0 → (0 < fuel)%nat →
  zlen l = 2 ^ 32 → (write fuel (Some l) s).1 = AssertFail.
Proof.
  intros He Hn Ha Hf Hl. unfold write, mbind, ST_bind, st_get. rewrite He, Hn, Ha. simpl.
  unfold lift, st_modify. simpl. rewrite Hl. destruct fuel as [|fuel]; [lia|]. simpl.
  rewrite bool_decide_eq_false_2; [done|]. intros [= ->]. done.
Qed.

(** ** A stream that stores its input

    The simplest instance of the interface: what does not fit waits in the
    state. *)
Module Stored.
Definition state : Type := bytes * bytes * bytes * bool.

Definition stored_deflate (d : state) (flush : Z) (input : bytes) (n : Z) : Z * Z * bytes * state :=
  let '(pending, i, o, _) := d in
  let all := pending ++ input in
  let fin := (flush =? Z_FINISH) && (zlen all <=? n) in
  (if fin then Z_STREAM_END else Z_OK, zlen input, take (Z.to_nat n) all,
   (drop (Z.to_nat n) all, i ++ input, o ++ take (Z.to_nat n) all, fin)).

#[export] Instance stored_zlib : Zlib := {
  dstream := state;
  deflateInit _ := (Z_OK, ([], [], [], false));
  deflate := stored_deflate;
  deflateEnd _ := Z_OK;
  deflateBound n := n;
}.

Definition stored_rel (d : state) (i o : bytes) (fin : bool) : Prop :=
  ∃ pending, d = (pending, i, o, fin) ∧ i = o ++ pending ∧ (fin = true → pending = []).

Lemma stored_step d flush i o input n e k out d' : stored_rel d i o false → 0 < n →
  stored_deflate d flush input n = (e, k, out, d') → k = zlen input ∧ zlen out ≤ n ∧
  ((e = Z_OK ∧ stored_rel d' (i ++ input) (o ++ out) false ∧ (flush = Z_FINISH → zlen out = n)) ∨
   (e = Z_STREAM_END ∧ flush = Z_FINISH ∧ stored_rel d' (i ++ input) (o ++ out) true)).
Proof.
  intros (pending & -> & -> & _) Hn. unfold stored_deflate. intros [= <- <- <- <-].
  assert (zlen (take (Z.to_nat n) (pending ++ input)) ≤ n) as Hle.
  { unfold zlen. rewrite length_take. lia. }
  split; [done|]. split; [done|].
  assert ((o ++ pending) ++ input =
    (o ++ take (Z.to_nat n) (pending ++ input)) ++ drop (Z.to_nat n) (pending ++ input)) as Heq.
  { by rewrite <-!app_assoc, take_drop. }
  destruct (_ && _) eqn:E; [right|left]; (split; [done|]).
  - apply andb_true_iff in E as [->%Z.eqb_eq Hfit%Z.leb_le]. split; [done|].
    eexists. split; [done|]. split; [done|]. intros _. apply drop_ge. unfold zlen in Hfit. lia.
  - split; [by eexists|]. intros ->. simpl in E. apply Z.leb_gt in E.
    unfold zlen in *. rewrite length_take. lia.
Qed.

#[export] Instance stored_laws : ZlibLaws.
Proof.
  refine {| deflated := stored_rel; inflated := Some |}.
  - intros d [= <-]. by exists [].
  - intros * Hd Hn E. destruct (stored_step _ _ _ _ _ _ _ _ _ _ Hd Hn E) as (-> & ? & _).
    split; [|done]. pose proof (zlen_nonneg input). lia.
  - intros * Hd Hn _ E.
    destruct (stored_step _ _ _ _ _ _ _ _ _ _ Hd Hn E) as (-> & _ & [(-> & Hr & _)|(_ & ? & _)]); [|done].
    rewrite ztake_whole. auto.
  - intros * Hd Hn E. destruct (stored_step _ _ _ _ _ _ _ _ _ _ Hd Hn E)
      as (-> & _ & [(-> & Hr & Hf)|(-> & _ & Hr)]); rewrite ztake_whole; [left|right]; auto.
  - intros d i o fin (pending & _ & -> & _). rewrite zlen_app. pose proof (zlen_nonneg pending). simpl. lia.
  - done.
  - done.
  - intros d i o (pending & _ & -> & Hp). rewrite Hp by done. by rewrite app_nil_r.
Defined.

Definition demo_pieces : list (option bytes) := [Some s!"hello, "; None; Some s!"world"].
End Stored.

Lemma zlib_stream_round_trip_witness :
  ∃ s, @deflate_session Stored.stored_zlib 100 Stored.demo_pieces
      (@ZlibOutputStream_ctor Stored.stored_zlib (Buffer_new 16)) = (Ret true, s) ∧
    zlibErrorCode s = Z_STREAM_END ∧ inputBytes s = 12 ∧
    (∃ p' z, holds p' (output_ s) ([] ++ z) ∧ @inflated _ Stored.stored_laws z = Some s!"hello, world") ∧
    (∀ v, write 100 v s = (Ret false, s)) ∧ finish 100 s = (Ret false, s).
Proof.
  apply (@zlib_stream_round_trip Stored.stored_zlib Stored.stored_laws kCheapPrepend (Buffer_new 16) []
    ([], [], [], false) Stored.demo_pieces 100).
  - done.
  - by apply holds_new.
  - done.
  - unfold Stored.demo_pieces. repeat constructor.
  - done.
  - done.
  - done.
Defined.
