(* ===== verification/Channel.v ===== *)
(** * Channels (master/net/Channel.h, Channel.cc)

    A channel ties a file descriptor to an interest mask and to callbacks.
    Channels live in a heap indexed by identity, since the pollers and the
    loop hold pointers to them.  The members that set the mask end in a call of
    the poller, which is a parameter here (see the file Poller).  A callback is
    present or absent; the list of the callbacks a dispatch runs is its
    result. *)
From S2P Require Import Prelude CxxString.
Local Open Scope Z_scope.

Definition POLLIN : Z := 1.
Definition POLLPRI : Z := 2.
Definition POLLOUT : Z := 4.
Definition POLLERR : Z := 8.
Definition POLLHUP : Z := 16.
Definition POLLNVAL : Z := 32.
Definition POLLRDHUP : Z := 8192.

Definition kNoneEvent : Z := 0.
Definition kReadEvent : Z := Z.lor POLLIN POLLPRI.
Definition kWriteEvent : Z := POLLOUT.

Inductive callback := CloseCallback | ErrorCallback | ReadCallback | WriteCallback.

#[export] Instance callback_eq_dec : EqDecision callback.
Proof. solve_decision. Defined.

Record Channel := MkChannel {
  fd_ : Z;
  events_ : Z;
  revents_ : Z;
  index_ : Z;
  tied_ : bool;
  addedToLoop_ : bool;
  callbacks_ : list callback;
}.

Definition Channel_new (fd : Z) : Channel := MkChannel fd 0 0 (-1) false false [].

Definition set_events (ev : Z) (c : Channel) : Channel :=
  MkChannel (fd_ c) ev (revents_ c) (index_ c) (tied_ c) (addedToLoop_ c) (callbacks_ c).
Definition set_revents (r : Z) (c : Channel) : Channel :=
  MkChannel (fd_ c) (events_ c) r (index_ c) (tied_ c) (addedToLoop_ c) (callbacks_ c).
Definition set_index (i : Z) (c : Channel) : Channel :=
  MkChannel (fd_ c) (events_ c) (revents_ c) i (tied_ c) (addedToLoop_ c) (callbacks_ c).
Definition set_added (a : bool) (c : Channel) : Channel :=
  MkChannel (fd_ c) (events_ c) (revents_ c) (index_ c) (tied_ c) a (callbacks_ c).
Definition tie (c : Channel) : Channel :=
  MkChannel (fd_ c) (events_ c) (revents_ c) (index_ c) true (addedToLoop_ c) (callbacks_ c).
Definition setCallback (k : callback) (c : Channel) : Channel :=
  MkChannel (fd_ c) (events_ c) (revents_ c) (index_ c) (tied_ c) (addedToLoop_ c) (k :: callbacks_ c).

Definition isNoneEvent (c : Channel) : bool := events_ c =? kNoneEvent.
Definition isWriting (c : Channel) : bool := negb (Z.land (events_ c) kWriteEvent =? 0).
Definition isReading (c : Channel) : bool := negb (Z.land (events_ c) kReadEvent =? 0).

(** The masks the five members compute. *)
Definition enableReading (ev : Z) : Z := Z.lor ev kReadEvent.
Definition disableReading (ev : Z) : Z := Z.land ev (Z.lnot kReadEvent).
Definition enableWriting (ev : Z) : Z := Z.lor ev kWriteEvent.
Definition disableWriting (ev : Z) : Z := Z.land ev (Z.lnot kWriteEvent).
Definition disableAll (ev : Z) : Z := kNoneEvent.

(** ** Dispatch *)
Definition has_bits (r mask : Z) : bool := negb (Z.land r mask =? 0).

Definition run_if (k : callback) (c : Channel) (b : bool) : list callback :=
  if b && bool_decide (k ∈ callbacks_ c) then [k] else [].

Definition handleEventWithGuard (c : Channel) : list callback :=
  run_if CloseCallback c (has_bits (revents_ c) POLLHUP && negb (has_bits (revents_ c) POLLIN)) ++
  run_if ErrorCallback c (has_bits (revents_ c) (Z.lor POLLERR POLLNVAL)) ++
  run_if ReadCallback c (has_bits (revents_ c) (Z.lor (Z.lor POLLIN POLLPRI) POLLRDHUP)) ++
  run_if WriteCallback c (has_bits (revents_ c) POLLOUT).

(** [handleEvent]: [alive] is whether [tie_.lock()] finds its object. *)
Definition handleEvent (alive : bool) (c : Channel) : list callback :=
  if tied_ c then (if alive then handleEventWithGuard c else []) else handleEventWithGuard c.

(** [eventsToString(fd, ev)], for the log. *)
Definition eventsToString (fd ev : Z) : bytes :=
  dec_int fd ++ s!": " ++
  (if has_bits ev POLLIN then s!"IN " else []) ++
  (if has_bits ev POLLPRI then s!"PRI " else []) ++
  (if has_bits ev POLLOUT then s!"OUT " else []) ++
  (if has_bits ev POLLHUP then s!"HUP " else []) ++
  (if has_bits ev POLLRDHUP then s!"RDHUP " else []) ++
  (if has_bits ev POLLERR then s!"ERR " else []) ++
  (if has_bits ev POLLNVAL then s!"NVAL " else []).
Definition reventsToString (c : Channel) : bytes := eventsToString (fd_ c) (revents_ c).

(** ** Bits of the masks *)

Lemma has_bits_pow2 r k : 0 ≤ k → has_bits r (2 ^ k) = Z.testbit r k.
Proof.
  intros Hk. unfold has_bits. destruct (Z.testbit r k) eqn:E.
  - apply negb_true_iff, Z.eqb_neq. intros H. apply (f_equal (λ z, Z.testbit z k)) in H.
    by rewrite Z.land_spec, E, Z.pow2_bits_true, Z.bits_0 in H.
  - apply negb_false_iff, Z.eqb_eq. apply Z.bits_inj'. intros i Hi.
    rewrite Z.land_spec, Z.bits_0. destruct (decide (i = k)) as [->|]; [by rewrite E|].
    rewrite Z.pow2_bits_false by done. by rewrite andb_false_r.
Qed.

Lemma has_bits_lor r a b : has_bits r (Z.lor a b) = has_bits r a || has_bits r b.
Proof.
  unfold has_bits. rewrite Z.land_lor_distr_r, <-negb_andb. f_equal.
  apply eq_true_iff_eq. rewrite andb_true_iff, !Z.eqb_eq. apply Z.lor_eq_0_iff.
Qed.

(** Which bits of [revents_] fire a callback: hang-up without data closes. *)
Definition fires (r : Z) (k : callback) : bool :=
  match k with
  | CloseCallback => Z.testbit r 4 && negb (Z.testbit r 0)
  | ErrorCallback => Z.testbit r 3 || Z.testbit r 5
  | ReadCallback => Z.testbit r 0 || Z.testbit r 1 || Z.testbit r 13
  | WriteCallback => Z.testbit r 2
  end.

(** ** Properties *)

(** One dispatch runs close, error, read and write callbacks in that order,
    each at most once, and runs a callback exactly when it is installed and
    its bits are set; a tied channel whose owner is gone runs nothing. *)
Theorem channel_dispatch (alive : bool) (c : Channel) :
  handleEvent alive c =
    if tied_ c && negb alive then []
    else List.filter (λ k, fires (revents_ c) k && bool_decide (k ∈ callbacks_ c))
      [CloseCallback; ErrorCallback; ReadCallback; WriteCallback].
Proof.
  assert (handleEventWithGuard c =
    List.filter (λ k, fires (revents_ c) k && bool_decide (k ∈ callbacks_ c))
      [CloseCallback; ErrorCallback; ReadCallback; WriteCallback]) as Hg.
  { unfold handleEventWithGuard, POLLHUP, POLLIN, POLLERR, POLLNVAL, POLLPRI, POLLRDHUP, POLLOUT.
    rewrite !has_bits_lor.
    rewrite (has_bits_pow2 _ 0), (has_bits_pow2 _ 1), (has_bits_pow2 _ 2), (has_bits_pow2 _ 3),
      (has_bits_pow2 _ 4), (has_bits_pow2 _ 5), (has_bits_pow2 _ 13) by done.
    unfold run_if. cbn [List.filter fires].
    repeat (destruct (_ && bool_decide _); simpl); done. }
  unfold handleEvent. rewrite Hg. by destruct (tied_ c), alive.
Qed.

(** ** The text of an event mask *)
Lemma dec_int_inj z z' : in_s 32 z → in_s 32 z' → dec_int z = dec_int z' → z = z'.
Proof.
  intros [H1 H2] [H3 H4]. simpl in *.
  assert (∀ n, 0 ≤ n < 2 ^ 31 + 1 → ∀ m, dec_nat n ≠ s!"-" ++ m) as Hsign.
  { intros n _ m Heq. pose proof (dec_nat_digits n) as Hd. rewrite Heq in Hd. by apply Forall_cons in Hd as [? _]. }
  unfold dec_int. destruct (z <? 0) eqn:E, (z' <? 0) eqn:E'; intros Heq; apply Z.ltb_lt in E || apply Z.ltb_ge in E;
    apply Z.ltb_lt in E' || apply Z.ltb_ge in E'.
  - injection Heq as Heq. apply (f_equal digits_val) in Heq. rewrite !dec_nat_val in Heq by lia. lia.
  - symmetry in Heq. by apply Hsign in Heq; [|lia].
  - by apply Hsign in Heq; [|lia].
  - apply (f_equal digits_val) in Heq. by rewrite !dec_nat_val in Heq by lia.
Qed.

Lemma dec_int_no_colon z : s!":" = [ascii_of_N 58] ∧ ascii_of_N 58 ∉ dec_int z.
Proof.
  split; [done|]. assert (∀ n, ascii_of_N 58 ∉ dec_nat n) as Hn.
  { intros n Hin. pose proof (dec_nat_digits n) as Hd. unfold all_digits in Hd. rewrite Forall_forall in Hd.
    by apply Hd in Hin. }
  unfold dec_int. case_match; [|apply Hn]. cbn. rewrite not_elem_of_cons. split; [done|apply Hn].
Qed.

Lemma app_inj_sep {A} (x : A) l l' r r' : x ∉ l → x ∉ l' → l ++ x :: r = l' ++ x :: r' → l = l' ∧ r = r'.
Proof.
  revert l'. induction l as [|y l IH]; intros [|y' l'] Hl Hl' Heq; cbn in *; injection Heq.
  - done.
  - intros _ ->. by apply not_elem_of_cons in Hl' as [? _].
  - intros _ <-. by apply not_elem_of_cons in Hl as [? _].
  - intros Heq' ->. apply not_elem_of_cons in Hl as [_ Hl]. apply not_elem_of_cons in Hl' as [_ Hl'].
    by destruct (IH l' Hl Hl' Heq') as [-> ->].
Qed.

Definition event_bits : list Z := [POLLIN; POLLPRI; POLLOUT; POLLHUP; POLLRDHUP; POLLERR; POLLNVAL].

(** The text says exactly which descriptor and which of the seven events. *)
Lemma eventsToString_exact fd fd' ev ev' : in_s 32 fd → in_s 32 fd' →
  eventsToString fd ev = eventsToString fd' ev' ↔ fd = fd' ∧ has_bits ev <$> event_bits = has_bits ev' <$> event_bits.
Proof.
  intros Hfd Hfd'. unfold eventsToString. cbn [fmap list_fmap event_bits]. split.
  - intros Heq. apply (app_inj_sep (ascii_of_N 58)) in Heq as [Hd Hn]; [|apply dec_int_no_colon..].
    split; [by apply dec_int_inj|].
    set (decode t := (λ n, bool_decide (str_find (s!" " ++ n) t 0 ≠ None)) <$>
      [s!"IN "; s!"PRI "; s!"OUT "; s!"HUP "; s!"RDHUP "; s!"ERR "; s!"NVAL "]).
    apply (f_equal decode) in Hn. revert Hn.
    assert (∀ b1 b2 b3 b4 b5 b6 b7 : bool, decode (s!" " ++ (if b1 then s!"IN " else []) ++
      (if b2 then s!"PRI " else []) ++ (if b3 then s!"OUT " else []) ++ (if b4 then s!"HUP " else []) ++
      (if b5 then s!"RDHUP " else []) ++ (if b6 then s!"ERR " else []) ++ (if b7 then s!"NVAL " else [])) =
      [b1; b2; b3; b4; b5; b6; b7]) as Hdec by (intros [] [] [] [] [] [] []; by vm_compute).
    intros Hn. erewrite <-Hdec. etransitivity; [exact Hn|]. apply Hdec.
  - intros [-> [= -> -> -> -> -> -> ->]]. done.
Qed.
