(* ===== verification/Poller.v ===== *)
(** * The poller interface (master/net/Poller.h, Poller.cc)

    [Poller] is an abstract class with two implementations.  [PollerOps] is
    its virtual members, acting on the channel heap and on the poller's own
    state; [PollerSpec] is what an implementation promises: no assertion of it
    fails on legal calls, and the kernel watches exactly the registered
    channels that want something, with their masks.  The channel members, and
    sequences of them, are proved against the interface only.  Calls are made
    in the loop's thread. *)
From S2P Require Import Prelude Channel.
Local Open Scope Z_scope.

Abbreviation chan_heap := (gmap nat Channel).

Class PollerOps (P : Type) := {
  updateChannel : nat → ST (chan_heap * P) unit;
  removeChannel : nat → ST (chan_heap * P) unit;
  (** The channel and mask the kernel watches for a descriptor. *)
  watched : chan_heap * P → Z → option (nat * Z);
}.

(** The life of a channel in a poller; a removed one is not used again. *)
Inductive reg := Fresh | Registered | Removed.

#[export] Instance reg_eq_dec : EqDecision reg.
Proof. solve_decision. Defined.

(** The specification's state: descriptor, mask and registration. *)
Record achan := AChan { a_fd : Z; a_events : Z; a_reg : reg }.
Abbreviation astate := (gmap nat achan).

(** No two registered channels share a descriptor. *)
Definition fd_free (A : astate) (c : nat) (fd : Z) : Prop :=
  ∀ c' a, A !! c' = Some a → c' ≠ c → a_reg a = Registered → a_fd a ≠ fd.

(** The heap as [update()] finds it: the mask is already changed. *)
Definition with_events (c : nat) (ev : Z) (h : chan_heap) : chan_heap :=
  alter (set_events ev) c h.

Class PollerSpec (P : Type) `{PollerOps P} := {
  p_inv : chan_heap * P → astate → Prop;
  p_inv_chan s A c a : p_inv s A → A !! c = Some a →
    ∃ ch, s.1 !! c = Some ch ∧ fd_ ch = a_fd a ∧ events_ ch = a_events a ∧ in_u 15 (a_events a);
  p_update h p A c a ev : p_inv (h, p) A → A !! c = Some a → a_reg a ≠ Removed → in_u 15 ev →
    (a_reg a = Fresh → ev ≠ kNoneEvent ∧ 0 ≤ a_fd a ∧ fd_free A c (a_fd a)) →
    ∃ s', updateChannel c (with_events c ev h, p) = (Ret (), s') ∧
      p_inv s' (<[c := AChan (a_fd a) ev Registered]> A);
  p_remove h p A c a : p_inv (h, p) A → A !! c = Some a → a_reg a = Registered →
    a_events a = kNoneEvent →
    ∃ s', removeChannel c (h, p) = (Ret (), s') ∧
      p_inv s' (<[c := AChan (a_fd a) kNoneEvent Removed]> A);
  p_watched s A fd c ev : p_inv s A → ev ≠ kNoneEvent →
    (watched s fd = Some (c, ev) ↔ A !! c = Some (AChan fd ev Registered));
  p_added s A c a b : p_inv s A → A !! c = Some a → p_inv (alter (set_added b) c s.1, s.2) A;
}.

(** ** The members of [Channel] that reach the poller *)
Inductive chan_op := EnableReading | DisableReading | EnableWriting | DisableWriting | DisableAll | Remove.

#[export] Instance chan_op_eq_dec : EqDecision chan_op.
Proof. solve_decision. Defined.

Definition new_mask (o : chan_op) (ev : Z) : Z :=
  match o with
  | EnableReading => enableReading ev
  | DisableReading => disableReading ev
  | EnableWriting => enableWriting ev
  | DisableWriting => disableWriting ev
  | DisableAll => disableAll ev
  | Remove => ev
  end.

Lemma land_in_u w a b : 0 ≤ w → in_u w a → in_u w (Z.land a b).
Proof.
  intros Hw Ha. apply testbit_in_u; [done|apply Z.land_nonneg; left; apply Ha|].
  intros i Hi. by rewrite Z.land_spec, (in_u_testbit w a).
Qed.

Lemma new_mask_range o ev : in_u 15 ev → in_u 15 (new_mask o ev).
Proof.
  intros Hev. destruct o; simpl; [apply lor_in_u|apply land_in_u|apply lor_in_u|apply land_in_u|done|done];
    (done || lia).
Qed.

Section Members.
Context {P : Type} `{PollerOps P}.

(** [update()] after a change of the mask. *)
Definition Channel_update (c : nat) : ST (chan_heap * P) unit :=
  st_modify (λ s, (alter (set_added true) c s.1, s.2)) ;;
  updateChannel c.

Definition Channel_remove (c : nat) : ST (chan_heap * P) unit :=
  s ← st_get;
  ch ← lift (or_undef (s.1 !! c));
  lift (assert_ (isNoneEvent ch)) ;;
  st_modify (λ s, (alter (set_added false) c s.1, s.2)) ;;
  removeChannel c.

Definition run_chan_op (c : nat) (o : chan_op) : ST (chan_heap * P) unit :=
  match o with
  | Remove => Channel_remove c
  | _ =>
      s ← st_get;
      ch ← lift (or_undef (s.1 !! c));
      st_put (with_events c (new_mask o (events_ ch)) s.1, s.2) ;;
      Channel_update c
  end.

Fixpoint run_chan_ops (ops : list (nat * chan_op)) : ST (chan_heap * P) unit :=
  match ops with
  | [] => mret ()
  | (c, o) :: ops' => run_chan_op c o ;; run_chan_ops ops'
  end.
End Members.

(** ** The specification of a sequence of calls *)
Definition spec_chan_op (c : nat) (o : chan_op) (A : astate) : astate :=
  match A !! c with
  | Some a => <[c := AChan (a_fd a) (new_mask o (a_events a))
                       (if bool_decide (o = Remove) then Removed else Registered)]> A
  | None => A
  end.

(** The callers' obligations: a removed channel is left alone; only a
    registered channel that wants nothing is removed; the first call on a
    channel enables something, for a descriptor no registered channel has. *)
Definition op_legal (A : astate) (c : nat) (o : chan_op) : bool :=
  match A !! c with
  | None => false
  | Some a =>
      match a_reg a with
      | Removed => false
      | Registered => if bool_decide (o = Remove) then a_events a =? kNoneEvent else true
      | Fresh =>
          negb (bool_decide (o = Remove)) && negb (new_mask o (a_events a) =? kNoneEvent) &&
          (0 <=? a_fd a) &&
          bool_decide (map_Forall (λ c' a', c' = c ∨ a_reg a' ≠ Registered ∨ a_fd a' ≠ a_fd a) A)
      end
  end.

Fixpoint ops_legal (A : astate) (ops : list (nat * chan_op)) : bool :=
  match ops with
  | [] => true
  | (c, o) :: ops' => op_legal A c o && ops_legal (spec_chan_op c o A) ops'
  end.

Definition spec_chan_ops (ops : list (nat * chan_op)) (A : astate) : astate :=
  foldl (λ A '(c, o), spec_chan_op c o A) A ops.

(** What should be watched. *)
Definition spec_watched (A : astate) (fd : Z) (c : nat) (ev : Z) : Prop :=
  A !! c = Some (AChan fd ev Registered) ∧ ev ≠ kNoneEvent.

Section Sessions.
Context {P : Type} `{PollerSpec P}.
Implicit Types (A : astate).

Lemma with_events_added c ev b (h : chan_heap) :
  alter (set_added b) c (with_events c ev h) = with_events c ev (alter (set_added b) c h).
Proof.
  unfold with_events. apply map_eq. intros i. destruct (decide (i = c)) as [->|].
  - rewrite !lookup_alter_eq. by destruct (h !! c).
  - by rewrite !lookup_alter_ne.
Qed.

(** Any implementation runs a legal call and moves as the specification. *)
Lemma run_chan_op_spec s A c o :
  p_inv s A → op_legal A c o = true →
  ∃ s', run_chan_op c o s = (Ret (), s') ∧ p_inv s' (spec_chan_op c o A).
Proof.
  intros Hinv Hl. unfold op_legal in Hl. unfold spec_chan_op.
  destruct (A !! c) as [a|] eqn:HA; [|done].
  destruct (p_inv_chan _ _ _ _ Hinv HA) as (ch & Hch & Hfd & Hev & Hrange). destruct s as [h p]. cbn [fst] in Hch.
  destruct (decide (o = Remove)) as [->|Hne].
  - assert (a_reg a = Registered ∧ a_events a = kNoneEvent) as [Hr He].
    { destruct (a_reg a); simpl in Hl; [done| |done]. by apply Z.eqb_eq in Hl. }
    cbn [run_chan_op]. unfold Channel_remove, mbind, ST_bind, st_get, lift, st_modify.
    cbn [fst snd]. rewrite Hch. cbn [or_undef from_option]. unfold isNoneEvent.
    rewrite Hev, He. cbn [Z.eqb kNoneEvent assert_].
    pose proof (p_added _ _ _ _ false Hinv HA) as Hinv'.
    destruct (p_remove _ _ _ _ _ Hinv' HA Hr He) as (s' & Hs' & Hi'). exists s'.
    split; [apply Hs'|done].
  - assert (run_chan_op c o (h, p) =
      updateChannel c (with_events c (new_mask o (a_events a)) (alter (set_added true) c h), p)) as ->.
    { destruct o; try done; cbn [run_chan_op]; unfold Channel_update, mbind, ST_bind, st_get, lift, st_put, st_modify;
        cbn [fst snd]; rewrite Hch; cbn [or_undef from_option fst snd]; by rewrite Hev, with_events_added. }
    pose proof (p_added _ _ _ _ true Hinv HA) as Hinv'. rewrite bool_decide_eq_false_2 by done.
    apply (p_update _ _ _ _ _ (new_mask o (a_events a)) Hinv' HA).
    + by destruct (a_reg a).
    + by apply new_mask_range.
    + intros Hr. rewrite Hr in Hl. rewrite !andb_true_iff, bool_decide_eq_true in Hl.
      destruct Hl as [[[_ Hm] Hfd0] Hfree]. apply negb_true_iff, Z.eqb_neq in Hm.
      apply Z.leb_le in Hfd0. split; [done|]. split; [done|]. intros c' a' Hc' Hcne Hreg.
      by destruct (Hfree c' a' Hc') as [?|[?|?]].
Qed.

Lemma run_chan_ops_spec ops s A :
  p_inv s A → ops_legal A ops = true →
  ∃ s', run_chan_ops ops s = (Ret (), s') ∧ p_inv s' (spec_chan_ops ops A).
Proof.
  revert s A. induction ops as [|[c o] ops IH]; intros s A Hinv Hl; [by exists s|].
  cbn [ops_legal] in Hl. apply andb_prop in Hl as [Hl1 Hl2].
  destruct (run_chan_op_spec s A c o Hinv Hl1) as (s1 & Hr & Hi).
  destruct (IH _ _ Hi Hl2) as (s2 & Hr2 & Hi2). exists s2.
  cbn [run_chan_ops]. by rewrite (ST_bind_eq _ _ _ _ _ Hr).
Qed.
End Sessions.
