(* ===== verification/EPollPoller.v ===== *)
(** * The epoll poller (master/net/poller/EPollPoller.h, EPollPoller.cc)

    The kernel's interest list is a map from descriptors to masks and user
    pointers; [epoll_ctl] fails on an ADD of a present descriptor, on a MOD or
    DEL of an absent one, and when the kernel has no memory, which is an input.
    [update] answers a failure with an abort (LOG_SYSFATAL), a failing DEL with
    a line in the log only; the refused calls are kept as a history.  What
    [epoll_wait] reports is an input. *)
From S2P Require Import Prelude Channel Poller.
Local Open Scope Z_scope.

Definition kNew : Z := -1.
Definition kAdded : Z := 1.
Definition kDeleted : Z := 2.
Definition kInitEventListSize : Z := 16.

Inductive epoll_op := EPOLL_CTL_ADD | EPOLL_CTL_MOD | EPOLL_CTL_DEL.

Record EPollPoller := MkEPoll {
  channels_ : gmap Z nat;
  epoll_list : gmap Z (Z * nat);
  events_size : Z;
  (** Environment: for the coming calls of [epoll_ctl], whether the kernel is
      short of memory; it is not once the list has ended. *)
  ctl_errors_ : list bool;
  (** History: the calls of [epoll_ctl] that failed, the last one first. *)
  refused_ : list (epoll_op * Z);
}.

Definition EPollPoller_new (errors : list bool) : EPollPoller := MkEPoll ∅ ∅ kInitEventListSize errors [].

Definition set_channels (m : gmap Z nat) (p : EPollPoller) : EPollPoller :=
  MkEPoll m (epoll_list p) (events_size p) (ctl_errors_ p) (refused_ p).
Definition set_list (m : gmap Z (Z * nat)) (p : EPollPoller) : EPollPoller :=
  MkEPoll (channels_ p) m (events_size p) (tail (ctl_errors_ p)) (refused_ p).
Definition refuse (op : epoll_op) (fd : Z) (p : EPollPoller) : EPollPoller :=
  MkEPoll (channels_ p) (epoll_list p) (events_size p) (tail (ctl_errors_ p)) ((op, fd) :: refused_ p).

Definition get_channel (c : nat) : ST (chan_heap * EPollPoller) Channel :=
  s ← st_get; lift (or_undef (s.1 !! c)).
Definition assertS (b : chan_heap * EPollPoller → bool) : ST (chan_heap * EPollPoller) unit :=
  s ← st_get; lift (assert_ (b s)).

(** [update(operation, channel)]: [epoll_ctl] and its error handling. *)
Definition update (op : epoll_op) (c : nat) : ST (chan_heap * EPollPoller) unit :=
  ch ← get_channel c;
  s ← st_get;
  let l := epoll_list s.2 in
  match op, l !! fd_ ch, hd false (ctl_errors_ s.2) with
  | EPOLL_CTL_ADD, None, false | EPOLL_CTL_MOD, Some _, false =>
      st_put (s.1, set_list (<[fd_ ch := (events_ ch, c)]> l) s.2)
  | EPOLL_CTL_DEL, Some _, false => st_put (s.1, set_list (delete (fd_ ch) l) s.2)
  | _, _, _ =>
      st_put (s.1, refuse op (fd_ ch) s.2) ;;
      match op with EPOLL_CTL_DEL => mret () | _ => lift AssertFail end
  end.

Definition set_index_of (c : nat) (i : Z) : ST (chan_heap * EPollPoller) unit :=
  st_modify (λ s, (alter (set_index i) c s.1, s.2)).

Definition ep_updateChannel (c : nat) : ST (chan_heap * EPollPoller) unit :=
  ch ← get_channel c;
  let fd := fd_ ch in
  if (index_ ch =? kNew) || (index_ ch =? kDeleted) then
    (if index_ ch =? kNew then
       assertS (λ s, bool_decide (channels_ s.2 !! fd = None)) ;;
       st_modify (λ s, (s.1, set_channels (<[fd := c]> (channels_ s.2)) s.2))
     else
       assertS (λ s, negb (bool_decide (channels_ s.2 !! fd = None))) ;;
       assertS (λ s, bool_decide (channels_ s.2 !! fd = Some c))) ;;
    set_index_of c kAdded ;;
    update EPOLL_CTL_ADD c
  else
    assertS (λ s, negb (bool_decide (channels_ s.2 !! fd = None))) ;;
    assertS (λ s, bool_decide (channels_ s.2 !! fd = Some c)) ;;
    assertS (λ _, index_ ch =? kAdded) ;;
    if isNoneEvent ch then update EPOLL_CTL_DEL c ;; set_index_of c kDeleted
    else update EPOLL_CTL_MOD c.

Definition ep_removeChannel (c : nat) : ST (chan_heap * EPollPoller) unit :=
  ch ← get_channel c;
  let fd := fd_ ch in
  assertS (λ s, negb (bool_decide (channels_ s.2 !! fd = None))) ;;
  assertS (λ s, bool_decide (channels_ s.2 !! fd = Some c)) ;;
  assertS (λ _, isNoneEvent ch) ;;
  assertS (λ _, (index_ ch =? kAdded) || (index_ ch =? kDeleted)) ;;
  st_modify (λ s, (s.1, set_channels (delete fd (channels_ s.2)) s.2)) ;;
  (if index_ ch =? kAdded then update EPOLL_CTL_DEL c else mret ()) ;;
  set_index_of c kNew.

#[export] Instance ep_ops : PollerOps EPollPoller := {
  updateChannel := ep_updateChannel;
  removeChannel := ep_removeChannel;
  watched s fd := (λ x : Z * nat, (x.2, x.1)) <$> epoll_list s.2 !! fd;
}.

(** ** [poll]: what [epoll_wait] reports becomes the active channels *)

(** [fillActiveChannels]: [ready] is the filled part of [events_], the
    reported mask and the user pointer. *)
Fixpoint fill_loop (ready : list (Z * nat)) : ST (chan_heap * EPollPoller) (list nat) :=
  match ready with
  | [] => mret []
  | (revents, c) :: ready' =>
      ch ← get_channel c;
      assertS (λ s, negb (bool_decide (channels_ s.2 !! fd_ ch = None))) ;;
      assertS (λ s, bool_decide (channels_ s.2 !! fd_ ch = Some c)) ;;
      st_modify (λ s, (alter (set_revents revents) c s.1, s.2)) ;;
      active ← fill_loop ready';
      mret (c :: active)
  end.

Definition fillActiveChannels (ready : list (Z * nat)) : ST (chan_heap * EPollPoller) (list nat) :=
  assertS (λ s, zlen ready <=? events_size s.2) ;;
  fill_loop ready.

(** [poll]: nothing on a timeout or an error; a full event list is doubled. *)
Definition poll (ready : list (Z * nat)) : ST (chan_heap * EPollPoller) (list nat) :=
  if 0 <? zlen ready then
    active ← fillActiveChannels ready;
    st_modify (λ s, if zlen ready =? events_size s.2
                    then (s.1, MkEPoll (channels_ s.2) (epoll_list s.2) (events_size s.2 * 2) (ctl_errors_ s.2) (refused_ s.2)) else s) ;;
    mret active
  else mret [].

(** ** Invariant *)

(** What the poller keeps about channel [c] with specification state [a]. *)
Definition ep_chan (s : chan_heap * EPollPoller) (c : nat) (a : achan) : Prop :=
  ∃ ch, s.1 !! c = Some ch ∧ fd_ ch = a_fd a ∧ events_ ch = a_events a ∧ in_u 15 (a_events a) ∧
    match a_reg a with
    | Registered => channels_ s.2 !! a_fd a = Some c ∧
        (index_ ch = kAdded ∧ epoll_list s.2 !! a_fd a = Some (a_events a, c) ∨
         index_ ch = kDeleted ∧ epoll_list s.2 !! a_fd a = None ∧ a_events a = kNoneEvent)
    | _ => index_ ch = kNew
    end.

(** The kernel has had and will have the memory, and refused nothing. *)
Definition ctl_clean (p : EPollPoller) : Prop := ctl_errors_ p = [] ∧ refused_ p = [].

Record ep_inv (s : chan_heap * EPollPoller) (A : astate) : Prop := {
  ep_chans c a : A !! c = Some a → ep_chan s c a;
  ep_channels fd c : channels_ s.2 !! fd = Some c → ∃ a, A !! c = Some a ∧ a_fd a = fd ∧ a_reg a = Registered;
  ep_list fd : channels_ s.2 !! fd = None → epoll_list s.2 !! fd = None;
  ep_clean : ctl_clean s.2;
}.

(** A change of one channel's heap cell, of the maps at its descriptor only,
    keeps the invariant of the others. *)
Lemma ep_inv_change h p h' p' A c a a' :
  ep_inv (h, p) A → A !! c = Some a → a_fd a' = a_fd a →
  (∀ c', c' ≠ c → h' !! c' = h !! c') →
  (∀ fd, fd ≠ a_fd a → channels_ p' !! fd = channels_ p !! fd ∧ epoll_list p' !! fd = epoll_list p !! fd) →
  (∀ c', channels_ p !! a_fd a = Some c' → c' = c) →
  ctl_clean p' →
  ep_chan (h', p') c a' →
  (match a_reg a' with Registered => True
   | _ => channels_ p' !! a_fd a = None ∧ epoll_list p' !! a_fd a = None end) →
  ep_inv (h', p') (<[c := a']> A).
Proof.
  intros [Hc Hch Hl _] HA Hfd Hh Hp Huniq Hclean Hnew Hgone. split; cbn [fst snd] in *; [..|done].
  - intros c' b. destruct (decide (c' = c)) as [->|Hne].
    { rewrite lookup_insert_eq. by intros [= <-]. }
    rewrite lookup_insert_ne by done. intros Hb. destruct (Hc _ _ Hb) as (ch & Hch' & Hf & He & Hu & Hr).
    exists ch. cbn [fst snd] in *. rewrite Hh by done. split; [done|]. split; [done|]. split; [done|].
    split; [done|].
    destruct (a_reg b) eqn:Hreg; [done| |done]. destruct Hr as [Hr1 Hr2].
    assert (a_fd b ≠ a_fd a) as Hnefd by (intros Heq; rewrite Heq in Hr1; by apply Huniq in Hr1).
    destruct (Hp _ Hnefd) as [-> ->]. done.
  - intros fd c'. destruct (decide (fd = a_fd a)) as [->|Hne].
    + intros Hc'. destruct Hnew as (ch & _ & _ & _ & _ & Hr).
      destruct (a_reg a') eqn:Hreg; [destruct Hgone; congruence| |destruct Hgone; congruence].
      destruct Hr as [Hr _]. cbn [snd] in Hr. rewrite Hfd, Hc' in Hr. injection Hr as ->.
      exists a'. by rewrite lookup_insert_eq.
    + destruct (Hp _ Hne) as [-> _]. intros Hc'. destruct (Hch _ _ Hc') as (b & Hb & Hbf & Hbr).
      assert (c' ≠ c) by (intros ->; congruence). exists b. by rewrite lookup_insert_ne.
  - intros fd. destruct (decide (fd = a_fd a)) as [->|Hne].
    + intros Hn. destruct Hnew as (ch & _ & _ & _ & _ & Hr).
      destruct (a_reg a'); [tauto| |tauto]. destruct Hr as [Hr _]. cbn [snd] in Hr.
      by rewrite Hfd, Hn in Hr.
    + destruct (Hp _ Hne) as [-> ->]. apply Hl.
Qed.

Lemma ep_fresh_unused s A c a :
  ep_inv s A → A !! c = Some a → fd_free A c (a_fd a) → a_reg a = Fresh →
  channels_ s.2 !! a_fd a = None.
Proof.
  intros [_ Hch _ _] HA Hfree Hr. destruct (channels_ s.2 !! a_fd a) as [c'|] eqn:E; [|done]. exfalso.
  destruct (Hch _ _ E) as (b & Hb & Hbf & Hbr).
  destruct (decide (c' = c)) as [->|]; [congruence|]. by apply (Hfree c' b).
Qed.

Lemma with_events_lookup c ev (h : chan_heap) ch :
  h !! c = Some ch → with_events c ev h !! c = Some (set_events ev ch).
Proof. intros Hc. unfold with_events. by rewrite lookup_alter_eq, Hc. Qed.

Lemma with_events_lookup_ne c c' ev (h : chan_heap) :
  c' ≠ c → with_events c ev h !! c' = h !! c'.
Proof. intros Hc. unfold with_events. by rewrite lookup_alter_ne. Qed.

Lemma update_add c h p ch :
  ctl_clean p → h !! c = Some ch → epoll_list p !! fd_ ch = None →
  update EPOLL_CTL_ADD c (h, p) = (Ret (), (h, set_list (<[fd_ ch := (events_ ch, c)]> (epoll_list p)) p)).
Proof.
  intros [He _] Hc Hl. unfold update, get_channel, mbind, ST_bind, st_get, lift. cbn [fst snd]. rewrite Hc.
  cbn [or_undef from_option fst snd]. by rewrite Hl, He.
Qed.

Lemma update_mod c h p ch x :
  ctl_clean p → h !! c = Some ch → epoll_list p !! fd_ ch = Some x →
  update EPOLL_CTL_MOD c (h, p) = (Ret (), (h, set_list (<[fd_ ch := (events_ ch, c)]> (epoll_list p)) p)).
Proof.
  intros [He _] Hc Hl. unfold update, get_channel, mbind, ST_bind, st_get, lift. cbn [fst snd]. rewrite Hc.
  cbn [or_undef from_option fst snd]. by rewrite Hl, He.
Qed.

Lemma update_del c h p ch x :
  ctl_clean p → h !! c = Some ch → epoll_list p !! fd_ ch = Some x →
  update EPOLL_CTL_DEL c (h, p) = (Ret (), (h, set_list (delete (fd_ ch) (epoll_list p)) p)).
Proof.
  intros [He _] Hc Hl. unfold update, get_channel, mbind, ST_bind, st_get, lift. cbn [fst snd]. rewrite Hc.
  cbn [or_undef from_option fst snd]. by rewrite Hl, He.
Qed.

(** The changes that succeed keep it so. *)
Lemma clean_list m p : ctl_clean p → ctl_clean (set_list m p).
Proof. intros [H1 H2]. split; [|done]. cbn. by rewrite H1. Qed.
Lemma clean_channels m p : ctl_clean p → ctl_clean (set_channels m p).
Proof. by intros []. Qed.
#[export] Hint Resolve clean_list clean_channels : core.

(** Decide the comparisons between the constants. *)
Ltac ep_index :=
  cbv [kNew kAdded kDeleted kNoneEvent]; cbn [Z.eqb Pos.eqb orb negb assert_ fst snd].

(** Stepping through the asserted prefixes. *)
Ltac ep_step :=
  unfold ep_updateChannel, ep_removeChannel, get_channel, assertS, set_index_of;
  unfold mbind, ST_bind, st_get, lift, st_modify, mret, ST_ret; cbn [fst snd];
  repeat match goal with
  | H : ?h !! ?c = Some _ |- context [or_undef (?h !! ?c)] =>
      rewrite H; cbn [or_undef from_option fst snd]
  end.

Lemma ep_registered_unique s A c a :
  ep_inv s A → A !! c = Some a → a_reg a = Registered →
  ∀ c', channels_ s.2 !! a_fd a = Some c' → c' = c.
Proof.
  intros [Hc _ _ _] HA Hr c' Hc'. destruct (Hc _ _ HA) as (ch & _ & _ & _ & _ & Hx). rewrite Hr in Hx.
  destruct Hx as [Hx _]. congruence.
Qed.

Lemma ep_update_registered h p A c a ev :
  ep_inv (h, p) A → A !! c = Some a → a_reg a = Registered → in_u 15 ev →
  ∃ s', ep_updateChannel c (with_events c ev h, p) = (Ret (), s') ∧
    ep_inv s' (<[c := AChan (a_fd a) ev Registered]> A).
Proof.
  intros Hinv HA Hr Hevr. pose proof (ep_registered_unique _ _ _ _ Hinv HA Hr) as Huniq.
  destruct (ep_chans _ _ Hinv _ _ HA) as (ch & Hch & Hfd & Hev & Hu & Hx). rewrite Hr in Hx.
  cbn [fst snd] in *. destruct Hx as [Hc Hidx]. pose proof (ep_clean _ _ Hinv) as Hcl. cbn [snd] in Hcl.
  pose proof (with_events_lookup c ev h ch Hch) as Hwe.
  assert (∀ h' p', (∀ c', c' ≠ c → h' !! c' = with_events c ev h !! c') →
    channels_ p' = channels_ p →
    (∀ fd, fd ≠ a_fd a → epoll_list p' !! fd = epoll_list p !! fd) →
    ctl_clean p' →
    ep_chan (h', p') c (AChan (a_fd a) ev Registered) →
    ep_inv (h', p') (<[c := AChan (a_fd a) ev Registered]> A)) as Hfinish.
  { intros h' p' Hh Hp Hp2 Hcl' Hnew. eapply (ep_inv_change h p); [done|exact HA|done| | |done|done|done|done].
    - intros c' Hne. rewrite Hh by done. by apply with_events_lookup_ne.
    - intros fd Hne. by rewrite Hp, Hp2. }
  destruct Hidx as [[Hi Hl]|(Hi & Hl & Hnone)].
  - ep_step. cbn [or_undef from_option set_events index_ fd_ events_].
    rewrite Hi, Hfd. ep_index. rewrite Hc.
    rewrite bool_decide_eq_false_2, bool_decide_eq_true_2 by done. cbn [negb assert_].
    unfold isNoneEvent. cbn [set_events events_]. destruct (ev =? kNoneEvent) eqn:Eev.
    + apply Z.eqb_eq in Eev as ->. erewrite update_del; [|done|exact Hwe|cbn [fd_ set_events]; rewrite Hfd; exact Hl].
      eexists. split; [done|]. cbn [fd_ set_events]. rewrite Hfd. apply Hfinish.
      * intros c' Hne. by rewrite lookup_alter_ne.
      * done.
      * intros fd Hne. cbn [epoll_list set_list fst snd]. by rewrite lookup_delete_ne.
      * cbn [fst snd]. auto 10.
      * eexists. cbn [fst snd]. rewrite lookup_alter_eq, Hwe. split; [done|]. cbn.
        split; [done|]. split; [done|]. split; [done|]. split; [done|]. right.
        split; [done|]. split; [apply lookup_delete_eq|done].
    + erewrite update_mod; [|done|exact Hwe|cbn [fd_ set_events]; rewrite Hfd; exact Hl].
      eexists. split; [done|]. cbn [fd_ set_events events_]. rewrite Hfd. apply Hfinish.
      * done.
      * done.
      * intros fd Hne. cbn [epoll_list set_list fst snd]. by rewrite lookup_insert_ne.
      * cbn [fst snd]. auto 10.
      * eexists. cbn [fst snd]. split; [exact Hwe|]. cbn. split; [done|]. split; [done|].
        split; [done|]. split; [done|]. left. split; [done|apply lookup_insert_eq].
  - ep_step. cbn [or_undef from_option set_events index_ fd_ events_].
    rewrite Hi, Hfd. ep_index. rewrite Hc.
    rewrite bool_decide_eq_false_2, bool_decide_eq_true_2 by done. cbn [negb assert_ fst snd].
    erewrite update_add; [|auto|by rewrite lookup_alter_eq, Hwe|cbn [fd_ set_events set_index]; by rewrite Hfd].
    eexists. split; [done|]. cbn [fd_ set_events set_index events_]. rewrite Hfd. apply Hfinish.
    + intros c' Hne. by rewrite lookup_alter_ne.
    + done.
    + intros fd Hne. cbn [epoll_list set_list fst snd]. by rewrite lookup_insert_ne.
    + cbn [fst snd]. auto 10.
    + eexists. cbn [fst snd]. rewrite lookup_alter_eq, Hwe. split; [done|]. cbn.
      split; [done|]. split; [done|]. split; [done|]. split; [done|]. left. split; [done|apply lookup_insert_eq].
Qed.

Lemma ep_update_fresh h p A c a ev :
  ep_inv (h, p) A → A !! c = Some a → a_reg a = Fresh → in_u 15 ev → fd_free A c (a_fd a) →
  ∃ s', ep_updateChannel c (with_events c ev h, p) = (Ret (), s') ∧
    ep_inv s' (<[c := AChan (a_fd a) ev Registered]> A).
Proof.
  intros Hinv HA Hr Hevr Hfree. pose proof (ep_fresh_unused _ _ _ _ Hinv HA Hfree Hr) as Hun.
  destruct (ep_chans _ _ Hinv _ _ HA) as (ch & Hch & Hfd & Hev & Hu & Hi). rewrite Hr in Hi.
  pose proof (ep_list _ _ Hinv _ Hun) as Hl. pose proof (ep_clean _ _ Hinv) as Hcl. cbn [fst snd] in *.
  pose proof (with_events_lookup c ev h ch Hch) as Hwe.
  ep_step. cbn [or_undef from_option set_events index_ fd_ events_].
  rewrite Hi, Hfd. ep_index. rewrite Hun.
  rewrite bool_decide_eq_true_2 by done. cbn [assert_ fst snd].
  erewrite update_add; [|auto|by rewrite lookup_alter_eq, Hwe|cbn [fd_ set_events set_index set_channels epoll_list]; by rewrite Hfd].
  eexists. split; [done|]. cbn [fd_ set_events set_index events_ set_channels epoll_list]. rewrite Hfd.
  eapply (ep_inv_change h p); [done|exact HA|done| | | |auto 10| |done].
  - intros c' Hne. rewrite lookup_alter_ne by done. by apply with_events_lookup_ne.
  - intros fd Hne. cbn. by rewrite !lookup_insert_ne.
  - by rewrite Hun.
  - eexists. cbn [fst snd]. rewrite lookup_alter_eq, Hwe. split; [done|]. cbn.
    split; [done|]. split; [done|]. split; [done|]. rewrite !lookup_insert_eq. split; [done|]. by left.
Qed.

Lemma ep_remove_ok h p A c a :
  ep_inv (h, p) A → A !! c = Some a → a_reg a = Registered → a_events a = kNoneEvent →
  ∃ s', ep_removeChannel c (h, p) = (Ret (), s') ∧
    ep_inv s' (<[c := AChan (a_fd a) kNoneEvent Removed]> A).
Proof.
  intros Hinv HA Hr Hnone. pose proof (ep_registered_unique _ _ _ _ Hinv HA Hr) as Huniq.
  destruct (ep_chans _ _ Hinv _ _ HA) as (ch & Hch & Hfd & Hev & Hu & Hx). rewrite Hr in Hx.
  cbn [fst snd] in *. destruct Hx as [Hc Hidx]. pose proof (ep_clean _ _ Hinv) as Hcl. cbn [snd] in Hcl.
  assert (∀ p', channels_ p' = delete (a_fd a) (channels_ p) →
    epoll_list p' = delete (a_fd a) (epoll_list p) → ctl_clean p' →
    ep_inv (alter (set_index kNew) c h, p') (<[c := AChan (a_fd a) kNoneEvent Removed]> A)) as Hfinish.
  { intros p' Hp Hp2 Hcl'. eapply (ep_inv_change h p); [done|exact HA|done| | |done|done| |].
    - intros c' Hne. by rewrite lookup_alter_ne.
    - intros fd Hne. by rewrite Hp, Hp2, !lookup_delete_ne.
    - eexists. cbn [fst snd]. rewrite lookup_alter_eq, Hch. split; [done|]. cbn. by rewrite Hfd, Hev, Hnone.
    - cbn. by rewrite Hp, Hp2, !lookup_delete_eq. }
  ep_step. cbn [or_undef from_option fst snd]. rewrite Hfd, Hc.
  rewrite bool_decide_eq_false_2, bool_decide_eq_true_2 by done.
  unfold isNoneEvent. rewrite Hev, Hnone. ep_index.
  destruct Hidx as [[Hi Hl]|(Hi & Hl & _)]; rewrite Hi; ep_index.
  - erewrite update_del; [|auto|exact Hch|cbn; rewrite Hfd; exact Hl].
    eexists. split; [done|]. cbn [fst snd]. rewrite Hfd. apply Hfinish; auto.
  - eexists. split; [done|]. cbn [fst snd]. apply Hfinish; [done| |by auto]. cbn. by rewrite delete_id.
Qed.

#[export] Instance ep_spec : PollerSpec EPollPoller.
Proof.
  refine {| p_inv := ep_inv |}.
  - intros s A c a Hinv HA. destruct (ep_chans _ _ Hinv _ _ HA) as (ch & ? & ? & ? & ? & _). eauto 10.
  - intros h p A c a ev Hinv HA Hr Hevr Hf. destruct (a_reg a) eqn:E; [| |done].
    + destruct (Hf eq_refl) as (_ & _ & Hfree). by apply ep_update_fresh.
    + by apply ep_update_registered.
  - apply ep_remove_ok.
  - intros s A fd c ev Hinv Hne. cbn [watched ep_ops]. rewrite fmap_Some. split.
    + intros ([ev' c'] & Hl & [= -> ->]).
      destruct (channels_ s.2 !! fd) as [c1|] eqn:E; [|by rewrite (ep_list _ _ Hinv _ E) in Hl].
      destruct (ep_channels _ _ Hinv _ _ E) as (a & Ha & Hf & Hr).
      destruct (ep_chans _ _ Hinv _ _ Ha) as (ch & _ & _ & _ & _ & Hx). rewrite Hr, Hf, Hl in Hx.
      destruct Hx as [_ [[_ [= -> ->]]|(_ & ? & _)]]; [|done]. by destruct a; simpl in *; subst.
    + intros HA. destruct (ep_chans _ _ Hinv _ _ HA) as (ch & _ & _ & _ & _ & Hx). cbn in Hx.
      destruct Hx as [_ [[_ Hl]|(_ & _ & ?)]]; [|done]. by exists (ev, c).
  - intros [h p] A c a b [Hc Hch Hl Hcl] HA. split; cbn [fst snd] in *; [|done|done|done].
    intros c' a' Ha'. destruct (Hc _ _ Ha') as (ch & Hx & Hrest). cbn [fst snd] in *.
    destruct (decide (c' = c)) as [->|Hne].
    + exists (set_added b ch). cbn [fst snd]. by rewrite lookup_alter_eq, Hx.
    + exists ch. cbn [fst snd]. by rewrite lookup_alter_ne.
Defined.
