(* ===== verification/PollPoller.v ===== *)
(** * The poll poller (master/net/poller/PollPoller.h, PollPoller.cc)

    The watched descriptors are a vector that [poll(2)] scans; a channel's
    index is its position, an entry is ignored by negating its descriptor, and
    a removal moves the last entry into the hole. *)
From S2P Require Import Prelude Channel Poller.
Local Open Scope Z_scope.

Record pollfd := MkPollfd { p_fd : Z; p_events : Z; p_revents : Z }.

Record PollPoller := MkPoll {
  pchannels : gmap Z nat;
  pollfds_ : list pollfd;
}.

Definition PollPoller_new : PollPoller := MkPoll ∅ [].

Definition pget_channel (c : nat) : ST (chan_heap * PollPoller) Channel :=
  s ← st_get; lift (or_undef (s.1 !! c)).
Definition passert (b : chan_heap * PollPoller → bool) : ST (chan_heap * PollPoller) unit :=
  s ← st_get; lift (assert_ (b s)).
Definition set_pollfds (l : list pollfd) (s : chan_heap * PollPoller) : chan_heap * PollPoller :=
  (s.1, MkPoll (pchannels s.2) l).
Definition set_pchannels (m : gmap Z nat) (s : chan_heap * PollPoller) : chan_heap * PollPoller :=
  (s.1, MkPoll m (pollfds_ s.2)).

(** [static_cast<short>(events)] *)
Definition short (ev : Z) : Z := wraps 16 ev.

Definition pp_updateChannel (c : nat) : ST (chan_heap * PollPoller) unit :=
  ch ← pget_channel c;
  let fd := fd_ ch in
  if index_ ch <? 0 then
    passert (λ s, bool_decide (pchannels s.2 !! fd = None)) ;;
    st_modify (λ s, set_pollfds (pollfds_ s.2 ++ [MkPollfd fd (short (events_ ch)) 0]) s) ;;
    st_modify (λ s, (alter (set_index (i32 (zlen (pollfds_ s.2)) - 1)) c s.1, s.2)) ;;
    st_modify (λ s, set_pchannels (<[fd := c]> (pchannels s.2)) s)
  else
    passert (λ s, negb (bool_decide (pchannels s.2 !! fd = None))) ;;
    passert (λ s, bool_decide (pchannels s.2 !! fd = Some c)) ;;
    let idx := index_ ch in
    passert (λ s, (0 <=? idx) && (idx <? i32 (zlen (pollfds_ s.2)))) ;;
    s ← st_get;
    pfd ← lift (or_undef (pollfds_ s.2 !! Z.to_nat idx));
    lift (assert_ ((p_fd pfd =? fd) || (p_fd pfd =? - fd - 1))) ;;
    st_modify (λ s, set_pollfds (<[Z.to_nat idx := MkPollfd (if isNoneEvent ch then - fd - 1 else fd)
                                    (short (events_ ch)) 0]> (pollfds_ s.2)) s).

(** [iter_swap(begin() + idx, end() - 1)] and [pop_back()]: the last entry
    takes the place of the removed one. *)
Definition pp_removeChannel (c : nat) : ST (chan_heap * PollPoller) unit :=
  ch ← pget_channel c;
  let fd := fd_ ch in
  passert (λ s, negb (bool_decide (pchannels s.2 !! fd = None))) ;;
  passert (λ s, bool_decide (pchannels s.2 !! fd = Some c)) ;;
  passert (λ _, isNoneEvent ch) ;;
  let idx := index_ ch in
  passert (λ s, (0 <=? idx) && (idx <? i32 (zlen (pollfds_ s.2)))) ;;
  s ← st_get;
  pfd ← lift (or_undef (pollfds_ s.2 !! Z.to_nat idx));
  lift (assert_ ((p_fd pfd =? - fd - 1) && (p_events pfd =? events_ ch))) ;;
  st_modify (λ s, set_pchannels (delete fd (pchannels s.2)) s) ;;
  if idx =? zlen (pollfds_ s.2) - 1 then
    st_modify (λ s, set_pollfds (removelast (pollfds_ s.2)) s)
  else
    back ← lift (or_undef (last (pollfds_ s.2)));
    st_modify (λ s, set_pollfds (<[Z.to_nat idx := back]> (pollfds_ s.2)) s) ;;
    let channelAtEnd := if p_fd back <? 0 then - p_fd back - 1 else p_fd back in
    s' ← st_get;
    c' ← lift (or_undef (pchannels s'.2 !! channelAtEnd));
    st_modify (λ s, (alter (set_index idx) c' s.1, s.2)) ;;
    st_modify (λ s, set_pollfds (removelast (pollfds_ s.2)) s).

(** What [poll(2)] watches: the first entry of the descriptor. *)
Definition pp_watched (s : chan_heap * PollPoller) (fd : Z) : option (nat * Z) :=
  if fd <? 0 then None
  else
    x ← list_find (λ pfd, p_fd pfd = fd) (pollfds_ s.2);
    c ← pchannels s.2 !! fd;
    Some (c, p_events x.2).

#[export] Instance pp_ops : PollerOps PollPoller := {
  updateChannel := pp_updateChannel;
  removeChannel := pp_removeChannel;
  watched := pp_watched;
}.

(** [fillActiveChannels]: [revents] are what the kernel wrote into the vector,
    [numEvents] the count it returned. *)
Fixpoint pp_fill (numEvents : Z) (revents : list Z) (pfds : list pollfd) :
    ST (chan_heap * PollPoller) (list nat) :=
  match pfds, revents with
  | pfd :: pfds', r :: revents' =>
      if 0 <? numEvents then
        if 0 <? r then
          s ← st_get;
          lift (assert_ (negb (bool_decide (pchannels s.2 !! p_fd pfd = None)))) ;;
          c ← lift (or_undef (pchannels s.2 !! p_fd pfd));
          ch ← pget_channel c;
          lift (assert_ (fd_ ch =? p_fd pfd)) ;;
          st_modify (λ s, (alter (set_revents r) c s.1, s.2)) ;;
          active ← pp_fill (numEvents - 1) revents' pfds';
          mret (c :: active)
        else pp_fill numEvents revents' pfds'
      else mret []
  | _, _ => mret []
  end.

Definition pp_poll (numEvents : Z) (revents : list Z) : ST (chan_heap * PollPoller) (list nat) :=
  if 0 <? numEvents then s ← st_get; pp_fill numEvents revents (pollfds_ s.2) else mret [].

(** ** Invariant *)
Definition entry_of (a : achan) : Z * Z :=
  (if a_events a =? kNoneEvent then - a_fd a - 1 else a_fd a, a_events a).

(** What the poller keeps about channel [c]; [chs] is the channel of each entry
    of the vector. *)
Definition pp_chan (chs : list nat) (s : chan_heap * PollPoller) (c : nat) (a : achan) : Prop :=
  ∃ ch, s.1 !! c = Some ch ∧ fd_ ch = a_fd a ∧ events_ ch = a_events a ∧ in_u 15 (a_events a) ∧
    match a_reg a with
    | Fresh => index_ ch = -1
    | Registered => 0 ≤ a_fd a ∧ pchannels s.2 !! a_fd a = Some c ∧ 0 ≤ index_ ch ∧
        chs !! Z.to_nat (index_ ch) = Some c
    | Removed => True
    end.

Record pp_list (chs : list nat) (s : chan_heap * PollPoller) (A : astate) : Prop := {
  pp_chans c a : A !! c = Some a → pp_chan chs s c a;
  pp_channels fd c : pchannels s.2 !! fd = Some c → ∃ a, A !! c = Some a ∧ a_fd a = fd ∧ a_reg a = Registered;
  pp_length : length (pollfds_ s.2) = length chs;
  pp_fds i c : chs !! i = Some c → ∃ a ch pfd, A !! c = Some a ∧ a_reg a = Registered ∧
    s.1 !! c = Some ch ∧ index_ ch = Z.of_nat i ∧
    pollfds_ s.2 !! i = Some pfd ∧ (p_fd pfd, p_events pfd) = entry_of a;
  pp_size : Z.of_nat (size A) < 2 ^ 31;
}.

Definition pp_inv (s : chan_heap * PollPoller) (A : astate) : Prop := ∃ chs, pp_list chs s A.

Lemma pp_NoDup chs s A : pp_list chs s A → NoDup chs.
Proof.
  intros [_ _ _ Hf _]. apply NoDup_alt. intros i j c Hi Hj.
  destruct (Hf _ _ Hi) as (_ & ch & _ & _ & _ & Hch & Hx & _).
  destruct (Hf _ _ Hj) as (_ & ch' & _ & _ & _ & Hch' & Hx' & _).
  rewrite Hch in Hch'. injection Hch' as <-. lia.
Qed.

Lemma pp_length_bound chs s A : pp_list chs s A → zlen (pollfds_ s.2) ≤ Z.of_nat (size A).
Proof.
  intros Hl. pose proof (pp_NoDup _ _ _ Hl) as Hnd. destruct Hl as [_ _ Hlen Hf _].
  assert (chs ⊆+ (map_to_list A).*1) as Hsub.
  { apply NoDup_submseteq; [done|]. intros c [i Hi]%list_elem_of_lookup.
    destruct (Hf _ _ Hi) as (a & _ & _ & Ha & _). apply list_elem_of_fmap.
    exists (c, a). split; [done|]. by apply elem_of_map_to_list. }
  apply submseteq_length in Hsub. rewrite length_fmap, length_map_to_list in Hsub.
  unfold zlen. rewrite Hlen. lia.
Qed.

Lemma short_small ev : in_u 15 ev → short ev = ev.
Proof. intros [H1 H2]. apply wraps_small; [done|]. unfold in_s. simpl in *. lia. Qed.

Lemma with_events_at c ev (h : chan_heap) ch :
  h !! c = Some ch → with_events c ev h !! c = Some (set_events ev ch).
Proof. intros Hc. unfold with_events. by rewrite lookup_alter_eq, Hc. Qed.

Lemma with_events_ne c c' ev (h : chan_heap) : c' ≠ c → with_events c ev h !! c' = h !! c'.
Proof. intros Hc. unfold with_events. by rewrite lookup_alter_ne. Qed.

Ltac pp_step :=
  unfold pp_updateChannel, pp_removeChannel, pget_channel, passert, set_pollfds, set_pchannels;
  unfold mbind, ST_bind, st_get, lift, st_modify, mret, ST_ret; cbn [fst snd];
  repeat match goal with
  | H : ?h !! ?c = Some _ |- context [or_undef (?h !! ?c)] =>
      rewrite H; cbn [or_undef from_option fst snd]
  end.

(** There is room for the entry of a channel that is not registered yet. *)
Lemma pp_fresh_room chs s A c a :
  pp_list chs s A → A !! c = Some a → a_reg a = Fresh → (length chs < size A)%nat.
Proof.
  intros Hl HA Hr. pose proof (pp_NoDup _ _ _ Hl) as Hnd. destruct Hl as [_ _ _ Hf _].
  assert (NoDup (c :: chs)) as Hnd'.
  { constructor; [|done]. intros [i Hic]%list_elem_of_lookup.
    destruct (Hf _ _ Hic) as (a' & _ & _ & Ha' & Hr' & _). congruence. }
  assert (c :: chs ⊆+ (map_to_list A).*1) as Hsub.
  { apply NoDup_submseteq; [done|]. intros c' [->|[i Hic]%list_elem_of_lookup]%elem_of_cons.
    - apply list_elem_of_fmap. exists (c, a). split; [done|]. by apply elem_of_map_to_list.
    - destruct (Hf _ _ Hic) as (a' & _ & _ & Ha' & _). apply list_elem_of_fmap.
      exists (c', a'). split; [done|]. by apply elem_of_map_to_list. }
  apply submseteq_length in Hsub. rewrite length_fmap, length_map_to_list in Hsub. simpl in Hsub. lia.
Qed.

(** A new entry at the end. *)
Lemma pp_list_push chs h p A c a ch ev :
  pp_list chs (h, p) A → A !! c = Some a → a_reg a = Fresh → h !! c = Some ch → fd_ ch = a_fd a →
  in_u 15 ev → ev ≠ kNoneEvent → 0 ≤ a_fd a → pchannels p !! a_fd a = None →
  pp_list (chs ++ [c])
    (alter (set_index (Z.of_nat (length chs))) c (with_events c ev h),
     MkPoll (<[a_fd a := c]> (pchannels p)) (pollfds_ p ++ [MkPollfd (a_fd a) (short ev) 0]))
    (<[c := AChan (a_fd a) ev Registered]> A).
Proof.
  intros [Hc Hch Hlen Hf Hsz] HA Hr Hx Hfd Hev Hne Hfd0 Hun. cbn [fst snd] in *.
  pose proof (with_events_at c ev h ch Hx) as Hwe. split; cbn [fst snd pollfds_ pchannels].
  - intros c' b. destruct (decide (c' = c)) as [->|Hcne].
    + rewrite lookup_insert_eq. intros [= <-]. eexists. cbn [fst snd].
      rewrite lookup_alter_eq, Hwe. split; [done|]. cbn. split; [done|]. split; [done|]. split; [done|].
      rewrite lookup_insert_eq. split; [done|]. split; [done|]. split; [lia|].
      rewrite Nat2Z.id. by rewrite list_lookup_middle.
    + rewrite lookup_insert_ne by done. intros Hb'. destruct (Hc _ _ Hb') as (ch' & H1 & H2 & H3 & H4 & H5).
      exists ch'. cbn [fst snd pchannels pollfds_] in *. rewrite lookup_alter_ne, with_events_ne by done.
      split; [done|]. split; [done|]. split; [done|]. split; [done|].
      destruct (a_reg b) eqn:Eb; [done| |done]. destruct H5 as (H5 & H6 & H7 & H8).
      split; [done|]. rewrite lookup_insert_ne by congruence. split; [done|]. split; [done|].
      by apply lookup_app_l_Some.
  - intros fd c'. destruct (decide (fd = a_fd a)) as [->|Hfne].
    + rewrite lookup_insert_eq. intros [= <-]. eexists. by rewrite lookup_insert_eq.
    + rewrite lookup_insert_ne by done. intros Hc'. destruct (Hch _ _ Hc') as (b & Hb' & Hbf & Hbr).
      exists b. rewrite lookup_insert_ne; [done|]. intros ->. congruence.
  - rewrite !length_app, Hlen. done.
  - intros i c' [Hic|[Hge Hic]]%lookup_app_Some.
    + destruct (Hf _ _ Hic) as (b & ch' & pfd & H1 & H2 & H3 & H4 & H5 & H6).
      assert (c' ≠ c) by (intros ->; congruence). exists b, ch', pfd.
      rewrite lookup_insert_ne, lookup_alter_ne, with_events_ne by done.
      repeat (split; [done|]). split; [by apply lookup_app_l_Some|done].
    + apply list_lookup_singleton_Some in Hic as [Hi0 <-].
      assert (i = length chs) as -> by lia.
      eexists _, _, _. rewrite lookup_insert_eq. split; [done|]. split; [done|].
      rewrite lookup_alter_eq, Hwe. split; [done|]. split; [done|]. split.
      * rewrite <-Hlen. by apply list_lookup_middle.
      * unfold entry_of. cbn. rewrite short_small by done. by rewrite (proj2 (Z.eqb_neq ev kNoneEvent)).
  - rewrite map_size_insert_Some; [done|by eexists].
Qed.

Lemma pp_update_fresh h p A c a ev :
  pp_inv (h, p) A → A !! c = Some a → a_reg a = Fresh → in_u 15 ev → ev ≠ kNoneEvent →
  0 ≤ a_fd a → fd_free A c (a_fd a) →
  ∃ s', pp_updateChannel c (with_events c ev h, p) = (Ret (), s') ∧
    pp_inv s' (<[c := AChan (a_fd a) ev Registered]> A).
Proof.
  intros [chs Hl] HA Hr Hev Hne Hfd0 Hfree. pose proof (pp_length_bound _ _ _ Hl) as Hb.
  pose proof Hl as [Hc Hch Hlen Hf Hsz]. cbn [fst snd] in *.
  destruct (Hc _ _ HA) as (ch & Hx & Hfd & Hevs & Hu & Hi). rewrite Hr in Hi. cbn [fst snd] in *.
  assert (pchannels p !! a_fd a = None) as Hun.
  { destruct (pchannels p !! a_fd a) as [c'|] eqn:E; [|done]. exfalso.
    destruct (Hch _ _ E) as (b & Hb' & Hbf & Hbr).
    destruct (decide (c' = c)) as [->|]; [congruence|]. by apply (Hfree c' b). }
  pose proof (with_events_at c ev h ch Hx) as Hwe. pp_step.
  cbn [set_events index_ fd_ events_]. rewrite Hi, Hfd. change (-1 <? 0) with true. cbn [fst snd].
  rewrite Hun, bool_decide_eq_true_2 by done. cbn [assert_ fst snd pollfds_ pchannels].
  eexists. split; [done|]. exists (chs ++ [c]).
  assert (i32 (zlen (pollfds_ p ++ [MkPollfd (a_fd a) (short ev) 0])) - 1 = Z.of_nat (length chs)) as ->.
  { unfold i32. rewrite zlen_app. change (zlen [_]) with 1. unfold zlen in *. rewrite Hlen in *.
    pose proof (pp_fresh_room _ _ _ _ _ Hl HA Hr).
    rewrite wraps_small by (done || (unfold in_s; lia)). lia. }
  by eapply pp_list_push.
Qed.

Lemma pp_registered h p A chs c a :
  pp_list chs (h, p) A → A !! c = Some a → a_reg a = Registered →
  ∃ ch i pfd, h !! c = Some ch ∧ fd_ ch = a_fd a ∧ events_ ch = a_events a ∧ in_u 15 (a_events a) ∧
    0 ≤ a_fd a ∧ pchannels p !! a_fd a = Some c ∧ index_ ch = Z.of_nat i ∧ chs !! i = Some c ∧
    pollfds_ p !! i = Some pfd ∧ (p_fd pfd, p_events pfd) = entry_of a ∧
    0 ≤ Z.of_nat i < i32 (zlen (pollfds_ p)).
Proof.
  intros Hl HA Hr. pose proof (pp_length_bound _ _ _ Hl) as Hb. destruct Hl as [Hc Hch Hlen Hf Hsz].
  destruct (Hc _ _ HA) as (ch & Hx & Hfd & Hevs & Hu & Hi). rewrite Hr in Hi. cbn [fst snd] in *.
  destruct Hi as (Hfd0 & Hcc & Hidx & Hchs).
  destruct (Hf _ _ Hchs) as (a' & ch' & pfd & HA' & _ & Hx' & _ & Hp & He).
  rewrite HA in HA'. injection HA' as <-. cbn [fst snd] in *.
  exists ch, (Z.to_nat (index_ ch)), pfd. repeat (split; [done || lia|]).
  apply lookup_lt_Some in Hp. unfold i32, zlen in *.
  rewrite wraps_small by (done || (unfold in_s; lia)). lia.
Qed.

Lemma pp_update_registered h p A c a ev :
  pp_inv (h, p) A → A !! c = Some a → a_reg a = Registered → in_u 15 ev →
  ∃ s', pp_updateChannel c (with_events c ev h, p) = (Ret (), s') ∧
    pp_inv s' (<[c := AChan (a_fd a) ev Registered]> A).
Proof.
  intros [chs Hl] HA Hr Hev.
  destruct (pp_registered _ _ _ _ _ _ Hl HA Hr)
    as (ch & i & pfd & Hx & Hfd & Hevs & Hu & Hfd0 & Hcc & Hidx & Hchs & Hp & He & Hi).
  destruct Hl as [Hc Hch Hlen Hf Hsz]. cbn [fst snd] in *.
  pose proof (with_events_at c ev h ch Hx) as Hwe. pp_step.
  cbn [set_events index_ fd_ events_]. rewrite Hidx, Hfd.
  rewrite (proj2 (Z.ltb_ge _ 0)) by lia. cbn [fst snd].
  rewrite Hcc, bool_decide_eq_false_2, bool_decide_eq_true_2 by done. cbn [negb assert_].
  rewrite (proj2 (Z.leb_le _ _)), (proj2 (Z.ltb_lt _ _)) by lia. cbn [andb assert_].
  rewrite Nat2Z.id, Hp. cbn [or_undef from_option].
  assert ((p_fd pfd =? a_fd a) || (p_fd pfd =? - a_fd a - 1) = true) as ->.
  { unfold entry_of in He. injection He as Hpf _. rewrite Hpf.
    destruct (a_events a =? kNoneEvent); by rewrite Z.eqb_refl, ?orb_true_r. }
  cbn [assert_]. eexists. split; [done|]. exists chs. unfold isNoneEvent.
  cbn [set_events events_]. rewrite short_small by done.
  split; cbn [fst snd pollfds_ pchannels].
  - intros c' b. destruct (decide (c' = c)) as [->|Hcne].
    + rewrite lookup_insert_eq. intros [= <-]. eexists. cbn [fst snd pchannels]. split; [exact Hwe|].
      cbn. split; [done|]. split; [done|]. split; [done|]. split; [done|]. split; [done|].
      rewrite Hidx, Nat2Z.id. split; [lia|done].
    + rewrite lookup_insert_ne by done. intros Hb'. destruct (Hc _ _ Hb') as (ch' & H1 & Hrest).
      exists ch'. cbn [fst snd pchannels] in *. by rewrite with_events_ne.
  - intros fd c' Hc'. destruct (Hch _ _ Hc') as (b & Hb' & Hbf & Hbr).
    destruct (decide (c' = c)) as [->|Hcne].
    + eexists. rewrite lookup_insert_eq. split; [done|]. rewrite HA in Hb'. injection Hb' as <-. done.
    + exists b. by rewrite lookup_insert_ne.
  - by rewrite length_insert.
  - intros j c' Hj. destruct (Hf _ _ Hj) as (b & ch' & pfd' & H1 & H2 & H3 & H4 & H5 & H6).
    destruct (decide (c' = c)) as [->|Hcne].
    + rewrite Hx in H3. injection H3 as <-. assert (j = i) as -> by lia.
      eexists _, _, _. rewrite lookup_insert_eq. split; [done|]. split; [done|].
      split; [exact Hwe|]. split; [done|].
      split; [apply list_lookup_insert_eq; by apply lookup_lt_Some in Hp|done].
    + assert (j ≠ i) by (intros ->; congruence). exists b, ch', pfd'.
      rewrite lookup_insert_ne, with_events_ne by done. repeat (split; [done|]).
      by rewrite list_lookup_insert_ne.
  - rewrite map_size_insert_Some; [done|by eexists].
Qed.

Lemma removelast_take {A} (l : list A) : removelast l = take (length l - 1) l.
Proof. rewrite removelast_firstn_len. by rewrite Nat.sub_1_r. Qed.

Lemma lookup_removelast {A} (l : list A) i : (i < length l - 1)%nat → removelast l !! i = l !! i.
Proof. intros Hi. by rewrite removelast_take, lookup_take_lt. Qed.

Lemma length_removelast {A} (l : list A) : length (removelast l) = (length l - 1)%nat.
Proof. rewrite removelast_take, length_take. lia. Qed.

(** Dropping the entry [i]: when it is not the last one, the last entry moves to
    its place and the channel it belongs to learns its new index. *)
Section Drop.
Context (h h' : chan_heap) (p : PollPoller) (A : astate) (chs : list nat).
Context (c ce : nat) (a : achan) (i : nat) (e : pollfd).
Hypothesis (Hl : pp_list chs (h, p) A) (HA : A !! c = Some a) (Hr : a_reg a = Registered).
Hypothesis (Hchs : chs !! i = Some c).
Hypothesis (Hce : chs !! (length chs - 1)%nat = Some ce).
Hypothesis (Hee : pollfds_ p !! (length chs - 1)%nat = Some e).
Hypothesis (Hmove : i ≠ (length chs - 1)%nat → h' = alter (set_index (Z.of_nat i)) ce h).
Hypothesis (Hstill : i = (length chs - 1)%nat → h' = h).

Local Abbreviation n := (length chs).
Local Abbreviation moved c' := (bool_decide (i ≠ (n - 1)%nat ∧ c' = ce)).
Local Abbreviation p' := (MkPoll (delete (a_fd a) (pchannels p)) (removelast (<[i := e]> (pollfds_ p)))).

(** A channel keeps its fields, but for the index of the one that moved. *)
Lemma drop_heap c' ch : h !! c' = Some ch → ∃ ch2, h' !! c' = Some ch2 ∧ fd_ ch2 = fd_ ch ∧
  events_ ch2 = events_ ch ∧ index_ ch2 = if moved c' then Z.of_nat i else index_ ch.
Proof.
  intros Hc'. destruct (decide (i = (n - 1)%nat)) as [Heq|Hne].
  - rewrite (Hstill Heq). exists ch. rewrite bool_decide_eq_false_2 by tauto. done.
  - rewrite (Hmove Hne). destruct (decide (c' = ce)) as [->|Hcne].
    + exists (set_index (Z.of_nat i) ch). rewrite lookup_alter_eq, Hc'. by rewrite bool_decide_eq_true_2.
    + exists ch. rewrite lookup_alter_ne by done. by rewrite bool_decide_eq_false_2 by tauto.
Qed.

Lemma drop_lt : (i < n)%nat.
Proof. by apply lookup_lt_Some in Hchs. Qed.

(** Where the channel of an entry was before. *)
Lemma drop_source j c' : removelast (<[i := ce]> chs) !! j = Some c' →
  (j < n - 1)%nat ∧ c' ≠ c ∧ ∃ k, chs !! k = Some c' ∧
    <[i := e]> (pollfds_ p) !! j = pollfds_ p !! k ∧ j = (if moved c' then i else k).
Proof.
  intros Hj. pose proof (pp_NoDup _ _ _ Hl) as Hnd. pose proof drop_lt as Hin.
  pose proof (pp_length _ _ _ Hl) as Hlen. cbn [snd] in Hlen.
  assert (j < n - 1)%nat as Hjn.
  { apply lookup_lt_Some in Hj. by rewrite length_removelast, length_insert in Hj. }
  rewrite lookup_removelast in Hj by by rewrite length_insert.
  split; [done|]. destruct (decide (j = i)) as [->|Hji].
  - rewrite list_lookup_insert_eq in Hj by done. injection Hj as <-. split.
    + intros ->. assert (i = (n - 1)%nat); [by eapply NoDup_lookup|lia].
    + exists (n - 1)%nat. split; [done|]. rewrite list_lookup_insert_eq by (by rewrite Hlen).
      split; [done|]. rewrite bool_decide_eq_true_2; [done|]. split; [lia|done].
  - rewrite list_lookup_insert_ne in Hj by done. split.
    + intros ->. apply Hji. by eapply NoDup_lookup.
    + exists j. split; [done|]. rewrite list_lookup_insert_ne by done. split; [done|].
      rewrite bool_decide_eq_false_2; [done|]. intros [_ ->].
      assert (j = (n - 1)%nat); [by eapply NoDup_lookup|lia].
Qed.

(** The other channels stay as the invariant has them. *)
Lemma drop_chan c' b : c' ≠ c → A !! c' = Some b →
  pp_chan (removelast (<[i := ce]> chs)) (h', p') c' b.
Proof.
  intros Hcne Hb. pose proof drop_lt as Hin. pose proof (pp_fds _ _ _ Hl _ _ Hce) as (b' & _ & _ & Hb' & Hbr & _).
  pose proof (pp_chans _ _ _ Hl _ _ HA) as (ch0 & _ & _ & _ & _ & Ha). rewrite Hr in Ha.
  destruct (pp_chans _ _ _ Hl _ _ Hb) as (ch & H1 & H2 & H3 & H4 & H5). cbn [fst snd] in *.
  destruct (drop_heap _ _ H1) as (ch2 & G1 & G2 & G3 & G4). exists ch2. cbn [fst snd pchannels].
  rewrite G2, G3. do 4 (split; [done|]).
  destruct (a_reg b) eqn:Eb; [|destruct H5 as (H5 & H6 & H7 & H8)|done].
  - rewrite G4, bool_decide_eq_false_2; [done|]. intros [_ ->]. congruence.
  - destruct Ha as (_ & Ha & _). split; [done|]. split; [rewrite lookup_delete_ne; congruence|]. rewrite G4.
    case_bool_decide as Hd.
    + destruct Hd as [Hne ->]. split; [lia|]. rewrite Nat2Z.id.
      rewrite lookup_removelast by (rewrite length_insert; lia). by apply list_lookup_insert_eq.
    + split; [done|].
      assert (Z.to_nat (index_ ch) ≠ i) by (intros Hi'; rewrite Hi', Hchs in H8; congruence).
      assert (Z.to_nat (index_ ch) ≠ (n - 1)%nat) as Hlast.
      { intros Hi'. rewrite Hi', Hce in H8. injection H8 as <-. apply Hd. split; [|done]. intros ->. congruence. }
      apply lookup_lt_Some in H8 as Hlt.
      rewrite lookup_removelast by (rewrite length_insert; lia). by rewrite list_lookup_insert_ne.
Qed.

Lemma pp_list_drop : a_events a = kNoneEvent →
  pp_list (removelast (<[i := ce]> chs)) (h', p') (<[c := AChan (a_fd a) kNoneEvent Removed]> A).
Proof.
  intros Hnone. split; cbn [fst snd pollfds_ pchannels].
  - intros c' b. destruct (decide (c' = c)) as [->|Hcne].
    + rewrite lookup_insert_eq. intros [= <-].
      destruct (pp_chans _ _ _ Hl _ _ HA) as (ch & Hx & Hfd & Hevs & _).
      destruct (drop_heap _ _ Hx) as (ch2 & H1 & H2 & H3 & _).
      exists ch2. cbn. rewrite H2, H3, Hfd, Hevs, Hnone. by repeat (split; [done|]).
    + rewrite lookup_insert_ne by done. by apply drop_chan.
  - intros fd c'. destruct (decide (fd = a_fd a)) as [->|Hfne]; [by rewrite lookup_delete_eq|].
    rewrite lookup_delete_ne by done. intros Hc'.
    destruct (pp_channels _ _ _ Hl _ _ Hc') as (b & Hb & Hbf & Hbr).
    exists b. rewrite lookup_insert_ne; [done|]. intros ->. congruence.
  - rewrite !length_removelast, !length_insert. f_equal. apply Hl.
  - intros j c' Hj. destruct (drop_source _ _ Hj) as (Hjn & Hcne & k & Hk & Hlk & Hjk).
    destruct (pp_fds _ _ _ Hl _ _ Hk) as (b & ch' & pfd' & H1 & H2 & H3 & H4 & H5 & H6).
    destruct (drop_heap _ _ H3) as (ch2 & G1 & G2 & G3 & G4).
    exists b, ch2, pfd'. rewrite lookup_insert_ne by done. do 3 (split; [done|]). split.
    { rewrite G4, Hjk. by destruct (moved c'). }
    rewrite lookup_removelast by (rewrite length_insert; pose proof (pp_length _ _ _ Hl); cbn [snd] in *; lia).
    by rewrite Hlk.
  - rewrite map_size_insert_Some; [apply Hl|by eexists].
Qed.
End Drop.

Lemma pp_remove_ok h p A c a :
  pp_inv (h, p) A → A !! c = Some a → a_reg a = Registered → a_events a = kNoneEvent →
  ∃ s', pp_removeChannel c (h, p) = (Ret (), s') ∧
    pp_inv s' (<[c := AChan (a_fd a) kNoneEvent Removed]> A).
Proof.
  intros [chs Hl] HA Hr Hnone. pose proof (pp_NoDup _ _ _ Hl) as Hnd.
  destruct (pp_registered _ _ _ _ _ _ Hl HA Hr)
    as (ch & i & pfd & Hx & Hfd & Hevs & Hu & Hfd0 & Hcc & Hidx & Hchs & Hp & He & Hi).
  pose proof (pp_length _ _ _ Hl) as Hlen. cbn [snd] in Hlen.
  assert (i < length chs)%nat as Hin by by apply lookup_lt_Some in Hchs.
  destruct (last chs) as [ce|] eqn:Hce.
  2:{ apply last_None in Hce. subst chs. simpl in Hin. lia. }
  destruct (last (pollfds_ p)) as [e|] eqn:Hee.
  2:{ apply last_None in Hee. rewrite Hee in Hlen. simpl in Hlen. lia. }
  assert (chs !! (length chs - 1)%nat = Some ce) as Hce' by (rewrite last_lookup in Hce; rewrite <-Hce; f_equal; lia).
  assert (pollfds_ p !! (length chs - 1)%nat = Some e) as Hee' by (rewrite last_lookup in Hee; rewrite <-Hee; f_equal; lia).
  assert (zlen (pollfds_ p) = Z.of_nat (length chs)) as Hz by (unfold zlen; by rewrite Hlen).
  pp_step. rewrite Hidx, Hfd. rewrite Hcc, bool_decide_eq_false_2, bool_decide_eq_true_2 by done.
  unfold isNoneEvent. rewrite Hevs, Hnone. cbn [negb assert_ Z.eqb kNoneEvent].
  rewrite (proj2 (Z.leb_le _ _)), (proj2 (Z.ltb_lt _ _)) by lia. cbn [andb assert_].
  rewrite Nat2Z.id, Hp. cbn [or_undef from_option].
  unfold entry_of in He. rewrite Hnone in He. cbn [Z.eqb kNoneEvent] in He. injection He as Hpf Hpe.
  rewrite Hpf, Hpe, Z.eqb_refl. cbn [andb Z.eqb assert_ fst snd pollfds_ pchannels]. rewrite Hz.
  destruct (Z.of_nat i =? Z.of_nat (length chs) - 1) eqn:Ei.
  - apply Z.eqb_eq in Ei. assert (i = (length chs - 1)%nat) as Hi1 by lia.
    eexists. split; [done|]. exists (removelast (<[i := ce]> chs)).
    assert (<[i := e]> (pollfds_ p) = pollfds_ p) as Hsame.
    { apply list_insert_id. rewrite last_lookup in Hee. rewrite <-Hee. f_equal. lia. }
    cbn [fst snd]. rewrite <-Hsame. by eapply pp_list_drop; eauto.
  - apply Z.eqb_neq in Ei. assert (i ≠ (length chs - 1)%nat) as Hi1 by lia.
    rewrite Hee. cbn [or_undef from_option fst snd pollfds_ pchannels].
    destruct (pp_fds _ _ _ Hl _ _ Hce') as (b & chb & pfd' & HB & HRb & _ & _ & Hpb & Heb). cbn [snd] in Hpb.
    rewrite Hee' in Hpb. injection Hpb as <-.
    destruct (pp_registered _ _ _ _ _ _ Hl HB HRb)
      as (_ & _ & _ & _ & _ & _ & _ & Hbfd0 & Hbc & _).
    assert ((if p_fd e <? 0 then - p_fd e - 1 else p_fd e) = a_fd b) as ->.
    { unfold entry_of in Heb. injection Heb as Hf _. rewrite Hf.
      destruct (a_events b =? kNoneEvent); case_if; lia. }
    assert (a_fd b ≠ a_fd a) as Hfne.
    { intros Heq. rewrite Heq, Hcc in Hbc. injection Hbc as ->.
      apply Hi1. by eapply NoDup_lookup. }
    rewrite lookup_delete_ne by done. rewrite Hbc. cbn [or_undef from_option fst snd pollfds_ pchannels].
    eexists. split; [done|]. exists (removelast (<[i := ce]> chs)). by eapply pp_list_drop.
Qed.

Lemma pp_watched_spec s A fd c ev : pp_inv s A → ev ≠ kNoneEvent →
  pp_watched s fd = Some (c, ev) ↔ A !! c = Some (AChan fd ev Registered).
Proof.
  intros [chs Hl] Hne. destruct s as [h p]. unfold pp_watched. cbn [snd].
  assert (∀ i pfd, pollfds_ p !! i = Some pfd → 0 ≤ p_fd pfd →
    ∃ c a, A !! c = Some a ∧ a_reg a = Registered ∧ a_fd a = p_fd pfd ∧ a_events a = p_events pfd ∧
      pchannels p !! p_fd pfd = Some c) as Hentry.
  { intros i pfd Hi H0. apply lookup_lt_Some in Hi as Hlt. pose proof (pp_length _ _ _ Hl) as Hlen.
    cbn [snd] in Hlen. destruct (chs !! i) as [c'|] eqn:Ec; [|apply lookup_ge_None in Ec; lia].
    destruct (pp_fds _ _ _ Hl _ _ Ec) as (a & ch & pfd' & HA & HR & _ & _ & Hp & He). cbn [snd] in Hp.
    rewrite Hi in Hp. injection Hp as <-.
    destruct (pp_registered _ _ _ _ _ _ Hl HA HR) as (_ & _ & _ & _ & _ & _ & _ & Hfd0 & Hcc & _).
    unfold entry_of in He. injection He as Hf He.
    assert (p_fd pfd = a_fd a) as Hfa by (destruct (a_events a =? kNoneEvent); lia).
    exists c', a. by rewrite Hfa. }
  split.
  - destruct (fd <? 0) eqn:Efd; [done|]. bool_to_prop.
    intros H. apply bind_Some in H as ([i pfd] & Hfind & H).
    apply list_find_Some in Hfind as (Hi & Hpf & _).
    apply bind_Some in H as (c' & Hc' & [= <- <-]).
    destruct (Hentry _ _ Hi) as (c1 & a & HA & HR & Hfa & Hea & Hcc); [lia|].
    rewrite Hpf, Hc' in Hcc. injection Hcc as <-. rewrite HA. destruct a; simpl in *. by subst.
  - intros HA. destruct (pp_registered _ _ _ _ _ _ Hl HA eq_refl)
      as (ch & i & pfd & _ & _ & _ & _ & Hfd0 & Hcc & _ & _ & Hp & He & _). simpl in Hfd0, Hcc.
    rewrite (proj2 (Z.ltb_ge fd 0)) by done. unfold entry_of in He. simpl in He.
    rewrite (proj2 (Z.eqb_neq ev kNoneEvent)) in He by done. injection He as Hf Hev.
    destruct (list_find (λ pfd, p_fd pfd = fd) (pollfds_ p)) as [[j pfd']|] eqn:Efind.
    2:{ apply list_find_None in Efind. rewrite Forall_forall in Efind.
        exfalso. apply (Efind pfd); [by eapply list_elem_of_lookup_2|done]. }
    cbn. rewrite Hcc. cbn. do 2 f_equal.
    apply list_find_Some in Efind as (Hj & Hpf' & _).
    destruct (Hentry _ _ Hj) as (c1 & a1 & HA1 & _ & _ & Hea1 & Hcc1); [lia|].
    rewrite Hpf', Hcc in Hcc1. injection Hcc1 as <-. rewrite HA in HA1. injection HA1 as <-. done.
Qed.

#[export] Instance pp_spec : PollerSpec PollPoller.
Proof.
  refine {| p_inv := pp_inv |}.
  - intros s A c a [chs Hl] HA. destruct (pp_chans _ _ _ Hl _ _ HA) as (ch & ? & ? & ? & ? & _). eauto 10.
  - intros h p A c a ev Hinv HA Hr Hevr Hf. destruct (a_reg a) eqn:E; [| |done].
    + destruct (Hf eq_refl) as (? & ? & ?). by apply pp_update_fresh.
    + by apply pp_update_registered.
  - apply pp_remove_ok.
  - apply pp_watched_spec.
  - intros [h p] A c a b [chs [Hc Hch Hlen Hf Hsz]] HA. exists chs. split; cbn [fst snd] in *; [|done..| |done].
    + intros c' a' Ha'. destruct (Hc _ _ Ha') as (ch & Hx & Hrest). cbn [fst snd] in *.
      destruct (decide (c' = c)) as [->|Hne].
      * exists (set_added b ch). cbn [fst snd]. by rewrite lookup_alter_eq, Hx.
      * exists ch. cbn [fst snd]. by rewrite lookup_alter_ne.
    + intros i c' Hi. destruct (Hf _ _ Hi) as (a' & ch & pfd & H1 & H2 & H3 & H4 & H5).
      destruct (decide (c' = c)) as [->|Hne].
      * exists a', (set_added b ch), pfd. by rewrite lookup_alter_eq, H3.
      * exists a', ch, pfd. by rewrite lookup_alter_ne.
Defined.
