(* ===== verification/Pollers.v ===== *)
(** * The two pollers together

    [EPollPoller] and [PollPoller] are interchangeable: from the same fresh
    channels and the same calls both run without a failed assertion and both
    watch what the specification of the file Poller says.  What a round of
    [poll] reports becomes the list of active channels. *)
From S2P Require Import Prelude Channel Poller EPollPoller PollPoller.
Local Open Scope Z_scope.

(** Channels [0], [1], ... for the given descriptors. *)
Definition fresh_heap (fds : list Z) : chan_heap := map_seq 0 (Channel_new <$> fds).
Definition fresh_spec (fds : list Z) : astate :=
  map_seq 0 ((λ fd, AChan fd kNoneEvent Fresh) <$> fds).

Lemma fresh_spec_lookup fds c a :
  fresh_spec fds !! c = Some a → a = AChan (a_fd a) kNoneEvent Fresh ∧
    fresh_heap fds !! c = Some (Channel_new (a_fd a)).
Proof.
  unfold fresh_spec, fresh_heap. rewrite !lookup_map_seq_0, !list_lookup_fmap.
  destruct (fds !! c) as [fd|]; simpl; [|done]. by intros [= <-].
Qed.

Lemma fresh_in_range : in_u 15 kNoneEvent.
Proof. by split. Qed.

Lemma ep_inv_fresh fds : ep_inv (fresh_heap fds, EPollPoller_new []) (fresh_spec fds).
Proof.
  split; simpl; [|done|done|by split].
  intros c a Ha. destruct (fresh_spec_lookup _ _ _ Ha) as [-> Hh].
  exists (Channel_new (a_fd a)). repeat split; [done|done].
Qed.

Lemma size_map_seq {A} (l : list A) : size (map_seq 0 l : gmap nat A) = length l.
Proof.
  induction l as [|x l IH] using rev_ind; [done|].
  rewrite map_seq_snoc, map_size_insert_None, IH, length_app; [simpl; lia|].
  by apply map_seq_snoc_disjoint.
Qed.

Lemma pp_inv_fresh fds :
  zlen fds < 2 ^ 31 → pp_inv (fresh_heap fds, PollPoller_new) (fresh_spec fds).
Proof.
  intros Hsz. exists []. split; simpl; [|done|done|done|].
  - intros c a Ha. destruct (fresh_spec_lookup _ _ _ Ha) as [-> Hh].
    exists (Channel_new (a_fd a)). repeat split; [done|done].
  - unfold fresh_spec. rewrite size_map_seq, length_fmap. done.
Qed.

(** C14: From channels just constructed for any descriptors, any legal sequence
    of enable, disable and remove calls runs to the end under both pollers
    where the kernel has the memory: no assertion fails and [epoll_ctl] refuses
    no call, not even the removal that would only be logged, and under both the
    kernel watches a descriptor for a nonempty mask exactly when the
    specification has a registered channel with that descriptor and mask. *)
Theorem pollers_watch_the_same fds ops
    (Hsz : zlen fds < 2 ^ 31) (Hlegal : ops_legal (fresh_spec fds) ops = true) :
  ∃ se sp,
    run_chan_ops ops (fresh_heap fds, EPollPoller_new []) = (Ret (), se) ∧
    run_chan_ops ops (fresh_heap fds, PollPoller_new) = (Ret (), sp) ∧
    refused_ se.2 = [] ∧
    ∀ fd c ev, ev ≠ kNoneEvent →
      (watched se fd = Some (c, ev) ↔ spec_watched (spec_chan_ops ops (fresh_spec fds)) fd c ev) ∧
      (watched sp fd = Some (c, ev) ↔ spec_watched (spec_chan_ops ops (fresh_spec fds)) fd c ev).
Proof.
  assert (p_inv (fresh_heap fds, EPollPoller_new []) (fresh_spec fds)) as He by exact (ep_inv_fresh fds).
  assert (p_inv (fresh_heap fds, PollPoller_new) (fresh_spec fds)) as Hp by exact (pp_inv_fresh fds Hsz).
  apply (run_chan_ops_spec ops) in He as (se & He & Hie); [|done].
  apply (run_chan_ops_spec ops) in Hp as (sp & Hp & Hip); [|done].
  exists se, sp. split; [exact He|]. split; [exact Hp|]. split; [apply Hie|]. intros fd c ev Hev. unfold spec_watched.
  rewrite (p_watched se _ fd c ev Hie Hev), (p_watched sp _ fd c ev Hip Hev). tauto.
Qed.

Lemma pollers_watch_the_same_witness :
  ∃ se sp,
    run_chan_ops [(0%nat, EnableReading); (1%nat, EnableWriting); (0%nat, EnableWriting); (0%nat, DisableAll);
                  (0%nat, Remove); (1%nat, DisableWriting); (1%nat, EnableReading)]
      (fresh_heap [5; 6], EPollPoller_new []) = (Ret (), se) ∧
    run_chan_ops [(0%nat, EnableReading); (1%nat, EnableWriting); (0%nat, EnableWriting); (0%nat, DisableAll);
                  (0%nat, Remove); (1%nat, DisableWriting); (1%nat, EnableReading)]
      (fresh_heap [5; 6], PollPoller_new) = (Ret (), sp) ∧
    watched se 6 = Some (1%nat, 3) ∧ watched sp 6 = Some (1%nat, 3).
Proof.
  destruct (pollers_watch_the_same [5; 6]
    [(0%nat, EnableReading); (1%nat, EnableWriting); (0%nat, EnableWriting); (0%nat, DisableAll);
     (0%nat, Remove); (1%nat, DisableWriting); (1%nat, EnableReading)] eq_refl eq_refl)
    as (se & sp & H1 & H2 & _ & H). exists se, sp. split; [exact H1|]. split; [exact H2|].
  destruct (H 6 1%nat 3 ltac:(done)) as [[_ Ha] [_ Hb]].
  split; [apply Ha|apply Hb]; split; (reflexivity || discriminate).
Defined.

(** ** When the kernel is short of memory *)

(** A failing ADD or MOD ends the program; a failing DEL is logged, and the
    kernel goes on watching a descriptor the poller has forgotten. *)
Lemma refused_add_aborts :
  fst (run_chan_ops [(0%nat, EnableReading)] (fresh_heap [7], EPollPoller_new [true])) = AssertFail.
Proof. by vm_compute. Qed.

Lemma refused_del_is_logged :
  ∃ s, run_chan_ops [(0%nat, EnableReading); (0%nat, DisableAll); (0%nat, Remove)]
      (fresh_heap [7], EPollPoller_new [false; true]) = (Ret (), s) ∧
    refused_ s.2 = [(EPOLL_CTL_DEL, 7)] ∧ channels_ s.2 !! 7 = None ∧ watched s 7 = Some (0%nat, 3).
Proof. eexists. split; [vm_compute; reflexivity|]. by vm_compute. Qed.

(** ** Where the pollers differ *)

(** A channel that was never enabled cannot be disabled and removed under
    [PollPoller]: [updateChannel] enters it with its descriptor not negated,
    which the assertion of [removeChannel] refuses; under [EPollPoller] it can. *)
Lemma remove_never_enabled_fails :
  fst (run_chan_ops [(0%nat, DisableAll); (0%nat, Remove)] (fresh_heap [7], EPollPoller_new [])) = Ret () ∧
  fst (run_chan_ops [(0%nat, DisableAll); (0%nat, Remove)] (fresh_heap [7], PollPoller_new)) = AssertFail.
Proof. by vm_compute. Qed.

(** A second [disableAll] makes [EPollPoller] watch the descriptor again, for
    the empty mask, under which the kernel still reports errors and hangups;
    [PollPoller] leaves it ignored. *)
Lemma disableAll_twice_watches_again :
  watched (snd (run_chan_ops [(0%nat, EnableReading); (0%nat, DisableAll); (0%nat, DisableAll)]
    (fresh_heap [7], EPollPoller_new []))) 7 = Some (0%nat, kNoneEvent) ∧
  watched (snd (run_chan_ops [(0%nat, EnableReading); (0%nat, DisableAll); (0%nat, DisableAll)]
    (fresh_heap [7], PollPoller_new))) 7 = None.
Proof. by vm_compute. Qed.

(** ** A round of [poll] *)

(** What [epoll_wait] returns: distinct watched channels, each with what
    happened to it, at most as many as there is room for. *)
Definition epoll_ready (p : EPollPoller) (ready : list (Z * nat)) : Prop :=
  NoDup ready.*2 ∧ zlen ready ≤ events_size p ∧
  ∀ r c, (r, c) ∈ ready → ∃ fd ev, epoll_list p !! fd = Some (ev, c).

Definition mark_ready (ready : list (Z * nat)) (h : chan_heap) : chan_heap :=
  foldl (λ h '(r, c), alter (set_revents r) c h) h ready.

Lemma mark_ready_ne ready h c : c ∉ ready.*2 → mark_ready ready h !! c = h !! c.
Proof.
  revert h. induction ready as [|[r c'] ready IH]; intros h Hc; [done|]. cbn [mark_ready foldl].
  apply not_elem_of_cons in Hc as [Hne Hc]. unfold mark_ready in IH. rewrite IH by done.
  by rewrite lookup_alter_ne.
Qed.

Lemma mark_ready_at ready h r c ch :
  NoDup ready.*2 → (r, c) ∈ ready → h !! c = Some ch →
  mark_ready ready h !! c = Some (set_revents r ch).
Proof.
  revert h. induction ready as [|[r' c'] ready IH]; intros h Hnd Hin Hh; [by apply not_elem_of_nil in Hin|].
  apply NoDup_cons in Hnd as [Hni Hnd]. cbn [mark_ready foldl].
  apply elem_of_cons in Hin as [[= -> ->]|Hin].
  - fold (mark_ready ready (alter (set_revents r') c' h)). rewrite mark_ready_ne by done.
    by rewrite lookup_alter_eq, Hh.
  - apply IH; [done|done|]. rewrite lookup_alter_ne; [done|].
    intros ->. apply Hni. apply list_elem_of_fmap. by exists (r, c).
Qed.

Lemma ep_inv_revents h p A r c : ep_inv (h, p) A → ep_inv (alter (set_revents r) c h, p) A.
Proof.
  intros [Hc Hch Hl Hcl]. split; [|done|done|done]. intros c' a Ha.
  destruct (Hc _ _ Ha) as (ch & Hx & Hrest). cbn [fst snd] in *. destruct (decide (c' = c)) as [->|Hne].
  - exists (set_revents r ch). cbn [fst snd]. by rewrite lookup_alter_eq, Hx.
  - exists ch. cbn [fst snd]. by rewrite lookup_alter_ne.
Qed.

Lemma ep_watched_channel h p A fd ev c :
  ep_inv (h, p) A → epoll_list p !! fd = Some (ev, c) →
  ∃ ch, h !! c = Some ch ∧ channels_ p !! fd_ ch = Some c.
Proof.
  intros [Hc Hch Hl _] Hfd. cbn [fst snd] in *.
  destruct (channels_ p !! fd) as [c'|] eqn:E; [|by rewrite (Hl _ E) in Hfd].
  destruct (Hch _ _ E) as (a & Ha & Haf & Hr). destruct (Hc _ _ Ha) as (ch & Hx & Hcf & _ & _ & Hreg).
  cbn [fst snd] in *. rewrite Hr, Haf, Hfd in Hreg.
  destruct Hreg as [_ [[_ [= _ ->]]|(_ & ? & _)]]; [|done].
  exists ch. by rewrite Hcf, Haf.
Qed.

Lemma fill_loop_holds ready h p A :
  ep_inv (h, p) A → (∀ r c, (r, c) ∈ ready → ∃ fd ev, epoll_list p !! fd = Some (ev, c)) →
  fill_loop ready (h, p) = (Ret ready.*2, (mark_ready ready h, p)) ∧ ep_inv (mark_ready ready h, p) A.
Proof.
  revert h. induction ready as [|[r c] ready IH]; intros h Hinv Hw; [done|].
  destruct (Hw r c) as (fd & ev & Hfd); [by left|].
  destruct (ep_watched_channel _ _ _ _ _ _ Hinv Hfd) as (ch & Hch & Hcc).
  destruct (IH (alter (set_revents r) c h)) as [Hl Hi].
  { by apply ep_inv_revents. } { intros r' c' Hin. apply (Hw r'). by right. }
  split; [|done]. cbn [fill_loop]. ep_step. rewrite Hcc.
  rewrite bool_decide_eq_false_2, bool_decide_eq_true_2 by done. cbn [negb assert_ fst snd]. by rewrite Hl.
Qed.

(** A round of [EPollPoller::poll] hands the loop exactly the channels the
    kernel reported, in its order, each with its [revents] set and no other
    channel touched; no assertion fails, the poller stays as registered, and
    a full event list is doubled for the next round. *)
Theorem epoll_poll_reports h p A ready
    (Hinv : ep_inv (h, p) A) (Hready : epoll_ready p ready) (Hpos : 0 < events_size p) :
  ∃ h' p', poll ready (h, p) = (Ret ready.*2, (h', p')) ∧
    ep_inv (h', p') A ∧ epoll_list p' = epoll_list p ∧
    events_size p' = (if zlen ready =? events_size p then 2 * events_size p else events_size p) ∧
    (∀ r c, (r, c) ∈ ready → ∃ ch, h !! c = Some ch ∧ h' !! c = Some (set_revents r ch)) ∧
    (∀ c, c ∉ ready.*2 → h' !! c = h !! c).
Proof.
  destruct Hready as (Hnd & Hlen & Hw).
  assert (∀ r c, (r, c) ∈ ready → ∃ ch, h !! c = Some ch ∧ mark_ready ready h !! c = Some (set_revents r ch)) as Hmark.
  { intros r c Hin. destruct (Hw _ _ Hin) as (fd & ev & Hfd).
    destruct (ep_watched_channel _ _ _ _ _ _ Hinv Hfd) as (ch & Hch & _). exists ch. split; [done|].
    by apply mark_ready_at. }
  destruct (fill_loop_holds ready h p A Hinv Hw) as [Hf Hi]. unfold poll.
  destruct (0 <? zlen ready) eqn:E; bool_to_prop.
  - unfold fillActiveChannels, assertS, mbind, ST_bind, st_get, lift, st_modify. cbn [fst snd].
    rewrite (proj2 (Z.leb_le _ _)) by done. cbn [assert_]. rewrite Hf. cbn [fst snd].
    destruct (zlen ready =? events_size p) eqn:E2; eexists _, _; (split; [reflexivity|]).
    + split; [|split; [done|split; [cbn; lia|split; [exact Hmark|]]]]; [|intros; by apply mark_ready_ne].
      destruct Hi as [H1 H2 H3 H4]. split; [exact H1|exact H2|exact H3|exact H4].
    + split; [done|]. split; [done|]. split; [done|]. split; [exact Hmark|]. intros; by apply mark_ready_ne.
  - pose proof (zlen_nonneg ready). assert (zlen ready = 0) as H0 by lia. apply zlen_0_inv in H0 as ->.
    exists h, p. rewrite (proj2 (Z.eqb_neq _ _)) by (change (zlen []) with 0; lia).
    split; [done|]. split; [done|]. split; [done|]. split; [done|]. split; [exact Hmark|done].
Qed.

Lemma epoll_poll_reports_witness :
  ∃ h p h' p', run_chan_ops [(0%nat, EnableReading); (1%nat, EnableWriting)]
      (fresh_heap [5; 6], EPollPoller_new []) = (Ret (), (h, p)) ∧
    poll [(4, 1%nat); (1, 0%nat)] (h, p) = (Ret [1%nat; 0%nat], (h', p')) ∧
    (∃ ch, h' !! 1%nat = Some ch ∧ revents_ ch = 4).
Proof.
  destruct (run_chan_ops_spec (P:=EPollPoller) [(0%nat, EnableReading); (1%nat, EnableWriting)]
    (fresh_heap [5; 6], EPollPoller_new []) (fresh_spec [5; 6])) as ([h p] & He & Hie);
    [exact (ep_inv_fresh [5; 6])|reflexivity|].
  destruct (epoll_poll_reports h p (spec_chan_ops [(0%nat, EnableReading); (1%nat, EnableWriting)] (fresh_spec [5; 6]))
    [(4, 1%nat); (1, 0%nat)]) as (h' & p' & Hp & _ & _ & _ & Hm & _).
  - exact Hie.
  - vm_compute in He. injection He as <- <-. split; [|split].
    + apply (bool_decide_unpack (NoDup [1%nat; 0%nat])). exact I.
    + apply Z.leb_le. reflexivity.
    + intros r c Hin. apply elem_of_cons in Hin as [[= -> ->]|Hin]; [exists 6, 4; reflexivity|].
      apply elem_of_cons in Hin as [[= -> ->]|Hin]; [exists 5, 3; reflexivity|].
      by apply not_elem_of_nil in Hin.
  - vm_compute in He. injection He as <- <-. reflexivity.
  - exists h, p, h', p'. split; [exact He|]. split; [exact Hp|].
    destruct (Hm 4 1%nat) as (ch & _ & Hch); [left|]. exists (set_revents 4 ch). split; [exact Hch|reflexivity].
Defined.
