(* ===== verification/TcpConnection.v ===== *)
(** * A connection (master/net/TcpConnection.h, TcpConnection.cc)

    One connection with its channel, its two buffers and its functors in the
    queue of its loop.  A call of another thread is a test of [state_] followed
    by steps ([remote]) that interleave with everything else, as [state_] is
    a plain member that no lock guards (a FIXME of the header asks for an
    atomic): between the events of the loop's thread and, inside these, between
    the calls a callback of the user makes, which is where a handler can see the
    state change.  What [write(2)] answers and what
    the user's callbacks do are an environment, functions of everything that
    happened so far; [log_] is that history: what the connection did to the
    socket, the poller and its user. *)
From S2P Require Import Prelude Buffer Channel Poller.
Local Open Scope Z_scope.

Inductive StateE := kDisconnected | kConnecting | kConnected | kDisconnecting.

#[export] Instance StateE_eq_dec : EqDecision StateE.
Proof. solve_decision. Defined.

(** What the loop is asked to run later for this connection. *)
Inductive functor :=
  | FSendInLoop (message : bytes)
  | FShutdownInLoop
  | FForceCloseInLoop
  | FStartReadInLoop
  | FStopReadInLoop
  | FWriteComplete
  | FHighWaterMark (len : Z).

(** What a thread other than the loop's does to the connection: takes the
    input, stores [kDisconnecting], queues a functor, sets the timer of
    [forceCloseWithDelay]. *)
Inductive rstep :=
  | RTake
  | RRetrieve (len : Z)
  | RStore
  | RQueue (f : functor)
  | RRunAfter.

(** The history. [OTake] and [OSend] mark that the user took bytes from the
    input buffer and that [sendInLoop] accepted a message. *)
Inductive obs :=
  | OPoll (o : chan_op)
  | OConnection (up : bool)
  | ORead (got : bytes)
  | OMessage
  | OTake (taken : bytes)
  | OClose
  | OSend (message : bytes)
  | OWrite (taken : bytes)
  | OWriteError (errno : Z)
  | OShutdownWrite
  | OWriteComplete
  | OHighWaterMark (len : Z)
  | ORunAfter.

Record TcpConnection := MkConn {
  state_ : StateE;
  reading_ : bool;
  channel_ : Channel;
  highWaterMark_ : Z;
  inputBuffer_ : Buffer;
  outputBuffer_ : Buffer;
  pendingFunctors_ : list functor;
  log_ : list obs;
  (** Calls of other threads: the steps each has still to make. *)
  threads_ : list (list rstep);
}.

Definition setState (s : StateE) (c : TcpConnection) : TcpConnection :=
  MkConn s (reading_ c) (channel_ c) (highWaterMark_ c) (inputBuffer_ c) (outputBuffer_ c) (pendingFunctors_ c) (log_ c) (threads_ c).
Definition set_reading (r : bool) (c : TcpConnection) : TcpConnection :=
  MkConn (state_ c) r (channel_ c) (highWaterMark_ c) (inputBuffer_ c) (outputBuffer_ c) (pendingFunctors_ c) (log_ c) (threads_ c).
Definition set_channel (ch : Channel) (c : TcpConnection) : TcpConnection :=
  MkConn (state_ c) (reading_ c) ch (highWaterMark_ c) (inputBuffer_ c) (outputBuffer_ c) (pendingFunctors_ c) (log_ c) (threads_ c).
Definition set_input (b : Buffer) (c : TcpConnection) : TcpConnection :=
  MkConn (state_ c) (reading_ c) (channel_ c) (highWaterMark_ c) b (outputBuffer_ c) (pendingFunctors_ c) (log_ c) (threads_ c).
Definition set_output (b : Buffer) (c : TcpConnection) : TcpConnection :=
  MkConn (state_ c) (reading_ c) (channel_ c) (highWaterMark_ c) (inputBuffer_ c) b (pendingFunctors_ c) (log_ c) (threads_ c).
Definition set_pending (fs : list functor) (c : TcpConnection) : TcpConnection :=
  MkConn (state_ c) (reading_ c) (channel_ c) (highWaterMark_ c) (inputBuffer_ c) (outputBuffer_ c) fs (log_ c) (threads_ c).
Definition add_log (o : obs) (c : TcpConnection) : TcpConnection :=
  MkConn (state_ c) (reading_ c) (channel_ c) (highWaterMark_ c) (inputBuffer_ c) (outputBuffer_ c)
    (pendingFunctors_ c) (log_ c ++ [o]) (threads_ c).
Definition set_threads (ts : list (list rstep)) (c : TcpConnection) : TcpConnection :=
  MkConn (state_ c) (reading_ c) (channel_ c) (highWaterMark_ c) (inputBuffer_ c) (outputBuffer_ c)
    (pendingFunctors_ c) (log_ c) ts.

Definition kDefaultHighWaterMark : Z := 64 * 1024 * 1024.

(** The constructor: the channel has the four callbacks. *)
Definition TcpConnection_new (sockfd : Z) : TcpConnection :=
  MkConn kConnecting true
    (setCallback ErrorCallback (setCallback CloseCallback (setCallback WriteCallback
      (setCallback ReadCallback (Channel_new sockfd)))))
    kDefaultHighWaterMark (Buffer_new kInitialSize) (Buffer_new kInitialSize) [] [] [].

(** The public members. *)
Inductive api :=
  | ASend (message : bytes)
  | ASendInput
  | ARetrieve (len : Z)
  | AShutdown
  | AForceClose
  | AForceCloseWithDelay
  | AStartRead
  | AStopRead.

(** What happens while a callback of the user runs: the loop's thread calls a
    member, another thread calls one, the [t]-th thread makes its next step. *)
Inductive act :=
  | Call (a : api)
  | Remote (a : api)
  | Thread (t : nat).

Inductive syswrite := WOk (n : Z) | WErr (errno : Z).
Definition EPIPE : Z := 32.
Definition EWOULDBLOCK : Z := 11.
Definition ECONNRESET : Z := 104.

(** The kernel's answer to [write(fd, data)] and the user's callbacks, each the
    calls it makes in order and those of other threads meanwhile. *)
Record Env := {
  write_ : TcpConnection → bytes → syswrite;
  connectionCallback_ : TcpConnection → list act;
  messageCallback_ : TcpConnection → list act;
  writeCompleteCallback_ : option (TcpConnection → list act);
  highWaterMarkCallback_ : option (TcpConnection → list act);
}.

Abbreviation conn := (ST TcpConnection).

Definition log (o : obs) : conn unit := st_modify (add_log o).
Definition queueInLoop (f : functor) : conn unit := st_modify (λ c, set_pending (pendingFunctors_ c ++ [f]) c).
Definition assertC (b : TcpConnection → bool) : conn unit := λ c, (assert_ (b c), c).

(** A member of the input or output buffer. *)
Definition on_input {A} (m : ST Buffer A) : conn A := λ c,
  let '(r, b) := m (inputBuffer_ c) in (r, set_input b c).
Definition on_output {A} (m : ST Buffer A) : conn A := λ c,
  let '(r, b) := m (outputBuffer_ c) in (r, set_output b c).

(** The members of the channel that call the poller. *)
Definition poll_op (o : chan_op) : conn unit :=
  c ← st_get;
  let ch := channel_ c in
  lift (assert_ (negb (bool_decide (o = Remove)) || isNoneEvent ch)) ;;
  st_put (set_channel (set_added (negb (bool_decide (o = Remove))) (set_events (new_mask o (events_ ch)) ch)) c) ;;
  log (OPoll o).

Section Connection.
Context (env : Env).

(** ** Writing *)
(** The direct [write] of [sendInLoop], when nothing is queued: how much the
    kernel took, and whether the connection is broken. *)
Definition write_directly (data : bytes) : conn (Z * bool) :=
  c ← st_get;
  match write_ env c data with
  | WOk nwrote =>
      log (OWrite (ztake nwrote data)) ;;
      (if (u64 (zlen data - nwrote) =? 0) && bool_decide (is_Some (writeCompleteCallback_ env))
       then queueInLoop FWriteComplete else mret ()) ;;
      mret (nwrote, false)
  | WErr errno =>
      log (OWriteError errno) ;;
      mret (0, negb (errno =? EWOULDBLOCK) && ((errno =? EPIPE) || (errno =? ECONNRESET)))
  end.

(** The last part of [sendInLoop]: the rest goes to the output buffer. *)
Definition keep_rest (data : bytes) (nwrote remaining : Z) : conn unit :=
  c ← st_get;
  let oldLen := readableBytes (outputBuffer_ c) in
  (if (highWaterMark_ c <=? u64 (oldLen + remaining)) && (oldLen <? highWaterMark_ c) &&
      bool_decide (is_Some (highWaterMarkCallback_ env))
   then queueInLoop (FHighWaterMark (u64 (oldLen + remaining))) else mret ()) ;;
  on_output (append (zdrop nwrote data)) ;;
  c ← st_get;
  if isWriting (channel_ c) then mret () else poll_op EnableWriting.

Definition sendInLoop (data : bytes) : conn unit :=
  c ← st_get;
  if bool_decide (state_ c = kDisconnected) then mret () else
  log (OSend data) ;;
  let len := zlen data in
  res ← (if negb (isWriting (channel_ c)) && (readableBytes (outputBuffer_ c) =? 0)
         then write_directly data else mret (0, false));
  let nwrote := (res : Z * bool).1 in
  let faultError := (res : Z * bool).2 in
  let remaining := u64 (len - nwrote) in
  assertC (λ _, remaining <=? len) ;;
  if negb faultError && (0 <? remaining) then keep_rest data nwrote remaining else mret ().

Definition shutdownInLoop : conn unit :=
  c ← st_get;
  if isWriting (channel_ c) then mret () else log OShutdownWrite.

Definition handleWrite : conn unit :=
  c ← st_get;
  if isWriting (channel_ c) then
    data ← lift (read_at (peek (outputBuffer_ c)) (readableBytes (outputBuffer_ c)) (buffer_ (outputBuffer_ c)));
    match write_ env c data with
    | WOk n =>
        if 0 <? n then
          log (OWrite (ztake n data)) ;;
          on_output (retrieve n) ;;
          c ← st_get;
          if readableBytes (outputBuffer_ c) =? 0 then
            poll_op DisableWriting ;;
            (if bool_decide (is_Some (writeCompleteCallback_ env)) then queueInLoop FWriteComplete else mret ()) ;;
            c ← st_get;
            if bool_decide (state_ c = kDisconnecting) then shutdownInLoop else mret ()
          else mret ()
        else mret ()
    | WErr errno => log (OWriteError errno)
    end
  else mret ().

(** ** The public members, in the loop's thread *)
Definition send (message : bytes) : conn unit :=
  c ← st_get; if bool_decide (state_ c = kConnected) then sendInLoop message else mret ().

(** [send(Buffer *buf)] on the connection's own input buffer. *)
Definition send_input : conn unit :=
  c ← st_get;
  if bool_decide (state_ c = kConnected) then
    let b := inputBuffer_ c in
    data ← lift (read_at (peek b) (readableBytes b) (buffer_ b));
    sendInLoop data ;;
    log (OTake data) ;;
    on_input retrieveAll
  else mret ().

Definition shutdown : conn unit :=
  c ← st_get;
  if bool_decide (state_ c = kConnected) then st_modify (setState kDisconnecting) ;; shutdownInLoop else mret ().

Definition closable (c : TcpConnection) : bool :=
  bool_decide (state_ c = kConnected) || bool_decide (state_ c = kDisconnecting).

Definition forceClose : conn unit :=
  c ← st_get;
  if closable c then st_modify (setState kDisconnecting) ;; queueInLoop FForceCloseInLoop else mret ().

Definition forceCloseWithDelay : conn unit :=
  c ← st_get;
  if closable c then st_modify (setState kDisconnecting) ;; log ORunAfter else mret ().

Definition startReadInLoop : conn unit :=
  c ← st_get;
  if negb (reading_ c) || negb (isReading (channel_ c)) then
    poll_op EnableReading ;; st_modify (set_reading true)
  else mret ().

Definition stopReadInLoop : conn unit :=
  c ← st_get;
  if reading_ c || isReading (channel_ c) then
    poll_op DisableReading ;; st_modify (set_reading false)
  else mret ().

(** The user takes [len] bytes of the input. *)
Definition user_retrieve (len : Z) : conn unit :=
  s ← on_input (retrieveAsString len);
  log (OTake s).

Definition run_api (a : api) : conn unit :=
  match a with
  | ASend message => send message
  | ASendInput => send_input
  | ARetrieve len => user_retrieve len
  | AShutdown => shutdown
  | AForceClose => forceClose
  | AForceCloseWithDelay => forceCloseWithDelay
  | AStartRead => startReadInLoop
  | AStopRead => stopReadInLoop
  end.

(** ** From other threads *)

(** The steps that follow the test of [state_], which read [seen]. *)
Definition remote (seen : StateE) (a : api) : list rstep :=
  match a with
  | ASend message => if bool_decide (seen = kConnected) then [RQueue (FSendInLoop message)] else []
  | ASendInput => if bool_decide (seen = kConnected) then [RTake] else []
  | ARetrieve len => [RRetrieve len]
  | AShutdown => if bool_decide (seen = kConnected) then [RStore; RQueue FShutdownInLoop] else []
  | AForceClose =>
      if bool_decide (seen = kConnected) || bool_decide (seen = kDisconnecting)
      then [RStore; RQueue FForceCloseInLoop] else []
  | AForceCloseWithDelay =>
      if bool_decide (seen = kConnected) || bool_decide (seen = kDisconnecting) then [RStore; RRunAfter] else []
  | AStartRead => [RQueue FStartReadInLoop]
  | AStopRead => [RQueue FStopReadInLoop]
  end.

Definition call_remote (a : api) : conn unit := st_modify (λ c, set_threads (threads_ c ++ [remote (state_ c) a]) c).

(** The next step of the [t]-th thread; [retrieveAllAsString] gives it the
    message it then queues. *)
Definition run_rstep (t : nat) (r : rstep) : conn unit :=
  match r with
  | RTake =>
      s ← on_input retrieveAllAsString;
      log (OTake s) ;;
      st_modify (λ c, set_threads (<[t := [RQueue (FSendInLoop s)]]> (threads_ c)) c)
  | RRetrieve len => user_retrieve len
  | RStore => st_modify (setState kDisconnecting)
  | RQueue f => queueInLoop f
  | RRunAfter => log ORunAfter
  end.

Definition thread_step (t : nat) : conn unit :=
  c ← st_get;
  match threads_ c !! t with
  | Some (r :: rest) => st_put (set_threads (<[t := rest]> (threads_ c)) c) ;; run_rstep t r
  | _ => mret ()
  end.

Definition run_act (x : act) : conn unit :=
  match x with
  | Call a => run_api a
  | Remote a => call_remote a
  | Thread t => thread_step t
  end.

Fixpoint run_acts (acts : list act) : conn unit :=
  match acts with
  | [] => mret ()
  | x :: acts' => run_act x ;; run_acts acts'
  end.

(** A callback of the user runs. *)
Definition user (cb : TcpConnection → list act) : conn unit :=
  c ← st_get; run_acts (cb c).

(** ** Handlers *)
Definition handleClose : conn unit :=
  assertC closable ;;
  st_modify (setState kDisconnected) ;;
  poll_op DisableAll ;;
  log (OConnection false) ;;
  user (connectionCallback_ env) ;;
  log OClose.

(** [handleError] reads and logs the socket's error. *)
Definition handleError : conn unit := mret ().

Definition handleRead (r : sysread) : conn unit :=
  res ← on_input (readFd r);
  let n := (res : Z * option Z).1 in
  if 0 <? n then
    log (ORead (match r with SysData got => got | SysErr _ => [] end)) ;;
    log OMessage ;;
    user (messageCallback_ env)
  else if n =? 0 then handleClose
  else handleError.

Definition forceCloseInLoop : conn unit :=
  c ← st_get; if closable c then handleClose else mret ().

Definition connectEstablished : conn unit :=
  assertC (λ c, bool_decide (state_ c = kConnecting)) ;;
  st_modify (setState kConnected) ;;
  st_modify (λ c, set_channel (tie (channel_ c)) c) ;;
  poll_op EnableReading ;;
  log (OConnection true) ;;
  user (connectionCallback_ env).

Definition connectDestroyed : conn unit :=
  c ← st_get;
  (if bool_decide (state_ c = kConnected) then
     st_modify (setState kDisconnected) ;;
     poll_op DisableAll ;;
     log (OConnection false) ;;
     user (connectionCallback_ env)
   else mret ()) ;;
  poll_op Remove.

(** The destructor's assertion. *)
Definition TcpConnection_dtor : conn unit := assertC (λ c, bool_decide (state_ c = kDisconnected)).

Definition run_functor (f : functor) : conn unit :=
  match f with
  | FSendInLoop message => sendInLoop message
  | FShutdownInLoop => shutdownInLoop
  | FForceCloseInLoop => forceCloseInLoop
  | FStartReadInLoop => startReadInLoop
  | FStopReadInLoop => stopReadInLoop
  | FWriteComplete => log OWriteComplete ;; from_option user (mret ()) (writeCompleteCallback_ env)
  | FHighWaterMark len => log (OHighWaterMark len) ;; from_option user (mret ()) (highWaterMarkCallback_ env)
  end.

(** The channel's dispatch of one report of the poller. *)
Definition run_callback (r : sysread) (k : callback) : conn unit :=
  match k with
  | CloseCallback => handleClose
  | ErrorCallback => handleError
  | ReadCallback => handleRead r
  | WriteCallback => handleWrite
  end.

Fixpoint run_callbacks (r : sysread) (ks : list callback) : conn unit :=
  match ks with
  | [] => mret ()
  | k :: ks' => run_callback r k ;; run_callbacks r ks'
  end.

Definition handleEvent (revents : Z) (r : sysread) : conn unit :=
  st_modify (λ c, set_channel (set_revents revents (channel_ c)) c) ;;
  c ← st_get;
  run_callbacks r (handleEventWithGuard (channel_ c)).

(** ** Histories of a connection *)
Inductive event :=
  | EvEstablished
  | EvReport (revents : Z) (r : sysread)
  | EvAct (x : act)
  | EvFunctor
  | EvTimer
  | EvDestroyed.

(** [EvFunctor]: the loop runs the oldest functor; [EvTimer]: the timer of
    [forceCloseWithDelay] fires. *)
Definition run_event (e : event) : conn unit :=
  match e with
  | EvEstablished => connectEstablished
  | EvReport revents r => handleEvent revents r
  | EvAct x => run_act x
  | EvFunctor =>
      c ← st_get;
      match pendingFunctors_ c with
      | [] => mret ()
      | f :: fs => st_put (set_pending fs c) ;; run_functor f
      end
  | EvTimer => forceClose
  | EvDestroyed => connectDestroyed
  end.

Fixpoint run_events (es : list event) : conn unit :=
  match es with
  | [] => mret ()
  | e :: es' => run_event e ;; run_events es'
  end.
End Connection.

(** ** Obligations of the callers and of the kernel *)

(** A [StringPiece] has an [int] length; one takes what is there; reading is
    started and stopped between establishment and close. *)
Definition legal_api (a : api) (c : TcpConnection) : bool :=
  match a with
  | ASend message => zlen message <? 2 ^ 31
  | ARetrieve len => (0 <=? len) && (len <=? readableBytes (inputBuffer_ c))
  | AStartRead | AStopRead => closable c
  | _ => true
  end.

(** What another thread may call, and when it may make a step.  A store of
    [kDisconnecting] by a thread that had read [kConnected] or [kDisconnecting]
    may find the connection closed since then; such a late store is excluded,
    though the code does not prevent it (see [late_store_closes_twice]). *)
Definition legal_remote (a : api) : bool :=
  match a with ASend message => zlen message <? 2 ^ 31 | _ => true end.
Definition legal_thread (t : nat) (c : TcpConnection) : bool :=
  match threads_ c !! t with
  | Some (RStore :: _) => closable c
  | Some (RRetrieve len :: _) => (0 <=? len) && (len <=? readableBytes (inputBuffer_ c))
  | _ => true
  end.

Definition legal_act (x : act) (c : TcpConnection) : bool :=
  match x with
  | Call a => legal_api a c
  | Remote a => legal_remote a
  | Thread t => legal_thread t c
  end.

Fixpoint legal_acts (env : Env) (acts : list act) (c : TcpConnection) : bool :=
  match acts with
  | [] => true
  | x :: acts' =>
      legal_act x c &&
      match run_act env x c with
      | (Ret _, c') => legal_acts env acts' c'
      | _ => true
      end
  end.

(** What the kernel reports: only for a watched channel, only what is asked
    for besides errors and hangups, a hangup with [POLLIN] if reading is asked
    for; one read delivers at most what it was offered. *)
Definition legal_report (c : TcpConnection) (revents : Z) (r : sysread) : bool :=
  addedToLoop_ (channel_ c) && negb (isNoneEvent (channel_ c)) &&
  (Z.land revents (Z.lnot (Z.lor (events_ (channel_ c)) (Z.lor POLLERR POLLHUP))) =? 0) &&
  (negb (has_bits revents POLLHUP) || negb (isReading (channel_ c)) || has_bits revents POLLIN) &&
  match r with
  | SysData got => zlen got <=? readFd_capacity (inputBuffer_ c)
  | SysErr _ => true
  end.

(** Besides the late store of [legal_thread], two more things that the code
    does not prevent are excluded: a [startRead] or [stopRead] of another
    thread whose functor runs when the connection is not up, and a
    [connectDestroyed] (of [~TcpServer]) that finds it in [kDisconnecting];
    both abort ([connection_aborts]). *)
Definition legal_event (e : event) (c : TcpConnection) : bool :=
  match e with
  | EvEstablished => bool_decide (state_ c = kConnecting)
  | EvReport revents r => legal_report c revents r
  | EvAct x => legal_act x c
  | EvFunctor =>
      match pendingFunctors_ c with
      | FStartReadInLoop :: _ | FStopReadInLoop :: _ => closable c
      | _ => true
      end
  | EvTimer => true
  | EvDestroyed => addedToLoop_ (channel_ c) &&
      (bool_decide (state_ c = kConnected) || bool_decide (state_ c = kDisconnected))
  end.

Fixpoint legal_events (env : Env) (es : list event) (c : TcpConnection) : bool :=
  match es with
  | [] => true
  | e :: es' =>
      legal_event e c &&
      match run_event env e c with
      | (Ret _, c') => legal_events env es' c'
      | _ => true
      end
  end.

Record env_ok (env : Env) : Prop := {
  write_in_range c data n : write_ env c data = WOk n → 0 ≤ n ≤ zlen data;
  connection_legal c : legal_acts env (connectionCallback_ env c) c = true;
  message_legal c : legal_acts env (messageCallback_ env c) c = true;
  write_complete_legal c cb : writeCompleteCallback_ env = Some cb → legal_acts env (cb c) c = true;
  high_water_legal c cb : highWaterMarkCallback_ env = Some cb → legal_acts env (cb c) c = true;
}.

(** ** Reading a history *)
Definition written (l : list obs) : bytes := l ≫= λ o, match o with OWrite b => b | _ => [] end.
Definition sent (l : list obs) : bytes := l ≫= λ o, match o with OSend b => b | _ => [] end.
Definition received (l : list obs) : bytes := l ≫= λ o, match o with ORead b => b | _ => [] end.
Definition taken (l : list obs) : bytes := l ≫= λ o, match o with OTake b => b | _ => [] end.
Definition polls (l : list obs) : list (nat * chan_op) :=
  l ≫= λ o, match o with OPoll p => [(0%nat, p)] | _ => [] end.
Definition calls (l : list obs) : list obs :=
  l ≫= λ o, match o with OConnection _ | OMessage | OClose => [o] | _ => [] end.
Definition is_fault (o : obs) : bool :=
  match o with OWriteError e => (e =? EPIPE) || (e =? ECONNRESET) | _ => false end.
(** The peer is gone: a write was refused for good. *)
Definition broken (l : list obs) : bool := existsb is_fault l.

(** The user sees the connection come up, then messages, then go down, and
    only then the server is told. *)
Inductive lifecycle : StateE → list obs → Prop :=
  | life_connecting : lifecycle kConnecting []
  | life_connected n : lifecycle kConnected (OConnection true :: replicate n OMessage)
  | life_disconnecting n : lifecycle kDisconnecting (OConnection true :: replicate n OMessage)
  | life_down n : lifecycle kDisconnected (OConnection true :: replicate n OMessage ++ [OConnection false])
  | life_closed n :
      lifecycle kDisconnected (OConnection true :: replicate n OMessage ++ [OConnection false; OClose]).

(** When the write side was shut down on a live connection, every byte the
    user had sent was written. *)
Definition fin_last (l : list obs) : Prop :=
  ∀ l1 l2, l = l1 ++ OShutdownWrite :: l2 → OConnection false ∉ l1 → broken l1 = false →
    written l1 = sent l1.

(** ** Histories grow at the end *)
Lemma bind_snoc {A B} (f : A → list B) l o : (l ++ [o]) ≫= f = (l ≫= f) ++ f o.
Proof. rewrite bind_app. cbn. by rewrite app_nil_r. Qed.

Lemma written_snoc l o : written (l ++ [o]) = written l ++ match o with OWrite b => b | _ => [] end.
Proof. apply bind_snoc. Qed.
Lemma sent_snoc l o : sent (l ++ [o]) = sent l ++ match o with OSend b => b | _ => [] end.
Proof. apply bind_snoc. Qed.
Lemma received_snoc l o : received (l ++ [o]) = received l ++ match o with ORead b => b | _ => [] end.
Proof. apply bind_snoc. Qed.
Lemma taken_snoc l o : taken (l ++ [o]) = taken l ++ match o with OTake b => b | _ => [] end.
Proof. apply bind_snoc. Qed.
Lemma polls_snoc l o : polls (l ++ [o]) = polls l ++ match o with OPoll p => [(0%nat, p)] | _ => [] end.
Proof. apply bind_snoc. Qed.
Lemma calls_snoc l o :
  calls (l ++ [o]) = calls l ++ match o with OConnection _ | OMessage | OClose => [o] | _ => [] end.
Proof. apply bind_snoc. Qed.
Lemma broken_snoc l o : broken (l ++ [o]) = broken l || is_fault o.
Proof. unfold broken. rewrite existsb_app. cbn. by rewrite orb_false_r. Qed.

Create Rewrite HintDb log.
#[export] Hint Rewrite written_snoc sent_snoc received_snoc taken_snoc polls_snoc calls_snoc broken_snoc
  @app_nil_r : log.

Lemma fin_last_snoc l o :
  fin_last l →
  (o = OShutdownWrite → OConnection false ∉ l → broken l = false → written l = sent l) →
  fin_last (l ++ [o]).
Proof.
  intros Hl Ho l1 l2 Heq Hup Hb. destruct l2 as [|x l2 _] using rev_ind.
  - apply app_inj_tail in Heq as [-> ->]. by apply Ho.
  - rewrite app_comm_cons, app_assoc in Heq. apply app_inj_tail in Heq as [-> ->]. by apply (Hl l1 l2).
Qed.

Lemma down_in_calls l : OConnection false ∈ l ↔ OConnection false ∈ calls l.
Proof.
  unfold calls. rewrite list_elem_of_bind. split.
  - intros Hl. exists (OConnection false). split; [by left|done].
  - intros (o & Ho & Hin). destruct o; try (by apply not_elem_of_nil in Ho);
      apply list_elem_of_singleton in Ho; by simplify_eq.
Qed.

Lemma lifecycle_down st l : lifecycle st l → (OConnection false ∈ l ↔ st = kDisconnected).
Proof.
  assert (∀ n, OConnection false ∉ OConnection true :: replicate n OMessage) as Hup.
  { intros n Hin. apply elem_of_cons in Hin as [?|Hin]; [done|]. by apply elem_of_replicate in Hin as [? _]. }
  destruct 1 as [|n|n|n|n].
  - split; [by intros ?%not_elem_of_nil|done].
  - split; [by intros ?%Hup|done].
  - split; [by intros ?%Hup|done].
  - split; [done|intros _]. right. apply elem_of_app. right. by left.
  - split; [done|intros _]. right. apply elem_of_app. right. by left.
Qed.

Lemma lifecycle_disconnecting st l :
  st ≠ kConnecting → st ≠ kDisconnected → lifecycle st l → lifecycle kDisconnecting l.
Proof. by destruct 3; [|constructor..| |]. Qed.

(** ** The calls of the poller *)

(** The poller's obligations are met so far, and this is what it knows. *)
Definition polled (fd : Z) (l : list obs) (r : reg) (ev : Z) : Prop :=
  ops_legal {[0%nat := AChan fd kNoneEvent Fresh]} (polls l) = true ∧
  spec_chan_ops (polls l) {[0%nat := AChan fd kNoneEvent Fresh]} = {[0%nat := AChan fd ev r]}.

Lemma ops_legal_snoc A ops c o :
  ops_legal A (ops ++ [(c, o)]) = ops_legal A ops && op_legal (spec_chan_ops ops A) c o.
Proof.
  revert A. induction ops as [|[c' o'] ops IH]; intros A; cbn [app ops_legal]; [by rewrite andb_true_r|].
  by rewrite IH, andb_assoc.
Qed.

Lemma polled_other fd l r ev o : (∀ p, o ≠ OPoll p) → polled fd l r ev → polled fd (l ++ [o]) r ev.
Proof. intros Ho. unfold polled. rewrite polls_snoc. destruct o; rewrite ?app_nil_r; try done. by destruct (Ho o). Qed.

Lemma polled_poll fd l r ev o r' :
  0 ≤ fd →
  match r with
  | Fresh => o ≠ Remove ∧ new_mask o ev ≠ kNoneEvent ∧ r' = Registered
  | Registered => if bool_decide (o = Remove) then ev = kNoneEvent ∧ r' = Removed else r' = Registered
  | Removed => False
  end →
  polled fd l r ev → polled fd (l ++ [OPoll o]) r' (new_mask o ev).
Proof.
  intros Hfd Ho [Hl Hs]. unfold polled. rewrite polls_snoc, ops_legal_snoc, Hl, Hs.
  unfold spec_chan_ops. rewrite foldl_app. fold (spec_chan_ops (polls l) {[0%nat := AChan fd kNoneEvent Fresh]}).
  rewrite Hs. cbn [foldl]. unfold spec_chan_op, op_legal. rewrite lookup_singleton_eq.
  cbn [a_reg a_fd a_events]. rewrite insert_singleton_eq. destruct r; [| |done].
  - destruct Ho as (Hne & Hm & ->). rewrite (bool_decide_eq_false_2 (o = Remove)) by done. split; [|done].
    rewrite (proj2 (Z.eqb_neq _ _) Hm), (proj2 (Z.leb_le _ _) Hfd). cbn. apply bool_decide_eq_true.
    intros c a. rewrite lookup_singleton_Some. intros [<- _]. by left.
  - destruct (bool_decide (o = Remove)) eqn:E; [destruct Ho as [-> ->]|subst r']; done.
Qed.

(** ** The invariant *)
Definition brep (b : Buffer) (q : bytes) : Prop := ∃ p, kCheapPrepend ≤ p ∧ holds p b q.

Definition reg_of (c : TcpConnection) : reg :=
  match state_ c with
  | kConnecting => Fresh
  | _ => if addedToLoop_ (channel_ c) then Registered else Removed
  end.

Definition pending_ok (st : StateE) (f : functor) : Prop :=
  match f with
  | FStartReadInLoop | FStopReadInLoop => True
  | FSendInLoop message => st ≠ kConnecting ∧ zlen message ≤ max_size
  | _ => st ≠ kConnecting
  end.

(** A step that queues or takes was preceded by its test of the state. *)
Definition rstep_ok (st : StateE) (r : rstep) : Prop :=
  match r with
  | RQueue f => pending_ok st f
  | RTake | RStore => st ≠ kConnecting
  | RRetrieve _ | RRunAfter => True
  end.

Definition queues_ok (st : StateE) (fs : list functor) (ts : list (list rstep)) : Prop :=
  Forall (pending_ok st) fs ∧ Forall (Forall (rstep_ok st)) ts.

Lemma queues_ok_past st st' fs ts : (st = kConnecting ∨ st' ≠ kConnecting) → queues_ok st fs ts → queues_ok st' fs ts.
Proof.
  intros Hst. assert (∀ f, pending_ok st f → pending_ok st' f) as Hf.
  { intros f. destruct f; cbn; naive_solver. }
  intros [H1 H2]. split; [by eapply Forall_impl|]. eapply Forall_impl; [exact H2|]. intros l Hl.
  eapply Forall_impl; [exact Hl|]. intros r. destruct r; cbn; naive_solver.
Qed.

(** [q] is the output buffer, [rest] what a running [sendInLoop] has still to
    place. *)
Definition stream (c : TcpConnection) (q rest : bytes) : Prop :=
  broken (log_ c) = false →
  written (log_ c) `prefix_of` sent (log_ c) ∧
  (state_ c ≠ kDisconnected → written (log_ c) ++ q ++ rest = sent (log_ c)).

Record base (fd : Z) (q rest : bytes) (c : TcpConnection) : Prop := {
  inv_fd : 0 ≤ fd;
  inv_mask : events_ (channel_ c) ∈ [0; 3; 4; 7];
  inv_idle : closable c = false → events_ (channel_ c) = 0;
  inv_added : closable c = true → addedToLoop_ (channel_ c) = true;
  inv_polls : polled fd (log_ c) (reg_of c) (events_ (channel_ c));
  inv_input : ∃ q, brep (inputBuffer_ c) q ∧ received (log_ c) = taken (log_ c) ++ q;
  inv_output : brep (outputBuffer_ c) q;
  inv_stream : stream c q rest;
  inv_calls : lifecycle (state_ c) (calls (log_ c));
  inv_fin : fin_last (log_ c);
  inv_pending : queues_ok (state_ c) (pendingFunctors_ c) (threads_ c);
}.

(** The channel wants to write exactly when there is something to write. *)
Definition writes (c : TcpConnection) (q : bytes) : Prop :=
  state_ c ≠ kDisconnected → isWriting (channel_ c) = true ↔ q ≠ [].

Definition inv (fd : Z) (c : TcpConnection) : Prop := ∃ q, base fd q [] c ∧ writes c q.

(** What the calls of a user leave alone, and what writing leaves alone. *)
Definition calm (c c' : TcpConnection) : Prop :=
  closable c' = closable c ∧ (state_ c = kConnecting ↔ state_ c' = kConnecting) ∧
  calls (log_ c') = calls (log_ c) ∧ addedToLoop_ (channel_ c') = addedToLoop_ (channel_ c).
Definition quiet (c c' : TcpConnection) : Prop :=
  closable c' = closable c ∧ (state_ c = kConnecting ↔ state_ c' = kConnecting) ∧
  calls (log_ c') = calls (log_ c) ∧ addedToLoop_ (channel_ c') = addedToLoop_ (channel_ c) ∧
  inputBuffer_ c' = inputBuffer_ c.

Lemma quiet_trans c1 c2 c3 : quiet c1 c2 → quiet c2 c3 → quiet c1 c3.
Proof.
  intros (H1 & H2 & H3 & H4 & H5) (G1 & G2 & G3 & G4 & G5). repeat split; try congruence; tauto.
Qed.
Lemma calm_trans c1 c2 c3 : calm c1 c2 → calm c2 c3 → calm c1 c3.
Proof. intros (H1 & H2 & H3 & H4) (G1 & G2 & G3 & G4). repeat split; try congruence; tauto. Qed.
Lemma quiet_calm c c' : quiet c c' → calm c c'.
Proof. unfold quiet, calm. tauto. Qed.

Lemma closable_states c :
  closable c = match state_ c with kConnected | kDisconnecting => true | _ => false end.
Proof. unfold closable. by destruct (state_ c). Qed.

Section Preservation.
Context (fd : Z).
Implicit Types (c : TcpConnection).

(** An observation that no reading of the history counts. *)
Definition neutral (o : obs) : Prop :=
  match o with OWriteError _ | OWriteComplete | OHighWaterMark _ | ORunAfter => True | _ => False end.

Lemma base_log_neutral q rest c o : neutral o → base fd q rest c → base fd q rest (add_log o c).
Proof.
  intros Ho [H0 H1 H2 H3 H4 H5 H6 Hs H7 H8 H9]. split; cbn; try done.
  - apply polled_other; [by destruct o|done].
  - destruct H5 as (qi & ? & ?). exists qi. autorewrite with log. by destruct o; rewrite ?app_nil_r.
  - unfold stream in *. cbn. autorewrite with log. rewrite orb_false_iff. intros [Hb _].
    destruct (Hs Hb). by destruct o; rewrite ?app_nil_r.
  - autorewrite with log. by destruct o; rewrite ?app_nil_r.
  - apply fin_last_snoc; [done|]. by intros ->.
Qed.

Lemma quiet_log c o : calls [o] = [] → quiet c (add_log o c).
Proof. intros Ho. repeat split; try done. cbn. rewrite calls_snoc. destruct o; by rewrite ?app_nil_r. Qed.

(** A write was refused for good: what was not placed is dropped. *)
Lemma base_log_fault q rest rest' c e :
  (e =? EPIPE) || (e =? ECONNRESET) = true →
  base fd q rest c → base fd q rest' (add_log (OWriteError e) c).
Proof.
  intros He Hi. destruct (base_log_neutral q rest c (OWriteError e) I Hi) as [H0 H1 H2 H3 H4 H5 H6 Hs H7 H8 H9].
  split; try done. intros Hb. cbn in Hb. rewrite broken_snoc in Hb. cbn in Hb. by rewrite He, orb_true_r in Hb.
Qed.

Lemma base_queue q rest c f :
  pending_ok (state_ c) f → base fd q rest c →
  base fd q rest (set_pending (pendingFunctors_ c ++ [f]) c).
Proof.
  intros Hf [H0 H1 H2 H3 H4 H5 H6 Hs H7 H8 H9].
  split; cbn; try done. destruct H9 as [H9 Ht]. split; [|done]. apply Forall_app. split; [done|]. by constructor.
Qed.

(** A message is accepted. *)
Lemma base_log_send q c data :
  state_ c ≠ kDisconnected → base fd q [] c → base fd q data (add_log (OSend data) c).
Proof.
  intros Hst [H0 H1 H2 H3 H4 H5 H6 Hs H7 H8 H9]. split; cbn; try done.
  - by apply polled_other.
  - destruct H5 as (qi & ? & ?). exists qi. by autorewrite with log.
  - unfold stream in *. cbn. autorewrite with log. cbn. rewrite orb_false_r. intros Hb.
    destruct (Hs Hb) as [Hp He]. split; [by apply prefix_app_r|]. intros _. rewrite <-He by done.
    rewrite app_nil_r. by rewrite !app_assoc.
  - by autorewrite with log.
  - by apply fin_last_snoc.
Qed.

(** The kernel takes the first bytes of what is buffered or, nothing being
    buffered, of the running message. *)
Lemma base_log_write q r q' r' c x b :
  q ++ r = x ++ q' ++ r' → state_ c ≠ kDisconnected → brep b q' →
  base fd q r c → base fd q' r' (set_output b (add_log (OWrite x) c)).
Proof.
  intros Heq Hst Hq [H0 H1 H2 H3 H4 H5 H6 Hs H7 H8 H9]. split; cbn; try done.
  - by apply polled_other.
  - destruct H5 as (qi & ? & ?). exists qi. by autorewrite with log.
  - unfold stream in *. cbn. autorewrite with log. cbn. rewrite orb_false_r. intros Hb.
    destruct (Hs Hb) as [Hp He]. specialize (He Hst). rewrite <-He, Heq, <-app_assoc.
    split; [|done]. rewrite app_assoc. by apply prefix_app_r.
  - by autorewrite with log.
  - by apply fin_last_snoc.
Qed.

(** What is left of the running message is buffered. *)
Lemma base_append q rest c b :
  brep b (q ++ rest) → base fd q rest c → base fd (q ++ rest) [] (set_output b c).
Proof.
  intros Hb [H0 H1 H2 H3 H4 H5 H6 Hs H7 H8 H9]. split; cbn; try done.
  unfold stream in *. cbn. by rewrite app_nil_r.
Qed.

(** The channel's mask after the four members that set bits. *)
Definition chan_after (o : chan_op) (ch : Channel) : Channel :=
  set_added (negb (bool_decide (o = Remove))) (set_events (new_mask o (events_ ch)) ch).

Lemma mask_cases (P : Z → Prop) ev :
  ev ∈ [0; 3; 4; 7] → P 0 → P 3 → P 4 → P 7 → P ev.
Proof. intros Hev H0 H3 H4 H7. repeat (apply elem_of_cons in Hev as [->|Hev]; [done|]). by apply not_elem_of_nil in Hev. Qed.

Lemma mask_ok o ev : ev ∈ [0; 3; 4; 7] → new_mask o ev ∈ [0; 3; 4; 7].
Proof. intros Hev. pattern ev. apply mask_cases; [done|..]; apply (bool_decide_unpack _); destruct o; exact I. Qed.

Lemma base_poll q rest c o :
  closable c = true → o ≠ Remove → base fd q rest c →
  base fd q rest (add_log (OPoll o) (set_channel (chan_after o (channel_ c)) c)).
Proof.
  intros Hc Hne [H0 H1 H2 H3 H4 H5 H6 Hs H7 H8 H9].
  assert (reg_of c = Registered) as Hreg.
  { unfold reg_of. rewrite closable_states in Hc. specialize (H3 ltac:(by rewrite closable_states)).
    rewrite H3. by destruct (state_ c). }
  assert (bool_decide (o = Remove) = false) as Hno by by apply bool_decide_eq_false_2.
  split; cbn; try done.
  - by apply mask_ok.
  - intros Hn. by rewrite closable_states in *; cbn in *; destruct (state_ c).
  - by rewrite Hno.
  - rewrite Hreg in H4. apply (polled_poll fd _ Registered); [done| |done]. rewrite Hno.
    unfold reg_of. cbn. rewrite Hno. rewrite closable_states in Hc. by destruct (state_ c).
  - destruct H5 as (qi & ? & ?). exists qi. by autorewrite with log.
  - unfold stream in *. cbn. autorewrite with log. cbn. by rewrite orb_false_r.
  - by autorewrite with log.
  - by apply fin_last_snoc.
Qed.

Lemma quiet_poll c o :
  closable c = true → o ≠ Remove → addedToLoop_ (channel_ c) = true →
  quiet c (add_log (OPoll o) (set_channel (chan_after o (channel_ c)) c)).
Proof.
  intros Hc Hne Ha. repeat split; try done; cbn.
  - by autorewrite with log.
  - by rewrite bool_decide_eq_false_2, Ha.
Qed.

Lemma safe_poll_op o c (Q : unit → TcpConnection → Prop) :
  (o = Remove → isNoneEvent (channel_ c) = true) →
  Q () (add_log (OPoll o) (set_channel (chan_after o (channel_ c)) c)) →
  safe (poll_op o) c Q.
Proof.
  intros Ho HQ. unfold poll_op. safe_step. apply (safe_lift _ _ ()); [|safe_step; exact HQ].
  apply assert_true. destruct (bool_decide (o = Remove)) eqn:E; [|done].
  by rewrite Ho by (by apply bool_decide_eq_true in E).
Qed.

Lemma safe_on_output {A} (m : ST Buffer A) c (Q : A → TcpConnection → Prop) :
  safe m (outputBuffer_ c) (λ a b, Q a (set_output b c)) → safe (on_output m) c Q.
Proof. unfold safe, on_output. intros H. destruct (m (outputBuffer_ c)) as [[a|[]| |] b]; exact H. Qed.

Lemma safe_on_input {A} (m : ST Buffer A) c (Q : A → TcpConnection → Prop) :
  safe m (inputBuffer_ c) (λ a b, Q a (set_input b c)) → safe (on_input m) c Q.
Proof. unfold safe, on_input. intros H. destruct (m (inputBuffer_ c)) as [[a|[]| |] b]; exact H. Qed.

Lemma safe_assertC b c (Q : unit → TcpConnection → Prop) : b c = true → Q () c → safe (assertC b) c Q.
Proof. unfold safe, assertC. by intros ->. Qed.

(** The buffer's members, with memory running out as the only failure. *)
Lemma safe_append b q data (Q : unit → Buffer → Prop) :
  brep b q → zlen data ≤ max_size → (∀ b', brep b' (q ++ data) → Q () b') → safe (append data) b Q.
Proof.
  intros (p & Hp & Hh) Hlen HQ. destruct (append_total _ _ _ data Hh Hlen) as [(b' & p' & Ha & Hh' & Hp')|Ha].
  - eapply safe_holds; [exact Ha|]. apply HQ. exists p'. split; [lia|done].
  - apply safe_throws. by rewrite Ha.
Qed.

Lemma safe_retrieve b x y (Q : unit → Buffer → Prop) :
  brep b (x ++ y) → (∀ b', brep b' y → Q () b') → safe (retrieve (zlen x)) b Q.
Proof.
  intros (p & Hp & Hh) HQ. destruct (retrieve_holds _ _ _ _ Hh) as (b' & p' & Hr & Hh' & Hp' & _).
  eapply safe_holds; [exact Hr|]. apply HQ. exists p'. split; [|done].
  pose proof (zlen_nonneg x). case_bool_decide; lia.
Qed.

Lemma safe_retrieveAsString b x y (Q : bytes → Buffer → Prop) :
  brep b (x ++ y) → (∀ b', brep b' y → Q x b') → safe (retrieveAsString (zlen x)) b Q.
Proof.
  intros (p & Hp & Hh) HQ. destruct (retrieveAsString_holds _ _ _ _ Hh) as (b' & p' & Hr & Hh' & Hp' & _).
  eapply safe_holds; [exact Hr|]. apply HQ. exists p'. split; [|done].
  pose proof (zlen_nonneg x). case_bool_decide; lia.
Qed.

Lemma brep_readable b q : brep b q → readableBytes b = zlen q.
Proof. intros (p & _ & Hh). by apply (holds_readable p). Qed.

Lemma brep_bounds b q : brep b q → zlen q ≤ max_size.
Proof. intros (p & Hp & Hh). pose proof (holds_bounds _ _ _ Hh). unfold kCheapPrepend in *. lia. Qed.

Lemma brep_read b q : brep b q → read_at (peek b) (readableBytes b) (buffer_ b) = Ret q.
Proof.
  intros (p & _ & Hh). apply (holds_read p _ q _ q []); [done|by rewrite app_nil_r|].
  by rewrite (holds_readable _ _ _ Hh).
Qed.

Lemma base_same_buffer q rest c : base fd q rest c → base fd q rest (set_output (outputBuffer_ c) c).
Proof. by intros [H0 H1 H2 H3 H4 H5 H6 Hs H7 H8 H9]; split. Qed.

Lemma new_writes o c q : closable c = true → isWriting (chan_after o (channel_ c)) = negb (bool_decide (q = [])) →
  writes (add_log (OPoll o) (set_channel (chan_after o (channel_ c)) c)) q.
Proof.
  intros Hc Hw _. cbn [channel_ set_channel add_log]. rewrite Hw. destruct q; cbn; [|done].
  by split.
Qed.

Lemma enable_isWriting ch : events_ ch ∈ [0; 3; 4; 7] → isWriting (chan_after EnableWriting ch) = true.
Proof. unfold isWriting. cbn. intros Hev. by pattern (events_ ch); apply mask_cases. Qed.

Lemma disable_isWriting ch : events_ ch ∈ [0; 3; 4; 7] → isWriting (chan_after DisableWriting ch) = false.
Proof. unfold isWriting. cbn. intros Hev. by pattern (events_ ch); apply mask_cases. Qed.

Lemma reading_isWriting o ch : o = EnableReading ∨ o = DisableReading → events_ ch ∈ [0; 3; 4; 7] →
  isWriting (chan_after o ch) = isWriting ch.
Proof.
  unfold isWriting. intros [-> | ->]; cbn; intros Hev; by pattern (events_ ch); apply mask_cases.
Qed.

Section Environment.
Context (env : Env) (Henv : env_ok env).

Lemma keep_rest_ok data nwrote remaining q c :
  base fd q (zdrop nwrote data) c → writes c q → closable c = true →
  zdrop nwrote data ≠ [] → zlen data ≤ max_size →
  safe (keep_rest env data nwrote remaining) c (λ _ c', inv fd c' ∧ quiet c c').
Proof.
  intros Hb Hw Hc Hne Hlen. unfold keep_rest. safe_step.
  assert (∀ c1, base fd q (zdrop nwrote data) c1 → channel_ c1 = channel_ c → quiet c c1 →
    safe (on_output (append (zdrop nwrote data)) ;; c ← st_get;
          if isWriting (channel_ c) then mret () else poll_op EnableWriting) c1
      (λ _ c', inv fd c' ∧ quiet c c')) as Hgo.
  { intros c1 Hb1 Hch Hq1. assert (closable c1 = true) as Hc1 by (destruct Hq1 as (-> & _); done). safe_step. apply safe_on_output.
    apply (safe_append _ q); [apply Hb1| |].
    { unfold zdrop, zlen in *. rewrite length_drop. lia. }
    intros b' Hb'. safe_step. cbn [channel_ set_output].
    pose proof (base_append _ _ _ _ Hb' Hb1) as Hb2.
    assert (q ++ zdrop nwrote data ≠ []) as Hne' by (by intros [_ ?]%app_nil).
    destruct (isWriting (channel_ c1)) eqn:Ew.
    - safe_step. split; [|done]. exists (q ++ zdrop nwrote data). split; [done|]. by intros _.
    - apply safe_poll_op; [done|]. split.
      + eexists. split; [by apply base_poll|]. apply new_writes; [done|].
        rewrite bool_decide_eq_false_2 by done. apply enable_isWriting, Hb1.
      + apply (quiet_trans _ c1); [done|]. apply (quiet_trans _ (set_output b' c1)); [done|].
        apply quiet_poll; [done|done|]. by apply Hb1. }
  case_if.
  - apply safe_modify. apply Hgo; [|done|done]. apply base_queue; [|done]. cbn. rewrite closable_states in Hc. by destruct (state_ c).
  - apply safe_ret. by apply Hgo.
Qed.

(** [Ok c]: the call keeps the invariant and what [quiet] says. *)
Definition Ok (c : TcpConnection) (A : Type) (_ : A) (c' : TcpConnection) : Prop := inv fd c' ∧ quiet c c'.

Lemma closable_not_connecting c : closable c = true → state_ c ≠ kConnecting.
Proof. rewrite closable_states. by destruct (state_ c). Qed.
Lemma closable_not_disconnected c : closable c = true → state_ c ≠ kDisconnected.
Proof. rewrite closable_states. by destruct (state_ c). Qed.
Lemma closable_iff c : state_ c ≠ kConnecting → state_ c ≠ kDisconnected → closable c = true.
Proof. rewrite closable_states. by destruct (state_ c). Qed.

(** The result of the direct write: what is left is still to be placed, or
    the connection is broken. *)
Lemma write_directly_ok data c :
  base fd [] data c → writes c [] → closable c = true →
  safe (write_directly env data) c (λ r c', quiet c c' ∧ writes c' [] ∧ 0 ≤ r.1 ≤ zlen data ∧
    (if r.2 then base fd [] [] c' else base fd [] (zdrop r.1 data) c')).
Proof.
  intros Hb Hw Hc. unfold write_directly. safe_step.
  destruct (write_ env c data) as [n|e] eqn:E.
  - apply (write_in_range _ Henv) in E. safe_step.
    assert (base fd [] (zdrop n data) (set_output (outputBuffer_ c) (add_log (OWrite (ztake n data)) c))) as Hb'.
    { apply (base_log_write [] data); [|by apply closable_not_disconnected|apply Hb|done].
      cbn. by rewrite ztake_zdrop. }
    assert (quiet c (add_log (OWrite (ztake n data)) c)) as Hq by by apply quiet_log.
    apply base_same_buffer in Hb'. case_if; safe_step.
    + split; [done|]. split; [exact Hw|]. split; [done|]. apply base_queue; [|done].
      by apply closable_not_connecting in Hc.
    + split; [done|]. split; [exact Hw|]. by split.
  - safe_step. split; [by apply quiet_log|]. split; [exact Hw|]. split; [pose proof (zlen_nonneg data); cbn; lia|].
    cbn [fst snd].
    destruct (negb (e =? EWOULDBLOCK) && ((e =? EPIPE) || (e =? ECONNRESET))) eqn:Ef.
    + apply andb_prop in Ef as [_ Ef]. by apply (base_log_fault _ data).
    + by apply base_log_neutral.
Qed.

Lemma sendInLoop_ok data c :
  inv fd c → state_ c ≠ kConnecting → zlen data ≤ max_size →
  safe (sendInLoop env data) c (Ok c unit).
Proof.
  intros (q & Hb & Hw) Hst Hlen. unfold sendInLoop. safe_step.
  destruct (bool_decide (state_ c = kDisconnected)) eqn:Ed; bool_to_prop.
  { safe_step. split; [by exists q|done]. }
  pose proof (closable_iff c Hst Ed) as Hc. safe_step1. apply safe_modify. safe_step1.
  pose proof (base_log_send _ _ data Ed Hb) as Hb1. pose proof (zlen_nonneg data) as Hlen0.
  assert (quiet c (add_log (OSend data) c)) as Hq1 by by apply quiet_log.
  assert (∀ n c1, base fd q (zdrop n data) c1 → writes c1 q → quiet c c1 → 0 ≤ n ≤ zlen data →
    safe (assertC (λ _, u64 (zlen data - n) <=? zlen data) ;;
          if negb false && (0 <? u64 (zlen data - n)) then keep_rest env data n (u64 (zlen data - n)) else mret ())
      c1 (Ok c unit)) as Hrest.
  { intros n c1 Hb2 Hw2 Hq2 Hn. assert (u64 (zlen data - n) = zlen data - n) as ->.
    { apply wrapu_small. unfold in_u, max_size in *. lia. }
    assert (closable c1 = true) as Hc1 by (destruct Hq2 as (-> & _); done).
    safe_step. apply safe_assertC; [apply Z.leb_le; lia|]. cbn [negb andb]. case_if.
    - eapply safe_mono; [apply (keep_rest_ok _ _ _ q); [done|done|done| |done]|].
      + intros Hnil. pose proof (zlen_zdrop n data Hn) as Hz. rewrite Hnil in Hz. change (zlen []) with 0 in Hz. lia.
      + intros [] c2 [Hi Hq]. split; [done|]. by apply (quiet_trans _ c1).
    - safe_step. split; [|done]. exists q. split; [|done].
      assert (zdrop n data = []) as Hnil; [|by rewrite Hnil in Hb2].
      apply zlen_0_inv. rewrite zlen_zdrop; lia. }
  destruct (negb (isWriting (channel_ c)) && (readableBytes (outputBuffer_ c) =? 0)) eqn:Ew.
  - apply andb_prop in Ew as [_ Eq]. apply Z.eqb_eq in Eq.
    rewrite (brep_readable _ _ (inv_output _ _ _ _ Hb)) in Eq. apply zlen_0_inv in Eq as ->.
    eapply safe_mono; [apply write_directly_ok; [exact Hb1|exact Hw|exact Hc]|].
    intros [n f] c1 (Hq2 & Hw2 & Hn & Hb2). cbn [fst snd] in *.
    assert (quiet c c1) as Hq3 by by apply (quiet_trans _ (add_log (OSend data) c)).
    destruct f; [|by apply Hrest].
    safe_step. apply safe_assertC.
    { apply Z.leb_le. unfold u64. rewrite wrapu_small; [lia|]. unfold in_u, max_size in *. lia. }
    cbn. safe_step. split; [|done]. by exists [].
  - safe_step1. cbn [fst snd]. apply (Hrest 0); [exact Hb1|exact Hw|done|lia].
Qed.

Lemma shutdownInLoop_ok c : inv fd c → state_ c ≠ kConnecting → safe shutdownInLoop c (Ok c unit).
Proof.
  intros (q & Hb & Hw) Hst. unfold shutdownInLoop. safe_step. destruct (isWriting (channel_ c)) eqn:Ew; safe_step.
  { split; [by exists q|done]. }
  split; [|by apply quiet_log]. exists q. split; [|exact Hw].
  pose proof (inv_stream _ _ _ _ Hb) as Hs. pose proof (inv_calls _ _ _ _ Hb) as Hl.
  destruct Hb as [H0 H1 H2 H3 H4 H5 H6 _ H7 H8 H9]. split; cbn; try done.
  - by apply polled_other.
  - destruct H5 as (qi & ? & ?). exists qi. by autorewrite with log.
  - unfold stream in *. cbn. rewrite app_nil_r in *. autorewrite with log. cbn. by rewrite orb_false_r.
  - by autorewrite with log.
  - apply fin_last_snoc; [done|]. intros _ Hnd Hbr. destruct (Hs Hbr) as [_ He].
    assert (state_ c ≠ kDisconnected) as Hnd'.
    { intros Hd. apply Hnd. rewrite down_in_calls. by apply (lifecycle_down (state_ c)). }
    specialize (He Hnd'). rewrite app_nil_r in He. destruct q as [|a q]; [by rewrite app_nil_r in He|].
    destruct (Hw Hnd') as [_ Hw']. by rewrite Hw' in Ew.
Qed.

Lemma idle_not_writing q rest c : base fd q rest c → isWriting (channel_ c) = true → closable c = true.
Proof.
  intros Hb Hw. destruct (closable c) eqn:E; [done|]. unfold isWriting in Hw.
  by rewrite (inv_idle _ _ _ _ Hb E) in Hw.
Qed.

Lemma handleWrite_ok c : inv fd c → safe (handleWrite env) c (Ok c unit).
Proof.
  intros (q & Hb & Hw). unfold handleWrite. safe_step.
  destruct (isWriting (channel_ c)) eqn:Ew; [|safe_step; split; [by exists q|done]].
  pose proof (idle_not_writing _ _ _ Hb Ew) as Hc. safe_step.
  eapply safe_lift; [by apply brep_read, (inv_output _ _ _ _ Hb)|]. cbv beta.
  destruct (write_ env c q) as [n|e] eqn:E.
  2:{ apply safe_modify. split; [|by apply quiet_log]. exists q. split; [|exact Hw].
      by apply base_log_neutral. }
  apply (write_in_range _ Henv) in E. case_if; [|safe_step; split; [by exists q|done]].
  apply safe_bind, safe_modify, safe_bind, safe_on_output. cbv beta. cbn [outputBuffer_ add_log].
  pose proof (inv_output _ _ _ _ Hb) as Ho. rewrite <-(ztake_zdrop n q) in Ho.
  rewrite <-(zlen_ztake n q) at 1 by done. apply (safe_retrieve _ _ _ _ Ho). intros b' Hb'.
  assert (base fd (zdrop n q) [] (set_output b' (add_log (OWrite (ztake n q)) c))) as Hb1.
  { apply (base_log_write q [] _ _ c (ztake n q)); [|by apply closable_not_disconnected|done|done].
    by rewrite !app_nil_r, ztake_zdrop. }
  assert (quiet c (set_output b' (add_log (OWrite (ztake n q)) c))) as Hq1 by by apply (quiet_log c (OWrite _)).
  assert (isWriting (channel_ (set_output b' (add_log (OWrite (ztake n q)) c))) = true) as Hw1 by done.
  revert Hb1 Hq1 Hw1. generalize (set_output b' (add_log (OWrite (ztake n q)) c)). clear b' Hb'.
  intros c1 Hb1 Hq1 Hw1. assert (closable c1 = true) as Hc1 by (destruct Hq1 as (-> & _); done). safe_step.
  rewrite (brep_readable _ _ (inv_output _ _ _ _ Hb1)). case_if.
  - apply zlen_0_inv in E1. rewrite E1 in Hb1. apply safe_bind, safe_poll_op; [done|]. apply safe_bind.
    set (c2 := add_log _ _).
    assert (inv fd c2 ∧ quiet c c2) as [Hi2 Hq2].
    { split; [|apply (quiet_trans _ c1); [done|]; apply quiet_poll; [done|done|by apply Hb1]].
      exists []. split; [by apply base_poll|]. apply new_writes; [done|]. apply disable_isWriting, Hb1. }
    assert (closable c2 = true) as Hc2 by (destruct Hq2 as (-> & _); done). clearbody c2.
    assert (∀ c3, inv fd c3 → quiet c c3 → closable c3 = true →
      safe (c ← st_get; if bool_decide (state_ c = kDisconnecting) then shutdownInLoop else mret ()) c3 (Ok c unit)) as Hgo.
    { intros c3 Hi3 Hq3 Hc3. safe_step. case_if; [|by safe_step].
      eapply safe_mono; [by apply shutdownInLoop_ok, closable_not_connecting|].
      intros [] c4 [Hi4 Hq4]. split; [done|]. by apply (quiet_trans _ c3). }
    case_if; [apply safe_modify|apply safe_ret]; [|by apply Hgo].
    apply Hgo; [|done|done]. destruct Hi2 as (q2 & Hb2 & Hw2). exists q2. split; [|done].
    apply base_queue; [|done]. by apply closable_not_connecting.
  - safe_step. split; [|done]. exists (zdrop n q). split; [done|]. intros _. rewrite Hw1. split; [|done].
    intros _ Hnil. by rewrite Hnil in E1.
Qed.

(** ** The user's calls *)
Lemma brep_inj b q q' : brep b q → brep b q' → q = q'.
Proof. intros Hq Hq'. apply brep_read in Hq, Hq'. congruence. Qed.

Lemma base_disconnecting q rest c :
  closable c = true → base fd q rest c → base fd q rest (setState kDisconnecting c).
Proof.
  intros Hc [H0 H1 H2 H3 H4 H5 H6 Hs H7 H8 H9]. pose proof Hc as Hc'. rewrite closable_states in Hc.
  assert (state_ c ≠ kDisconnected ∧ state_ c ≠ kConnecting) as [Hd Hn] by (by destruct (state_ c)).
  split; cbn; try done.
  - intros _. by apply H3.
  - unfold reg_of in *. cbn. by destruct (state_ c).
  - unfold stream in *. cbn. intros Hb. destruct (Hs Hb). split; [done|]. intros _. auto.
  - by apply (lifecycle_disconnecting (state_ c)).
  - eapply queues_ok_past; [|exact H9]. by right.
Qed.

Lemma inv_disconnecting c : closable c = true → inv fd c → inv fd (setState kDisconnecting c) ∧ quiet c (setState kDisconnecting c).
Proof.
  intros Hc (q & Hb & Hw). split.
  - exists q. split; [by apply base_disconnecting|]. intros _. by apply Hw, closable_not_disconnected.
  - split; [by rewrite Hc, closable_states|]. split; [|done]. cbn. split; [|done].
    by intros Hs; apply closable_not_connecting in Hc.
Qed.

Lemma inv_take x y c b :
  brep (inputBuffer_ c) (x ++ y) → brep b y → inv fd c → inv fd (add_log (OTake x) (set_input b c)).
Proof.
  intros Hi Hb (q & [H0 H1 H2 H3 H4 H5 H6 Hs H7 H8 H9] & Hw). exists q. split; [|exact Hw]. split; cbn; try done.
  - by apply polled_other.
  - destruct H5 as (qi & Hqi & Hr). exists y. split; [done|]. autorewrite with log.
    rewrite Hr, <-(brep_inj _ _ _ Hi Hqi). by rewrite app_assoc.
  - unfold stream in *. cbn. rewrite app_nil_r in *. autorewrite with log. cbn. by rewrite orb_false_r.
  - by autorewrite with log.
  - by apply fin_last_snoc.
Qed.

Lemma calm_take c b x : calm c (add_log (OTake x) (set_input b c)).
Proof. repeat split; try done. cbn. by autorewrite with log. Qed.

Lemma inv_neutral o c : neutral o → inv fd c → inv fd (add_log o c) ∧ quiet c (add_log o c).
Proof.
  intros Ho (q & Hb & Hw). split; [|apply quiet_log; by destruct o].
  exists q. split; [by apply base_log_neutral|exact Hw].
Qed.

Lemma inv_queue f c : pending_ok (state_ c) f → inv fd c →
  inv fd (set_pending (pendingFunctors_ c ++ [f]) c) ∧ quiet c (set_pending (pendingFunctors_ c ++ [f]) c).
Proof. intros Hf (q & Hb & Hw). split; [|done]. exists q. split; [by apply base_queue|exact Hw]. Qed.

(** [Calm c]: as [Ok], the input buffer aside. *)
Definition Calm (c : TcpConnection) (A : Type) (_ : A) (c' : TcpConnection) : Prop := inv fd c' ∧ calm c c'.

Lemma Ok_Calm {A} (m : conn A) c : safe m c (Ok c A) → safe m c (Calm c A).
Proof. intros H. eapply safe_mono; [exact H|]. intros a c' [Hi Hq]. split; [done|by apply quiet_calm]. Qed.

Lemma Calm_here c : inv fd c → Calm c unit () c.
Proof. by intros Hi; split. Qed.

Lemma user_retrieve_ok len c :
  inv fd c → 0 ≤ len → len ≤ readableBytes (inputBuffer_ c) → safe (user_retrieve len) c (Calm c unit).
Proof.
  intros Hi Hlen Hr. pose proof Hi as (q & Hb & _). destruct (inv_input _ _ _ _ Hb) as (qi & Hqi & _).
  rewrite (brep_readable _ _ Hqi) in Hr. rewrite <-(ztake_zdrop len qi) in Hqi.
  unfold user_retrieve. safe_step. apply safe_on_input.
  rewrite <-(zlen_ztake len qi) at 1 by lia. apply (safe_retrieveAsString _ _ _ _ Hqi). intros b' Hb'.
  apply safe_modify. split; [|apply calm_take]. by eapply inv_take.
Qed.

Lemma send_ok message c : inv fd c → zlen message < 2 ^ 31 → safe (send env message) c (Calm c unit).
Proof.
  intros Hi Hlen. unfold send. safe_step. case_if; [|by safe_step; apply Calm_here].
  apply Ok_Calm, sendInLoop_ok; [done|congruence|]. unfold max_size. lia.
Qed.

Lemma send_input_ok c : inv fd c → safe (send_input env) c (Calm c unit).
Proof.
  intros Hi. unfold send_input. safe_step. case_if; [|by safe_step; apply Calm_here].
  pose proof Hi as (q & Hb & _). destruct (inv_input _ _ _ _ Hb) as (qi & Hqi & _). safe_step.
  eapply safe_lift; [by apply brep_read|]. apply safe_bind. eapply safe_mono.
  { apply sendInLoop_ok; [exact Hi|congruence|]. by apply (brep_bounds (inputBuffer_ c)). }
  intros [] c1 [Hi1 Hq1]. apply safe_bind, safe_modify, safe_on_input.
  destruct Hqi as (p & Hp & Hh). destruct (retrieveAll_holds _ _ _ Hh) as (b' & Hr & Hb' & _).
  assert (inputBuffer_ c1 = inputBuffer_ c) as Hin by apply Hq1.
  eapply safe_holds; [cbn [inputBuffer_ add_log]; rewrite Hin; exact Hr|].
  split; [|apply (calm_trans _ c1); [by apply quiet_calm|apply calm_take]].
  apply (inv_take qi [] c1 b'); [|by exists kCheapPrepend|done].
  rewrite Hin, app_nil_r. by exists p.
Qed.

Lemma shutdown_ok c : inv fd c → safe shutdown c (Calm c unit).
Proof.
  intros Hi. unfold shutdown. safe_step. case_if; [|by safe_step; apply Calm_here].
  assert (closable c = true) as Hc by by rewrite closable_states, E.
  destruct (inv_disconnecting c Hc Hi) as [Hi1 Hq1]. safe_step.
  eapply safe_mono; [by apply shutdownInLoop_ok|]. intros [] c2 [Hi2 Hq2]. split; [done|].
  by apply quiet_calm, (quiet_trans _ (setState kDisconnecting c)).
Qed.

Lemma forceClose_ok c : inv fd c → safe forceClose c (Calm c unit).
Proof.
  intros Hi. unfold forceClose. safe_step. case_if; [|by safe_step; apply Calm_here].
  destruct (inv_disconnecting c E Hi) as [Hi1 Hq1]. safe_step. apply safe_modify.
  destruct (inv_queue FForceCloseInLoop (setState kDisconnecting c)) as [Hi2 Hq2]; [done|done|].
  split; [done|]. by apply quiet_calm, (quiet_trans _ (setState kDisconnecting c)).
Qed.

Lemma forceCloseWithDelay_ok c : inv fd c → safe forceCloseWithDelay c (Calm c unit).
Proof.
  intros Hi. unfold forceCloseWithDelay. safe_step. case_if; [|by safe_step; apply Calm_here].
  destruct (inv_disconnecting c E Hi) as [Hi1 Hq1]. safe_step. apply safe_modify.
  destruct (inv_neutral ORunAfter (setState kDisconnecting c)) as [Hi2 Hq2]; [done|done|].
  split; [done|]. by apply quiet_calm, (quiet_trans _ (setState kDisconnecting c)).
Qed.

(** Starting and stopping to read on an established connection. *)
Lemma reading_ok o r c : o = EnableReading ∨ o = DisableReading → closable c = true → inv fd c →
  safe (poll_op o ;; st_modify (set_reading r)) c (Ok c unit).
Proof.
  intros Ho Hc (q & Hb & Hw). assert (o ≠ Remove) as Hne by (by destruct Ho as [-> | ->]).
  apply safe_bind, safe_poll_op; [done|]. apply safe_modify.
  pose proof (base_poll _ _ _ o Hc Hne Hb) as Hb'. split.
  - exists q. split.
    + destruct Hb' as [H0 H1 H2 H3 H4 H5 H6 Hs H7 H8 H9]. by split.
    + intros _. cbn [channel_ set_reading add_log set_channel].
      rewrite reading_isWriting; [by apply Hw, closable_not_disconnected|done|]. by apply Hb.
  - apply (quiet_poll c o Hc Hne). by apply Hb.
Qed.

Lemma startReadInLoop_ok c : closable c = true → inv fd c → safe startReadInLoop c (Ok c unit).
Proof.
  intros Hc Hi. unfold startReadInLoop. safe_step. case_if; [|by safe_step]. apply reading_ok; auto.
Qed.

Lemma stopReadInLoop_ok c : closable c = true → inv fd c → safe stopReadInLoop c (Ok c unit).
Proof.
  intros Hc Hi. unfold stopReadInLoop. safe_step. case_if; [|by safe_step]. apply reading_ok; auto.
Qed.

Lemma run_api_ok a c : legal_api a c = true → inv fd c → safe (run_api env a) c (Calm c unit).
Proof.
  intros Hl Hi. destruct a; cbn in *; bool_to_prop.
  - by apply send_ok.
  - by apply send_input_ok.
  - by apply user_retrieve_ok.
  - by apply shutdown_ok.
  - by apply forceClose_ok.
  - by apply forceCloseWithDelay_ok.
  - by apply Ok_Calm, startReadInLoop_ok.
  - by apply Ok_Calm, stopReadInLoop_ok.
Qed.

(** ** Other threads *)
Lemma inv_threads ts c : Forall (Forall (rstep_ok (state_ c))) ts → inv fd c → inv fd (set_threads ts c).
Proof.
  intros Ht (q & [H0 H1 H2 H3 H4 H5 H6 Hs H7 H8 [H9 _]] & Hw). exists q. split; [|exact Hw]. by split.
Qed.

Lemma inv_threads_ok c : inv fd c → Forall (Forall (rstep_ok (state_ c))) (threads_ c).
Proof. intros (q & Hb & _). apply (inv_pending _ _ _ _ Hb). Qed.

Lemma remote_steps_ok a c : legal_remote a = true → Forall (rstep_ok (state_ c)) (remote (state_ c) a).
Proof.
  intros Hl. assert (closable c = true → state_ c ≠ kConnecting) as Hc by apply closable_not_connecting.
  unfold closable in Hc. destruct a; cbn in *; try case_if; repeat constructor; cbn; bool_to_prop; auto; try congruence.
  unfold max_size. lia.
Qed.

Lemma call_remote_ok a c : legal_remote a = true → inv fd c → safe (call_remote a) c (Calm c unit).
Proof.
  intros Hl Hi. apply safe_modify. split; [|done]. apply inv_threads; [|done]. apply Forall_app. split.
  - by apply inv_threads_ok.
  - constructor; [by apply remote_steps_ok|constructor].
Qed.

Lemma run_rstep_ok t r c : rstep_ok (state_ c) r → (r = RStore → closable c = true) →
  (∀ len, r = RRetrieve len → 0 ≤ len ≤ readableBytes (inputBuffer_ c)) → inv fd c →
  safe (run_rstep t r) c (Calm c unit).
Proof.
  intros Hr Hst Hlen Hi. destruct r as [|len| |f|]; cbn [run_rstep].
  - pose proof Hi as (q & Hb & _). destruct (inv_input _ _ _ _ Hb) as (qi & Hqi & _).
    apply safe_bind, safe_on_input. unfold retrieveAllAsString. safe_step.
    rewrite (brep_readable _ _ Hqi). pose proof (brep_bounds _ _ Hqi) as Hbd. rewrite <-(app_nil_r qi) in Hqi.
    apply (safe_retrieveAsString _ _ _ _ Hqi). intros b' Hb'. apply safe_bind, safe_modify, safe_modify.
    pose proof (inv_take _ _ _ _ Hqi Hb' Hi) as Hi1. split; [|apply (calm_take c b')].
    apply inv_threads; [|done]. apply Forall_insert; [by apply (inv_threads_ok c)|]. by repeat constructor.
  - destruct (Hlen len eq_refl). by apply user_retrieve_ok.
  - apply safe_modify. destruct (inv_disconnecting c (Hst eq_refl) Hi) as [Hi1 Hq1]. split; [done|by apply quiet_calm].
  - apply safe_modify. destruct (inv_queue f c Hr Hi) as [Hi1 Hq1]. split; [done|by apply quiet_calm].
  - apply safe_modify. destruct (inv_neutral ORunAfter c I Hi) as [Hi1 Hq1]. split; [done|by apply quiet_calm].
Qed.

Lemma thread_step_ok t c : legal_thread t c = true → inv fd c → safe (thread_step t) c (Calm c unit).
Proof.
  intros Hl Hi. unfold thread_step, legal_thread in *. safe_step.
  destruct (threads_ c !! t) as [[|r rest]|] eqn:Ht; [by safe_step; apply Calm_here| |by safe_step; apply Calm_here].
  pose proof (inv_threads_ok c Hi) as Hall. pose proof (proj1 (Forall_lookup _ _) Hall t _ Ht) as Hs.
  apply Forall_cons in Hs as [Hr Hrest]. apply safe_bind, safe_put.
  set (c1 := set_threads (<[t := rest]> (threads_ c)) c).
  assert (inv fd c1) as Hi1 by (apply inv_threads; [by apply Forall_insert|done]).
  eapply safe_mono; [apply (run_rstep_ok t r c1); [done| | |done]|].
  - intros ->. exact Hl.
  - intros len ->. bool_to_prop. done.
  - intros [] c2 [Hi2 Hq2]. split; [done|exact Hq2].
Qed.

Lemma run_act_ok x c : legal_act x c = true → inv fd c → safe (run_act env x) c (Calm c unit).
Proof. destruct x; [apply run_api_ok|apply call_remote_ok|apply thread_step_ok]. Qed.

Lemma run_acts_ok acts c : legal_acts env acts c = true → inv fd c → safe (run_acts env acts) c (Calm c unit).
Proof.
  revert c. induction acts as [|a acts IH]; intros c Hl Hi; [by apply Calm_here|].
  cbn [legal_acts run_acts] in *. apply andb_prop in Hl as [Hl1 Hl2]. apply safe_bind.
  pose proof (run_act_ok a c Hl1 Hi) as Ha. unfold safe in *.
  destruct (run_act env a c) as [[[]|[]| |] c1]; try done. destruct Ha as [Hi1 Hq1].
  specialize (IH _ Hl2 Hi1). eapply (safe_mono (run_acts env acts)); [exact IH|].
  intros [] c2 [Hi2 Hq2]. split; [done|]. by apply (calm_trans _ c1).
Qed.

Lemma user_ok cb c : (∀ c, legal_acts env (cb c) c = true) → inv fd c → safe (user env cb) c (Calm c unit).
Proof. intros Hcb Hi. unfold user. safe_step. by apply run_acts_ok. Qed.

(** ** Establishment, messages and close *)
Lemma closable_calls q rest c : closable c = true → base fd q rest c →
  ∃ n, calls (log_ c) = OConnection true :: replicate n OMessage.
Proof.
  intros Hc Hb. pose proof (inv_calls _ _ _ _ Hb) as Hl. rewrite closable_states in Hc.
  destruct Hl; try done; by eexists.
Qed.

(** The connection as its user sees it just after the down callback. *)
Definition closed (c : TcpConnection) : Prop :=
  inv fd c ∧ state_ c = kDisconnected ∧ addedToLoop_ (channel_ c) = true ∧
  ∃ n, calls (log_ c) = OConnection true :: replicate n OMessage ++ [OConnection false].

Lemma closed_calm c c' : closed c → inv fd c' → calm c c' → closed c'.
Proof.
  intros (Hi & Hs & Ha & n & Hn) Hi' (H1 & H2 & H3 & H4). split; [done|].
  assert (state_ c' = kDisconnected) as Hs'.
  { rewrite !closable_states in H1. rewrite Hs in *. destruct (state_ c'); try done.
    by destruct H2 as [_ H2]; specialize (H2 eq_refl). }
  split; [done|]. split; [congruence|]. exists n. congruence.
Qed.

Lemma inv_down c : closable c = true → inv fd c →
  closed (add_log (OConnection false)
    (add_log (OPoll DisableAll) (set_channel (chan_after DisableAll (channel_ c)) (setState kDisconnected c)))).
Proof.
  intros Hc (q & Hb & Hw). destruct (closable_calls _ _ _ Hc Hb) as [n Hn].
  assert (calls (log_ (add_log (OConnection false) (add_log (OPoll DisableAll) c))) =
    OConnection true :: replicate n OMessage ++ [OConnection false]) as Hn'.
  { cbn. autorewrite with log. by rewrite Hn. }
  assert (reg_of c = Registered) as Hreg.
  { unfold reg_of. rewrite (inv_added _ _ _ _ Hb Hc). apply closable_not_connecting in Hc. by destruct (state_ c). }
  destruct Hb as [H0 H1 H2 H3 H4 H5 H6 Hs H7 H8 H9].
  split; [|split; [done|split; [done|by exists n]]].
  exists q. split; [|by intros Hx]. split; cbn; try done.
  - left.
  - apply polled_other; [done|]. rewrite Hreg in H4. by apply (polled_poll fd _ Registered).
  - destruct H5 as (qi & ? & ?). exists qi. by autorewrite with log.
  - intros Hb. cbn in Hb. rewrite !broken_snoc, !orb_false_r in Hb. destruct (Hs Hb) as [Hp _].
    cbn. by autorewrite with log.
  - cbn in Hn'. rewrite Hn'. constructor.
  - apply fin_last_snoc; [|done]. by apply fin_last_snoc.
  - eapply queues_ok_past; [|exact H9]. by right.
Qed.

(** Going down, up to the end of the user's callback. *)
Lemma down_ok c Q :
  closable c = true → inv fd c → (∀ c', closed c' → Q () c') →
  safe (st_modify (setState kDisconnected) ;; poll_op DisableAll ;; log (OConnection false) ;;
        user env (connectionCallback_ env)) c Q.
Proof.
  intros Hc Hi HQ. safe_step. apply safe_poll_op; [done|]. apply safe_bind, safe_modify.
  pose proof (inv_down c Hc Hi) as Hd. eapply safe_mono.
  { apply (user_ok (connectionCallback_ env)); [apply (connection_legal _ Henv)|apply Hd]. }
  intros [] c' [Hi' Hq']. apply HQ. by eapply closed_calm.
Qed.

Lemma bind_assoc3 {S A} (m1 m2 m3 : ST S unit) (m4 : ST S A) (k : A → ST S unit) s :
  (m1 ;; m2 ;; m3 ;; x ← m4; k x) s = ((m1 ;; m2 ;; m3 ;; m4) ≫= k) s.
Proof.
  unfold mbind, ST_bind. destruct (m1 s) as [[]?]; [|done..]. destruct (m2 _) as [[]?]; [|done..].
  by destruct (m3 _) as [[]?].
Qed.

Lemma handleClose_ok c : closable c = true → inv fd c →
  safe (handleClose env) c (λ _ c', inv fd c' ∧ closable c' = false).
Proof.
  intros Hc Hi. unfold handleClose. apply safe_bind, safe_assertC; [done|].
  unfold safe. rewrite bind_assoc3. fold (@safe TcpConnection unit). apply safe_bind.
  apply down_ok; [done|done|]. intros c' ((q & Hb & Hw) & Hst & Ha & n & Hn). apply safe_modify.
  split; [|by rewrite closable_states; cbn; rewrite Hst]. exists q.
  split; [|by intros Hx; cbn in Hx; rewrite Hst in Hx].
  destruct Hb as [H0 H1 H2 H3 H4 H5 H6 Hs H7 H8 H9]. split; cbn; try done.
  - by apply polled_other.
  - destruct H5 as (qi & ? & ?). exists qi. by autorewrite with log.
  - intros Hb. cbn in Hb. rewrite broken_snoc, orb_false_r in Hb. destruct (Hs Hb). cbn.
    autorewrite with log. rewrite app_nil_r in *. split; [done|]. by rewrite Hst.
  - autorewrite with log. rewrite Hn, Hst. cbn. rewrite <-app_assoc. constructor.
  - by apply fin_last_snoc.
Qed.

Lemma forceCloseInLoop_ok c : inv fd c → safe (forceCloseInLoop env) c (λ _ c', inv fd c').
Proof.
  intros Hi. unfold forceCloseInLoop. safe_step. case_if; [|by safe_step].
  eapply safe_mono; [by apply handleClose_ok|]. by intros [] c' [? _].
Qed.

Lemma inv_message got b qi c :
  closable c = true → brep (inputBuffer_ c) qi → brep b (qi ++ got) → inv fd c →
  inv fd (add_log OMessage (add_log (ORead got) (set_input b c))).
Proof.
  intros Hc Hqi Hb' (q & Hb & Hw). destruct (closable_calls _ _ _ Hc Hb) as [n Hn].
  exists q. split; [|exact Hw]. destruct Hb as [H0 H1 H2 H3 H4 H5 H6 Hs H7 H8 H9]. split; cbn; try done.
  - apply polled_other; [done|]. by apply polled_other.
  - destruct H5 as (qi' & Hqi' & Hr). rewrite (brep_inj _ _ _ Hqi' Hqi) in Hr. exists (qi ++ got).
    split; [done|]. autorewrite with log. by rewrite Hr, app_assoc.
  - intros Hb. cbn in Hb. rewrite !broken_snoc, !orb_false_r in Hb. destruct (Hs Hb). cbn.
    autorewrite with log. by rewrite app_nil_r in *.
  - autorewrite with log. rewrite Hn. cbn. rewrite <-replicate_S_end.
    rewrite closable_states in Hc. destruct (state_ c); try done; apply (life_connected (S n)) || apply (life_disconnecting (S n)).
  - apply fin_last_snoc; [|done]. by apply fin_last_snoc.
Qed.

Lemma handleRead_ok r c :
  closable c = true → inv fd c →
  (∀ got, r = SysData got → zlen got ≤ readFd_capacity (inputBuffer_ c)) →
  safe (handleRead env r) c (λ _ c', inv fd c').
Proof.
  intros Hc Hi Hr. unfold handleRead. apply safe_bind, safe_on_input.
  pose proof Hi as (q & Hb & _). destruct (inv_input _ _ _ _ Hb) as (qi & Hqi & _).
  destruct r as [e|got].
  { cbn. destruct c; exact Hi. }
  pose proof Hqi as (p & Hp & Hh). specialize (Hr got eq_refl). pose proof (holds_bounds _ _ _ Hh) as Hbd.
  pose proof (zlen_nonneg qi). pose proof (zlen_nonneg got).
  assert (zlen got ≤ max_size) as Hmax.
  { unfold readFd_capacity in Hr. rewrite (holds_writable _ _ _ Hh) in Hr.
    unfold kExtraBuf, kCheapPrepend, max_size in *. case_if_in Hr; lia. }
  destruct (readFd_total _ _ _ got Hh Hr Hmax) as [(b' & p' & Hf & Hh' & Hp' & _)|[Hf _]].
  2:{ by apply safe_throws. }
  eapply safe_holds; [exact Hf|]. cbn [fst]. assert (brep b' (qi ++ got)) as Hb' by (exists p'; split; [lia|done]).
  case_if.
  - apply safe_bind, safe_modify, safe_bind, safe_modify. eapply safe_mono.
    { apply (user_ok (messageCallback_ env)); [apply (message_legal _ Henv)|by eapply inv_message]. }
    by intros [] c' [? _].
  - case_if; [|lia]. apply zlen_0_inv in E0 as ->. rewrite app_nil_r in Hb'. eapply safe_mono.
    + apply handleClose_ok; [done|]. destruct Hi as (q1 & [? ? ? ? ? Hin ? ? ? ? ?] & Hw1).
      exists q1. split; [|exact Hw1]. split; try done. destruct Hin as (qi' & Hqi' & Hr').
      exists qi. split; [exact Hb'|]. by rewrite (brep_inj _ _ _ Hqi Hqi').
    + by intros [] c' [? _].
Qed.

Lemma connectEstablished_ok c :
  state_ c = kConnecting → inv fd c →
  safe (connectEstablished env) c (λ _ c', inv fd c' ∧ closable c' = true ∧ calls (log_ c') = [OConnection true]).
Proof.
  intros Hst (q & Hb & Hw). unfold connectEstablished.
  apply safe_bind, safe_assertC; [by rewrite Hst|]. apply safe_bind, safe_modify, safe_bind, safe_modify.
  apply safe_bind, safe_poll_op; [done|]. apply safe_bind, safe_modify.
  assert (calls (log_ c) = []) as Hcalls.
  { pose proof (inv_calls _ _ _ _ Hb) as Hl. rewrite Hst in Hl. by inversion Hl. }
  eapply safe_mono; [apply (user_ok (connectionCallback_ env)); [apply (connection_legal _ Henv)|]|].
  2:{ intros [] c' [Hi' (Hcl & _ & Hca & _)]. split; [done|]. split; [by rewrite Hcl|]. rewrite Hca. cbn.
      autorewrite with log. by rewrite Hcalls. }
  assert (closable c = false) as Hcl by by rewrite closable_states, Hst.
  destruct Hb as [H0 H1 H2 H3 H4 H5 H6 Hs H7 H8 H9]. specialize (H2 Hcl).
  assert (q = []) as ->.
  { destruct q as [|a q]; [done|]. destruct Hw as [_ Hw]; [by rewrite Hst|].
    unfold isWriting in Hw. rewrite H2 in Hw. by specialize (Hw ltac:(done)). }
  exists []. split; [|intros _; cbn; unfold isWriting; cbn; rewrite H2; by split].
  assert (reg_of c = Fresh) as Hreg by (unfold reg_of; by rewrite Hst).
  split; cbn; try done.
  - by apply (mask_ok EnableReading).
  - apply polled_other; [done|]. rewrite Hreg in H4. apply (polled_poll fd _ Fresh); [done| |done].
    by rewrite H2.
  - destruct H5 as (qi & ? & ?). exists qi. by autorewrite with log.
  - intros Hb. cbn in Hb. rewrite !broken_snoc, !orb_false_r in Hb. destruct (Hs Hb) as [Hp He].
    cbn. autorewrite with log. split; [done|]. intros _. rewrite app_nil_r in He. apply He. by rewrite Hst.
  - autorewrite with log. rewrite Hst in H7. inversion H7 as [Hc| | | |]. apply (life_connected 0).
  - apply fin_last_snoc; [|done]. by apply fin_last_snoc.
  - eapply queues_ok_past; [|exact H9]. by right.
Qed.

(** [remove()] after the last callback. *)
Lemma remove_ok c : state_ c = kDisconnected → addedToLoop_ (channel_ c) = true → inv fd c →
  safe (poll_op Remove) c (λ _ c', inv fd c').
Proof.
  intros Hst Ha (q & Hb & Hw). assert (closable c = false) as Hcl by by rewrite closable_states, Hst.
  pose proof (inv_idle _ _ _ _ Hb Hcl) as Hev. apply safe_poll_op; [intros _; unfold isNoneEvent; by rewrite Hev|].
  exists q. split; [|by intros Hx]. destruct Hb as [H0 H1 H2 H3 H4 H5 H6 Hs H7 H8 H9].
  assert (reg_of c = Registered) as Hreg by (unfold reg_of; by rewrite Hst, Ha).
  split; cbn; try done.
  - intros Hx. exact (match eq_true_false_abs _ Hx Hcl with end).
  - unfold reg_of. cbn. rewrite Hst. rewrite Hreg, Hev in H4. rewrite Hev.
    exact (polled_poll fd _ Registered 0 Remove Removed H0 (conj eq_refl eq_refl) H4).
  - destruct H5 as (qi & ? & ?). exists qi. by autorewrite with log.
  - unfold stream in *. cbn. rewrite app_nil_r in *. autorewrite with log. cbn. by rewrite orb_false_r.
  - by autorewrite with log.
  - by apply fin_last_snoc.
Qed.

Lemma connectDestroyed_ok c :
  addedToLoop_ (channel_ c) = true → state_ c = kConnected ∨ state_ c = kDisconnected → inv fd c →
  safe (connectDestroyed env) c (λ _ c', inv fd c').
Proof.
  intros Ha Hst Hi. unfold connectDestroyed. safe_step1. apply safe_get. safe_step1.
  destruct Hst as [Hst|Hst]; rewrite Hst; cbn.
  - apply down_ok; [by rewrite closable_states, Hst|done|].
    intros c' (Hi' & Hst' & Ha' & _). by apply remove_ok.
  - apply safe_ret. by apply remove_ok.
Qed.

(** ** The loop's functors and the channel's dispatch *)
Lemma run_functor_ok f c :
  pending_ok (state_ c) f → (f = FStartReadInLoop ∨ f = FStopReadInLoop → closable c = true) → inv fd c →
  safe (run_functor env f) c (λ _ c', inv fd c').
Proof.
  intros Hf Hcl Hi.
  assert (∀ m : conn unit, safe m c (Ok c unit) → safe m c (λ _ c', inv fd c')) as Hok.
  { intros m Hm. eapply safe_mono; [exact Hm|]. by intros [] c' [? _]. }
  assert (∀ o cb, neutral o → (∀ f, cb = Some f → ∀ c, legal_acts env (f c) c = true) →
    safe (log o ;; from_option (user env) (mret ()) cb) c (λ _ c', inv fd c')) as Huser.
  { intros o cb Ho Hcb. apply safe_bind, safe_modify. destruct (inv_neutral o c Ho Hi) as [Hi' _].
    destruct cb as [g|]; [|by apply safe_ret]. eapply safe_mono; [by apply user_ok; [apply Hcb|]|].
    by intros [] c' [? _]. }
  destruct f; cbn in *.
  - destruct Hf. by apply Hok, sendInLoop_ok.
  - by apply Hok, shutdownInLoop_ok.
  - by apply forceCloseInLoop_ok.
  - apply Hok, startReadInLoop_ok; auto.
  - apply Hok, stopReadInLoop_ok; auto.
  - apply Huser; [done|]. intros g Hg c'. by apply (write_complete_legal _ Henv).
  - apply Huser; [done|]. intros g Hg c'. by apply (high_water_legal _ Henv).
Qed.

Lemma run_callbacks_rest r ks c :
  (∀ k, k ∈ ks → k = ErrorCallback ∨ k = WriteCallback) → inv fd c →
  safe (run_callbacks env r ks) c (λ _ c', inv fd c').
Proof.
  revert c. induction ks as [|k ks IH]; intros c Hks Hi; [done|]. cbn [run_callbacks]. apply safe_bind.
  assert (safe (run_callback env r k) c (λ _ c', inv fd c')) as Hk.
  { destruct (Hks k) as [-> | ->]; [by left|done|]. cbn [run_callback].
    eapply safe_mono; [by apply handleWrite_ok|]. by intros [] c' [? _]. }
  eapply safe_mono; [exact Hk|]. intros [] c' Hi'. apply IH; [|done]. intros k' Hk'. apply Hks. by right.
Qed.

Lemma land_lnot_sub r m k : Z.land r (Z.lnot m) = 0 → Z.land m k = 0 → Z.land r k = 0.
Proof.
  intros Hr Hm. apply Z.bits_inj'. intros i Hi. apply (f_equal (λ z, Z.testbit z i)) in Hr, Hm.
  rewrite Z.land_spec in *. rewrite Z.bits_0 in *. rewrite Z.lnot_spec in Hr by done.
  destruct (Z.testbit r i), (Z.testbit m i), (Z.testbit k i); done.
Qed.

(** When a report closes the connection it does not also read. *)
Lemma close_excludes_read c revents r q rest :
  base fd q rest c → legal_report c revents r = true →
  has_bits revents POLLHUP && negb (has_bits revents POLLIN) = true →
  has_bits revents (Z.lor (Z.lor POLLIN POLLPRI) POLLRDHUP) = false.
Proof.
  intros Hb Hl Hh. unfold legal_report in Hl. rewrite !andb_true_iff in Hl.
  destruct Hl as [[[[_ Hne] Hsub] Hhup] _]. apply Z.eqb_eq in Hsub. apply andb_prop in Hh as [Hh1 Hh2].
  rewrite Hh1 in Hhup. apply negb_true_iff in Hh2. rewrite Hh2 in Hhup. cbn in Hhup. rewrite orb_false_r in Hhup.
  unfold has_bits. apply negb_false_iff, Z.eqb_eq.
  apply (land_lnot_sub _ (Z.lor (events_ (channel_ c)) (Z.lor POLLERR POLLHUP))); [done|].
  unfold isReading, isNoneEvent in *. revert Hne Hhup.
  pattern (events_ (channel_ c)). apply mask_cases; [apply Hb|done..].
Qed.

Lemma run_if_cases k ch b : run_if k ch b = [] ∨ (b = true ∧ run_if k ch b = [k]).
Proof. unfold run_if. destruct b; cbn; [|by left]. case_bool_decide; [by right|by left]. Qed.

Lemma inv_revents r c : inv fd c → inv fd (set_channel (set_revents r (channel_ c)) c).
Proof.
  intros (q & [H0 H1 H2 H3 H4 H5 H6 Hs H7 H8 H9] & Hw). exists q. split; [|exact Hw]. by split.
Qed.

Lemma handleEvent_ok revents r c :
  legal_report c revents r = true → inv fd c → safe (handleEvent env revents r) c (λ _ c', inv fd c').
Proof.
  intros Hl Hi. assert (closable c = true) as Hc.
  { destruct (closable c) eqn:E; [done|]. destruct Hi as (q & Hb & _). unfold legal_report, isNoneEvent in Hl.
    rewrite (inv_idle _ _ _ _ Hb E) in Hl. by rewrite andb_false_r in Hl. }
  assert (∀ got, r = SysData got → zlen got ≤ readFd_capacity (inputBuffer_ c)) as Hr.
  { intros got ->. unfold legal_report in Hl. rewrite !andb_true_iff in Hl. destruct Hl as [_ Hl]. by apply Z.leb_le. }
  unfold handleEvent. safe_step. pose proof (inv_revents revents c Hi) as Hi1.
  pose proof Hi as (q & Hb & _). pose proof (close_excludes_read c revents r q [] Hb Hl) as Hex.
  unfold handleEventWithGuard. cbn [channel_ set_channel revents_ set_revents].
  set (c1 := set_channel _ c) in *. set (ch := set_revents revents (channel_ c)).
  assert (∀ k b, (∀ k', k' ∈ run_if k ch b → k' = k)) as Hrun.
  { intros k b k' Hk'. destruct (run_if_cases k ch b) as [Hx|[_ Hx]]; rewrite Hx in Hk'.
    - by apply not_elem_of_nil in Hk'.
    - by apply list_elem_of_singleton in Hk'. }
  destruct (run_if_cases CloseCallback ch (has_bits revents POLLHUP && negb (has_bits revents POLLIN)))
    as [-> |[Hb1 ->]]; cbn [app].
  2:{ rewrite (Hex Hb1). cbn [run_callbacks]. apply safe_bind. cbn [run_callback].
      eapply safe_mono; [by apply (handleClose_ok c1)|]. intros [] c2 [Hi2 _].
      apply run_callbacks_rest; [|done]. intros k [Hk|Hk]%elem_of_app; [left; by eapply Hrun|].
      right. apply elem_of_app in Hk as [Hk|Hk]; [by apply not_elem_of_nil in Hk|by eapply Hrun]. }
  assert (∀ ks, (∀ k, k ∈ ks → k = ErrorCallback ∨ k = WriteCallback) → ∀ b,
    safe (run_callbacks env r (run_if ReadCallback ch b ++ ks)) c1 (λ _ c', inv fd c')) as Hread.
  { intros ks Hks b. destruct (run_if_cases ReadCallback ch b) as [-> |[_ ->]]; cbn [app].
    - by apply run_callbacks_rest.
    - cbn [run_callbacks run_callback]. apply safe_bind.
      eapply safe_mono; [by apply (handleRead_ok r c1)|]. intros [] c2 Hi2. by apply run_callbacks_rest. }
  destruct (run_if_cases ErrorCallback ch (has_bits revents (Z.lor POLLERR POLLNVAL))) as [-> |[_ ->]]; cbn [app].
  - apply Hread. intros k Hk. right. by eapply Hrun.
  - cbn [run_callbacks run_callback]. apply safe_bind, safe_ret. apply Hread.
    intros k Hk. right. by eapply Hrun.
Qed.

Lemma run_event_ok e c : legal_event e c = true → inv fd c → safe (run_event env e) c (λ _ c', inv fd c').
Proof.
  intros Hl Hi. destruct e as [|revents r|x| | |]; cbn [run_event].
  - eapply safe_mono; [apply connectEstablished_ok; [by apply bool_decide_eq_true in Hl|done]|by intros [] c' [? _]].
  - by apply handleEvent_ok.
  - eapply safe_mono; [by apply run_act_ok|]. by intros [] c' [? _].
  - safe_step. cbn [legal_event] in Hl. destruct (pendingFunctors_ c) as [|f fs] eqn:Ef; [by safe_step|].
    safe_step. pose proof Hi as (q & [H0 H1 H2 H3 H4 H5 H6 Hs H7 H8 H9] & Hw). rewrite Ef in H9.
    destruct H9 as [H9 Ht]. apply Forall_cons in H9 as [Hf Hfs]. apply run_functor_ok; [exact Hf| |].
    + intros [-> | ->]; exact Hl.
    + exists q. split; [by split|exact Hw].
  - eapply safe_mono; [by apply forceClose_ok|]. by intros [] c' [? _].
  - cbn [legal_event] in Hl. apply andb_prop in Hl as [Ha Hst]. apply orb_prop in Hst.
    apply connectDestroyed_ok; [done| |done]. by destruct Hst as [Hst|Hst]; bool_to_prop; [left|right].
Qed.

Lemma run_events_ok es c : legal_events env es c = true → inv fd c → safe (run_events env es) c (λ _ c', inv fd c').
Proof.
  revert c. induction es as [|e es IH]; intros c Hl Hi; [done|].
  cbn [legal_events run_events] in *. apply andb_prop in Hl as [Hl1 Hl2]. apply safe_bind.
  pose proof (run_event_ok e c Hl1 Hi) as He. unfold safe in He |- * at 1.
  destruct (run_event env e c) as [[[]|[]| |] c1]; try done. by apply IH.
Qed.
End Environment.
End Preservation.

Lemma inv_new fd : 0 ≤ fd → inv fd (TcpConnection_new fd).
Proof.
  intros Hfd. assert (brep (Buffer_new kInitialSize) []) as Hb.
  { exists kCheapPrepend. split; [done|]. by apply holds_new. }
  exists []. split; [|by split]. split; cbn; try done.
  - left.
  - exists []. by split.
  - constructor.
  - intros l1 l2 Heq. by destruct l1.
Qed.

(** ** What a connection promises *)
Section Promises.
Context (env : Env) (Henv : env_ok env) (fd : Z) (Hfd : 0 ≤ fd).
Context (es : list event) (Hlegal : legal_events env es (TcpConnection_new fd) = true).

(** C5: Whatever the peer, the kernel, the user's callbacks and other threads
    do, the test of the state, its store and the queueing of each call of
    another thread interleaving freely, no assertion of the connection fails and
    nothing undefined happens, and its user sees it come up once, then
    messages, then go down once, after which the server is told once; the
    state says how far it is.  Excluded by [legal_event], though the code does
    not exclude them, are three cases that do fail: a store of [kDisconnecting]
    of another thread's [shutdown] or [forceClose] that lands after the connection has closed, its
    test having come before ([late_store_closes_twice]); a [startRead] or
    [stopRead] that runs when the connection is not up, and [connectDestroyed]
    called by [~TcpServer] in state [kDisconnecting] ([connection_aborts]).
    The connection object lives throughout: that it outlives the functors that
    are bound to its bare [this] is not shown. *)
Theorem connection_lifecycle :
  safe (run_events env es) (TcpConnection_new fd) (λ _ c, lifecycle (state_ c) (calls (log_ c))).
Proof.
  eapply safe_mono; [by apply (run_events_ok fd env Henv), inv_new|].
  intros [] c (q & Hb & _). apply Hb.
Qed.

(** C6: No byte is lost, invented or reordered: unless a write was refused for
    good, what the kernel took is a prefix of what the user sent, and while
    the connection is up the output buffer holds exactly the rest; what the
    user took and what the input buffer holds is what the kernel delivered. *)
Theorem connection_streams :
  safe (run_events env es) (TcpConnection_new fd) (λ _ c,
    ∃ qi qo, brep (inputBuffer_ c) qi ∧ brep (outputBuffer_ c) qo ∧
      received (log_ c) = taken (log_ c) ++ qi ∧
      (broken (log_ c) = false →
        written (log_ c) `prefix_of` sent (log_ c) ∧
        (state_ c ≠ kDisconnected → sent (log_ c) = written (log_ c) ++ qo ∧
           (isWriting (channel_ c) = true ↔ qo ≠ [])))).
Proof.
  eapply safe_mono; [by apply (run_events_ok fd env Henv), inv_new|].
  intros [] c (q & Hb & Hw). destruct (inv_input _ _ _ _ Hb) as (qi & Hqi & Hr).
  exists qi, q. split; [done|]. split; [apply Hb|]. split; [done|]. intros Hbr.
  destruct (inv_stream _ _ _ _ Hb Hbr) as [Hp He]. split; [done|]. intros Hst.
  rewrite <-He, app_nil_r by done. split; [done|by apply Hw].
Qed.

(** C18: The write side of a live connection is shut down only when every byte that
    [sendInLoop] has accepted by then is written (unless a write was refused for
    good): a FIN overtakes no byte of the output buffer.  A message of another
    thread whose [sendInLoop] is still queued is not accepted yet, and a
    [shutdown] in the loop's thread does overtake it
    ([shutdown_overtakes_remote_send]).  The three cases C5 names are excluded
    here as well. *)
Theorem connection_fin_last :
  safe (run_events env es) (TcpConnection_new fd) (λ _ c, fin_last (log_ c)).
Proof.
  eapply safe_mono; [by apply (run_events_ok fd env Henv), inv_new|].
  intros [] c (q & Hb & _). apply Hb.
Qed.

End Promises.

(** ** An echo server's connection *)
Definition echo_env : Env := {|
  write_ c data := WOk (zlen data);
  connectionCallback_ c := [];
  messageCallback_ c := [Call ASendInput];
  writeCompleteCallback_ := Some (λ c, []);
  highWaterMarkCallback_ := None;
|}.

Lemma echo_env_ok : env_ok echo_env.
Proof.
  split; cbn; try done.
  - intros c data n [= <-]. pose proof (zlen_nonneg data). lia.
  - intros c. by destruct (send_input echo_env c) as [[]].
  - intros c cb [= <-]. done.
Qed.

Definition echo_session : list event :=
  [EvEstablished; EvAct (Remote (ASend s!"hello")); EvAct (Thread 0); EvFunctor; EvReport POLLIN (SysData s!"ping");
   EvFunctor; EvAct (Remote AShutdown); EvAct (Call AShutdown); EvAct (Thread 1); EvReport POLLIN (SysData []);
   EvAct (Thread 1); EvFunctor; EvDestroyed].

(** The session is legal and runs to its end. *)
Lemma echo_session_legal : legal_events echo_env echo_session (TcpConnection_new 7) = true.
Proof. vm_compute. reflexivity. Qed.

Lemma connection_lifecycle_witness :
  fst (run_events echo_env echo_session (TcpConnection_new 7)) = Ret () ∧
  safe (run_events echo_env echo_session) (TcpConnection_new 7) (λ _ c, lifecycle (state_ c) (calls (log_ c))).
Proof.
  split; [vm_compute; reflexivity|].
  exact (connection_lifecycle echo_env echo_env_ok 7 ltac:(lia) echo_session echo_session_legal).
Defined.

Lemma connection_streams_witness :
  written (log_ (snd (run_events echo_env echo_session (TcpConnection_new 7)))) = s!"helloping" ∧
  safe (run_events echo_env echo_session) (TcpConnection_new 7) (λ _ c,
    broken (log_ c) = false → written (log_ c) `prefix_of` sent (log_ c)).
Proof.
  split; [vm_compute; reflexivity|]. eapply safe_mono.
  - exact (connection_streams echo_env echo_env_ok 7 ltac:(lia) echo_session echo_session_legal).
  - intros [] c (qi & qo & _ & _ & _ & H) Hb. exact (proj1 (H Hb)).
Defined.

Lemma connection_fin_last_witness :
  existsb (λ o, match o with OShutdownWrite => true | _ => false end)
    (log_ (snd (run_events echo_env echo_session (TcpConnection_new 7)))) = true ∧
  safe (run_events echo_env echo_session) (TcpConnection_new 7) (λ _ c, fin_last (log_ c)).
Proof.
  split; [vm_compute; reflexivity|].
  exact (connection_fin_last echo_env echo_env_ok 7 ltac:(lia) echo_session echo_session_legal).
Defined.

(** ** What happens outside the obligations *)

(** Reading started after the close, or the connection destroyed by its server
    while it waits for the peer to close, fails the assertion of
    [Channel::remove]. *)
Lemma connection_aborts :
  fst (run_events echo_env [EvEstablished; EvReport POLLIN (SysData []); EvAct (Call AStartRead); EvDestroyed]
    (TcpConnection_new 7)) = AssertFail ∧
  fst (run_events echo_env [EvEstablished; EvAct (Call AShutdown); EvDestroyed] (TcpConnection_new 7)) = AssertFail.
Proof. split; vm_compute; reflexivity. Qed.

(** Two threads close the connection: the first one's [forceClose] runs while
    the second, which has found the connection up, has still to store
    [kDisconnecting]; the store then makes the closed connection closable, and
    the user and the server are told of its end twice. *)
Lemma late_store_closes_twice :
  calls (log_ (snd (run_events echo_env [EvEstablished; EvAct (Remote AForceClose); EvAct (Remote AForceClose);
    EvAct (Thread 0); EvAct (Thread 0); EvFunctor; EvAct (Thread 1); EvAct (Thread 1); EvFunctor]
    (TcpConnection_new 7)))) =
  [OConnection true; OConnection false; OClose; OConnection false; OClose].
Proof. vm_compute. reflexivity. Qed.

(** A call of another thread that nothing interrupts is the member as the code
    has it, here [shutdown]. *)
Lemma thread_step_last ts r rest c :
  thread_step (length ts) (set_threads (ts ++ [r :: rest]) c) = run_rstep (length ts) r (set_threads (ts ++ [rest]) c).
Proof.
  unfold thread_step, mbind, ST_bind, st_get, st_put. cbn [threads_ set_threads fst snd].
  rewrite list_lookup_middle by done. cbn [fst snd].
  replace (<[length ts := rest]> (ts ++ [r :: rest])) with (ts ++ [rest]); [done|].
  rewrite insert_app_r_alt by done. by rewrite Nat.sub_diag.
Qed.

Lemma remote_shutdown_alone env c : state_ c = kConnected →
  run_acts env [Remote AShutdown; Thread (length (threads_ c)); Thread (length (threads_ c))] c =
  (Ret (), set_threads (threads_ c ++ [[]])
     (set_pending (pendingFunctors_ c ++ [FShutdownInLoop]) (setState kDisconnecting c))).
Proof.
  intros Hs. cbn [run_acts run_act]. unfold mbind, ST_bind.
  assert (call_remote AShutdown c = (Ret (), set_threads (threads_ c ++ [[RStore; RQueue FShutdownInLoop]]) c)) as ->.
  { unfold call_remote, st_modify, remote. by rewrite Hs. }
  set (ts := threads_ c).
  rewrite thread_step_last. cbn [run_rstep]. unfold st_modify.
  change (setState kDisconnecting (set_threads (ts ++ [[RQueue FShutdownInLoop]]) c)) with
    (set_threads (ts ++ [[RQueue FShutdownInLoop]]) (setState kDisconnecting c)).
  by rewrite thread_step_last.
Qed.

(** A message another thread sent before the loop's thread called [shutdown]
    is written after the write side is shut down. *)
Lemma shutdown_overtakes_remote_send :
  log_ (snd (run_events echo_env [EvEstablished; EvAct (Remote (ASend s!"x")); EvAct (Thread 0); EvAct (Call AShutdown); EvFunctor]
    (TcpConnection_new 7))) =
  [OPoll EnableReading; OConnection true; OShutdownWrite; OSend s!"x"; OWrite s!"x"].
Proof. vm_compute. reflexivity. Qed.
