(* ===== verification/PolledConnection.v ===== *)
(** * A connection over a poller

    The client's side of the interface of the file Poller: a connection
    (TcpConnection) meets the obligations a poller has of its callers, so any
    implementation serves it, the two of this repository among them. *)
From S2P Require Import Prelude Buffer Channel Poller EPollPoller PollPoller Pollers TcpConnection.
Local Open Scope Z_scope.

(** The poller watches the descriptor for what the connection wants, while it
    is established and added to the loop. *)
Definition watches_wanted {P} `{PollerOps P} (s : chan_heap * P) (fd : Z) (c : TcpConnection) : Prop :=
  ∀ ev, ev ≠ kNoneEvent →
    (watched s fd = Some (0%nat, ev) ↔
      state_ c ≠ kConnecting ∧ addedToLoop_ (channel_ c) = true ∧ events_ (channel_ c) = ev).

(** C15: The connection meets the obligations of the poller interface: any
    implementation that knows its channel as new runs all its calls without a
    failed assertion and then watches the descriptor exactly for the events
    the connection wants, until it is removed.  The histories are those of C5:
    other threads' calls interleave step by step, and its three excluded cases
    (a store of [kDisconnecting] after the close, [startRead] or [stopRead] run
    on a connection that is not up, [connectDestroyed] in [kDisconnecting]) are
    excluded here too, as the last two break the poller's obligations. *)
Theorem connection_polls env (Henv : env_ok env) fd (Hfd : 0 ≤ fd) es
    (Hlegal : legal_events env es (TcpConnection_new fd) = true) {P} `{PollerSpec P} (s : chan_heap * P)
    (Hs : p_inv s {[0%nat := AChan fd kNoneEvent Fresh]}) :
  safe (run_events env es) (TcpConnection_new fd) (λ _ c,
    ∃ s', run_chan_ops (polls (log_ c)) s = (Ret (), s') ∧ watches_wanted s' fd c).
Proof.
  eapply safe_mono; [by apply (run_events_ok fd env Henv), inv_new|].
  intros [] c (q & Hb & _). destruct (inv_polls _ _ _ _ Hb) as [Hl Hsp].
  destruct (run_chan_ops_spec (polls (log_ c)) s _ Hs Hl) as (s' & Hr & Hi). rewrite Hsp in Hi.
  exists s'. split; [done|]. intros ev Hev. rewrite (p_watched _ _ _ _ _ Hi Hev), lookup_singleton_Some.
  unfold reg_of. destruct (state_ c), (addedToLoop_ (channel_ c)); naive_solver.
Qed.

Lemma connection_polls_witness :
  watched (snd (run_chan_ops (polls (log_ (snd (run_events echo_env [EvEstablished] (TcpConnection_new 7)))))
    (fresh_heap [7], EPollPoller_new []))) 7 = Some (0%nat, kReadEvent) ∧
  safe (run_events echo_env echo_session) (TcpConnection_new 7) (λ _ c,
    ∃ s', run_chan_ops (polls (log_ c)) (fresh_heap [7], EPollPoller_new []) = (Ret (), s')).
Proof.
  split; [vm_compute; reflexivity|]. eapply safe_mono.
  - exact (connection_polls echo_env echo_env_ok 7 ltac:(lia) echo_session echo_session_legal
      (fresh_heap [7], EPollPoller_new []) (ep_inv_fresh [7])).
  - intros [] c (s' & Hs & _). exists s'. exact Hs.
Defined.
