(* ===== verification/TimerQueue.v ===== *)
(** * Timers (master/net/TimerQueue.h, TimerQueue.cc, Timer.h, Timer.cc, TimerId.h)

    Timers are heap objects named by their address, which the allocator may
    use again after a [delete]; a [TimerId] is an address and a sequence
    number.  [timers_] is a [std::set] of (expiration, address) pairs, here the
    sorted list, [activeTimers_] one of (address, sequence) pairs, here a
    finite set.  The clock, the allocator, the kernel's timer and the callbacks
    are an environment: functions of the queue's state, whose counter [ticks_]
    makes any behaviour expressible; the clock ([gettimeofday]) may be set back.
    An interval is in whole microseconds.  The timerfd runs on another clock,
    CLOCK_MONOTONIC: of it the state has the duration it was armed with and what
    the wall clock said then; when it has run out is the kernel's answer. *)
From S2P Require Import Prelude Timestamp.
Local Open Scope Z_scope.

(** [Timer]; the callback is a name. *)
Record Timer := MkTimer {
  callback_ : nat;
  expiration_ : Z;
  interval_ : Z;
  sequence_ : Z;
}.
Definition repeat_ (t : Timer) : bool := 0 <? interval_ t.

(** A [TimerId]. *)
Abbreviation TimerId := (Z * Z)%type.
(** An [Entry] of [timers_]. *)
Abbreviation Entry := (Z * Z)%type.

(** What other threads ask the loop for. *)
Inductive tfunctor := FAddTimer (p : Z) | FCancel (id : TimerId).

Record TimerQueue := MkQueue {
  heap_ : gmap Z Timer;
  s_numCreated_ : Z;
  timers_ : list Entry;
  activeTimers_ : gset (Z * Z);
  callingExpiredTimers_ : bool;
  cancelingTimers_ : gset (Z * Z);
  (** Armed: the wall clock at that moment, and the microseconds asked for. *)
  timerfd_ : option (Z * Z);
  pendingFunctors_ : list tfunctor;
  clock_ : Z;
  ticks_ : nat;
  (** History: timers run (sequence number, time); [cancel] calls that have
      reached the loop's thread. *)
  runs_ : list (Z * Z);
  cancels_ : list TimerId;
  (** Timers whose [addTimer], in another thread, has still to read the
      sequence number. *)
  returning_ : list TimerId;
}.

Definition TimerQueue_new : TimerQueue := MkQueue ∅ 0 [] ∅ false ∅ None [] 0 0 [] [] [].

Definition set_heap h q := MkQueue h (s_numCreated_ q) (timers_ q) (activeTimers_ q) (callingExpiredTimers_ q)
  (cancelingTimers_ q) (timerfd_ q) (pendingFunctors_ q) (clock_ q) (ticks_ q) (runs_ q) (cancels_ q) (returning_ q).
Definition set_created n q := MkQueue (heap_ q) n (timers_ q) (activeTimers_ q) (callingExpiredTimers_ q)
  (cancelingTimers_ q) (timerfd_ q) (pendingFunctors_ q) (clock_ q) (ticks_ q) (runs_ q) (cancels_ q) (returning_ q).
Definition set_timers l q := MkQueue (heap_ q) (s_numCreated_ q) l (activeTimers_ q) (callingExpiredTimers_ q)
  (cancelingTimers_ q) (timerfd_ q) (pendingFunctors_ q) (clock_ q) (ticks_ q) (runs_ q) (cancels_ q) (returning_ q).
Definition set_active s q := MkQueue (heap_ q) (s_numCreated_ q) (timers_ q) s (callingExpiredTimers_ q)
  (cancelingTimers_ q) (timerfd_ q) (pendingFunctors_ q) (clock_ q) (ticks_ q) (runs_ q) (cancels_ q) (returning_ q).
Definition set_calling b q := MkQueue (heap_ q) (s_numCreated_ q) (timers_ q) (activeTimers_ q) b
  (cancelingTimers_ q) (timerfd_ q) (pendingFunctors_ q) (clock_ q) (ticks_ q) (runs_ q) (cancels_ q) (returning_ q).
Definition set_canceling s q := MkQueue (heap_ q) (s_numCreated_ q) (timers_ q) (activeTimers_ q)
  (callingExpiredTimers_ q) s (timerfd_ q) (pendingFunctors_ q) (clock_ q) (ticks_ q) (runs_ q) (cancels_ q) (returning_ q).
Definition set_timerfd d q := MkQueue (heap_ q) (s_numCreated_ q) (timers_ q) (activeTimers_ q)
  (callingExpiredTimers_ q) (cancelingTimers_ q) d (pendingFunctors_ q) (clock_ q) (ticks_ q) (runs_ q) (cancels_ q) (returning_ q).
Definition set_pending fs q := MkQueue (heap_ q) (s_numCreated_ q) (timers_ q) (activeTimers_ q)
  (callingExpiredTimers_ q) (cancelingTimers_ q) (timerfd_ q) fs (clock_ q) (ticks_ q) (runs_ q) (cancels_ q) (returning_ q).
Definition set_clock t q := MkQueue (heap_ q) (s_numCreated_ q) (timers_ q) (activeTimers_ q)
  (callingExpiredTimers_ q) (cancelingTimers_ q) (timerfd_ q) (pendingFunctors_ q) t (S (ticks_ q)) (runs_ q) (cancels_ q) (returning_ q).
Definition add_run r q := MkQueue (heap_ q) (s_numCreated_ q) (timers_ q) (activeTimers_ q)
  (callingExpiredTimers_ q) (cancelingTimers_ q) (timerfd_ q) (pendingFunctors_ q) (clock_ q) (ticks_ q)
  (runs_ q ++ [r]) (cancels_ q) (returning_ q).

Definition logged id q := MkQueue (heap_ q) (s_numCreated_ q) (timers_ q) (activeTimers_ q) (callingExpiredTimers_ q)
  (cancelingTimers_ q) (timerfd_ q) (pendingFunctors_ q) (clock_ q) (ticks_ q) (runs_ q) (cancels_ q ++ [id]) (returning_ q).
Definition set_returning l q := MkQueue (heap_ q) (s_numCreated_ q) (timers_ q) (activeTimers_ q) (callingExpiredTimers_ q)
  (cancelingTimers_ q) (timerfd_ q) (pendingFunctors_ q) (clock_ q) (ticks_ q) (runs_ q) (cancels_ q) l.

(** What a callback does with its loop's timers: [runAt]/[runEvery], [cancel]. *)
Inductive top := TAdd (cb : nat) (when interval : Z) | TCancel (id : TimerId).

Record Env := {
  malloc_ : TimerQueue → option Z;
  now_ : TimerQueue → Z;
  fired_ : TimerQueue → bool;
  run_ : nat → TimerQueue → list top;
}.

Definition UINTPTR_MAX : Z := 2 ^ 64 - 1.

(** ** The sorted set of entries *)
Definition entry_lt (a b : Entry) : bool := (a.1 <? b.1) || negb (b.1 <? a.1) && (a.2 <? b.2).

(** [std::set::insert] *)
Fixpoint entry_insert (e : Entry) (l : list Entry) : list Entry * bool :=
  match l with
  | [] => ([e], true)
  | x :: l' =>
      if entry_lt e x then (e :: l, true)
      else if entry_lt x e then (let r := entry_insert e l' in (x :: r.1, r.2))
      else (l, false)
  end.

(** [std::set::erase(key)] *)
Definition entry_erase (e : Entry) (l : list Entry) : list Entry * Z :=
  let l' := filter (λ x, entry_lt e x || entry_lt x e = true) l in (l', zlen l - zlen l').

(** The entries before and from [lower_bound(s)]. *)
Fixpoint lower_bound (s : Entry) (l : list Entry) : list Entry * list Entry :=
  match l with
  | [] => ([], [])
  | x :: l' => if entry_lt x s then (let r := lower_bound s l' in (x :: r.1, r.2)) else ([], l)
  end.

Abbreviation tq := (ST TimerQueue).

Definition deref (p : Z) : tq Timer := q ← st_get; lift (or_undef (heap_ q !! p)).
Definition assertQ (b : TimerQueue → bool) : tq unit := λ q, (assert_ (b q), q).
Definition same_size (q : TimerQueue) : bool := zlen (timers_ q) =? Z.of_nat (size (activeTimers_ q)).

(** [Timer::restart(now)]: the timer's new expiration. *)
Definition restart (t : Timer) (now : Z) : outcome Timer :=
  if repeat_ t then
    e ← addTime now (interval_ t);
    Ret (MkTimer (callback_ t) e (interval_ t) (sequence_ t))
  else Ret (MkTimer (callback_ t) Timestamp_invalid (interval_ t) (sequence_ t)).

(** [howMuchTimeFromNow(when)]: seconds and nanoseconds, at least 100us. *)
Definition howMuchTimeFromNow (when now : Z) : outcome (Z * Z) :=
  _ ← defined (in_sb 64 (when - now));
  let microseconds := if when - now <? 100 then 100 else when - now in
  Ret (Z.quot microseconds kMicroSecondsPerSecond, Z.rem microseconds kMicroSecondsPerSecond * 1000).

Section Queue.
Context (env : Env).

(** [Timestamp::now()] *)
Definition now : tq Z := q ← st_get; st_put (set_clock (now_ env q) q) ;; mret (now_ env q).

(** [resetTimerfd]: [timerfd_settime] with a relative time. *)
Definition resetTimerfd (expiration : Z) : tq unit :=
  t ← now;
  ts ← lift (howMuchTimeFromNow expiration t);
  st_modify (set_timerfd (Some (t, ts.1 * kMicroSecondsPerSecond + Z.quot ts.2 1000))).

(** [readTimerfd]: a timer that has run out is disarmed by the read; if it has
    not, nothing is there to read. *)
Definition readTimerfd : tq unit :=
  q ← st_get;
  if fired_ env q then st_put (set_timerfd None q) else mret ().

Definition insert (p : Z) : tq bool :=
  assertQ same_size ;;
  t ← deref p;
  let when := expiration_ t in
  q ← st_get;
  let earliestChanged := match timers_ q with [] => true | x :: _ => when <? x.1 end in
  let r := entry_insert (when, p) (timers_ q) in
  st_modify (set_timers r.1) ;;
  assertQ (λ _, r.2) ;;
  assertQ (λ q, negb (bool_decide ((p, sequence_ t) ∈ activeTimers_ q))) ;;
  st_modify (λ q, set_active ({[(p, sequence_ t)]} ∪ activeTimers_ q) q) ;;
  assertQ same_size ;;
  mret earliestChanged.

Definition addTimerInLoop (p : Z) : tq unit :=
  earliestChanged ← insert p;
  if (earliestChanged : bool) then t ← deref p; resetTimerfd (expiration_ t) else mret ().

Definition cancelInLoop (id : TimerId) : tq unit :=
  assertQ same_size ;;
  q ← st_get;
  (if bool_decide (id ∈ activeTimers_ q) then
     t ← deref id.1;
     let r := entry_erase (expiration_ t, id.1) (timers_ q) in
     st_modify (set_timers r.1) ;;
     assertQ (λ _, r.2 =? 1) ;;
     st_modify (λ q, set_heap (delete id.1 (heap_ q)) q) ;;
     st_modify (λ q, set_active (activeTimers_ q ∖ {[id]}) q)
   else if callingExpiredTimers_ q then
     st_modify (λ q, set_canceling ({[id]} ∪ cancelingTimers_ q) q)
   else mret ()) ;;
  assertQ same_size.

(** [new Timer(cb, when, interval)] *)
Definition Timer_new (cb : nat) (when interval : Z) : tq Z :=
  q ← st_get;
  match malloc_ env q with
  | None => lift (Throw bad_alloc)
  | Some p =>
      let seq := s_numCreated_ q + 1 in
      st_put (set_heap (<[p := MkTimer cb when interval seq]> (heap_ q)) (set_created seq q)) ;;
      mret p
  end.

(** [addTimer] and [cancel] in the loop's thread; the identifier is read off the
    timer after the call. *)
Definition addTimer (cb : nat) (when interval : Z) : tq TimerId :=
  p ← Timer_new cb when interval;
  addTimerInLoop p ;;
  t ← deref p;
  mret (p, sequence_ t).
Definition cancel (id : TimerId) : tq unit := st_modify (logged id) ;; cancelInLoop id.

Definition run_top (o : top) : tq unit :=
  match o with
  | TAdd cb when interval => addTimer cb when interval ;; mret ()
  | TCancel id => cancel id
  end.

Fixpoint run_tops (os : list top) : tq unit :=
  match os with
  | [] => mret ()
  | o :: os' => run_top o ;; run_tops os'
  end.

(** From another thread: the timer is allocated there, the rest is queued... *)
Definition remote (o : top) : tq unit :=
  match o with
  | TAdd cb when interval =>
      p ← Timer_new cb when interval;
      st_modify (λ q, set_pending (pendingFunctors_ q ++ [FAddTimer p]) q) ;;
      st_modify (λ q, set_returning ((p, s_numCreated_ q) :: returning_ q) q)
  | TCancel id => st_modify (λ q, set_pending (pendingFunctors_ q ++ [FCancel id]) q)
  end.

(** ... and later the sequence number is read there for the [TimerId]. *)
Definition remote_return (id : TimerId) : tq TimerId :=
  st_modify (λ q, set_returning (filter (λ x, x ≠ id) (returning_ q)) q) ;;
  t ← deref id.1;
  mret (id.1, sequence_ t).

Definition run_functor : tq unit :=
  q ← st_get;
  match pendingFunctors_ q with
  | [] => mret ()
  | FAddTimer p :: fs => st_put (set_pending fs q) ;; addTimerInLoop p
  | FCancel id :: fs => st_put (set_pending fs q) ;; cancel id
  end.

(** ** The expired timers *)
Fixpoint erase_active (expired : list Entry) : tq unit :=
  match expired with
  | [] => mret ()
  | e :: expired' =>
      t ← deref e.2;
      assertQ (λ q, bool_decide ((e.2, sequence_ t) ∈ activeTimers_ q)) ;;
      st_modify (λ q, set_active (activeTimers_ q ∖ {[(e.2, sequence_ t)]}) q) ;;
      erase_active expired'
  end.

Definition getExpired (t : Z) : tq (list Entry) :=
  assertQ same_size ;;
  q ← st_get;
  let r := lower_bound (t, UINTPTR_MAX) (timers_ q) in
  assertQ (λ _, match r.2 with [] => true | x :: _ => t <? x.1 end) ;;
  st_modify (set_timers r.2) ;;
  erase_active r.1 ;;
  assertQ same_size ;;
  mret r.1.

(** [it.second->run()] for each of them. *)
Fixpoint run_expired (t : Z) (expired : list Entry) : tq unit :=
  match expired with
  | [] => mret ()
  | e :: expired' =>
      tm ← deref e.2;
      st_modify (add_run (sequence_ tm, t)) ;;
      q ← st_get;
      run_tops (run_ env (callback_ tm) q) ;;
      run_expired t expired'
  end.

Fixpoint reset_loop (t : Z) (expired : list Entry) : tq unit :=
  match expired with
  | [] => mret ()
  | e :: expired' =>
      tm ← deref e.2;
      q ← st_get;
      (if repeat_ tm && negb (bool_decide ((e.2, sequence_ tm) ∈ cancelingTimers_ q)) then
         tm' ← lift (restart tm t);
         st_modify (λ q, set_heap (<[e.2 := tm']> (heap_ q)) q) ;;
         insert e.2 ;;
         mret ()
       else st_modify (λ q, set_heap (delete e.2 (heap_ q)) q)) ;;
      reset_loop t expired'
  end.

Definition reset (expired : list Entry) (t : Z) : tq unit :=
  reset_loop t expired ;;
  q ← st_get;
  nextExpire ← match timers_ q with
               | [] => mret Timestamp_invalid
               | e :: _ => tm ← deref e.2; mret (expiration_ tm)
               end;
  if valid nextExpire then resetTimerfd nextExpire else mret ().

Definition handleRead : tq unit :=
  t ← now;
  readTimerfd ;;
  expired ← getExpired t;
  st_modify (set_calling true) ;;
  st_modify (set_canceling ∅) ;;
  run_expired t expired ;;
  st_modify (set_calling false) ;;
  reset expired t.

(** ** Histories of a queue *)
Inductive tevent := EAct (o : top) | ERemote (o : top) | EReturn (id : TimerId) | EFunctor | ETimerfd.

Definition run_event (e : tevent) : tq unit :=
  match e with
  | EAct o => run_top o
  | ERemote o => remote o
  | EReturn id => remote_return id ;; mret ()
  | EFunctor => run_functor
  | ETimerfd => handleRead
  end.

Fixpoint run_events (es : list tevent) : tq unit :=
  match es with
  | [] => mret ()
  | e :: es' => run_event e ;; run_events es'
  end.
End Queue.

(** ** The sorted set *)
Definition sorted (l : list Entry) : Prop := StronglySorted (λ a b, entry_lt a b = true) l.

Lemma entry_lt_spec a b : entry_lt a b = true ↔ a.1 < b.1 ∨ a.1 = b.1 ∧ a.2 < b.2.
Proof. unfold entry_lt. rewrite orb_true_iff, andb_true_iff, negb_true_iff, !Z.ltb_lt, Z.ltb_ge. lia. Qed.

Lemma entry_lt_trans a b c : entry_lt a b = true → entry_lt b c = true → entry_lt a c = true.
Proof. rewrite !entry_lt_spec. lia. Qed.

Lemma entry_total a b : a ≠ b → entry_lt a b = true ∨ entry_lt b a = true.
Proof. destruct a as [x y], b as [z w]. rewrite !entry_lt_spec. simpl. intros Hne.
  destruct (decide (x = z)) as [->|]; [|lia]. destruct (decide (y = w)) as [->|]; [done|lia]. Qed.

Lemma entry_lt_irrefl a : entry_lt a a = false.
Proof. destruct (entry_lt a a) eqn:E; [|done]. apply entry_lt_spec in E. lia. Qed.

Lemma sorted_NoDup l : sorted l → NoDup l.
Proof.
  induction 1 as [|x l Hl IH Hx]; constructor; [|done]. intros Hin.
  rewrite Forall_forall in Hx. specialize (Hx x Hin). by rewrite entry_lt_irrefl in Hx.
Qed.

Lemma entry_insert_spec e l :
  sorted l → e ∉ l → ∃ l', entry_insert e l = (l', true) ∧ sorted l' ∧ l' ≡ₚ e :: l.
Proof.
  induction 1 as [|x l Hl IH Hx]; intros He; cbn [entry_insert].
  { exists [e]. split; [done|]. split; [by repeat constructor|done]. }
  apply not_elem_of_cons in He as [Hne He].
  destruct (entry_lt e x) eqn:E1.
  - exists (e :: x :: l). split; [done|]. split; [|done]. constructor; [by constructor|].
    constructor; [done|]. eapply Forall_impl; [exact Hx|]. intros y Hy. by eapply entry_lt_trans.
  - destruct (entry_lt x e) eqn:E2; [|destruct (entry_total e x Hne); congruence].
    destruct (IH He) as (l' & Hi & Hs & Hp). exists (x :: l'). rewrite Hi. split; [done|].
    split; [|rewrite Hp; apply perm_swap]. constructor; [done|]. rewrite Hp. by constructor.
Qed.

Lemma entry_erase_spec e l :
  sorted l → e ∈ l → ∃ l', entry_erase e l = (l', 1) ∧ sorted l' ∧ l ≡ₚ e :: l'.
Proof.
  intros Hs He. unfold entry_erase.
  set (l' := filter (λ x, entry_lt e x || entry_lt x e = true) l).
  assert (l ≡ₚ e :: l') as Hp.
  { apply NoDup_Permutation; [by apply sorted_NoDup| |].
    - constructor; [|by apply NoDup_filter, sorted_NoDup].
      intros [Hx _]%list_elem_of_filter. by rewrite entry_lt_irrefl in Hx.
    - intros x. rewrite elem_of_cons. unfold l'. rewrite list_elem_of_filter. split.
      + intros Hx. destruct (decide (x = e)) as [->|Hne]; [by left|right]. split; [|done].
        apply orb_true_iff. destruct (entry_total e x); auto.
      + intros [->|[_ ?]]; done. }
  exists l'. split; [|split; [by apply StronglySorted_filter|done]].
  f_equal. apply Permutation_length in Hp. unfold zlen. rewrite Hp. simpl. lia.
Qed.

Lemma lower_bound_spec t l :
  sorted l → (∀ e, e ∈ l → e.2 < UINTPTR_MAX) →
  ∃ l1 l2, lower_bound (t, UINTPTR_MAX) l = (l1, l2) ∧ l = l1 ++ l2 ∧
    (∀ e, e ∈ l1 → e.1 ≤ t) ∧ (∀ e, e ∈ l2 → t < e.1) ∧ sorted l2.
Proof.
  induction 1 as [|x l Hl IH Hx]; intros Ha; cbn [lower_bound].
  { exists [], []. split; [done|]. split; [done|]. split; [by intros ? ?%not_elem_of_nil|].
    split; [by intros ? ?%not_elem_of_nil|constructor]. }
  destruct (entry_lt x (t, UINTPTR_MAX)) eqn:E.
  - destruct IH as (l1 & l2 & Hb & -> & H1 & H2 & H3); [intros e He; apply Ha; by right|].
    exists (x :: l1), l2. rewrite Hb. split; [done|]. split; [done|].
    apply entry_lt_spec in E. simpl in E. split; [|done].
    intros e [->|He]%elem_of_cons; [lia|by apply H1].
  - exists [], (x :: l). split; [done|]. split; [done|]. split; [by intros ? ?%not_elem_of_nil|].
    assert (t < x.1) as Ht.
    { assert (x.2 < UINTPTR_MAX) by (apply Ha; left).
      destruct (decide (t < x.1)) as [|Hge]; [done|].
      assert (entry_lt x (t, UINTPTR_MAX) = true) as Hlt by (apply entry_lt_spec; simpl; lia). congruence. }
    split; [|by constructor]. intros e [->|He]%elem_of_cons; [done|].
    rewrite Forall_forall in Hx. specialize (Hx e He). apply entry_lt_spec in Hx. lia.
Qed.

(** ** The invariant

    [exp] are the addresses of the timers a running [handleRead] holds. *)
Definition seq_of (h : gmap Z Timer) (p : Z) : Z := from_option sequence_ 0 (h !! p).
Definition id_of (h : gmap Z Timer) (e : Entry) : TimerId := (e.2, seq_of h e.2).
Definition ids (h : gmap Z Timer) (l : list Entry) : gset (Z * Z) := list_to_set (id_of h <$> l).

Definition added (fs : list tfunctor) : list Z :=
  omap (λ f, match f with FAddTimer p => Some p | FCancel _ => None end) fs.
Definition owned (exp : list Z) (q : TimerQueue) : list Z :=
  (timers_ q).*2 ++ exp ++ added (pendingFunctors_ q).

(** A valid time stamp, and an interval, whose sum stays in [int64_t]. *)
Definition timer_ok (n : Z) (p : Z) (t : Timer) : Prop :=
  0 < p < UINTPTR_MAX ∧ 0 < sequence_ t ≤ n ∧ 0 < expiration_ t ≤ 2 ^ 62 ∧ interval_ t ≤ 2 ^ 61.

Record tq_inv (exp : list Z) (q : TimerQueue) : Prop := {
  q_sorted : sorted (timers_ q);
  q_nodup : NoDup (owned exp q);
  q_dom p : is_Some (heap_ q !! p) ↔ p ∈ owned exp q;
  q_when e : e ∈ timers_ q → expiration_ <$> heap_ q !! e.2 = Some e.1;
  q_active : activeTimers_ q = ids (heap_ q) (timers_ q);
  q_ok p t : heap_ q !! p = Some t → timer_ok (s_numCreated_ q) p t;
  q_inj p p' t t' : heap_ q !! p = Some t → heap_ q !! p' = Some t' → sequence_ t = sequence_ t' → p = p';
  q_clock : 0 ≤ clock_ q ≤ 2 ^ 61;
  q_created : 0 ≤ s_numCreated_ q;
}.

(** The timerfd is armed for every timer: for not longer than its expiration
    was away by the wall clock when it was armed, or for 100us. *)
Definition armed (q : TimerQueue) : Prop :=
  timers_ q = [] ∨ ∃ t d, timerfd_ q = Some (t, d) ∧ ∀ e, e ∈ timers_ q → d ≤ Z.max 100 (e.1 - t).

(** The timer is gone for good. *)
Definition dead (s : Z) (q : TimerQueue) : Prop :=
  s ≤ s_numCreated_ q ∧ ∀ p t, heap_ q !! p = Some t → sequence_ t ≠ s.

(** What every operation but [handleRead] leaves: the expired timers, the
    record of runs; no timer comes back; and while callbacks run, the expired
    timers that have been cancelled are exactly those noted. *)
Record kept (exp : list Z) (q q' : TimerQueue) : Prop := {
  k_runs : runs_ q' = runs_ q;
  k_exp p : p ∈ exp → heap_ q' !! p = heap_ q !! p;
  k_created : s_numCreated_ q ≤ s_numCreated_ q';
  k_new p t : heap_ q' !! p = Some t →
    (∃ t0, heap_ q !! p = Some t0 ∧ sequence_ t0 = sequence_ t) ∨ s_numCreated_ q < sequence_ t;
  k_calling : callingExpiredTimers_ q' = callingExpiredTimers_ q;
  k_cancels : ∃ cs, cancels_ q' = cancels_ q ++ cs ∧ (callingExpiredTimers_ q = true → ∀ p t, p ∈ exp → heap_ q !! p = Some t →
    (p, sequence_ t) ∈ cancelingTimers_ q' ↔ (p, sequence_ t) ∈ cancelingTimers_ q ∨ (p, sequence_ t) ∈ cs);
}.

(** An operation without cancellations. *)
Lemma kept_plain exp q q' :
  runs_ q' = runs_ q → (∀ p, p ∈ exp → heap_ q' !! p = heap_ q !! p) → s_numCreated_ q ≤ s_numCreated_ q' →
  (∀ p t, heap_ q' !! p = Some t →
    (∃ t0, heap_ q !! p = Some t0 ∧ sequence_ t0 = sequence_ t) ∨ s_numCreated_ q < sequence_ t) →
  callingExpiredTimers_ q' = callingExpiredTimers_ q → cancels_ q' = cancels_ q →
  cancelingTimers_ q' = cancelingTimers_ q → kept exp q q'.
Proof.
  intros H1 H2 H3 H4 H5 H6 H7. split; try done. exists []. rewrite app_nil_r, H7. split; [done|].
  intros _ p t _ _. split; [by left|]. by intros [?|?%not_elem_of_nil].
Qed.

(** Nothing the record reads has changed. *)
Lemma kept_same exp q q' :
  runs_ q' = runs_ q → heap_ q' = heap_ q → s_numCreated_ q' = s_numCreated_ q →
  callingExpiredTimers_ q' = callingExpiredTimers_ q → cancels_ q' = cancels_ q →
  cancelingTimers_ q' = cancelingTimers_ q → kept exp q q'.
Proof. intros H1 H2 H3 H4 H5 H6. apply kept_plain; rewrite ?H2, ?H3; try done. eauto. Qed.

Lemma kept_refl exp q : kept exp q q.
Proof. by apply kept_same. Qed.

Lemma kept_trans exp q1 q2 q3 : kept exp q1 q2 → kept exp q2 q3 → kept exp q1 q3.
Proof.
  intros [H1 H2 H3 H4 H5 (cs & H6 & H7)] [G1 G2 G3 G4 G5 (ds & G6 & G7)]. split; [congruence| |lia| |congruence|].
  - intros p Hp. by rewrite G2, H2.
  - intros p t Ht. destruct (G4 p t Ht) as [(t0 & Ht0 & Hs)|?]; [|right; lia].
    destruct (H4 p t0 Ht0) as [(t1 & Ht1 & Hs1)|?]; [left; exists t1; split; [done|congruence]|right; lia].
  - exists (cs ++ ds). rewrite G6, H6, app_assoc. split; [done|]. intros Hc p t Hp Ht.
    rewrite elem_of_app, (G7 ltac:(congruence) p t Hp) by (by rewrite H2). rewrite (H7 Hc p t Hp Ht). tauto.
Qed.

Lemma kept_dead exp s q q' : kept exp q q' → dead s q → dead s q'.
Proof.
  intros Hk [Hs Hd]. split; [pose proof (k_created _ _ _ Hk); lia|]. intros p t Ht.
  destruct (k_new _ _ _ Hk p t Ht) as [(t0 & Ht0 & <-)|?]; [by eapply Hd|lia].
Qed.

Lemma ids_size h l : NoDup l.*2 → size (ids h l) = length l.
Proof.
  intros Hnd. unfold ids. rewrite size_list_to_set, length_fmap; [done|].
  induction l as [|e l IH]; [constructor|].
  cbn in *. apply NoDup_cons in Hnd as [Hni Hnd]. constructor; [|by apply IH].
  intros (e' & Heq & He')%list_elem_of_fmap. apply Hni. apply list_elem_of_fmap.
  exists e'. split; [|done]. unfold id_of in Heq. congruence.
Qed.

Lemma elem_of_ids h l x : x ∈ ids h l ↔ ∃ e, e ∈ l ∧ x = id_of h e.
Proof. unfold ids. rewrite elem_of_list_to_set, list_elem_of_fmap. naive_solver. Qed.

Lemma ids_perm h l l' : l ≡ₚ l' → ids h l = ids h l'.
Proof. intros Hp. apply set_eq. intros x. rewrite !elem_of_ids. by setoid_rewrite Hp. Qed.

Lemma ids_cons h e l : ids h (e :: l) = {[id_of h e]} ∪ ids h l.
Proof. done. Qed.

Lemma ids_ext h h' l : (∀ e, e ∈ l → seq_of h e.2 = seq_of h' e.2) → ids h l = ids h' l.
Proof.
  intros Heq. apply set_eq. intros x. rewrite !elem_of_ids. unfold id_of.
  split; intros (e & He & ->); exists e; (split; [done|]); [rewrite Heq|rewrite <-Heq]; done.
Qed.

Section Laws.
Context {exp : list Z}.
Implicit Types (q : TimerQueue).

Lemma inv_nodup_timers q : tq_inv exp q → NoDup (timers_ q).*2.
Proof. intros Hi. pose proof (q_nodup _ _ Hi) as Hnd. by apply NoDup_app in Hnd as [? _]. Qed.

Lemma inv_same_size q : tq_inv exp q → same_size q = true.
Proof.
  intros Hi. unfold same_size. rewrite (q_active _ _ Hi), ids_size by by apply inv_nodup_timers.
  by apply Z.eqb_refl.
Qed.

Lemma inv_timer q e : tq_inv exp q → e ∈ timers_ q → ∃ t, heap_ q !! e.2 = Some t ∧ expiration_ t = e.1.
Proof.
  intros Hi He. pose proof (q_when _ _ Hi e He) as Hw. apply fmap_Some in Hw as (t & Ht & ->). by exists t.
Qed.

Lemma inv_active q p s : tq_inv exp q → (p, s) ∈ activeTimers_ q →
  ∃ t, heap_ q !! p = Some t ∧ sequence_ t = s ∧ (expiration_ t, p) ∈ timers_ q.
Proof.
  intros Hi. rewrite (q_active _ _ Hi), elem_of_ids. intros ([w p'] & He & [= -> ->]).
  destruct (inv_timer q _ Hi He) as (t & Ht & Hw). cbn in *. exists t. unfold seq_of. rewrite Ht.
  split; [done|]. split; [done|]. by rewrite Hw.
Qed.

(** ** Insertion and removal *)
Definition is_earliest (w : Z) (l : list Entry) : bool := match l with [] => true | x :: _ => w <? x.1 end.

(** Moving one address from what is held to [timers_]. *)
Lemma inv_enter p t l' q :
  tq_inv (p :: exp) q → heap_ q !! p = Some t → sorted l' → l' ≡ₚ (expiration_ t, p) :: timers_ q →
  tq_inv exp (set_active (ids (heap_ q) l') (set_timers l' q)).
Proof.
  intros [H1 H2 H3 H4 H5 H6 H7 H8 H9] Ht Hs Hp.
  assert (owned exp (set_active (ids (heap_ q) l') (set_timers l' q)) ≡ₚ owned (p :: exp) q) as Ho.
  { unfold owned. cbn. rewrite Hp. cbn. by rewrite Permutation_middle. }
  split; cbn; try done.
  - by rewrite Ho.
  - intros p'. by rewrite H3, Ho.
  - intros e He. rewrite Hp in He. apply elem_of_cons in He as [->|He]; [|by apply H4]. cbn. by rewrite Ht.
Qed.

Lemma inv_exp_fresh p q : tq_inv (p :: exp) q → p ∉ (timers_ q).*2.
Proof.
  intros Hi. pose proof (q_nodup _ _ Hi) as Hnd. unfold owned in Hnd. apply NoDup_app in Hnd as (_ & Hd & _).
  intros Hp. apply (Hd p Hp). by left.
Qed.

Lemma insert_eq p t q :
  tq_inv (p :: exp) q → heap_ q !! p = Some t →
  ∃ l', insert p q = (Ret (is_earliest (expiration_ t) (timers_ q)), set_active (ids (heap_ q) l') (set_timers l' q)) ∧
    l' ≡ₚ (expiration_ t, p) :: timers_ q ∧
    tq_inv exp (set_active (ids (heap_ q) l') (set_timers l' q)).
Proof.
  intros Hi Ht. pose proof (inv_exp_fresh p q Hi) as Hfr.
  assert (∀ w, (w, p) ∉ timers_ q) as Hni.
  { intros w Hin. apply Hfr. apply list_elem_of_fmap. by exists (w, p). }
  destruct (entry_insert_spec (expiration_ t, p) (timers_ q) (q_sorted _ _ Hi) (Hni _)) as (l' & Hins & Hs & Hp).
  exists l'. pose proof (inv_enter p t l' q Hi Ht Hs Hp) as Hi'. split; [|by split].
  assert ((zlen (timers_ q) =? Z.of_nat (size (activeTimers_ q))) = true) as Hsz.
  { rewrite (q_active _ _ Hi), ids_size; [by apply Z.eqb_refl|].
    pose proof (q_nodup _ _ Hi) as Hnd. by apply NoDup_app in Hnd as [? _]. }
  pose proof (inv_same_size _ Hi') as Hsz'.
  unfold insert, assertQ, deref, mbind, ST_bind, st_get, lift, st_modify, mret, ST_ret.
  unfold same_size at 1. rewrite Hsz. cbn [assert_]. rewrite Ht. cbn [or_undef from_option]. rewrite Hins.
  cbn [fst snd assert_]. cbn [activeTimers_ set_timers].
  rewrite bool_decide_eq_false_2. 2:{ intros Hin. rewrite (q_active _ _ Hi), elem_of_ids in Hin.
    destruct Hin as (e & He & [= Hx _]). apply Hfr. apply list_elem_of_fmap. exists e. by split. }
  cbn [negb assert_].
  assert ({[(p, sequence_ t)]} ∪ activeTimers_ q = ids (heap_ q) l') as ->.
  { rewrite (q_active _ _ Hi), (ids_perm _ _ _ Hp), ids_cons. unfold id_of, seq_of. cbn. by rewrite Ht. }
  by rewrite Hsz'.
Qed.

(** [delete] of a held timer. *)
Lemma inv_delete p q : tq_inv (p :: exp) q → tq_inv exp (set_heap (delete p (heap_ q)) q).
Proof.
  intros Hi. pose proof (inv_exp_fresh p q Hi) as Hfr. destruct Hi as [H1 H2 H3 H4 H5 H6 H7 H8 H9].
  assert (owned (p :: exp) q ≡ₚ p :: owned exp q) as Ho.
  { unfold owned. cbn. by rewrite <-Permutation_middle. }
  rewrite Ho in H2. apply NoDup_cons in H2 as [Hp H2].
  assert (∀ e, e ∈ timers_ q → delete p (heap_ q) !! e.2 = heap_ q !! e.2) as Hsame.
  { intros e He. rewrite lookup_delete_ne; [done|]. intros ->. apply Hfr. apply list_elem_of_fmap. by exists e. }
  split; cbn; try done.
  - intros p'. rewrite lookup_delete_is_Some, H3, Ho, elem_of_cons. split; [naive_solver|].
    intros Hp'. split; [intros ->; by apply Hp|by right].
  - intros e He. rewrite Hsame by done. by apply H4.
  - rewrite H5. apply ids_ext. intros e He. unfold seq_of. by rewrite Hsame.
  - intros p' t [_ Ht]%lookup_delete_Some. by apply H6.
  - intros p1 p2 t1 t2 [_ Ht1]%lookup_delete_Some [_ Ht2]%lookup_delete_Some. by apply H7.
Qed.

(** A removed entry is held by the caller. *)
Lemma inv_leave e l' q :
  tq_inv exp q → sorted l' → timers_ q ≡ₚ e :: l' →
  tq_inv (e.2 :: exp) (set_active (ids (heap_ q) l') (set_timers l' q)).
Proof.
  intros [H1 H2 H3 H4 H5 H6 H7 H8 H9] Hs Hp.
  assert (owned (e.2 :: exp) (set_active (ids (heap_ q) l') (set_timers l' q)) ≡ₚ owned exp q) as Ho.
  { unfold owned. cbn. rewrite Hp. cbn. symmetry. apply Permutation_middle. }
  split; cbn; try done.
  - by rewrite Ho.
  - intros p'. by rewrite H3, Ho.
  - intros e' He'. apply H4. rewrite Hp. by right.
Qed.

(** The fields the invariant does not read. *)
Lemma inv_frame q q' :
  tq_inv exp q → timers_ q' = timers_ q → heap_ q' = heap_ q → activeTimers_ q' = activeTimers_ q →
  added (pendingFunctors_ q') = added (pendingFunctors_ q) → s_numCreated_ q' = s_numCreated_ q →
  0 ≤ clock_ q' ≤ 2 ^ 61 → tq_inv exp q'.
Proof.
  intros [H1 H2 H3 H4 H5 H6 H7 H8 H9] Ht Hh Ha Hp Hn Hc.
  assert (owned exp q' = owned exp q) as Ho by (unfold owned; by rewrite Ht, Hp).
  split; rewrite ?Ho, ?Hh, ?Ht, ?Ha, ?Hn; try done.
Qed.

(** [cancelInLoop] removes an active timer and deletes it; otherwise, during
    [handleRead], it notes the cancellation. *)
Lemma cancel_eq id q : tq_inv exp q →
  (∃ t l', heap_ q !! id.1 = Some t ∧ sequence_ t = id.2 ∧ timers_ q ≡ₚ (expiration_ t, id.1) :: l' ∧
     (let q' := set_active (activeTimers_ q ∖ {[id]}) (set_heap (delete id.1 (heap_ q)) (set_timers l' q)) in
     cancelInLoop id q = (Ret (), q') ∧ tq_inv exp q')) ∨
  ((id ∉ activeTimers_ q) ∧
   cancelInLoop id q = (Ret (), if callingExpiredTimers_ q then set_canceling ({[id]} ∪ cancelingTimers_ q) q else q)).
Proof.
  intros Hi. pose proof (inv_same_size _ Hi) as Hsz. destruct id as [p s]. cbn [fst snd].
  destruct (bool_decide ((p, s) ∈ activeTimers_ q)) eqn:Ea; [left|right].
  - pose proof Ea as Ha. apply bool_decide_eq_true in Ha. destruct (inv_active _ _ _ Hi Ha) as (t & Ht & Hseq & He).
    destruct (entry_erase_spec _ _ (q_sorted _ _ Hi) He) as (l' & Her & Hs & Hp).
    exists t, l'. split; [done|]. split; [done|]. split; [done|]. cbv zeta.
    pose proof (inv_delete _ _ (inv_leave _ l' q Hi Hs Hp)) as Hi'. cbn in Hi'.
    assert (ids (heap_ q) l' = activeTimers_ q ∖ {[(p, s)]}) as Hids.
    { assert ((p, s) ∉ ids (heap_ q) l') as Hn.
      { rewrite elem_of_ids. intros (e & He' & [= Hpe _]).
        pose proof (inv_nodup_timers _ Hi) as Hnd. rewrite Hp in Hnd. apply NoDup_cons in Hnd as [Hnd _].
        apply Hnd. apply list_elem_of_fmap. exists e. by split. }
      rewrite (q_active _ _ Hi), (ids_perm _ _ _ Hp), ids_cons. unfold id_of at 1, seq_of. cbn. rewrite Ht. cbn.
      rewrite Hseq. set_solver. }
    unfold set_heap, set_active, set_timers in Hi'. cbn in Hi'. rewrite Hids in Hi'.
    unfold set_active, set_heap, set_timers. cbn. split; [|exact Hi'].
    pose proof (inv_same_size _ Hi') as Hsz'.
    unfold cancelInLoop, assertQ, deref, mbind, ST_bind, st_get, lift, st_modify, mret, ST_ret.
    rewrite Hsz. cbn [assert_ fst snd]. rewrite Ea, Ht. cbn [or_undef from_option]. rewrite Her.
    cbn [fst snd Z.eqb Pos.eqb assert_]. unfold set_heap, set_active, set_timers. cbn. by rewrite Hsz'.
  - split; [by apply bool_decide_eq_false in Ea|].
    unfold cancelInLoop, assertQ, deref, mbind, ST_bind, st_get, lift, st_modify, mret, ST_ret.
    rewrite Hsz. cbn [assert_ fst snd]. rewrite Ea. destruct (callingExpiredTimers_ q); [|by rewrite Hsz].
    assert (same_size (set_canceling ({[(p, s)]} ∪ cancelingTimers_ q) q) = true) as -> by exact Hsz. done.
Qed.

Lemma armed_sub q q' :
  armed q → timerfd_ q' = timerfd_ q → (∀ e, e ∈ timers_ q' → e ∈ timers_ q) → armed q'.
Proof.
  intros Ha Hf Hsub. destruct Ha as [Hn|(t & d & Hd & Hall)].
  - left. rewrite Hn in Hsub. destruct (timers_ q') as [|e l]; [done|].
    by destruct (not_elem_of_nil e (Hsub e ltac:(left))).
  - right. exists t, d. split; [congruence|]. intros e He. exact (Hall e (Hsub e He)).
Qed.

(** A held timer is not in [activeTimers_]. *)
Lemma inv_exp_inactive q p s : tq_inv exp q → p ∈ exp → (p, s) ∉ activeTimers_ q.
Proof.
  intros Hi Hp Ha. destruct (inv_active _ _ _ Hi Ha) as (t & _ & _ & He).
  pose proof (q_nodup _ _ Hi) as Hnd. unfold owned in Hnd. apply NoDup_app in Hnd as (_ & Hd & _).
  apply (Hd p); [apply list_elem_of_fmap; by exists (expiration_ t, p)|]. apply elem_of_app. by left.
Qed.

Lemma cancel_ok id q :
  tq_inv exp q → safe (cancel id) q (λ _ q', tq_inv exp q' ∧ kept exp q q' ∧ (armed q → armed q')).
Proof.
  intros Hi0. unfold cancel. safe_step. set (q0 := logged id q).
  assert (tq_inv exp q0) as Hi by (eapply inv_frame; [exact Hi0|done..|apply Hi0]).
  destruct (cancel_eq id q0 Hi) as [(t & l' & Ht & Hs & Hp & Hc & Hi')|[Hn Hc]].
  - eapply safe_holds; [exact Hc|]. split; [exact Hi'|]. split.
    + assert (id.1 ∉ exp) as Hne.
      { intros Hpe. pose proof (q_nodup _ _ Hi) as Hnd. unfold owned in Hnd. rewrite Hp in Hnd. cbn in Hnd.
        apply NoDup_cons in Hnd as [Hnd _]. apply Hnd. rewrite !elem_of_app. auto. }
      split; cbn; try done.
      * intros p Hpe. rewrite lookup_delete_ne; [done|]. by intros <-.
      * intros p t' [_ Ht']%lookup_delete_Some. eauto.
      * exists [id]. split; [done|]. intros _ p t' Hpe _. split; [by left|].
        intros [?|<-%list_elem_of_singleton]; [done|]. done.
    + intros Ha. eapply armed_sub; [exact Ha|done|]. cbn. intros e He. cbn in Hp. rewrite Hp. by right.
  - eapply safe_holds; [exact Hc|]. cbn [q0 logged callingExpiredTimers_] in *. destruct (callingExpiredTimers_ q) eqn:Ec.
    + split; [eapply inv_frame; [exact Hi|done..|apply Hi]|]. split; [|done].
      split; cbn; [done|done|done|by eauto|done|]. exists [id]. split; [done|]. intros _ p t _ _.
      rewrite elem_of_union, elem_of_singleton, list_elem_of_singleton. tauto.
    + split; [done|]. split; [|done]. split; cbn; [done|done|done|by eauto|done|]. exists [id]. split; [done|]. congruence.
Qed.
End Laws.

(** ** Time, allocation and the members of the loop's thread *)
Definition legal_top (o : top) : bool :=
  match o with
  | TAdd _ when interval => (0 <? when) && (when <=? 2 ^ 61) && (interval <=? 2 ^ 61)
  | TCancel _ => true
  end.

(** The clock may jump, but stays between 1970 and the year 75000; [new]
    returns an unused address or throws; callbacks add valid timers. *)
Record env_ok (env : Env) : Prop := {
  now_range q : 0 ≤ now_ env q ≤ 2 ^ 61;
  malloc_fresh q p : malloc_ env q = Some p → heap_ q !! p = None ∧ 0 < p < UINTPTR_MAX;
  run_legal cb q : forallb legal_top (run_ env cb q) = true;
}.

Section Ops.
Context (env : Env) (Henv : env_ok env) (exp : list Z).

Lemma now_ok q (Q : Z → TimerQueue → Prop) :
  (0 ≤ now_ env q ≤ 2 ^ 61 → Q (now_ env q) (set_clock (now_ env q) q)) → safe (now env) q Q.
Proof. intros HQ. unfold now. safe_step. by apply HQ, (now_range _ Henv). Qed.

Lemma howMuchTime_eq when t : 0 ≤ t ≤ 2 ^ 61 → 0 < when ≤ 2 ^ 62 →
  ∃ ts, howMuchTimeFromNow when t = Ret ts ∧
    ts.1 * kMicroSecondsPerSecond + Z.quot ts.2 1000 = Z.max 100 (when - t) ∧ 0 ≤ ts.2 < 10 ^ 9.
Proof.
  intros Ht Hw. unfold howMuchTimeFromNow. rewrite (proj2 (in_sb_spec 64 _)) by (unfold in_s; lia). cbn [defined].
  set (us := if when - t <? 100 then 100 else when - t).
  assert (us = Z.max 100 (when - t)) as Hus by (unfold us; case_if; lia).
  eexists. split; [done|]. cbn [fst snd]. change kMicroSecondsPerSecond with 1000000.
  rewrite Z.quot_mul by done.
  pose proof (Z.quot_rem' us 1000000). pose proof (Z.rem_bound_pos us 1000000). lia.
Qed.

Lemma resetTimerfd_ok w q (Q : unit → TimerQueue → Prop) :
  0 < w ≤ 2 ^ 62 →
  (∀ t, 0 ≤ t ≤ 2 ^ 61 → Q () (set_timerfd (Some (t, Z.max 100 (w - t))) (set_clock t q))) →
  safe (resetTimerfd env w) q Q.
Proof.
  intros Hw HQ. unfold resetTimerfd. apply safe_bind, now_ok. intros Ht.
  destruct (howMuchTime_eq w (now_ env q)) as (ts & Hts & He & _); [done|done|].
  apply safe_bind. eapply safe_lift; [exact Hts|]. cbv beta. apply safe_modify. rewrite He. by apply HQ.
Qed.

Lemma is_earliest_spec w l : sorted l → is_earliest w l = true → ∀ e, e ∈ l → w ≤ e.1.
Proof.
  destruct 1 as [|x l Hl Hx]; intros Hw e He; [by apply not_elem_of_nil in He|]. cbn in Hw.
  apply Z.ltb_lt in Hw. apply elem_of_cons in He as [->|He]; [lia|].
  rewrite Forall_forall in Hx. specialize (Hx e He). apply entry_lt_spec in Hx. lia.
Qed.

Lemma not_earliest_spec w l : is_earliest w l = false → ∃ x, x ∈ l ∧ x.1 ≤ w.
Proof. destruct l as [|x l]; [done|]. cbn. intros Hw%Z.ltb_ge. exists x. split; [left|done]. Qed.

Lemma addTimerInLoop_ok p q :
  tq_inv (p :: exp) q →
  safe (addTimerInLoop env p) q (λ _ q', tq_inv exp q' ∧ kept exp q q' ∧ (armed q → armed q') ∧ heap_ q' = heap_ q).
Proof.
  intros Hi. assert (is_Some (heap_ q !! p)) as [t Ht].
  { apply (q_dom _ _ Hi). unfold owned. rewrite !elem_of_app. right. left. left. }
  destruct (insert_eq p t q Hi Ht) as (l' & Hins & Hp & Hi').
  unfold addTimerInLoop. apply safe_bind. eapply safe_holds; [exact Hins|]. cbv beta.
  destruct (q_ok _ _ Hi p t Ht) as (_ & _ & Hw & _).
  destruct (is_earliest (expiration_ t) (timers_ q)) eqn:Ee.
  - apply safe_bind. unfold deref. safe_step. eapply safe_lift; [cbn; by rewrite Ht|]. cbv beta.
    apply resetTimerfd_ok; [done|]. intros t1 Ht1.
    split; [eapply inv_frame; [exact Hi'|done..|cbn; lia]|].
    split; [by apply kept_same|]. split; [|done]. intros _. right. eexists _, _. split; [done|].
    cbn. intros e He. rewrite Hp in He. apply elem_of_cons in He as [->|He]; [cbn; lia|].
    pose proof (is_earliest_spec _ _ (q_sorted _ _ Hi) Ee e He). lia.
  - apply safe_ret. split; [exact Hi'|]. split; [by apply kept_same|]. split; [|done]. intros Ha.
    destruct (not_earliest_spec _ _ Ee) as (x & Hx & Hxw). destruct Ha as [Hn|(t1 & d & Hd & Hall)].
    { rewrite Hn in Hx. by apply not_elem_of_nil in Hx. }
    right. exists t1, d. split; [done|]. cbn. intros e He. rewrite Hp in He.
    apply elem_of_cons in He as [->|He]; [|by apply Hall]. specialize (Hall x Hx). cbn. lia.
Qed.

Definition new_timer (p : Z) (cb : nat) (when interval : Z) (q : TimerQueue) : TimerQueue :=
  set_heap (<[p := MkTimer cb when interval (s_numCreated_ q + 1)]> (heap_ q)) (set_created (s_numCreated_ q + 1) q).

Lemma inv_new_timer p cb when interval q :
  tq_inv exp q → heap_ q !! p = None → 0 < p < UINTPTR_MAX → 0 < when ≤ 2 ^ 61 → interval ≤ 2 ^ 61 →
  tq_inv (p :: exp) (new_timer p cb when interval q) ∧ kept exp q (new_timer p cb when interval q).
Proof.
  intros Hi Hp Hr Hw Hint. pose proof Hi as [H1 H2 H3 H4 H5 H6 H7 H8 H9].
  assert (p ∉ owned exp q) as Hno by (rewrite <-H3, Hp; by intros [? ?]).
  assert (owned (p :: exp) (new_timer p cb when interval q) ≡ₚ p :: owned exp q) as Ho.
  { unfold owned. cbn. by rewrite <-Permutation_middle. }
  assert (∀ p', p' ∈ owned exp q → heap_ (new_timer p cb when interval q) !! p' = heap_ q !! p') as Hsame.
  { intros p' Hp'. cbn. rewrite lookup_insert_ne; [done|]. by intros ->. }
  assert (∀ e, e ∈ timers_ q → e.2 ∈ owned exp q) as Htim.
  { intros e He. unfold owned. rewrite elem_of_app. left. apply list_elem_of_fmap. by exists e. }
  split; [split|apply kept_plain]; cbn [new_timer timers_ heap_ activeTimers_ s_numCreated_ clock_ runs_ set_heap set_created]; try done.
  - rewrite Ho. by constructor.
  - intros p'. rewrite Ho, elem_of_cons, <-H3, lookup_insert_is_Some'. naive_solver.
  - intros e He. rewrite <-(H4 e He). cbn in Hsame. by rewrite Hsame by auto.
  - rewrite H5. apply ids_ext. intros e He. unfold seq_of. cbn in Hsame. by rewrite Hsame by auto.
  - intros p' t' [[<- <-]|[_ Ht']]%lookup_insert_Some.
    + pose proof (q_clock _ _ Hi). assert (0 ≤ s_numCreated_ q) as Hn0 by done.
      split; [done|]. cbn. lia.
    + destruct (H6 p' t' Ht') as (? & ? & ? & ?). split; [done|]. lia.
  - intros p1 p2 t1 t2 Ht1 Ht2 Hs.
    apply lookup_insert_Some in Ht1 as [[<- <-]|[_ Ht1]], Ht2 as [[<- <-]|[_ Ht2]]; cbn in *.
    + done.
    + destruct (H6 _ _ Ht2) as (_ & ? & _). lia.
    + destruct (H6 _ _ Ht1) as (_ & ? & _). lia.
    + by eapply H7.
  - lia.
  - intros p' Hp'. apply (Hsame p'). unfold owned. rewrite !elem_of_app. auto.
  - lia.
  - intros p' t' [[<- <-]|[_ Ht']]%lookup_insert_Some; [right; cbn; lia|left; eauto].
Qed.

(** A call that may run out of memory, keeps the invariant and what [kept] and
    [armed] say. *)
Definition Fine (q : TimerQueue) (q' : TimerQueue) : Prop := tq_inv exp q' ∧ kept exp q q' ∧ (armed q → armed q').

Lemma Fine_trans q1 q2 q3 : Fine q1 q2 → Fine q2 q3 → Fine q1 q3.
Proof. intros (H1 & H2 & H3) (G1 & G2 & G3). split; [done|]. split; [by eapply kept_trans|auto]. Qed.

Lemma Timer_new_ok cb when interval q (Q : Z → TimerQueue → Prop) :
  tq_inv exp q → legal_top (TAdd cb when interval) = true →
  (∀ p, tq_inv (p :: exp) (new_timer p cb when interval q) → kept exp q (new_timer p cb when interval q) →
     Q p (new_timer p cb when interval q)) →
  safe (Timer_new env cb when interval) q Q.
Proof.
  intros Hi Hl HQ. cbn in Hl. bool_to_prop. unfold Timer_new. safe_step.
  destruct (malloc_ env q) as [p|] eqn:E; [|done]. destruct (malloc_fresh _ Henv q p E) as [Hf Hr].
  safe_step. destruct (inv_new_timer p cb when interval q Hi Hf Hr) as [Hi' Hk]; [lia|done|]. by apply HQ.
Qed.

Lemma run_top_ok o q : tq_inv exp q → legal_top o = true → safe (run_top env o) q (λ _ q', Fine q q').
Proof.
  intros Hi Hl. destruct o as [cb when interval|id]; cbn [run_top].
  - apply safe_bind. unfold addTimer. apply safe_bind, (Timer_new_ok cb when interval q); [done|done|]. intros p Hi1 Hk1.
    apply safe_bind. eapply safe_mono; [by apply addTimerInLoop_ok|]. intros [] q' (Hi' & Hk' & Ha' & Hh').
    apply safe_bind. unfold deref. safe_step. eapply safe_lift; [rewrite Hh'; cbn; by rewrite lookup_insert_eq|]. safe_step.
    split; [done|]. split; [by eapply kept_trans|]. intros Ha. apply Ha'.
    eapply armed_sub; [exact Ha|done|done].
  - by apply cancel_ok.
Qed.

Lemma run_tops_ok os q :
  tq_inv exp q → forallb legal_top os = true → safe (run_tops env os) q (λ _ q', Fine q q').
Proof.
  revert q. induction os as [|o os IH]; intros q Hi Hl.
  { split; [done|]. split; [apply kept_refl|done]. }
  cbn in *. apply andb_prop in Hl as [Hl1 Hl2]. apply safe_bind.
  eapply safe_mono; [by apply run_top_ok|]. intros [] q1 Hf1. pose proof Hf1 as (Hi1 & _).
  eapply safe_mono; [by apply IH|]. intros [] q2 Hf2. by eapply Fine_trans.
Qed.

Lemma tq_remote_ok o q : tq_inv exp q → legal_top o = true → safe (remote env o) q (λ _ q', Fine q q').
Proof.
  intros Hi Hl. destruct o as [cb when interval|id]; cbn [remote].
  - apply safe_bind, (Timer_new_ok cb when interval q); [done|done|]. intros p Hi1 Hk1. safe_step.
    split; [|split; [|intros Ha; eapply armed_sub; [exact Ha|done|done]]].
    + set (q1 := new_timer p cb when interval q) in *.
      assert (owned exp (set_pending (pendingFunctors_ q1 ++ [FAddTimer p]) q1) ≡ₚ owned (p :: exp) q1) as Ho.
      { unfold owned. cbn. unfold added. rewrite omap_app. cbn. rewrite !app_assoc, Permutation_app_comm. cbn.
        by rewrite <-!app_assoc, Permutation_middle. }
      destruct Hi1 as [H1 H2 H3 H4 H5 H6 H7 H8 H9]. split; try done.
      * change (NoDup (owned exp (set_pending (pendingFunctors_ q1 ++ [FAddTimer p]) q1))). by rewrite Ho.
      * intros p'. change (is_Some (heap_ q1 !! p') ↔ p' ∈ owned exp (set_pending (pendingFunctors_ q1 ++ [FAddTimer p]) q1)).
        rewrite Ho. apply H3.
    + eapply kept_trans; [exact Hk1|]. by apply kept_same.
  - apply safe_modify. split; [|split; [by apply kept_same|done]].
    eapply inv_frame; [exact Hi|done..| |done|apply Hi]. cbn. unfold added. rewrite omap_app. cbn. apply app_nil_r.
Qed.

(** The read of the sequence number, while the timer is there. *)
Lemma remote_return_ok id q : tq_inv exp q → is_Some (heap_ q !! id.1) → safe (remote_return id) q (λ _ q', Fine q q').
Proof.
  intros Hi [t Ht]. unfold remote_return. safe_step. unfold deref. safe_step. eapply safe_lift; [cbn; by rewrite Ht|]. safe_step.
  split; [eapply inv_frame; [exact Hi|done..|apply Hi]|]. split; [by apply kept_same|done].
Qed.

Lemma tq_run_functor_ok q : tq_inv exp q → safe (run_functor env) q (λ _ q', Fine q q').
Proof.
  intros Hi. unfold run_functor. safe_step. destruct (pendingFunctors_ q) as [|f fs] eqn:Ef.
  { safe_step. split; [done|]. split; [apply kept_refl|done]. }
  destruct f as [p|id]; safe_step.
  - assert (tq_inv (p :: exp) (set_pending fs q)) as Hi1.
    { destruct Hi as [H1 H2 H3 H4 H5 H6 H7 H8 H9].
      assert (owned (p :: exp) (set_pending fs q) ≡ₚ owned exp q) as Ho.
      { unfold owned. cbn. rewrite Ef. f_equiv. cbn. apply Permutation_middle. }
      split; try done; [by rewrite Ho|]. intros p'. rewrite Ho. apply H3. }
    eapply safe_mono; [by apply addTimerInLoop_ok|]. intros [] q' (Hi' & Hk' & Ha' & _). split; [done|].
    split; [|done]. eapply kept_trans; [|exact Hk']. by apply kept_same.
  - assert (tq_inv exp (set_pending fs q)) as Hi1.
    { eapply inv_frame; [exact Hi|done..| |done|apply Hi]. cbn. by rewrite Ef. }
    eapply safe_mono; [by apply (cancel_ok (exp:=exp))|]. intros [] q' (Hi' & Hk' & Ha'). split; [done|].
    split; [|done]. eapply kept_trans; [|exact Hk']. by apply kept_same.
Qed.
End Ops.

(** ** One round of [handleRead] *)
Section Round.
Context (env : Env) (Henv : env_ok env).
Implicit Types (q : TimerQueue).

(** What the invariant says while [getExpired] moves the due entries out: the
    entries are gone from [timers_], not yet from [activeTimers_]. *)
Lemma erase_active_eq due rest q :
  NoDup (due ++ rest).*2 → (∀ e, e ∈ due → is_Some (heap_ q !! e.2)) →
  activeTimers_ q = ids (heap_ q) (due ++ rest) →
  erase_active due q = (Ret (), set_active (ids (heap_ q) rest) q).
Proof.
  revert q. induction due as [|e due IH]; intros q Hnd Hh Ha.
  { cbn [erase_active app] in *. rewrite <-Ha. by destruct q. }
  destruct (Hh e) as [t Ht]; [by left|]. cbn [app fmap list_fmap] in Hnd. apply NoDup_cons in Hnd as [Hni Hnd].
  assert (id_of (heap_ q) e = (e.2, sequence_ t)) as Hid by (unfold id_of, seq_of; by rewrite Ht).
  assert ((e.2, sequence_ t) ∉ ids (heap_ q) (due ++ rest)) as Hn.
  { rewrite elem_of_ids. intros (e' & He' & [= Hx _]). apply Hni. apply list_elem_of_fmap. by exists e'. }
  cbn [erase_active]. unfold deref, assertQ, mbind, ST_bind, st_get, lift, st_modify. rewrite Ht.
  cbn [or_undef from_option]. rewrite Ha. cbn [app]. rewrite ids_cons, Hid.
  rewrite bool_decide_eq_true_2 by set_solver. cbn [assert_].
  rewrite IH; cbn; [done|done| |].
  - intros e' He'. apply Hh. by right.
  - set_solver.
Qed.

Lemma inv_leave_all due l2 q :
  tq_inv [] q → timers_ q = due ++ l2 → sorted l2 →
  tq_inv due.*2 (set_active (ids (heap_ q) l2) (set_timers l2 q)).
Proof.
  intros [H1 H2 H3 H4 H5 H6 H7 H8 H9] Ht Hs.
  assert (owned due.*2 (set_active (ids (heap_ q) l2) (set_timers l2 q)) ≡ₚ owned [] q) as Ho.
  { unfold owned. cbn. rewrite Ht, fmap_app, !app_assoc. apply Permutation_app_tail, Permutation_app_comm. }
  split; cbn; try done.
  - by rewrite Ho.
  - intros p. by rewrite H3, Ho.
  - intros e He. apply H4. rewrite Ht. apply elem_of_app. by right.
Qed.

Lemma inv_entry_addr q e : tq_inv [] q → e ∈ timers_ q → e.2 < UINTPTR_MAX.
Proof.
  intros Hi He. destruct (inv_timer q e Hi He) as (t & Ht & _).
  by destruct (q_ok _ _ Hi _ _ Ht) as ((_ & ?) & _).
Qed.

(** The due entries: those not after [t]. *)
Definition due_entries (t : Z) (l : list Entry) : list Entry := filter (λ e, e.1 ≤ t) l.

Lemma getExpired_eq t q :
  tq_inv [] q →
  ∃ l2, timers_ q = due_entries t (timers_ q) ++ l2 ∧ (∀ e, e ∈ l2 → t < e.1) ∧
    getExpired t q = (Ret (due_entries t (timers_ q)), set_active (ids (heap_ q) l2) (set_timers l2 q)) ∧
    tq_inv (due_entries t (timers_ q)).*2 (set_active (ids (heap_ q) l2) (set_timers l2 q)).
Proof.
  intros Hi. destruct (lower_bound_spec t (timers_ q) (q_sorted _ _ Hi)) as (l1 & l2 & Hb & Hl & H1 & H2 & H3).
  { intros e He. by apply (inv_entry_addr q). }
  assert (due_entries t (timers_ q) = l1) as Hdue.
  { unfold due_entries. rewrite Hl, filter_app, filter_all by done.
    assert (filter (λ e : Entry, e.1 ≤ t) l2 = []) as ->; [|by rewrite app_nil_r].
    clear -H2. induction l2 as [|x l2 IH]; [done|]. rewrite filter_cons_False.
    - apply IH. intros e He. apply H2. by right.
    - specialize (H2 x ltac:(left)). lia. }
  exists l2. rewrite Hdue. split; [done|]. split; [done|].
  pose proof (inv_leave_all l1 l2 q Hi Hl H3) as Hi'. split; [|done].
  pose proof (inv_same_size _ Hi) as Hsz. pose proof (inv_same_size _ Hi') as Hsz'.
  unfold getExpired. rewrite (ST_bind_eq _ _ q () q) by (unfold assertQ; by rewrite Hsz).
  rewrite (ST_bind_eq st_get _ q q q eq_refl). rewrite Hb. cbn [fst snd].
  assert (assert_ (match l2 with [] => true | x :: _ => t <? x.1 end) = Ret ()) as Hasr.
  { apply assert_true. destruct l2 as [|x l2]; [done|]. apply Z.ltb_lt, H2. left. }
  rewrite (ST_bind_eq _ _ q () q) by (unfold assertQ; by rewrite Hasr).
  rewrite (ST_bind_eq _ _ q () (set_timers l2 q)) by done.
  rewrite (ST_bind_eq _ _ _ () (set_active (ids (heap_ q) l2) (set_timers l2 q))).
  2:{ apply (erase_active_eq l1 l2 (set_timers l2 q)); cbn.
      - rewrite <-Hl. by apply (inv_nodup_timers (exp:=[])).
      - intros e He. destruct (inv_timer q e Hi) as (t0 & -> & _); [|done]. rewrite Hl. apply elem_of_app. by left.
      - rewrite <-Hl. apply Hi. }
  unfold assertQ, mbind, ST_bind. by rewrite Hsz'.
Qed.

(** What the callbacks leave: the held timers as they were; other timers come
    and go, but no deleted one comes back. *)
Definition with_runs (r : list (Z * Z)) (q : TimerQueue) : TimerQueue :=
  MkQueue (heap_ q) (s_numCreated_ q) (timers_ q) (activeTimers_ q) (callingExpiredTimers_ q)
    (cancelingTimers_ q) (timerfd_ q) (pendingFunctors_ q) (clock_ q) (ticks_ q) r (cancels_ q) (returning_ q).
Definition ages (exp : list Z) (q q' : TimerQueue) : Prop := kept exp (with_runs (runs_ q') q) q'.

Lemma ages_refl exp q : ages exp q q.
Proof. by apply kept_same. Qed.

Lemma ages_trans exp q1 q2 q3 : ages exp q1 q2 → ages exp q2 q3 → ages exp q1 q3.
Proof. intros [? H2 H3 H4 H5 H6] H. apply (kept_trans exp (with_runs (runs_ q3) q1) (with_runs (runs_ q3) q2)); [by split|done]. Qed.

Lemma kept_ages exp q q' : kept exp q q' → ages exp q q'.
Proof. intros [? H2 H3 H4 H5 H6]. by split. Qed.

Lemma run_expired_ok exp t l q :
  tq_inv exp q → (∀ e, e ∈ l → e.2 ∈ exp) →
  safe (run_expired env t l) q (λ _ q', tq_inv exp q' ∧ ages exp q q' ∧
    runs_ q' = runs_ q ++ ((λ e, (seq_of (heap_ q) e.2, t)) <$> l)).
Proof.
  revert q. induction l as [|e l IH]; intros q Hi Hl.
  { split; [done|]. split; [apply ages_refl|]. by rewrite app_nil_r. }
  assert (e.2 ∈ exp) as He by (apply Hl; left).
  assert (is_Some (heap_ q !! e.2)) as [tm Htm].
  { apply (q_dom _ _ Hi). unfold owned. rewrite !elem_of_app. auto. }
  cbn [run_expired]. apply safe_bind. unfold deref. safe_step. eapply safe_lift; [by rewrite Htm|].
  safe_step. set (q1 := add_run (sequence_ tm, t) q).
  assert (tq_inv exp q1) as Hi1 by (eapply inv_frame; [exact Hi|done..|apply Hi]).
  eapply safe_mono; [apply (run_tops_ok env Henv exp _ q1 Hi1), (run_legal _ Henv)|].
  intros [] q2 (Hi2 & Hk2 & _).
  eapply safe_mono; [apply (IH q2 Hi2); intros e' He'; apply Hl; by right|]. intros [] q3 (Hi3 & Hk3 & Hr3).
  split; [done|]. split.
  - apply (ages_trans exp q q2); [|done]. apply kept_ages in Hk2. destruct Hk2; by split.
  - rewrite Hr3, (k_runs _ _ _ Hk2). cbn. rewrite <-app_assoc. cbn. f_equal. f_equal.
    { unfold seq_of. by rewrite Htm. }
    apply list_fmap_ext. intros i e' He'%list_elem_of_lookup_2. unfold seq_of.
    rewrite (k_exp _ _ _ Hk2); [done|]. apply Hl. by right.
Qed.

(** ** Rescheduling *)
Definition restarted (t : Z) (tm : Timer) : Timer :=
  MkTimer (callback_ tm) (t + interval_ tm) (interval_ tm) (sequence_ tm).
Definition again (q : TimerQueue) (p : Z) (tm : Timer) : bool :=
  repeat_ tm && negb (bool_decide ((p, sequence_ tm) ∈ cancelingTimers_ q)).

Lemma inv_restart p t tm rest q :
  tq_inv (p :: rest) q → heap_ q !! p = Some tm → repeat_ tm = true → 0 ≤ t ≤ 2 ^ 61 →
  tq_inv (p :: rest) (set_heap (<[p := restarted t tm]> (heap_ q)) q).
Proof.
  intros Hi Htm Hr Ht. pose proof (inv_exp_fresh p q Hi) as Hfr. destruct Hi as [H1 H2 H3 H4 H5 H6 H7 H8 H9].
  apply Z.ltb_lt in Hr.
  assert (∀ e, e ∈ timers_ q → <[p := restarted t tm]> (heap_ q) !! e.2 = heap_ q !! e.2) as Hsame.
  { intros e He. rewrite lookup_insert_ne; [done|]. intros ->. apply Hfr. apply list_elem_of_fmap. by exists e. }
  assert (∀ p' t', <[p := restarted t tm]> (heap_ q) !! p' = Some t' →
    ∃ t0, heap_ q !! p' = Some t0 ∧ sequence_ t0 = sequence_ t') as Hseq.
  { intros p' t' [[<- <-]|[_ Ht']]%lookup_insert_Some; [by exists tm|by exists t']. }
  split; cbn; try done.
  - intros p'. rewrite <-(H3 p'), lookup_insert_is_Some'. split; [|by auto]. intros [<-|?]; [by exists tm|done].
  - intros e He. rewrite Hsame by done. by apply H4.
  - rewrite H5. apply ids_ext. intros e He. unfold seq_of. by rewrite Hsame.
  - intros p' t' [[<- <-]|[_ Ht']]%lookup_insert_Some; [|by apply H6].
    destruct (H6 _ _ Htm) as (? & ? & ? & ?). split; [done|]. split; [done|]. cbn. lia.
  - intros p1 p2 t1 t2 Ht1 Ht2 Hs. destruct (Hseq _ _ Ht1) as (u1 & Hu1 & E1), (Hseq _ _ Ht2) as (u2 & Hu2 & E2).
    apply (H7 p1 p2 u1 u2); [done|done|congruence].
Qed.

(** What the rest of [handleRead] does with the timers [l] it ran at [t]. *)
Record settled (t : Z) (l : list Entry) (q q' : TimerQueue) : Prop := {
  s_runs : runs_ q' = runs_ q;
  s_created : s_numCreated_ q' = s_numCreated_ q;
  s_cancel : cancelingTimers_ q' = cancelingTimers_ q;
  s_cancels : cancels_ q' = cancels_ q;
  s_other p : p ∉ l.*2 → heap_ q' !! p = heap_ q !! p;
  s_timers e : e ∈ timers_ q → e ∈ timers_ q';
  s_again e tm : e ∈ l → heap_ q !! e.2 = Some tm → again q e.2 tm = true →
    heap_ q' !! e.2 = Some (restarted t tm) ∧ (t + interval_ tm, e.2) ∈ timers_ q';
  s_gone e tm : e ∈ l → heap_ q !! e.2 = Some tm → again q e.2 tm = false → heap_ q' !! e.2 = None;
}.

Lemma reset_step t e l q :
  tq_inv (e :: l).*2 q → 0 ≤ t ≤ 2 ^ 61 →
  ∃ q1, reset_loop t (e :: l) q = reset_loop t l q1 ∧ tq_inv l.*2 q1 ∧ settled t [e] q q1.
Proof.
  intros Hi Ht. assert (is_Some (heap_ q !! e.2)) as [tm Htm].
  { apply (q_dom _ _ Hi). unfold owned. rewrite !elem_of_app. right. left. left. }
  cbn [fmap list_fmap] in Hi. cbn [reset_loop].
  rewrite (ST_bind_eq (deref e.2) _ q tm q) by (unfold deref, mbind, ST_bind, st_get, lift; by rewrite Htm).
  rewrite (ST_bind_eq st_get _ q q q eq_refl).
  change (repeat_ tm && negb (bool_decide ((e.2, sequence_ tm) ∈ cancelingTimers_ q))) with (again q e.2 tm).
  destruct (again q e.2 tm) eqn:Ea.
  - assert (repeat_ tm = true) as Hr by (unfold again in Ea; by apply andb_prop in Ea as [? _]).
    pose proof (inv_restart _ _ _ _ _ Hi Htm Hr Ht) as Hi1. set (q1 := set_heap _ q) in Hi1.
    assert (heap_ q1 !! e.2 = Some (restarted t tm)) as Htm1 by apply lookup_insert_eq.
    destruct (insert_eq e.2 (restarted t tm) q1 Hi1 Htm1) as (l' & Hins & Hp & Hi2).
    exists (set_active (ids (heap_ q1) l') (set_timers l' q1)).
    destruct (q_ok _ _ Hi _ _ Htm) as (_ & _ & _ & Hint).
    assert (restart tm t = Ret (restarted t tm)) as Hre.
    { unfold restart. rewrite Hr. unfold repeat_ in Hr. apply Z.ltb_lt in Hr.
      by rewrite addTime_in_range by (unfold in_s; lia). }
    split; [|split; [done|]].
    + rewrite Hre. rewrite (ST_bind_eq _ _ q () (set_active (ids (heap_ q1) l') (set_timers l' q1))); [done|].
      rewrite (ST_bind_eq (lift _) _ q (restarted t tm) q eq_refl).
      cbv beta. rewrite (ST_bind_eq (st_modify (λ q, set_heap (<[e.2 := restarted t tm]> (heap_ q)) q)) _ q () q1 eq_refl).
      by rewrite (ST_bind_eq _ _ _ _ _ Hins).
    + split; cbn [timers_ heap_ runs_ s_numCreated_ clock_ cancelingTimers_ set_active set_timers]; try done.
      * intros p Hpe. unfold q1. cbn. apply lookup_insert_ne. intros <-. apply Hpe. left.
      * intros e' He'. rewrite Hp. by right.
      * intros e' tm' ->%list_elem_of_singleton Htm' _. rewrite Htm in Htm'. injection Htm' as <-.
        split; [done|]. rewrite Hp. left.
      * intros e' tm' ->%list_elem_of_singleton Htm'. rewrite Htm in Htm'. injection Htm' as <-. congruence.
  - exists (set_heap (delete e.2 (heap_ q)) q). split; [|split; [by apply inv_delete|]].
    + by rewrite (ST_bind_eq (st_modify (λ q, set_heap (delete e.2 (heap_ q)) q)) _ q () (set_heap (delete e.2 (heap_ q)) q) eq_refl).
    + split; cbn; try done.
      * intros p Hpe. apply lookup_delete_ne. intros <-. apply Hpe. left.
      * intros e' tm' ->%list_elem_of_singleton Htm'. rewrite Htm in Htm'. injection Htm' as <-. congruence.
      * intros e' tm' ->%list_elem_of_singleton _ _. apply lookup_delete_eq.
Qed.

Lemma reset_loop_eq t l q :
  tq_inv l.*2 q → NoDup l.*2 → 0 ≤ t ≤ 2 ^ 61 →
  ∃ q', reset_loop t l q = (Ret (), q') ∧ tq_inv [] q' ∧ settled t l q q'.
Proof.
  revert q. induction l as [|e l IH]; intros q Hi Hnd Ht.
  { exists q. split; [done|]. split; [done|]. split; try done; by intros e tm ?%not_elem_of_nil. }
  destruct (reset_step t e l q Hi Ht) as (q1 & Heq & Hi1 & Hs1). cbn in Hnd. apply NoDup_cons in Hnd as [Hni Hnd].
  destruct (IH q1 Hi1 Hnd Ht) as (q2 & Heq2 & Hi2 & Hs2). exists q2. split; [|split; [done|]].
  { by rewrite Heq. }
  destruct Hs1 as [A1 A2 A4 A4' A5 A6 A7 A8], Hs2 as [B1 B2 B4 B4' B5 B6 B7 B8].
  assert (∀ e', e' ∈ l → heap_ q1 !! e'.2 = heap_ q !! e'.2) as Hsame.
  { intros e' He'. apply A5. cbn. rewrite list_elem_of_singleton. intros Heq'. apply Hni. rewrite <-Heq'.
    apply list_elem_of_fmap. by exists e'. }
  assert (∀ p tm, again q1 p tm = again q p tm) as Hag by (intros; unfold again; by rewrite A4).
  split; [congruence..| | | |].
  - intros p [Hp1 Hp2]%not_elem_of_cons. rewrite B5 by done. apply A5. cbn. by rewrite list_elem_of_singleton.
  - auto.
  - intros e' tm [->|He']%elem_of_cons Htm Ha.
    + destruct (A7 e tm) as [G1 G2]; [by left|done|done|]. split; [by rewrite B5|by apply B6].
    + apply B7; [done|by rewrite Hsame|by rewrite Hag].
  - intros e' tm [->|He']%elem_of_cons Htm Ha.
    + rewrite B5 by done. apply (A8 e tm); [by left|done|done].
    + apply (B8 e' tm); [done|by rewrite Hsame|by rewrite Hag].
Qed.

Lemma settled_old t l q q' p t' :
  (∀ p, p ∈ l.*2 → is_Some (heap_ q !! p)) → settled t l q q' → heap_ q' !! p = Some t' →
  ∃ t0, heap_ q !! p = Some t0 ∧ sequence_ t0 = sequence_ t'.
Proof.
  intros Hl Hs Ht'. destruct (decide (p ∈ l.*2)) as [Hp|Hp].
  - destruct (Hl p Hp) as [tm Htm]. apply list_elem_of_fmap in Hp as (e & -> & He).
    exists tm. split; [done|]. destruct (again q e.2 tm) eqn:Ea.
    + destruct (s_again _ _ _ _ Hs e tm He Htm Ea) as [Hx _]. rewrite Hx in Ht'. by injection Ht' as <-.
    + rewrite (s_gone _ _ _ _ Hs e tm He Htm Ea) in Ht'. done.
  - exists t'. split; [|done]. by rewrite <-(s_other _ _ _ _ Hs p Hp).
Qed.

Lemma settled_dead t l q q' s :
  (∀ p, p ∈ l.*2 → is_Some (heap_ q !! p)) → settled t l q q' → dead s q → dead s q'.
Proof.
  intros Hl Hs [Hn Hd]. split; [by rewrite (s_created _ _ _ _ Hs)|]. intros p t' Ht'.
  destruct (settled_old _ _ _ _ _ _ Hl Hs Ht') as (t0 & Ht0 & <-). by eapply Hd.
Qed.

(** [reset] arms the timerfd for the earliest timer. *)
Lemma rearm_ok q :
  tq_inv [] q →
  safe (q ← st_get;
        nextExpire ← match timers_ q with
                     | [] => mret Timestamp_invalid
                     | e :: _ => tm ← deref e.2; mret (expiration_ tm)
                     end;
        if valid nextExpire then resetTimerfd env nextExpire else mret ()) q
    (λ _ q', tq_inv [] q' ∧ armed q' ∧ runs_ q' = runs_ q ∧ heap_ q' = heap_ q ∧ timers_ q' = timers_ q ∧
      cancelingTimers_ q' = cancelingTimers_ q ∧ cancels_ q' = cancels_ q ∧ s_numCreated_ q' = s_numCreated_ q).
Proof.
  intros Hi. safe_step. destruct (timers_ q) as [|e l] eqn:El.
  { safe_step. change (valid Timestamp_invalid) with false. safe_step. split; [done|]. split; [by left|done]. }
  destruct (inv_timer q e Hi) as (tm & Htm & Hw); [rewrite El; left|].
  destruct (q_ok _ _ Hi _ _ Htm) as (_ & _ & Hr & _).
  apply safe_bind. unfold deref. safe_step. eapply safe_lift; [by rewrite Htm|]. safe_step.
  assert (valid (expiration_ tm) = true) as -> by (apply Z.ltb_lt; lia).
  apply (resetTimerfd_ok env Henv); [done|]. intros t Ht.
  split; [eapply inv_frame; [exact Hi|done..|cbn; lia]|].
  split; [|done]. right. eexists _, _. split; [done|]. cbn. rewrite El. intros e' He'.
  assert (e.1 ≤ e'.1); [|lia]. pose proof (q_sorted _ _ Hi) as Hs. rewrite El in Hs.
  apply elem_of_cons in He' as [->|He']; [lia|].
  apply StronglySorted_inv in Hs as [_ Hs]. rewrite Forall_forall in Hs. specialize (Hs e' He').
  apply entry_lt_spec in Hs. lia.
Qed.

(** One [handleRead] at time [t], in which the callbacks made the calls [cs] of
    [cancel]. *)
Record handled (t : Z) (cs : list TimerId) (q q' : TimerQueue) : Prop := {
  h_inv : tq_inv [] q';
  h_armed : armed q';
  h_runs : runs_ q' = runs_ q ++ ((λ e, (seq_of (heap_ q) e.2, t)) <$> due_entries t (timers_ q));
  h_cancels : cancels_ q' = cancels_ q ++ cs;
  h_again e tm : e ∈ due_entries t (timers_ q) → heap_ q !! e.2 = Some tm →
    repeat_ tm = true → ((e.2, sequence_ tm) ∉ cs) →
    heap_ q' !! e.2 = Some (restarted t tm) ∧ (t + interval_ tm, e.2) ∈ timers_ q';
  h_gone e tm : e ∈ due_entries t (timers_ q) → heap_ q !! e.2 = Some tm →
    repeat_ tm = false ∨ (e.2, sequence_ tm) ∈ cs → dead (sequence_ tm) q';
  h_dead s : dead s q → dead s q';
}.

(** The timerfd is read; the queue stays as it is. *)
Lemma readTimerfd_ok q t : tq_inv [] q → 0 ≤ t ≤ 2 ^ 61 →
  safe (readTimerfd env) (set_clock t q) (λ _ q1, heap_ q1 = heap_ q ∧ timers_ q1 = timers_ q ∧
    runs_ q1 = runs_ q ∧ s_numCreated_ q1 = s_numCreated_ q ∧ cancels_ q1 = cancels_ q ∧ tq_inv [] q1).
Proof.
  intros Hi Ht. unfold readTimerfd. safe_step.
  assert (∀ d, tq_inv [] (set_timerfd d (set_clock t q))) as Hd by (intros d; eapply inv_frame; [exact Hi|done..|cbn; lia]).
  assert (tq_inv [] (set_clock t q)) as Hc by (eapply inv_frame; [exact Hi|done..|cbn; lia]).
  case_if; safe_step; (do 5 (split; [done|])); auto.
Qed.

(** Which timers [reset] takes up again, by the calls the callbacks made. *)
Lemma again_spec exp q q' p t : callingExpiredTimers_ q = true → cancelingTimers_ q = ∅ → ages exp q q' →
  p ∈ exp → heap_ q !! p = Some t →
  ∀ cs, cancels_ q' = cancels_ q ++ cs → again q' p t = true ↔ repeat_ t = true ∧ ((p, sequence_ t) ∉ cs).
Proof.
  intros Hc He [_ _ _ _ _ (cs' & Hcs' & Hiff)] Hp Ht cs Hcs. cbn in *. rewrite Hcs' in Hcs. apply app_inv_head in Hcs as ->.
  unfold again. rewrite andb_true_iff, negb_true_iff, bool_decide_eq_false, (Hiff Hc p t Hp Ht), He. set_solver.
Qed.

Lemma tq_handleRead_ok q : tq_inv [] q → safe (handleRead env) q (λ _ q', ∃ cs, handled (now_ env q) cs q q').
Proof.
  intros Hi. set (t := now_ env q). set (due := due_entries t (timers_ q)).
  unfold handleRead. apply safe_bind. apply (now_ok env Henv). fold t. intros Ht.
  (* the timerfd is read *)
  apply safe_bind. eapply safe_mono; [by apply readTimerfd_ok|].
  intros [] q1 (Hh1 & Ht1 & Hr1 & Hn1 & Hc1 & Hi1).
  (* the due timers leave *)
  destruct (getExpired_eq t q1 Hi1) as (l2 & Hl2 & Hlate & Hge & Hi2). rewrite Ht1 in Hge, Hi2. fold due in Hge, Hi2.
  apply safe_bind. eapply safe_holds; [exact Hge|]. cbv beta.
  set (q2 := set_active _ _) in Hi2 |- *. safe_step.
  set (q3 := set_canceling ∅ (set_calling true q2)).
  assert (tq_inv due.*2 q3) as Hi3 by (eapply inv_frame; [exact Hi2|done..|apply Hi2]).
  (* they run *)
  eapply safe_mono; [apply (run_expired_ok due.*2 t due q3 Hi3); intros e He; apply list_elem_of_fmap; by exists e|].
  intros [] q4 (Hi4 & Hk4 & Hr4). safe_step. set (q5 := set_calling false q4).
  assert (tq_inv due.*2 q5) as Hi5 by (eapply inv_frame; [exact Hi4|done..|apply Hi4]).
  (* and settle *)
  assert (NoDup due.*2) as Hnd.
  { pose proof (q_nodup _ _ Hi5) as Hx. unfold owned in Hx. apply NoDup_app in Hx as (_ & _ & Hx).
    by apply NoDup_app in Hx as [? _]. }
  destruct (reset_loop_eq t due q5 Hi5 Hnd Ht) as (q6 & Heq6 & Hi6 & Hs6).
  unfold reset. apply safe_bind. eapply safe_holds; [exact Heq6|]. cbv beta.
  eapply safe_mono; [apply (rearm_ok q6 Hi6)|]. intros [] q7 (Hi7 & Ha7 & Hr7 & Hh7 & Ht7 & _ & Hc7 & Hn7).
  assert (∀ p, p ∈ due.*2 → is_Some (heap_ q5 !! p)) as Hsome.
  { intros p Hp. apply (q_dom _ _ Hi5). unfold owned. rewrite !elem_of_app. auto. }
  assert (∀ e, e ∈ due → heap_ q5 !! e.2 = heap_ q !! e.2) as Hsame.
  { intros e He. unfold q5. cbn. rewrite (k_exp _ _ _ Hk4) by (apply list_elem_of_fmap; by exists e).
    cbn. by rewrite Hh1. }
  destruct (k_cancels _ _ _ Hk4) as (cs & Hcs & _). change (cancels_ q4 = cancels_ q3 ++ cs) in Hcs.
  assert (∀ e tm, e ∈ due → heap_ q !! e.2 = Some tm →
    again q5 e.2 tm = true ↔ repeat_ tm = true ∧ ((e.2, sequence_ tm) ∉ cs)) as Hag.
  { intros e tm He Htm. apply (again_spec due.*2 q3 q4); try done; [apply list_elem_of_fmap; by exists e|].
    change (heap_ q1 !! e.2 = Some tm). by rewrite Hh1. }
  assert (∀ s, dead s q6 → dead s q7) as Hd7 by (intros s; unfold dead; by rewrite Hh7, Hn7).
  exists cs. split; [done|done| | | | |].
  - rewrite Hr7, (s_runs _ _ _ _ Hs6). change (runs_ q5) with (runs_ q4). rewrite Hr4.
    change (runs_ q3) with (runs_ q1). rewrite Hr1. change (heap_ q3) with (heap_ q1). by rewrite Hh1.
  - rewrite Hc7, (s_cancels _ _ _ _ Hs6). change (cancels_ q5) with (cancels_ q4). by rewrite Hcs, <-Hc1.
  - intros e tm He Htm Hrep Hncs. rewrite Hh7, Ht7. apply (s_again _ _ _ _ Hs6 e tm He); [by rewrite Hsame|].
    by apply Hag.
  - intros e tm He Htm Hor. apply Hd7. assert (again q5 e.2 tm = false) as Ha.
    { apply not_true_iff_false. rewrite (Hag e tm He Htm). intros [Hrep Hncs]. destruct Hor; congruence. }
    rewrite <-(Hsame e He) in Htm. pose proof (s_gone _ _ _ _ Hs6 e tm He Htm Ha) as Hg.
    destruct (q_ok _ _ Hi5 _ _ Htm) as (_ & Hsq & _). split; [rewrite (s_created _ _ _ _ Hs6); lia|].
    intros p t' Hp Hseq. destruct (settled_old _ _ _ _ _ _ Hsome Hs6 Hp) as (t0 & Ht0 & Hs0).
    assert (p = e.2) as -> by (eapply (q_inj _ _ Hi5); [exact Ht0|exact Htm|congruence]). congruence.
  - intros s Hd. apply Hd7, (settled_dead _ _ _ _ _ Hsome Hs6).
    assert (dead s q3) as Hd3 by (unfold dead; cbn; by rewrite Hh1, Hn1).
    exact (kept_dead due.*2 s (with_runs (runs_ q4) q3) q4 Hk4 Hd3).
Qed.
End Round.

(** ** Histories *)
(** Times and intervals are valid; and a thread that is still in [addTimer]
    reads the sequence number before the loop's thread has deleted the timer
    (TimerQueue.cc:111 reads it without any synchronisation). *)
Definition legal_event (e : tevent) (q : TimerQueue) : bool :=
  match e with
  | EAct o | ERemote o => legal_top o
  | EReturn id => bool_decide (id ∈ returning_ q) && bool_decide (sequence_ <$> heap_ q !! id.1 = Some id.2)
  | EFunctor | ETimerfd => true
  end.

Fixpoint legal_events (env : Env) (es : list tevent) (q : TimerQueue) : bool :=
  match es with
  | [] => true
  | e :: es' => legal_event e q && legal_events env es' (run_event env e q).2
  end.

(** What a piece of a history leaves: the invariant, the armed timerfd, the
    deleted timers deleted; and it ran only timers that were not. *)
Definition passed (q q' : TimerQueue) : Prop :=
  tq_inv [] q' ∧ (armed q → armed q') ∧ (∀ s, dead s q → dead s q') ∧
  ∃ rs, runs_ q' = runs_ q ++ rs ∧ ∀ r, r ∈ rs → ¬ dead r.1 q.

Lemma Fine_passed q q' : Fine [] q q' → passed q q'.
Proof.
  intros (Hi & Hk & Ha). split; [done|]. split; [done|]. split; [intros s; by apply kept_dead with (exp:=[])|].
  exists []. rewrite app_nil_r. split; [apply Hk|]. by intros r ?%not_elem_of_nil.
Qed.

Lemma passed_trans q1 q2 q3 : passed q1 q2 → passed q2 q3 → passed q1 q3.
Proof.
  intros (H1 & H2 & H3 & rs & H4 & H5) (G1 & G2 & G3 & rs' & G4 & G5).
  split; [done|]. split; [auto|]. split; [auto|]. exists (rs ++ rs'). rewrite G4, H4, app_assoc. split; [done|].
  intros r [Hr|Hr]%elem_of_app; [by apply H5|]. intros Hd. by apply (G5 r Hr), H3.
Qed.

Lemma handled_passed t cs q q' : tq_inv [] q → handled t cs q q' → passed q q'.
Proof.
  intros Hi [H1 H2 H3 _ H4 H5 H6]. split; [done|]. split; [done|]. split; [done|]. eexists. split; [exact H3|].
  intros r (e & -> & He)%list_elem_of_fmap. apply list_elem_of_filter in He as [_ He].
  destruct (inv_timer q e Hi He) as (tm & Htm & _). intros [_ Hd]. cbn in Hd. apply (Hd _ _ Htm).
  unfold seq_of. by rewrite Htm.
Qed.

Lemma run_event_passed env e q :
  env_ok env → tq_inv [] q → legal_event e q = true → safe (run_event env e) q (λ _ q', passed q q').
Proof.
  intros Henv Hi Hl. destruct e as [o|o|id| |]; cbn [run_event].
  - eapply safe_mono; [by apply (run_top_ok env Henv [])|]. intros [] q'. apply Fine_passed.
  - eapply safe_mono; [by apply (tq_remote_ok env Henv [])|]. intros [] q'. apply Fine_passed.
  - apply safe_bind. eapply safe_mono; [apply (remote_return_ok [] id q Hi)|intros a q' Hf; safe_step; by apply Fine_passed].
    cbn in Hl. apply andb_prop in Hl as [_ Hl]. apply bool_decide_eq_true, fmap_Some in Hl as (t & Ht & _). by exists t.
  - eapply safe_mono; [by apply (tq_run_functor_ok env Henv [])|]. intros [] q'. apply Fine_passed.
  - eapply safe_mono; [by apply (tq_handleRead_ok env Henv)|]. intros [] q' (cs & Hh). by eapply handled_passed.
Qed.

Lemma tq_run_events_ok env es q :
  env_ok env → tq_inv [] q → legal_events env es q = true → safe (run_events env es) q (λ _ q', passed q q').
Proof.
  intros Henv. revert q. induction es as [|e es IH]; intros q Hi Hl.
  { apply Fine_passed. split; [done|]. split; [apply kept_refl|done]. }
  cbn in Hl. apply andb_prop in Hl as [Hl1 Hl2]. cbn [run_events].
  pose proof (run_event_passed env e q Henv Hi Hl1) as Hs. apply safe_bind. unfold safe in Hs |- *.
  destruct (run_event env e q) as [[[]|e'| |] q1]; try done. cbn [snd] in Hl2. pose proof Hs as (Hi1 & _).
  pose proof (IH q1 Hi1 Hl2) as Hs2. unfold safe in Hs2. destruct (run_events env es q1) as [[[]| | |] q2]; try done.
  by eapply passed_trans.
Qed.

Lemma tq_inv_new : tq_inv [] TimerQueue_new.
Proof.
  split; cbn; try done; try constructor; try lia.
  - intros [? Hx]. by rewrite lookup_empty in Hx.
  - by intros ?%not_elem_of_nil.
  - by intros e ?%not_elem_of_nil.
Qed.

(** A queue some legal history leaves. *)
Definition reachable (env : Env) (q : TimerQueue) : Prop :=
  ∃ es, legal_events env es TimerQueue_new = true ∧ run_events env es TimerQueue_new = (Ret (), q).

Lemma reachable_inv env q : env_ok env → reachable env q → tq_inv [] q.
Proof.
  intros Henv (es & Hl & Hr). pose proof (tq_run_events_ok env es _ Henv tq_inv_new Hl) as Hs.
  unfold safe in Hs. rewrite Hr in Hs. apply Hs.
Qed.

(** C8: Whatever the loop's thread, other threads and the callbacks themselves
    do with a queue's timers, and however the wall clock jumps (times are
    positive and at most 2^61 microseconds), no assertion fails, and no deleted timer is touched as long as a thread in [addTimer]
    reads the sequence number before its timer has been deleted ([legal_event];
    the code does nothing to ensure it, [late_return_is_undefined]); the entries
    stay sorted and agree with [activeTimers_], every timer in memory is in the
    queue or on its way there (none leaks, none is freed twice), and while there
    are timers the timerfd is armed, for no longer than each of them was away by
    the wall clock when it was armed, or 100us. *)
Theorem timer_queue_invariant env es (Henv : env_ok env) (Hl : legal_events env es TimerQueue_new = true) :
  safe (run_events env es) TimerQueue_new (λ _ q,
    sorted (timers_ q) ∧ activeTimers_ q = ids (heap_ q) (timers_ q) ∧
    NoDup (owned [] q) ∧ (∀ p, is_Some (heap_ q !! p) ↔ p ∈ owned [] q) ∧
    (∀ e, e ∈ timers_ q → expiration_ <$> heap_ q !! e.2 = Some e.1) ∧ armed q).
Proof.
  eapply safe_mono; [by apply (tq_run_events_ok env es _ Henv tq_inv_new)|]. intros [] q ([] & Ha & _).
  repeat (split; [done|]). apply Ha. by left.
Qed.

(** C17: When the timerfd fires, exactly the timers run that are due by one
    reading of the wall clock, once each and in the order of their expirations;
    afterwards a due timer that repeats is in the queue again, an interval from
    that reading, if no callback of this round called [cancel] for it; the
    other due timers are deleted for good. *)
Theorem handleRead_runs_due_timers env q (Henv : env_ok env) (Hr : reachable env q) :
  let t := now_ env q in
  let due := due_entries t (timers_ q) in
  sorted due ∧
  safe (handleRead env) q (λ _ q', ∃ cs,
    runs_ q' = runs_ q ++ ((λ e, (seq_of (heap_ q) e.2, t)) <$> due) ∧
    cancels_ q' = cancels_ q ++ cs ∧
    (∀ e, e ∈ timers_ q → ∃ tm, heap_ q !! e.2 = Some tm ∧ expiration_ tm = e.1 ∧
      (e.1 ≤ t →
        if repeat_ tm && negb (bool_decide ((e.2, sequence_ tm) ∈ cs)) then
          heap_ q' !! e.2 = Some (restarted t tm) ∧ (t + interval_ tm, e.2) ∈ timers_ q'
        else dead (sequence_ tm) q')) ∧
    armed q').
Proof.
  pose proof (reachable_inv env q Henv Hr) as Hi. split; [by apply StronglySorted_filter, Hi|].
  eapply safe_mono; [by apply (tq_handleRead_ok env Henv)|]. intros [] q' (cs & [H1 H2 H3 H3' H4 H5 H6]). exists cs.
  split; [done|]. split; [done|]. split; [|done]. intros e He. destruct (inv_timer q e Hi He) as (tm & Htm & Hw).
  exists tm. split; [done|]. split; [done|]. intros Hdue.
  assert (e ∈ due_entries (now_ env q) (timers_ q)) as Hin by by apply list_elem_of_filter.
  destruct (repeat_ tm) eqn:Er; [|by apply (H5 e); auto].
  case_bool_decide; [by apply (H5 e); auto|by apply H4].
Qed.

(** An identifier [addTimer] returned: no other timer has its sequence number. *)
Definition issued (id : TimerId) (q : TimerQueue) : Prop :=
  0 < id.2 ≤ s_numCreated_ q ∧ ∀ p t, heap_ q !! p = Some t → sequence_ t = id.2 → p = id.1.

Lemma cancel_kills id q :
  tq_inv [] q → issued id q → id.1 ∉ added (pendingFunctors_ q) →
  safe (cancel id) q (λ _ q', tq_inv [] q' ∧ runs_ q' = runs_ q ∧ dead id.2 q').
Proof.
  intros Hi0 [Hn Hid] Hp. unfold cancel. safe_step. set (q0 := logged id q).
  assert (tq_inv [] q0) as Hi by (eapply inv_frame; [exact Hi0|done..|apply Hi0]).
  destruct (cancel_eq (exp:=[]) id q0 Hi) as [(t & l' & Ht & Hs & Hpm & Hc & Hi')|[Hna Hc]].
  - eapply safe_holds; [exact Hc|]. split; [done|]. split; [done|]. split; cbn; [lia|].
    intros p t' [Hne Ht']%lookup_delete_Some Heq. apply Hne. symmetry. by eapply Hid.
  - assert (dead id.2 q0) as Hd.
    { split; [cbn; lia|]. intros p t Ht Hs. assert (p = id.1) as -> by by eapply Hid.
      assert (id.1 ∈ owned [] q) as Ho by (apply (q_dom _ _ Hi0); by exists t).
      unfold owned in Ho. apply elem_of_app in Ho as [Ho|Ho]; [|done].
      apply list_elem_of_fmap in Ho as (e & He & Hin). apply Hna. rewrite (q_active _ _ Hi), elem_of_ids.
      exists e. split; [done|]. unfold id_of, seq_of. rewrite <-He, Ht. cbn. rewrite Hs. by destruct id. }
    eapply safe_holds; [exact Hc|]. destruct (callingExpiredTimers_ q0); [|by split].
    split; [|by split]. eapply inv_frame; [exact Hi|done..|apply Hi].
Qed.

(** Cancelling is final: once [cancel] has returned in the loop's thread
    for a timer whose insertion is not still waiting in the loop's queue, that
    timer never runs again, whatever happens next; also when its memory has
    been used for another timer, and when it had already run or been
    cancelled. *)
Theorem cancel_is_final env q id es (Henv : env_ok env) (Hr : reachable env q)
    (Hid : issued id q) (Hp : id.1 ∉ added (pendingFunctors_ q))
    (Hl : legal_events env es (cancel id q).2 = true) :
  safe (cancel id ;; run_events env es) q (λ _ q',
    ∃ rs, runs_ q' = runs_ q ++ rs ∧ ∀ r, r ∈ rs → r.1 ≠ id.2).
Proof.
  pose proof (cancel_kills id q (reachable_inv env q Henv Hr) Hid Hp) as Hs. apply safe_bind. unfold safe in Hs |- *.
  destruct (cancel id q) as [[[]| | |] q1]; try done. destruct Hs as (Hi1 & Hr1 & Hd1).
  pose proof (tq_run_events_ok env es q1 Henv Hi1 Hl) as Hs2. unfold safe in Hs2.
  destruct (run_events env es q1) as [[[]| | |] q2]; try done. destruct Hs2 as (_ & _ & _ & rs & Hrs & Hall).
  exists rs. split; [by rewrite Hrs, Hr1|]. intros r Hin Heq. apply (Hall r Hin). by rewrite Heq.
Qed.

(** ** A concrete environment

    Time advances by 100us at every reading, but is once set back; the timerfd has always
    run out when it is read; addresses follow the sequence
    numbers; callback 1 cancels timer 3 (at 24) and adds a timer, the others
    do nothing. *)
Definition demo_env : Env := {|
  malloc_ q := let p := 8 * (s_numCreated_ q + 1) in
    if bool_decide (heap_ q !! p = None) && (0 <? p) && (p <? UINTPTR_MAX) then Some p else None;
  now_ q := if bool_decide (ticks_ q = 1%nat) then 50 else Z.max 0 (Z.min (2 ^ 61) (clock_ q + 100));
  fired_ q := true;
  run_ cb _ := match cb with 1%nat => [TCancel (24, 3); TAdd 5 5000 0] | _ => [] end;
|}.

Lemma demo_env_ok : env_ok demo_env.
Proof.
  split.
  - intros q. cbn [now_ demo_env]. case_bool_decide; lia.
  - intros q p. cbn [malloc_ demo_env]. case_if; [|done]. intros [= <-]. done.
  - intros cb q. by destruct cb as [|[]].
Qed.

Definition demo_history : list tevent :=
  [ERemote (TAdd 0 300 0); EAct (TAdd 1 700 0); EAct (TAdd 2 700 1000); EFunctor; EReturn (8, 1); EAct (TAdd 3 100000 0);
   ETimerfd; ETimerfd; ETimerfd].
Definition demo_queue : TimerQueue := snd (run_events demo_env demo_history TimerQueue_new).
Definition demo_round : TimerQueue := snd (handleRead demo_env demo_queue).

Lemma demo_legal : legal_events demo_env demo_history TimerQueue_new = true.
Proof. vm_compute. reflexivity. Qed.

Lemma demo_reachable : reachable demo_env demo_queue.
Proof. exists demo_history. split; [exact demo_legal|]. vm_compute. reflexivity. Qed.

(** Timer 3 repeats, but timer 2, run before it, cancels it. *)
Lemma demo_runs : runs_ demo_queue = [(1, 350)] ∧ runs_ demo_round = [(1, 350); (2, 750); (3, 750)] ∧
  timers_ demo_round = [(5000, 40); (100000, 32)] ∧ timerfd_ demo_round = Some (950, 4050) ∧ cancels_ demo_round = [(24, 3)].
Proof. vm_compute. done. Qed.

Lemma demo_issued : issued (24, 3) demo_queue.
Proof.
  split; [vm_compute; by split|]. intros p t Ht Hs.
  pose proof (reachable_inv demo_env demo_queue demo_env_ok demo_reachable) as Hi.
  assert (∃ t3, heap_ demo_queue !! 24 = Some t3 ∧ sequence_ t3 = 3) as (t3 & Ht3 & Hs3).
  { eexists. split; [vm_compute; reflexivity|reflexivity]. }
  apply (q_inj _ _ Hi p 24 t t3 Ht Ht3). cbn in Hs. congruence.
Qed.

Lemma timer_queue_invariant_witness :
  safe (run_events demo_env demo_history) TimerQueue_new (λ _ q, sorted (timers_ q) ∧ armed q).
Proof.
  refine (safe_mono _ _ _ _ (timer_queue_invariant demo_env _ demo_env_ok demo_legal) _).
  intros [] q Hq. split; apply Hq.
Defined.

Lemma handleRead_runs_due_timers_witness : sorted (due_entries (now_ demo_env demo_queue) (timers_ demo_queue)) ∧
  safe (handleRead demo_env) demo_queue (λ _ q', ∃ cs, cancels_ q' = cs ∧ runs_ q' = [(1, 350); (2, 750); (3, 750)]).
Proof.
  destruct (handleRead_runs_due_timers demo_env demo_queue demo_env_ok demo_reachable) as [H1 H2]. split; [exact H1|].
  refine (safe_mono _ _ _ _ H2 _). intros [] q' (cs & H3 & H4 & _). exists cs. split; [exact H4|]. rewrite H3. vm_compute. reflexivity.
Defined.

Lemma demo_pending : (24, 3).1 ∉ added (pendingFunctors_ demo_queue).
Proof. vm_compute. intros Hx. inversion Hx. Qed.

Lemma cancel_is_final_witness :
  safe (cancel (24, 3) ;; run_events demo_env [EAct (TAdd 7 900 0); ETimerfd; ETimerfd; ETimerfd]) demo_queue
    (λ _ q', ∃ rs, runs_ q' = runs_ demo_queue ++ rs ∧ ∀ r, r ∈ rs → r.1 ≠ 3).
Proof.
  refine (cancel_is_final demo_env demo_queue (24, 3) _ demo_env_ok demo_reachable demo_issued demo_pending _).
  vm_compute. reflexivity.
Defined.

(** A cancellation in the loop's thread overtakes the insertion another thread
    has queued: the timer runs although it was cancelled. *)
Lemma cancel_overtakes_remote_add :
  runs_ (snd (run_events demo_env [ERemote (TAdd 0 100 0); EAct (TCancel (8, 1)); EFunctor; ETimerfd; ETimerfd] TimerQueue_new))
    = [(1, 250)].
Proof. vm_compute. reflexivity. Qed.

(** Another thread's [addTimer] reads the sequence number when the loop's
    thread has run and deleted the timer. *)
Lemma late_return_is_undefined :
  fst (run_events demo_env [ERemote (TAdd 0 100 0); EFunctor; ETimerfd; ETimerfd; EReturn (8, 1)] TimerQueue_new) = Undef.
Proof. vm_compute. reflexivity. Qed.
