(* ===== verification/EventLoop.v ===== *)
(** * The event loop (master/net/EventLoop.h, EventLoop.cc)

    One thread runs [loop()]; others call [runInLoop], [queueInLoop] and [quit]
    at any moment.  The loop's thread is a program counter over [loop()] and
    [doPendingFunctors()]; a step runs it to its next interaction with the
    others.  [queueInLoop] and [quit] of another thread are two steps, the
    change and the [wakeup()].  Outside [loop()] the loop's own thread may do
    with it what a functor may.  Handlers and functors may do anything with
    their loop: each is an arbitrary finite sequence of [action]s, nested calls
    of [runInLoop] included.  A functor is a name, queued with the number of
    the round it was queued in.  [wakeupFd_] is an [eventfd]: a counter that a
    read resets and that never wraps.  Channel 0 is [wakeupChannel_]. *)
From stdpp Require Import relations.
From S2P Require Import Prelude.
Local Open Scope Z_scope.

(** What a handler or a functor does with its own loop. *)
Inductive action := AQueue (f : nat) | ARun (f : nat) | AQuit | ARemove (ch : nat).

(** Where the loop's thread is. *)
Inductive pc :=
  | Out                                         (* not in loop() *)
  | Test                                        (* at while (!quit_) *)
  | Poll                                        (* in poller_->poll *)
  | Handle (todo : list action) (chs : list nat)  (* in handleEvent; channels still to handle *)
  | Functors (todo : list action) (fs : list (nat * nat))  (* in a functor; functors still to run *)
  | Aborted.

Record EventLoop := MkLoop {
  pc_ : pc;
  quit_ : bool;
  eventHandling_ : bool;
  callingPendingFunctors_ : bool;
  iteration_ : nat;
  pendingFunctors_ : list (nat * nat);
  activeChannels_ : list nat;
  currentActiveChannel_ : option nat;
  wakeupFd_ : Z;
  (** Threads between their change and their [wakeup()]. *)
  waking_ : gset nat;
  (** History: functors queued and functors started, channels removed since
      the last [poll], rounds of [doPendingFunctors]. *)
  queued_ : list (nat * nat);
  ran_ : list (nat * nat);
  removed_ : gset nat;
  rounds_ : nat;
  (** History: of the waiting functors, those queued by the loop's own thread
      outside [loop()]. *)
  outside_ : list (nat * nat);
}.

Definition EventLoop_new : EventLoop := MkLoop Out false false false 0 [] [] None 0 ∅ [] [] ∅ 0 [].

Definition set_pc p s := MkLoop p (quit_ s) (eventHandling_ s) (callingPendingFunctors_ s) (iteration_ s)
  (pendingFunctors_ s) (activeChannels_ s) (currentActiveChannel_ s) (wakeupFd_ s) (waking_ s) (queued_ s)
  (ran_ s) (removed_ s) (rounds_ s) (outside_ s).
Definition set_quit b s := MkLoop (pc_ s) b (eventHandling_ s) (callingPendingFunctors_ s) (iteration_ s)
  (pendingFunctors_ s) (activeChannels_ s) (currentActiveChannel_ s) (wakeupFd_ s) (waking_ s) (queued_ s)
  (ran_ s) (removed_ s) (rounds_ s) (outside_ s).
Definition set_wakeup n s := MkLoop (pc_ s) (quit_ s) (eventHandling_ s) (callingPendingFunctors_ s) (iteration_ s)
  (pendingFunctors_ s) (activeChannels_ s) (currentActiveChannel_ s) n (waking_ s) (queued_ s) (ran_ s)
  (removed_ s) (rounds_ s) (outside_ s).
Definition set_waking w s := MkLoop (pc_ s) (quit_ s) (eventHandling_ s) (callingPendingFunctors_ s) (iteration_ s)
  (pendingFunctors_ s) (activeChannels_ s) (currentActiveChannel_ s) (wakeupFd_ s) w (queued_ s) (ran_ s)
  (removed_ s) (rounds_ s) (outside_ s).

(** ** The members *)

(** [wakeup()]: the write fails when the counter is at its maximum. *)
Definition wakeup s := set_wakeup (if wakeupFd_ s + 1 <=? 2 ^ 64 - 2 then wakeupFd_ s + 1 else wakeupFd_ s) s.
(** [handleRead()] of the wakeup channel. *)
Definition handleRead s := set_wakeup 0 s.

(** [pendingFunctors_.push_back(cb)] under the lock. *)
Definition push (f : nat) s :=
  MkLoop (pc_ s) (quit_ s) (eventHandling_ s) (callingPendingFunctors_ s) (iteration_ s)
    (pendingFunctors_ s ++ [(f, rounds_ s)]) (activeChannels_ s) (currentActiveChannel_ s) (wakeupFd_ s) (waking_ s)
    (queued_ s ++ [(f, rounds_ s)]) (ran_ s) (removed_ s) (rounds_ s) (outside_ s).

(** [queueInLoop] in the loop's thread, and its first half in another. *)
Definition queueInLoop (f : nat) s := let s1 := push f s in if callingPendingFunctors_ s1 then wakeup s1 else s1.
Definition queueInLoop_other (t f : nat) s := set_waking ({[t]} ∪ waking_ s) (push f s).
Definition quit_other (t : nat) s := set_waking ({[t]} ∪ waking_ s) (set_quit true s).
(** The second half of both. *)
Definition wakeup_other (t : nat) s := set_waking (waking_ s ∖ {[t]}) (wakeup s).

(** The assertion of [removeChannel]. *)
Definition removeChannel_ok (ch : nat) s : bool :=
  negb (eventHandling_ s) || bool_decide (currentActiveChannel_ s = Some ch) || bool_decide (ch ∉ activeChannels_ s).
Definition removeChannel (ch : nat) s :=
  if removeChannel_ok ch s then
    MkLoop (pc_ s) (quit_ s) (eventHandling_ s) (callingPendingFunctors_ s) (iteration_ s) (pendingFunctors_ s)
      (activeChannels_ s) (currentActiveChannel_ s) (wakeupFd_ s) (waking_ s) (queued_ s) (ran_ s)
      ({[ch]} ∪ removed_ s) (rounds_ s) (outside_ s)
  else set_pc Aborted s.

(** One action; [body] is what a functor run in place does. *)
Definition act (a : action) s :=
  match a with
  | AQueue f => queueInLoop f s
  | ARun _ => s
  | AQuit => set_quit true s
  | ARemove ch => removeChannel ch s
  end.
Definition body_of (a : action) (body : list action) : list action := match a with ARun _ => body | _ => [] end.

(** The same in the loop's thread outside [loop()]. *)
Definition note_outside (a : action) s :=
  MkLoop (pc_ s) (quit_ s) (eventHandling_ s) (callingPendingFunctors_ s) (iteration_ s) (pendingFunctors_ s)
    (activeChannels_ s) (currentActiveChannel_ s) (wakeupFd_ s) (waking_ s) (queued_ s) (ran_ s) (removed_ s) (rounds_ s)
    (outside_ s ++ match a with AQueue f => [(f, rounds_ s)] | _ => [] end).
Definition act_outside (a : action) s := act a (note_outside a s).

(** [loop()] up to its [while]. *)
Definition loop_enter s := set_pc Test (set_quit false s).
Definition loop_test s := set_pc (if quit_ s then Out else Poll) s.
(** [poll] returned [active]; [eventHandling_ = true]. *)
Definition poll_return (active : list nat) s :=
  MkLoop (Handle [] active) (quit_ s) true (callingPendingFunctors_ s) (S (iteration_ s)) (pendingFunctors_ s)
    active None (wakeupFd_ s) (waking_ s) (queued_ s) (ran_ s) ∅ (rounds_ s) (outside_ s).
(** The next active channel; [todo] is what its callbacks do. *)
Definition handle_next (ch : nat) (chs : list nat) (todo : list action) s :=
  let s1 := MkLoop (Handle (if decide (ch = 0%nat) then [] else todo) chs) (quit_ s) (eventHandling_ s)
    (callingPendingFunctors_ s) (iteration_ s) (pendingFunctors_ s) (activeChannels_ s) (Some ch) (wakeupFd_ s)
    (waking_ s) (queued_ s) (ran_ s) (removed_ s) (rounds_ s) (outside_ s) in
  if decide (ch = 0%nat) then handleRead s1 else s1.
(** All are handled: [doPendingFunctors()] up to the swap. *)
Definition swap_functors s :=
  MkLoop (Functors [] (pendingFunctors_ s)) (quit_ s) false true (iteration_ s) [] (activeChannels_ s) None
    (wakeupFd_ s) (waking_ s) (queued_ s) (ran_ s) (removed_ s) (S (rounds_ s)) [].
(** The next functor. *)
Definition functor_next (f : nat * nat) (fs : list (nat * nat)) (todo : list action) s :=
  MkLoop (Functors todo fs) (quit_ s) (eventHandling_ s) (callingPendingFunctors_ s) (iteration_ s)
    (pendingFunctors_ s) (activeChannels_ s) (currentActiveChannel_ s) (wakeupFd_ s) (waking_ s) (queued_ s)
    (ran_ s ++ [f]) (removed_ s) (rounds_ s) (outside_ s).
(** The end of [doPendingFunctors()]. *)
Definition functors_done s :=
  MkLoop Test (quit_ s) (eventHandling_ s) false (iteration_ s) (pendingFunctors_ s) (activeChannels_ s)
    (currentActiveChannel_ s) (wakeupFd_ s) (waking_ s) (queued_ s) (ran_ s) (removed_ s) (rounds_ s) (outside_ s).

(** What [poll] may return: registered channels, each once; nothing only after
    the timeout, with no descriptor ready. *)
Definition poll_may (active : list nat) s : Prop :=
  NoDup active ∧ (0%nat ∈ active → 0 < wakeupFd_ s) ∧ (active = [] → wakeupFd_ s = 0).

(** An action of a callback in the loop's thread, with what remains. *)
Definition act_in (k : list action → pc) (a : action) (todo body : list action) s : EventLoop :=
  act a (set_pc (k (body_of a body ++ todo)) s).

Inductive el_step : EventLoop → EventLoop → Prop :=
  | step_own a s : pc_ s = Out → el_step s (act_outside a s)
  | step_enter s : pc_ s = Out → el_step s (loop_enter s)
  | step_test s : pc_ s = Test → el_step s (loop_test s)
  | step_poll active s : pc_ s = Poll → poll_may active s → el_step s (poll_return active s)
  | step_handle ch chs todo s : pc_ s = Handle [] (ch :: chs) → el_step s (handle_next ch chs todo s)
  | step_handle_act a todo chs body s :
      pc_ s = Handle (a :: todo) chs → el_step s (act_in (λ l, Handle l chs) a todo body s)
  | step_swap s : pc_ s = Handle [] [] → el_step s (swap_functors s)
  | step_functor f fs todo s : pc_ s = Functors [] (f :: fs) → el_step s (functor_next f fs todo s)
  | step_functor_act a todo fs body s :
      pc_ s = Functors (a :: todo) fs → el_step s (act_in (λ l, Functors l fs) a todo body s)
  | step_done s : pc_ s = Functors [] [] → el_step s (functors_done s)
  | step_queue_other t f s : t ∉ waking_ s → el_step s (queueInLoop_other t f s)
  | step_quit_other t s : t ∉ waking_ s → el_step s (quit_other t s)
  | step_wakeup_other t s : t ∈ waking_ s → el_step s (wakeup_other t s).

Definition el_reachable (s : EventLoop) : Prop := rtc el_step EventLoop_new s.

(** ** The invariant *)

(** The functors taken out of [pendingFunctors_] that have not started. *)
Definition running (p : pc) : list (nat * nat) := match p with Functors _ fs => fs | _ => [] end.
Definition handling (p : pc) : bool := match p with Handle _ _ | Aborted => true | _ => false end.
Definition calling (p : pc) : bool := match p with Functors _ _ => true | _ => false end.
Definition to_handle (p : pc) : list nat := match p with Handle _ chs => chs | _ => [] end.

(** The loop will see a readable [wakeupFd_], now or after the [wakeup()] a
    thread is about to make. *)
Definition woken s : Prop := 0 < wakeupFd_ s ∨ waking_ s ≠ ∅.

Record el_inv (s : EventLoop) : Prop := {
  i_fifo : queued_ s = ran_ s ++ running (pc_ s) ++ pendingFunctors_ s;
  i_event : eventHandling_ s = handling (pc_ s);
  i_calling : callingPendingFunctors_ s = calling (pc_ s);
  i_woken : handling (pc_ s) = false → pendingFunctors_ s ≠ outside_ s → woken s;
  i_outside : outside_ s `sublist_of` pendingFunctors_ s;
  i_quit : pc_ s = Poll → quit_ s = true → woken s;
  i_fd : 0 ≤ wakeupFd_ s ≤ 2 ^ 64 - 2;
  i_pending f : f ∈ pendingFunctors_ s → f.2 = rounds_ s;
  i_running f : f ∈ running (pc_ s) → S f.2 = rounds_ s;
  i_nodup : NoDup (to_handle (pc_ s));
  i_active ch : ch ∈ to_handle (pc_ s) → ch ∈ activeChannels_ s ∧ currentActiveChannel_ s ≠ Some ch ∧ (ch ∉ removed_ s);
}.

Lemma woken_wakeup s : el_inv s → woken (wakeup s).
Proof. intros Hi. left. unfold wakeup. cbn. pose proof (i_fd _ Hi). case_if; lia. Qed.

Lemma wakeup_fd s : 0 ≤ wakeupFd_ s ≤ 2 ^ 64 - 2 →
  wakeupFd_ s ≤ wakeupFd_ (wakeup s) ≤ 2 ^ 64 - 2 ∧ 0 < wakeupFd_ (wakeup s).
Proof. unfold wakeup. cbn. case_if; lia. Qed.

Lemma set_union_ne (t : nat) (w : gset nat) : {[t]} ∪ w ≠ ∅.
Proof. set_solver. Qed.

(** The history of functors queued outside is of the waiting ones. *)
Lemma note_outside_eq s s' f : pendingFunctors_ s' = pendingFunctors_ s ++ [f] → outside_ s' = outside_ s ++ [f] →
  pendingFunctors_ s' ≠ outside_ s' → pendingFunctors_ s ≠ outside_ s.
Proof. intros -> -> Hne He. by rewrite He in Hne. Qed.

(** A functor is added, and the loop gets woken unless it is in a handler. *)
Lemma inv_push f s s' :
  el_inv s → pc_ s' = pc_ s → quit_ s' = quit_ s → eventHandling_ s' = eventHandling_ s →
  callingPendingFunctors_ s' = callingPendingFunctors_ s → activeChannels_ s' = activeChannels_ s →
  currentActiveChannel_ s' = currentActiveChannel_ s → ran_ s' = ran_ s → removed_ s' = removed_ s →
  rounds_ s' = rounds_ s → outside_ s' = outside_ s → pendingFunctors_ s' = pendingFunctors_ s ++ [(f, rounds_ s)] →
  queued_ s' = queued_ s ++ [(f, rounds_ s)] → 0 ≤ wakeupFd_ s' ≤ 2 ^ 64 - 2 →
  (handling (pc_ s) = false → woken s') → el_inv s'.
Proof.
  intros [H1 H2 H3 H4 H4' H5 H6 H7 H8 H9 H10] Ep Eq Ee Ec Ea Eu Er Em Eo Ex Ef Ed Hfd Hw.
  split; rewrite ?Ep, ?Eq, ?Ee, ?Ec, ?Ea, ?Eu, ?Er, ?Em, ?Eo, ?Ex, ?Ef, ?Ed; try done.
  - rewrite H1. by rewrite <-!app_assoc.
  - intros Hh _. by apply Hw.
  - by apply sublist_inserts_r.
  - intros Hp _. apply Hw. by rewrite Hp.
  - intros g [Hg|Hg%list_elem_of_singleton]%elem_of_app; [by apply H7|by subst].
Qed.

(** The loop's thread moves without touching the queues. *)
Lemma inv_move p s :
  el_inv s → running p = running (pc_ s) → handling p = handling (pc_ s) → calling p = calling (pc_ s) →
  to_handle p = to_handle (pc_ s) → (p = Poll → pc_ s = Poll) → el_inv (set_pc p s).
Proof.
  intros [H1 H2 H3 H4 H4' H5 H6 H7 H8 H9 H10] E1 E2 E3 E4 E5. split; cbn; rewrite ?E1, ?E2, ?E3, ?E4; try done.
  intros Hp. apply H5. by apply E5.
Qed.

Lemma inv_queueInLoop f s :
  el_inv s → (handling (pc_ s) = true ∨ calling (pc_ s) = true) → el_inv (queueInLoop f s).
Proof.
  intros Hi Hp. unfold queueInLoop. cbn [push callingPendingFunctors_]. pose proof (i_fd _ Hi) as Hfd.
  rewrite (i_calling _ Hi). destruct (calling (pc_ s)) eqn:Ec.
  - pose proof (wakeup_fd (push f s) Hfd) as Hw. apply (inv_push f s); try done; [lia|]. intros _. left. lia.
  - apply (inv_push f s); try done. intros Hh. destruct Hp; congruence.
Qed.

(** What a callback can do while the loop handles it. *)
Lemma inv_act a s :
  el_inv s → (handling (pc_ s) = true ∨ calling (pc_ s) = true) → pc_ s ≠ Poll →
  el_inv (act a s).
Proof.
  intros Hi Hp Hn. destruct a as [f|f| |ch]; cbn [act].
  - by apply inv_queueInLoop.
  - done.
  - destruct Hi as [H1 H2 H3 H4 H4' H5 H6 H7 H8 H9 H10]. by split.
  - unfold removeChannel. destruct (removeChannel_ok ch s) eqn:Eok.
    + destruct Hi as [H1 H2 H3 H4 H4' H5 H6 H7 H8 H9 H10]. split; cbn; try done.
      intros c Hc. destruct (H10 c Hc) as (G1 & G2 & G3). split; [done|]. split; [done|].
      intros [->%elem_of_singleton|?]%elem_of_union; [|done].
      unfold removeChannel_ok in Eok. rewrite H2 in Eok. apply orb_prop in Eok as [Eok|Eok].
      * apply orb_prop in Eok as [Eok|Eok]; bool_to_prop; [|done].
        destruct (pc_ s); try done; cbn in Hc; by apply not_elem_of_nil in Hc.
      * bool_to_prop. done.
    + unfold removeChannel_ok in Eok. apply orb_false_iff in Eok as [Eok _]. apply orb_false_iff in Eok as [Eok _].
      bool_to_prop. pose proof (i_event _ Hi) as He. rewrite Eok in He.
      destruct Hi as [H1 H2 H3 H4 H4' H5 H6 H7 H8 H9 H10].
      assert (running (pc_ s) = [] ∧ calling (pc_ s) = false) as [Hr Hc] by (by destruct (pc_ s)).
      rewrite Hr in H1. split; cbn; try done; [by rewrite H3| |constructor|];
        by intros ? ?%not_elem_of_nil.
Qed.

(** What the loop's own thread does outside [loop()]. *)
Lemma inv_outside a s : el_inv s → pc_ s = Out → el_inv (act_outside a s).
Proof.
  intros [H1 H2 H3 H4 H4' H5 H6 H7 H8 H9 H10] Hp. unfold act_outside. rewrite Hp in *. cbn in *.
  destruct a as [f|f| |ch]; cbn [act].
  - unfold queueInLoop. cbn [push note_outside callingPendingFunctors_]. rewrite H3.
    split; cbn; rewrite ?Hp; try done; [by rewrite H1, <-app_assoc| | |].
    + intros _ Hne. apply H4; [done|]. by intros He; rewrite He in Hne.
    + by apply sublist_app.
    + intros g [Hg|Hg%list_elem_of_singleton]%elem_of_app; [by apply H7|by subst].
  - split; cbn; rewrite ?Hp, ?app_nil_r; done.
  - split; cbn; rewrite ?Hp, ?app_nil_r; done.
  - unfold removeChannel, removeChannel_ok. cbn [note_outside eventHandling_]. rewrite H2. cbn [negb orb].
    split; cbn; rewrite ?Hp, ?app_nil_r; try done. by intros ? ?%not_elem_of_nil.
Qed.

Lemma el_step_inv s s' : el_step s s' → el_inv s → el_inv s'.
Proof.
  intros Hst Hi. pose proof Hi as [H1 H2 H3 H4 H4' H5 H6 H7 H8 H9 H10].
  destruct Hst as [a s Hp|s Hp|s Hp|active s Hp Hm|ch chs todo s Hp|a todo chs body s Hp|s Hp|f fs todo s Hp|a todo fs body s Hp
    |s Hp|t f s Ht|t s Ht|t s Ht].
  - by apply inv_outside.
  - split; cbn; rewrite ?Hp in *; done.
  - unfold loop_test. destruct (quit_ s) eqn:Eq; split; cbn; rewrite ?Hp in *; try done. congruence.
  - destruct Hm as (Hnd & _). split; cbn; rewrite ?Hp in *; try done.
  - rewrite Hp in *. cbn in H9, H10. apply NoDup_cons in H9 as [Hn Hnd]. unfold handle_next.
    case_decide; split; cbn; try done; try lia.
    all: intros c Hc; destruct (H10 c) as (G1 & G2 & G3); [by right|]; split; [done|]; split; [|done]; congruence.
  - apply inv_act; cbn; [apply inv_move; rewrite ?Hp; done|by left|done].
  - rewrite Hp in *. split; cbn; try done; [by rewrite app_nil_r|by intros f ?%not_elem_of_nil| |].
    + intros f Hf. by rewrite H7.
    + by intros ? ?%not_elem_of_nil.
  - rewrite Hp in *. cbn in *. split; cbn; try done; [by rewrite <-app_assoc|]. intros g Hg. apply H8. by right.
  - apply inv_act; cbn; [apply inv_move; rewrite ?Hp; done|by right|done].
  - rewrite Hp in *. by split.
  - apply (inv_push f s); try done. intros _. right. apply set_union_ne.
  - split; cbn; try done; intros; right; apply set_union_ne.
  - pose proof (wakeup_fd s H6) as Hw. split; cbn [wakeup_other set_waking wakeup set_wakeup pc_ quit_ eventHandling_
      callingPendingFunctors_ pendingFunctors_ activeChannels_ currentActiveChannel_ queued_ ran_ removed_ rounds_]; try done.
    + intros _ _. left. apply Hw.
    + intros _ _. left. apply Hw.
    + cbn in *. lia.
Qed.

Lemma el_new_inv : el_inv EventLoop_new.
Proof. split; cbn; try done; try constructor; by intros ? ?%not_elem_of_nil. Qed.

Lemma el_reachable_inv s : el_reachable s → el_inv s.
Proof.
  unfold el_reachable. intros Hr.
  assert (∀ a, rtc el_step a s → el_inv a → el_inv s) as H; [|by apply (H _ Hr), el_new_inv].
  induction 1 as [|a b c Hab _ IH]; [done|]. intros Ha. by apply IH, (el_step_inv a).
Qed.

(** ** One iteration as a function

    [h] is what the handler of a channel does, [b] what a functor does. *)
Definition is_aborted s : bool := match pc_ s with Aborted => true | _ => false end.

Fixpoint do_actions (k : list action → pc) (todo : list action) s : EventLoop :=
  match todo with
  | [] => s
  | a :: todo' => if is_aborted s then s else do_actions k todo' (act_in k a todo' [] s)
  end.

Definition handler_todo (h : nat → list action) (ch : nat) : list action := if decide (ch = 0%nat) then [] else h ch.

Fixpoint handle_all (h : nat → list action) (chs : list nat) s : EventLoop :=
  match chs with
  | [] => s
  | ch :: chs' =>
      if is_aborted s then s
      else handle_all h chs' (do_actions (λ l, Handle l chs') (handler_todo h ch) (handle_next ch chs' (h ch) s))
  end.

Fixpoint functors_all (b : nat → list action) (fs : list (nat * nat)) s : EventLoop :=
  match fs with
  | [] => s
  | f :: fs' => functors_all b fs' (do_actions (λ l, Functors l fs') (b f.1) (functor_next f fs' (b f.1) s))
  end.

Definition iteration (h b : nat → list action) (active : list nat) s : EventLoop :=
  let s1 := handle_all h active (poll_return active s) in
  if is_aborted s1 then s1
  else functors_done (functors_all b (pendingFunctors_ s1) (swap_functors s1)).

(** What actions leave: they only add functors. *)
Definition grows s s' : Prop :=
  ran_ s' = ran_ s ∧ ∃ more, pendingFunctors_ s' = pendingFunctors_ s ++ more.

Lemma grows_same s s' : ran_ s' = ran_ s → pendingFunctors_ s' = pendingFunctors_ s → grows s s'.
Proof. intros Hr Hp. split; [done|]. exists []. by rewrite app_nil_r. Qed.

Lemma grows_refl s : grows s s.
Proof. by apply grows_same. Qed.

Lemma grows_trans s1 s2 s3 : grows s1 s2 → grows s2 s3 → grows s1 s3.
Proof.
  intros [H1 [m1 H2]] [G1 [m2 G2]]. split; [congruence|]. exists (m1 ++ m2). by rewrite G2, H2, app_assoc.
Qed.

Lemma act_grows p a s : grows s (act a (set_pc p s)).
Proof.
  destruct a as [f|f| |ch]; cbn [act]; [|by apply grows_same..|].
  - unfold queueInLoop, wakeup. cbn. by destruct (callingPendingFunctors_ s); (split; [done|]); exists [(f, rounds_ s)].
  - unfold removeChannel. by destruct (removeChannel_ok _ _); apply grows_same.
Qed.

Lemma act_pc p a s :
  pc_ (act a (set_pc p s)) = p ∨ pc_ (act a (set_pc p s)) = Aborted ∧ eventHandling_ s = true.
Proof.
  destruct a as [f|f| |ch]; cbn [act]; auto.
  - unfold queueInLoop, wakeup. cbn. destruct (callingPendingFunctors_ s); auto.
  - unfold removeChannel. destruct (removeChannel_ok _ _) eqn:E; [auto|right]. split; [done|].
    unfold removeChannel_ok in E. cbn in E. by destruct (eventHandling_ s).
Qed.

Lemma act_event a s : eventHandling_ (act a s) = eventHandling_ s.
Proof.
  destruct a as [f|f| |ch]; cbn [act]; [|done|done|].
  - unfold queueInLoop, wakeup. cbn. by destruct (callingPendingFunctors_ s).
  - unfold removeChannel. by destruct (removeChannel_ok _ _).
Qed.

(** The actions of one callback, for either place it can be called from. *)
Lemma do_actions_ok (k : list action → pc) todo s :
  (∀ a l s, pc_ s = k (a :: l) → el_step s (act_in k a l [] s)) →
  (∀ l, k l ≠ Aborted) → pc_ s = k todo →
  let s' := do_actions k todo s in
  rtc el_step s s' ∧ grows s s' ∧ eventHandling_ s' = eventHandling_ s ∧
    (pc_ s' = k [] ∨ pc_ s' = Aborted ∧ eventHandling_ s = true).
Proof.
  intros Hstep Hk. revert s. induction todo as [|a todo IH]; intros s Hp; cbn [do_actions].
  { split; [apply rtc_refl|]. split; [apply grows_refl|]. auto. }
  assert (is_aborted s = false) as -> by (unfold is_aborted; rewrite Hp; specialize (Hk (a :: todo)); by destruct (k _)).
  pose proof (Hstep a todo s Hp) as Hst. set (s1 := act_in k a todo [] s) in *.
  assert (grows s s1) as Hg by apply act_grows.
  assert (eventHandling_ s1 = eventHandling_ s) as He by (unfold s1, act_in; by rewrite act_event).
  destruct (act_pc (k (body_of a [] ++ todo)) a s) as [Hp1|[Hp1 Hev]]; fold (act_in k a todo [] s) in Hp1; fold s1 in Hp1.
  - assert (body_of a [] = []) as Hb by by destruct a. rewrite Hb in Hp1.
    destruct (IH s1 Hp1) as (R & G & E & P). split; [by eapply rtc_l|]. split; [by eapply grows_trans|].
    rewrite E, He in *. done.
  - assert (do_actions k todo s1 = s1) as ->.
    { destruct todo; [done|]. cbn. unfold is_aborted. by rewrite Hp1. }
    split; [by apply rtc_once|]. auto.
Qed.

Lemma handle_all_ok h chs s :
  pc_ s = Handle [] chs → eventHandling_ s = true →
  let s' := handle_all h chs s in
  rtc el_step s s' ∧ grows s s' ∧ (pc_ s' = Handle [] [] ∨ pc_ s' = Aborted).
Proof.
  revert s. induction chs as [|ch chs IH]; intros s Hp He; cbn [handle_all].
  { split; [apply rtc_refl|]. split; [apply grows_refl|]. auto. }
  assert (is_aborted s = false) as -> by (unfold is_aborted; by rewrite Hp).
  pose proof (step_handle ch chs (h ch) s Hp) as Hst. set (s1 := handle_next ch chs (h ch) s) in *.
  assert (pc_ s1 = Handle (handler_todo h ch) chs ∧ eventHandling_ s1 = true ∧ grows s s1) as (Hp1 & He1 & Hg1).
  { unfold s1, handle_next, handler_todo. by case_decide; (split; [done|]); (split; [done|]); apply grows_same. }
  destruct (do_actions_ok (λ l, Handle l chs) (handler_todo h ch) s1) as (R & G & E & P).
  { intros a l s0 H0. by apply step_handle_act. }
  { done. }
  { done. }
  set (s2 := do_actions _ _ s1) in *. destruct P as [P|[P _]].
  - destruct (IH s2) as (R2 & G2 & P2); [done|congruence|].
    split; [eapply rtc_l; [done|]; by etrans|]. split; [|done]. by eapply grows_trans, grows_trans.
  - assert (handle_all h chs s2 = s2) as ->.
    { destruct chs; [done|]. cbn. unfold is_aborted. by rewrite P. }
    split; [by eapply rtc_l|]. split; [by eapply grows_trans|auto].
Qed.

Lemma functors_all_ok b fs s :
  pc_ s = Functors [] fs → eventHandling_ s = false →
  let s' := functors_all b fs s in
  rtc el_step s s' ∧ ran_ s' = ran_ s ++ fs ∧ pc_ s' = Functors [] [].
Proof.
  revert s. induction fs as [|f fs IH]; intros s Hp He; cbn [functors_all].
  { split; [apply rtc_refl|]. by rewrite app_nil_r. }
  pose proof (step_functor f fs (b f.1) s Hp) as Hst. set (s1 := functor_next f fs (b f.1) s) in *.
  destruct (do_actions_ok (λ l, Functors l fs) (b f.1) s1) as (R & G & E & P).
  { intros a l s0 H0. by apply step_functor_act. }
  { done. }
  { done. }
  set (s2 := do_actions _ _ s1) in *. change (eventHandling_ s1) with (eventHandling_ s) in *.
  destruct P as [P|[_ P]]; [|congruence].
  destruct (IH s2) as (R2 & G2 & P2); [done|congruence|].
  split; [eapply rtc_l; [done|]; by etrans|]. split; [|done]. rewrite G2. destruct G as [-> _].
  unfold s1. cbn. by rewrite <-app_assoc.
Qed.

(** ** Properties *)

(** C16: Functors run in the order they were queued, each exactly once: those
    that started, those taken out for this round and those waiting are the
    queued ones, in order; and none waits for more than one round: what waits
    was queued after the last swap of [doPendingFunctors]. *)
Theorem functors_run_in_order s (Hr : el_reachable s) :
  queued_ s = ran_ s ++ running (pc_ s) ++ pendingFunctors_ s ∧
  (∀ f, f ∈ pendingFunctors_ s → f.2 = rounds_ s) ∧ (∀ f, f ∈ running (pc_ s) → S f.2 = rounds_ s).
Proof. apply el_reachable_inv in Hr as []. done. Qed.

(** C7: No wakeup is lost: while the loop is blocked in [poll] and [quit] was
    called since [loop()] began, or a functor waits that was not queued by the
    loop's own thread outside [loop()] (those wake nobody: [outside_] lists
    them, [queue_before_loop_blocks]), either a thread has still to make its
    [wakeup()], or [poll] cannot time out: whatever it returns is an iteration
    with an active channel, and it can return the wakeup channel. *)
Theorem no_lost_wakeup s (Hr : el_reachable s) (Hp : pc_ s = Poll)
    (Hwork : pendingFunctors_ s ≠ outside_ s ∨ quit_ s = true) (Hw : waking_ s = ∅) :
  outside_ s `sublist_of` pendingFunctors_ s ∧
  0 < wakeupFd_ s ∧ el_step s (poll_return [0%nat] s) ∧
  ∀ active, poll_may active s → active ≠ [].
Proof.
  apply el_reachable_inv in Hr as Hi. split; [apply Hi|].
  assert (0 < wakeupFd_ s) as Hfd.
  { assert (woken s) as [H|H]; [|done|done].
    destruct Hwork as [Hwork|Hwork]; [apply (i_woken _ Hi); [by rewrite Hp|done]|by apply (i_quit _ Hi)]. }
  split; [done|]. split.
  - apply step_poll; [done|]. split; [apply NoDup_singleton|]. split; done.
  - intros active (_ & _ & He) Ha. specialize (He Ha). lia.
Qed.

(** The loop never calls into a channel that a callback of the same
    iteration has removed (and may have destroyed): the assertion of
    [removeChannel] stops the program before. *)
Theorem removed_channels_not_handled s ch chs (Hr : el_reachable s) (Hp : pc_ s = Handle [] (ch :: chs)) :
  (ch ∉ removed_ s) ∧ (ch ∉ chs).
Proof.
  apply el_reachable_inv in Hr as [H1 H2 H3 H4 H4' H5 H6 H7 H8 H9 H10]. rewrite Hp in *. cbn in *.
  split; [apply H10; left|]. by apply NoDup_cons in H9 as [? _].
Qed.

(** An iteration comes to an end: whatever [poll] returned, whatever the
    handlers and functors do, the loop is back at its test having started
    every functor that was waiting when [poll] returned, and those the handlers
    queued; unless a handler broke the rule of [removeChannel]. *)
Theorem iteration_runs_what_waits h b active s (Hp : pc_ s = Poll) (Hm : poll_may active s) :
  let s' := iteration h b active s in
  rtc el_step s s' ∧
  (pc_ s' = Aborted ∨ pc_ s' = Test ∧ ∃ more, ran_ s' = ran_ s ++ pendingFunctors_ s ++ more).
Proof.
  unfold iteration. pose proof (step_poll active s Hp Hm) as Hst. set (s0 := poll_return active s) in *.
  destruct (handle_all_ok h active s0) as (R & [G1 [more G2]] & P); [done|done|].
  set (s1 := handle_all h active s0) in *. assert (rtc el_step s s1) as Hr by by eapply rtc_l.
  destruct P as [P|P].
  - assert (is_aborted s1 = false) as -> by (unfold is_aborted; by rewrite P).
    pose proof (step_swap s1 P) as Hst2. set (s2 := swap_functors s1) in *.
    destruct (functors_all_ok b (pendingFunctors_ s1) s2) as (R2 & G3 & P2); [done|done|].
    pose proof (step_done _ P2) as Hst3. split; [etrans; [done|]; eapply rtc_l; [done|]; by eapply rtc_r|].
    right. split; [done|]. exists more. cbn [functors_done ran_]. rewrite G3.
    change (ran_ s2) with (ran_ s1). by rewrite G1, G2.
  - assert (is_aborted s1 = true) as -> by (unfold is_aborted; by rewrite P). auto.
Qed.

(** ** Concrete states *)

(** Another thread queues functor 7 while the loop is blocked. *)
Definition demo_blocked : EventLoop :=
  wakeup_other 1 (queueInLoop_other 1 7 (loop_test (loop_enter EventLoop_new))).
(** The same after the loop's own thread has queued functor 3. *)
Definition demo_outside : EventLoop :=
  wakeup_other 1 (queueInLoop_other 1 7 (loop_test (loop_enter (act_outside (AQueue 3) EventLoop_new)))).
(** It wakes up together with channels 5 and 6; 5 queues functor 8. *)
Definition demo_handling : EventLoop := handle_next 5 [6%nat] [] (handle_next 0 [5; 6]%nat [] (poll_return [0; 5; 6]%nat demo_blocked)).

Lemma demo_blocked_reachable : el_reachable demo_blocked.
Proof.
  eapply rtc_l; [by apply step_enter|]. eapply rtc_l; [by apply step_test|].
  eapply rtc_l; [by apply (step_queue_other 1 7)|]. eapply rtc_l; [by apply (step_wakeup_other 1)|]. apply rtc_refl.
Qed.

Lemma demo_outside_reachable : el_reachable demo_outside.
Proof.
  eapply rtc_l; [by apply (step_own (AQueue 3))|]. eapply rtc_l; [by apply step_enter|]. eapply rtc_l; [by apply step_test|].
  eapply rtc_l; [by apply (step_queue_other 1 7)|]. eapply rtc_l; [by apply (step_wakeup_other 1)|]. apply rtc_refl.
Qed.

Lemma demo_handling_reachable : el_reachable demo_handling.
Proof.
  unfold el_reachable. etrans; [apply demo_blocked_reachable|].
  eapply rtc_l; [apply (step_poll [0; 5; 6]%nat); [done|]|].
  { split; [apply (bool_decide_unpack _); vm_compute; exact I|]. split; done. }
  eapply rtc_l; [by apply (step_handle 0 [5; 6]%nat [])|]. eapply rtc_l; [by apply (step_handle 5 [6]%nat [])|].
  apply rtc_refl.
Qed.

Lemma functors_run_in_order_witness : queued_ demo_blocked = [(7, 0)]%nat ∧
  (∀ f, f ∈ pendingFunctors_ demo_blocked → f.2 = 0%nat).
Proof. split; [reflexivity|]. exact (proj1 (proj2 (functors_run_in_order demo_blocked demo_blocked_reachable))). Defined.

Lemma no_lost_wakeup_witness : pendingFunctors_ demo_outside = [(3, 0); (7, 0)]%nat ∧ 0 < wakeupFd_ demo_outside.
Proof.
  split; [reflexivity|].
  refine (proj1 (proj2 (no_lost_wakeup demo_outside demo_outside_reachable eq_refl _ _))); [by left|].
  apply (bool_decide_unpack _). vm_compute. exact I.
Defined.

Lemma removed_channels_not_handled_witness : (6%nat ∉ removed_ demo_handling) ∧ pc_ (removeChannel 6 demo_handling) = Aborted.
Proof.
  split; [|vm_compute; reflexivity].
  exact (proj1 (removed_channels_not_handled demo_handling 6 [] demo_handling_reachable eq_refl)).
Defined.

Lemma iteration_runs_what_waits_witness :
  ran_ (iteration (λ _, [AQueue 8; AQuit]) (λ f, if decide (f = 7%nat) then [AQueue 9] else []) [0; 5]%nat demo_blocked)
    = [(7, 0); (8, 0)]%nat ∧
  rtc el_step demo_blocked
    (iteration (λ _, [AQueue 8; AQuit]) (λ f, if decide (f = 7%nat) then [AQueue 9] else []) [0; 5]%nat demo_blocked).
Proof.
  split; [vm_compute; reflexivity|].
  refine (proj1 (iteration_runs_what_waits _ _ [0; 5]%nat demo_blocked eq_refl _)).
  split; [apply (bool_decide_unpack _); vm_compute; exact I|]. split; done.
Defined.

(** [queueInLoop] in the loop's own thread before [loop()] wakes nobody: the
    loop then blocks with the functor waiting; and [quit] before [loop()] is
    forgotten. *)
Lemma queue_before_loop_blocks : let s := loop_test (loop_enter (act_outside (AQueue 7) EventLoop_new)) in
  el_reachable s ∧ pc_ s = Poll ∧ pendingFunctors_ s = [(7, 0)]%nat ∧ poll_may [] s.
Proof.
  cbv zeta. split; [|split; [done|split; [done|split; [constructor|by split; [intros ?%not_elem_of_nil|]]]]].
  eapply rtc_l; [by apply (step_own (AQueue 7))|]. eapply rtc_l; [by apply step_enter|]. by eapply rtc_l; [apply step_test|].
Qed.

Lemma quit_before_loop_forgotten s : pc_ s = Out →
  pc_ (loop_test (loop_enter (act_outside AQuit s))) = Poll ∧ quit_ (loop_test (loop_enter (act_outside AQuit s))) = false.
Proof. done. Qed.
