(* ===== verification/LoopObject.v ===== *)
(** * The life of an event loop object (master/net/EventLoop.cc, TimerQueue.cc)

    What the constructor and the destructor of [EventLoop] do with the poller
    and with [t_loopInThisThread], and the checks every channel operation goes
    through, against the interface of the file Poller.  The poller's state is
    that of this loop; [t_loopInThisThread] is a map from thread numbers to
    loops; [eventfd] and [timerfd_create] succeed (they abort otherwise). *)
From stdpp Require Import gmap.
From S2P Require Import Prelude Channel Poller EPollPoller PollPoller Pollers.
Local Open Scope Z_scope.

Record LoopObject := MkLoopObject {
  lo_id : nat;
  threadId_ : Z;
  wakeupChannel_ : nat;
  timerfdChannel_ : nat;
}.

Section Loop.
Context {P : Type} `{PollerOps P}.

Definition on_poller {A} (m : ST (chan_heap * P) A) : ST (gmap Z nat * (chan_heap * P)) A := λ s,
  let '(o, p) := m s.2 in (o, (s.1, p)).

Definition isInLoopThread (me : Z) (l : LoopObject) : bool := threadId_ l =? me.

(** [abortNotInLoopThread] is a fatal log line. *)
Definition assertInLoopThread (me : Z) (l : LoopObject) : outcome unit := assert_ (isInLoopThread me l).

(** A member of a channel of loop [owner] that ends in [updateChannel] or
    [removeChannel] of its loop. *)
Definition channel_op (me : Z) (l : LoopObject) (owner : nat) (c : nat) (o : chan_op) : ST (gmap Z nat * (chan_heap * P)) unit :=
  lift (assert_ (bool_decide (owner = lo_id l))) ;;
  lift (assertInLoopThread me l) ;;
  on_poller (run_chan_op c o).

Definition TimerQueue_ctor (me : Z) (l : LoopObject) : ST (gmap Z nat * (chan_heap * P)) unit :=
  channel_op me l (lo_id l) (timerfdChannel_ l) EnableReading.

Definition TimerQueue_dtor (me : Z) (l : LoopObject) : ST (gmap Z nat * (chan_heap * P)) unit :=
  channel_op me l (lo_id l) (timerfdChannel_ l) DisableAll ;;
  channel_op me l (lo_id l) (timerfdChannel_ l) Remove.

Definition EventLoop_ctor (me : Z) (id wakeup timer : nat) : ST (gmap Z nat * (chan_heap * P)) LoopObject :=
  let l := MkLoopObject id me wakeup timer in
  TimerQueue_ctor me l ;;
  s ← st_get;
  match s.1 !! me with
  | Some _ => lift AssertFail
  | None =>
      st_put (<[me := id]> s.1, s.2) ;;
      channel_op me l id wakeup EnableReading ;;
      mret l
  end.

(** The members of the object are destroyed after the body. *)
Definition EventLoop_dtor (me : Z) (l : LoopObject) : ST (gmap Z nat * (chan_heap * P)) unit :=
  channel_op me l (lo_id l) (wakeupChannel_ l) DisableAll ;;
  channel_op me l (lo_id l) (wakeupChannel_ l) Remove ;;
  st_modify (λ s, (delete me s.1, s.2)) ;;
  TimerQueue_dtor me l.

Definition getEventLoopOfCurrentThread (me : Z) (s : gmap Z nat * (chan_heap * P)) : option nat := s.1 !! me.

Fixpoint channel_ops (me : Z) (l : LoopObject) (ops : list (nat * chan_op)) : ST (gmap Z nat * (chan_heap * P)) unit :=
  match ops with
  | [] => mret ()
  | (c, o) :: ops' => channel_op me l (lo_id l) c o ;; channel_ops me l ops'
  end.
End Loop.

Section Life.
Context {P : Type} `{PollerSpec P}.

Lemma channel_op_own me l c o (t : gmap Z nat) hp A :
  threadId_ l = me → p_inv hp A → op_legal A c o = true →
  ∃ hp', channel_op me l (lo_id l) c o (t, hp) = (Ret (), (t, hp')) ∧ p_inv hp' (spec_chan_op c o A).
Proof.
  intros Hme Hi Hl. destruct (run_chan_op_spec hp A c o Hi Hl) as (hp' & Hr & Hi'). exists hp'. split; [|done].
  unfold channel_op, assertInLoopThread, isInLoopThread, on_poller, mbind, ST_bind, lift.
  rewrite bool_decide_eq_true_2, Hme, Z.eqb_refl by done. cbn [assert_ snd fst]. by rewrite Hr.
Qed.

Lemma channel_ops_own me l ops (t : gmap Z nat) hp A :
  threadId_ l = me → p_inv hp A → ops_legal A ops = true →
  ∃ hp', channel_ops me l ops (t, hp) = (Ret (), (t, hp')) ∧ p_inv hp' (spec_chan_ops ops A).
Proof.
  intros Hme. revert hp A. induction ops as [|[c o] ops IH]; intros hp A Hi Hl; [by exists hp|].
  cbn [ops_legal] in Hl. apply andb_prop in Hl as [Hl1 Hl2].
  destruct (channel_op_own me l c o t hp A Hme Hi Hl1) as (hp1 & Hr & Hi1).
  destruct (IH _ _ Hi1 Hl2) as (hp2 & Hr2 & Hi2). exists hp2. cbn [channel_ops].
  by rewrite (ST_bind_eq _ _ _ _ _ Hr).
Qed.

(** In another thread than the loop's, or on another loop, every channel
    operation aborts. *)
Lemma channel_op_other me l owner c o s :
  threadId_ l ≠ me ∨ owner ≠ lo_id l → channel_op (P := P) me l owner c o s = (AssertFail, s).
Proof.
  intros Hd. unfold channel_op, assertInLoopThread, isInLoopThread, mbind, ST_bind, lift.
  case_bool_decide as Ho; [|done]. destruct Hd as [Hd|Hd]; [|done]. by rewrite (proj2 (Z.eqb_neq _ _)).
Qed.

Lemma channel_op_thread me l owner c o s : (snd (channel_op (P := P) me l owner c o s)).1 = s.1.
Proof.
  unfold channel_op, assertInLoopThread, isInLoopThread, on_poller, mbind, ST_bind, lift.
  case_bool_decide; [|done]. cbn [assert_]. destruct (threadId_ l =? me); [|done]. cbn [assert_].
  by destruct (run_chan_op c o s.2).
Qed.

(** A thread that has a loop cannot build another. *)
Lemma second_loop_aborts me id wk tm (s : gmap Z nat * (chan_heap * P)) l :
  is_Some (s.1 !! me) → fst (EventLoop_ctor me id wk tm s) ≠ Ret l.
Proof.
  intros [i Hi]. unfold EventLoop_ctor, TimerQueue_ctor, mbind, ST_bind, st_get, lift.
  pose proof (channel_op_thread me (MkLoopObject id me wk tm) id tm EnableReading s) as Ht. cbn [lo_id timerfdChannel_].
  destruct (channel_op _ _ _ _ _ s) as [[[]| | |] s1]; [|done..]. cbn [snd] in Ht. by rewrite Ht, Hi.
Qed.

Lemma spec_ops_other ops A c : Forall (λ co, co.1 ≠ c) ops → spec_chan_ops ops A !! c = A !! c.
Proof.
  intros Hf. revert A. induction Hf as [|[c' o] ops Hc _ IH]; intros A; [done|].
  change (spec_chan_ops ((c', o) :: ops) A) with (spec_chan_ops ops (spec_chan_op c' o A)). rewrite IH.
  unfold spec_chan_op. destruct (A !! c') as [a|]; [|done]. by apply lookup_insert_ne.
Qed.

(** The first call on a channel. *)
Lemma first_enable_legal A c fd :
  A !! c = Some (AChan fd kNoneEvent Fresh) → 0 ≤ fd →
  (∀ c' a', A !! c' = Some a' → c' ≠ c → a_reg a' = Registered → a_fd a' ≠ fd) →
  op_legal A c EnableReading = true ∧
  spec_chan_op c EnableReading A = <[c := AChan fd kReadEvent Registered]> A.
Proof.
  intros Hc Hfd Hfree. unfold op_legal, spec_chan_op. rewrite Hc. cbn [a_reg a_fd a_events new_mask]. split; [|done].
  rewrite (bool_decide_eq_false_2 (EnableReading = Remove)), (proj2 (Z.leb_le _ _) Hfd) by done.
  rewrite bool_decide_eq_true_2; [done|].
  intros c' a' Ha'. specialize (Hfree c' a' Ha'). destruct (decide (c' = c)); [by left|right].
  destruct (decide (a_reg a' = Registered)); [right; auto|by left].
Qed.

(** The last two calls on a channel. *)
Lemma last_calls_legal A c fd ev :
  A !! c = Some (AChan fd ev Registered) →
  op_legal A c DisableAll = true ∧ op_legal (spec_chan_op c DisableAll A) c Remove = true ∧
  spec_chan_op c Remove (spec_chan_op c DisableAll A) = <[c := AChan fd kNoneEvent Removed]> A.
Proof.
  intros Hc. unfold op_legal, spec_chan_op. rewrite Hc. cbn [a_reg a_fd a_events new_mask].
  rewrite bool_decide_eq_false_2 by done. rewrite lookup_insert_eq. cbn [a_reg a_fd a_events].
  rewrite insert_insert_eq. done.
Qed.

Lemma loop_dtor_own me l t hp A fdw fdt :
  threadId_ l = me → p_inv hp A →
  A !! wakeupChannel_ l = Some (AChan fdw kReadEvent Registered) →
  A !! timerfdChannel_ l = Some (AChan fdt kReadEvent Registered) → wakeupChannel_ l ≠ timerfdChannel_ l →
  ∃ hp', EventLoop_dtor me l (t, hp) = (Ret (), (delete me t, hp')) ∧
    ∀ ev, ev ≠ kNoneEvent → watched hp' fdw ≠ Some (wakeupChannel_ l, ev) ∧ watched hp' fdt ≠ Some (timerfdChannel_ l, ev).
Proof.
  intros Hme Hi Hwk Htm Hne.
  destruct (last_calls_legal _ _ _ _ Hwk) as (Hl1 & Hl2 & Hs2).
  destruct (channel_op_own me l _ _ t _ _ Hme Hi Hl1) as (hp1 & Hr1 & Hi1).
  destruct (channel_op_own me l _ _ t _ _ Hme Hi1 Hl2) as (hp2 & Hr2 & Hi2). rewrite Hs2 in Hi2.
  set (A1 := <[wakeupChannel_ l := _]> A) in Hi2.
  assert (Htm1 : A1 !! timerfdChannel_ l = Some (AChan fdt kReadEvent Registered)) by (unfold A1; by rewrite lookup_insert_ne).
  destruct (last_calls_legal _ _ _ _ Htm1) as (Hl3 & Hl4 & Hs4).
  destruct (channel_op_own me l _ _ (delete me t) _ _ Hme Hi2 Hl3) as (hp3 & Hr3 & Hi3).
  destruct (channel_op_own me l _ _ (delete me t) _ _ Hme Hi3 Hl4) as (hp4 & Hr4 & Hi4). rewrite Hs4 in Hi4.
  exists hp4. split.
  - unfold EventLoop_dtor, TimerQueue_dtor. rewrite (ST_bind_eq _ _ _ _ _ Hr1), (ST_bind_eq _ _ _ _ _ Hr2).
    unfold mbind at 1, ST_bind at 1, st_modify. cbn [fst snd]. by rewrite (ST_bind_eq _ _ _ _ _ Hr3).
  - intros ev Hev. rewrite !(p_watched _ _ _ _ _ Hi4 Hev). rewrite lookup_insert_eq, lookup_insert_ne by done.
    unfold A1. rewrite lookup_insert_eq. done.
Qed.

(** The life of a loop.  Built in a thread that has none, over new
    channels for its two descriptors, a loop is that thread's loop and both
    descriptors are watched for reading; a second loop cannot be built in the
    thread; after any legal use of other channels the destructor, called in
    that thread, runs without a failed assertion, gives the thread up and
    leaves neither descriptor watched; called in any other thread it aborts
    before it has changed anything. *)
Theorem loop_life (t : gmap Z nat) (hp : chan_heap * P) (A : astate) (me : Z) (id wk tm : nat) (fdw fdt : Z)
    (ops : list (nat * chan_op)) :
  p_inv hp A → (∀ c a, A !! c = Some a → a_reg a = Fresh) → t !! me = None → wk ≠ tm → fdw ≠ fdt →
  0 ≤ fdw → 0 ≤ fdt → A !! wk = Some (AChan fdw kNoneEvent Fresh) → A !! tm = Some (AChan fdt kNoneEvent Fresh) →
  Forall (λ co, co.1 ≠ wk ∧ co.1 ≠ tm) ops →
  ops_legal (<[wk := AChan fdw kReadEvent Registered]> (<[tm := AChan fdt kReadEvent Registered]> A)) ops = true →
  ∃ l s1 s2 s3,
    EventLoop_ctor me id wk tm (t, hp) = (Ret l, s1) ∧ getEventLoopOfCurrentThread me s1 = Some id ∧
    watched s1.2 fdw = Some (wk, kReadEvent) ∧ watched s1.2 fdt = Some (tm, kReadEvent) ∧
    channel_ops me l ops s1 = (Ret (), s2) ∧
    EventLoop_dtor me l s2 = (Ret (), s3) ∧ s3.1 = t ∧
    (∀ ev, ev ≠ kNoneEvent → watched s3.2 fdw ≠ Some (wk, ev) ∧ watched s3.2 fdt ≠ Some (tm, ev)) ∧
    (∀ other, other ≠ me → EventLoop_dtor other l s2 = (AssertFail, s2)) ∧
    (∀ id' wk' tm', fst (EventLoop_ctor me id' wk' tm' s2) ≠ Ret (MkLoopObject id' me wk' tm')).
Proof.
  intros Hi Hfresh Ht Hne Hfd Hw0 Ht0 Hwk Htm Hops Hlegal.
  set (l := MkLoopObject id me wk tm).
  destruct (first_enable_legal A tm fdt Htm Ht0) as [Hl1 Hs1].
  { intros c' a' Ha' _ Hr. by rewrite (Hfresh _ _ Ha') in Hr. }
  destruct (channel_op_own me l tm EnableReading t hp A eq_refl Hi Hl1) as (hp1 & Hr1 & Hi1). rewrite Hs1 in Hi1.
  set (A1 := <[tm := AChan fdt kReadEvent Registered]> A) in *.
  assert (Hwk1 : A1 !! wk = Some (AChan fdw kNoneEvent Fresh)) by (unfold A1; by rewrite lookup_insert_ne).
  destruct (first_enable_legal A1 wk fdw Hwk1 Hw0) as [Hl2 Hs2].
  { intros c' a'. unfold A1. rewrite lookup_insert. case_decide; [intros [= <-]; cbn; congruence|].
    intros Ha' _ Hr. by rewrite (Hfresh _ _ Ha') in Hr. }
  destruct (channel_op_own me l wk EnableReading (<[me := id]> t) hp1 A1 eq_refl Hi1 Hl2) as (hp2 & Hr2 & Hi2).
  rewrite Hs2 in Hi2. set (A2 := <[wk := AChan fdw kReadEvent Registered]> A1) in *.
  destruct (channel_ops_own me l ops (<[me := id]> t) hp2 A2 eq_refl Hi2 Hlegal) as (hp3 & Hr3 & Hi3).
  set (A3 := spec_chan_ops ops A2) in *.
  assert (Hwk3 : A3 !! wk = Some (AChan fdw kReadEvent Registered)).
  { unfold A3. rewrite spec_ops_other by (eapply Forall_impl; [exact Hops|by intros x []]). apply lookup_insert_eq. }
  assert (Htm3 : A3 !! tm = Some (AChan fdt kReadEvent Registered)).
  { unfold A3. rewrite spec_ops_other by (eapply Forall_impl; [exact Hops|by intros x []]).
    unfold A2. rewrite lookup_insert_ne by done. apply lookup_insert_eq. }
  exists l, (<[me := id]> t, hp2), (<[me := id]> t, hp3).
  destruct (loop_dtor_own me l (<[me := id]> t) hp3 A3 fdw fdt eq_refl Hi3 Hwk3 Htm3 Hne) as (hp4 & Hr4 & Hw4).
  exists (delete me (<[me := id]> t), hp4). split.
  { unfold EventLoop_ctor, TimerQueue_ctor. fold l. cbn [lo_id timerfdChannel_ l].
    rewrite (ST_bind_eq _ _ _ _ _ Hr1). unfold mbind at 1, ST_bind at 1, st_get. cbn [fst snd]. rewrite Ht.
    unfold mbind at 1, ST_bind at 1, st_put. by rewrite (ST_bind_eq _ _ _ _ _ Hr2). }
  split; [apply lookup_insert_eq|].
  split; [apply (p_watched _ _ _ _ _ Hi2); [done|apply lookup_insert_eq]|].
  split; [apply (p_watched _ _ _ _ _ Hi2); [done|unfold A2; rewrite lookup_insert_ne by done; apply lookup_insert_eq]|].
  split; [exact Hr3|]. split; [exact Hr4|]. split; [by apply delete_insert_id|]. split; [exact Hw4|]. split.
  - intros other Ho. unfold EventLoop_dtor, mbind at 1, ST_bind at 1. rewrite channel_op_other; [done|left; intros Heq; by apply Ho].
  - intros id' wk' tm'. apply second_loop_aborts. cbn. rewrite lookup_insert_eq. by eexists.
Qed.
End Life.
