(* ===== verification/ChannelLife.v ===== *)
(** * The life of a channel object (master/net/Channel.cc, Poller.cc,
    EventLoop.cc)

    A channel may be destroyed when its callbacks are not running, when its
    loop has let it go, and when the poller's map does not hold it.  The
    destructor asserts all three; this file shows when they hold, over an
    interface to the pollers' map of channels. *)
From stdpp Require Import gmap.
From S2P Require Import Prelude Channel Poller EPollPoller PollPoller Pollers LoopObject.
Local Open Scope Z_scope.

(** [Poller::channels_]: it holds the registered channels, and the poller's
    members leave [addedToLoop_] alone. *)
Class ChannelMap (P : Type) `{PollerSpec P} := {
  channels_of : P → gmap Z nat;
  channels_of_spec s A fd c : p_inv s A →
    channels_of s.2 !! fd = Some c ↔ ∃ a, A !! c = Some a ∧ a_fd a = fd ∧ a_reg a = Registered;
  updateChannel_added c s : addedToLoop_ <$> (updateChannel c s).2.1 = addedToLoop_ <$> s.1;
  removeChannel_added c s : addedToLoop_ <$> (removeChannel c s).2.1 = addedToLoop_ <$> s.1;
}.

(** ** Operations *)
Section Ops.
Context {P : Type} `{ChannelMap P}.

(** [Poller::hasChannel], called in thread [me]. *)
Definition hasChannel (me : Z) (l : LoopObject) (c : nat) : ST (chan_heap * P) bool :=
  lift (assertInLoopThread me l) ;;
  s ← st_get;
  ch ← lift (or_undef (s.1 !! c));
  mret (bool_decide (channels_of s.2 !! fd_ ch = Some c)).

(** [EventLoop::hasChannel] of a channel of loop [owner]. *)
Definition EventLoop_hasChannel (me : Z) (l : LoopObject) (owner c : nat) : ST (chan_heap * P) bool :=
  lift (assert_ (bool_decide (owner = lo_id l))) ;;
  lift (assertInLoopThread me l) ;;
  hasChannel me l c.

(** [Channel::~Channel]: [handling] is [eventHandling_], which is set while a
    dispatch runs the callbacks.  The object is gone afterwards. *)
Definition Channel_dtor (me : Z) (l : LoopObject) (c : nat) (handling : bool) : ST (chan_heap * P) unit :=
  lift (assert_ (negb handling)) ;;
  s ← st_get;
  ch ← lift (or_undef (s.1 !! c));
  lift (assert_ (negb (addedToLoop_ ch))) ;;
  (if isInLoopThread me l
   then has ← EventLoop_hasChannel me l (lo_id l) c; lift (assert_ (negb has))
   else mret ()) ;;
  st_modify (λ s, (delete c s.1, s.2)).
End Ops.

(** ** The two pollers *)

(** A call that leaves every [addedToLoop_] alone. *)
Definition keeps_added {P A} (m : ST (chan_heap * P) A) : Prop :=
  ∀ s, addedToLoop_ <$> (m s).2.1 = addedToLoop_ <$> s.1.

Section Keeps.
Context {P : Type}.

Lemma keeps_added_bind {A B} (m : ST (chan_heap * P) A) (k : A → ST (chan_heap * P) B) :
  keeps_added m → (∀ a, keeps_added (k a)) → keeps_added (m ≫= k).
Proof.
  intros Hm Hk s. unfold mbind, ST_bind. specialize (Hm s). destruct (m s) as [[a| | |] s']; [|done..].
  rewrite (Hk a s'). apply Hm.
Qed.

Lemma keeps_added_get {B} (k : chan_heap * P → ST (chan_heap * P) B) :
  (∀ s, addedToLoop_ <$> (k s s).2.1 = addedToLoop_ <$> s.1) → keeps_added (st_get ≫= k).
Proof. intros Hk s. apply Hk. Qed.

Lemma keeps_added_lift {A} (o : outcome A) : keeps_added (P := P) (lift o).
Proof. intros s. unfold lift. by destruct o. Qed.

Lemma keeps_added_ret {A} (a : A) : keeps_added (P := P) (mret a).
Proof. done. Qed.

Lemma keeps_added_modify f : (∀ s : chan_heap * P, addedToLoop_ <$> (f s).1 = addedToLoop_ <$> s.1) → keeps_added (st_modify f).
Proof. intros Hf s. apply Hf. Qed.

Lemma alter_index_added i c (h : chan_heap) : addedToLoop_ <$> alter (set_index i) c h = addedToLoop_ <$> h.
Proof.
  apply map_eq. intros j. rewrite !lookup_fmap. destruct (decide (j = c)) as [->|].
  - rewrite lookup_alter_eq. by destruct (h !! c).
  - by rewrite lookup_alter_ne.
Qed.
End Keeps.

Lemma update_keeps op c : keeps_added (update op c).
Proof.
  unfold update, get_channel. apply keeps_added_bind; [by intros s; cbn; apply keeps_added_lift|intros ch]. apply keeps_added_get. intros s. cbv zeta.
  repeat case_match; done.
Qed.

Ltac keeps := repeat first
  [ apply update_keeps | apply keeps_added_lift | apply keeps_added_ret | assumption
  | apply keeps_added_modify; intros ?; first [done | apply alter_index_added]
  | apply keeps_added_bind; [|intros ?]
  | case_match
  | done ].

Lemma ep_update_keeps c : keeps_added (ep_updateChannel c).
Proof. unfold ep_updateChannel, get_channel, assertS, set_index_of. cbv zeta. keeps. Qed.

Lemma ep_remove_keeps c : keeps_added (ep_removeChannel c).
Proof. unfold ep_removeChannel, get_channel, assertS, set_index_of. cbv zeta. keeps. Qed.

Lemma pp_update_keeps c : keeps_added (pp_updateChannel c).
Proof. unfold pp_updateChannel, pget_channel, passert. cbv zeta. keeps. Qed.

Lemma pp_remove_keeps c : keeps_added (pp_removeChannel c).
Proof. unfold pp_removeChannel, pget_channel, passert. cbv zeta. keeps. Qed.

#[export] Instance ep_channel_map : ChannelMap EPollPoller.
Proof.
  refine {| channels_of := channels_ |}.
  - intros s A fd c Hi. split; [apply (ep_channels _ _ Hi)|]. intros (a & Ha & <- & Hr).
    destruct (ep_chans _ _ Hi _ _ Ha) as (ch & _ & _ & _ & _ & Hx). rewrite Hr in Hx. apply Hx.
  - apply ep_update_keeps.
  - apply ep_remove_keeps.
Defined.

#[export] Instance pp_channel_map : ChannelMap PollPoller.
Proof.
  refine {| channels_of := pchannels |}.
  - intros s A fd c [chs Hi]. split; [apply (pp_channels _ _ _ Hi)|]. intros (a & Ha & <- & Hr).
    destruct (pp_chans _ _ _ Hi _ _ Ha) as (ch & _ & _ & _ & _ & Hx). rewrite Hr in Hx. apply Hx.
  - apply pp_update_keeps.
  - apply pp_remove_keeps.
Defined.

(** ** Properties *)
Section Life.
Context {P : Type} `{ChannelMap P}.

(** [addedToLoop_] says whether the channel is registered. *)
Definition added_ok (h : chan_heap) (A : astate) : Prop :=
  ∀ c a, A !! c = Some a → addedToLoop_ <$> h !! c = Some (bool_decide (a_reg a = Registered)).

Lemma added_lookup (h h' : chan_heap) c : addedToLoop_ <$> h = addedToLoop_ <$> h' →
  addedToLoop_ <$> h !! c = addedToLoop_ <$> h' !! c.
Proof. intros Heq. by rewrite <-!lookup_fmap, Heq. Qed.

Lemma run_chan_op_added s A c o s' : p_inv s A → op_legal A c o = true →
  run_chan_op c o s = (Ret (), s') → added_ok s.1 A → added_ok s'.1 (spec_chan_op c o A).
Proof.
  intros Hi Hl Hr Hok. destruct s as [h p]. unfold op_legal in Hl. unfold spec_chan_op.
  destruct (A !! c) as [a|] eqn:HA; [|done].
  destruct (p_inv_chan _ _ _ _ Hi HA) as (ch & Hch & _). cbn [fst] in *.
  assert (addedToLoop_ <$> s'.1 = addedToLoop_ <$> alter (set_added (bool_decide (o ≠ Remove))) c h) as Heq.
  { destruct (decide (o = Remove)) as [->|Hne].
    - revert Hr. cbn [run_chan_op]. unfold Channel_remove, mbind, ST_bind, st_get, lift, st_modify.
      cbn [fst snd]. rewrite Hch. cbn [or_undef from_option]. destruct (assert_ (isNoneEvent ch)) as [[]| | |]; [|done..].
      intros Hr. pose proof (removeChannel_added c (alter (set_added false) c h, p)) as Hk. by rewrite Hr in Hk.
    - rewrite bool_decide_eq_true_2 by done.
      assert (updateChannel c (with_events c (new_mask o (events_ ch)) (alter (set_added true) c h), p) = (Ret (), s')) as Hu.
      { rewrite <-Hr. destruct o; try done; cbn [run_chan_op];
          unfold Channel_update, mbind, ST_bind, st_get, lift, st_put, st_modify; cbn [fst snd];
          rewrite Hch; cbn [or_undef from_option fst snd]; by rewrite with_events_added. }
      pose proof (updateChannel_added c (with_events c (new_mask o (events_ ch)) (alter (set_added true) c h), p)) as Hk.
      rewrite Hu in Hk. cbn [fst snd] in Hk. rewrite Hk. apply map_eq. intros i. rewrite !lookup_fmap. unfold with_events. cbn [fst].
      destruct (decide (i = c)) as [->|]; [|by rewrite !lookup_alter_ne].
      rewrite !lookup_alter_eq. by destruct (h !! c). }
  intros c' a'. rewrite (added_lookup _ _ c' Heq). destruct (decide (c' = c)) as [->|Hne].
  - rewrite lookup_insert_eq, lookup_alter_eq, Hch. intros [= <-]. cbn. f_equal. by destruct o.
  - rewrite lookup_insert_ne, lookup_alter_ne by done. apply Hok.
Qed.

Lemma channel_ops_added me l ops (t : gmap Z nat) hp A :
  threadId_ l = me → p_inv hp A → ops_legal A ops = true → added_ok hp.1 A →
  ∃ hp', channel_ops me l ops (t, hp) = (Ret (), (t, hp')) ∧
    p_inv hp' (spec_chan_ops ops A) ∧ added_ok hp'.1 (spec_chan_ops ops A).
Proof.
  intros Hme. revert hp A. induction ops as [|[c o] ops IH]; intros hp A Hi Hl Hok; [by exists hp|].
  cbn [ops_legal] in Hl. apply andb_prop in Hl as [Hl1 Hl2].
  destruct (run_chan_op_spec hp A c o Hi Hl1) as (hp1 & Hr & Hi1).
  destruct (channel_op_own me l c o t hp A Hme Hi Hl1) as (hp1' & Hr' & _).
  assert (hp1' = hp1) as ->.
  { revert Hr'. unfold channel_op, assertInLoopThread, isInLoopThread, on_poller, mbind, ST_bind, lift.
    rewrite bool_decide_eq_true_2, Hme, Z.eqb_refl by done. cbn [assert_ snd fst]. rewrite Hr. by intros [= ->]. }
  destruct (IH _ _ Hi1 Hl2) as (hp2 & Hr2 & Hi2 & Ho2); [by eapply run_chan_op_added|].
  exists hp2. split; [|done]. cbn [channel_ops]. by rewrite (ST_bind_eq _ _ _ _ _ Hr').
Qed.

Lemma channel_dtor_cases me l c handling s A a :
  p_inv s A → added_ok s.1 A → A !! c = Some a →
  Channel_dtor me l c handling s =
    if handling || bool_decide (a_reg a = Registered) then (AssertFail, s) else (Ret (), (delete c s.1, s.2)).
Proof.
  intros Hi Hok Ha. destruct (p_inv_chan _ _ _ _ Hi Ha) as (ch & Hch & Hfd & _).
  specialize (Hok _ _ Ha). rewrite Hch in Hok. injection Hok as Hadd.
  unfold Channel_dtor. destruct handling; [done|]. unfold EventLoop_hasChannel, hasChannel, assertInLoopThread.
  unfold lift, mbind, ST_bind, st_get, st_modify, mret, ST_ret. cbn [negb assert_ orb]. rewrite Hch.
  cbn [or_undef from_option]. rewrite Hadd. case_bool_decide as Hr; [done|]. cbn [negb assert_].
  destruct (isInLoopThread me l); [|done]. rewrite bool_decide_eq_true_2 by done. cbn [assert_]. rewrite Hch.
  cbn [or_undef from_option]. rewrite bool_decide_eq_false_2; [done|].
  rewrite (channels_of_spec s A (fd_ ch) c Hi). intros (a' & Ha' & _ & Hr'). by simplify_eq.
Qed.

(** When a channel may be destroyed.  After any legal use of a loop's
    channels, by the loop's thread, the destructor of a channel runs through
    exactly when the channel's callbacks are not running and the channel has
    been removed or was never enabled, whatever thread destroys it and
    whatever other channel has taken its descriptor since; otherwise an
    assertion fails before anything has changed. *)
Theorem channel_destroyed (t : gmap Z nat) (hp : chan_heap * P) (A : astate) (l : LoopObject)
    (ops : list (nat * chan_op)) :
  p_inv hp A → added_ok hp.1 A → ops_legal A ops = true → ∃ s,
    channel_ops (threadId_ l) l ops (t, hp) = (Ret (), (t, s)) ∧
    ∀ me c a handling, spec_chan_ops ops A !! c = Some a →
      Channel_dtor me l c handling s =
        if handling || bool_decide (a_reg a = Registered) then (AssertFail, s) else (Ret (), (delete c s.1, s.2)).
Proof.
  intros Hi Hok Hl. destruct (channel_ops_added _ l ops t hp A eq_refl Hi Hl Hok) as (s & Hr & Hi' & Ho').
  exists s. split; [done|]. intros me c a handling Ha. by apply (channel_dtor_cases _ _ _ _ _ _ _ Hi').
Qed.
End Life.

Lemma fresh_added_ok fds : added_ok (fresh_heap fds) (fresh_spec fds).
Proof. intros c a Ha. destruct (fresh_spec_lookup _ _ _ Ha) as [-> ->]. done. Qed.

(** The second channel takes over the descriptor of the first. *)
Definition reuse_ops : list (nat * chan_op) :=
  [(0%nat, EnableReading); (0%nat, DisableAll); (0%nat, Remove); (1%nat, EnableWriting)].

Lemma channel_destroyed_witness : ∃ s,
  channel_ops (P := PollPoller) 3 (MkLoopObject 0 3 7 8) reuse_ops
    (∅, (fresh_heap [5; 5], PollPoller_new)) = (Ret (), (∅, s)) ∧
  Channel_dtor 3 (MkLoopObject 0 3 7 8) 0 false s = (Ret (), (delete 0%nat s.1, s.2)) ∧
  Channel_dtor 3 (MkLoopObject 0 3 7 8) 1 false s = (AssertFail, s).
Proof.
  destruct (channel_destroyed (P := PollPoller) ∅ (fresh_heap [5; 5], PollPoller_new) (fresh_spec [5; 5])
    (MkLoopObject 0 3 7 8) reuse_ops) as (s & Hr & Hd).
  - by apply pp_inv_fresh.
  - apply fresh_added_ok.
  - reflexivity.
  - exists s. split; [exact Hr|].
    split; [apply (Hd 3 0%nat (AChan 5 0 Removed) false)|apply (Hd 3 1%nat (AChan 5 4 Registered) false)]; reflexivity.
Defined.
