(* ===== verification/Sockets.v ===== *)
(** * System calls and sockets (master/net/SocketsOps.cc, Socket.cc)

    Code that talks to the kernel is a program over calls: a tree whose nodes
    are the calls and whose branches are the answers ([prog]).  What a call may
    answer and do to the process's descriptor table is the relation [step],
    with what POSIX documents: a new descriptor is one that was free, an error
    sets [errno], [close] frees the descriptor.  Between two calls other
    threads may open and close their own descriptors and clients may come and
    go ([env_step]).  A log line is a call that may leave any [errno]. *)
From stdpp Require Import gmap relations.
From S2P Require Import Prelude CxxString Endian InetAddress.
Local Open Scope Z_scope.

(** ** Calls and programs *)
Inductive sockopt := SO_REUSEADDR | SO_REUSEPORT | TCP_NODELAY | SO_KEEPALIVE.

Inductive call : Type → Type :=
  | Csocket (family : Z) : call Z
  | Copen_null : call Z
  | Cbind (fd : Z) (addr : InetAddress) : call Z
  | Clisten (fd : Z) : call Z
  | Caccept4 (fd : Z) : call (Z * InetAddress)
  | Caccept (fd : Z) : call Z
  | Cclose (fd : Z) : call Z
  | Cshutdown (fd : Z) : call Z
  | Csetsockopt (fd : Z) (opt : sockopt) (optval : Z) : call Z
  | Cgetsockopt (fd : Z) : call (Z * Z)
  | Cgetsockname (fd : Z) : call (option InetAddress)
  | Cgetpeername (fd : Z) : call (option InetAddress)
  | Cerrno : call Z
  | Cset_errno (e : Z) : call unit
  | Clog : call unit
  (** The acceptor's callback, and its channel's [update] and [remove]. *)
  | Cdeliver (fd : Z) (peer : InetAddress) : call unit
  | Cwatch (fd : Z) : call unit
  | Cunwatch (fd : Z) : call unit.

Inductive prog (A : Type) :=
  | Done (a : A)
  | Abort
  | Call {R} (c : call R) (k : R → prog A).
Arguments Done {A} _.
Arguments Abort {A}.
Arguments Call {A R} _ _.

Fixpoint prog_bind_ {A B} (f : A → prog B) (p : prog A) : prog B :=
  match p with
  | Done a => f a
  | Abort => Abort
  | Call c k => Call c (λ r, prog_bind_ f (k r))
  end.
#[export] Instance prog_ret : MRet prog := λ A a, Done a.
#[export] Instance prog_bind : MBind prog := λ A B f p, prog_bind_ f p.

Definition sys {R} (c : call R) : prog R := Call c Done.

(** [LOG_SYSERR], and [LOG_SYSFATAL] and [LOG_FATAL], which abort. *)
Definition LOG_SYSERR : prog unit := sys Clog.
Definition LOG_FATAL {A} : prog A := _ ← sys Clog; Abort.
Definition assert_prog (b : bool) : prog unit := if b then mret () else Abort.

(** ** SocketsOps.cc *)
Definition EPERM : Z := 1.
Definition EINTR : Z := 4.
Definition EBADF : Z := 9.
Definition EAGAIN : Z := 11.
Definition ENOMEM : Z := 12.
Definition EFAULT : Z := 14.
Definition EINVAL : Z := 22.
Definition ENFILE : Z := 23.
Definition EMFILE : Z := 24.
Definition EPROTO : Z := 71.
Definition ENOTSOCK : Z := 88.
Definition EOPNOTSUPP : Z := 95.
Definition ECONNABORTED : Z := 103.
Definition ENOBUFS : Z := 105.

Definition createNonblockingOrDie (family : Z) : prog Z :=
  sockfd ← sys (Csocket family);
  if sockfd <? 0 then LOG_FATAL else mret sockfd.

Definition bindOrDie (sockfd : Z) (addr : InetAddress) : prog unit :=
  r ← sys (Cbind sockfd addr);
  if r <? 0 then LOG_FATAL else mret ().

Definition listenOrDie (sockfd : Z) : prog unit :=
  r ← sys (Clisten sockfd);
  if r <? 0 then LOG_FATAL else mret ().

Definition expected_errors : list Z := [EAGAIN; ECONNABORTED; EINTR; EPROTO; EPERM; EMFILE].
Definition unexpected_errors : list Z := [EBADF; EFAULT; EINVAL; ENFILE; ENOBUFS; ENOMEM; ENOTSOCK; EOPNOTSUPP].

Definition accept (sockfd : Z) : prog (Z * InetAddress) :=
  '(connfd, addr) ← sys (Caccept4 sockfd);
  if connfd <? 0 then
    savedErrno ← sys Cerrno;
    _ ← LOG_SYSERR;
    _ ← (if bool_decide (savedErrno ∈ expected_errors) then sys (Cset_errno savedErrno)
         else if bool_decide (savedErrno ∈ unexpected_errors) then LOG_FATAL
         else LOG_FATAL);
    mret (connfd, addr)
  else mret (connfd, addr).

Definition close (sockfd : Z) : prog unit :=
  r ← sys (Cclose sockfd);
  if r <? 0 then LOG_SYSERR else mret ().

Definition shutdownWrite (sockfd : Z) : prog unit :=
  r ← sys (Cshutdown sockfd);
  if r <? 0 then LOG_SYSERR else mret ().

Definition getSocketError (sockfd : Z) : prog Z :=
  '(r, optval) ← sys (Cgetsockopt sockfd);
  if r <? 0 then sys Cerrno else mret optval.

(** An address zeroed by [memZero]. *)
Definition zero_addr : InetAddress := MkInet 0 0 (zero_bytes 16).

Definition getLocalAddr (sockfd : Z) : prog InetAddress :=
  a ← sys (Cgetsockname sockfd);
  match a with Some a => mret a | None => _ ← LOG_SYSERR; mret zero_addr end.

Definition getPeerAddr (sockfd : Z) : prog InetAddress :=
  a ← sys (Cgetpeername sockfd);
  match a with Some a => mret a | None => _ ← LOG_SYSERR; mret zero_addr end.

Definition isSelfConnect (sockfd : Z) : prog bool :=
  localaddr ← getLocalAddr sockfd;
  peeraddr ← getPeerAddr sockfd;
  mret (if sin_family localaddr =? AF_INET then
          (sin_port localaddr =? sin_port peeraddr) &&
          bool_decide (ztake 4 (sin_addr localaddr) = ztake 4 (sin_addr peeraddr))
        else if sin_family localaddr =? AF_INET6 then
          (sin_port localaddr =? sin_port peeraddr) &&
          bool_decide (sin_addr localaddr = sin_addr peeraddr)
        else false).

(** ** Socket.cc: the object is its descriptor [sockfd_] *)
Definition Socket_dtor (sockfd_ : Z) : prog unit := close sockfd_.
Definition bindAddress (sockfd_ : Z) (addr : InetAddress) : prog unit := bindOrDie sockfd_ addr.
Definition Socket_listen (sockfd_ : Z) : prog unit := listenOrDie sockfd_.

(** The descriptor and the peer's address as it is afterwards. *)
Definition Socket_accept (sockfd_ : Z) (peeraddr : InetAddress) : prog (Z * InetAddress) :=
  '(connfd, addr) ← accept sockfd_;
  mret (connfd, if 0 <=? connfd then addr else peeraddr).

Definition Socket_shutdownWrite (sockfd_ : Z) : prog unit := shutdownWrite sockfd_.

Definition set_option (sockfd_ : Z) (opt : sockopt) (on : bool) : prog Z :=
  sys (Csetsockopt sockfd_ opt (if on then 1 else 0)).
Definition setTcpNoDelay (sockfd_ : Z) (on : bool) : prog unit := _ ← set_option sockfd_ TCP_NODELAY on; mret ().
Definition setReuseAddr (sockfd_ : Z) (on : bool) : prog unit := _ ← set_option sockfd_ SO_REUSEADDR on; mret ().
Definition setKeepAlive (sockfd_ : Z) (on : bool) : prog unit := _ ← set_option sockfd_ SO_KEEPALIVE on; mret ().
Definition setReusePort (sockfd_ : Z) (on : bool) : prog unit :=
  ret ← set_option sockfd_ SO_REUSEPORT on;
  if (ret <? 0) && on then LOG_SYSERR else mret ().

(** ** The process *)
Inductive owner := Mine | Theirs.

Record World := MkWorld {
  fds_ : gmap Z owner;
  watched_ : gset Z;
  (** Connections the kernel holds for the listening socket. *)
  backlog_ : nat;
  errno_ : Z;
}.

Definition set_fds f w := MkWorld f (watched_ w) (backlog_ w) (errno_ w).
Definition set_watched y w := MkWorld (fds_ w) y (backlog_ w) (errno_ w).
Definition set_backlog n w := MkWorld (fds_ w) (watched_ w) n (errno_ w).
Definition set_errno e w := MkWorld (fds_ w) (watched_ w) (backlog_ w) e.

Definition error (w : World) (r : Z) (w' : World) : Prop := r = -1 ∧ ∃ e, e ≠ 0 ∧ w' = set_errno e w.

(** A call that returns a new descriptor. *)
Definition opens (w : World) (r : Z) (w' : World) : Prop :=
  0 ≤ r ∧ fds_ w !! r = None ∧ w' = set_fds (<[r := Mine]> (fds_ w)) w ∨ error w r w'.

Definition accepts (w : World) (r : Z) (w' : World) : Prop :=
  ∃ w1, opens w r w1 ∧ (0 ≤ r → ∃ n, backlog_ w = S n ∧ w' = set_backlog n w1) ∧ (r < 0 → w' = w1).

(** A failed [close] of an open descriptor has freed it too (Linux). *)
Definition closes (fd : Z) (w : World) (r : Z) (w' : World) : Prop :=
  match fds_ w !! fd with
  | Some _ => let w1 := set_fds (delete fd (fds_ w)) w in r = 0 ∧ w' = w1 ∨ error w1 r w'
  | None => r = -1 ∧ w' = set_errno EBADF w
  end.

Definition succeeds_or_fails (w : World) (r : Z) (w' : World) : Prop := r = 0 ∧ w' = w ∨ error w r w'.

Definition step {R} (c : call R) : World → R → World → Prop :=
  match c in call R return World → R → World → Prop with
  | Csocket _ | Copen_null => opens
  | Cbind _ _ | Clisten _ | Cshutdown _ | Csetsockopt _ _ _ => succeeds_or_fails
  | Caccept4 _ => λ w r w', accepts w r.1 w'
  | Caccept _ => accepts
  | Cclose fd => closes fd
  | Cgetsockopt _ => λ w r w', succeeds_or_fails w r.1 w'
  | Cgetsockname _ | Cgetpeername _ => λ w r w', match r with Some _ => w' = w | None => error w (-1) w' end
  | Cerrno => λ w r w', r = errno_ w ∧ w' = w
  | Cset_errno e => λ w _ w', w' = set_errno e w
  | Clog => λ w _ w', ∃ e, w' = set_errno e w
  | Cdeliver fd _ => λ w _ w', ∃ e, w' = set_errno e (set_fds (<[fd := Theirs]> (fds_ w)) w)
  | Cwatch fd => λ w _ w', ∃ e, w' = set_errno e (set_watched ({[fd]} ∪ watched_ w) w)
  | Cunwatch fd => λ w _ w', ∃ e, w' = set_errno e (set_watched (watched_ w ∖ {[fd]}) w)
  end.

Inductive env_step (w : World) : World → Prop :=
  | env_open fd : 0 ≤ fd → fds_ w !! fd = None → env_step w (set_fds (<[fd := Theirs]> (fds_ w)) w)
  | env_close fd : fds_ w !! fd = Some Theirs → env_step w (set_fds (delete fd (fds_ w)) w)
  | env_clients n : env_step w (set_backlog n w).

(** One move of the program or of the others. *)
Inductive move {A} : prog A * World → prog A * World → Prop :=
  | move_call {R} (c : call R) k r w w' : step c w r w' → move (Call c k, w) (k r, w')
  | move_env p w w' : env_step w w' → move (p, w) (p, w').

(** What a careful caller may ask: descriptors of its own, and no descriptor
    closed or given away while the poller still watches it. *)
Definition call_ok {R} (c : call R) (w : World) : Prop :=
  match c with
  | Cbind fd _ | Clisten fd | Caccept4 fd | Caccept fd | Cshutdown fd | Csetsockopt fd _ _
  | Cgetsockopt fd | Cgetsockname fd | Cgetpeername fd | Cwatch fd | Cunwatch fd => fds_ w !! fd = Some Mine
  | Cclose fd => fds_ w !! fd = Some Mine ∧ fd ∉ watched_ w ∨ fd = -1 ∧ fds_ w !! fd = None
  | Cdeliver fd _ => fds_ w !! fd = Some Mine ∧ fd ∉ watched_ w
  | Csocket _ | Copen_null | Cerrno | Cset_errno _ | Clog => True
  end.

(** ** Reasoning about programs *)

(** Every call on the way is in order and the result satisfies [Q], whatever
    is answered and whatever happens in between. *)
Fixpoint wp {A} (p : prog A) (Q : A → World → Prop) (w : World) : Prop :=
  match p with
  | Done a => Q a w
  | Abort => True
  | Call c k => ∀ w1, rtc env_step w w1 → call_ok c w1 ∧ ∀ r w2, step c w1 r w2 → wp (k r) Q w2
  end.

Definition stable (P : World → Prop) : Prop := ∀ w w', env_step w w' → P w → P w'.

Lemma stable_rtc P w w' : stable P → rtc env_step w w' → P w → P w'.
Proof. intros HP. induction 1 as [|w w1 w2 H _ IH]; [done|]. intros Hw. apply IH. by eapply HP. Qed.

Lemma wp_mono {A} (p : prog A) (Q Q' : A → World → Prop) w :
  (∀ a w, Q a w → Q' a w) → wp p Q w → wp p Q' w.
Proof.
  intros HQ. revert w. induction p as [a| |R c k IH]; intros w; [apply HQ|done|].
  intros H w1 Hw1. destruct (H w1 Hw1) as [Hc Hk]. split; [done|]. intros r w2 Hs. by apply IH, Hk.
Qed.

Lemma wp_bind {A B} (p : prog A) (f : A → prog B) Q w :
  wp p (λ a w, wp (f a) Q w) w → wp (p ≫= f) Q w.
Proof.
  revert w. induction p as [a| |R c k IH]; intros w; [done|done|].
  intros H w1 Hw1. destruct (H w1 Hw1) as [Hc Hk]. split; [done|]. intros r w2 Hs. by apply IH, Hk.
Qed.

Lemma wp_env {A} (p : prog A) Q w w' : (∀ a, stable (Q a)) → env_step w w' → wp p Q w → wp p Q w'.
Proof.
  destruct p as [a| |R c k]; intros HQ Hw; [by eapply HQ|done|].
  intros H w1 Hw1. apply H. by eapply rtc_l.
Qed.

(** Every state a run reaches asks an allowed call, or ends as promised. *)
Lemma wp_adequate {A} (p p' : prog A) Q w w' :
  (∀ a, stable (Q a)) → wp p Q w → rtc move (p, w) (p', w') → wp p' Q w'.
Proof.
  intros HQ Hw Hr. change (wp (p, w).1 Q (p, w).2) in Hw. change (wp (p', w').1 Q (p', w').2).
  induction Hr as [x|x z y Hm _ IH]; [done|]. apply IH. clear IH.
  destruct Hm as [R c k r w1 w2 Hs|q w1 w2 He]; cbn [fst snd] in *.
  - destruct (Hw w1 (rtc_refl _ _)) as [_ Hk]. by apply Hk.
  - by apply (wp_env q Q w1).
Qed.

Definition next_call_ok {A} (p : prog A) (w : World) : Prop :=
  match p with Call c _ => call_ok c w | _ => True end.

Lemma wp_next {A} (p : prog A) Q w : wp p Q w → next_call_ok p w.
Proof. destruct p; [done|done|]. intros H. by apply (H w (rtc_refl _ _)). Qed.

(** ** Owning descriptors *)

(** Exactly the descriptors of [X] are the program's, and it watches [Y]. *)
Definition own (X Y : gset Z) (w : World) : Prop :=
  (∀ fd, fds_ w !! fd = Some Mine ↔ fd ∈ X) ∧ (∀ fd, is_Some (fds_ w !! fd) → 0 ≤ fd) ∧ watched_ w = Y.

Lemma own_stable X Y : stable (own X Y).
Proof.
  intros w w' [fd Hfd Hn|fd Ht|n] (HX & Hp & HY); (split; [|split; [|done]]); cbn; try done.
  - intros f. rewrite <-HX, lookup_insert. case_decide; [subst; by rewrite Hn|done].
  - intros f. rewrite lookup_insert. case_decide; [by subst|apply Hp].
  - intros f. rewrite <-HX, lookup_delete. case_decide; [subst; by rewrite Ht|done].
  - intros f. rewrite lookup_delete. case_decide; [by intros [? ?]|apply Hp].
Qed.

Lemma own_errno X Y e w : own X Y (set_errno e w) ↔ own X Y w.
Proof. done. Qed.

Lemma own_insert X Y w fd :
  own X Y w → 0 ≤ fd → fds_ w !! fd = None → own ({[fd]} ∪ X) Y (set_fds (<[fd := Mine]> (fds_ w)) w) ∧ fd ∉ X.
Proof.
  intros (HX & Hp & HY) H0 Hn. split; [|rewrite <-HX; by rewrite Hn].
  split; [|split; [|done]]; cbn; intros f; rewrite lookup_insert; case_decide; subst.
  - set_solver.
  - rewrite HX. set_solver.
  - done.
  - apply Hp.
Qed.

Lemma own_remove X Y w fd m :
  own X Y w → (∀ f, f ≠ fd → m !! f = fds_ w !! f) → m !! fd ≠ Some Mine → (is_Some (m !! fd) → 0 ≤ fd) →
  own (X ∖ {[fd]}) Y (set_fds m w).
Proof.
  intros (HX & Hp & HY) Hm Hn H0. split; [|split; [|done]]; cbn; intros f.
  - destruct (decide (f = fd)) as [->|Hf]; [set_solver|]. rewrite Hm, HX by done. set_solver.
  - destruct (decide (f = fd)) as [->|Hf]; [done|]. rewrite Hm by done. apply Hp.
Qed.

Lemma own_sub X Y w fd : own X Y w → fds_ w !! fd = Some Mine ↔ fd ∈ X.
Proof. intros (HX & _). apply HX. Qed.

(** A call under a stable assertion. *)
Lemma wp_call {A R} (c : call R) (k : R → prog A) (P : World → Prop) Q w :
  stable P → P w →
  (∀ w1, P w1 → call_ok c w1 ∧ ∀ r w2, step c w1 r w2 → wp (k r) Q w2) → wp (Call c k) Q w.
Proof. intros HP Hw H w1 Hw1. apply H. by eapply stable_rtc. Qed.

(** [c] keeps the descriptors. *)
Definition neutral {R} (c : call R) : Prop := ∀ X Y w r w', step c w r w' → own X Y w → own X Y w'.

Lemma wp_neutral {A R} (c : call R) (k : R → prog A) X Y Q w :
  neutral c → (∀ w1, own X Y w1 → call_ok c w1) → own X Y w →
  (∀ r w2, own X Y w2 → wp (k r) Q w2) → wp (Call c k) Q w.
Proof.
  intros Hc Hok Hw H. apply (wp_call c k (own X Y)); [apply own_stable|done|].
  intros w1 Hw1. split; [by apply Hok|]. intros r w2 Hs. apply H. by eapply Hc.
Qed.

Definition triple {A} (P : World → Prop) (p : prog A) (Q : A → World → Prop) : Prop := ∀ w, P w → wp p Q w.

Lemma triple_bind {A B} (p : prog A) (f : A → prog B) P Q R :
  triple P p Q → (∀ a, triple (Q a) (f a) R) → triple P (p ≫= f) R.
Proof. intros Hp Hf w Hw. apply wp_bind. eapply wp_mono; [|by apply Hp]. intros a w'. apply Hf. Qed.

Lemma triple_ret {A} (a : A) P (Q : A → World → Prop) : (∀ w, P w → Q a w) → triple P (mret a) Q.
Proof. intros H w Hw. by apply H. Qed.

Lemma triple_mono {A} (p : prog A) P Q Q' :
  triple P p Q → (∀ a w, Q a w → Q' a w) → triple P p Q'.
Proof. intros H HQ w Hw. eapply wp_mono; [apply HQ|by apply H]. Qed.

Lemma triple_pre {A} (p : prog A) (φ : Prop) P Q : (φ → triple P p Q) → triple (λ w, φ ∧ P w) p Q.
Proof. intros H w [Hφ Hw]. by apply H. Qed.

Lemma triple_neutral {R} (c : call R) X Y :
  neutral c → (∀ w, own X Y w → call_ok c w) → triple (own X Y) (sys c) (λ _, own X Y).
Proof. intros Hc Hok w Hw. by eapply wp_neutral. Qed.

Section Specs.
Context (X Y : gset Z).

Lemma neutral_succeeds R (c : call R) (f : R → Z) :
  (∀ w r w', step c w r w' → succeeds_or_fails w (f r) w') → neutral c.
Proof. by intros H X' Y' w r w' [[_ ->]|[_ (e & _ & ->)]]%H. Qed.

Lemma neutral_log : neutral Clog.
Proof. by intros X' Y' w r w' [e ->]. Qed.
Lemma neutral_errno : neutral Cerrno.
Proof. by intros X' Y' w r w' [_ ->]. Qed.
Lemma neutral_set_errno e : neutral (Cset_errno e).
Proof. by intros X' Y' w r w' ->. Qed.

Lemma log_spec : triple (own X Y) LOG_SYSERR (λ _, own X Y).
Proof. by apply triple_neutral; [apply neutral_log|]. Qed.

Lemma fatal_spec {A} (Q : A → World → Prop) : triple (own X Y) LOG_FATAL Q.
Proof. eapply triple_bind; [apply log_spec|]. by intros [] w _. Qed.

Lemma succeeds_spec {R} (c : call R) (f : R → Z) fd :
  (∀ w r w', step c w r w' → succeeds_or_fails w (f r) w') →
  (∀ w, fds_ w !! fd = Some Mine → call_ok c w) → fd ∈ X →
  triple (own X Y) (sys c) (λ _, own X Y).
Proof.
  intros Hs Hok Hfd. apply triple_neutral; [by eapply neutral_succeeds|].
  intros w Hw. apply Hok. by apply (own_sub X Y).
Qed.

(** A new descriptor, or none. *)
Definition gains (r : Z) (w : World) : Prop :=
  own (if r <? 0 then X else {[r]} ∪ X) Y w ∧ (0 ≤ r → r ∉ X) ∧ -1 ≤ r.

Lemma opens_gains w r w' : own X Y w → opens w r w' → gains r w'.
Proof.
  intros Hw [(H0 & Hn & ->)|[-> (e & _ & ->)]]; unfold gains; [|split; [done|lia]].
  rewrite (proj2 (Z.ltb_ge _ _)) by done. destruct (own_insert X Y w r Hw H0 Hn). split; [done|]. split; [done|lia].
Qed.

Lemma accepts_gains w r w' : own X Y w → accepts w r w' → gains r w'.
Proof.
  intros Hw (w1 & Ho & H0 & H1). apply (opens_gains w) in Ho; [|done].
  destruct (Z.lt_ge_cases r 0) as [Hr|Hr]; [by rewrite (H1 Hr)|].
  destruct (H0 Hr) as (n & _ & ->). exact Ho.
Qed.

Lemma opens_spec (c : call Z) :
  (∀ w r w', step c w r w' → opens w r w') → (∀ w, call_ok c w) → triple (own X Y) (sys c) gains.
Proof.
  intros Hs Hok w Hw. apply (wp_call c Done (own X Y)); [apply own_stable|done|].
  intros w1 Hw1. split; [done|]. intros r w2 Hr. by eapply opens_gains, Hs.
Qed.

Lemma accept_raw_spec fd : fd ∈ X → triple (own X Y) (sys (Caccept fd)) gains.
Proof.
  intros Hfd w Hw. apply (wp_call _ Done (own X Y)); [apply own_stable|done|].
  intros w1 Hw1. split; [by apply (own_sub X Y)|]. intros r w2 Hr. by eapply accepts_gains.
Qed.

Lemma closes_own fd w r w' : own X Y w → closes fd w r w' → own (X ∖ {[fd]}) Y w'.
Proof.
  intros Hw Hc. unfold closes in Hc. destruct (fds_ w !! fd) eqn:Hfd.
  - assert (own (X ∖ {[fd]}) Y (set_fds (delete fd (fds_ w)) w)) as Ho.
    { apply own_remove; [done|..].
      - intros f Hf. by rewrite lookup_delete_ne.
      - by rewrite lookup_delete_eq.
      - rewrite lookup_delete_eq. by intros [? ?]. }
    destruct Hc as [[_ ->]|[_ (e & _ & ->)]]; exact Ho.
  - destruct Hc as [_ ->]. apply own_errno.
    replace (X ∖ {[fd]}) with X; [done|]. apply leibniz_equiv.
    assert (fd ∉ X) by (rewrite <-(own_sub X Y w fd Hw); congruence). set_solver.
Qed.

Lemma close_raw_spec fd :
  fd ∈ X ∧ fd ∉ Y ∨ fd = -1 ∧ fd ∉ X → triple (own X Y) (sys (Cclose fd)) (λ _, own (X ∖ {[fd]}) Y).
Proof.
  intros Hfd w Hw. apply (wp_call _ Done (own X Y)); [apply own_stable|done|].
  intros w1 Hw1. split; [|intros r w2; by apply closes_own].
  destruct Hw1 as (HX & Hp & HY). destruct Hfd as [[Hfd Hy]|[-> Hx]]; [left|right].
  - rewrite HY. split; [by apply HX|done].
  - split; [done|]. destruct (fds_ w1 !! (-1)) eqn:E; [|done]. assert (0 ≤ -1) by (apply Hp; eauto). lia.
Qed.

Lemma deliver_spec fd a :
  fd ∈ X → fd ∉ Y → triple (own X Y) (sys (Cdeliver fd a)) (λ _, own (X ∖ {[fd]}) Y).
Proof.
  intros Hfd Hy w Hw. apply (wp_call _ Done (own X Y)); [apply own_stable|done|].
  intros w1 Hw1. pose proof (proj2 (own_sub X Y w1 fd Hw1) Hfd) as Hm.
  split; [split; [done|]; by destruct Hw1 as (_ & _ & ->)|].
  intros r w2 [e ->]. apply own_errno, own_remove; [done|..].
  - intros f Hf. by rewrite lookup_insert_ne.
  - by rewrite lookup_insert_eq.
  - intros _. destruct Hw1 as (_ & Hp & _). apply Hp. eauto.
Qed.

Lemma watch_spec fd : fd ∈ X → triple (own X Y) (sys (Cwatch fd)) (λ _, own X ({[fd]} ∪ Y)).
Proof.
  intros Hfd w Hw. apply (wp_call _ Done (own X Y)); [apply own_stable|done|].
  intros w1 Hw1. split; [by apply (own_sub X Y)|].
  intros r w2 [e ->]. destruct Hw1 as (HX & Hp & HY). split; [done|]. split; [done|]. cbn. by rewrite HY.
Qed.

Lemma unwatch_spec fd : fd ∈ X → triple (own X Y) (sys (Cunwatch fd)) (λ _, own X (Y ∖ {[fd]})).
Proof.
  intros Hfd w Hw. apply (wp_call _ Done (own X Y)); [apply own_stable|done|].
  intros w1 Hw1. split; [by apply (own_sub X Y)|].
  intros r w2 [e ->]. destruct Hw1 as (HX & Hp & HY). split; [done|]. split; [done|]. cbn. by rewrite HY.
Qed.
End Specs.

Section Functions.
Context (X Y : gset Z) (fd : Z) (Hfd : fd ∈ X).

Lemma accept_spec :
  triple (own X Y) (accept fd) (λ r, gains X Y r.1).
Proof.
  unfold accept. apply (triple_bind _ _ _ (λ r, gains X Y r.1)).
  - intros w Hw. apply (wp_call _ Done (own X Y)); [apply own_stable|done|].
    intros w1 Hw1. split; [by apply (own_sub X Y)|]. intros r w2 Hr. by eapply accepts_gains.
  - intros [connfd addr]. cbn [fst]. destruct (connfd <? 0) eqn:E; [|by apply triple_ret].
    unfold gains. rewrite E. intros w [Hw [_ H1]]. revert w Hw. bool_to_prop.
    eapply (triple_bind (A := Z) _ _ (own X Y) (λ _, own X Y)); [by apply triple_neutral; [apply neutral_errno|]|].
    intros e. apply (triple_bind _ _ _ (λ _, own X Y)); [apply log_spec|]. intros _.
    apply (triple_bind _ _ _ (λ _, own X Y)).
    + case_bool_decide; [by apply triple_neutral; [apply neutral_set_errno|]|].
      case_bool_decide; apply fatal_spec.
    + intros _. apply triple_ret. intros w Hw. cbn [fst]. rewrite (proj2 (Z.ltb_lt _ _)) by done.
      split; [done|]. lia.
Qed.

Lemma Socket_accept_spec peer : triple (own X Y) (Socket_accept fd peer) (λ r, gains X Y r.1).
Proof.
  unfold Socket_accept. eapply triple_bind; [apply accept_spec|]. intros [connfd addr]. by apply triple_ret.
Qed.

Lemma close_spec : fd ∉ Y → triple (own X Y) (close fd) (λ _, own (X ∖ {[fd]}) Y).
Proof.
  intros Hy. unfold close. eapply triple_bind; [by apply close_raw_spec; left|].
  intros r. case_if; [apply log_spec|by apply triple_ret].
Qed.

Lemma or_die_spec (c : call Z) :
  (∀ w r w', step c w r w' → succeeds_or_fails w r w') → (∀ w, fds_ w !! fd = Some Mine → call_ok c w) →
  triple (own X Y) (r ← sys c; if r <? 0 then LOG_FATAL else mret ()) (λ _, own X Y).
Proof.
  intros Hs Hok. eapply triple_bind; [by eapply (succeeds_spec X Y c id)|].
  intros r. case_if; [apply fatal_spec|by apply triple_ret].
Qed.

Lemma set_option_spec opt on : triple (own X Y) (set_option fd opt on) (λ _, own X Y).
Proof. by apply (succeeds_spec X Y (Csetsockopt fd opt _) id fd). Qed.
End Functions.
