(* ===== verification/Acceptor.v ===== *)
(** * The acceptor (master/net/Acceptor.h, Acceptor.cc)

    An acceptor listens on a socket of its own and hands every connection it
    accepts to its callback, in the loop's thread.  It keeps a spare
    descriptor: when the process has none left, it gives the spare one up to
    accept the connection and close it.  The program of each member is over
    the calls of the file Sockets; the callback is [Cdeliver], after which the
    descriptor belongs to whoever took it. *)
From stdpp Require Import gmap relations.
From S2P Require Import Prelude CxxString InetAddress Sockets.
Local Open Scope Z_scope.

Record Acceptor := MkAcceptor {
  acceptSocket_ : Z;
  newConnectionCallback_ : bool;
  listenning_ : bool;
  idleFd_ : Z;
}.

Definition setNewConnectionCallback (a : Acceptor) : Acceptor :=
  MkAcceptor (acceptSocket_ a) true (listenning_ a) (idleFd_ a).
Definition set_listenning (a : Acceptor) : Acceptor :=
  MkAcceptor (acceptSocket_ a) (newConnectionCallback_ a) true (idleFd_ a).
Definition set_idleFd (fd : Z) (a : Acceptor) : Acceptor :=
  MkAcceptor (acceptSocket_ a) (newConnectionCallback_ a) (listenning_ a) fd.

Definition Acceptor_ctor (listenAddr : InetAddress) (reuseport : bool) : prog Acceptor :=
  acceptSocket ← createNonblockingOrDie (family listenAddr);
  idleFd ← sys Copen_null;
  _ ← assert_prog (0 <=? idleFd);
  _ ← setReuseAddr acceptSocket true;
  _ ← setReusePort acceptSocket reuseport;
  _ ← bindAddress acceptSocket listenAddr;
  mret (MkAcceptor acceptSocket false false idleFd).

(** The channel's [disableAll] updates the poller, [remove] ends its watch;
    the socket is destroyed last. *)
Definition Acceptor_dtor (a : Acceptor) : prog unit :=
  _ ← sys (Cwatch (acceptSocket_ a));
  _ ← sys (Cunwatch (acceptSocket_ a));
  _ ← sys (Cclose (idleFd_ a));
  Socket_dtor (acceptSocket_ a).

Definition listen (a : Acceptor) : prog Acceptor :=
  let a := set_listenning a in
  _ ← Socket_listen (acceptSocket_ a);
  _ ← sys (Cwatch (acceptSocket_ a));
  mret a.

(** [InetAddress peerAddr], on a little- or big-endian machine alike. *)
Definition any_addr : InetAddress := MkInet AF_INET 0 (zero_bytes 4).

Definition handleRead (a : Acceptor) : prog Acceptor :=
  '(connfd, peerAddr) ← Socket_accept (acceptSocket_ a) any_addr;
  if 0 <=? connfd then
    _ ← (if newConnectionCallback_ a then sys (Cdeliver connfd peerAddr) else close connfd);
    mret a
  else
    _ ← LOG_SYSERR;
    e ← sys Cerrno;
    if e =? EMFILE then
      _ ← sys (Cclose (idleFd_ a));
      idle ← sys (Caccept (acceptSocket_ a));
      _ ← sys (Cclose idle);
      idle' ← sys Copen_null;
      mret (set_idleFd idle' a)
    else mret a.

(** A life of an acceptor: built, used in the loop's thread, destroyed. *)
Inductive member := MSetCallback | MListen | MHandleRead.

Definition run_member (m : member) (a : Acceptor) : prog Acceptor :=
  match m with
  | MSetCallback => mret (setNewConnectionCallback a)
  | MListen => listen a
  | MHandleRead => handleRead a
  end.

Fixpoint run_members (ms : list member) (a : Acceptor) : prog Acceptor :=
  match ms with
  | [] => mret a
  | m :: ms' => a' ← run_member m a; run_members ms' a'
  end.

Definition life (listenAddr : InetAddress) (reuseport : bool) (ms : list member) : prog unit :=
  a ← Acceptor_ctor listenAddr reuseport;
  a' ← run_members ms a;
  Acceptor_dtor a'.

(** ** The invariant between two members *)
Definition owned (a : Acceptor) : gset Z :=
  if idleFd_ a <? 0 then {[acceptSocket_ a]} else {[acceptSocket_ a; idleFd_ a]}.

Definition acceptor_ok (a : Acceptor) (w : World) : Prop :=
  ∃ Y, own (owned a) Y w ∧ Y ⊆ {[acceptSocket_ a]} ∧ 0 ≤ acceptSocket_ a ∧ idleFd_ a ≠ acceptSocket_ a ∧ -1 ≤ idleFd_ a.

Lemma triple_gains {B} X Y (f : Z → prog B) Q :
  (∀ r, 0 ≤ r → r ∉ X → triple (own ({[r]} ∪ X) Y) (f r) Q) →
  triple (own X Y) (f (-1)) Q → ∀ r, triple (gains X Y r) (f r) Q.
Proof.
  intros H0 H1 r w (Hw & Hr & Hm). destruct (r <? 0) eqn:E; bool_to_prop.
  - assert (r = -1) as -> by lia. by apply H1.
  - apply H0; [done|by apply Hr|done].
Qed.

Lemma triple_own_eq {B} X X' Y (p : prog B) Q : X = X' → triple (own X' Y) p Q → triple (own X Y) p Q.
Proof. by intros ->. Qed.

(** The spare descriptor closed, whether there is one or not. *)
Lemma close_idle_spec a Y :
  Y ⊆ {[acceptSocket_ a]} → 0 ≤ acceptSocket_ a → idleFd_ a ≠ acceptSocket_ a → -1 ≤ idleFd_ a →
  triple (own (owned a) Y) (sys (Cclose (idleFd_ a))) (λ _, own {[acceptSocket_ a]} Y).
Proof.
  intros HY H0 Hne Hm. unfold owned. destruct (idleFd_ a <? 0) eqn:E; bool_to_prop.
  - eapply triple_mono; [apply close_raw_spec; right; split; [lia|rewrite not_elem_of_singleton; lia]|].
    intros ? w. cbv beta. by rewrite difference_disjoint_L by (by rewrite disjoint_singleton_r, not_elem_of_singleton).
  - eapply triple_mono; [apply close_raw_spec; left; set_solver|].
    intros ? w. cbv beta. replace ({[acceptSocket_ a; idleFd_ a]} ∖ {[idleFd_ a]}) with ({[acceptSocket_ a]} : gset Z) by set_solver.
    done.
Qed.

(** A descriptor just obtained, or -1, closed again. *)
Lemma close_gained_spec X Y r :
  Y ⊆ X → (∀ fd, fd ∈ X → 0 ≤ fd) → triple (gains X Y r) (sys (Cclose r)) (λ _, own X Y).
Proof.
  intros HY HX. revert r. apply triple_gains.
  - intros r H0 Hr. eapply triple_mono; [apply close_raw_spec; left; set_solver|].
    intros ? w. cbv beta. by replace (({[r]} ∪ X) ∖ {[r]}) with X by set_solver.
  - eapply triple_mono; [apply close_raw_spec; right; split; [done|]|].
    + intros H%HX. lia.
    + intros ? w. cbv beta. rewrite difference_disjoint_L; [done|]. intros x Hx ->%elem_of_singleton. apply HX in Hx. lia.
Qed.

Lemma set_idle_ok a Y r :
  Y ⊆ {[acceptSocket_ a]} → 0 ≤ acceptSocket_ a →
  triple (gains {[acceptSocket_ a]} Y r) (mret (set_idleFd r a)) acceptor_ok.
Proof.
  intros HY H0. apply triple_ret. intros w (Hw & Hr & Hm). exists Y. unfold owned. cbn.
  split; [|split; [done|]; split; [done|]; split; [|done]].
  - destruct (r <? 0); [done|]. by rewrite union_comm_L.
  - intros ->. apply Hr; set_solver.
Qed.

Lemma acceptor_read_ok a : triple (acceptor_ok a) (handleRead a) acceptor_ok.
Proof.
  intros w (Y & Hw & HY & H0 & Hne & Hm). revert w Hw.
  assert (Hself : acceptSocket_ a ∈ owned a) by (unfold owned; case_if; set_solver).
  assert (Hsame : triple (own (owned a) Y) (mret a) acceptor_ok).
  { apply triple_ret. intros w Hw. by exists Y. }
  unfold handleRead. eapply triple_bind; [by apply Socket_accept_spec|].
  intros [connfd peer]. cbn [fst]. revert connfd. apply triple_gains.
  - intros c Hc Hn. rewrite (proj2 (Z.leb_le _ _)) by done.
    assert (Heq : ({[c]} ∪ owned a) ∖ {[c]} = owned a) by set_solver.
    apply (triple_bind _ _ _ (λ _, own (({[c]} ∪ owned a) ∖ {[c]}) Y)); [|by rewrite Heq].
    destruct (newConnectionCallback_ a).
    + apply deliver_spec; set_solver.
    + apply close_spec; set_solver.
  - change (0 <=? -1) with false. cbv iota.
    eapply triple_bind; [apply log_spec|]. intros ?.
    eapply triple_bind; [apply (triple_neutral Cerrno); [apply neutral_errno|done]|]. intros e.
    destruct (e =? EMFILE); [|done].
    eapply triple_bind; [by apply close_idle_spec|]. intros ?.
    eapply triple_bind; [apply accept_raw_spec; set_solver|]. intros r.
    eapply triple_bind; [apply close_gained_spec; [done|set_solver]|]. intros ?.
    eapply triple_bind; [by apply (opens_spec _ _ Copen_null)|]. intros r'. by apply set_idle_ok.
Qed.

Lemma acceptor_ctor_ok addr reuseport : triple (own ∅ ∅) (Acceptor_ctor addr reuseport) acceptor_ok.
Proof.
  unfold Acceptor_ctor, createNonblockingOrDie.
  eapply (triple_bind _ _ _ (λ s, λ w, 0 ≤ s ∧ own {[s]} ∅ w)).
  { eapply triple_bind; [by apply (opens_spec _ _ (Csocket _))|]. apply triple_gains; [|apply fatal_spec].
    intros r H0 _. rewrite (proj2 (Z.ltb_ge _ _)) by done. rewrite union_empty_r_L. by apply triple_ret. }
  intros s. apply triple_pre. intros H0.
  eapply triple_bind; [by apply (opens_spec _ _ Copen_null)|]. apply triple_gains; [|by intros w _].
  intros d Hd Hn. rewrite (proj2 (Z.leb_le _ _)) by done. cbn [assert_prog].
  assert (Hs : s ∈ ({[d]} ∪ {[s]} : gset Z)) by set_solver.
  eapply (triple_bind _ _ _ (λ _, own ({[d]} ∪ {[s]}) ∅)); [by apply triple_ret|]. intros ?.
  eapply (triple_bind _ _ _ (λ _, own ({[d]} ∪ {[s]}) ∅)).
  { eapply triple_bind; [by apply set_option_spec|]. intros ?. by apply triple_ret. }
  intros ?. eapply (triple_bind _ _ _ (λ _, own ({[d]} ∪ {[s]}) ∅)).
  { eapply triple_bind; [by apply set_option_spec|]. intros r. case_if; [apply log_spec|by apply triple_ret]. }
  intros ?. eapply (triple_bind _ _ _ (λ _, own ({[d]} ∪ {[s]}) ∅)); [by apply (or_die_spec _ _ s)|].
  intros ?. apply triple_ret. intros w Hw. exists ∅. unfold owned. cbn.
  rewrite (proj2 (Z.ltb_ge _ _)), union_comm_L by done. split; [done|]. split; [set_solver|].
  split; [done|]. split; [set_solver|lia].
Qed.

Lemma listen_ok a : triple (acceptor_ok a) (listen a) acceptor_ok.
Proof.
  intros w (Y & Hw & HY & H0 & Hr). revert w Hw.
  assert (Hself : acceptSocket_ a ∈ owned a) by (unfold owned; case_if; set_solver).
  eapply (triple_bind _ _ _ (λ _, own (owned a) Y)); [by apply (or_die_spec _ _ (acceptSocket_ a))|].
  intros ?. eapply triple_bind; [by apply watch_spec|]. intros ?. apply triple_ret. intros w Hw.
  eexists. split; [done|]. split; [set_solver|done].
Qed.

Lemma members_ok ms a : triple (acceptor_ok a) (run_members ms a) acceptor_ok.
Proof.
  revert a. induction ms as [|m ms IH]; intros a; [by apply triple_ret|].
  apply (triple_bind _ _ _ acceptor_ok); [|exact IH].
  destruct m; [|apply listen_ok|apply acceptor_read_ok]. by apply triple_ret.
Qed.

Lemma acceptor_dtor_ok a : triple (acceptor_ok a) (Acceptor_dtor a) (λ _, own ∅ ∅).
Proof.
  intros w (Y & Hw & HY & H0 & Hne & Hm). revert w Hw.
  assert (Hself : acceptSocket_ a ∈ owned a) by (unfold owned; case_if; set_solver).
  eapply triple_bind; [by apply watch_spec|]. intros ?.
  eapply triple_bind; [by apply unwatch_spec|]. intros ?.
  eapply triple_bind; [apply close_idle_spec; [set_solver|done..]|]. intros ?.
  eapply triple_mono; [apply close_spec; set_solver|].
  intros ? w. cbv beta. by replace ({[acceptSocket_ a]} ∖ {[acceptSocket_ a]} : gset Z) with (∅ : gset Z) by set_solver;
    replace (({[acceptSocket_ a]} ∪ Y) ∖ {[acceptSocket_ a]}) with (∅ : gset Z) by set_solver.
Qed.

Lemma life_ok addr reuseport ms : triple (own ∅ ∅) (life addr reuseport ms) (λ _, own ∅ ∅).
Proof.
  eapply triple_bind; [apply acceptor_ctor_ok|]. intros a. eapply triple_bind; [apply members_ok|]. apply acceptor_dtor_ok.
Qed.

(** ** Properties *)

(** C20: An acceptor never touches a descriptor that is not its own.  Through
    any life of it, whatever the kernel answers to each call and whatever
    descriptors other threads open and close in between, every descriptor it
    binds, listens on, accepts from, watches, hands over or closes is open and
    its own at that moment (or the -1 of a failed call, which closes nothing),
    none is handed over or closed while the poller still watches it, and when
    its destructor returns none is left open: each accepted connection was
    handed over or closed, exactly once. *)
Theorem acceptor_keeps_its_descriptors (addr : InetAddress) (reuseport : bool) (ms : list member)
    (w : World) (p' : prog unit) (w' : World) :
  (∀ fd, fds_ w !! fd ≠ Some Mine) → (∀ fd, is_Some (fds_ w !! fd) → 0 ≤ fd) → watched_ w = ∅ →
  rtc move (life addr reuseport ms, w) (p', w') →
  next_call_ok p' w' ∧
  (p' = Done () → (∀ fd, fds_ w' !! fd ≠ Some Mine) ∧ watched_ w' = ∅).
Proof.
  intros Hm Hp Hy Hr.
  assert (Hw : wp p' (λ _, own ∅ ∅) w').
  { apply (wp_adequate (life addr reuseport ms) p' _ w w'); [intros ?; apply own_stable| |done].
    apply life_ok. split; [|done]. intros fd. split; [by intros ?%Hm|set_solver]. }
  split; [by eapply wp_next|]. intros ->. destruct Hw as (Ho & _ & Hwt). split; [|done].
  intros fd ?%Ho. set_solver.
Qed.

(** A kernel that grants every call: a run to look at. *)
Definition grant_fd (w : World) : option (Z * World) :=
  r ← (λ p, Z.of_nat p.2) <$> list_find (λ i, fds_ w !! Z.of_nat i = None) (seq 0 (S (size (fds_ w))));
  if decide (fds_ w !! r = None ∧ 0 ≤ r) then Some (r, set_fds (<[r := Mine]> (fds_ w)) w) else None.

Definition grant_conn (w : World) : option (Z * World) :=
  match backlog_ w with
  | S n => '(r, w') ← grant_fd w; Some (r, set_backlog n w')
  | O => None
  end.

Definition grant {R} (c : call R) (w : World) : option (R * World) :=
  match c in call R return option (R * World) with
  | Csocket _ | Copen_null => grant_fd w
  | Cbind _ _ | Clisten _ | Cshutdown _ | Csetsockopt _ _ _ => Some (0, w)
  | Caccept4 _ => '(r, w') ← grant_conn w; Some ((r, any_addr), w')
  | Caccept _ => grant_conn w
  | Cclose fd => match fds_ w !! fd with Some _ => Some (0, set_fds (delete fd (fds_ w)) w) | None => None end
  | Cgetsockopt _ => Some ((0, 0), w)
  | Cgetsockname _ | Cgetpeername _ => Some (Some any_addr, w)
  | Cerrno => Some (errno_ w, w)
  | Cset_errno e => Some ((), set_errno e w)
  | Clog => Some ((), set_errno (errno_ w) w)
  | Cdeliver fd _ => Some ((), set_errno (errno_ w) (set_fds (<[fd := Theirs]> (fds_ w)) w))
  | Cwatch fd => Some ((), set_errno (errno_ w) (set_watched ({[fd]} ∪ watched_ w) w))
  | Cunwatch fd => Some ((), set_errno (errno_ w) (set_watched (watched_ w ∖ {[fd]}) w))
  end.

Fixpoint drive {A} (p : prog A) (w : World) : option (A * World) :=
  match p with
  | Done a => Some (a, w)
  | Abort => None
  | Call c k => '(r, w1) ← grant c w; drive (k r) w1
  end.

Lemma grant_fd_opens w r w' : grant_fd w = Some (r, w') → opens w r w'.
Proof.
  unfold grant_fd. intros (r0 & _ & H)%bind_Some. case_decide as Hd; [|done].
  injection H as <- <-. left. by destruct Hd.
Qed.

Lemma grant_conn_accepts w r w' : grant_conn w = Some (r, w') → accepts w r w'.
Proof.
  unfold grant_conn. destruct (backlog_ w) as [|n] eqn:Hb; [done|].
  intros ([r0 w1] & H & Heq)%bind_Some. injection Heq as <- <-. pose proof (grant_fd_opens _ _ _ H) as Ho.
  exists w1. split; [done|]. split; [intros _; by exists n|].
  destruct Ho as [(? & _)|[-> _]]; [lia|]. unfold grant_fd in H. apply bind_Some in H as (r1 & _ & H).
  case_decide as Hd; [|done]. injection H as -> <-. lia.
Qed.

Lemma grant_step {R} (c : call R) w r w' : grant c w = Some (r, w') → step c w r w'.
Proof.
  destruct c; cbn [grant step]; intros H; try (injection H as <- <-); try by eexists.
  all: try by left.
  all: try by apply grant_fd_opens.
  - apply bind_Some in H as ([r0 w1] & H & Heq). injection Heq as <- <-. by apply grant_conn_accepts.
  - by apply grant_conn_accepts.
  - unfold closes. destruct (fds_ w !! fd); [|done]. injection H as <- <-. by left.
Qed.

Lemma drive_moves {A} (p : prog A) w a w' : drive p w = Some (a, w') → rtc move (p, w) (Done a, w').
Proof.
  revert w. induction p as [a0| |R c k IH]; intros w; cbn [drive].
  - intros [= -> ->]. done.
  - done.
  - intros ([r w1] & H & Hd)%bind_Some. eapply rtc_l; [by apply move_call, grant_step|]. by apply IH.
Qed.

Definition demo_world : World := MkWorld {[0 := Theirs; 1 := Theirs; 2 := Theirs]} ∅ 2 0.
Definition demo_life : prog unit :=
  life any_addr false [MListen; MHandleRead; MSetCallback; MHandleRead].
Definition demo_end : World := MkWorld {[0 := Theirs; 1 := Theirs; 2 := Theirs; 5 := Theirs]} ∅ 0 0.

Lemma acceptor_keeps_its_descriptors_witness :
  rtc move (demo_life, demo_world) (Done (), demo_end) ∧
  next_call_ok (Done ()) demo_end ∧
  (@Done unit () = Done () → (∀ fd, fds_ demo_end !! fd ≠ Some Mine) ∧ watched_ demo_end = ∅).
Proof.
  assert (Hr : rtc move (demo_life, demo_world) (Done (), demo_end)).
  { apply drive_moves. vm_compute. reflexivity. }
  split; [exact Hr|].
  apply (acceptor_keeps_its_descriptors any_addr false [MListen; MHandleRead; MSetCallback; MHandleRead]
    demo_world (Done ()) demo_end).
  - intros fd Hfd. apply (map_Forall_to_list (λ fd o, o ≠ Mine) (fds_ demo_world)) in Hfd; [done|].
    vm_compute. repeat constructor; discriminate.
  - intros fd [o Hfd]. apply (map_Forall_to_list (λ fd _, 0 ≤ fd) (fds_ demo_world)) in Hfd; [done|].
    vm_compute. repeat constructor; discriminate.
  - reflexivity.
  - exact Hr.
Defined.

(** ** A full descriptor table *)
Section FullTable.
Context (limit : nat).

(** What a call needs a free descriptor for. *)
Definition limited (w : World) (r : Z) (w' : World) : Prop :=
  if decide (size (fds_ w) < limit)%nat then 0 ≤ r else r = -1 ∧ errno_ w' = EMFILE.

(** A table of [limit] descriptors, no other error than a full table, and a
    log that leaves [errno] alone. *)
Definition kernel {R} (c : call R) (w : World) (r : R) (w' : World) : Prop :=
  step c w r w' ∧
  match c in call R return R → Prop with
  | Csocket _ | Copen_null => λ r, limited w r w'
  | Caccept4 _ => λ r, backlog_ w ≠ O → limited w r.1 w'
  | Caccept _ => λ r, backlog_ w ≠ O → limited w r w'
  | Clog => λ _, errno_ w' = errno_ w
  | _ => λ _, True
  end r.

(** With nobody else at work: every call has an answer, and whatever the
    answers, the program ends with [Q]. *)
Fixpoint ends {A} (p : prog A) (Q : A → World → Prop) (w : World) : Prop :=
  match p with
  | Done a => Q a w
  | Abort => False
  | Call c k => (∃ r w', kernel c w r w') ∧ ∀ r w', kernel c w r w' → ends (k r) Q w'
  end.

Lemma ends_mono {A} (p : prog A) (Q Q' : A → World → Prop) w :
  (∀ a w, Q a w → Q' a w) → ends p Q w → ends p Q' w.
Proof.
  intros HQ. revert w. induction p as [a| |R c k IH]; intros w; [apply HQ|done|].
  intros [He Hk]. split; [done|]. intros r w' Hs. by apply IH, Hk.
Qed.

Lemma ends_bind {A B} (p : prog A) (f : A → prog B) Q w :
  ends p (λ a w, ends (f a) Q w) w → ends (p ≫= f) Q w.
Proof.
  revert w. induction p as [a| |R c k IH]; intros w; [done|done|].
  intros [He Hk]. split; [done|]. intros r w' Hs. by apply IH, Hk.
Qed.

(** What holds of every run holds of these. *)
Lemma ends_wp {A} (p : prog A) Q Q' w : wp p Q w → ends p Q' w → ends p (λ a w, Q a w ∧ Q' a w) w.
Proof.
  revert w. induction p as [a| |R c k IH]; intros w; [done|done|].
  intros Hw [He Hk]. destruct (Hw w (rtc_refl _ _)) as [_ Hw']. split; [done|].
  intros r w' Hs. apply IH; [apply Hw', Hs|by apply Hk].
Qed.

(** The table and the backlog, whatever [errno] and the poller are. *)
Definition at_ (f : gmap Z owner) (n : nat) (w : World) : Prop := fds_ w = f ∧ backlog_ w = n.

Lemma fresh_fd (f : gmap Z owner) : ∃ r : Z, 0 ≤ r ∧ f !! r = None.
Proof.
  exists (1 + foldr Z.max 0 (map_to_list f).*1). assert (∀ l : list Z, 0 ≤ foldr Z.max 0 l) as H0.
  { induction l; simpl; lia. }
  pose proof (H0 (map_to_list f).*1). split; [lia|]. destruct (f !! _) as [o|] eqn:E; [|done].
  apply elem_of_map_to_list in E. apply (list_elem_of_fmap_2 fst) in E. cbn [fst] in E.
  assert (∀ (l : list Z) x, x ∈ l → x ≤ foldr Z.max 0 l) as Hm.
  { induction l as [|y l IH]; simpl; intros x; [by intros ?%elem_of_nil|].
    intros [->|Hx]%elem_of_cons; [lia|]. specialize (IH _ Hx). lia. }
  apply Hm in E. lia.
Qed.

Lemma opens_free f n w :
  at_ f n w → (size f < limit)%nat → ∃ r w', opens w r w' ∧ limited w r w'.
Proof.
  intros [Hf _] Hs. destruct (fresh_fd f) as (r & H0 & Hn). exists r, (set_fds (<[r := Mine]> (fds_ w)) w).
  split; [left; by rewrite Hf|]. unfold limited. rewrite Hf. by case_decide.
Qed.

Lemma opens_free_inv f n w r w' :
  at_ f n w → (size f < limit)%nat → opens w r w' → limited w r w' →
  0 ≤ r ∧ f !! r = None ∧ at_ (<[r := Mine]> f) n w' ∧ size (<[r := Mine]> f) = S (size f).
Proof.
  intros [Hf Hn] Hs Ho. unfold limited. rewrite Hf. case_decide; [|done]. intros H0.
  destruct Ho as [(_ & Hr & ->)|[-> _]]; [|lia]. rewrite Hf in Hr. split; [done|]. split; [done|].
  split; [by split; cbn; [rewrite Hf|]|]. by apply map_size_insert_None.
Qed.

Lemma full_inv f n w r w' :
  at_ f n w → ¬ (size f < limit)%nat → opens w r w' → limited w r w' →
  r = -1 ∧ at_ f n w' ∧ errno_ w' = EMFILE.
Proof.
  intros [Hf Hn] Hs Ho. unfold limited. rewrite Hf. case_decide; [done|]. intros [-> He].
  destruct Ho as [(? & _)|[_ (e & _ & ->)]]; [lia|]. by split; [|split; [split|]].
Qed.

Lemma full_open f n w : at_ f n w → ¬ (size f < limit)%nat → ∃ r w', opens w r w' ∧ limited w r w'.
Proof.
  intros [Hf Hn] Hs. exists (-1), (set_errno EMFILE w). split; [right; split; [done|by exists EMFILE]|].
  unfold limited. rewrite Hf. by case_decide.
Qed.

Lemma ends_log f n w e (Q : unit → World → Prop) :
  at_ f n w → errno_ w = e → (∀ w', at_ f n w' → errno_ w' = e → Q () w') → ends LOG_SYSERR Q w.
Proof.
  intros Ha He HQ. split.
  - exists (), (set_errno (errno_ w) w). split; [by eexists|done].
  - intros [] w' [[e' ->] He']. apply HQ; [done|]. cbn in *. congruence.
Qed.

Lemma full_accept f n acc peer w :
  at_ f (S n) w → ¬ (size f < limit)%nat →
  ends (Socket_accept acc peer) (λ r w', r.1 = -1 ∧ at_ f (S n) w' ∧ errno_ w' = EMFILE) w.
Proof.
  intros Ha Hs. unfold Socket_accept, accept. apply ends_bind. split.
  - destruct (full_open f (S n) w Ha Hs) as (r & w' & Ho & Hl).
    destruct (full_inv _ _ _ _ _ Ha Hs Ho Hl) as (-> & _).
    exists (-1, peer), w'. split; [|by intros _]. exists w'. split; [done|]. split; [cbn [fst]; intros ?; lia|done].
  - intros [r b] w' [(w1 & Ho & H0 & H1) Hl]. cbn [fst] in *.
    specialize (Hl ltac:(by destruct Ha as [_ ->])).
    assert (Hr : r < 0).
    { unfold limited in Hl. destruct Ha as [Hf _]. rewrite Hf in Hl. case_decide; [done|]. lia. }
    rewrite (H1 Hr) in *. destruct (full_inv _ _ _ _ _ Ha Hs Ho Hl) as (-> & Ha1 & He).
    cbn [prog_bind_ ends sys mbind prog_bind]. change (-1 <? 0) with true. cbv iota.
    split; [by exists (errno_ w1), w1|]. intros e w2 [[-> ->] _].
    apply ends_bind, (ends_log f (S n) w1 EMFILE); [done..|]. intros w3 Ha3 He3. rewrite He.
    change (bool_decide (EMFILE ∈ expected_errors)) with true. cbv iota.
    split; [by exists (), (set_errno EMFILE w3)|]. intros [] w4 [-> _]. done.
Qed.

Lemma ends_close f n w fd o (Q : Z → World → Prop) :
  at_ f n w → f !! fd = Some o → (∀ r w', at_ (delete fd f) n w' → Q r w') → ends (sys (Cclose fd)) Q w.
Proof.
  intros [Hf Hn] Hfd HQ. split.
  - exists 0, (set_fds (delete fd (fds_ w)) w). split; [|done]. cbn. unfold closes. rewrite Hf, Hfd. by left.
  - intros r w' [Hc _]. cbn in Hc. unfold closes in Hc. rewrite Hf, Hfd in Hc.
    apply HQ. by destruct Hc as [[_ ->]|[_ (e & _ & ->)]]; split.
Qed.

Lemma ends_open f n w (Q : Z → World → Prop) :
  at_ f n w → (size f < limit)%nat →
  (∀ r w', 0 ≤ r → f !! r = None → at_ (<[r := Mine]> f) n w' → Q r w') → ends (sys Copen_null) Q w.
Proof.
  intros Ha Hs HQ. split; [by eapply opens_free|].
  intros r w' [Ho Hl]. destruct (opens_free_inv _ _ _ _ _ Ha Hs Ho Hl) as (H0 & Hn & Ha' & _). by apply HQ.
Qed.

Lemma ends_accept f n w fd (Q : Z → World → Prop) :
  at_ f (S n) w → (size f < limit)%nat →
  (∀ r w', 0 ≤ r → f !! r = None → at_ (<[r := Mine]> f) n w' → Q r w') → ends (sys (Caccept fd)) Q w.
Proof.
  intros Ha Hs HQ. split.
  - destruct (opens_free f (S n) w Ha Hs) as (r & w' & Ho & Hl).
    destruct (opens_free_inv _ _ _ _ _ Ha Hs Ho Hl) as (H0 & _).
    exists r, (set_backlog n w'). split; [|intros _; unfold limited in *; case_decide; [done|lia]].
    exists w'. split; [done|]. split; [|lia]. intros _. exists n. split; [apply Ha|done].
  - intros r w' [(w1 & Ho & H0 & H1) Hl]. specialize (Hl ltac:(by destruct Ha as [_ ->])).
    assert (Hr : 0 ≤ r).
    { unfold limited in Hl. destruct Ha as [Hf _]. rewrite Hf in Hl. by case_decide. }
    assert (Hl1 : limited w r w1).
    { unfold limited in *. destruct Ha as [Hf _]. rewrite Hf in *. by case_decide. }
    destruct (opens_free_inv _ _ _ _ _ Ha Hs Ho Hl1) as (_ & Hn & [Hf1 _] & _).
    destruct (H0 Hr) as (m & Hm & ->). destruct Ha as [_ Hb]. apply HQ; [done..|]. split; [done|]. cbn. congruence.
Qed.

(** One event of the listening socket while the table is full. *)
Lemma full_read a w n :
  acceptor_ok a w → 0 ≤ idleFd_ a → size (fds_ w) = limit → backlog_ w = S n →
  ends (handleRead a) (λ a' w', acceptor_ok a' w' ∧ 0 ≤ idleFd_ a' ∧ size (fds_ w') = limit ∧
    backlog_ w' = n ∧ acceptSocket_ a' = acceptSocket_ a) w.
Proof.
  intros Hok Hi Hs Hn. apply (ends_wp _ acceptor_ok); [by apply acceptor_read_ok|].
  assert (Hmine : fds_ w !! idleFd_ a = Some Mine).
  { destruct Hok as (Y & (HX & _) & _). apply HX. unfold owned.
    rewrite (proj2 (Z.ltb_ge _ _)) by done. set_solver. }
  assert (Ha : at_ (fds_ w) (S n) w) by done. revert Hmine Ha Hs. generalize (fds_ w) as f.
  clear Hok Hn. intros f Hmine Ha Hs. unfold handleRead.
  apply ends_bind. eapply ends_mono; [|apply (full_accept f n); [done|lia]].
  intros [r peer] w1 (Hr & Ha1 & He1). cbn [fst] in Hr. subst r. change (0 <=? -1) with false. cbv iota.
  apply ends_bind, (ends_log f (S n) w1 EMFILE); [done..|]. intros w2 Ha2 He2.
  split; [by exists (errno_ w2), w2|]. intros e w3 [[-> ->] _]. rewrite He2. change (EMFILE =? EMFILE) with true. cbv iota.
  assert (Hs1 : (size (delete (idleFd_ a) f) < limit)%nat).
  { rewrite map_size_delete, Hmine. assert (size f ≠ O) by (intros H%map_size_empty_inv; by subst). lia. }
  assert (Hs0 : size f ≠ O) by (intros H%map_size_empty_inv; by subst).
  apply ends_bind, (ends_close f (S n) w2 _ Mine); [done..|]. intros r3 w3 Ha3.
  apply ends_bind, (ends_accept _ _ _ _ _ Ha3 Hs1). intros r w4 H0 Hr Ha4.
  apply ends_bind, (ends_close _ _ _ _ Mine _ Ha4); [apply lookup_insert_eq|]. intros r5 w5 Ha5.
  rewrite delete_insert_id in Ha5 by done.
  apply ends_bind, (ends_open _ _ _ _ Ha5 Hs1). intros r' w6 H0' Hr' [Hf6 Hn6].
  cbn [ends mret prog_ret]. split; [done|]. split; [|done].
  rewrite Hf6, map_size_insert_None, map_size_delete, Hmine by done. lia.
Qed.
End FullTable.

(** C21: The spare descriptor keeps a full process going.  While the
    descriptor table is full (of [limit] descriptors, nobody else opening or
    closing any, the log lines leaving [errno] alone, [EMFILE] the only
    error), as many events of the listening socket as there are connections
    waiting always run to their end, and afterwards none of the connections
    waits, so that the poller reports no more events; the acceptor still has
    its socket and its spare descriptor, and the table is as full as before. *)
Theorem acceptor_drains_when_full (limit n : nat) (a : Acceptor) (w : World) :
  acceptor_ok a w → 0 ≤ idleFd_ a → size (fds_ w) = limit → backlog_ w = n →
  ends limit (run_members (replicate n MHandleRead) a) (λ a' w',
    acceptor_ok a' w' ∧ 0 ≤ idleFd_ a' ∧ acceptSocket_ a' = acceptSocket_ a ∧
    size (fds_ w') = limit ∧ backlog_ w' = O) w.
Proof.
  revert a w. induction n as [|n IH]; intros a w Hok Hi Hs Hn; [done|].
  cbn [replicate run_members run_member]. apply ends_bind.
  eapply ends_mono; [|by apply full_read].
  intros a' w' (Hok' & Hi' & Hs' & Hn' & Hsock). eapply ends_mono; [|by apply IH].
  intros a'' w'' H. rewrite <-Hsock. exact H.
Qed.

Definition full_acceptor : Acceptor := MkAcceptor 3 true true 4.
Definition full_world : World :=
  MkWorld {[0 := Theirs; 1 := Theirs; 2 := Theirs; 3 := Mine; 4 := Mine]} {[3]} 2 0.

Lemma full_world_ok : acceptor_ok full_acceptor full_world.
Proof.
  exists {[3]}. split; [|split; [set_solver|by vm_compute]]. split; [|split; [|done]].
  - intros fd. unfold owned, full_acceptor, full_world. cbn. split.
    + rewrite !lookup_insert, lookup_singleton. repeat (case_decide; [set_solver|]). done.
    + intros H. assert (fd = 3 ∨ fd = 4) as [-> | ->] by set_solver; by vm_compute.
  - intros fd [o Ho]. apply (map_Forall_to_list (λ fd _, 0 ≤ fd) (fds_ full_world)) in Ho; [done|].
    vm_compute. repeat constructor; discriminate.
Qed.

Lemma acceptor_drains_when_full_witness :
  ends 5 (run_members [MHandleRead; MHandleRead] full_acceptor) (λ a' w',
    acceptor_ok a' w' ∧ 0 ≤ idleFd_ a' ∧ acceptSocket_ a' = 3 ∧ size (fds_ w') = 5%nat ∧ backlog_ w' = O) full_world.
Proof.
  apply (acceptor_drains_when_full 5 2 full_acceptor full_world full_world_ok); [done|by vm_compute|done].
Defined.

(** Without its spare descriptor the acceptor leaves the connection where it
    is: the poller reports it again at once. *)
Lemma lost_spare_drops_nothing :
  ∃ w', rtc move (handleRead (set_idleFd (-1) full_acceptor), full_world) (Done (set_idleFd (-1) full_acceptor), w') ∧
    backlog_ w' = backlog_ full_world.
Proof.
  exists (set_errno EMFILE full_world). split; [|done].
  assert (Hfail : ∀ w, opens w (-1) (set_errno EMFILE w)) by (intros w; right; split; [done|by exists EMFILE]).
  assert (Hacc : ∀ w, accepts w (-1) (set_errno EMFILE w)).
  { intros w. exists (set_errno EMFILE w). split; [done|]. split; [intros ?; lia|done]. }
  eapply rtc_l; [apply (move_call (Caccept4 3) _ (-1, any_addr)), Hacc|].
  eapply rtc_l; [by apply (move_call Cerrno)|]. eapply rtc_l; [by apply (move_call Clog _ ()); exists EMFILE|].
  eapply rtc_l; [by apply (move_call (Cset_errno EMFILE) _ ())|].
  eapply rtc_l; [by apply (move_call Clog _ () _ (set_errno EMFILE full_world)); exists EMFILE|].
  eapply rtc_l; [by apply (move_call Cerrno)|].
  eapply rtc_l; [apply (move_call (Cclose (-1)) _ (-1)); by split|].
  eapply rtc_l; [apply (move_call (Caccept 3) _ (-1)), Hacc|].
  eapply rtc_l; [apply (move_call (Cclose (-1)) _ (-1)); by split|].
  eapply rtc_l; [apply (move_call Copen_null _ (-1)), Hfail|]. apply rtc_refl.
Qed.

(** [errno] is read after a log line, which may have changed it: then a full
    table goes unnoticed, and the connection stays. *)
Lemma log_hides_full_table :
  ∃ p1 w1 w', move (handleRead full_acceptor, full_world) (p1, w1) ∧ errno_ w1 = EMFILE ∧
    rtc move (p1, w1) (Done full_acceptor, w') ∧ backlog_ w' = backlog_ full_world.
Proof.
  eexists _, (set_errno EMFILE full_world), (set_errno 0 full_world). split; [|split; [done|split; [|done]]].
  - apply (move_call (Caccept4 3) _ (-1, any_addr)). exists (set_errno EMFILE full_world).
    split; [right; split; [done|by exists EMFILE]|]. split; [cbn [fst]; intros ?; lia|done].
  - eapply rtc_l; [by apply (move_call Cerrno)|]. eapply rtc_l; [by apply (move_call Clog _ ()); exists EMFILE|].
    eapply rtc_l; [by apply (move_call (Cset_errno EMFILE) _ ())|].
    eapply rtc_l; [by apply (move_call Clog _ () _ (set_errno 0 full_world)); exists 0|].
    eapply rtc_l; [by apply (move_call Cerrno)|]. apply rtc_refl.
Qed.
