(* ===== verification/Connector.v ===== *)
(** * Connecting (master/net/Connector.h, Connector.cc)

    A connector opens a socket, waits for it to become writable and hands it
    over, or closes it and tries again after a growing delay.  A socket is
    named by the number of its creation.  What the kernel answers to
    [connect], [SO_ERROR] and the comparison of the two ends is an input of the
    members that ask.  The loop is its queue of functors, in order (see the
    file EventLoop), and the connector's timers, which fire in any order.  A
    call of another thread is two steps: it sets [connect_], then it queues its
    functor. *)
From stdpp Require Import relations.
From S2P Require Import Prelude.
Local Open Scope Z_scope.

Inductive States := kDisconnected | kConnecting | kConnected.

(** [savedErrno] in [connect()]; [OK] is 0. *)
Inductive errno :=
  | OK | EINPROGRESS | EINTR | EISCONN
  | EAGAIN | EADDRINUSE | EADDRNOTAVAIL | ECONNREFUSED | ENETUNREACH
  | EACCES | EPERM | EAFNOSUPPORT | EALREADY | EBADF | EFAULT | ENOTSOCK
  | EOTHER.

Inductive functor := FStart | FStop | FReset.

#[export] Instance states_eq_dec : EqDecision States.
Proof. solve_decision. Defined.
#[export] Instance functor_eq_dec : EqDecision functor.
Proof. solve_decision. Defined.

Definition kMaxRetryDelayMs : Z := 30 * 1000.
Definition kInitRetryDelayMs : Z := 500.

Record Connector := MkConnector {
  connect_ : bool;
  state_ : States;
  (** The channel: its socket, and whether it is registered for writing. *)
  channel_ : option (nat * bool);
  retryDelayMs_ : Z;
  (** The loop: functors, delays of the timers set, calls of other threads
      between their two steps. *)
  pending_ : list functor;
  timers_ : list Z;
  remote_ : list functor;
  (** History: sockets opened, closed, handed over; the delays since the last
      [restart]; whether [start] was called, whether an error was final,
      whether everything returned. *)
  sockets_ : nat;
  closed_ : list nat;
  handed_ : list nat;
  delays_ : list Z;
  started_ : bool;
  given_up_ : bool;
  ok_ : bool;
}.

Definition Connector_new : Connector :=
  MkConnector false kDisconnected None kInitRetryDelayMs [] [] [] 0 [] [] [] false false true.

Definition set_connect b s := MkConnector b (state_ s) (channel_ s) (retryDelayMs_ s) (pending_ s) (timers_ s) (remote_ s)
  (sockets_ s) (closed_ s) (handed_ s) (delays_ s) (started_ s) (given_up_ s) (ok_ s).
Definition setState st s := MkConnector (connect_ s) st (channel_ s) (retryDelayMs_ s) (pending_ s) (timers_ s) (remote_ s)
  (sockets_ s) (closed_ s) (handed_ s) (delays_ s) (started_ s) (given_up_ s) (ok_ s).
Definition set_channel c s := MkConnector (connect_ s) (state_ s) c (retryDelayMs_ s) (pending_ s) (timers_ s) (remote_ s)
  (sockets_ s) (closed_ s) (handed_ s) (delays_ s) (started_ s) (given_up_ s) (ok_ s).
Definition set_delay d ds s := MkConnector (connect_ s) (state_ s) (channel_ s) d (pending_ s) (timers_ s) (remote_ s)
  (sockets_ s) (closed_ s) (handed_ s) ds (started_ s) (given_up_ s) (ok_ s).
Definition set_loop p t r s := MkConnector (connect_ s) (state_ s) (channel_ s) (retryDelayMs_ s) p t r
  (sockets_ s) (closed_ s) (handed_ s) (delays_ s) (started_ s) (given_up_ s) (ok_ s).
Definition set_sockets n c h s := MkConnector (connect_ s) (state_ s) (channel_ s) (retryDelayMs_ s) (pending_ s) (timers_ s)
  (remote_ s) n c h (delays_ s) (started_ s) (given_up_ s) (ok_ s).
Definition set_flags st g o s := MkConnector (connect_ s) (state_ s) (channel_ s) (retryDelayMs_ s) (pending_ s) (timers_ s)
  (remote_ s) (sockets_ s) (closed_ s) (handed_ s) (delays_ s) st g o.

Definition queueInLoop (f : functor) s := set_loop (pending_ s ++ [f]) (timers_ s) (remote_ s) s.
Definition runAfter (ms : Z) s := set_loop (pending_ s) (timers_ s ++ [ms]) (remote_ s) s.
Definition close_socket (fd : nat) s := set_sockets (sockets_ s) (closed_ s ++ [fd]) (handed_ s) s.

Abbreviation conn := (ST Connector).

(** ** The members that run in the loop's thread *)
Definition retry (sockfd : nat) : conn unit :=
  st_modify (close_socket sockfd) ;;
  st_modify (setState kDisconnected) ;;
  s ← st_get;
  if connect_ s then
    st_modify (runAfter (retryDelayMs_ s)) ;;
    lift (defined (in_sb 32 (retryDelayMs_ s * 2))) ;;
    st_modify (set_delay (Z.min (retryDelayMs_ s * 2) kMaxRetryDelayMs) (delays_ s ++ [retryDelayMs_ s]))
  else mret ().

Definition connecting (sockfd : nat) : conn unit :=
  st_modify (setState kConnecting) ;;
  s ← st_get;
  lift (assert_ (bool_decide (channel_ s = None))) ;;
  st_modify (set_channel (Some (sockfd, true))).

(** [None]: [createNonblockingOrDie] dies. *)
Definition connect (e : option errno) : conn unit :=
  e' ← lift (match e with Some e' => Ret e' | None => AssertFail end);
  s ← st_get;
  let sockfd := sockets_ s in
  st_put (set_flags (started_ s) false (ok_ s) (set_sockets (S sockfd) (closed_ s) (handed_ s) s)) ;;
  match e' with
  | OK | EINPROGRESS | EINTR | EISCONN => connecting sockfd
  | EAGAIN | EADDRINUSE | EADDRNOTAVAIL | ECONNREFUSED | ENETUNREACH => retry sockfd
  | EACCES | EPERM | EAFNOSUPPORT | EALREADY | EBADF | EFAULT | ENOTSOCK | EOTHER =>
      st_modify (close_socket sockfd) ;; st_modify (λ s, set_flags (started_ s) true (ok_ s) s)
  end.

Definition startInLoop (e : option errno) : conn unit :=
  s ← st_get;
  lift (assert_ (bool_decide (state_ s = kDisconnected))) ;;
  if connect_ s then connect e else mret ().

Definition removeAndResetChannel : conn nat :=
  s ← st_get;
  c ← lift (or_undef (channel_ s));
  st_modify (set_channel (Some (c.1, false))) ;;
  st_modify (queueInLoop FReset) ;;
  mret c.1.

Definition resetChannel : conn unit := st_modify (set_channel None).

Definition stopInLoop : conn unit :=
  s ← st_get;
  if bool_decide (state_ s = kConnecting) then
    st_modify (setState kDisconnected) ;;
    sockfd ← removeAndResetChannel;
    retry sockfd
  else mret ().

(** [err] is what [getSocketError] returns, [self] what [isSelfConnect] does. *)
Definition handleWrite (err : Z) (self : bool) : conn unit :=
  s ← st_get;
  if bool_decide (state_ s = kConnecting) then
    sockfd ← removeAndResetChannel;
    if negb (err =? 0) then retry sockfd
    else if self then retry sockfd
    else
      st_modify (setState kConnected) ;;
      s ← st_get;
      if connect_ s then st_modify (set_sockets (sockets_ s) (closed_ s) (handed_ s ++ [sockfd]))
      else st_modify (close_socket sockfd)
  else lift (assert_ (bool_decide (state_ s = kDisconnected))).

Definition handleError : conn unit :=
  s ← st_get;
  if bool_decide (state_ s = kConnecting) then sockfd ← removeAndResetChannel; retry sockfd
  else mret ().

Definition restart (e : option errno) : conn unit :=
  st_modify (setState kDisconnected) ;;
  st_modify (set_delay kInitRetryDelayMs []) ;;
  st_modify (set_connect true) ;;
  startInLoop e.

(** [start()] and [stop()] called in the loop's thread. *)
Definition start (e : option errno) : conn unit :=
  st_modify (set_connect true) ;;
  startInLoop e.
Definition stop : conn unit :=
  st_modify (set_connect false) ;;
  st_modify (queueInLoop FStop).

(** [Channel::handleEvent]: the error callback, then the write callback. *)
Definition handleEvent (error write : bool) (err : Z) (self : bool) : conn unit :=
  (if error then handleError else mret ()) ;;
  if write then handleWrite err self else mret ().

Definition run_functor (e : option errno) (f : functor) : conn unit :=
  match f with FStart => startInLoop e | FStop => stopInLoop | FReset => resetChannel end.

(** ** Steps *)

(** The state after a call; [ok_] falls when it does not return. *)
Definition exec {A} (m : conn A) (s : Connector) : Connector :=
  match m s with
  | (Ret _, s') => s'
  | (_, s') => set_flags (started_ s') (given_up_ s') false s'
  end.

Definition mark_started s := set_flags true (given_up_ s) (ok_ s) s.
Definition remote_call (b : bool) (f : functor) s := set_connect b (set_loop (pending_ s) (timers_ s) (remote_ s ++ [f]) s).

Definition remote_queued (f : functor) (l1 l2 : list functor) s :=
  queueInLoop f (set_loop (pending_ s) (timers_ s) (l1 ++ l2) s).

(** What can happen to a connector: calls in the loop's thread, the two steps
    of calls of other threads, and what the loop does. *)
Inductive call :=
  | CStart (e : errno) | CStartRemote | CStop | CStopRemote
  | CQueue (f : functor) (l1 l2 : list functor)
  | CRestart (e : errno)
  | CFunctor (e : errno) (f : functor) (q : list functor)
  | CEvent (error write : bool) (err : Z) (self : bool)
  | CTimer (e : errno) (l1 : list Z) (d : Z) (l2 : list Z).

Definition run_call (c : call) (s : Connector) : Connector :=
  match c with
  | CStart e => exec (start (Some e)) (mark_started s)
  | CStartRemote => remote_call true FStart (mark_started s)
  | CStop => exec stop s
  | CStopRemote => remote_call false FStop s
  | CQueue f l1 l2 => remote_queued f l1 l2 s
  | CRestart e => exec (restart (Some e)) s
  | CFunctor e f q => exec (run_functor (Some e) f) (set_loop q (timers_ s) (remote_ s) s)
  | CEvent error write err self => exec (handleEvent error write err self) s
  | CTimer e l1 d l2 => exec (startInLoop (Some e)) (set_loop (pending_ s) (l1 ++ l2) (remote_ s) s)
  end.

(** The loop runs its functors in order, its timers in any; events come for a
    registered channel. *)
Definition enabled (c : call) (s : Connector) : Prop :=
  match c with
  | CStart _ | CStartRemote | CStop | CStopRemote | CRestart _ => True
  | CQueue f l1 l2 => remote_ s = l1 ++ f :: l2
  | CFunctor _ f q => pending_ s = f :: q
  | CEvent _ _ _ _ => ∃ fd, channel_ s = Some (fd, true)
  | CTimer _ l1 d l2 => timers_ s = l1 ++ d :: l2
  end.

(** A step, while no assertion has failed. *)
Definition cstep (s s' : Connector) : Prop := ok_ s = true ∧ ∃ c, enabled c s ∧ s' = run_call c s.
Definition creachable (s : Connector) : Prop := rtc cstep Connector_new s.

(** Attempts to come: calls of [startInLoop]. *)
Definition count (f : functor) (l : list functor) : nat := length (filter (λ g, g = f) l).
#[global] Arguments count : simpl never.
Definition starts (s : Connector) : nat := count FStart (pending_ s) + count FStart (remote_ s) + length (timers_ s).

(** What the code needs of its users and its loop but does not check:
    [start] is called only when nothing is going on (not connecting, not
    connected, the channel reset, no attempt to come: [stop] cancels none);
    [restart] only after a socket was handed over and the channel was reset;
    and no timer fires between [removeAndResetChannel] and [resetChannel],
    that is, an iteration of the loop ends before the shortest delay has
    passed.  [stop] may be called at any time from any thread. *)
Definition in_contract (c : call) (s : Connector) : Prop :=
  match c with
  | CStart _ | CStartRemote => state_ s = kDisconnected ∧ channel_ s = None ∧ starts s = 0%nat
  | CRestart _ => state_ s = kConnected ∧ FReset ∉ pending_ s
  | CTimer _ _ _ _ => FReset ∉ pending_ s
  | CStop | CStopRemote | CQueue _ _ _ | CFunctor _ _ _ | CEvent _ _ _ _ => True
  end.

Definition contract_step (s s' : Connector) : Prop := ∃ c, enabled c s ∧ in_contract c s ∧ s' = run_call c s.
Definition contract_reachable (s : Connector) : Prop := rtc contract_step Connector_new s.

(** ** The invariant within the contract *)

(** The socket being connected: that of the registered channel. *)
Definition current (s : Connector) : list nat := match channel_ s with Some (fd, true) => [fd] | _ => [] end.

(** The channel, and the functors that reset it. *)
Definition chan_ok (st : States) (c : option (nat * bool)) (resets : nat) : Prop :=
  match st with
  | kConnecting => resets = 0%nat ∧ ∃ fd, c = Some (fd, true)
  | _ => match c with None => resets = 0%nat | Some (_, registered) => registered = false ∧ resets = 1%nat end
  end.

(** The delay after [k] retries. *)
Definition backoff (k : nat) : Z := Z.min (kInitRetryDelayMs * 2 ^ Z.of_nat k) kMaxRetryDelayMs.

Record cinv (s : Connector) : Prop := {
  k_ok : ok_ s = true;
  k_chan : chan_ok (state_ s) (channel_ s) (count FReset (pending_ s));
  k_remote : count FReset (remote_ s) = 0%nat;
  k_first : (0 < count FStart (pending_ s) + count FStart (remote_ s))%nat → channel_ s = None;
  k_starts : (starts s ≤ 1)%nat;
  k_idle : state_ s ≠ kDisconnected → starts s = 0%nat;
  k_fresh : started_ s = false → starts s = 0%nat ∧ state_ s = kDisconnected ∧ channel_ s = None;
  k_live : started_ s = true → connect_ s = true → state_ s = kDisconnected → given_up_ s = false → starts s = 1%nat;
  k_sockets : closed_ s ++ handed_ s ++ current s ≡ₚ seq 0 (sockets_ s);
  k_delay : retryDelayMs_ s = backoff (length (delays_ s));
  k_delays : delays_ s = backoff <$> seq 0 (length (delays_ s));
}.

Lemma current_idle s n : chan_ok kDisconnected (channel_ s) n → current s = [].
Proof. unfold current. cbn. destruct (channel_ s) as [[fd []]|]; [by intros [? _]|done|done]. Qed.

Lemma count_app f l k : count f (l ++ k) = (count f l + count f k)%nat.
Proof. unfold count. by rewrite filter_app, length_app. Qed.
Lemma count_cons f g l : count f (g :: l) = ((if decide (g = f) then 1 else 0) + count f l)%nat.
Proof. unfold count. rewrite filter_cons. by destruct (decide (g = f)). Qed.
Lemma count_zero f l : f ∉ l → count f l = 0%nat.
Proof.
  unfold count. intros Hf. rewrite length_zero_iff_nil. apply elem_of_nil_inv. intros x Hx.
  by apply list_elem_of_filter in Hx as [-> ?].
Qed.

Lemma backoff_range k : kInitRetryDelayMs ≤ backoff k ≤ kMaxRetryDelayMs.
Proof.
  unfold backoff. assert (1 ≤ 2 ^ Z.of_nat k) by (change 1 with (2 ^ 0); apply Z.pow_le_mono_r; lia).
  unfold kInitRetryDelayMs, kMaxRetryDelayMs in *. lia.
Qed.
Lemma backoff_S k : Z.min (backoff k * 2) kMaxRetryDelayMs = backoff (S k).
Proof.
  unfold backoff. rewrite Nat2Z.inj_succ, Z.pow_succ_r by lia. unfold kMaxRetryDelayMs, kInitRetryDelayMs.
  assert (0 < 2 ^ Z.of_nat k) by (apply Z.pow_pos_nonneg; lia). lia.
Qed.

(** What [retry] does. *)
Definition retried (fd : nat) (s : Connector) : Connector :=
  let s1 := setState kDisconnected (close_socket fd s) in
  if connect_ s then
    set_delay (backoff (S (length (delays_ s)))) (delays_ s ++ [retryDelayMs_ s]) (runAfter (retryDelayMs_ s) s1)
  else s1.

Lemma retry_eq fd s : retryDelayMs_ s = backoff (length (delays_ s)) → retry fd s = (Ret (), retried fd s).
Proof.
  intros Hd. unfold retry, retried, mbind, ST_bind, st_modify, st_get, lift, mret, ST_ret. cbn.
  destruct (connect_ s); [|done]. cbn. rewrite Hd, <-backoff_S.
  pose proof (backoff_range (length (delays_ s))) as Hr. unfold kInitRetryDelayMs, kMaxRetryDelayMs in Hr.
  unfold in_sb, defined.
  rewrite (proj2 (Z.leb_le _ _)) by lia. rewrite (proj2 (Z.ltb_lt _ _)) by lia. done.
Qed.

(** The state before [retry]: [fd] is open and nobody else's. *)
Record retry_pre (fd : nat) (s : Connector) : Prop := {
  p_ok : ok_ s = true;
  p_chan : chan_ok kDisconnected (channel_ s) (count FReset (pending_ s));
  p_remote : count FReset (remote_ s) = 0%nat;
  p_starts : starts s = 0%nat;
  p_started : started_ s = true;
  p_sockets : fd :: closed_ s ++ handed_ s ≡ₚ seq 0 (sockets_ s);
  p_delay : retryDelayMs_ s = backoff (length (delays_ s));
  p_delays : delays_ s = backoff <$> seq 0 (length (delays_ s));
}.

Lemma retried_inv fd s : retry_pre fd s → cinv (retried fd s).
Proof.
  intros [H1 H2 H3 H4 H5 H6 H7 H8]. pose proof (current_idle s _ H2) as Hcur. unfold current in Hcur.
  unfold starts in *. unfold retried.
  assert (closed_ s ++ [fd] ++ handed_ s ≡ₚ seq 0 (sockets_ s)) as Hp by (by rewrite Permutation_app_swap_app, app_assoc).
  rewrite (app_assoc (closed_ s)) in Hp.
  destruct (connect_ s) eqn:Ec; split; unfold starts, current; cbn; rewrite ?Hcur, ?app_nil_r, ?length_app; cbn;
    try done; try lia; try congruence.
  - by rewrite Nat.add_1_r.
  - rewrite seq_app, fmap_app, <-H8, H7. done.
Qed.

(** Nothing going on: before [startInLoop]. *)
Record idle (s : Connector) : Prop := {
  d_ok : ok_ s = true;
  d_state : state_ s = kDisconnected;
  d_channel : channel_ s = None;
  d_resets : count FReset (pending_ s) = 0%nat;
  d_remote : count FReset (remote_ s) = 0%nat;
  d_starts : starts s = 0%nat;
  d_started : started_ s = true;
  d_sockets : closed_ s ++ handed_ s ≡ₚ seq 0 (sockets_ s);
  d_delay : retryDelayMs_ s = backoff (length (delays_ s));
  d_delays : delays_ s = backoff <$> seq 0 (length (delays_ s));
}.

Lemma idle_inv s : idle s → connect_ s = false ∨ given_up_ s = true → cinv s.
Proof.
  intros [H1 H2 H3 H4 H5 H6 H7 H8 H9 H10] Hc. unfold starts in *.
  split; unfold starts, current; rewrite ?H2, ?H3; try done; try lia; [destruct Hc; congruence|].
  by rewrite app_nil_r.
Qed.

Lemma connect_inv e s : idle s → ∃ s', connect (Some e) s = (Ret (), s') ∧ cinv s'.
Proof.
  intros [H1 H2 H3 H4 H5 H6 H7 H8 H9 H10].
  set (s0 := set_flags (started_ s) false (ok_ s) (set_sockets (S (sockets_ s)) (closed_ s) (handed_ s) s)).
  assert (connect (Some e) s = match e with
    | OK | EINPROGRESS | EINTR | EISCONN => connecting (sockets_ s)
    | EAGAIN | EADDRINUSE | EADDRNOTAVAIL | ECONNREFUSED | ENETUNREACH => retry (sockets_ s)
    | _ => st_modify (close_socket (sockets_ s)) ;; st_modify (λ s, set_flags (started_ s) true (ok_ s) s)
    end s0) as -> by (by destruct e).
  assert (sockets_ s :: closed_ s ++ handed_ s ≡ₚ seq 0 (S (sockets_ s))) as Hp.
  { rewrite seq_S, <-H8. by rewrite <-Permutation_cons_append. }
  assert (retry_pre (sockets_ s) s0) as Hr by (split; cbn; try done; by rewrite H3).
  assert (∃ s', connecting (sockets_ s) s0 = (Ret (), s') ∧ cinv s') as Hcon.
  { exists (set_channel (Some (sockets_ s, true)) (setState kConnecting s0)). split.
    { unfold connecting, mbind, ST_bind, st_modify, st_get, lift. cbn. by rewrite H3. }
    unfold starts in *.
    split; unfold starts, current; cbn; try done; try lia; [split; [done|by eexists]|congruence|].
    rewrite app_assoc. etrans; [|exact Hp]. by rewrite <-Permutation_cons_append. }
  assert (∃ s', retry (sockets_ s) s0 = (Ret (), s') ∧ cinv s') as Hret.
  { eexists. split; [by apply retry_eq|by apply retried_inv]. }
  destruct e; try exact Hcon; try exact Hret; (eexists; split; [reflexivity|]);
    (apply idle_inv; [|by right]); (split; cbn; try done);
    (etrans; [|exact Hp]); by rewrite (Permutation_app_comm _ [_]).
Qed.

Lemma startInLoop_inv e s : idle s → ∃ s', startInLoop (Some e) s = (Ret (), s') ∧ cinv s'.
Proof.
  intros Hi. unfold startInLoop, mbind, ST_bind, st_get, lift. cbn [fst snd]. rewrite (d_state s Hi). cbn.
  destruct (connect_ s) eqn:Ec; [by apply connect_inv|]. exists s. split; [done|]. apply idle_inv; auto.
Qed.

Lemma exec_inv {A} (m : conn A) s : (∃ a s', m s = (Ret a, s') ∧ cinv s') → cinv (exec m s).
Proof. intros (a & s' & Hm & Hi). unfold exec. by rewrite Hm. Qed.

Lemma exec_start_inv e s : idle s → cinv (exec (startInLoop (Some e)) s).
Proof. intros Hi. apply exec_inv. exists (). by apply startInLoop_inv. Qed.

(** Leaving [kConnecting]. *)
Lemma remove_inv fd s :
  cinv s → channel_ s = Some (fd, true) → state_ s = kConnecting →
  ∃ s', removeAndResetChannel s = (Ret fd, s') ∧ retry_pre fd s' ∧ connect_ s' = connect_ s ∧
    handed_ s' = handed_ s ∧ closed_ s' = closed_ s.
Proof.
  intros [H1 H2 H3 H4 H5 H6 H7 H8 H9 H10 H11] Hc Hst.
  exists (queueInLoop FReset (set_channel (Some (fd, false)) s)). split.
  { unfold removeAndResetChannel, mbind, ST_bind, st_get, st_modify, lift. cbn. by rewrite Hc. }
  split; [|done]. rewrite Hst in *. unfold current in H9. rewrite Hc in H9. cbn in H2. destruct H2 as [H2 _].
  unfold starts in *.
  split; unfold starts; cbn; rewrite ?count_app, ?H2; try done.
  - specialize (H6 ltac:(done)). change (count FStart [FReset]) with 0%nat. lia.
  - destruct (started_ s); [done|]. destruct H7 as (_ & ? & _); done.
  - etrans; [|exact H9]. rewrite app_assoc. by rewrite <-Permutation_cons_append.
Qed.

(** The state a retry from [kConnecting] ends in. *)
Lemma remove_retry_inv s :
  cinv s → state_ s = kConnecting →
  ∃ s', (sockfd ← removeAndResetChannel; retry sockfd) s = (Ret (), s') ∧ cinv s' ∧ state_ s' = kDisconnected ∧
    handed_ s' = handed_ s.
Proof.
  intros Hi Hst. pose proof (k_chan s Hi) as Hc. rewrite Hst in Hc. destruct Hc as (_ & fd & Hc).
  destruct (remove_inv fd s Hi Hc Hst) as (s1 & Hr & Hp & Hcn & Hh & _).
  exists (retried fd s1). split; [by rewrite (ST_bind_eq _ _ _ _ _ Hr), retry_eq by apply Hp|].
  split; [by apply retried_inv|]. unfold retried. rewrite <-Hh. by destruct (connect_ s1).
Qed.

Lemma handleError_inv s : cinv s → ∃ s', handleError s = (Ret (), s') ∧ cinv s' ∧
  (state_ s = kConnecting ∧ state_ s' = kDisconnected ∧ handed_ s' = handed_ s ∨ state_ s ≠ kConnecting ∧ s' = s).
Proof.
  intros Hi. unfold handleError, mbind at 1, ST_bind at 1, st_get. cbn [fst snd].
  case_bool_decide as Hst; [|exists s; auto].
  destruct (remove_retry_inv s Hi Hst) as (s' & He & Hi' & Hs & Hh). exists s'. auto 6.
Qed.

(** A socket is handed over from [kConnecting] only, and only if still wanted. *)
Lemma handleWrite_inv err self s : cinv s → state_ s ≠ kConnected →
  ∃ s', handleWrite err self s = (Ret (), s') ∧ cinv s' ∧
    (handed_ s' = handed_ s ∨
     connect_ s = true ∧ state_ s = kConnecting ∧ state_ s' = kConnected ∧ ∃ fd, handed_ s' = handed_ s ++ [fd]).
Proof.
  intros Hi Hne. unfold handleWrite, mbind at 1, ST_bind at 1, st_get. cbn [fst snd].
  case_bool_decide as Hst.
  2:{ rewrite bool_decide_eq_true_2 by (by destruct (state_ s)). exists s. auto. }
  pose proof (k_chan s Hi) as Hc. rewrite Hst in Hc. destruct Hc as (_ & fd & Hc).
  destruct (remove_inv fd s Hi Hc Hst) as (s1 & Hr & Hp & Hcn & Hh & Hcl).
  rewrite (ST_bind_eq _ _ _ _ _ Hr). rewrite <-Hh, <-Hcn.
  assert (∃ s', retry fd s1 = (Ret (), s') ∧ cinv s' ∧ handed_ s' = handed_ s1) as (s' & Hret).
  { exists (retried fd s1). split; [by apply retry_eq, Hp|]. split; [by apply retried_inv|].
    unfold retried. by destruct (connect_ s1). }
  destruct (negb (err =? 0)); [exists s'; naive_solver|]. destruct self; [exists s'; naive_solver|].
  destruct Hp as [H1 H2 H3 H4 H5 H6 H7 H8]. pose proof (current_idle s1 _ H2) as Hcur. unfold current in Hcur. unfold starts in *.
  assert (closed_ s1 ++ handed_ s1 ++ [fd] ≡ₚ seq 0 (sockets_ s1)) as Hp1.
  { etrans; [|exact H6]. rewrite app_assoc. by rewrite <-Permutation_cons_append. }
  assert ((closed_ s1 ++ [fd]) ++ handed_ s1 ≡ₚ seq 0 (sockets_ s1)) as Hp2.
  { etrans; [|exact H6]. by rewrite <-Permutation_cons_append. }
  unfold mbind, ST_bind, st_modify, st_get. cbn [fst snd connect_ setState].
  destruct (connect_ s1) eqn:Ec; eexists; (split; [reflexivity|]); (split; [|by eauto 6]);
    (split; unfold starts, current; cbn; rewrite ?Hcur, ?app_nil_r; try done; try lia; congruence).
Qed.

Lemma handleEvent_inv error write err self s : cinv s → state_ s = kConnecting →
  cinv (exec (handleEvent error write err self) s) ∧
  (handed_ (exec (handleEvent error write err self) s) = handed_ s ∨
   connect_ s = true ∧ state_ (exec (handleEvent error write err self) s) = kConnected ∧
   ∃ fd, handed_ (exec (handleEvent error write err self) s) = handed_ s ++ [fd]).
Proof.
  intros Hi Hst. unfold exec, handleEvent. destruct error.
  - destruct (handleError_inv s Hi) as (s1 & He & Hi1 & [(_ & Hs1 & Hh)|[]]); [|done].
    rewrite (ST_bind_eq _ _ _ _ _ He). destruct write; [|by auto].
    destruct (handleWrite_inv err self s1 Hi1) as (s2 & Hw & Hi2 & Hcase); [congruence|].
    rewrite Hw. split; [done|]. left. rewrite <-Hh. destruct Hcase as [|(_ & ? & _)]; [done|congruence].
  - unfold mbind, ST_bind, mret, ST_ret. destruct write; [|by auto].
    destruct (handleWrite_inv err self s Hi) as (s2 & Hw & Hi2 & Hcase); [congruence|].
    rewrite Hw. split; [done|]. destruct Hcase as [|(? & _ & ?)]; auto.
Qed.

(** [stopInLoop] sets the state first. *)
Lemma stopInLoop_inv s : cinv s → ∃ s', stopInLoop s = (Ret (), s') ∧ cinv s' ∧ handed_ s' = handed_ s.
Proof.
  intros Hi. unfold stopInLoop, mbind at 1, ST_bind at 1, st_get. cbn [fst snd].
  case_bool_decide as Hst; [|exists s; auto].
  pose proof (k_chan s Hi) as Hc. rewrite Hst in Hc. destruct Hc as (_ & fd & Hc).
  destruct (remove_inv fd s Hi Hc Hst) as (s1 & Hr & Hp & _ & Hh & _).
  unfold removeAndResetChannel, mbind, ST_bind, st_get, st_modify, lift in Hr |- *. cbn in Hr |- *. rewrite Hc in *.
  cbn in *. injection Hr as Hr.
  assert (retry_pre fd (setState kDisconnected s1)) as Hp' by (by destruct Hp; split).
  eexists. rewrite <-Hr in *. split; [apply retry_eq, (p_delay _ _ Hp')|]. split; [by apply retried_inv|].
  unfold retried. by destruct (connect_ _).
Qed.

Lemma starts_set_loop p t r s : starts (set_loop p t r s) = (count FStart p + count FStart r + length t)%nat.
Proof. done. Qed.

(** Taking a call of [startInLoop] out of the loop leaves nothing going on. *)
Lemma take_start_idle p t r s :
  cinv s → (starts (set_loop p t r s) < starts s)%nat → channel_ s = None →
  count FReset p = count FReset (pending_ s) → r = remote_ s → idle (set_loop p t r s).
Proof.
  intros [H1 H2 H3 H4 H5 H6 H7 H8 H9 H10 H11] Hlt Hc Hp ->.
  assert (state_ s = kDisconnected) as Hst.
  { destruct (decide (state_ s = kDisconnected)) as [|Hne]; [done|]. specialize (H6 Hne). lia. }
  assert (started_ s = true) as Hs.
  { destruct (started_ s); [done|]. destruct H7 as (H7 & _); [done|]. lia. }
  rewrite Hst, Hc in H2. cbn in H2. rewrite (current_idle s 0%nat), app_nil_r in H9 by (by rewrite Hc).
  split; try done; [cbn; lia|lia].
Qed.

Lemma idle_connect b s : idle s → idle (set_connect b s).
Proof. by intros []; split. Qed.

Lemma unused_idle s : cinv s → state_ s = kDisconnected → channel_ s = None → starts s = 0%nat → idle (mark_started s).
Proof.
  intros Hi Hst Hc Hn. pose proof (k_chan s Hi) as H2. rewrite Hst, Hc in H2. cbn in H2.
  pose proof (k_sockets s Hi) as H9. rewrite (current_idle s 0%nat), app_nil_r in H9 by (by rewrite Hc).
  by split; try done; apply Hi.
Qed.

Lemma restart_idle s : cinv s → state_ s = kConnected → FReset ∉ pending_ s →
  idle (set_connect true (set_delay kInitRetryDelayMs [] (setState kDisconnected s))).
Proof.
  intros [H1 H2 H3 H4 H5 H6 H7 H8 H9 H10 H11] Hst Hn. apply count_zero in Hn.
  rewrite Hst, Hn in H2. rewrite (current_idle s 0%nat), app_nil_r in H9 by exact H2. cbn in H2.
  split; try done; cbn.
  - destruct (channel_ s) as [[fd b]|]; [by destruct H2|done].
  - apply H6. by rewrite Hst.
  - destruct (started_ s); [done|]. destruct H7 as (_ & Hd & _); [done|congruence].
Qed.

(** Changes of the queues that add no call of [startInLoop]. *)
Lemma queues_inv b p r s :
  cinv s → count FReset p = count FReset (pending_ s) → count FReset r = 0%nat →
  (count FStart p + count FStart r = count FStart (pending_ s) + count FStart (remote_ s))%nat →
  (b = true → connect_ s = true) →
  cinv (set_connect b (set_loop p (timers_ s) r s)).
Proof.
  intros [H1 H2 H3 H4 H5 H6 H7 H8 H9 H10 H11] Hp Hr Hc Hb. unfold starts in *.
  split; unfold starts; cbn; rewrite ?Hp, ?Hc; try done. intros Hs Hb'. apply H8; auto.
Qed.

(** While a reset is queued, it is the only one. *)
Lemma chan_resets st c n : chan_ok st c (1 + n) → st ≠ kConnecting ∧ n = 0%nat.
Proof. destruct st, c as [[fd b]|]; cbn; intros H; try lia; (split; [done|lia]). Qed.

(** The test of [count_cons] on two constructors. *)
Ltac count_case H := first [rewrite decide_True in H by done | rewrite decide_False in H by done].

Lemma functor_inv e f q s : cinv s → pending_ s = f :: q →
  cinv (exec (run_functor (Some e) f) (set_loop q (timers_ s) (remote_ s) s)).
Proof.
  intros Hi Hf. pose proof (count_cons FReset f q) as Hr. pose proof (count_cons FStart f q) as Hs.
  rewrite <-Hf in Hr, Hs. destruct f; count_case Hr; count_case Hs; cbn [run_functor].
  - apply exec_start_inv, take_start_idle; try done.
    + rewrite starts_set_loop. unfold starts. rewrite Hs. cbn. lia.
    + apply (k_first s Hi). rewrite Hs. cbn. lia.
  - assert (cinv (set_loop q (timers_ s) (remote_ s) s)) as Hq.
    { apply (queues_inv (connect_ s) q (remote_ s) s Hi); [done|apply Hi|by rewrite Hs|done]. }
    destruct (stopInLoop_inv _ Hq) as (s' & He & Hi' & _). apply exec_inv. by exists (), s'.
  - destruct Hi as [H1 H2 H3 H4 H5 H6 H7 H8 H9 H10 H11]. unfold starts in *. rewrite Hr in H2. rewrite Hs in *.
    cbn in Hr, Hs, H4, H5, H6, H7, H8.
    destruct (chan_resets _ _ _ H2) as [Hst Hq].
    unfold exec, resetChannel, st_modify.
    split; unfold starts; cbn; rewrite ?Hq; try done.
    + by destruct (state_ s).
    + intros Hs'. by destruct (H7 Hs') as (? & ? & _).
    + etrans; [|exact H9]. rewrite (current_idle s (1 + count FReset q)) by (destruct (state_ s); done). done.
Qed.

Lemma timer_inv e l1 d l2 s : cinv s → timers_ s = l1 ++ d :: l2 → FReset ∉ pending_ s →
  cinv (exec (startInLoop (Some e)) (set_loop (pending_ s) (l1 ++ l2) (remote_ s) s)).
Proof.
  intros Hi Ht Hn. assert (starts (set_loop (pending_ s) (l1 ++ l2) (remote_ s) s) < starts s)%nat as Hlt.
  { rewrite starts_set_loop. unfold starts. rewrite Ht, !length_app. cbn. lia. }
  apply exec_start_inv, take_start_idle; try done.
  pose proof (k_chan s Hi) as Hc. pose proof (k_idle s Hi) as Hd. rewrite (count_zero _ _ Hn) in Hc.
  destruct (state_ s); [|specialize (Hd ltac:(done)); lia..].
  cbn in Hc. destruct (channel_ s) as [[fd b]|]; [by destruct Hc|done].
Qed.

Lemma event_connecting fd s : cinv s → channel_ s = Some (fd, true) → state_ s = kConnecting.
Proof. intros Hi Hc. pose proof (k_chan s Hi) as H. rewrite Hc in H. by destruct (state_ s), H. Qed.

Lemma contract_call_inv c s : enabled c s → in_contract c s → cinv s → cinv (run_call c s).
Proof.
  intros He Hco Hi. destruct c as [e| | | |f l1 l2|e|e f q|er wr err self|e l1 d l2]; cbn [enabled in_contract run_call] in *.
  - destruct Hco as (Hst & Hc & Hn).
    apply (exec_start_inv e (set_connect true (mark_started s))), idle_connect. by apply unused_idle.
  - destruct Hco as (Hst & Hc & Hn). destruct Hi as [H1 H2 H3 H4 H5 H6 H7 H8 H9 H10 H11].
    unfold starts in *.
    split; unfold starts; cbn; rewrite ?count_app, ?H3; try done; change (count FStart [FStart]) with 1%nat; try lia.
  - apply (queues_inv false (pending_ s ++ [FStop]) (remote_ s) s Hi); rewrite ?count_app;
      change (count FReset [FStop]) with 0%nat; change (count FStart [FStop]) with 0%nat; try apply Hi; try done; lia.
  - apply (queues_inv false (pending_ s) (remote_ s ++ [FStop]) s Hi); rewrite ?count_app, ?(k_remote s Hi);
      change (count FReset [FStop]) with 0%nat; change (count FStart [FStop]) with 0%nat; try done; lia.
  - pose proof (k_remote s Hi) as H3. rewrite He, count_app, count_cons in H3.
    assert (f ≠ FReset) as Hf by (intros ->; rewrite decide_True in H3 by done; lia).
    apply (queues_inv (connect_ s) (pending_ s ++ [f]) (l1 ++ l2) s Hi); rewrite ?He, ?count_app, ?count_cons; try done; try lia.
    + change (count FReset []) with 0%nat. rewrite decide_False by done. lia.
    + change (count FStart []) with 0%nat. lia.
  - destruct Hco as [Hc Hn].
    apply (exec_start_inv e (set_connect true (set_delay kInitRetryDelayMs [] (setState kDisconnected s)))).
    by apply restart_idle.
  - by apply functor_inv.
  - destruct He as [fd Hc]. by apply handleEvent_inv, event_connecting with fd.
  - by apply timer_inv with d.
Qed.

Lemma contract_inv s : contract_reachable s → cinv s.
Proof.
  intros Hr. assert (∀ a, rtc contract_step a s → cinv a → cinv s) as H.
  { clear Hr. induction 1 as [|a b c (k & He & Hco & ->) _ IH]; [done|]. intros Ha. by apply IH, contract_call_inv. }
  apply (H _ Hr). split; try done; unfold starts, count; cbn; lia.
Qed.

(** The contract allows steps, it adds none. *)
Lemma contract_creachable s : contract_reachable s → creachable s.
Proof.
  intros Hr. assert (∀ a, contract_reachable a → rtc contract_step a s → rtc cstep a s) as H; [|by apply (H _ (rtc_refl _ _))].
  clear Hr. intros a Ha Hs. induction Hs as [|a b c (k & He & Hco & ->) _ IH]; [done|].
  eapply rtc_l; [split; [apply (contract_inv a Ha)|by exists k]|]. apply IH. apply (rtc_r _ a); [exact Ha|by exists k].
Qed.

Lemma retry_handed fd s : handed_ (snd (retry fd s)) = handed_ s.
Proof.
  unfold retry, mbind, ST_bind, st_modify, st_get, lift, mret, ST_ret. cbn. destruct (connect_ s); [|done].
  cbn. by destruct (defined _).
Qed.

Lemma connecting_handed fd s : handed_ (snd (connecting fd s)) = handed_ s.
Proof.
  unfold connecting, mbind, ST_bind, st_modify, st_get, lift. cbn. by destruct (bool_decide _).
Qed.

Lemma exec_handed {A} (m : conn A) s : handed_ (exec m s) = handed_ (snd (m s)).
Proof. unfold exec. by destruct (m s) as [[| | |] s']. Qed.

Lemma startInLoop_handed e s : handed_ (exec (startInLoop (Some e)) s) = handed_ s.
Proof.
  rewrite exec_handed. unfold startInLoop, mbind, ST_bind, st_get, lift. cbn [fst snd].
  destruct (bool_decide _); [|done]. cbn [assert_ fst snd]. destruct (connect_ s); [|done].
  set (s0 := set_flags (started_ s) false (ok_ s) (set_sockets (S (sockets_ s)) (closed_ s) (handed_ s) s)).
  change (handed_ s) with (handed_ s0).
  destruct e; solve [done | apply (connecting_handed (sockets_ s) s0) | apply (retry_handed (sockets_ s) s0)].
Qed.

Lemma functor_handed e f q s : cinv s → pending_ s = f :: q →
  handed_ (exec (run_functor (Some e) f) (set_loop q (timers_ s) (remote_ s) s)) = handed_ s.
Proof.
  intros Hi Hf. destruct f; [apply (startInLoop_handed e (set_loop q (timers_ s) (remote_ s) s))| |done].
  pose proof (count_cons FReset FStop q) as Hr. count_case Hr.
  pose proof (count_cons FStart FStop q) as Hs. count_case Hs. rewrite <-Hf in Hr, Hs.
  assert (cinv (set_loop q (timers_ s) (remote_ s) s)) as Hq.
  { apply (queues_inv (connect_ s) q (remote_ s) s Hi); [done|apply Hi|by rewrite Hs|done]. }
  destruct (stopInLoop_inv _ Hq) as (s' & He & _ & Hh). unfold exec. cbn [run_functor]. by rewrite He.
Qed.

(** The loop's members leave [connect_] alone. *)
Definition keeps_connect {A} (m : conn A) : Prop := ∀ s, connect_ (snd (m s)) = connect_ s.

Lemma keeps_bind {A B} (m : conn A) (f : A → conn B) :
  keeps_connect m → (∀ a, keeps_connect (f a)) → keeps_connect (m ≫= f).
Proof.
  intros Hm Hf s. specialize (Hm s). unfold mbind, ST_bind. destruct (m s) as [[a| | |] s']; cbn in *; try done.
  by rewrite Hf.
Qed.

Lemma keeps_modify f : (∀ s, connect_ (f s) = connect_ s) → keeps_connect (st_modify f).
Proof. intros Hf s. apply Hf. Qed.

Lemma keeps_read {A} (f : Connector → conn A) : (∀ s, connect_ (snd (f s s)) = connect_ s) → keeps_connect (st_get ≫= f).
Proof. intros Hf s. apply Hf. Qed.

Lemma keeps_lift {A} (o : outcome A) : keeps_connect (lift o).
Proof. done. Qed.

Lemma keeps_get : keeps_connect st_get.
Proof. done. Qed.
Lemma keeps_ret {A} (a : A) : keeps_connect (mret a).
Proof. done. Qed.

Ltac keeps :=
  repeat match goal with
    | |- keeps_connect (st_modify _) => apply keeps_modify; intros ?; reflexivity
    | |- keeps_connect (lift _) => apply keeps_lift
    | |- keeps_connect (mret _) => apply keeps_ret
    | |- keeps_connect st_get => apply keeps_get
    | |- keeps_connect (mbind _ _) => apply keeps_bind; [|intros ?]
    | |- keeps_connect (if ?b then _ else _) => destruct b
    end.

Lemma retry_keeps fd : keeps_connect (retry fd).
Proof. unfold retry. keeps. Qed.
Lemma connecting_keeps fd : keeps_connect (connecting fd).
Proof. unfold connecting. keeps. Qed.

Lemma startInLoop_keeps e : keeps_connect (startInLoop e).
Proof.
  unfold startInLoop. apply keeps_read. intros s. unfold lift. destruct (bool_decide _); [|done]. cbn.
  destruct (connect_ s) eqn:Ec; [|done]. unfold connect. destruct e as [e|]; [|done].
  unfold mbind at 1, ST_bind at 1, lift, mbind at 1, ST_bind at 1, st_get. cbn [fst snd].
  unfold mbind at 1, ST_bind at 1, st_put. cbn [fst snd]. set (s0 := set_flags _ _ _ _).
  assert (connect_ s0 = true) as <- by done. clear Ec.
  destruct e; first [apply retry_keeps | apply connecting_keeps | done].
Qed.

Lemma removeAndReset_keeps : keeps_connect removeAndResetChannel.
Proof. unfold removeAndResetChannel. keeps. Qed.
Lemma stopInLoop_keeps : keeps_connect stopInLoop.
Proof. unfold stopInLoop. keeps; [apply removeAndReset_keeps|apply retry_keeps]. Qed.

Lemma handleWrite_keeps err self : keeps_connect (handleWrite err self).
Proof. unfold handleWrite. keeps; first [apply removeAndReset_keeps | apply retry_keeps]. Qed.
Lemma handleEvent_keeps er wr err self : keeps_connect (handleEvent er wr err self).
Proof. unfold handleEvent, handleError. keeps; first [apply removeAndReset_keeps | apply retry_keeps | apply handleWrite_keeps]. Qed.

Lemma exec_keeps {A} (m : conn A) s : keeps_connect m → connect_ (exec m s) = connect_ s.
Proof. intros Hm. rewrite <-(Hm s). unfold exec. by destruct (m s) as [[| | |] ?]. Qed.

(** A call within the contract returns. *)
Lemma exec_returns {A} (m : conn A) s : ok_ (exec m s) = true → ∃ a, m s = (Ret a, exec m s).
Proof. unfold exec. destruct (m s) as [[a| | |] s']; cbn; intros; [by exists a|done..]. Qed.

(** ** Whatever the users do

    The part of the invariant that no misuse breaks before an assertion fails. *)
Record ginv (s : Connector) : Prop := {
  g_ok : ok_ s = true;
  g_sockets : closed_ s ++ handed_ s ++ current s ≡ₚ seq 0 (sockets_ s);
  g_resets : count FReset (pending_ s) = match channel_ s with Some (_, false) => 1%nat | _ => 0%nat end;
  g_remote : count FReset (remote_ s) = 0%nat;
  g_connecting : state_ s = kConnecting → ∃ fd, channel_ s = Some (fd, true);
  g_connected : state_ s = kConnected → current s = [];
  g_delay : kInitRetryDelayMs ≤ retryDelayMs_ s ≤ kMaxRetryDelayMs;
}.

(** The same while a member holds the socket [fd], the state being about to
    change. *)
Record gopen (fd : nat) (s : Connector) : Prop := {
  o_ok : ok_ s = true;
  o_sockets : fd :: closed_ s ++ handed_ s ++ current s ≡ₚ seq 0 (sockets_ s);
  o_resets : count FReset (pending_ s) = match channel_ s with Some (_, false) => 1%nat | _ => 0%nat end;
  o_remote : count FReset (remote_ s) = 0%nat;
  o_delay : kInitRetryDelayMs ≤ retryDelayMs_ s ≤ kMaxRetryDelayMs;
}.

(** What holds if the call returns. *)
Definition may {A} (m : conn A) (s : Connector) (Q : A → Connector → Prop) : Prop :=
  match m s with (Ret a, s') => Q a s' | _ => True end.

Lemma may_bind {A B} (m : conn A) (f : A → conn B) s Q : may m s (λ a s', may (f a) s' Q) → may (m ≫= f) s Q.
Proof. unfold may, mbind, ST_bind. by destruct (m s) as [[a| | |] s']. Qed.
Lemma may_mono {A} (m : conn A) s (Q R : A → Connector → Prop) : may m s Q → (∀ a s', Q a s' → R a s') → may m s R.
Proof. unfold may. destruct (m s) as [[a| | |] s']; auto. Qed.
Lemma may_lift {A} (o : outcome A) s (Q : A → Connector → Prop) : (∀ a, o = Ret a → Q a s) → may (lift o) s Q.
Proof. unfold may, lift. destruct o; auto. Qed.
Lemma may_assert b s (Q : unit → Connector → Prop) : (b = true → Q () s) → may (lift (assert_ b)) s Q.
Proof. intros H. unfold may, lift. destruct b; cbn; auto. Qed.
Lemma may_exec {A} (m : conn A) s (Q : A → Connector → Prop) : may m s Q → ok_ (exec m s) = true → ∃ a, Q a (exec m s).
Proof.
  intros Hm Hok. destruct (exec_returns m s Hok) as [a Ha]. exists a. unfold may in Hm. by rewrite Ha in Hm.
Qed.

Ltac may_step := repeat first
  [ match goal with |- may (st_get ≫= ?k) ?x ?P => change (may (k x) x P); cbv beta end
  | match goal with |- may (st_modify ?f ;; ?k) ?x ?P => change (may k (f x) P) end
  | match goal with |- may (st_put ?y ;; ?k) ?x ?P => change (may k y P) end
  | match goal with |- may (st_modify ?f) ?x ?P => change (P () (f x)) end
  | match goal with |- may (mret ?a) ?x ?P => change (P a x) end ]; cbv beta.

Lemma g_retry fd s : gopen fd s → may (retry fd) s (λ _ s', ginv s' ∧ state_ s' = kDisconnected ∧ handed_ s' = handed_ s).
Proof.
  intros [H1 H2 H3 H4 H5].
  assert ((closed_ s ++ [fd]) ++ handed_ s ++ current s ≡ₚ seq 0 (sockets_ s)) as Hp.
  { etrans; [|exact H2]. by rewrite <-Permutation_cons_append. }
  unfold retry. may_step. cbn [connect_ setState close_socket set_sockets]. destruct (connect_ s).
  - may_step. apply may_bind, may_lift. intros _ _. may_step. split; [|done]. split; cbn; try done; unfold kInitRetryDelayMs, kMaxRetryDelayMs in *; lia.
  - may_step. split; [|done]. by split.
Qed.

Lemma g_connecting_ok fd s : gopen fd s → may (connecting fd) s (λ _ s', ginv s' ∧ handed_ s' = handed_ s).
Proof.
  intros [H1 H2 H3 H4 H5]. unfold connecting. may_step. apply may_bind, may_assert. intros Hc%bool_decide_eq_true.
  cbn in Hc. unfold current in H2. rewrite Hc in H2, H3. may_step. split; [|done].
  split; unfold current; cbn; try done; [|by eexists]. etrans; [|exact H2]. by rewrite app_nil_r, app_assoc, <-Permutation_cons_append.
Qed.

Lemma g_startInLoop e s : ginv s → may (startInLoop (Some e)) s (λ _ s', ginv s' ∧ handed_ s' = handed_ s).
Proof.
  intros Hi. unfold startInLoop. may_step. apply may_bind, may_assert. intros Hst%bool_decide_eq_true.
  destruct (connect_ s) eqn:Hc; [|by may_step]. destruct Hi as [H1 H2 H3 H4 H5 H6 H7].
  set (s0 := set_flags (started_ s) false (ok_ s) (set_sockets (S (sockets_ s)) (closed_ s) (handed_ s) s)).
  assert (sockets_ s :: closed_ s ++ handed_ s ++ current s ≡ₚ seq 0 (S (sockets_ s))) as Hp.
  { rewrite seq_S, <-H2. by rewrite <-Permutation_cons_append. }
  assert (gopen (sockets_ s) s0) as Ho by by split.
  unfold connect. apply may_bind, may_lift. intros e' [= <-]. may_step. fold s0.
  destruct e; first [exact (g_connecting_ok _ s0 Ho)|eapply may_mono; [exact (g_retry _ s0 Ho)|naive_solver]|idtac].
  all: may_step; split; [|done]; split; cbn; try done; try (etrans; [|exact Hp]; by rewrite <-Permutation_cons_append);
    try congruence.
Qed.

(** Leaving [kConnecting]: the socket is the caller's. *)
Lemma g_remove s : ginv s → state_ s = kConnecting →
  may removeAndResetChannel s (λ fd s', gopen fd s' ∧ current s' = [] ∧ handed_ s' = handed_ s ∧ connect_ s' = connect_ s).
Proof.
  intros [H1 H2 H3 H4 H5 H6 H7] Hst. destruct (H5 Hst) as [fd Hc]. unfold current in H2. rewrite Hc in H2, H3.
  unfold removeAndResetChannel. may_step. apply may_bind, may_lift. rewrite Hc. intros c [= <-]. may_step.
  split; [|done]. split; unfold current; cbn; try done.
  - etrans; [|exact H2]. by rewrite app_nil_r, app_assoc, <-Permutation_cons_append.
  - by rewrite count_app, H3.
Qed.

Lemma g_handleError s : ginv s → may handleError s (λ _ s', ginv s' ∧ handed_ s' = handed_ s ∧
  (state_ s' = kConnecting → state_ s = kConnecting) ∧ connect_ s' = connect_ s ∧ (state_ s = kConnecting → state_ s' = kDisconnected)).
Proof.
  intros Hi. unfold handleError. may_step. case_bool_decide as Hst; [|may_step; naive_solver].
  apply may_bind. eapply may_mono; [by apply g_remove|]. intros fd s1 (Ho & _ & Hh & Hc).
  pose proof (retry_keeps fd s1) as Hk. pose proof (g_retry fd s1 Ho) as Hr. unfold may in *.
  destruct (retry fd s1) as [[[]| | |] s2]; try done. cbn in Hk. destruct Hr as (Hi2 & Hs2 & Hh2). split; [done|].
  split; [congruence|]. split; [congruence|]. split; [congruence|done].
Qed.

(** A socket is handed over from [kConnecting], and only while wanted. *)
Definition hands (s s' : Connector) : Prop :=
  handed_ s' = handed_ s ∨
  connect_ s = true ∧ state_ s = kConnecting ∧ state_ s' = kConnected ∧ ∃ fd, handed_ s' = handed_ s ++ [fd].

Lemma g_handleWrite err self s : ginv s → may (handleWrite err self) s (λ _ s', ginv s' ∧ hands s s').
Proof.
  intros Hi. unfold handleWrite. may_step. case_bool_decide as Hst.
  2:{ apply may_assert. intros _. split; [done|by left]. }
  apply may_bind. eapply may_mono; [by apply g_remove|]. intros fd s1 (Ho & Hcur & Hh & Hc).
  assert (may (retry fd) s1 (λ _ s', ginv s' ∧ hands s s')) as Hret.
  { eapply may_mono; [by apply g_retry|]. intros _ s2 (Hi2 & _ & Hh2). split; [done|]. left. congruence. }
  destruct (negb (err =? 0)); [done|]. destruct self; [done|]. may_step. cbn [connect_ setState].
  destruct Ho as [H1 H2 H3 H4 H5]. rewrite Hcur, app_nil_r in H2. destruct (connect_ s1) eqn:Ec; may_step.
  - split; [|right; rewrite <-Hh, <-Hc; eauto]. split; cbn; try done. unfold current in *. cbn. rewrite Hcur, app_nil_r.
    etrans; [|exact H2]. by rewrite app_assoc, <-Permutation_cons_append.
  - split; [|by left]. split; cbn; try done. unfold current in *. cbn. rewrite Hcur, app_nil_r.
    etrans; [|exact H2]. by rewrite <-Permutation_cons_append.
Qed.

Lemma g_handleEvent er wr err self s : ginv s → may (handleEvent er wr err self) s (λ _ s', ginv s' ∧ hands s s').
Proof.
  intros Hi. unfold handleEvent. apply may_bind. destruct er.
  - eapply may_mono; [by apply g_handleError|]. intros [] s1 (Hi1 & Hh & Hs1 & Hc & Hd). destruct wr.
    2:{ may_step. split; [done|by left]. }
    eapply may_mono; [by apply g_handleWrite|]. intros [] s2 [Hi2 Hx]. split; [done|]. unfold hands in *. rewrite <-Hh, <-Hc.
    destruct Hx as [?|(? & Hst & ?)]; [by left|]. specialize (Hd (Hs1 Hst)). congruence.
  - may_step. destruct wr; [by apply g_handleWrite|]. may_step. split; [done|by left].
Qed.

Lemma g_stopInLoop s : ginv s → may stopInLoop s (λ _ s', ginv s' ∧ handed_ s' = handed_ s).
Proof.
  intros Hi. unfold stopInLoop. may_step. case_bool_decide as Hst; [|by may_step].
  pose proof (g_remove s Hi Hst) as Hr. unfold removeAndResetChannel in *. destruct Hi as [H1 H2 H3 H4 H5 H6 H7].
  destruct (H5 Hst) as [fd Hc]. unfold may, mbind, ST_bind, st_get, st_modify, lift in Hr |- *. cbn in Hr |- *. rewrite Hc in *.
  cbn in *. destruct Hr as (Ho & _). destruct Ho as [G1 G2 G3 G4 G5].
  match goal with |- match retry fd ?x with _ => _ end => change (may (retry fd) x (λ _ s', ginv s' ∧ handed_ s' = handed_ s)) end.
  eapply may_mono; [apply g_retry; by split|]. naive_solver.
Qed.

(** Changes of the queues and flags the invariant does not read. *)
Lemma g_frame s s' : ginv s → ok_ s' = ok_ s → closed_ s' = closed_ s → handed_ s' = handed_ s → channel_ s' = channel_ s →
  sockets_ s' = sockets_ s → count FReset (pending_ s') = count FReset (pending_ s) →
  count FReset (remote_ s') = count FReset (remote_ s) → state_ s' = state_ s →
  kInitRetryDelayMs ≤ retryDelayMs_ s' ≤ kMaxRetryDelayMs → ginv s'.
Proof.
  intros [H1 H2 H3 H4 H5 H6 H7] E1 E2 E3 E4 E5 E6 E7 E8 E9. unfold current in *.
  split; unfold current; rewrite ?E1, ?E2, ?E3, ?E4, ?E5, ?E6, ?E7, ?E8; try done.
Qed.

Lemma g_functor e f q s : ginv s → pending_ s = f :: q →
  may (run_functor (Some e) f) (set_loop q (timers_ s) (remote_ s) s) (λ _ s', ginv s' ∧ handed_ s' = handed_ s).
Proof.
  intros Hi Hf. pose proof (count_cons FReset f q) as Hr. rewrite <-Hf in Hr.
  destruct f; count_case Hr; cbn [run_functor].
  - apply (g_startInLoop e (set_loop q (timers_ s) (remote_ s) s)). apply (g_frame s); try done. apply Hi.
  - apply (g_stopInLoop (set_loop q (timers_ s) (remote_ s) s)). apply (g_frame s); try done. apply Hi.
  - unfold resetChannel. may_step. split; [|done]. destruct Hi as [H1 H2 H3 H4 H5 H6 H7]. rewrite Hr in H3. unfold current in *.
    destruct (channel_ s) as [[fd []]|] eqn:Hc; try lia.
    split; unfold current; cbn; try done; [lia|]. intros Hst. destruct (H5 Hst) as [? ?]. congruence.
Qed.

Lemma call_ginv c s : enabled c s → ginv s → ok_ (run_call c s) = true → ginv (run_call c s) ∧ hands s (run_call c s).
Proof.
  intros He Hi Hok. pose proof (g_delay s Hi) as Hd. pose proof (g_remote s Hi) as Hrm.
  destruct c as [e| | | |f l1 l2|e|e f q|er wr err self|e l1 d l2]; cbn [enabled run_call] in *.
  - assert (ginv (set_connect true (mark_started s))) as Hi0 by by apply (g_frame s).
    destruct (may_exec _ _ _ (g_startInLoop e _ Hi0) Hok) as (_ & Hi1 & Hh). split; [exact Hi1|by left].
  - split; [|by left]. apply (g_frame s); try done. cbn. by rewrite count_app, Hrm.
  - split; [|by left]. apply (g_frame s); try done. change (count FReset (pending_ s ++ [FStop]) = count FReset (pending_ s)).
    rewrite count_app. change (count FReset [FStop]) with 0%nat. lia.
  - split; [|by left]. apply (g_frame s); try done. cbn. by rewrite count_app, Hrm.
  - split; [|by left]. rewrite He, count_app, count_cons in Hrm. apply (g_frame s); try done; cbn.
    + rewrite count_app, count_cons. change (count FReset []) with 0%nat. destruct (decide (f = FReset)); lia.
    + rewrite He, !count_app, count_cons. destruct (decide (f = FReset)); lia.
  - assert (ginv (set_connect true (set_delay kInitRetryDelayMs [] (setState kDisconnected s)))) as Hi0.
    { destruct Hi as [H1 H2 H3 H4 H5 H6 H7]. by split. }
    destruct (may_exec _ _ _ (g_startInLoop e _ Hi0) Hok) as (_ & Hi1 & Hh). split; [exact Hi1|by left].
  - destruct (may_exec _ _ _ (g_functor e f q s Hi He) Hok) as (_ & Hi1 & Hh). split; [exact Hi1|by left].
  - destruct (may_exec _ _ _ (g_handleEvent er wr err self s Hi) Hok) as (_ & Hi1 & Hh). by split.
  - assert (ginv (set_loop (pending_ s) (l1 ++ l2) (remote_ s) s)) as Hi0 by by apply (g_frame s).
    destruct (may_exec _ _ _ (g_startInLoop e _ Hi0) Hok) as (_ & Hi1 & Hh). split; [exact Hi1|by left].
Qed.

Lemma creachable_ginv s : creachable s → ok_ s = true → ginv s.
Proof.
  intros Hr. assert (∀ a, rtc cstep a s → (ok_ a = true → ginv a) → ok_ s = true → ginv s) as H.
  { clear Hr. induction 1 as [|a b c (Hok & k & He & ->) _ IH]; [done|]. intros Ha. apply IH. intros Hok'.
    by apply call_ginv; [|apply Ha|]. }
  apply (H _ Hr). intros _. by split.
Qed.

(** ** Properties *)

(** C19: A connector loses no socket and closes none twice.  However its calls
    (from any thread, in any order), the loop and the kernel's answers
    interleave, as long as no assertion has failed: every socket it opened is,
    once, closed, handed to its user, or the one registered with the poller,
    and a socket is handed over only from [kConnecting] and while a connection
    is wanted.  Assertions do fail in some interleavings
    ([start_after_stop_aborts], [start_when_connected_aborts],
    [restart_when_connecting_aborts], [early_retry_aborts]); none does if the
    users and the loop keep to the contract [in_contract]: [start] only when
    nothing is going on, [restart] only when connected and reset, no timer
    before the queued reset has run.  Then also the registered socket is exactly
    that of the state [kConnecting], and at most one attempt is under way or to
    come. *)
Theorem connector_keeps_its_sockets s :
  (creachable s → ok_ s = true →
    closed_ s ++ handed_ s ++ current s ≡ₚ seq 0 (sockets_ s) ∧
    (state_ s = kConnecting → ∃ fd, channel_ s = Some (fd, true)) ∧
    (∀ s', cstep s s' → ok_ s' = true → handed_ s' = handed_ s ∨
      connect_ s = true ∧ state_ s = kConnecting ∧ state_ s' = kConnected ∧ ∃ fd, handed_ s' = handed_ s ++ [fd])) ∧
  (contract_reachable s →
    creachable s ∧ ok_ s = true ∧ (state_ s = kConnecting ↔ ∃ fd, channel_ s = Some (fd, true)) ∧
    (starts s + length (current s) ≤ 1)%nat).
Proof.
  split.
  - intros Hr Hok. pose proof (creachable_ginv s Hr Hok) as Hi. split; [apply Hi|]. split; [apply Hi|].
    intros s' (_ & c & He & ->) Hok'. by apply call_ginv.
  - intros Hr. pose proof (contract_inv s Hr) as Hi. split; [by apply contract_creachable|]. split; [apply Hi|].
    pose proof (k_chan s Hi) as Hc. split.
    + split; [intros Hst; by rewrite Hst in Hc; destruct Hc|]. intros [fd Hfd]. by eapply event_connecting.
    + pose proof (k_idle s Hi) as Hd. pose proof (k_starts s Hi). unfold current.
      destruct (channel_ s) as [[fd []]|] eqn:Ech; [|cbn; lia..].
      rewrite Hd; [cbn; lia|]. rewrite (event_connecting fd s Hi Ech). done.
Qed.

(** Within the contract retries back off and never stop by themselves: since the last restart
    the k-th delay was min(500 * 2^k, 30000) ms, and a connector that was
    started, is still wanted, has not met a final error and is neither
    connecting nor connected has exactly one start to come. *)
Theorem connector_retries s (Hr : contract_reachable s) :
  (∀ k d, delays_ s !! k = Some d → d = Z.min (kInitRetryDelayMs * 2 ^ Z.of_nat k) kMaxRetryDelayMs) ∧
  (started_ s = true → connect_ s = true → given_up_ s = false →
    state_ s = kConnected ∨ (∃ fd, state_ s = kConnecting ∧ channel_ s = Some (fd, true)) ∨
    state_ s = kDisconnected ∧ starts s = 1%nat).
Proof.
  apply contract_inv in Hr as Hi. split.
  - intros k d Hk. rewrite (k_delays s Hi), list_lookup_fmap in Hk.
    apply fmap_Some in Hk as (k' & Hk' & ->). by apply lookup_seq in Hk' as [-> _].
  - intros Hs Hc Hg. pose proof (k_chan s Hi) as Hch. destruct (state_ s) eqn:Hst.
    + right; right. split; [done|]. by apply (k_live s Hi).
    + right; left. destruct Hch as (_ & fd & ?). by exists fd.
    + by left.
Qed.

(** A run: the first attempt is refused at once, the second at the first
    event, the third succeeds. *)
Definition demo_retry : Connector := exec (start (Some ECONNREFUSED)) (mark_started Connector_new).
Definition demo_second : Connector :=
  exec (handleEvent true true 111 false)
    (exec (startInLoop (Some EINPROGRESS)) (set_loop (pending_ demo_retry) [] (remote_ demo_retry) demo_retry)).
Definition demo_reset : Connector :=
  exec (run_functor (Some OK) FReset) (set_loop [] (timers_ demo_second) (remote_ demo_second) demo_second).
Definition demo_connected : Connector :=
  exec (handleEvent false true 0 false) (exec (startInLoop (Some EINPROGRESS)) (set_loop [] [] [] demo_reset)).

(** One more step of a run on concrete states. *)
Lemma contract_run c a s : enabled c a → in_contract c a → rtc contract_step (run_call c a) s → rtc contract_step a s.
Proof. intros He Hc. apply rtc_l. by exists c. Qed.

Lemma contract_done a s : a = s → rtc contract_step a s.
Proof. intros ->. apply rtc_refl. Qed.

Ltac demo_step c := apply (contract_run c);
  [vm_compute; first [exact I | eexists; reflexivity | reflexivity]
  |vm_compute; first [exact I | by repeat split | apply not_elem_of_nil]
  |].

Lemma demo_second_reachable : contract_reachable demo_second.
Proof.
  unfold contract_reachable. demo_step (CStart ECONNREFUSED). demo_step (CTimer EINPROGRESS [] 500 []).
  demo_step (CEvent true true 111 false). apply contract_done. vm_compute. reflexivity.
Qed.

Lemma demo_reset_reachable : contract_reachable demo_reset.
Proof.
  unfold contract_reachable. etrans; [apply demo_second_reachable|]. demo_step (CFunctor OK FReset []). apply contract_done. vm_compute. reflexivity.
Qed.

Lemma demo_connected_reachable : contract_reachable demo_connected.
Proof.
  unfold contract_reachable. etrans; [apply demo_reset_reachable|]. demo_step (CTimer EINPROGRESS [] 1000 []).
  demo_step (CEvent false true 0 false). apply contract_done. vm_compute. reflexivity.
Qed.

Lemma connector_keeps_its_sockets_witness :
  closed_ demo_connected = [0; 1]%nat ∧ handed_ demo_connected = [2]%nat ∧ ok_ demo_connected = true ∧
  closed_ demo_connected ++ handed_ demo_connected ++ current demo_connected ≡ₚ seq 0 (sockets_ demo_connected).
Proof.
  split; [reflexivity|]. split; [reflexivity|].
  destruct (connector_keeps_its_sockets demo_connected) as [H1 H2].
  destruct (H2 demo_connected_reachable) as (H3 & H4 & _). split; [exact H4|]. exact (proj1 (H1 H3 H4)).
Defined.

Lemma connector_retries_witness : delays_ demo_reset = [500; 1000] ∧ timers_ demo_reset = [1000] ∧
  (delays_ demo_reset !! 1%nat = Some 1000 → 1000 = Z.min (kInitRetryDelayMs * 2 ^ Z.of_nat 1) kMaxRetryDelayMs).
Proof.
  split; [reflexivity|]. split; [reflexivity|].
  exact (proj1 (connector_retries demo_reset demo_reset_reachable) 1%nat 1000).
Defined.

(** ** What the contract excludes *)

(** [stop] leaves the timer of the next attempt set: a [start] before it fires
    connects at once, and the timer then finds the connector connecting. *)
Definition demo_restarted : Connector :=
  run_call (CStart EINPROGRESS) (run_call (CFunctor OK FStop []) (run_call CStop demo_retry)).

Lemma start_after_stop_aborts : timers_ demo_restarted = [500] ∧ ok_ demo_restarted = true ∧
  ok_ (run_call (CTimer EINPROGRESS [] 500 []) demo_restarted) = false.
Proof. done. Qed.

(** [restart] while an attempt is under way: the channel is not reset. *)
Lemma restart_when_connecting_aborts fd e s : channel_ s = Some (fd, true) → e ∈ [OK; EINPROGRESS; EINTR; EISCONN] →
  ok_ (run_call (CRestart e) s) = false.
Proof.
  intros Hc He. cbn [run_call]. unfold exec, restart, startInLoop, connect, connecting, mbind, ST_bind, st_modify, st_get, lift.
  cbn. rewrite !elem_of_cons in He. destruct He as [-> |[-> |[-> |[-> |He]]]]; cbn; rewrite ?Hc; [done..|by apply not_elem_of_nil in He].
Qed.

(** [start] on a connector whose connection is up, or was and is closed. *)
Lemma start_when_connected_aborts e s : state_ s = kConnected → fst (start e s) = AssertFail.
Proof. intros Hs. unfold start, startInLoop, mbind, ST_bind, st_modify, st_get, lift. cbn. by rewrite Hs. Qed.

(** A timer that fires before the end of the iteration that set it. *)
Lemma early_retry_aborts : contract_reachable demo_second ∧ ok_ (run_call (CTimer EINPROGRESS [] 1000 []) demo_second) = false ∧
  enabled (CTimer EINPROGRESS [] 1000 []) demo_second.
Proof. split; [apply demo_second_reachable|done]. Qed.
