(* ===== verification/LoopPool.v ===== *)
(** * Loop threads (master/net/EventLoopThread.h, EventLoopThread.cc,
    EventLoopThreadPool.h, EventLoopThreadPool.cc)

    An [EventLoopThread] starts a thread that runs one loop on its stack and
    waits for its address; the two threads meet at a mutex and a condition
    variable, so a step is a critical section or what lies between two of
    them.  An [EventLoopThreadPool] starts a number of them and gives their
    loops out in turn.  A loop is a number. *)
From stdpp Require Import relations.
From S2P Require Import Prelude CxxString.
Local Open Scope Z_scope.

(** ** One thread *)
Module LoopThread.

(** Where [threadFunc] is. *)
Inductive tpc :=
  | NotStarted
  | Starting     (* the loop is constructed, the callback not yet run *)
  | Ready        (* before the first critical section *)
  | Looping      (* in loop.loop() *)
  | LoopDone     (* before the last critical section *)
  | Exited.
(** Where [startLoop] is. *)
Inductive spc := Idle | Awake | Asleep | Returned (loop : nat).

Record EventLoopThread := MkThread {
  thread_ : tpc;
  starter_ : spc;
  loop_ : option nat;
  callback_ran_ : bool;
}.

Definition EventLoopThread_new : EventLoopThread := MkThread NotStarted Idle None false.

Section Thread.
Context (self : nat).

(** [startLoop()]: start the thread; the test under the mutex. *)
Definition startLoop (t : EventLoopThread) : EventLoopThread := MkThread Starting Awake (loop_ t) (callback_ran_ t).
Definition test_loop (t : EventLoopThread) : EventLoopThread :=
  MkThread (thread_ t) (match loop_ t with Some l => Returned l | None => Asleep end) (loop_ t) (callback_ran_ t).
(** [threadFunc()] *)
Definition run_callback (t : EventLoopThread) : EventLoopThread := MkThread Ready (starter_ t) (loop_ t) true.
Definition publish (t : EventLoopThread) : EventLoopThread :=
  MkThread Looping (match starter_ t with Asleep => Awake | p => p end) (Some self) (callback_ran_ t).
Definition leave_loop (t : EventLoopThread) : EventLoopThread := MkThread LoopDone (starter_ t) (loop_ t) (callback_ran_ t).
Definition clear (t : EventLoopThread) : EventLoopThread := MkThread Exited (starter_ t) None (callback_ran_ t).

Inductive tstep : EventLoopThread → EventLoopThread → Prop :=
  | t_start t : thread_ t = NotStarted → starter_ t = Idle → tstep t (startLoop t)
  | t_test t : starter_ t = Awake → tstep t (test_loop t)
  | t_wake t : starter_ t = Asleep → tstep t (MkThread (thread_ t) Awake (loop_ t) (callback_ran_ t))
  | t_callback t : thread_ t = Starting → tstep t (run_callback t)
  | t_publish t : thread_ t = Ready → tstep t (publish t)
  | t_leave t : thread_ t = Looping → tstep t (leave_loop t)
  | t_clear t : thread_ t = LoopDone → tstep t (clear t).

Definition treachable (t : EventLoopThread) : Prop := rtc tstep EventLoopThread_new t.

Definition tinv (t : EventLoopThread) : Prop :=
  match thread_ t with
  | NotStarted => starter_ t = Idle ∧ loop_ t = None
  | Starting | Ready => (starter_ t = Awake ∨ starter_ t = Asleep) ∧ loop_ t = None ∧ (thread_ t = Ready → callback_ran_ t = true)
  | Looping | LoopDone => (starter_ t = Awake ∨ starter_ t = Returned self) ∧ loop_ t = Some self ∧ callback_ran_ t = true
  | Exited => starter_ t ≠ Idle ∧ (∀ l, starter_ t = Returned l → l = self) ∧ loop_ t = None ∧ callback_ran_ t = true
  end.

Lemma tstep_inv t t' : tstep t t' → tinv t → tinv t'.
Proof. unfold tinv. destruct 1 as [t Ht Hs|t Hs|t Hs|t Ht|t Ht|t Ht|t Ht]; destruct t as [p s l c]; cbn in *; subst; try destruct p; cbn in *; naive_solver. Qed.

(** [startLoop] returns the new thread's own loop, after the initialisation
    callback ran; it sleeps only before the loop is published or after the
    loop has ended. *)
Theorem startLoop_returns_the_loop t (Hr : treachable t) :
  (∀ l, starter_ t = Returned l → l = self ∧ callback_ran_ t = true) ∧
  (starter_ t = Asleep → thread_ t = Starting ∨ thread_ t = Ready ∨ thread_ t = Exited).
Proof.
  assert (tinv t) as Hi.
  { assert (∀ a, rtc tstep a t → tinv a → tinv t) as H; [|by apply (H _ Hr)].
    clear Hr. induction 1 as [|a b c Hab _ IH]; [done|]. intros Ha. by apply IH, (tstep_inv a). }
  destruct t as [p s l c]. unfold tinv in Hi. cbn in *. destruct p; naive_solver.
Qed.

(** A loop that ends before [startLoop] looks leaves it waiting for ever. *)
Lemma early_exit_strands t t' :
  thread_ t = Exited → loop_ t = None → starter_ t = Awake ∨ starter_ t = Asleep → rtc tstep t t' → ∀ l, starter_ t' ≠ Returned l.
Proof.
  intros H1 H2 H3 Hr. induction Hr as [t|t t1 t2 Hst _ IH]; [intros l; destruct H3; congruence|].
  apply IH; destruct Hst as [t Ht Hs|t Hs|t Hs|t Ht|t Ht|t Ht|t Ht]; cbn in *; try congruence; rewrite ?H2; auto.
Qed.

Lemma early_exit_reachable : treachable (MkThread Exited Awake None true).
Proof.
  eapply rtc_l; [by apply t_start|]. eapply rtc_l; [by apply t_callback|]. eapply rtc_l; [by apply t_publish|].
  eapply rtc_l; [by apply t_leave|]. eapply rtc_l; [by apply t_clear|]. apply rtc_refl.
Qed.
End Thread.
End LoopThread.

(** ** The pool *)
Record EventLoopThreadPool := MkPool {
  name_ : bytes;
  started_ : bool;
  numThreads_ : Z;
  next_ : Z;
  threads_ : list bytes;
  loops_ : list nat;
}.

Definition EventLoopThreadPool_new (name : bytes) : EventLoopThreadPool := MkPool name false 0 0 [] [].
Definition setThreadNum (n : Z) (p : EventLoopThreadPool) : EventLoopThreadPool :=
  MkPool (name_ p) (started_ p) n (next_ p) (threads_ p) (loops_ p).

Section Pool.
(** [startLoop i] is the loop the [i]-th thread returns. *)
Context (baseLoop_ : nat) (startLoop : nat → nat).

(** [start(cb)]; [cb] says whether there is a callback.  The result is the
    loops it was called on. *)
Definition start (cb : bool) : ST EventLoopThreadPool (list nat) :=
  p ← st_get;
  lift (assert_ (negb (started_ p))) ;;
  let ids := seq 0 (Z.to_nat (numThreads_ p)) in
  let names := (λ i, name_ p ++ dec_int (Z.of_nat i)) <$> ids in
  let loops := startLoop <$> ids in
  st_put (MkPool (name_ p) true (numThreads_ p) (next_ p) (threads_ p ++ names) (loops_ p ++ loops)) ;;
  mret (if cb then if numThreads_ p =? 0 then [baseLoop_] else loops else []).

Definition getNextLoop : ST EventLoopThreadPool nat :=
  p ← st_get;
  lift (assert_ (started_ p)) ;;
  match loops_ p with
  | [] => mret baseLoop_
  | _ =>
      loop ← lift (or_undef (loops_ p !! Z.to_nat (next_ p)));
      lift (defined (in_sb 32 (next_ p + 1))) ;;
      let n := next_ p + 1 in
      st_put (MkPool (name_ p) (started_ p) (numThreads_ p) (if zlen (loops_ p) <=? u64 n then 0 else n)
                (threads_ p) (loops_ p)) ;;
      mret loop
  end.

Definition getLoopForHash (hashCode : Z) (p : EventLoopThreadPool) : outcome nat :=
  match loops_ p with
  | [] => Ret baseLoop_
  | _ => or_undef (loops_ p !! Z.to_nat (hashCode mod zlen (loops_ p)))
  end.

Definition getAllLoops (p : EventLoopThreadPool) : outcome (list nat) :=
  assert_ (started_ p) ;; Ret (match loops_ p with [] => [baseLoop_] | ls => ls end).

(** [k] calls of [getNextLoop]. *)
Fixpoint next_loops (k : nat) : ST EventLoopThreadPool (list nat) :=
  match k with
  | O => mret []
  | S k' => l ← getNextLoop; ls ← next_loops k'; mret (l :: ls)
  end.

(** The pool after [start] with [n] threads. *)
Definition started_pool (name : bytes) (n : nat) (next : Z) : EventLoopThreadPool :=
  MkPool name true (Z.of_nat n) next ((λ i, name ++ dec_int (Z.of_nat i)) <$> seq 0 n) (startLoop <$> seq 0 n).

Lemma start_pool name n cb : fst (start cb (setThreadNum (Z.of_nat n) (EventLoopThreadPool_new name))) =
    Ret (if cb then match n with O => [baseLoop_] | _ => startLoop <$> seq 0 n end else []) ∧
  snd (start cb (setThreadNum (Z.of_nat n) (EventLoopThreadPool_new name))) = started_pool name n 0.
Proof.
  unfold start, mbind, ST_bind, st_get, lift, st_put, mret, ST_ret. cbn [fst snd started_ setThreadNum EventLoopThreadPool_new
    negb assert_ numThreads_ name_ threads_ loops_ app]. rewrite Nat2Z.id.
  split; [|done]. destruct cb; [|done]. by destruct n.
Qed.

Lemma getNextLoop_turn name n i : (0 < n)%nat → Z.of_nat n < 2 ^ 31 → (i < n)%nat →
  getNextLoop (started_pool name n (Z.of_nat i)) =
    (Ret (startLoop i), started_pool name n (Z.of_nat (S i mod n))).
Proof.
  intros Hn Hb Hi. unfold getNextLoop, mbind, ST_bind, st_get, lift, st_put, mret, ST_ret. cbn [fst snd started_ assert_ started_pool].
  change (loops_ (started_pool name n (Z.of_nat i))) with (startLoop <$> seq 0 n).
  change (next_ (started_pool name n (Z.of_nat i))) with (Z.of_nat i).
  destruct (startLoop <$> seq 0 n) as [|l0 ls] eqn:Els.
  { apply (f_equal length) in Els. rewrite length_fmap, length_seq in Els. cbn in Els. lia. }
  rewrite <-Els, Nat2Z.id, list_lookup_fmap, lookup_seq_lt by done. cbn [fmap option_fmap option_map or_undef from_option].
  assert (zlen (startLoop <$> seq 0 n) = Z.of_nat n) as -> by (unfold zlen; by rewrite length_fmap, length_seq).
  unfold defined, in_sb. rewrite (proj2 (Z.leb_le _ _)), (proj2 (Z.ltb_lt _ _)) by lia. cbn [andb].
  change (name_ (started_pool name n (Z.of_nat i))) with name.
  change (numThreads_ (started_pool name n (Z.of_nat i))) with (Z.of_nat n).
  change (threads_ (started_pool name n (Z.of_nat i))) with ((λ i, name ++ dec_int (Z.of_nat i)) <$> seq 0 n).
  unfold u64. rewrite wrapu_small by (unfold in_u; lia). rewrite Nat.add_0_l.
  f_equal. unfold started_pool. f_equal. destruct (decide (S i = n)) as [<-|Hne].
  - rewrite Nat.Div0.mod_same. case_if; [done|lia].
  - rewrite Nat.mod_small by lia. case_if; lia.
Qed.

Lemma seq_fmap_shift {A} (f g : nat → A) j j' k :
  (∀ i, (i < k)%nat → f (j + i)%nat = g (j' + i)%nat) → f <$> seq j k = g <$> seq j' k.
Proof.
  intros H. apply list_eq. intros i. rewrite !list_lookup_fmap. destruct (decide (i < k)%nat) as [Hi|Hi].
  - rewrite !lookup_seq_lt by done. cbn. by rewrite H.
  - by rewrite !lookup_seq_ge by lia.
Qed.

(** The loop of the [i]-th caller. *)
Definition turn (n i : nat) : nat := match n with O => baseLoop_ | _ => startLoop (i mod n) end.

Lemma next_loops_turn name n k j :
  Z.of_nat n < 2 ^ 31 → match n with O => j = 0%nat | _ => (j < n)%nat end →
  next_loops k (started_pool name n (Z.of_nat j)) =
    (Ret (turn n <$> seq j k), started_pool name n (Z.of_nat (match n with O => 0 | _ => (j + k) mod n end))).
Proof.
  intros Hn. revert j. induction k as [|k IH]; intros j Hj.
  - destruct n as [|n']; [by subst j|]. cbn [next_loops seq fmap list_fmap]. rewrite Nat.add_0_r, Nat.mod_small by done. done.
  - cbn [next_loops]. destruct n as [|n'].
    + subst j. rewrite (ST_bind_eq getNextLoop _ _ baseLoop_ (started_pool name 0 0)) by done.
      change 0 with (Z.of_nat 0) at 1. erewrite (ST_bind_eq (next_loops k)) by (by apply IH).
      unfold mret, ST_ret. do 2 f_equal. cbn [seq fmap list_fmap]. f_equal. by apply seq_fmap_shift.
    + erewrite (ST_bind_eq getNextLoop) by (by apply getNextLoop_turn; lia).
      erewrite (ST_bind_eq (next_loops k)) by (apply IH, Nat.mod_upper_bound; lia).
      unfold mret, ST_ret. f_equal.
      * cbn [seq]. rewrite fmap_cons. f_equal. f_equal; [unfold turn; by rewrite Nat.mod_small|].
        apply seq_fmap_shift. intros i Hi. unfold turn. f_equal. apply Nat.Div0.add_mod_idemp_l.
      * f_equal. f_equal. rewrite Nat.Div0.add_mod_idemp_l. f_equal. lia.
Qed.

(** The pool deals its loops in turn: a pool started with [n] threads gives
    the k-th caller of [getNextLoop] the loop of thread [k mod n], and one
    started without threads always its base loop; no index leaves the vector,
    nor does that of [getLoopForHash]. *)
Theorem loops_dealt_in_turn name n k (Hn : Z.of_nat n < 2 ^ 31) :
  fst (next_loops k (started_pool name n 0)) = Ret (turn n <$> seq 0 k) ∧
  ∀ hashCode next, 0 ≤ hashCode →
    getLoopForHash hashCode (started_pool name n next) = Ret (turn n (Z.to_nat hashCode)).
Proof.
  split.
  - change 0 with (Z.of_nat 0) at 1. by rewrite next_loops_turn by (destruct n; lia).
  - intros h next Hh. unfold getLoopForHash, turn. change (loops_ (started_pool name n next)) with (startLoop <$> seq 0 n).
    destruct n as [|n']; [done|]. destruct (startLoop <$> seq 0 (S n')) as [|l ls] eqn:Els; [done|]. rewrite <-Els.
    unfold zlen. rewrite length_fmap, length_seq, list_lookup_fmap.
    rewrite Z2Nat.inj_mod, Nat2Z.id by lia. rewrite lookup_seq_lt by (apply Nat.mod_upper_bound; lia). done.
Qed.
End Pool.

Lemma loops_dealt_in_turn_witness :
  fst (next_loops 0 5 (started_pool S s!"io" 2 0)) = Ret [1; 2; 1; 2; 1]%nat ∧
  fst (next_loops 0 5 (started_pool S s!"io" 2 0)) = Ret (turn 0 S 2 <$> seq 0 5).
Proof.
  split; [reflexivity|]. exact (proj1 (loops_dealt_in_turn 0 S s!"io" 2 5 ltac:(lia))).
Defined.
