(* ===== verification/TcpServer.v ===== *)
(** * The server (master/net/TcpServer.h, TcpServer.cc)

    A server deals accepted sockets to the loops of its pool, keeps the
    connections by name and takes each out, in its own loop, when the
    connection tells it of its end.  What it uses of a connection is the
    interface [ConnOps] with the contract [ConnSpec]; the file
    ServedConnection discharges it for TcpConnection.  A connection is named
    by the number of its creation; the members that do not outlive a handler
    (the [shared_ptr]s) are the entries of [connections_] and of the loops'
    queues.  A loop is its queue of functors: other loops' functors interleave
    freely, those of one loop run in order. *)
From stdpp Require Import relations functions.
From S2P Require Import Prelude CxxString LoopPool.
Local Open Scope Z_scope.

(** ** The connection, as the server sees it *)

(** [conn_event]: what happens to a connection between [connectEstablished]
    and [connectDestroyed], within its obligations [conn_legal];
    [conn_told]: its close callback was called. *)
Class ConnOps (C E : Type) := {
  conn_new : Z → C;
  conn_established : ST C unit;
  conn_destroyed : ST C unit;
  conn_event : E → ST C unit;
  conn_legal : E → C → bool;
  conn_told : C → bool;
}.

Class ConnSpec (C E : Type) `{!ConnOps C E} := {
  conn_fresh : C → Prop;
  conn_up : C → Prop;
  conn_closed : C → Prop;
  conn_gone : C → Prop;
  new_fresh fd : 0 ≤ fd → conn_fresh (conn_new fd);
  up_not_told c : conn_up c → conn_told c = false;
  closed_told c : conn_closed c → conn_told c = true;
  gone_told c : conn_gone c → conn_told c = true;
  established_spec c : conn_fresh c → safe conn_established c (λ _ c', conn_up c');
  event_up e c : conn_up c → conn_legal e c = true →
    safe (conn_event e) c (λ _ c', if conn_told c' then conn_closed c' else conn_up c');
  event_closed e c : conn_closed c → conn_legal e c = true → safe (conn_event e) c (λ _ c', conn_closed c');
  event_gone e c : conn_gone c → conn_legal e c = true → safe (conn_event e) c (λ _ c', conn_gone c');
  destroyed_spec c : conn_closed c → safe conn_destroyed c (λ _ c', conn_gone c');
}.

Inductive sfunctor := SEstablish (c : nat) | SDestroy (c : nat) | SRemove (c : nat).

Section Server.
Context {C E : Type} `{!ConnOps C E}.

Record SConn := MkSConn { c_name : bytes; c_loop : nat; c_conn : C }.

Record TcpServer := MkServer {
  threadPool_ : EventLoopThreadPool;
  started_ : Z;
  listenning_ : bool;
  nextConnId_ : Z;
  connections_ : gmap bytes nat;
  (** The connections ever made, the queues of the loops, and whether the
      server object lives. *)
  heap_ : list SConn;
  queues_ : nat → list sfunctor;
  alive_ : bool;
}.

(** The server's loop is 0, that of the i-th thread [startLoop i]. *)
Context (name_ ipPort_ : bytes) (startLoop : nat → nat).
Definition loop_ : nat := 0.

Definition set_pool p s := MkServer p (started_ s) (listenning_ s) (nextConnId_ s) (connections_ s) (heap_ s) (queues_ s) (alive_ s).
Definition set_started b l s := MkServer (threadPool_ s) b l (nextConnId_ s) (connections_ s) (heap_ s) (queues_ s) (alive_ s).
Definition set_connections m s := MkServer (threadPool_ s) (started_ s) (listenning_ s) (nextConnId_ s) m (heap_ s) (queues_ s) (alive_ s).
Definition set_heap h s := MkServer (threadPool_ s) (started_ s) (listenning_ s) (nextConnId_ s) (connections_ s) h (queues_ s) (alive_ s).
Definition set_queues q s := MkServer (threadPool_ s) (started_ s) (listenning_ s) (nextConnId_ s) (connections_ s) (heap_ s) q (alive_ s).

(** The constructor and [setThreadNum]. *)
Definition TcpServer_new (numThreads : Z) : TcpServer :=
  MkServer (setThreadNum numThreads (EventLoopThreadPool_new name_)) 0 false 1 ∅ [] (λ _, []) true.

Abbreviation srv := (ST TcpServer).

Definition on_pool {A} (m : ST EventLoopThreadPool A) : srv A := λ s,
  let '(r, p) := m (threadPool_ s) in (r, set_pool p s).
Definition on_conn {A} (c : nat) (m : ST C A) : srv A := λ s,
  match heap_ s !! c with
  | Some sc => let '(r, x) := m (c_conn sc) in (r, set_heap (<[c := MkSConn (c_name sc) (c_loop sc) x]> (heap_ s)) s)
  | None => (Undef, s)
  end.
Definition queueInLoop (l : nat) (f : sfunctor) : srv unit :=
  st_modify (λ s, set_queues (<[l := queues_ s l ++ [f]]> (queues_ s)) s).

(** [start()] in the server's loop. *)
Definition start (cb : bool) : srv unit :=
  s ← st_get;
  st_modify (set_started 1 (listenning_ s)) ;;
  if started_ s =? 0 then
    on_pool (LoopPool.start loop_ startLoop cb) ;;
    s' ← st_get;
    lift (assert_ (negb (listenning_ s'))) ;;
    st_modify (set_started (started_ s') true)
  else mret ().

(** [snprintf] into 64 characters. *)
Definition connName (id : Z) : bytes := name_ ++ ztake 63 (s!"-" ++ ipPort_ ++ s!"#" ++ dec_int id).

Definition newConnection (sockfd : Z) : srv unit :=
  ioLoop ← on_pool (getNextLoop loop_);
  s ← st_get;
  lift (defined (in_sb 32 (nextConnId_ s + 1))) ;;
  let c := length (heap_ s) in
  let n := connName (nextConnId_ s) in
  st_put (MkServer (threadPool_ s) (started_ s) (listenning_ s) (nextConnId_ s + 1) (<[n := c]> (connections_ s))
    (heap_ s ++ [MkSConn n ioLoop (conn_new sockfd)]) (queues_ s) (alive_ s)) ;;
  if bool_decide (ioLoop = loop_) then on_conn c conn_established else queueInLoop ioLoop (SEstablish c).

Definition removeConnectionInLoop (c : nat) : srv unit :=
  s ← st_get;
  sc ← lift (or_undef (heap_ s !! c));
  st_modify (set_connections (delete (c_name sc) (connections_ s))) ;;
  lift (assert_ (bool_decide (is_Some (connections_ s !! c_name sc)))) ;;
  queueInLoop (c_loop sc) (SDestroy c).

(** The close callback, bound to the server; [c]'s loop runs it. *)
Definition removeConnection (c : nat) : srv unit :=
  s ← st_get;
  lift (defined (alive_ s)) ;;
  sc ← lift (or_undef (heap_ s !! c));
  if bool_decide (c_loop sc = loop_) then removeConnectionInLoop c else queueInLoop loop_ (SRemove c).

(** A functor of the server's, run by the loop it is queued in. *)
Definition run_functor (f : sfunctor) : srv unit :=
  match f with
  | SEstablish c => on_conn c conn_established
  | SDestroy c => on_conn c conn_destroyed
  | SRemove c => s ← st_get; lift (defined (alive_ s)) ;; removeConnectionInLoop c
  end.

Definition told_of (c : nat) (s : TcpServer) : bool :=
  match heap_ s !! c with Some sc => conn_told (c_conn sc) | None => false end.

(** Something happens to a connection. *)
Definition handle (c : nat) (e : E) : srv unit :=
  s ← st_get;
  on_conn c (conn_event e) ;;
  s' ← st_get;
  if told_of c s' && negb (told_of c s) then removeConnection c else mret ().

(** [~TcpServer]; the map's order is any. *)
Definition destroy_one (c : nat) : srv unit :=
  s ← st_get;
  sc ← lift (or_undef (heap_ s !! c));
  if bool_decide (c_loop sc = loop_) then on_conn c conn_destroyed else queueInLoop (c_loop sc) (SDestroy c).
Fixpoint destroy_all (cs : list nat) : srv unit :=
  match cs with [] => mret () | c :: cs' => destroy_one c ;; destroy_all cs' end.
Definition TcpServer_dtor (order : list nat) : srv unit :=
  destroy_all order ;;
  st_modify (λ s, MkServer (threadPool_ s) (started_ s) (listenning_ s) (nextConnId_ s) ∅ (heap_ s) (queues_ s) false).

(** ** Runs *)
Inductive sop :=
  | OStart (cb : bool)
  | OAccept (sockfd : Z)
  | OEvent (c : nat) (e : E)
  | ORun (l : nat).

Definition run_op (o : sop) : srv unit :=
  match o with
  | OStart cb => start cb
  | OAccept sockfd => newConnection sockfd
  | OEvent c e => handle c e
  | ORun l =>
      s ← st_get;
      match queues_ s l with
      | [] => mret ()
      | f :: fs => st_put (set_queues (<[l := fs]> (queues_ s)) s) ;; run_functor f
      end
  end.

(** The acceptor calls back once it listens, and not 2^31 times; a connection
    is known to others from [connectEstablished] on. *)
Definition op_legal (o : sop) (s : TcpServer) : Prop :=
  match o with
  | OStart _ | ORun _ => True
  | OAccept sockfd => listenning_ s = true ∧ 0 ≤ sockfd ∧ nextConnId_ s < 2 ^ 31 - 1
  | OEvent c e => ∃ sc, heap_ s !! c = Some sc ∧ (SEstablish c ∉ queues_ s (c_loop sc)) ∧ conn_legal e (c_conn sc) = true
  end.

Definition sstep (s s' : TcpServer) : Prop := ∃ o, op_legal o s ∧ run_op o s = (Ret (), s').
End Server.
Arguments SConn : clear implicits.
Arguments TcpServer : clear implicits.
Arguments sop : clear implicits.

(** ** The stages of a connection *)
Inductive stage := Fresh | Up | Told | Removed | Gone.

(** Whether the server still has the connection in its map. *)
Definition registered (p : stage) : bool := match p with Fresh | Up | Told => true | _ => false end.

Section Stages.
Context {C E : Type} `{ConnSpec C E}.

Definition stage_conn (p : stage) (x : C) : Prop :=
  match p with
  | Fresh => conn_fresh x
  | Up => conn_up x
  | Told | Removed => conn_closed x
  | Gone => conn_gone x
  end.

(** The one functor that is queued for connection [c] of loop [io]. *)
Definition expected (p : stage) (io c : nat) : option (nat * sfunctor) :=
  match p with
  | Fresh => Some (io, SEstablish c)
  | Told => Some (loop_, SRemove c)
  | Removed => Some (io, SDestroy c)
  | _ => None
  end.

Definition about (f : sfunctor) : nat := match f with SEstablish c | SDestroy c | SRemove c => c end.

Lemma expected_about p io c l f : expected p io c = Some (l, f) → about f = c.
Proof. by destruct p; cbn; intros [= <- <-]. Qed.

(** The queues hold what is expected, once. *)
Definition queues_ok (st : nat → stage) (io : nat → nat) (n : nat) (q : nat → list sfunctor) : Prop :=
  ∀ l, NoDup (q l) ∧ ∀ f, f ∈ q l ↔ (about f < n)%nat ∧ expected (st (about f)) (io (about f)) (about f) = Some (l, f).

Section Queues.
Context (st : nat → stage) (io : nat → nat) (n : nat) (q : nat → list sfunctor).
Context (Hq : queues_ok st io n q).

Lemma queues_add c p l f :
  (c < n)%nat → expected (st c) (io c) c = None → expected p (io c) c = Some (l, f) →
  queues_ok (<[c := p]> st) io n (<[l := q l ++ [f]]> q).
Proof.
  intros Hc Hold Hnew l'. pose proof (expected_about _ _ _ _ _ Hnew) as Hf.
  assert (f ∉ q l) as Hfresh.
  { intros [_ He]%(proj2 (Hq l)). rewrite Hf, Hold in He. done. }
  assert (∀ g, about g ≠ c → g ∈ <[l := q l ++ [f]]> q l' ↔ g ∈ q l') as Hother.
  { intros g Hg. destruct (decide (l = l')) as [<-|]; [|by rewrite fn_lookup_insert_ne].
    rewrite fn_lookup_insert, elem_of_app, list_elem_of_singleton. naive_solver. }
  split.
  - destruct (decide (l = l')) as [<-|]; [|rewrite fn_lookup_insert_ne by done; apply Hq].
    rewrite fn_lookup_insert. apply NoDup_app. split; [apply Hq|]. split; [|apply NoDup_singleton].
    intros g Hg ->%list_elem_of_singleton. done.
  - intros g. destruct (decide (about g = c)) as [Hg|Hg].
    + rewrite Hg, fn_lookup_insert, Hnew. destruct (decide (l = l')) as [<-|Hl].
      * rewrite fn_lookup_insert, elem_of_app, list_elem_of_singleton, (proj2 (Hq l)), Hg, Hold. naive_solver.
      * rewrite fn_lookup_insert_ne, (proj2 (Hq l')), Hg, Hold by done. naive_solver.
    + rewrite Hother, (proj2 (Hq l')), fn_lookup_insert_ne by done. done.
Qed.

Lemma queues_drop c p l f fs :
  q l = f :: fs → expected (st c) (io c) c = Some (l, f) → expected p (io c) c = None →
  queues_ok (<[c := p]> st) io n (<[l := fs]> q).
Proof.
  intros Hl Hold Hnew l'. pose proof (expected_about _ _ _ _ _ Hold) as Hf.
  pose proof (proj1 (Hq l)) as Hnd. rewrite Hl in Hnd. apply NoDup_cons in Hnd as [Hfs Hnd].
  split.
  - destruct (decide (l = l')) as [<-|]; [by rewrite fn_lookup_insert|rewrite fn_lookup_insert_ne by done; apply Hq].
  - intros g. destruct (decide (about g = c)) as [Hg|Hg].
    + rewrite Hg, fn_lookup_insert, Hnew. split; [|naive_solver]. intros Hin. exfalso.
      assert (g ∈ q l') as Hin'.
      { destruct (decide (l = l')) as [<-|]; [|by rewrite fn_lookup_insert_ne in Hin].
        rewrite fn_lookup_insert in Hin. rewrite Hl. by right. }
      apply (proj2 (Hq l')) in Hin' as [_ He]. rewrite Hg, Hold in He. injection He as <- <-.
      by rewrite fn_lookup_insert in Hin.
    + rewrite (fn_lookup_insert_ne st) by done. rewrite <-(proj2 (Hq l')).
      destruct (decide (l = l')) as [<-|]; [|by rewrite fn_lookup_insert_ne].
      rewrite fn_lookup_insert, Hl, elem_of_cons. naive_solver.
Qed.

Lemma queues_same c p :
  expected (st c) (io c) c = expected p (io c) c → queues_ok (<[c := p]> st) io n q.
Proof.
  intros He l. split; [apply Hq|]. intros f. rewrite (proj2 (Hq l)). destruct (decide (about f = c)) as [->|].
  - by rewrite fn_lookup_insert, He.
  - by rewrite fn_lookup_insert_ne.
Qed.

Lemma queues_grow p : expected p (io n) n = None → queues_ok (<[n := p]> st) io (S n) q.
Proof.
  intros Hp l. split; [apply Hq|]. intros f. rewrite (proj2 (Hq l)). destruct (decide (about f = n)) as [Hf|].
  - rewrite Hf, fn_lookup_insert, Hp. split; [lia|naive_solver].
  - rewrite fn_lookup_insert_ne by done. split; intros [? ?]; (split; [lia|done]).
Qed.
End Queues.
End Stages.

Lemma queues_ext (st st' : nat → stage) io n q :
  (∀ c, st c = st' c) → queues_ok st io n q → queues_ok st' io n q.
Proof. intros He Hq l. split; [apply Hq|]. intros f. by rewrite (proj2 (Hq l)), He. Qed.

Lemma stage_twice (st : nat → stage) c p p' c' : <[c := p]> (<[c := p']> st) c' = <[c := p]> st c'.
Proof. destruct (decide (c = c')) as [<-|]; [by rewrite !fn_lookup_insert|by rewrite !fn_lookup_insert_ne]. Qed.

(** ** The map of connections *)
Section Names.
Context (name : nat → bytes) (bound : nat).
Context (Hname : ∀ c c', (c < bound)%nat → (c' < bound)%nat → name c = name c' → c = c').

Definition conns_ok (st : nat → stage) (n : nat) (m : gmap bytes nat) : Prop :=
  ∀ nm c, m !! nm = Some c ↔ (c < n)%nat ∧ name c = nm ∧ registered (st c) = true.

Lemma conns_same st n m c p : registered p = registered (st c) → conns_ok st n m → conns_ok (<[c := p]> st) n m.
Proof.
  intros Hp Hm nm c'. rewrite (Hm nm c'). destruct (decide (c = c')) as [<-|]; [by rewrite fn_lookup_insert, Hp|].
  by rewrite fn_lookup_insert_ne.
Qed.

Lemma conns_delete st n m c p :
  (n ≤ bound)%nat → (c < n)%nat → registered p = false → conns_ok st n m → conns_ok (<[c := p]> st) n (delete (name c) m).
Proof.
  intros Hn Hc Hp Hm nm c'. rewrite lookup_delete_Some, (Hm nm c'). destruct (decide (c = c')) as [<-|Hne].
  - rewrite fn_lookup_insert, Hp. naive_solver.
  - rewrite fn_lookup_insert_ne by done. split; [naive_solver|]. intros (Hc' & <- & Hr). split; [|done].
    intros Heq. apply Hne. apply Hname; lia || done.
Qed.

Lemma conns_insert st n m p :
  (n < bound)%nat → registered p = true → conns_ok st n m → conns_ok (<[n := p]> st) (S n) (<[name n := n]> m).
Proof.
  intros Hn Hp Hm nm c'. rewrite lookup_insert_Some, (Hm nm c'). destruct (decide (n = c')) as [<-|Hne].
  - rewrite fn_lookup_insert, Hp. split; [|naive_solver]. intros [[? _]|(_ & Hlt & _)]; [auto with lia|lia].
  - rewrite fn_lookup_insert_ne by done. split.
    + intros [[_ ?]|(_ & ? & ? & ?)]; [congruence|auto with lia].
    + intros (Hc' & <- & Hr). right. split; [|split; [lia|done]]. intros Heq. apply Hne. apply Hname; lia || done.
Qed.
End Names.

Lemma connName_inj name_ ipPort_ i j :
  zlen ipPort_ ≤ 51 → 0 ≤ i < 2 ^ 31 → 0 ≤ j < 2 ^ 31 → connName name_ ipPort_ i = connName name_ ipPort_ j → i = j.
Proof.
  intros Hip Hi Hj Heq. unfold connName in Heq. apply app_inv_head in Heq.
  assert (∀ k, 0 ≤ k < 2 ^ 31 → ztake 63 (s!"-" ++ ipPort_ ++ s!"#" ++ dec_int k) = s!"-" ++ ipPort_ ++ s!"#" ++ dec_nat k) as Ht.
  { intros k Hk. unfold dec_int. rewrite (proj2 (Z.ltb_ge _ _)) by lia. apply take_ge.
    pose proof (dec_nat_length 10 k ltac:(lia) ltac:(lia)) as Hl. rewrite !length_app. unfold zlen in *. cbn [length b_of_string
      Stdlib.Strings.String.list_ascii_of_string]. lia. }
  rewrite !Ht in Heq by done. do 3 apply app_inv_head in Heq.
  rewrite <-(dec_nat_val i), <-(dec_nat_val j) by lia. by rewrite Heq.
Qed.

(** ** The invariant *)
Section Managed.
Context {C E : Type} `{ConnSpec C E}.
Context (name_ ipPort_ : bytes) (startLoop : nat → nat) (n : nat).
Context (Hip : zlen ipPort_ ≤ 51) (Hn : Z.of_nat n < 2 ^ 31).

(** The loop and the name of the c-th connection. *)
Definition io (c : nat) : nat := turn loop_ startLoop n c.
Definition id_name (c : nat) : bytes := connName name_ ipPort_ (Z.of_nat c + 1).
Definition max_conns : nat := Z.to_nat (2 ^ 31 - 2).

Lemma id_name_inj c c' : (c < max_conns)%nat → (c' < max_conns)%nat → id_name c = id_name c' → c = c'.
Proof. unfold max_conns. intros Hc Hc' Heq. apply connName_inj in Heq; [lia|done|lia|lia]. Qed.

(** How far [start] is, with [k] connections made. *)
Definition start_ok (k : nat) (s : TcpServer C) : Prop :=
  (started_ s = 0 ∧ listenning_ s = false ∧ k = 0%nat ∧
    threadPool_ s = setThreadNum (Z.of_nat n) (EventLoopThreadPool_new name_)) ∨
  (started_ s = 1 ∧ listenning_ s = true ∧
    threadPool_ s = started_pool startLoop name_ n (Z.of_nat (match n with O => 0 | _ => k mod n end))).

Definition heap_ok (st : nat → stage) (h : list (SConn C)) : Prop :=
  ∀ c sc, h !! c = Some sc → c_name sc = id_name c ∧ c_loop sc = io c ∧ stage_conn (st c) (c_conn sc).

Record srv_inv (st : nat → stage) (s : TcpServer C) : Prop := {
  v_alive : alive_ s = true;
  v_start : start_ok (length (heap_ s)) s;
  v_next : nextConnId_ s = zlen (heap_ s) + 1;
  v_max : (length (heap_ s) ≤ max_conns)%nat;
  v_heap : heap_ok st (heap_ s);
  v_queues : queues_ok st io (length (heap_ s)) (queues_ s);
  v_conns : conns_ok id_name st (length (heap_ s)) (connections_ s);
}.

Lemma heap_insert st h c sc x p :
  h !! c = Some sc → stage_conn p x → heap_ok st h →
  heap_ok (<[c := p]> st) (<[c := MkSConn (c_name sc) (c_loop sc) x]> h).
Proof.
  intros Hc Hp Hh c' sc'. rewrite list_lookup_insert_Some. intros [(<- & <- & _)|[Hne Hc']].
  - rewrite fn_lookup_insert. destruct (Hh c sc Hc) as (? & ? & _). done.
  - rewrite fn_lookup_insert_ne by done. by apply Hh.
Qed.

(** A connection moves to another stage, the rest of the server stays. *)
Definition same_server (s s' : TcpServer C) : Prop :=
  alive_ s' = alive_ s ∧ started_ s' = started_ s ∧ listenning_ s' = listenning_ s ∧
  threadPool_ s' = threadPool_ s ∧ nextConnId_ s' = nextConnId_ s.

Lemma srv_update st s s' c sc x p :
  srv_inv st s → heap_ s !! c = Some sc → stage_conn p x →
  heap_ s' = <[c := MkSConn (c_name sc) (c_loop sc) x]> (heap_ s) → same_server s s' →
  queues_ok (<[c := p]> st) io (length (heap_ s)) (queues_ s') →
  conns_ok id_name (<[c := p]> st) (length (heap_ s)) (connections_ s') →
  srv_inv (<[c := p]> st) s'.
Proof.
  intros [H1 H2 H3 H4 H5 H6 H7] Hc Hp Hh (E1 & E2 & E3 & E4 & E5) Hq Hm.
  split; unfold start_ok, zlen in *; rewrite ?Hh, ?E1, ?E2, ?E3, ?E4, ?E5, ?length_insert; try done.
  by apply heap_insert.
Qed.

Lemma safe_on_conn {A} c (m : ST C A) s sc (Q : A → TcpServer C → Prop) :
  heap_ s !! c = Some sc →
  safe m (c_conn sc) (λ a x, Q a (set_heap (<[c := MkSConn (c_name sc) (c_loop sc) x]> (heap_ s)) s)) →
  safe (on_conn c m) s Q.
Proof. intros Hc Hm. unfold safe, on_conn in *. rewrite Hc. by destruct (m (c_conn sc)) as [[a|[]| |] x]. Qed.

(** [removeConnectionInLoop] of a registered connection. *)
Lemma removeConnectionInLoop_eq c (s : TcpServer C) (sc : SConn C) :
  heap_ s !! c = Some sc → is_Some (connections_ s !! c_name sc) →
  removeConnectionInLoop c s =
    (Ret (), set_queues (<[c_loop sc := queues_ s (c_loop sc) ++ [SDestroy c]]> (queues_ s))
               (set_connections (delete (c_name sc) (connections_ s)) s)).
Proof.
  intros Hc Hs. unfold removeConnectionInLoop, mbind, ST_bind, st_get, lift, st_modify, queueInLoop. cbn [fst snd].
  rewrite Hc. cbn [or_undef from_option]. rewrite bool_decide_eq_true_2 by done. done.
Qed.

Lemma stage_of st s c sc : srv_inv st s → heap_ s !! c = Some sc →
  c_name sc = id_name c ∧ c_loop sc = io c ∧ stage_conn (st c) (c_conn sc) ∧ (c < length (heap_ s))%nat.
Proof.
  intros Hi Hc. destruct (v_heap st s Hi c sc Hc) as (? & ? & ?). split; [done|]. split; [done|]. split; [done|].
  by apply lookup_lt_Some in Hc.
Qed.

Lemma registered_lookup st s c : srv_inv st s → (c < length (heap_ s))%nat → registered (st c) = true →
  is_Some (connections_ s !! id_name c).
Proof. intros Hi Hc Hr. exists c. by apply (v_conns st s Hi). Qed.

(** [removeConnection] after [c] has closed: the map forgets it now, or the
    server's loop is told. *)
Lemma removeConnection_ok st s c sc x :
  srv_inv st s → heap_ s !! c = Some sc → st c = Up → conn_closed x →
  safe (removeConnection c) (set_heap (<[c := MkSConn (c_name sc) (c_loop sc) x]> (heap_ s)) s)
    (λ _ s', ∃ p, srv_inv (<[c := p]> st) s').
Proof.
  intros Hi Hc Hst Hx. destruct (stage_of st s c sc Hi Hc) as (Hnm & Hl & _ & Hlt).
  assert (<[c := MkSConn (c_name sc) (c_loop sc) x]> (heap_ s) !! c = Some (MkSConn (c_name sc) (c_loop sc) x)) as Hlk.
  { by apply list_lookup_insert_eq. }
  unfold removeConnection. safe_step. eapply safe_lift; [cbn; by rewrite (v_alive st s Hi)|].
  safe_step. eapply safe_lift; [cbn [heap_ set_heap]; by rewrite Hlk|].
  cbn [c_loop]. case_bool_decide as Hb.
  - unfold safe. erewrite removeConnectionInLoop_eq; [|exact Hlk|].
    + exists Removed. cbn [c_loop c_name queues_ set_heap set_connections].
      apply (srv_update st s _ c sc x Removed); try done.
      * apply queues_add; [by apply Hi|done|by rewrite Hst|by rewrite Hl].
      * rewrite Hnm. apply (conns_delete id_name max_conns id_name_inj); [apply Hi|done..|apply Hi].
    + cbn. rewrite Hnm. apply (registered_lookup st); [done..|by rewrite Hst].
  - apply safe_modify. exists Told. cbn [queues_ set_heap].
    apply (srv_update st s _ c sc x Told); try done.
    + apply queues_add; [by apply Hi|done|by rewrite Hst|done].
    + apply conns_same; [by rewrite Hst|apply Hi].
Qed.

Lemma told_insert c x (s : TcpServer C) (sc : SConn C) : (c < length (heap_ s))%nat →
  told_of c (set_heap (<[c := MkSConn (c_name sc) (c_loop sc) x]> (heap_ s)) s) = conn_told x.
Proof. intros Hc. unfold told_of. cbn. by rewrite list_lookup_insert_eq. Qed.

(** The same stage, another state of the connection. *)
Lemma srv_stay st s c sc x p :
  srv_inv st s → heap_ s !! c = Some sc → st c = p → stage_conn p x →
  srv_inv (<[c := p]> st) (set_heap (<[c := MkSConn (c_name sc) (c_loop sc) x]> (heap_ s)) s).
Proof.
  intros Hi Hc <- Hx. apply (srv_update st s _ c sc x (st c)); try done; [apply queues_same|apply conns_same]; by try apply Hi.
Qed.

Lemma handle_ok st s c e sc :
  srv_inv st s → heap_ s !! c = Some sc → st c ≠ Fresh → conn_legal e (c_conn sc) = true →
  safe (handle c e) s (λ _ s', ∃ p, srv_inv (<[c := p]> st) s').
Proof.
  intros Hi Hc Hf Hl. destruct (stage_of st s c sc Hi Hc) as (_ & _ & Hx & Hlt).
  assert (∀ (Q : C → Prop) p, safe (conn_event e) (c_conn sc) (λ _ x, Q x) → st c = p →
    (∀ x, Q x → conn_told x = true ∧ stage_conn p x) → conn_told (c_conn sc) = true →
    safe (handle c e) s (λ _ s', ∃ p, srv_inv (<[c := p]> st) s')) as Hquiet.
  { intros Q p He Hp HQ Htold. unfold handle. safe_step. eapply safe_on_conn; [done|].
    eapply safe_mono; [exact He|]. intros [] x Hx'. destruct (HQ x Hx') as [Hx1 Hx2]. safe_step.
    rewrite told_insert, Hx1 by done. unfold told_of. rewrite Hc, Htold. safe_step. exists p. by apply srv_stay. }
  destruct (st c) eqn:Hst; [done| | | |].
  - unfold handle. safe_step. eapply safe_on_conn; [done|]. eapply safe_mono; [by apply event_up|].
    intros [] x Hx'. safe_step. rewrite told_insert by done. unfold told_of. rewrite Hc, (up_not_told (c_conn sc)) by done.
    destruct (conn_told x); cbn [andb negb]; [by apply removeConnection_ok|]. safe_step. exists Up. by apply srv_stay.
  - eapply (Hquiet conn_closed Told); [by apply event_closed|done| |by apply closed_told].
    intros x Hx'. split; [by apply closed_told|done].
  - eapply (Hquiet conn_closed Removed); [by apply event_closed|done| |by apply closed_told].
    intros x Hx'. split; [by apply closed_told|done].
  - eapply (Hquiet conn_gone Gone); [by apply event_gone|done| |by apply gone_told].
    intros x Hx'. split; [by apply gone_told|done].
Qed.

(** A queued functor runs. *)
Lemma functor_ok st s l f fs :
  srv_inv st s → queues_ s l = f :: fs →
  safe (run_functor f) (set_queues (<[l := fs]> (queues_ s)) s) (λ _ s', ∃ p, srv_inv (<[about f := p]> st) s' ∧
    match st (about f) with Fresh => p = Up | Told => p = Removed | Removed => p = Gone | _ => False end).
Proof.
  intros Hi Hl. assert (f ∈ queues_ s l) as Hin by (rewrite Hl; left).
  apply (v_queues st s Hi) in Hin as [Hlt He]. remember (about f) as c eqn:Hab.
  destruct (lookup_lt_is_Some_2 _ _ Hlt) as [sc Hc]. destruct (stage_of st s c sc Hi Hc) as (Hnm & Hio & Hx & _).
  assert (∀ (m : ST C unit) p (Q : C → Prop), safe m (c_conn sc) (λ _ x, Q x) → (∀ x, Q x → stage_conn p x) →
    expected p (io c) c = None → registered p = registered (st c) →
    safe (on_conn c m) (set_queues (<[l := fs]> (queues_ s)) s) (λ _ s', srv_inv (<[c := p]> st) s')) as Hrun.
  { intros m p Q Hm HQ Hp Hr. eapply safe_on_conn; [done|]. eapply safe_mono; [exact Hm|]. intros [] x HQx.
    apply (srv_update st s _ c sc x p); try done; [by apply HQ| |].
    - by apply (queues_drop st io _ _ (v_queues st s Hi) c p l f fs).
    - apply conns_same; [done|apply Hi]. }
  destruct (st c) eqn:Hst; cbn in He; [| done| | |done]; injection He as <- <-; cbn [run_functor].
  - eapply safe_mono; [eapply (Hrun _ Up conn_up); [by apply established_spec|done..]|]. intros [] s' Hs'. by exists Up.
  - safe_step. eapply safe_lift; [cbn; by rewrite (v_alive st s Hi)|].
    unfold safe. erewrite removeConnectionInLoop_eq; [|exact Hc|].
    + exists Removed. split; [|done]. eapply (srv_update st s _ c sc (c_conn sc) Removed); try done.
      * cbn. symmetry. apply list_insert_id. rewrite Hc. by destruct sc.
      * cbn [queues_ set_queues set_connections]. eapply queues_ext; [apply (stage_twice st c Removed Up)|]. rewrite Hio.
        eapply queues_add; [|done|by rewrite fn_lookup_insert|done].
        eapply (queues_drop st io _ _ (v_queues st s Hi) c Up loop_ (SRemove c) fs); [done|by rewrite Hst|done].
      * cbn. rewrite Hnm. apply (conns_delete id_name max_conns id_name_inj); [apply Hi|done..|apply Hi].
    + cbn. rewrite Hnm. apply (registered_lookup st); [done..|by rewrite Hst].
  - eapply safe_mono; [eapply (Hrun _ Gone conn_gone); [by apply destroyed_spec|done..]|]. intros [] s' Hs'. by exists Gone.
Qed.

(** The pool deals the next loop. *)
Lemma deal_ok k s : started_ s = 1 → start_ok k s →
  ∃ p, getNextLoop loop_ (threadPool_ s) = (Ret (io k), p) ∧ start_ok (S k) (set_pool p s) ∧ listenning_ s = true.
Proof.
  intros Hs [(Hs' & _)|(_ & Hl & Hp)]; [congruence|]. unfold start_ok, io, turn. rewrite Hp. destruct n as [|m].
  - eexists. split; [reflexivity|]. split; [by right|done].
  - eexists. split; [apply getNextLoop_turn; [lia|done|by apply Nat.mod_upper_bound]|]. split; [|done].
    right. split; [done|]. split; [done|]. cbn [threadPool_ set_pool]. do 2 f_equal.
    replace (S (k mod S m)) with (1 + k mod S m)%nat by lia. by rewrite Nat.Div0.add_mod_idemp_r.
Qed.

Lemma heap_snoc st h p nm l x :
  heap_ok st h → nm = id_name (length h) → l = io (length h) → stage_conn p x →
  heap_ok (<[length h := p]> st) (h ++ [MkSConn nm l x]).
Proof.
  intros Hh -> -> Hx c sc Hc. apply lookup_app_Some in Hc as [Hc|[Hle Hc]].
  - rewrite fn_lookup_insert_ne by (apply lookup_lt_Some in Hc; lia). by apply Hh.
  - apply list_lookup_singleton_Some in Hc as [Hz <-]. assert (c = length h) as -> by lia.
    by rewrite fn_lookup_insert.
Qed.

Lemma newConnection_ok st s fd :
  srv_inv st s → listenning_ s = true → 0 ≤ fd → nextConnId_ s < 2 ^ 31 - 1 →
  safe (newConnection name_ ipPort_ fd) s (λ _ s', ∃ p, srv_inv (<[length (heap_ s) := p]> st) s' ∧ (p = Up ∨ p = Fresh)).
Proof.
  intros Hi Hl Hfd Hid. set (k := length (heap_ s)). pose proof Hi as [H1 H2 H3 H4 H5 H6 H7].
  fold k in H2, H4, H6, H7. unfold zlen in H3. fold k in H3.
  assert (started_ s = 1) as Hs by (destruct H2 as [(_ & ? & _)|(? & _)]; [congruence|done]).
  destruct (deal_ok k s Hs H2) as (p & Hp & Hok & _). unfold newConnection. safe_step1.
  eapply (safe_holds _ s (io k) (set_pool p s)); [unfold on_pool; by rewrite Hp|]. safe_step.
  eapply safe_lift; [unfold defined, in_sb; cbn; rewrite (proj2 (Z.leb_le _ _)), (proj2 (Z.ltb_lt _ _)) by lia; done|].
  safe_step. cbn [threadPool_ started_ listenning_ nextConnId_ connections_ heap_ queues_ alive_ set_pool]. fold k.
  assert (connName name_ ipPort_ (nextConnId_ s) = id_name k) as -> by (unfold id_name; do 2 f_equal; lia).
  assert (k < max_conns)%nat as Hk by (unfold max_conns; lia).
  set (sc := MkSConn (id_name k) (io k) (conn_new fd)). set (s1 := MkServer _ _ _ _ _ _ _ _).
  assert (∀ pst x h q, stage_conn pst x → registered pst = true → h = heap_ s ++ [MkSConn (id_name k) (io k) x] →
    queues_ok (<[k := pst]> st) io (S k) q →
    srv_inv (<[k := pst]> st) (MkServer p (started_ s) (listenning_ s) (nextConnId_ s + 1)
      (<[id_name k := k]> (connections_ s)) h q (alive_ s))) as Hnew.
  { intros pst x h q Hx Hr -> Hq.
    assert (length (heap_ s ++ [MkSConn (id_name k) (io k) x]) = S k) as Hlen by (rewrite length_app; cbn; fold k; lia).
    split; cbn [alive_ heap_ nextConnId_ queues_ connections_]; unfold zlen; rewrite ?Hlen; try done; try lia.
    - by apply heap_snoc.
    - apply (conns_insert id_name max_conns id_name_inj); done. }
  case_bool_decide as Hb.
  - eapply (safe_on_conn k _ s1 sc); [apply list_lookup_middle; done|].
    eapply safe_mono; [apply established_spec, new_fresh, Hfd|]. intros [] x Hx. exists Up. split; [|by left].
    apply (Hnew Up x); [done|done| |by apply queues_grow].
    cbn. unfold k. rewrite insert_app_r_alt by lia. by rewrite Nat.sub_diag.
  - unfold queueInLoop. apply safe_modify. exists Fresh. split; [|by right].
    apply (Hnew Fresh (conn_new fd)); [by apply new_fresh|done|done|]. cbn [queues_ s1].
    eapply queues_ext; [apply (stage_twice st k Fresh Up)|].
    eapply queues_add; [by apply queues_grow|lia|by rewrite fn_lookup_insert|done].
Qed.

Lemma start_ok_inv st s cb : srv_inv st s → safe (start startLoop cb) s (λ _ s', srv_inv st s').
Proof.
  intros Hi. unfold start. safe_step. destruct (v_start st s Hi) as [(Hs & Hl & Hk & Hp)|(Hs & Hl & Hp)].
  - rewrite Hs. cbn [Z.eqb]. safe_step1. destruct (start_pool loop_ startLoop name_ n cb) as [Hf Hsn].
    destruct (LoopPool.start loop_ startLoop cb _) as [r p'] eqn:He. cbn [fst snd] in Hf, Hsn.
    eapply safe_holds; [unfold on_pool; cbn [threadPool_ set_started]; rewrite Hp, He, Hf; reflexivity|].
    safe_step. eapply safe_lift; [cbn; by rewrite Hl|]. safe_step.
    destruct Hi as [H1 H2 H3 H4 H5 H6 H7]. split; cbn; try done. right. split; [done|]. split; [done|].
    cbn. rewrite Hsn, Hk. destruct n; [done|]. by rewrite Nat.Div0.mod_0_l.
  - rewrite Hs. cbn [Z.eqb]. safe_step. destruct s; cbn in Hs. subst. exact Hi.
Qed.

Lemma run_op_ok st s o : srv_inv st s → op_legal o s →
  safe (run_op name_ ipPort_ startLoop o) s (λ _ s', ∃ st', srv_inv st' s').
Proof.
  intros Hi Hl. destruct o as [cb|fd|c e|l]; cbn [run_op op_legal] in *.
  - eapply safe_mono; [by apply start_ok_inv|]. intros [] s' Hs'. by exists st.
  - destruct Hl as (Hl & Hfd & Hid). eapply safe_mono; [by apply (newConnection_ok st)|].
    intros [] s' (p & Hs' & _). by eexists.
  - destruct Hl as (sc & Hc & Hq & He). eapply safe_mono; [eapply (handle_ok st); [done|done| |done]|].
    + intros Hst. apply Hq. destruct (stage_of st s c sc Hi Hc) as (_ & -> & _ & Hlt).
      apply (v_queues st s Hi). cbn. by rewrite Hst.
    + intros [] s' (p & Hs'). by eexists.
  - safe_step. destruct (queues_ s l) as [|f fs] eqn:Hq; [safe_step; by exists st|]. safe_step1. apply safe_put.
    eapply safe_mono; [by eapply functor_ok|]. intros [] s' (p & Hs' & _). by eexists.
Qed.

Definition sreachable (s : TcpServer C) : Prop := rtc (sstep name_ ipPort_ startLoop) (TcpServer_new name_ (Z.of_nat n)) s.

Lemma srv_inv_new : srv_inv (λ _, Gone) (TcpServer_new name_ (Z.of_nat n)).
Proof.
  split; cbn; try done; [by left|lia| |].
  - intros l. split; [apply NoDup_nil_2|]. intros f. split; [by intros ?%not_elem_of_nil|lia].
  - intros nm c. rewrite lookup_empty. split; [done|lia].
Qed.

Lemma sreachable_inv s : sreachable s → ∃ st, srv_inv st s.
Proof.
  intros Hr. assert (∀ a, rtc (sstep name_ ipPort_ startLoop) a s → (∃ st, srv_inv st a) → ∃ st, srv_inv st s) as H0.
  2:{ apply (H0 _ Hr). exists (λ _, Gone). apply srv_inv_new. }
  clear Hr. induction 1 as [|a b d (o & Hl & Hrun) _ IH]; [done|]. intros [st Hi]. apply IH.
  pose proof (run_op_ok st a o Hi Hl) as Hs. unfold safe in Hs. by rewrite Hrun in Hs.
Qed.

(** Where a connection stands: its own state, the server's map and the one
    functor queued for it agree. *)
Definition stands (p : stage) (c : nat) (sc : SConn C) (s : TcpServer C) : Prop :=
  stage_conn p (c_conn sc) ∧ (connections_ s !! c_name sc = Some c ↔ registered p = true) ∧
  ∀ l f, about f = c → f ∈ queues_ s l ↔ expected p (c_loop sc) c = Some (l, f).

(** C22: The server manages its connections: whatever is accepted, whatever
    happens to the connections and however the loops interleave, no assertion
    of the server fails and every connection is dealt to the next loop of the
    pool and stands at one of five stages: to be established, up, closed and
    to be forgotten by the server, forgotten and to be destroyed, destroyed;
    the map holds exactly those of the first three, each under its own name,
    and for each at most the one call that leads to the next stage is queued,
    in the loop that must run it. *)
Theorem server_manages_connections s (Hr : sreachable s) :
  (∀ o, op_legal o s → safe (run_op name_ ipPort_ startLoop o) s (λ _ _, True)) ∧
  (∀ l, NoDup (queues_ s l)) ∧
  ∀ c sc, heap_ s !! c = Some sc → c_loop sc = turn loop_ startLoop n c ∧ ∃ p, stands p c sc s.
Proof.
  apply sreachable_inv in Hr as [st Hi]. split; [|split].
  - intros o Hl. eapply safe_mono; [by apply (run_op_ok st)|done].
  - intros l. apply (v_queues st s Hi).
  - intros c sc Hc. destruct (stage_of st s c sc Hi Hc) as (Hnm & Hio & Hx & Hlt). split; [done|].
    exists (st c). split; [done|]. split.
    + rewrite (v_conns st s Hi (c_name sc) c), Hnm. naive_solver.
    + intros l f <-. rewrite (proj2 (v_queues st s Hi l)), Hio. naive_solver.
Qed.

(** ** Draining the loops *)
Definition run_step (s s' : TcpServer C) : Prop :=
  ∃ l, queues_ s l ≠ [] ∧ run_op name_ ipPort_ startLoop (ORun l) s = (Ret (), s').

(** The functors still to run for a connection. *)
Definition to_run (p : stage) : nat := match p with Told => 2 | Fresh | Removed => 1 | _ => 0 end.
Definition work (st : nat → stage) (k : nat) : nat := sum_list_with (λ c, to_run (st c)) (seq 0 k).

Lemma work_insert st k c p : (c < k)%nat → (to_run p < to_run (st c))%nat → (work (<[c := p]> st) k < work st k)%nat.
Proof.
  intros Hc Hp. unfold work. assert (∀ i m, (c < i ∨ i + m ≤ c)%nat →
    sum_list_with (λ c', to_run (<[c := p]> st c')) (seq i m) = sum_list_with (λ c', to_run (st c')) (seq i m)) as Hout.
  { intros i m. revert i. induction m as [|m IH]; intros i Hi; [done|]. cbn. rewrite IH by lia.
    rewrite fn_lookup_insert_ne by lia. done. }
  replace k with (c + (1 + (k - S c)))%nat by lia. rewrite !seq_app, !sum_list_with_app. cbn [seq sum_list_with].
  rewrite !Hout by lia. rewrite Nat.add_0_l, fn_lookup_insert. lia.
Qed.

Lemma work_bound st k : (work st k ≤ 2 * k)%nat.
Proof.
  unfold work. assert (∀ i, sum_list_with (λ c, to_run (st c)) (seq i k) ≤ 2 * k)%nat as H0; [|done].
  induction k as [|k IH]; intros i; cbn [seq sum_list_with]; [lia|]. specialize (IH (S i)).
  destruct (st i); cbn [to_run]; lia.
Qed.

Lemma run_step_work st s s' : srv_inv st s → run_step s s' →
  ∃ st', srv_inv st' s' ∧ length (heap_ s') = length (heap_ s) ∧ (work st' (length (heap_ s)) < work st (length (heap_ s)))%nat.
Proof.
  intros Hi (l & Hne & Hrun). cbn [run_op] in Hrun. unfold mbind, ST_bind, st_get in Hrun. cbn [fst snd] in Hrun.
  destruct (queues_ s l) as [|f fs] eqn:Hq; [done|]. cbn [st_put] in Hrun.
  pose proof (functor_ok st s l f fs Hi Hq) as Hs. unfold safe, st_put in Hs, Hrun. rewrite Hrun in Hs.
  destruct Hs as (p & Hi' & Hp). assert (f ∈ queues_ s l) as Hin by (rewrite Hq; left).
  apply (v_queues st s Hi) in Hin as [Hlt _]. exists (<[about f := p]> st). split; [done|].
  assert (nextConnId_ s' = nextConnId_ s) as Hnx.
  { clear -Hrun. destruct f as [c|c|c]; cbn [run_functor] in Hrun.
    - unfold on_conn in Hrun. cbn in Hrun. destruct (heap_ s !! c); [|done].
      destruct (conn_established _). by injection Hrun as _ <-.
    - unfold on_conn in Hrun. cbn in Hrun. destruct (heap_ s !! c); [|done].
      destruct (conn_destroyed _). by injection Hrun as _ <-.
    - unfold mbind, ST_bind, st_get, lift, removeConnectionInLoop in Hrun. cbn in Hrun. destruct (alive_ s); [|done].
      cbn in Hrun. unfold mbind, ST_bind, st_get, lift, st_modify in Hrun. cbn in Hrun. destruct (heap_ s !! c); [|done]. cbn in Hrun.
      destruct (bool_decide _); [|done]. by injection Hrun as <-. }
  rewrite (v_next _ _ Hi), (v_next _ _ Hi') in Hnx. unfold zlen in Hnx. split; [lia|].
  apply work_insert; [done|]. destruct (st (about f)); try done; subst p; cbn; lia.
Qed.

(** C23: Every close is carried through: from any reachable state at most two
    functors per connection can run before the queues of all loops are empty,
    and then every connection is either up and in the map, or destroyed and
    out of it. *)
Theorem server_drains s s' k (Hr : sreachable s) (Hk : nsteps run_step k s s') :
  (k ≤ 2 * length (heap_ s))%nat ∧
  ((∀ l, queues_ s' l = []) → ∀ c sc, heap_ s' !! c = Some sc →
     conn_up (c_conn sc) ∧ connections_ s' !! c_name sc = Some c ∨
     conn_gone (c_conn sc) ∧ connections_ s' !! c_name sc ≠ Some c).
Proof.
  apply sreachable_inv in Hr as [st Hi].
  assert (∃ st', srv_inv st' s' ∧ (k + work st' (length (heap_ s)) ≤ work st (length (heap_ s)))%nat) as (st' & Hi' & Hw).
  { revert st Hi. induction Hk as [s|k s s1 s' Hst _ IH]; intros st Hi; [by exists st|].
    destruct (run_step_work st s s1 Hi Hst) as (st1 & Hi1 & Hlen & Hlt). destruct (IH st1 Hi1) as (st' & Hi' & Hw).
    exists st'. rewrite Hlen in Hw. split; [done|lia]. }
  split; [pose proof (work_bound st (length (heap_ s))); lia|]. intros Hempty c sc Hc.
  destruct (stage_of st' s' c sc Hi' Hc) as (Hnm & Hio & Hx & Hlt).
  assert (expected (st' c) (io c) c = None) as He.
  { destruct (expected (st' c) (io c) c) as [[l f]|] eqn:He; [|done]. exfalso. pose proof (expected_about _ _ _ _ _ He) as Hf.
    assert (f ∈ queues_ s' l) as Hin by (apply (v_queues st' s' Hi'); by rewrite Hf, He).
    rewrite Hempty in Hin. by apply not_elem_of_nil in Hin. }
  rewrite Hnm. destruct (st' c) eqn:Hst; try done; [left|right]; (split; [done|]).
  - apply (v_conns st' s' Hi'). by rewrite Hst.
  - intros Hm. apply (v_conns st' s' Hi') in Hm as (_ & _ & Hm). by rewrite Hst in Hm.
Qed.
End Managed.

(** ** After the destructor *)

(** The close callback is bound to the server itself: a connection that closes
    after the server was destroyed, before its [connectDestroyed] runs, calls a
    member of a dead object. *)
Lemma close_after_dtor_undefined `{ConnOps C E} (s : TcpServer C) c e sc x :
  alive_ s = false → heap_ s !! c = Some sc → conn_event e (c_conn sc) = (Ret (), x) →
  conn_told (c_conn sc) = false → conn_told x = true → fst (handle c e s) = Undef.
Proof.
  intros Ha Hc He H1 H2. assert (c < length (heap_ s))%nat as Hlt by by apply lookup_lt_Some in Hc.
  unfold handle, mbind at 1, ST_bind at 1, st_get, on_conn. cbn [fst snd]. unfold mbind, ST_bind. rewrite Hc, He.
  rewrite told_insert by done. rewrite H2. unfold told_of at 1. rewrite Hc, H1. cbn [andb negb].
  unfold removeConnection, mbind, ST_bind, st_get, lift. cbn [fst snd alive_ set_heap]. by rewrite Ha.
Qed.

(** ** A connection that only lives and ends *)
Inductive life := LFresh | LUp | LClosed | LGone.

#[export] Instance life_ops : ConnOps life unit := {|
  conn_new _ := LFresh;
  conn_established x := match x with LFresh => (Ret (), LUp) | _ => (AssertFail, x) end;
  conn_destroyed x := match x with LClosed => (Ret (), LGone) | _ => (AssertFail, x) end;
  conn_event _ x := (Ret (), match x with LUp => LClosed | _ => x end);
  conn_legal _ _ := true;
  conn_told x := match x with LClosed | LGone => true | _ => false end;
|}.

#[export] Instance life_spec : ConnSpec life unit.
Proof.
  refine {| conn_fresh x := x = LFresh; conn_up x := x = LUp; conn_closed x := x = LClosed; conn_gone x := x = LGone |};
    try (by intros; subst); by intros ? ? ->.
Defined.

(** Two threads; two connections; the second is established and closes. *)
Definition demo_do (o : sop unit) (s : TcpServer life) : TcpServer life := snd (run_op s!"s" s!"0.0.0.0:80" S o s).
Definition demo_accepted : TcpServer life :=
  demo_do (ORun 2) (demo_do (OAccept 8) (demo_do (OAccept 7) (demo_do (OStart false) (TcpServer_new s!"s" 2)))).
Definition demo_closed : TcpServer life := demo_do (OEvent 1 ()) demo_accepted.
Definition demo_drained : TcpServer life := demo_do (ORun 1) (demo_do (ORun 2) (demo_do (ORun 0) demo_closed)).

Lemma demo_do_reachable o s :
  sreachable s!"s" s!"0.0.0.0:80" S 2 s → op_legal o s → fst (run_op s!"s" s!"0.0.0.0:80" S o s) = Ret () →
  sreachable s!"s" s!"0.0.0.0:80" S 2 (demo_do o s).
Proof.
  intros Hr Hl Hf. unfold sreachable. etrans; [exact Hr|]. apply rtc_once. exists o. split; [done|].
  unfold demo_do. rewrite <-Hf. by destruct (run_op _ _ _ _ _).
Qed.

Lemma demo_closed_reachable : sreachable s!"s" s!"0.0.0.0:80" S 2 demo_closed.
Proof.
  repeat (apply demo_do_reachable; [| |vm_compute; reflexivity]); [apply rtc_refl|done| | |done|].
  - split; [reflexivity|]. split; [lia|vm_compute; reflexivity].
  - split; [reflexivity|]. split; [lia|vm_compute; reflexivity].
  - eexists. split; [vm_compute; reflexivity|]. split; [vm_compute; apply not_elem_of_nil|done].
Qed.

Lemma server_manages_connections_witness :
  c_loop <$> heap_ demo_closed = [1; 2]%nat ∧ queues_ demo_closed 0 = [SRemove 1] ∧ queues_ demo_closed 1 = [SEstablish 0] ∧
  ∃ p, stands p 1 (MkSConn (connName s!"s" s!"0.0.0.0:80" 2) 2 LClosed) demo_closed.
Proof.
  split; [vm_compute; reflexivity|]. split; [vm_compute; reflexivity|]. split; [vm_compute; reflexivity|].
  refine (proj2 (proj2 (proj2 (server_manages_connections s!"s" s!"0.0.0.0:80" S 2 ltac:(done) ltac:(done) demo_closed
    demo_closed_reachable)) 1%nat _ _)). vm_compute. reflexivity.
Defined.

Lemma demo_do_run l s :
  queues_ s l ≠ [] → fst (run_op s!"s" s!"0.0.0.0:80" S (ORun l) s) = Ret () →
  run_step s!"s" s!"0.0.0.0:80" S s (demo_do (ORun l) s).
Proof. intros Hq Hf. exists l. split; [done|]. unfold demo_do. rewrite <-Hf. by destruct (run_op _ _ _ _ _). Qed.

Lemma demo_drains : nsteps (run_step s!"s" s!"0.0.0.0:80" S) 3 demo_closed demo_drained.
Proof.
  unfold demo_drained.
  eapply nsteps_l; [apply (demo_do_run 0); [vm_compute; done|vm_compute; reflexivity]|].
  eapply nsteps_l; [apply (demo_do_run 2); [vm_compute; done|vm_compute; reflexivity]|].
  eapply nsteps_l; [apply (demo_do_run 1); [vm_compute; done|vm_compute; reflexivity]|]. apply nsteps_O.
Qed.

Lemma server_drains_witness : (3 ≤ 2 * length (heap_ demo_closed))%nat ∧
  c_conn <$> heap_ demo_drained = [LUp; LGone].
Proof.
  split; [|vm_compute; reflexivity].
  exact (proj1 (server_drains s!"s" s!"0.0.0.0:80" S 2 ltac:(done) ltac:(done) demo_closed demo_drained 3
    demo_closed_reachable demo_drains)).
Defined.
