(* ===== verification/ServedConnection.v ===== *)
(** * The server's connections

    TcpConnection keeps the contract a server (TcpServer) has of its
    connections: from [connectEstablished] on a connection is up until its
    close callback runs, which happens in the very handler that takes it down;
    nothing that happens to it in between or after fails, and
    [connectDestroyed] then ends it. *)
From stdpp Require Import relations functions.
From S2P Require Import Prelude Buffer LoopPool TcpServer Poller Channel TcpConnection.
Local Open Scope Z_scope.

(** ** What every handler does to the history *)

(** The history grows, a channel added to the poller stays added, and if the
    user was told that the connection is down, so was the server. *)
Definition down_told (c : TcpConnection) : Prop := OConnection false ∈ log_ c → OClose ∈ log_ c.
Definition grows (c c' : TcpConnection) : Prop :=
  log_ c `prefix_of` log_ c' ∧ (addedToLoop_ (channel_ c) = true → addedToLoop_ (channel_ c') = true) ∧
  (down_told c → down_told c').
Definition mono {A} (m : ST TcpConnection A) : Prop := ∀ c a c', m c = (Ret a, c') → grows c c'.

#[export] Instance grows_preorder : PreOrder grows.
Proof.
  split; [by intros c|]. intros c1 c2 c3 (H1 & H2 & H3) (K1 & K2 & K3). split; [by etrans|]. auto.
Qed.

Create HintDb mono discriminated.

Lemma mono_ret {A} (a : A) : mono (mret a).
Proof. by intros c a' c' [= _ <-]. Qed.
Lemma mono_get : mono st_get.
Proof. by intros c a' c' [= _ <-]. Qed.
Lemma mono_bind {A B} (m : ST TcpConnection A) (k : A → ST TcpConnection B) :
  mono m → (∀ a, mono (k a)) → mono (m ≫= k).
Proof.
  intros Hm Hk c b c' Hr. apply ST_bind_Ret in Hr as (a & c1 & H1 & H2). etrans; [by eapply Hm|by eapply Hk].
Qed.
Lemma mono_lift {A} (o : outcome A) : mono (lift o).
Proof. by intros c a c' [= _ <-]. Qed.
Lemma mono_assertC b : mono (assertC b).
Proof. by intros c a c' [= _ <-]. Qed.
Lemma mono_modify f :
  (∀ c, log_ (f c) = log_ c ∧ addedToLoop_ (channel_ (f c)) = addedToLoop_ (channel_ c)) → mono (st_modify f).
Proof. intros Hf c a c' [= _ <-]. destruct (Hf c) as [Hl Ha]. unfold grows, down_told. by rewrite Hl, Ha. Qed.
Lemma mono_on_input {A} (m : ST Buffer.Buffer A) : mono (on_input m).
Proof. intros c a c'. unfold on_input. destruct (m (inputBuffer_ c)). by intros [= _ <-]. Qed.
Lemma mono_on_output {A} (m : ST Buffer.Buffer A) : mono (on_output m).
Proof. intros c a c'. unfold on_output. destruct (m (outputBuffer_ c)). by intros [= _ <-]. Qed.

Lemma grows_log o c : o ≠ OConnection false → grows c (add_log o c).
Proof.
  intros Ho. split; [by eexists|]. split; [done|]. unfold down_told. cbn. rewrite !elem_of_app, !list_elem_of_singleton.
  naive_solver.
Qed.
Lemma mono_log o : o ≠ OConnection false → mono (log o).
Proof. intros Ho c a c' [= _ <-]. by apply grows_log. Qed.

Lemma mono_poll o : o ≠ Poller.Remove → mono (poll_op o).
Proof.
  intros Ho c a c' Hr. unfold poll_op in Hr. rewrite bool_decide_eq_false_2 in Hr by done.
  injection Hr as _ <-. match goal with |- grows c (add_log _ ?c1) => trans c1 end; [by split|by apply grows_log].
Qed.
#[export] Hint Resolve mono_ret mono_get mono_lift mono_assertC mono_on_input mono_on_output : mono.

(** Along the code of a handler. *)
Ltac mono_step :=
  first
    [ progress intros
    | progress eauto 2 with mono nocore
    | match goal with
      | |- mono (mbind _ _) => apply mono_bind
      | |- mono (st_modify _) => apply mono_modify; intros; split; reflexivity
      | |- mono (log _) => apply mono_log; discriminate
      | |- mono (poll_op _) => apply mono_poll; discriminate
      end
    | match goal with |- mono (if ?b then _ else _) => destruct b end
    | match goal with |- mono (match ?x with _ => _ end) => destruct x end ].
Ltac mono_solve := repeat mono_step.

Section Handlers.
Context (env : Env).

Lemma mono_queueInLoop f : mono (queueInLoop f).
Proof. unfold queueInLoop. mono_solve. Qed.
Lemma mono_sendInLoop data : mono (sendInLoop env data).
Proof. pose proof mono_queueInLoop. unfold sendInLoop, write_directly, keep_rest. mono_solve. Qed.
Lemma mono_shutdownInLoop : mono shutdownInLoop.
Proof. unfold shutdownInLoop. mono_solve. Qed.

Lemma mono_handleWrite : mono (handleWrite env).
Proof. pose proof mono_queueInLoop. pose proof mono_shutdownInLoop. unfold handleWrite. mono_solve. Qed.

Lemma mono_run_api a : mono (run_api env a).
Proof.
  pose proof mono_queueInLoop. pose proof mono_sendInLoop. pose proof mono_shutdownInLoop.
  destruct a; cbn [run_api];
    unfold send, send_input, user_retrieve, shutdown, forceClose, forceCloseWithDelay, startReadInLoop, stopReadInLoop;
    mono_solve.
Qed.
Lemma mono_run_act x : mono (run_act env x).
Proof.
  pose proof mono_queueInLoop. pose proof mono_run_api.
  assert (∀ t r, mono (run_rstep t r)) as Hstep by (intros t []; cbn [run_rstep]; unfold user_retrieve; mono_solve).
  destruct x as [a|a|t]; cbn [run_act]; unfold call_remote; [mono_solve..|].
  intros c a c' Hr. unfold thread_step in Hr. apply ST_bind_Ret in Hr as (c1 & c2 & [= -> ->] & Hr).
  destruct (threads_ c2 !! t) as [[|r rest]|]; [by eapply mono_ret| |by eapply mono_ret].
  apply ST_bind_Ret in Hr as (u & c3 & [= _ <-] & Hr). apply Hstep in Hr. etrans; [|exact Hr]. by split.
Qed.
Lemma mono_user cb : mono (user env cb).
Proof.
  assert (∀ acts, mono (run_acts env acts)).
  { induction acts; cbn [run_acts]; [|pose proof mono_run_act]; mono_solve. }
  unfold user. mono_solve.
Qed.

(** [handleClose] tells the server before it returns. *)
Lemma mono_handleClose : mono (handleClose env).
Proof.
  intros c a c' Hr. unfold handleClose in Hr. apply ST_bind_Ret in Hr as (a1 & c1 & [= _ <-] & Hr).
  apply ST_bind_Ret in Hr as (a2 & c2 & [= _ <-] & Hr). apply ST_bind_Ret in Hr as (a3 & c3 & H3 & Hr).
  apply ST_bind_Ret in Hr as (a4 & c4 & [= _ <-] & Hr). apply ST_bind_Ret in Hr as (a5 & c5 & H5 & Hr).
  injection Hr as _ <-. apply mono_poll in H3 as (L3 & A3 & _); [|done]. apply mono_user in H5 as (L5 & A5 & _).
  split; [|split].
  - cbn. etrans; [exact L3|]. etrans; [|by eexists]. etrans; [|exact L5]. by eexists.
  - intros Ha. cbn. by apply A5, A3.
  - intros _ _. cbn. apply elem_of_app. right. by left.
Qed.

Lemma mono_run_functor f : mono (TcpConnection.run_functor env f).
Proof.
  pose proof mono_sendInLoop. pose proof mono_shutdownInLoop. pose proof mono_handleClose. pose proof mono_user.
  destruct f; cbn [TcpConnection.run_functor]; unfold forceCloseInLoop, startReadInLoop, stopReadInLoop, from_option; mono_solve.
Qed.

Lemma mono_callbacks r ks : mono (run_callbacks env r ks).
Proof.
  pose proof mono_handleClose. pose proof mono_handleWrite. pose proof mono_user.
  induction ks as [|k ks IH]; cbn [run_callbacks]; [mono_solve|]. apply mono_bind; [|done].
  destruct k; cbn [run_callback]; unfold handleRead, handleError; mono_solve.
Qed.

Lemma mono_established : mono (connectEstablished env).
Proof. pose proof mono_user. unfold connectEstablished. mono_solve. Qed.

Lemma mono_event e : e ≠ EvDestroyed → mono (run_event env e).
Proof.
  pose proof mono_callbacks. pose proof mono_run_act. pose proof mono_established.
  pose proof mono_queueInLoop. intros He.
  destruct e; cbn [run_event]; try done; unfold handleEvent, forceClose; try solve [mono_solve].
  intros c a c' Hr. apply ST_bind_Ret in Hr as (c1 & c2 & [= -> ->] & Hr).
  destruct (pendingFunctors_ c2) as [|f fs]; [by eapply mono_ret|]. apply ST_bind_Ret in Hr as (u & c3 & [= _ <-] & Hr).
  apply mono_run_functor in Hr. etrans; [|exact Hr]. by split.
Qed.
End Handlers.

(** ** The contract *)
Section Contract.
Context (env : Env) (Henv : env_ok env).

Definition closed_log (c : TcpConnection) : bool := existsb (λ o, match o with OClose => true | _ => false end) (log_ c).

Lemma closed_log_spec c : closed_log c = true ↔ OClose ∈ log_ c.
Proof.
  unfold closed_log. rewrite existsb_exists. split.
  - intros (o & Ho & He). apply list_elem_of_In in Ho. by destruct o.
  - intros Ho. exists OClose. split; [by apply list_elem_of_In|done].
Qed.

(** The server calls [connectEstablished] and [connectDestroyed] itself. *)
Definition served_event (e : event) : bool := match e with EvEstablished | EvDestroyed => false | _ => true end.

#[export] Instance tcp_ops : ConnOps TcpConnection event := {|
  conn_new := TcpConnection_new;
  conn_established := connectEstablished env;
  conn_destroyed := connectDestroyed env;
  conn_event := run_event env;
  conn_legal e c := served_event e && legal_event e c;
  conn_told := closed_log;
|}.

Definition tcp_fresh (c : TcpConnection) : Prop := (∃ fd, inv fd c) ∧ state_ c = kConnecting ∧ down_told c.
Definition tcp_up (c : TcpConnection) : Prop := (∃ fd, inv fd c) ∧ closable c = true ∧ closed_log c = false ∧ down_told c.
Definition tcp_closed (c : TcpConnection) : Prop :=
  (∃ fd, inv fd c) ∧ state_ c = kDisconnected ∧ closed_log c = true ∧ addedToLoop_ (channel_ c) = true.
Definition tcp_gone (c : TcpConnection) : Prop := (∃ fd, inv fd c) ∧ state_ c = kDisconnected ∧ closed_log c = true.

Lemma calls_elem o l : match o with OConnection _ | OMessage | OClose => True | _ => False end → o ∈ l → o ∈ calls l.
Proof. intros Ho Hl. apply list_elem_of_bind. exists o. split; [by destruct o; try left|done]. Qed.

Lemma inv_lifecycle fd c : inv fd c → lifecycle (state_ c) (calls (log_ c)).
Proof. intros (q & Hb & _). apply Hb. Qed.

(** What was told shows in the state. *)
Lemma told_down fd c : inv fd c → OClose ∈ log_ c → state_ c = kDisconnected.
Proof.
  intros Hi Hc. apply (calls_elem OClose) in Hc; [|done]. pose proof (inv_lifecycle fd c Hi) as Hl.
  destruct Hl as [|n|n|n|n]; try done; exfalso.
  - by apply not_elem_of_nil in Hc.
  - apply elem_of_cons in Hc as [?|Hc]; [done|]. by apply elem_of_replicate in Hc as [? _].
  - apply elem_of_cons in Hc as [?|Hc]; [done|]. by apply elem_of_replicate in Hc as [? _].
Qed.

Lemma up_or_down fd c : inv fd c → down_told c → state_ c ≠ kConnecting →
  if closed_log c then state_ c = kDisconnected else closable c = true.
Proof.
  intros Hi Hd Hst. destruct (closed_log c) eqn:Ec.
  - apply closed_log_spec in Ec. by eapply told_down.
  - unfold closable. pose proof (inv_lifecycle fd c Hi) as Hl. destruct (state_ c) eqn:Es; try done. exfalso.
    apply not_true_iff_false in Ec. apply Ec, closed_log_spec, Hd, down_in_calls.
    by apply (lifecycle_down _ _ Hl).
Qed.

Lemma lifecycle_calls st l : lifecycle st l → st = kConnecting ↔ l = [].
Proof. by destruct 1. Qed.

(** An event, once the connection is established. *)
Lemma served_ok e c fd :
  inv fd c → conn_legal e c = true → state_ c ≠ kConnecting →
  safe (run_event env e) c (λ _ c', inv fd c' ∧ grows c c' ∧ state_ c' ≠ kConnecting).
Proof.
  intros Hi Hl Hst. cbn in Hl. apply andb_prop in Hl as [Hse Hl].
  pose proof (run_event_ok fd env Henv e c Hl Hi) as Hs. unfold safe in *.
  destruct (run_event env e c) as [[[]|[]| |] c'] eqn:Hr; try done. split; [done|].
  assert (grows c c') as Hg by (eapply mono_event; [|exact Hr]; by destruct e). split; [done|].
  destruct Hg as ([l Hlog] & _). rewrite (lifecycle_calls _ _ (inv_lifecycle fd c' Hs)), Hlog.
  unfold calls. rewrite bind_app. intros [Hn _]%app_eq_nil.
  by apply Hst, (lifecycle_calls _ _ (inv_lifecycle fd c Hi)).
Qed.

Lemma grows_closed c c' : grows c c' → closed_log c = true → closed_log c' = true.
Proof. rewrite !closed_log_spec. intros ([l ->] & _) Hc. apply elem_of_app. by left. Qed.

Lemma closable_not_disc c : closable c = true → state_ c ≠ kDisconnected.
Proof. unfold closable. by destruct (state_ c). Qed.

Lemma tcp_new_fresh fd : 0 ≤ fd → tcp_fresh (TcpConnection_new fd).
Proof. intros Hfd. split; [exists fd; by apply inv_new|]. split; [done|]. by intros ?%not_elem_of_nil. Qed.

Lemma calls_not_closed c l : calls (log_ c) = l → OClose ∉ l → closed_log c = false.
Proof.
  intros Hc Hn. apply not_true_iff_false. rewrite closed_log_spec. intros Ho. apply Hn. rewrite <-Hc. by apply calls_elem.
Qed.

Lemma tcp_established_spec c : tcp_fresh c → safe (connectEstablished env) c (λ _ c', tcp_up c').
Proof.
  intros ((fd & Hi) & Hst & Hd). pose proof (connectEstablished_ok fd env Henv c Hst Hi) as Hs. unfold safe in *.
  destruct (connectEstablished env c) as [[[]|[]| |] c'] eqn:Hr; try done. destruct Hs as (Hi' & Hcl & Hca).
  split; [by exists fd|]. split; [done|]. split; [eapply calls_not_closed; [exact Hca|set_solver]|].
  apply (mono_established env) in Hr as (_ & _ & Hg). by apply Hg.
Qed.

Lemma tcp_event_up e c : tcp_up c → conn_legal e c = true →
  safe (run_event env e) c (λ _ c', if closed_log c' then tcp_closed c' else tcp_up c').
Proof.
  intros ((fd & Hi) & Hcl & Hn & Hd) Hl.
  assert (state_ c ≠ kConnecting) as Hst by (unfold closable in Hcl; by destruct (state_ c)).
  eapply safe_mono; [by apply served_ok|]. intros [] c' (Hi' & Hg & Hst'). pose proof Hg as (_ & Ha & Hd').
  pose proof (up_or_down fd c' Hi' (Hd' Hd) Hst') as Hu. destruct (closed_log c') eqn:Ec.
  - split; [by exists fd|]. split; [done|]. split; [done|]. apply Ha.
    destruct Hi as (q & Hb & _). by apply (inv_added _ _ _ _ Hb).
  - split; [by exists fd|]. split; [done|]. split; [done|]. by apply Hd'.
Qed.

Lemma tcp_event_down e c fd : inv fd c → state_ c = kDisconnected → closed_log c = true → conn_legal e c = true →
  safe (run_event env e) c (λ _ c', inv fd c' ∧ state_ c' = kDisconnected ∧ closed_log c' = true ∧ grows c c').
Proof.
  intros Hi Hst Hc Hl. eapply safe_mono; [apply served_ok; [done..|by rewrite Hst]|]. intros [] c' (Hi' & Hg & _).
  pose proof (grows_closed c c' Hg Hc) as Hc'. split; [done|]. split; [|done].
  apply (told_down fd); [done|]. by apply closed_log_spec.
Qed.

Lemma tcp_event_closed e c : tcp_closed c → conn_legal e c = true → safe (run_event env e) c (λ _ c', tcp_closed c').
Proof.
  intros ((fd & Hi) & Hst & Hc & Ha) Hl. eapply safe_mono; [by apply tcp_event_down|].
  intros [] c' (Hi' & Hst' & Hc' & _ & Ha' & _). split; [by exists fd|]. auto.
Qed.

Lemma tcp_event_gone e c : tcp_gone c → conn_legal e c = true → safe (run_event env e) c (λ _ c', tcp_gone c').
Proof.
  intros ((fd & Hi) & Hst & Hc) Hl. eapply safe_mono; [by apply tcp_event_down|].
  intros [] c' (Hi' & Hst' & Hc' & _). split; [by exists fd|]. auto.
Qed.

Lemma tcp_destroyed_spec c : tcp_closed c → safe (connectDestroyed env) c (λ _ c', tcp_gone c').
Proof.
  intros ((fd & Hi) & Hst & Hc & Ha). pose proof (connectDestroyed_ok fd env Henv c Ha (or_intror Hst) Hi) as Hs.
  unfold safe in *. destruct (connectDestroyed env c) as [[[]|[]| |] c'] eqn:Hr; try done. split; [by exists fd|].
  assert (closed_log c' = true) as Hc'.
  { unfold connectDestroyed in Hr. apply ST_bind_Ret in Hr as (c0 & c1 & [= -> ->] & Hr). rewrite Hst in Hr.
    cbn [bool_decide decide] in Hr. apply ST_bind_Ret in Hr as (u & c2 & [= _ <-] & Hr). unfold poll_op in Hr.
    apply ST_bind_Ret in Hr as (c3 & c4 & [= -> ->] & Hr). apply ST_bind_Ret in Hr as (u' & c5 & [= _ <-] & Hr).
    injection Hr as <-. apply closed_log_spec. cbn. apply elem_of_app. left. by apply closed_log_spec. }
  split; [|done]. apply (told_down fd); [done|]. by apply closed_log_spec.
Qed.

#[export] Instance tcp_spec : ConnSpec TcpConnection event.
Proof.
  refine {| conn_fresh := tcp_fresh; conn_up := tcp_up; conn_closed := tcp_closed; conn_gone := tcp_gone |}.
  - apply tcp_new_fresh.
  - by intros c (_ & _ & ? & _).
  - by intros c (_ & _ & ? & _).
  - by intros c (_ & _ & ?).
  - apply tcp_established_spec.
  - apply tcp_event_up.
  - apply tcp_event_closed.
  - apply tcp_event_gone.
  - apply tcp_destroyed_spec.
Defined.
End Contract.

(** ** A server over TCP connections *)
Section Served.
Context (env : Env) (Henv : env_ok env).
Context (name_ ipPort_ : bytes) (startLoop : nat → nat) (n : nat).
Context (Hip : zlen ipPort_ ≤ 51) (Hn : Z.of_nat n < 2 ^ 31).
#[local] Instance served_ops : ConnOps TcpConnection event := tcp_ops env.
#[local] Instance served_spec : ConnSpec TcpConnection event := tcp_spec env Henv.

(** What the user of a connection saw, whether the server has it, and what is
    queued for it. *)
Definition served (c : nat) (sc : SConn TcpConnection) (s : TcpServer TcpConnection) : Prop :=
  let x := c_conn sc in
  lifecycle (state_ x) (calls (log_ x)) ∧
  (connections_ s !! c_name sc = Some c ↔
     state_ x = kConnecting ∨ closable x = true ∨ state_ x = kDisconnected ∧ SRemove c ∈ queues_ s loop_) ∧
  (state_ x = kConnecting ↔ SEstablish c ∈ queues_ s (c_loop sc)) ∧
  (state_ x = kDisconnected → closed_log x = true).

Lemma stage_served st s c sc :
  srv_inv (E := event) name_ ipPort_ startLoop n st s → heap_ s !! c = Some sc → served c sc s.
Proof.
  intros Hi Hc. destruct (stage_of name_ ipPort_ startLoop n st s c sc Hi Hc) as (Hnm & Hio & Hx & Hlt).
  assert (connections_ s !! c_name sc = Some c ↔ registered (st c) = true) as Hm.
  { rewrite (v_conns _ _ _ _ _ _ Hi (c_name sc) c), Hnm. naive_solver. }
  assert (∀ l f, about f = c → f ∈ queues_ s l ↔ expected (st c) (c_loop sc) c = Some (l, f)) as Hq.
  { intros l f <-. rewrite (proj2 (v_queues _ _ _ _ _ _ Hi l)), Hio. naive_solver. }
  assert (∃ fd, inv fd (c_conn sc)) as [fd Hinv] by (destruct (st c); apply Hx).
  assert (closable (c_conn sc) = true ↔ state_ (c_conn sc) ≠ kConnecting ∧ state_ (c_conn sc) ≠ kDisconnected) as Hcl.
  { unfold closable. destruct (state_ (c_conn sc)); naive_solver. }
  unfold served. cbn zeta. split; [by eapply inv_lifecycle|]. rewrite Hm, Hcl, (Hq loop_ (SRemove c) eq_refl),
    (Hq (c_loop sc) (SEstablish c) eq_refl).
  destruct (st c); cbn [registered expected stage_conn] in *; destruct Hx as (_ & Hx); cbn in Hx.
  - destruct Hx as (-> & _). naive_solver.
  - destruct Hx as (Hx & _). apply Hcl in Hx as [? ?]. naive_solver.
  - destruct Hx as (-> & -> & _). naive_solver.
  - destruct Hx as (-> & -> & _). naive_solver.
  - destruct Hx as (-> & ->). naive_solver.
Qed.

(** C24: A server over TCP connections: however peers, the kernel, the loops,
    users and other threads interleave (a call of another thread being its test
    of the connection's state and its further steps), no assertion of the server or of any of its connections
    ever fails, as long as the server is not destroyed and the connections keep
    out of the cases [legal_event] excludes (see C5: no late store of
    [kDisconnecting] after the close, no [startRead] or [stopRead] run on a
    connection that is not up); the user of each connection sees it come up, deliver, and go
    down once; a connection that is down has told the server in the same
    handler; and the server has it in its map exactly from its acceptance
    until it has taken note of that. *)
Theorem tcp_connections_served s (Hr : sreachable (E := event) name_ ipPort_ startLoop n s) :
  (∀ o, TcpServer.op_legal o s → safe (TcpServer.run_op name_ ipPort_ startLoop o) s (λ _ _, True)) ∧
  ∀ c sc, heap_ s !! c = Some sc → served c sc s.
Proof.
  destruct (sreachable_inv name_ ipPort_ startLoop n Hip Hn s Hr) as [st Hi]. split.
  - intros o Hl. eapply safe_mono; [by apply (run_op_ok name_ ipPort_ startLoop n Hip Hn st)|done].
  - intros c sc Hc. by eapply stage_served.
Qed.
End Served.

(** ** An echo server with one thread: a client connects, sends and leaves *)
#[local] Instance echo_ops : ConnOps TcpConnection event := tcp_ops echo_env.

Definition echo_run (o : sop event) : ST (TcpServer TcpConnection) unit := TcpServer.run_op s!"echo" s!"0.0.0.0:7" S o.
Definition echo_closed : TcpServer TcpConnection :=
  foldl (λ s o, snd (echo_run o s)) (TcpServer_new s!"echo" 1)
    [OStart false; OAccept 9; ORun 1; OEvent 0 (EvReport POLLIN (SysData s!"ping")); OEvent 0 (EvReport POLLIN (SysData []))].

Lemma echo_step o s :
  sreachable s!"echo" s!"0.0.0.0:7" S 1 s → TcpServer.op_legal o s → fst (echo_run o s) = Ret () →
  sreachable s!"echo" s!"0.0.0.0:7" S 1 (snd (echo_run o s)).
Proof.
  intros Hr Hl Hf. unfold sreachable. etrans; [exact Hr|]. apply rtc_once. exists o. split; [done|].
  fold (echo_run o). rewrite <-Hf. by destruct (echo_run o s).
Qed.

Lemma echo_closed_reachable : sreachable s!"echo" s!"0.0.0.0:7" S 1 echo_closed.
Proof.
  unfold echo_closed. cbn [foldl].
  repeat (apply echo_step; [| |vm_compute; reflexivity]); [apply rtc_refl|done| |done| |].
  - split; [reflexivity|]. split; [lia|vm_compute; reflexivity].
  - eexists. split; [vm_compute; reflexivity|]. split; [vm_compute; apply not_elem_of_nil|vm_compute; reflexivity].
  - eexists. split; [vm_compute; reflexivity|]. split; [vm_compute; apply not_elem_of_nil|vm_compute; reflexivity].
Qed.

Lemma tcp_connections_served_witness :
  queues_ echo_closed loop_ = [SRemove 0] ∧ is_Some (heap_ echo_closed !! 0%nat) ∧
  ∀ sc, heap_ echo_closed !! 0%nat = Some sc → served 0 sc echo_closed.
Proof.
  split; [vm_compute; reflexivity|]. split; [eexists; vm_compute; reflexivity|].
  exact (proj2 (tcp_connections_served echo_env echo_env_ok s!"echo" s!"0.0.0.0:7" S 1 ltac:(done) ltac:(done)
    echo_closed echo_closed_reachable) 0%nat).
Defined.
