(* ===== verification/TcpClient.v ===== *)
(** * The client (master/net/TcpClient.h, TcpClient.cc)

    A client owns a connector (Connector) and at most one connection at a
    time; a connection is what the interface of TcpServer says.  Everything
    here runs in the client's loop, except the flag [connect_] and the
    connector's calls of other threads.  [pending_] is the client's own part of
    the loop's queue: connections to be destroyed. *)
From stdpp Require Import relations functions.
From S2P Require Import Prelude CxxString TcpServer Connector.
Local Open Scope Z_scope.

Section Client.
Context {C E : Type} `{!ConnOps C E}.

Record TcpClient := MkClient {
  connector_ : Connector;
  retry_ : bool;
  connect_ : bool;
  nextConnId_ : Z;
  connection_ : option nat;
  (** The connections ever made, with their names; those whose
      [connectDestroyed] is queued. *)
  heap_ : list (bytes * C);
  pending_ : list nat;
  (** The client lives; once destroyed, its connection's close callback is
      [detail::removeConnection]. *)
  alive_ : bool;
}.

Context (name_ : bytes).

Definition set_connector k s := MkClient k (retry_ s) (connect_ s) (nextConnId_ s) (connection_ s) (heap_ s) (pending_ s) (alive_ s).
Definition set_connect b s := MkClient (connector_ s) (retry_ s) b (nextConnId_ s) (connection_ s) (heap_ s) (pending_ s) (alive_ s).
Definition set_connection c s := MkClient (connector_ s) (retry_ s) (connect_ s) (nextConnId_ s) c (heap_ s) (pending_ s) (alive_ s).
Definition set_heap h s := MkClient (connector_ s) (retry_ s) (connect_ s) (nextConnId_ s) (connection_ s) h (pending_ s) (alive_ s).
Definition set_pending p s := MkClient (connector_ s) (retry_ s) (connect_ s) (nextConnId_ s) (connection_ s) (heap_ s) p (alive_ s).

Definition TcpClient_new (retry : bool) : TcpClient := MkClient Connector_new retry true 1 None [] [] true.

Abbreviation cli := (ST TcpClient).

Definition on_connector {A} (m : ST Connector A) : cli A := λ s,
  let '(r, k) := m (connector_ s) in (r, set_connector k s).
Definition on_conn {A} (c : nat) (m : ST C A) : cli A := λ s,
  match heap_ s !! c with
  | Some (nm, x) => let '(r, x') := m x in (r, set_heap (<[c := (nm, x')]> (heap_ s)) s)
  | None => (Undef, s)
  end.

(** [snprintf] into 32 characters; [peer] is the peer's address as text. *)
Definition connName (peer : bytes) (id : Z) : bytes := name_ ++ ztake 31 (s!":" ++ peer ++ s!"#" ++ dec_int id).

Definition newConnection (peer : bytes) (sockfd : nat) : cli unit :=
  s ← st_get;
  lift (defined (alive_ s)) ;;
  lift (defined (in_sb 32 (nextConnId_ s + 1))) ;;
  let c := length (heap_ s) in
  st_put (MkClient (connector_ s) (retry_ s) (connect_ s) (nextConnId_ s + 1) (Some c)
    (heap_ s ++ [(connName peer (nextConnId_ s), conn_new (Z.of_nat sockfd))]) (pending_ s) (alive_ s)) ;;
  on_conn c conn_established.

(** The close callback; [e] is what the kernel answers to a new attempt. *)
Definition removeConnection (e : errno) (c : nat) : cli unit :=
  s ← st_get;
  lift (assert_ (bool_decide (connection_ s = Some c))) ;;
  st_modify (set_connection None) ;;
  st_modify (λ s, set_pending (pending_ s ++ [c]) s) ;;
  s ← st_get;
  if retry_ s && connect_ s then on_connector (restart (Some e)) else mret ().

(** [detail::removeConnection] *)
Definition detail_removeConnection (c : nat) : cli unit := st_modify (λ s, set_pending (pending_ s ++ [c]) s).

Definition connect (e : errno) : cli unit :=
  st_modify (set_connect true) ;;
  on_connector (st_modify mark_started ;; start (Some e)).
Definition stop : cli unit :=
  st_modify (set_connect false) ;;
  on_connector Connector.stop.
(** [shutdown_] is the connection's [shutdown]. *)
Definition disconnect (shutdown_ : E) : cli unit :=
  st_modify (set_connect false) ;;
  s ← st_get;
  match connection_ s with Some c => on_conn c (conn_event shutdown_) | None => mret () end.

(** The connector's event: a socket handed over is the callback's argument. *)
Definition connector_event (er wr : bool) (err : Z) (self : bool) (peer : bytes) : cli unit :=
  s ← st_get;
  on_connector (handleEvent er wr err self) ;;
  s' ← st_get;
  match drop (length (handed_ (connector_ s))) (handed_ (connector_ s')) with
  | [] => mret ()
  | sockfd :: _ => newConnection peer sockfd
  end.

Definition told_of (c : nat) (s : TcpClient) : bool :=
  match heap_ s !! c with Some (_, x) => conn_told x | None => false end.

Definition conn_handle (c : nat) (ev : E) (e : errno) : cli unit :=
  s ← st_get;
  on_conn c (conn_event ev) ;;
  s' ← st_get;
  if told_of c s' && negb (told_of c s)
  then if alive_ s' then removeConnection e c else detail_removeConnection c
  else mret ().

(** [~TcpClient] in the loop's thread; [unique]: nobody else holds the
    connection, which [forceClose_] then closes; the timer that keeps the
    connector alive does nothing. *)
Definition TcpClient_dtor (unique : bool) (forceClose_ : E) : cli unit :=
  s ← st_get;
  match connection_ s with
  | Some c => if unique then on_conn c (conn_event forceClose_) else mret ()
  | None => on_connector Connector.stop
  end ;;
  st_modify (λ s, MkClient (connector_ s) (retry_ s) (connect_ s) (nextConnId_ s) None (heap_ s) (pending_ s) false).

(** ** Steps *)
Inductive kop :=
  | KConnect (e : errno) | KStop | KDisconnect (shutdown_ : E) | KEnableRetry
  | KFlag (b : bool) | KConnectRemote | KStopRemote | KQueue (f : functor) (l1 l2 : list functor)
  | KFunctor (e : errno) (f : functor) (q : list functor)
  | KEvent (er wr : bool) (err : Z) (self : bool) (peer : bytes)
  | KTimer (e : errno) (l1 : list Z) (d : Z) (l2 : list Z)
  | KConn (c : nat) (ev : E) (e : errno)
  | KDestroy (c : nat) (q : list nat)
  | KDtor (unique : bool) (forceClose_ : E).

Definition run_kop (o : kop) : cli unit :=
  match o with
  | KConnect e => connect e
  | KStop => stop
  | KDisconnect shutdown_ => disconnect shutdown_
  | KEnableRetry => st_modify (λ s, MkClient (connector_ s) true (connect_ s) (nextConnId_ s) (connection_ s) (heap_ s) (pending_ s) (alive_ s))
  | KFlag b => st_modify (set_connect b)
  | KConnectRemote => on_connector (st_modify (λ k, remote_call true FStart (mark_started k)))
  | KStopRemote => on_connector (st_modify (remote_call false FStop))
  | KQueue f l1 l2 => on_connector (st_modify (remote_queued f l1 l2))
  | KFunctor e f q => on_connector (st_modify (λ k, set_loop q (timers_ k) (remote_ k) k) ;; Connector.run_functor (Some e) f)
  | KEvent er wr err self peer => connector_event er wr err self peer
  | KTimer e l1 d l2 =>
      on_connector (st_modify (λ k, set_loop (Connector.pending_ k) (l1 ++ l2) (remote_ k) k) ;; startInLoop (Some e))
  | KConn c ev e => conn_handle c ev e
  | KDestroy c q => st_modify (set_pending q) ;; on_conn c conn_destroyed
  | KDtor unique forceClose_ => TcpClient_dtor unique forceClose_
  end.

(** What the environment does.  The loop runs its functors in order, its timers
    in any; events come for a registered channel; a connection has the events
    of its interface, and closes, by an event of a later poll or by a functor
    queued after it was made, only once the [resetChannel] that was queued before it was made has
    run (the loop runs its functors in the order of the queue); [shutdown] and
    [forceClose] of a connection that is up close nothing yet. *)
Definition quiet_event (ev : E) (s : TcpClient) : Prop :=
  ∀ c nm x, heap_ s !! c = Some (nm, x) → conn_legal ev x = true ∧ conn_told (snd (conn_event ev x)) = conn_told x.
Definition kop_can (o : kop) (s : TcpClient) : Prop :=
  let k := connector_ s in
  match o with
  | KConnect _ | KConnectRemote | KStop | KStopRemote | KEnableRetry | KFlag _ => True
  | KDisconnect ev | KDtor _ ev => quiet_event ev s
  | KQueue f l1 l2 => enabled (CQueue f l1 l2) k
  | KFunctor e f q => enabled (CFunctor e f q) k
  | KEvent er wr err self _ => enabled (CEvent er wr err self) k
  | KTimer e l1 d l2 => enabled (CTimer e l1 d l2) k
  | KConn c ev _ => ∃ nm x, heap_ s !! c = Some (nm, x) ∧ conn_legal ev x = true ∧
      (conn_told x = false → conn_told (snd (conn_event ev x)) = true → FReset ∉ Connector.pending_ k)
  | KDestroy c q => pending_ s = c :: q
  end.

(** What the code needs of its users and its loop but does not check: a
    destroyed client is not called (it is destroyed in its loop's thread, where
    [KDtor] runs); [connect] is called only when nothing is going on (see
    [Connector.in_contract]), so not while a connection is up, nor after one
    that was not retried, nor before the timer of a stopped attempt has fired;
    no timer of the connector fires before the queued [resetChannel] has run;
    and fewer than 2^31 - 1 connections are made. *)
Definition kop_contract (o : kop) (s : TcpClient) : Prop :=
  let k := connector_ s in
  match o with
  | KConnect e => alive_ s = true ∧ in_contract (CStart e) k
  | KConnectRemote => alive_ s = true ∧ in_contract CStartRemote k
  | KStop | KEnableRetry | KFlag _ | KStopRemote | KDisconnect _ | KDtor _ _ => alive_ s = true
  | KEvent _ _ _ _ _ => nextConnId_ s < 2 ^ 31 - 1
  | KTimer e l1 d l2 => in_contract (CTimer e l1 d l2) k
  | KQueue _ _ _ | KFunctor _ _ _ | KConn _ _ _ | KDestroy _ _ => True
  end.

Definition kstep (s s' : TcpClient) : Prop := ∃ o, kop_can o s ∧ kop_contract o s ∧ run_kop o s = (Ret (), s').
End Client.
Arguments TcpClient : clear implicits.
Arguments kop : clear implicits.

(** ** The connector, seen from its client *)

(** What every step does but a successful event and [restart]. *)
Definition calm (alive : bool) (k k' : Connector) : Prop :=
  contract_reachable k' ∧ handed_ k' = handed_ k ∧ (state_ k = kConnected → state_ k' = kConnected) ∧
  (alive = false → Connector.connect_ k = false → Connector.connect_ k' = false).

Section Moves.
Context (k : Connector) (Hk : contract_reachable k).

Lemma step_reachable c : enabled c k → in_contract c k → contract_reachable (run_call c k).
Proof. intros He Hc. apply (rtc_r _ k); [exact Hk|by exists c]. Qed.

(** No attempt is to come once connected. *)
Lemma connected_no_start : state_ k = kConnected → starts k = 0%nat ∧ (FStart ∉ Connector.pending_ k) ∧ timers_ k = [].
Proof.
  intros Hst. pose proof (contract_inv k Hk) as Hi. pose proof (k_idle k Hi ltac:(by rewrite Hst)) as Hs.
  split; [done|].
  unfold starts in Hs. split; [|by apply length_zero_iff_nil; lia].
  intros Hin. apply list_elem_of_split in Hin as (l1 & l2 & Hp). rewrite Hp, count_app, count_cons in Hs.
  rewrite decide_True in Hs by done. lia.
Qed.

Lemma calm_start e : in_contract (CStart e) k → calm true k (exec (start (Some e)) (mark_started k)).
Proof.
  intros Hs. split; [by apply (step_reachable (CStart e))|]. split.
  { apply (startInLoop_handed e (Connector.set_connect true (mark_started k))). }
  split; [|done]. intros Hst. destruct Hs as [? _]. congruence.
Qed.

Lemma calm_start_remote : in_contract CStartRemote k → calm true k (remote_call true FStart (mark_started k)).
Proof. intros Hs. split; [by apply (step_reachable CStartRemote)|done]. Qed.

Lemma calm_stop al : calm al k (exec Connector.stop k).
Proof. split; [by apply (step_reachable CStop)|done]. Qed.

Lemma calm_stop_remote al : calm al k (remote_call false FStop k).
Proof. split; [by apply (step_reachable CStopRemote)|done]. Qed.

Lemma calm_queue al f l1 l2 : remote_ k = l1 ++ f :: l2 → calm al k (remote_queued f l1 l2 k).
Proof. intros Hr. split; [by apply (step_reachable (CQueue f l1 l2))|done]. Qed.

Lemma run_functor_keeps e f : keeps_connect (Connector.run_functor e f).
Proof. destruct f; [apply startInLoop_keeps|apply stopInLoop_keeps|done]. Qed.

Lemma calm_functor al e f q : Connector.pending_ k = f :: q →
  calm al k (exec (Connector.run_functor (Some e) f) (set_loop q (timers_ k) (remote_ k) k)).
Proof.
  intros Hf. split; [by apply (step_reachable (CFunctor e f q))|]. split; [by apply functor_handed, Hf; apply contract_inv|].
  split.
  - intros Hst. destruct (connected_no_start Hst) as (_ & Hn & _). rewrite Hf in Hn.
    destruct f; cbn [Connector.run_functor]; [by destruct Hn; left| |done].
    unfold exec, stopInLoop, mbind, ST_bind, st_get. cbn [fst snd state_ set_loop]. rewrite Hst. exact Hst.
  - intros _ Hc. rewrite exec_keeps; [done|apply run_functor_keeps].
Qed.

Lemma calm_timer al e l1 d l2 : timers_ k = l1 ++ d :: l2 → FReset ∉ Connector.pending_ k →
  calm al k (exec (startInLoop (Some e)) (set_loop (Connector.pending_ k) (l1 ++ l2) (remote_ k) k)).
Proof.
  intros Ht Hn. split; [by apply (step_reachable (CTimer e l1 d l2))|].
  split; [apply (startInLoop_handed e (set_loop (Connector.pending_ k) (l1 ++ l2) (remote_ k) k))|]. split.
  - intros Hst. destruct (connected_no_start Hst) as (_ & _ & He). rewrite He in Ht. by destruct l1.
  - intros _ Hc. rewrite exec_keeps; [done|apply startInLoop_keeps].
Qed.

(** An event hands over at most one socket, and then the connector is done. *)
Lemma event_moves er wr err self fd : channel_ k = Some (fd, true) →
  let k' := exec (handleEvent er wr err self) k in
  contract_reachable k' ∧ state_ k = kConnecting ∧ Connector.connect_ k' = Connector.connect_ k ∧
  (handed_ k' = handed_ k ∨
   Connector.connect_ k = true ∧ state_ k' = kConnected ∧ ∃ fd, handed_ k' = handed_ k ++ [fd]).
Proof.
  intros Hc k'. pose proof (contract_inv k Hk) as Hi. pose proof (event_connecting fd k Hi Hc) as Hst.
  split; [by apply (step_reachable (CEvent er wr err self)); [exists fd|]|]. split; [done|].
  split; [by apply exec_keeps, handleEvent_keeps|]. by apply handleEvent_inv.
Qed.
End Moves.

(** ** The invariant *)
Inductive phase := PUp | PClosed | PGone.

Section Invariant.
Context {C E : Type} `{ConnSpec C E}.
Context (name_ : bytes).

(** Connection [c] of a client that lives or not. *)
Definition standing (p : phase) (c : nat) (x : C) (s : TcpClient C) : Prop :=
  match p with
  | PUp => conn_up x ∧ (c ∉ pending_ s) ∧ S c = length (heap_ s) ∧ state_ (connector_ s) = kConnected ∧
           (alive_ s = true → connection_ s = Some c)
  | PClosed => conn_closed x ∧ c ∈ pending_ s ∧ connection_ s ≠ Some c
  | PGone => conn_gone x ∧ (c ∉ pending_ s) ∧ connection_ s ≠ Some c
  end.

Record client_inv (s : TcpClient C) : Prop := {
  q_connector : contract_reachable (connector_ s);
  q_next : nextConnId_ s = 1 + zlen (heap_ s);
  q_handed : length (handed_ (connector_ s)) = length (heap_ s);
  q_dead : alive_ s = false →
    connection_ s = None ∧ (Connector.connect_ (connector_ s) = false ∨ state_ (connector_ s) = kConnected);
  q_known : ∀ c, connection_ s = Some c → (c < length (heap_ s))%nat;
  q_pending : NoDup (pending_ s) ∧ ∀ c, c ∈ pending_ s → (c < length (heap_ s))%nat;
  q_conns : ∀ c nm x, heap_ s !! c = Some (nm, x) → ∃ p, standing p c x s;
}.

Lemma calm_inv s s' :
  client_inv s → calm (alive_ s) (connector_ s) (connector_ s') →
  nextConnId_ s' = nextConnId_ s → connection_ s' = connection_ s → heap_ s' = heap_ s →
  pending_ s' = pending_ s → alive_ s' = alive_ s → client_inv s'.
Proof.
  intros [H1 H2 H3 H4 H5 H6 H7] (Hr & Hh & Hc & Hd) E1 E2 E3 E4 E5.
  split; rewrite ?E1, ?E2, ?E3, ?E4, ?E5, ?Hh; try done.
  - intros Ha. destruct (H4 Ha) as [? [?|?]]; auto.
  - intros c nm x Hx. destruct (H7 c nm x Hx) as [p Hp]. exists p. unfold standing in *.
    rewrite E2, E3, E4, E5. destruct p; naive_solver.
Qed.

(** A call on the connector, within its contract. *)
Lemma safe_connector {A} (m : ST Connector A) s (Q : A → TcpClient C → Prop) :
  contract_reachable (exec m (connector_ s)) → (∀ a, Q a (set_connector (exec m (connector_ s)) s)) → safe (on_connector m) s Q.
Proof.
  intros Hr HQ. destruct (exec_returns m (connector_ s) (k_ok _ (contract_inv _ Hr))) as [a Ha].
  unfold safe, on_connector. rewrite Ha. apply HQ.
Qed.

Lemma safe_calm {A} (m : ST Connector A) s s0 :
  client_inv s0 → calm (alive_ s0) (connector_ s0) (exec m (connector_ s)) →
  nextConnId_ s = nextConnId_ s0 → connection_ s = connection_ s0 → heap_ s = heap_ s0 →
  pending_ s = pending_ s0 → alive_ s = alive_ s0 →
  safe (on_connector m) s (λ _ s', client_inv s').
Proof.
  intros Hi Hc E1 E2 E3 E4 E5. apply safe_connector; [apply Hc|]. intros a. by apply (calm_inv s0).
Qed.

Lemma client_safe_on_conn {A} c (m : ST C A) s nm x (Q : A → TcpClient C → Prop) :
  heap_ s !! c = Some (nm, x) → safe m x (λ a x', Q a (set_heap (<[c := (nm, x')]> (heap_ s)) s)) →
  safe (on_conn c m) s Q.
Proof. intros Hc Hm. unfold safe, on_conn in *. rewrite Hc. by destruct (m x) as [[a|[]| |] x']. Qed.

(** One connection changes; the others keep their phases. *)
Lemma conn_update s s' c nm x x' p :
  client_inv s → heap_ s !! c = Some (nm, x) →
  heap_ s' = <[c := (nm, x')]> (heap_ s) → connector_ s' = connector_ s → nextConnId_ s' = nextConnId_ s →
  alive_ s' = alive_ s → (connection_ s' = connection_ s ∨ connection_ s = Some c ∧ connection_ s' = None) →
  NoDup (pending_ s') → (∀ c', c' ≠ c → c' ∈ pending_ s' ↔ c' ∈ pending_ s) →
  standing p c x' s' → client_inv s'.
Proof.
  intros [H1 H2 H3 H4 H5 H6 H7] Hc E1 E2 E3 E4 Hcn Hnd Hp Hst.
  assert (c < length (heap_ s))%nat as Hlt by (by apply lookup_lt_Some in Hc).
  split; unfold zlen; rewrite ?E1, ?E2, ?E3, ?E4, ?length_insert; try done.
  - intros Ha. destruct (H4 Ha) as [Hn ?]. split; [|done]. destruct Hcn as [->|[_ ?]]; done.
  - intros c' Hc'. destruct Hcn as [Heq|[_ Heq]]; rewrite Heq in Hc'; [by apply H5|done].
  - split; [done|]. intros c' Hc'. destruct (decide (c' = c)) as [->|]; [done|]. apply H6. by apply Hp.
  - intros c' nm' y. rewrite list_lookup_insert_Some. intros [(<- & [= <- <-] & _)|[Hne Hy]]; [by exists p|].
    destruct (H7 c' nm' y Hy) as [p' Hp']. exists p'. specialize (Hp c' ltac:(congruence)).
    assert (connection_ s' = Some c' ↔ connection_ s = Some c') as Hcs.
    { destruct Hcn as [->|[-> ->]]; [done|]. split; [done|congruence]. }
    unfold standing in *. rewrite E1, ?length_insert, E2, E4. destruct p'; rewrite ?length_insert; tauto.
Qed.

(** Before a connection is made no other is up. *)
Lemma client_newConnection_ok s k' peer sockfd :
  client_inv s → state_ (connector_ s) = kConnecting → alive_ s = true → nextConnId_ s < 2 ^ 31 - 1 →
  contract_reachable k' → state_ k' = kConnected → length (handed_ k') = S (length (heap_ s)) →
  safe (newConnection name_ peer sockfd) (set_connector k' s) (λ _ s', client_inv s').
Proof.
  intros [H1 H2 H3 H4 H5 H6 H7] Hst Ha Hid Hr Hst' Hh. unfold newConnection. safe_step.
  eapply safe_lift; [cbn; by rewrite Ha|]. safe_step. eapply safe_lift.
  { cbn [nextConnId_ set_connector]. unfold in_sb, defined. unfold zlen in H2.
    rewrite (proj2 (Z.leb_le _ _)) by lia. by rewrite (proj2 (Z.ltb_lt _ _)) by lia. }
  safe_step. cbn [heap_ set_connector nextConnId_ pending_ alive_ connector_ retry_ connect_].
  set (c := length (heap_ s)). set (nm := connName name_ peer (nextConnId_ s)).
  eapply (client_safe_on_conn c _ _ nm (conn_new (Z.of_nat sockfd))); [by apply list_lookup_middle|].
  eapply safe_mono; [apply established_spec, new_fresh; lia|]. intros [] x Hx.
  assert (c ∉ pending_ s) as Hc by (intros Hc%H6; unfold c in Hc; lia).
  assert (length (<[c := (nm, x)]> (heap_ s ++ [(nm, conn_new (Z.of_nat sockfd))])) = S c) as Hlen.
  { rewrite length_insert, length_app. cbn. unfold c. lia. }
  split; cbn; unfold zlen in *; rewrite ?Hlen; try done; try lia; [congruence|intros c' [= <-]; lia| |].
  { split; [apply H6|]. intros c' Hc'%H6. unfold c. lia. }
  intros c' nm' y. rewrite list_lookup_insert_Some. intros [(<- & [= <- <-] & _)|[Hne Hy]].
  - exists PUp. unfold standing. cbn. by rewrite Hlen.
  - rewrite lookup_app_l in Hy.
    2:{ apply lookup_lt_Some in Hy. rewrite length_app in Hy. cbn in Hy. unfold c in *. lia. }
    destruct (H7 c' nm' y Hy) as [p Hp]. exists p. unfold standing in *. cbn.
    destruct p; [destruct Hp as (_ & _ & _ & ? & _); congruence|..]; naive_solver.
Qed.

Lemma event_ok s er wr err self peer :
  client_inv s → (∃ fd, channel_ (connector_ s) = Some (fd, true)) → nextConnId_ s < 2 ^ 31 - 1 →
  safe (connector_event name_ er wr err self peer) s (λ _ s', client_inv s').
Proof.
  intros Hi [fd Hc] Hid. unfold connector_event. safe_step.
  destruct (event_moves _ (q_connector s Hi) er wr err self fd Hc) as (Hr & Hst & Hcn & Hh).
  apply safe_connector; [done|]. intros []. safe_step. cbn [connector_ set_connector].
  destruct Hh as [Hh|(Hw & Hst' & sockfd & Hh)]; rewrite Hh.
  - rewrite drop_all. apply safe_ret. apply (calm_inv s); try done. split; [done|]. split; [done|].
    split; [congruence|]. intros _. cbn. by rewrite Hcn.
  - rewrite drop_app_length. apply client_newConnection_ok; try done.
    + destruct (alive_ s) eqn:Ha; [done|]. destruct (q_dead s Hi Ha) as [_ [?|?]]; congruence.
    + rewrite Hh, length_app. cbn. rewrite (q_handed s Hi). lia.
Qed.

(** The close callback of the client, after its connection has closed. *)
Lemma client_removeConnection_ok s e c nm x x' :
  client_inv s → heap_ s !! c = Some (nm, x) → standing PUp c x s → alive_ s = true → conn_closed x' →
  FReset ∉ Connector.pending_ (connector_ s) →
  safe (removeConnection e c) (set_heap (<[c := (nm, x')]> (heap_ s)) s) (λ _ s', client_inv s').
Proof.
  intros Hi Hc (Hx & Hp & Hlast & Hst & Hal) Ha Hx' Hn. specialize (Hal Ha).
  unfold removeConnection. safe_step. eapply safe_lift; [cbn; by rewrite Hal, bool_decide_eq_true_2|]. safe_step.
  set (s1 := set_pending _ (set_connection None (set_heap (<[c := (nm, x')]> (heap_ s)) s))).
  assert (client_inv s1) as Hi1.
  { apply (conn_update s s1 c nm x x' PClosed); try done.
    - by right.
    - cbn. apply NoDup_app. split; [apply Hi|]. split; [|apply NoDup_singleton]. by intros ? ? ->%list_elem_of_singleton.
    - intros c' Hne. cbn. rewrite elem_of_app, list_elem_of_singleton. naive_solver.
    - unfold standing. cbn. rewrite elem_of_app, list_elem_of_singleton. auto. }
  cbn [retry_ connect_ s1 set_pending set_connection set_heap]. destruct (retry_ s && connect_ s); [|by apply safe_ret].
  assert (contract_reachable (exec (restart (Some e)) (connector_ s))) as Hr.
  { apply (step_reachable (connector_ s) (q_connector s Hi) (CRestart e)); [done|by split]. }
  apply safe_connector; [exact Hr|]. intros []. destruct Hi1 as [H1 H2 H3 H4 H5 H6 H7].
  split; cbn in *; try done; try congruence.
  - rewrite <-H3. f_equal. apply (startInLoop_handed e (Connector.set_connect true (set_delay kInitRetryDelayMs [] (setState kDisconnected (connector_ s))))).
  - intros c' nm' y Hy. destruct (H7 c' nm' y Hy) as [p Hp']. exists p. destruct p; [|done..].
    exfalso. destruct Hp' as (_ & _ & _ & _ & Hal'). specialize (Hal' Ha). done.
Qed.

Lemma told_after c s nm x x' : heap_ s !! c = Some (nm, x) →
  told_of c (set_heap (<[c := (nm, x')]> (heap_ s)) s) = conn_told x' ∧ told_of c s = conn_told x.
Proof.
  intros Hc. unfold told_of. cbn. rewrite list_lookup_insert_eq by (by apply lookup_lt_Some in Hc). by rewrite Hc.
Qed.

(** A connection that stays in its phase. *)
Lemma conn_stays s c nm x x' p :
  client_inv s → heap_ s !! c = Some (nm, x) → standing p c x s →
  match p with PUp => conn_up x' | PClosed => conn_closed x' | PGone => conn_gone x' end →
  client_inv (set_heap (<[c := (nm, x')]> (heap_ s)) s).
Proof.
  intros Hi Hc Hst Hx. apply (conn_update s _ c nm x x' p); try done; [by left|apply Hi|].
  unfold standing in *. cbn. destruct p; rewrite ?length_insert; tauto.
Qed.

Lemma client_handle_ok s c ev e nm x :
  client_inv s → heap_ s !! c = Some (nm, x) → conn_legal ev x = true →
  (conn_told x = false → conn_told (snd (conn_event ev x)) = true → FReset ∉ Connector.pending_ (connector_ s)) →
  safe (conn_handle c ev e) s (λ _ s', client_inv s').
Proof.
  intros Hi Hc Hl Hn. unfold conn_handle. safe_step. destruct (q_conns s Hi c nm x Hc) as [p Hst].
  assert (safe (conn_event ev) x (λ _ x', x' = snd (conn_event ev x) ∧
    match p with PUp => if conn_told x' then conn_closed x' else conn_up x' | PClosed => conn_closed x' | PGone => conn_gone x' end)) as Hs.
  { assert (∀ Q, safe (conn_event ev) x Q → safe (conn_event ev) x (λ a x', x' = snd (conn_event ev x) ∧ Q a x')) as Hsnd.
    { intros Q. unfold safe. by destruct (conn_event ev x) as [[?|[]| |] ?]. }
    apply Hsnd. destruct p; destruct Hst as (Hx & _).
    - eapply safe_mono; [by apply event_up|done].
    - eapply safe_mono; [by apply event_closed|done].
    - eapply safe_mono; [by apply event_gone|done]. }
  eapply client_safe_on_conn; [exact Hc|]. eapply safe_mono; [exact Hs|]. intros [] x' [Hx' Hp]. safe_step.
  destruct (told_after c s nm x x' Hc) as [-> ->].
  destruct p; pose proof Hst as (Hx & Hrest).
  - pose proof (up_not_told x Hx) as Hu. rewrite Hu. destruct (conn_told x') eqn:Ht; cbn [andb negb].
    + specialize (Hn Hu). rewrite <-Hx' in Hn. specialize (Hn Ht). cbn [alive_ set_heap].
      destruct (alive_ s) eqn:Ha; [by apply (client_removeConnection_ok s e c nm x x')|].
      apply safe_modify. apply (conn_update s _ c nm x x' PClosed); try done.
      * by left.
      * cbn. apply NoDup_app. split; [apply Hi|]. split; [|apply NoDup_singleton].
        intros ? ? ->%list_elem_of_singleton. by apply Hrest.
      * intros c' Hne. cbn. rewrite elem_of_app, list_elem_of_singleton. naive_solver.
      * unfold standing. cbn. rewrite elem_of_app, list_elem_of_singleton. split; [done|]. split; [auto|].
        by rewrite (proj1 (q_dead s Hi Ha)).
    + apply safe_ret. by apply (conn_stays s c nm x x' PUp).
  - rewrite (closed_told x Hx). rewrite andb_false_r. apply safe_ret. by apply (conn_stays s c nm x x' PClosed).
  - rewrite (gone_told x Hx). rewrite andb_false_r. apply safe_ret. by apply (conn_stays s c nm x x' PGone).
Qed.

Lemma destroy_ok s c q : client_inv s → pending_ s = c :: q →
  safe (st_modify (set_pending q) ;; on_conn c conn_destroyed) s (λ _ s', client_inv s').
Proof.
  intros Hi Hq. pose proof (q_pending s Hi) as [Hnd Hlt]. rewrite Hq in Hnd. apply NoDup_cons in Hnd as [Hc Hnd].
  assert (c ∈ pending_ s) as Hin by (rewrite Hq; left).
  destruct (lookup_lt_is_Some_2 (heap_ s) c (Hlt c Hin)) as [[nm x] Hx].
  destruct (q_conns s Hi c nm x Hx) as [[] Hst]; [by destruct Hst as (_ & [] & _)| |by destruct Hst as (_ & [] & _)].
  safe_step. eapply client_safe_on_conn; [exact Hx|]. eapply safe_mono; [by apply destroyed_spec, Hst|]. intros [] x' Hx'.
  apply (conn_update s _ c nm x x' PGone); try done; [by left| |].
  - intros c' Hne. cbn. rewrite Hq, elem_of_cons. naive_solver.
  - split; [done|]. split; [done|]. apply Hst.
Qed.

(** The end of the client: no connection is its own any more. *)
Lemma dead_inv s : client_inv s → Connector.connect_ (connector_ s) = false ∨ state_ (connector_ s) = kConnected →
  client_inv (MkClient (connector_ s) (retry_ s) (connect_ s) (nextConnId_ s) None (heap_ s) (pending_ s) false).
Proof.
  intros [H1 H2 H3 H4 H5 H6 H7] Hd. split; try done. intros c nm x Hc. destruct (H7 c nm x Hc) as [p Hp].
  exists p. unfold standing in *. cbn. destruct p; naive_solver.
Qed.

(** [shutdown] or [forceClose] of the client's connection. *)
Lemma quiet_ok s c ev : client_inv s → connection_ s = Some c → quiet_event ev s →
  safe (on_conn c (conn_event ev)) s (λ _ s', client_inv s' ∧ state_ (connector_ s') = kConnected).
Proof.
  intros Hi Hc Hf. destruct (lookup_lt_is_Some_2 (heap_ s) c (q_known s Hi c Hc)) as [[nm x] Hx].
  destruct (q_conns s Hi c nm x Hx) as [[] Hst]; [|by destruct Hst as (_ & _ & [])|by destruct Hst as (_ & _ & [])].
  destruct (Hf c nm x Hx) as [Hl Ht]. eapply client_safe_on_conn; [exact Hx|].
  pose proof (event_up ev x (proj1 Hst) Hl) as He. rewrite (up_not_told x (proj1 Hst)) in Ht.
  unfold safe in *. destruct (conn_event ev x) as [[?|[]| |] x']; try done. cbn in Ht. rewrite Ht in He.
  split; [by apply (conn_stays s c nm x x' PUp)|]. apply Hst.
Qed.

Lemma dtor_ok s unique forceClose_ : client_inv s → quiet_event forceClose_ s →
  safe (TcpClient_dtor unique forceClose_) s (λ _ s', client_inv s').
Proof.
  intros Hi Hf. unfold TcpClient_dtor. safe_step. destruct (connection_ s) as [c|] eqn:Hc.
  - destruct unique.
    + eapply safe_mono; [by apply quiet_ok|]. intros [] s' [Hi' Hst]. safe_step. apply (dead_inv s' Hi'). by right.
    + safe_step. apply (dead_inv s Hi). right.
      destruct (lookup_lt_is_Some_2 (heap_ s) c (q_known s Hi c Hc)) as [[nm x] Hx].
      destruct (q_conns s Hi c nm x Hx) as [[] Hst]; [apply Hst|by destruct Hst as (_ & _ & [])|by destruct Hst as (_ & _ & [])].
  - apply safe_connector; [by apply (step_reachable (connector_ s) (q_connector s Hi) CStop)|]. intros [].
    apply safe_modify. apply (dead_inv (set_connector (exec Connector.stop (connector_ s)) s)); [|by left].
    apply (calm_inv s); try done. apply calm_stop, Hi.
Qed.

Lemma exec_modify {A} (f : Connector → Connector) (m : ST Connector A) k : exec (st_modify f ;; m) k = exec m (f k).
Proof. reflexivity. Qed.
Lemma exec_modify_last (f : Connector → Connector) k : exec (st_modify f) k = f k.
Proof. reflexivity. Qed.

Lemma run_kop_ok s o : client_inv s → kop_can o s → kop_contract o s → safe (run_kop name_ o) s (λ _ s', client_inv s').
Proof.
  intros Hi. pose proof (q_connector s Hi) as Hk. assert (∀ b, client_inv (set_connect b s)) as Hflag.
  { intros b. by apply (calm_inv s). }
  destruct o as [e| |sd| |b| | |f l1 l2|e f q|er wr err self peer|e l1 d l2|c ev e|c q|u fc]; intros Hl Hc; cbn [run_kop].
  - destruct Hc as [Ha Hs]. unfold connect. safe_step. eapply (safe_calm _ _ s); try done. rewrite exec_modify, Ha. by apply (calm_start (connector_ s)).
  - unfold stop. safe_step. eapply (safe_calm _ _ s); try done. by apply (calm_stop (connector_ s)).
  - unfold disconnect. safe_step. cbn [connection_ set_connect].
    destruct (connection_ s) as [c|] eqn:Hcn; [|by safe_step].
    eapply safe_mono; [by apply (quiet_ok (set_connect false s) c)|]. by intros [] s' [? _].
  - safe_step. by apply (calm_inv s).
  - safe_step. done.
  - destruct Hc as [Ha Hs]. apply (safe_calm _ _ s); try done. rewrite exec_modify_last, Ha. by apply calm_start_remote.
  - apply (safe_calm _ _ s); try done. rewrite exec_modify_last. by apply calm_stop_remote.
  - apply (safe_calm _ _ s); try done. rewrite exec_modify_last. by apply calm_queue.
  - apply (safe_calm _ _ s); try done. rewrite exec_modify. by apply calm_functor.
  - by apply event_ok.
  - apply (safe_calm _ _ s); try done. rewrite exec_modify. by apply (calm_timer _ Hk _ e l1 d l2).
  - destruct Hl as (nm & x & Hx & Hl & Hn). by apply (client_handle_ok s c ev e nm x).
  - by apply destroy_ok.
  - by apply dtor_ok.
Qed.

Definition kreachable (retry : bool) (s : TcpClient C) : Prop := rtc (kstep name_) (TcpClient_new retry) s.

Lemma kreachable_inv retry s : kreachable retry s → client_inv s.
Proof.
  intros Hr. assert (∀ a, rtc (kstep name_) a s → client_inv a → client_inv s) as H0.
  { clear Hr. induction 1 as [|a b d (o & Hl & Hco & Hrun) _ IH]; [done|]. intros Hi. apply IH.
    pose proof (run_kop_ok a o Hi Hl Hco) as Hs. unfold safe in Hs. by rewrite Hrun in Hs. }
  apply (H0 _ Hr). split; cbn; try done; [apply rtc_refl|]. split; [apply NoDup_nil_2|]. by intros ? ?%not_elem_of_nil.
Qed.

(** C25: A client makes one connection at a time, one for each socket its
    connector hands over.  However the loop, the kernel, the connections and
    its user interleave, as long as the user and the loop keep to the contract
    [kop_contract] (a destroyed client is not called and is destroyed in its
    loop's thread; [connect] is called only when nothing is going on, hence
    never again after a connection that was not retried; no retry timer fires
    before the queued [resetChannel] has run; fewer than 2^31 - 1 connections), no
    assertion fails and nothing is used after its end; the connector stays
    within its own contract; every connection is up, closed
    and waiting for its destruction, or destroyed; the one that is up is the
    last made, is the client's own while the client lives, and keeps the
    connector from trying another.  What happens outside the contract is said by
    [connect_twice_aborts], [reconnect_aborts], [client_early_retry_aborts] and
    [destroyed_client_handed_socket]. *)
Theorem client_owns_one_connection retry s (Hr : kreachable retry s) :
  (∀ o, kop_can o s → kop_contract o s → safe (run_kop name_ o) s (λ _ _, True)) ∧
  contract_reachable (connector_ s) ∧ length (heap_ s) = length (handed_ (connector_ s)) ∧ NoDup (pending_ s) ∧
  ∀ c nm x, heap_ s !! c = Some (nm, x) → ∃ p, standing p c x s.
Proof.
  pose proof (kreachable_inv retry s Hr) as Hi. split.
  { intros o Hl Hc. eapply safe_mono; [by apply run_kop_ok|done]. }
  split; [apply Hi|]. split; [by rewrite (q_handed s Hi)|]. split; [apply Hi|]. apply Hi.
Qed.
End Invariant.

(** ** A run *)
(** With [enableRetry]: connects, the server closes, and it connects again at
    once, before the first connection is destroyed. *)
Definition demo_do (o : kop unit) (s : TcpClient life) : TcpClient life := snd (run_kop s!"c" o s).
Definition demo_up : TcpClient life :=
  demo_do (KFunctor OK FReset []) (demo_do (KEvent false true 0 false s!"10.0.0.1:80") (demo_do (KConnect EINPROGRESS) (TcpClient_new true))).
Definition demo_again : TcpClient life := demo_do (KConn 0 () EINPROGRESS) demo_up.
Definition demo_two : TcpClient life := demo_do (KEvent false true 0 false s!"10.0.0.1:80") demo_again.

Lemma client_demo_do_reachable retry o s :
  kreachable s!"c" retry s → kop_can o s → kop_contract o s → fst (run_kop s!"c" o s) = Ret () →
  kreachable s!"c" retry (demo_do o s).
Proof.
  intros Hr Hl Hc Hf. unfold kreachable. apply (rtc_r _ s); [exact Hr|]. exists o. split; [done|]. split; [done|].
  unfold demo_do. rewrite <-Hf. by destruct (run_kop _ _ _).
Qed.

Ltac demo_side := vm_compute; first [exact I | reflexivity | by repeat split | eexists; reflexivity
  | do 2 eexists; split; [reflexivity|]; split; [reflexivity|]; intros _ _; apply not_elem_of_nil].

Lemma demo_up_reachable : kreachable s!"c" true demo_up.
Proof. repeat (apply client_demo_do_reachable; [|demo_side..]). apply rtc_refl. Qed.

Lemma demo_two_reachable : kreachable s!"c" true demo_two.
Proof.
  do 2 (apply client_demo_do_reachable; [|demo_side..]). apply demo_up_reachable.
Qed.

Lemma client_owns_one_connection_witness :
  heap_ demo_two = [(s!"c:10.0.0.1:80#1", LClosed); (s!"c:10.0.0.1:80#2", LUp)] ∧ connection_ demo_two = Some 1%nat ∧
  ∃ p, standing p 1 LUp demo_two.
Proof.
  split; [vm_compute; reflexivity|]. split; [vm_compute; reflexivity|].
  refine (proj2 (proj2 (proj2 (proj2 (client_owns_one_connection s!"c" true demo_two demo_two_reachable))))
    1%nat s!"c:10.0.0.1:80#2" LUp _). vm_compute. reflexivity.
Defined.

(** ** What the contract excludes *)

(** [connect] while a connection is up. *)
Lemma connect_twice_aborts : kreachable s!"c" true demo_up ∧ kop_can (KConnect EINPROGRESS : kop unit) demo_up ∧
  fst (run_kop s!"c" (KConnect EINPROGRESS) demo_up) = AssertFail.
Proof. split; [apply demo_up_reachable|]. split; [exact I|]. vm_compute. reflexivity. Qed.

(** [connect] after the connection has closed and was destroyed, without
    [enableRetry]: the connector's state is never set back. *)
Definition demo_over : TcpClient life :=
  demo_do (KDestroy 0 []) (demo_do (KConn 0 () EINPROGRESS)
    (demo_do (KFunctor OK FReset []) (demo_do (KEvent false true 0 false s!"10.0.0.1:80") (demo_do (KConnect EINPROGRESS) (TcpClient_new false))))).

Lemma reconnect_aborts : kreachable s!"c" false demo_over ∧ connection_ demo_over = None ∧ pending_ demo_over = [] ∧
  fst (run_kop s!"c" (KConnect EINPROGRESS) demo_over) = AssertFail.
Proof.
  split; [|vm_compute; auto]. repeat (apply client_demo_do_reachable; [|demo_side..]). apply rtc_refl.
Qed.

(** A retry timer that fires in the iteration that set it. *)
Definition demo_refused : TcpClient life :=
  demo_do (KEvent true true 111 false []) (demo_do (KConnect EINPROGRESS) (TcpClient_new true)).

Lemma client_early_retry_aborts : kreachable s!"c" true demo_refused ∧
  kop_can (KTimer EINPROGRESS [] 500 [] : kop unit) demo_refused ∧
  fst (run_kop s!"c" (KTimer EINPROGRESS [] 500 []) demo_refused) = AssertFail.
Proof.
  split; [|split; [vm_compute|]; reflexivity]. repeat (apply client_demo_do_reachable; [|demo_side..]). apply rtc_refl.
Qed.

(** [connect] on a destroyed client sets the connector's flag again: the event
    that follows calls the client that is gone. *)
Definition demo_destroyed : TcpClient life :=
  demo_do (KConnectRemote) (demo_do (KDtor true ()) (demo_do (KConnect EINPROGRESS) (TcpClient_new true))).

Lemma destroyed_client_handed_socket : alive_ demo_destroyed = false ∧
  fst (run_kop s!"c" (KEvent false true 0 false s!"10.0.0.1:80") demo_destroyed) = Undef.
Proof. vm_compute. auto. Qed.

(** ** What the code leaves *)

(** The name of a connection to an IPv6 peer loses its number: 32 characters
    do not hold it. *)
Lemma long_peer_same_name (name_ : bytes) i j :
  connName name_ s!"[2001:db8:85a3:8d3:1319:8a2e:370:7348]:443" i = connName name_ s!"[2001:db8:85a3:8d3:1319:8a2e:370:7348]:443" j.
Proof. reflexivity. Qed.

(** [stop] during [restart]'s wait is kept, but a [stop] before the loop runs
    [removeConnection]'s restart, after the test of [connect_], is lost: the
    restart sets the connector's flag again. *)
Lemma restart_forgets_stop e k : Connector.connect_ (exec (restart (Some e)) (Connector.set_connect false k)) = true.
Proof.
  unfold restart, exec. unfold mbind, ST_bind, st_modify. cbn [fst snd].
  match goal with |- context[startInLoop (Some e) ?s0] => pose proof (startInLoop_keeps (Some e) s0) as Hk; destruct (startInLoop (Some e) s0) as [[| | |] ?] end;
    exact Hk.
Qed.
