(* ===== verification/Date.v ===== *)
(** * Dates (master/base/Date.h, Date.cc)

    A date is its Julian day number.  The conversions compute in [int]: a sum
    or product that leaves it is undefined.  The reference is the Gregorian
    calendar itself: month lengths, leap years, the next day. *)
From S2P Require Import Prelude CxxString.
Local Open Scope Z_scope.

Record YearMonthDay := MkYMD { year : Z; month : Z; day : Z }.

#[export] Instance ymd_eq_dec : EqDecision YearMonthDay.
Proof. solve_decision. Defined.

Definition kDaysPerWeek : Z := 7.

(** All of them fit an [int]. *)
Definition ints (zs : list Z) : outcome unit := defined (forallb (in_sb 32) zs).

Definition getJulianDayNumber (year month day : Z) : outcome Z :=
  let a := Z.quot (14 - month) 12 in
  let y := year + 4800 - a in
  let m := month + 12 * a - 3 in
  let s1 := day + Z.quot (153 * m + 2) 5 in
  let s2 := s1 + y * 365 in
  let s3 := s2 + Z.quot y 4 in
  let s4 := s3 - Z.quot y 100 in
  let s5 := s4 + Z.quot y 400 in
  _ ← ints [14 - month; year + 4800; y; 12 * a; month + 12 * a; m; 153 * m; 153 * m + 2; s1; y * 365; s2; s3; s4; s5;
            s5 - 32045];
  Ret (s5 - 32045).

Definition getYearMonthDay (julianDayNumber : Z) : outcome YearMonthDay :=
  let a := julianDayNumber + 32044 in
  let b := Z.quot (4 * a + 3) 146097 in
  let c := a - Z.quot (b * 146097) 4 in
  let d := Z.quot (4 * c + 3) 1461 in
  let e := c - Z.quot (1461 * d) 4 in
  let m := Z.quot (5 * e + 2) 153 in
  _ ← ints [a; 4 * a; 4 * a + 3; b * 146097; c; 4 * c; 4 * c + 3; 1461 * d; e; 5 * e; 5 * e + 2; 153 * m; 153 * m + 2;
            b * 100; b * 100 + d];
  Ret (MkYMD (b * 100 + d - 4800 + Z.quot m 10)
             (m + 3 - 12 * Z.quot m 10)
             (e - Z.quot (153 * m + 2) 5 + 1)).

Definition kJulianDayOf1970_01_01 : Z := 2440588.

Definition valid (julianDayNumber_ : Z) : bool := 0 <? julianDayNumber_.
Definition weekDay (julianDayNumber_ : Z) : outcome Z :=
  _ ← ints [julianDayNumber_ + 1]; Ret (Z.rem (julianDayNumber_ + 1) kDaysPerWeek).

(** "%4d" and "%02d" of numbers that are not negative. *)
(** [snprintf] into 32 bytes keeps 31 of them. *)
Definition toIsoString (julianDayNumber_ : Z) : outcome bytes :=
  ymd ← getYearMonthDay julianDayNumber_;
  Ret (ztake 31 (dec_pad 4 (year ymd) ++ s!"-" ++ dec_0 2 (month ymd) ++ s!"-" ++ dec_0 2 (day ymd))).

(** ** The Gregorian calendar *)
Definition leap (y : Z) : bool := (y mod 4 =? 0) && negb (y mod 100 =? 0) || (y mod 400 =? 0).

Definition days_in_month (y m : Z) : Z :=
  if m =? 2 then (if leap y then 29 else 28)
  else if (m =? 4) || (m =? 6) || (m =? 9) || (m =? 11) then 30 else 31.

Definition is_date (d : YearMonthDay) : Prop :=
  1 ≤ month d ≤ 12 ∧ 1 ≤ day d ≤ days_in_month (year d) (month d).

Definition next_day (d : YearMonthDay) : YearMonthDay :=
  if day d <? days_in_month (year d) (month d) then MkYMD (year d) (month d) (day d + 1)
  else if month d <? 12 then MkYMD (year d) (month d + 1) 1
  else MkYMD (year d + 1) 1 1.

(** The years for which no [int] overflows: four times the day number fits. *)
Definition year_ok (y : Z) : Prop := -4799 ≤ y ≤ 1465000.

(** ** Arithmetic of the two conversions *)

(** The day number without the checks, months counted from March. *)
Definition jdn (y m d : Z) : Z :=
  let a := if m <=? 2 then 1 else 0 in
  let y' := y + 4800 - a in
  d + (153 * (m + 12 * a - 3) + 2) / 5 + y' * 365 + y' / 4 - y' / 100 + y' / 400 - 32045.

Ltac dlia := Z.to_euclidean_division_equations; lia.

Lemma in_sb32 z : - 2 ^ 31 ≤ z < 2 ^ 31 → in_sb 32 z = true.
Proof. intros Hz. apply in_sb_spec. unfold in_s. change (32 - 1) with 31. done. Qed.

Lemma ints_ok zs : (∀ z, z ∈ zs → - 2 ^ 31 ≤ z < 2 ^ 31) → ints zs = Ret ().
Proof.
  intros Hz. unfold ints. assert (forallb (in_sb 32) zs = true) as ->; [|done].
  apply forallb_forall. intros z Hin. by apply in_sb32, Hz, list_elem_of_In.
Qed.

Ltac ints_step := apply ints_ok; intros ?z ?Hz; repeat (apply elem_of_cons in Hz as [->|Hz]); [lia..|by apply not_elem_of_nil in Hz].

Lemma days_in_month_bounds y m : 1 ≤ m ≤ 12 → 28 ≤ days_in_month y m ≤ 31.
Proof. intros Hm. unfold days_in_month. repeat case_match; lia. Qed.

Lemma month_cases m : 1 ≤ m ≤ 12 →
  m = 1 ∨ m = 2 ∨ m = 3 ∨ m = 4 ∨ m = 5 ∨ m = 6 ∨ m = 7 ∨ m = 8 ∨ m = 9 ∨ m = 10 ∨ m = 11 ∨ m = 12.
Proof. lia. Qed.

Lemma getJulianDayNumber_eq d : is_date d → year_ok (year d) →
  getJulianDayNumber (year d) (month d) (day d) = Ret (jdn (year d) (month d) (day d)).
Proof.
  destruct d as [y m d]. unfold is_date, year_ok. cbn [year month day]. intros [Hm Hd] Hy.
  pose proof (days_in_month_bounds y m Hm) as Hb. unfold getJulianDayNumber, jdn.
  assert (Z.quot (14 - m) 12 = if m <=? 2 then 1 else 0) as ->.
  { case_if; dlia. }
  set (a := if m <=? 2 then 1 else 0). assert (a = 1 ∧ m ≤ 2 ∨ a = 0 ∧ 3 ≤ m) as Ha by (unfold a; case_if; lia).
  clearbody a. cbv zeta. set (y' := y + 4800 - a). assert (0 ≤ y' ≤ 1469800) as Hy' by lia.
  set (m' := m + 12 * a - 3). assert (0 ≤ m' ≤ 11) as Hm' by lia.
  rewrite !Z.quot_div_nonneg by lia.
  assert (0 ≤ y' / 4 ≤ y' ∧ 0 ≤ y' / 100 ≤ y' ∧ 0 ≤ y' / 400 ≤ y') as (? & ? & ?) by dlia.
  assert (0 ≤ (153 * m' + 2) / 5 ≤ 337) by dlia.
  rewrite ints_ok; [done|]. intros z Hz.
  repeat (apply elem_of_cons in Hz as [->|Hz]; [lia|]). by apply not_elem_of_nil in Hz.
Qed.

(** Counted from March: the year [y], the month [m'] and the day of the year
    [n] of a date; a year has its 29 February at the end. *)
Definition march_year (d : YearMonthDay) : Z := year d + 4800 - (if month d <=? 2 then 1 else 0).
Definition march_month (d : YearMonthDay) : Z := if month d <=? 2 then month d + 9 else month d - 3.
Definition march_day (d : YearMonthDay) : Z := day d - 1 + (153 * march_month d + 2) / 5.
Definition year_start (y : Z) : Z := y * 365 + y / 4 - y / 100 + y / 400.

Lemma jdn_march d : is_date d → jdn (year d) (month d) (day d) = march_day d + year_start (march_year d) - 32044.
Proof.
  unfold is_date, jdn, march_day, march_month, march_year, year_start. intros [Hm _].
  destruct (month d <=? 2); [|replace (month d + 12 * 0 - 3) with (month d - 3) by lia; lia].
  replace (month d + 12 * 1 - 3) with (month d + 9) by lia. lia.
Qed.

Lemma march_bounds d : is_date d →
  0 ≤ march_month d ≤ 11 ∧ 0 ≤ march_day d ≤ 365 ∧ (march_day d = 365 → leap (march_year d + 1) = true) ∧
  (153 * march_month d + 2) / 5 ≤ march_day d < (153 * (march_month d + 1) + 2) / 5.
Proof.
  destruct d as [y m dd]. unfold is_date, march_day, march_month, march_year. cbn [year month day].
  intros [Hm Hd]. unfold days_in_month in Hd.
  assert (leap (y + 4800 - 1 + 1) = leap y) as Hl.
  { replace (y + 4800 - 1 + 1) with (y + 12 * 400) by lia. unfold leap.
    rewrite (Z_mod_plus_full y 12 400).
    replace (y + 12 * 400) with (y + 1200 * 4) at 1 by lia. rewrite (Z_mod_plus_full y 1200 4).
    replace (y + 12 * 400) with (y + 48 * 100) by lia. by rewrite (Z_mod_plus_full y 48 100). }
  destruct (month_cases m Hm) as [-> | [-> | [-> | [-> | [-> | [-> | [-> | [-> | [-> | [-> | [-> | ->]]]]]]]]]]];
    cbn in Hd |- *; try (destruct (leap y) eqn:El); (split; [lia|]); (split; [dlia|]); (split; [|dlia]);
    intros He; try (exfalso; dlia); by rewrite Hl.
Qed.

(** The century and the year within it, as [getYearMonthDay] finds them. *)
Lemma century_of y n : 0 ≤ y → 0 ≤ n ≤ 365 → (n = 365 → leap (y + 1) = true) →
  (4 * (n + year_start y) + 3) / 146097 = y / 100 ∧
  n + year_start y - (y / 100 * 146097) / 4 = n + 365 * (y mod 100) + (y mod 100) / 4.
Proof.
  intros Hy Hn Hl. unfold year_start.
  set (b := y / 100). set (r := y mod 100).
  assert (y = 100 * b + r ∧ 0 ≤ r < 100 ∧ 0 ≤ b) as (Eb & Hr & Hb) by (unfold b, r; dlia).
  assert (y / 400 = b / 4) as -> by dlia.
  assert (y / 4 = 25 * b + r / 4) as -> by dlia.
  assert (r = 99 → n = 365 → b mod 4 = 3) as Hlast.
  { intros -> Hn'. specialize (Hl Hn'). unfold leap in Hl.
    assert ((y + 1) mod 100 = 0) as H100 by dlia. rewrite H100 in Hl. cbn in Hl. rewrite andb_false_r in Hl.
    cbn in Hl. apply Z.eqb_eq in Hl. dlia. }
  split; [|dlia]. assert (0 ≤ r / 4 ≤ 24) by dlia. clearbody b r. pose proof (Z.div_mod b 4 ltac:(lia)) as Hb4.
  pose proof (Z.mod_pos_bound b 4 ltac:(lia)).
  symmetry. apply (Z.div_unique _ _ _ (4 * (n + 365 * r + r / 4) + 3 - b mod 4)); [|lia]. left.
  assert (365 * r + r / 4 ≤ 36159) by lia. split; [lia|].
  destruct (decide (r = 99)) as [->|]; [|lia]. change (99 / 4) with 24.
  destruct (decide (n = 365)) as [->|]; [specialize (Hlast eq_refl eq_refl)|]; lia.
Qed.

Lemma year_of r n : 0 ≤ r < 100 → 0 ≤ n ≤ 365 → (n = 365 → r mod 4 = 3) →
  (4 * (n + 365 * r + r / 4) + 3) / 1461 = r ∧ n + 365 * r + r / 4 - (1461 * r) / 4 = n.
Proof.
  intros Hr Hn Hl. split; [|dlia]. symmetry.
  apply (Z.div_unique _ _ _ (4 * n + 3 - r mod 4)); [left|]; dlia.
Qed.

Lemma leap_next y : 0 ≤ y → leap (y + 1) = true → y mod 100 mod 4 = 3.
Proof. intros Hy. unfold leap. intros H. apply orb_prop in H as [H|H]; [apply andb_prop in H as [H _]|]; bool_to_prop; dlia. Qed.

Lemma month_of d : is_date d →
  (5 * march_day d + 2) / 153 = march_month d ∧
  march_day d - (153 * march_month d + 2) / 5 + 1 = day d ∧
  march_month d + 3 - 12 * (march_month d / 10) = month d ∧
  march_year d - 4800 + march_month d / 10 = year d.
Proof.
  intros Hd. pose proof (march_bounds d Hd) as (Hm & Hn & _ & Hb). destruct Hd as [Hmo _].
  split; [dlia|]. unfold march_day in *. split; [lia|].
  unfold march_month, march_year in *. case_if; dlia.
Qed.

Lemma year_start_bounds y : 0 ≤ y → 365 * y ≤ year_start y ≤ 366 * y.
Proof. intros Hy. unfold year_start. dlia. Qed.

Lemma getYearMonthDay_eq d : is_date d → year_ok (year d) →
  getYearMonthDay (jdn (year d) (month d) (day d)) = Ret d.
Proof.
  intros Hd Hy. unfold getYearMonthDay. rewrite jdn_march by done.
  pose proof (march_bounds d Hd) as (Hm & Hn & Hl & _).
  assert (0 ≤ march_year d ≤ 1469800) as Hmy by (unfold march_year, year_ok in *; case_if; lia).
  replace (march_day d + year_start (march_year d) - 32044 + 32044) with (march_day d + year_start (march_year d)) by lia.
  pose proof (year_start_bounds (march_year d) ltac:(lia)) as Hys.
  assert (year_start (march_year d) ≤ 536837000) as Hys' by (unfold year_start; dlia).
  destruct (century_of (march_year d) (march_day d)) as [E1 E2]; [lia|done|done|].
  rewrite (Z.quot_div_nonneg (4 * _ + 3)) by lia. rewrite E1.
  assert (0 ≤ march_year d / 100 ≤ march_year d / 100 * 146097) by dlia.
  rewrite (Z.quot_div_nonneg (march_year d / 100 * 146097)) by lia. rewrite E2. clear E2.
  set (r := march_year d mod 100). assert (0 ≤ r < 100) as Hr by (unfold r; dlia).
  destruct (year_of r (march_day d)) as [E3 E4]; [done|done|by intros He; apply leap_next; [lia|apply Hl]|].
  assert (0 ≤ r / 4 ≤ 24) by dlia.
  rewrite (Z.quot_div_nonneg (4 * _ + 3) 1461) by lia. rewrite E3.
  rewrite (Z.quot_div_nonneg (1461 * r)) by lia. rewrite E4.
  destruct (month_of d Hd) as (E5 & E6 & E7 & E8).
  rewrite (Z.quot_div_nonneg (5 * _ + 2)) by lia. rewrite E5.
  rewrite (Z.quot_div_nonneg (153 * _ + 2)), (Z.quot_div_nonneg (march_month d)) by lia. rewrite E6, E7.
  assert (march_year d = march_year d / 100 * 100 + r) as Er by (unfold r; dlia).
  assert (march_year d / 100 * 146097 ≤ 4 * (march_day d + year_start (march_year d)) + 3) by (rewrite <-E1; dlia).
  clearbody r. rewrite ints_ok.
  - cbv zeta. rewrite <-Er, E8. by destruct d.
  - intros z Hz. repeat (apply elem_of_cons in Hz as [->|Hz]; [lia|]). by apply not_elem_of_nil in Hz.
Qed.

Lemma leap_march y : leap (y + 4800) = leap y.
Proof.
  unfold leap. replace (y + 4800) with (y + 12 * 400) by lia. rewrite (Z_mod_plus_full y 12 400).
  replace (y + 12 * 400) with (y + 1200 * 4) at 1 by lia. rewrite (Z_mod_plus_full y 1200 4).
  replace (y + 12 * 400) with (y + 48 * 100) by lia. by rewrite (Z_mod_plus_full y 48 100).
Qed.

(** A year has 365 or 366 days. *)
Lemma year_start_next y : year_start (y + 1) = year_start y + 365 + (if leap (y + 1) then 1 else 0).
Proof.
  unfold year_start, leap. destruct (((y + 1) mod 4 =? 0) && negb ((y + 1) mod 100 =? 0) || ((y + 1) mod 400 =? 0)) eqn:E.
  - apply orb_prop in E as [E|E]; [apply andb_prop in E as [E E']; apply negb_true_iff in E'|]; bool_to_prop; dlia.
  - apply orb_false_iff in E as [E E2]. apply andb_false_iff in E as [E|E]; [|apply negb_false_iff in E]; bool_to_prop; dlia.
Qed.

Lemma next_day_date d : is_date d → is_date (next_day d).
Proof.
  destruct d as [y m dd]. unfold is_date, next_day. cbn [year month day]. intros [Hm Hd].
  destruct (dd <? days_in_month y m) eqn:E1; [|destruct (m <? 12) eqn:E2]; bool_to_prop; cbn [year month day];
    (split; [lia|]); try lia; [pose proof (days_in_month_bounds y (m + 1))|pose proof (days_in_month_bounds (y + 1) 1)]; lia.
Qed.

(** Evaluate the closed tests and quotients of a concrete month. *)
Ltac eval_closed t := let v := eval vm_compute in t in change t with v.
Ltac month_eval :=
  cbn [year month day]; unfold days_in_month;
  repeat match goal with
  | |- context [Z.leb ?a ?b] => eval_closed (Z.leb a b)
  | |- context [Z.ltb ?a ?b] => eval_closed (Z.ltb a b)
  | |- context [Z.eqb ?a ?b] => eval_closed (Z.eqb a b)
  | |- context [(?a / 5)] => eval_closed (a / 5)
  end; cbn [orb year month day].

Lemma jdn_next d : is_date d →
  jdn (year (next_day d)) (month (next_day d)) (day (next_day d)) = jdn (year d) (month d) (day d) + 1.
Proof.
  intros Hd. rewrite !jdn_march by (done || by apply next_day_date). destruct d as [y m dd].
  pose proof Hd as [Hm Hdd]. unfold next_day. cbn [year month day] in *.
  destruct (dd <? days_in_month y m) eqn:E1; bool_to_prop.
  { unfold march_day, march_month, march_year. cbn [year month day]. lia. }
  assert (dd = days_in_month y m) as -> by lia. clear E1 Hdd Hd.
  unfold march_day, march_month, march_year.
  destruct (month_cases m Hm) as [-> | [-> | [-> | [-> | [-> | [-> | [-> | [-> | [-> | [-> | [-> | ->]]]]]]]]]]];
    month_eval; month_eval; try lia.
  - (* the end of February *)
    replace (y + 4800 - 0) with ((y + 4800 - 1) + 1) by lia. rewrite year_start_next.
    replace (y + 4800 - 1 + 1) with (y + 4800) by lia. rewrite leap_march. destruct (leap y); lia.
  - (* the end of the year *)
    replace (y + 1 + 4800 - 1) with (y + 4800 - 0) by lia. lia.
Qed.

(** ** Every day number is a date *)
Definition day_number (d : YearMonthDay) : Z := jdn (year d) (month d) (day d).

Lemma next_day_year d : year d ≤ year (next_day d).
Proof. unfold next_day. repeat case_if; cbn; lia. Qed.

Lemma day_number_onto j : 0 ≤ j → ∃ d, is_date d ∧ -4799 ≤ year d ∧ day_number d = j.
Proof.
  intros Hj. pattern j. apply natlike_ind; [| |done].
  - exists (MkYMD (-4713) 11 24). done.
  - intros k Hk (d & Hd & Hy & <-). exists (next_day d). split; [by apply next_day_date|].
    pose proof (next_day_year d). split; [lia|]. by apply jdn_next.
Qed.

Lemma day_number_year d : is_date d → -4799 ≤ year d → 365 * (year d + 4799) - 32044 ≤ day_number d.
Proof.
  intros Hd Hy. unfold day_number. rewrite jdn_march by done. pose proof (march_bounds d Hd) as (_ & Hn & _).
  assert (year d + 4799 ≤ march_year d) by (unfold march_year; case_if; lia).
  pose proof (year_start_bounds (march_year d) ltac:(lia)). lia.
Qed.

(** ** Properties *)

(** C32: The two conversions are inverse on the dates of the Gregorian calendar,
    without overflow in any year from -4711 to 1464999, and the day number
    follows the calendar: the next date has the next number, the weekday goes
    round by one. *)
Theorem date_follows_calendar d (Hd : is_date d) (Hy : -4712 < year d < 1465000) :
  ∃ j, getJulianDayNumber (year d) (month d) (day d) = Ret j ∧
    getYearMonthDay j = Ret d ∧
    (let d' := next_day d in
     getJulianDayNumber (year d') (month d') (day d') = Ret (j + 1) ∧ getYearMonthDay (j + 1) = Ret d') ∧
    ∃ w, weekDay j = Ret w ∧ 0 ≤ w < 7 ∧ weekDay (j + 1) = Ret ((w + 1) mod 7).
Proof.
  assert (year_ok (year d)) as Hok by (unfold year_ok; lia).
  assert (year_ok (year (next_day d))) as Hok'.
  { unfold year_ok, next_day. repeat case_if; cbn; lia. }
  pose proof (next_day_date d Hd) as Hd'. exists (day_number d).
  split; [by apply getJulianDayNumber_eq|]. split; [by apply getYearMonthDay_eq|].
  assert (day_number d + 1 = day_number (next_day d)) as -> by (symmetry; by apply jdn_next).
  split; [split; [by apply getJulianDayNumber_eq|by apply getYearMonthDay_eq]|].
  assert (0 < day_number d) as Hpos.
  { pose proof (day_number_year d Hd ltac:(lia)). lia. }
  assert (day_number (next_day d) = day_number d + 1) as -> by (by apply jdn_next).
  assert (day_number d < 540000000) as Hup.
  { unfold day_number. rewrite jdn_march by done. pose proof (march_bounds d Hd) as (_ & Hn & _).
    assert (0 ≤ march_year d ≤ 1469800) by (unfold march_year, year_ok in *; case_if; lia).
    pose proof (year_start_bounds (march_year d) ltac:(lia)). lia. }
  exists ((day_number d + 1) mod 7). unfold weekDay, ints, kDaysPerWeek. cbn [forallb].
  rewrite !in_sb32 by lia. cbn [andb defined]. rewrite !Z.rem_mod_nonneg by lia.
  split; [done|]. split; [apply Z.mod_pos_bound; lia|]. cbn. f_equal. by rewrite Zplus_mod_idemp_l.
Qed.

(** Every day number up to 500 million is the number of exactly the date
    [getYearMonthDay] returns, which is one of the Gregorian calendar. *)
Theorem day_numbers_are_dates j (Hj : 0 ≤ j ≤ 500000000) :
  ∃ d, getYearMonthDay j = Ret d ∧ is_date d ∧ getJulianDayNumber (year d) (month d) (day d) = Ret j.
Proof.
  destruct (day_number_onto j) as (d & Hd & Hy & <-); [lia|]. exists d.
  pose proof (day_number_year d Hd Hy). assert (year_ok (year d)) as Hok by (unfold year_ok; lia).
  split; [by apply getYearMonthDay_eq|]. split; [done|]. by apply getJulianDayNumber_eq.
Qed.

Lemma date_follows_calendar_witness :
  getJulianDayNumber 1970 1 1 = Ret kJulianDayOf1970_01_01 ∧ weekDay kJulianDayOf1970_01_01 = Ret 4 ∧
  getYearMonthDay 2460370 = Ret (MkYMD 2024 2 29) ∧ next_day (MkYMD 2024 2 29) = MkYMD 2024 3 1 ∧
  ∃ j, getJulianDayNumber 2024 2 29 = Ret j.
Proof.
  do 4 (split; [vm_compute; reflexivity|]).
  destruct (date_follows_calendar (MkYMD 2024 2 29)) as (j & H & _); [done|done|]. exists j. exact H.
Defined.

Lemma day_numbers_are_dates_witness : toIsoString 2460370 = Ret s!"2024-02-29" ∧
  ∃ d, getYearMonthDay 2460370 = Ret d ∧ is_date d.
Proof.
  split; [vm_compute; reflexivity|].
  destruct (day_numbers_are_dates 2460370 ltac:(lia)) as (d & H1 & H2 & _). exists d. by split.
Defined.

(** The largest day number whose date [int] arithmetic can compute. *)
Lemma getYearMonthDay_overflow : getYearMonthDay 536838868 = Undef ∧ is_Ret (getYearMonthDay 536838867).
Proof. split; [vm_compute; reflexivity|]. eexists. vm_compute. reflexivity. Qed.
