(* ===== verification/TimeZone.v ===== *)
(** * Time zones (master/base/TimeZone.h, TimeZone.cc)

    A [struct tm] is a record, [tm_zone] the characters it points at.  The zone
    file is parsed from its bytes (or is absent); exceptions derived from
    [std::logic_error] are caught where the code catches them, and the data
    read so far stays.  [std::lower_bound] is the first transition not before
    the sentry, as for any sorted vector.  [gmtime_r] and [timegm] of the C
    library are parameters.  A negative [charcnt] sizes a local array with it:
    that is undefined; memory is taken to suffice otherwise. *)
From stdpp Require Import sorting.
From S2P Require Import Prelude CxxString Endian Date.
Local Open Scope Z_scope.

Record tm := MkTm {
  tm_sec : Z; tm_min : Z; tm_hour : Z; tm_mday : Z; tm_mon : Z; tm_year : Z; tm_wday : Z; tm_yday : Z;
  tm_isdst : bool; tm_gmtoff : Z; tm_zone : bytes;
}.

Record Transition := MkTransition { gmttime : Z; localtime : Z; localtimeIdx : Z }.
Record Localtime := MkLocaltime { gmtOffset : Z; isDst : bool; arrbIdx : Z }.
Record Data := MkData { transitions : list Transition; localtimes : list Localtime; abbreviation : bytes }.

Definition Data_new : Data := MkData [] [] [].
Definition add_localtime (l : Localtime) (d : Data) : Data := MkData (transitions d) (localtimes d ++ [l]) (abbreviation d).
Definition add_transition (t : Transition) (d : Data) : Data := MkData (transitions d ++ [t]) (localtimes d) (abbreviation d).
Definition set_abbreviation (s : bytes) (d : Data) : Data := MkData (transitions d) (localtimes d) s.

Definition kSecondsPerDay : Z := 24 * 60 * 60.

(** ** Reading a zone file *)
Abbreviation parser := (ST (bytes * Data)).

Definition readBytes (n : Z) : parser bytes :=
  lift (defined (0 <=? n)) ;;
  s ← st_get;
  if n <=? zlen s.1 then st_put (zdrop n s.1, s.2) ;; mret (ztake n s.1) else lift (Throw logic_error).

Definition readInt32 : parser Z := b ← readBytes 4; mret (i32 (be_val b)).
Definition readUInt8 : parser Z := b ← readBytes 1; mret (be_val b).

(** [n] times, in order. *)
Fixpoint read_list {A} (p : parser A) (n : nat) : parser (list A) :=
  match n with
  | O => mret []
  | S n' => a ← p; l ← read_list p n'; mret (a :: l)
  end.

Fixpoint read_types (n : nat) : parser unit :=
  match n with
  | O => mret ()
  | S n' =>
      gmtoff ← readInt32;
      isdst ← readUInt8;
      abbrind ← readUInt8;
      st_modify (λ s, (s.1, add_localtime (MkLocaltime gmtoff (negb (isdst =? 0)) abbrind) s.2)) ;;
      read_types n'
  end.

Fixpoint read_transitions (trans local : list Z) : parser unit :=
  match trans, local with
  | t :: trans', localIdx :: local' =>
      s ← st_get;
      l ← lift (or_undef (localtimes s.2 !! Z.to_nat localIdx));
      st_put (s.1, add_transition (MkTransition t (t + gmtOffset l) localIdx) s.2) ;;
      read_transitions trans' local'
  | _, _ => mret ()
  end.

Definition throw (e : exn) : parser unit := lift (Throw e).

(** The body of the [try] block. *)
Definition read_body : parser unit :=
  head ← readBytes 4;
  (if bool_decide (head = s!"TZif") then mret () else throw logic_error) ;;
  version ← readBytes 1;
  reserved ← readBytes 15;
  isgmtcnt ← readInt32;
  isstdcnt ← readInt32;
  leapcnt ← readInt32;
  timecnt ← readInt32;
  typecnt ← readInt32;
  charcnt ← readInt32;
  (if timecnt <? 0 then throw length_error else mret ()) ;;
  trans ← read_list readInt32 (Z.to_nat timecnt);
  local ← read_list readUInt8 (Z.to_nat timecnt);
  read_types (Z.to_nat typecnt) ;;
  read_transitions trans local ;;
  abbrev ← readBytes charcnt;
  st_modify (λ s, (s.1, set_abbreviation abbrev s.2)).

(** [catch (logic_error &e)] *)
Definition is_logic_error (e : exn) : bool :=
  match e with logic_error | length_error | out_of_range | invalid_argument => true | overflow_error | bad_alloc => false end.

Definition readTimeZoneFile (zonefile : option bytes) : outcome (bool * Data) :=
  match zonefile with
  | None => Ret (true, Data_new)
  | Some b =>
      match read_body (b, Data_new) with
      | (Ret _, s) => Ret (true, s.2)
      | (Throw e, s) => if is_logic_error e then Ret (true, s.2) else Throw e
      | (AssertFail, _) => AssertFail
      | (Undef, _) => Undef
      end
  end.

(** [TimeZone]: a pointer to the data or null. *)
Abbreviation TimeZone := (option Data).
Definition valid (z : TimeZone) : bool := match z with Some _ => true | None => false end.

Definition TimeZone_file (zonefile : option bytes) : outcome TimeZone :=
  '(ok, data) ← readTimeZoneFile zonefile; Ret (if (ok : bool) then Some data else None).
Definition TimeZone_fixed (eastOfUtc : Z) (name : bytes) : TimeZone :=
  Some (MkData [] [MkLocaltime eastOfUtc false 0] name).

(** ** The local time type of an instant *)
Definition comp (compareGmt : bool) (lhs rhs : Transition) : bool :=
  if compareGmt then gmttime lhs <? gmttime rhs else localtime lhs <? localtime rhs.
Definition equal (compareGmt : bool) (lhs rhs : Transition) : bool :=
  if compareGmt then gmttime lhs =? gmttime rhs else localtime lhs =? localtime rhs.

(** The transitions before the lower bound and from it. *)
Fixpoint lower_bound (c : bool) (sentry : Transition) (l : list Transition) : list Transition * list Transition :=
  match l with
  | [] => ([], [])
  | x :: l' => if comp c x sentry then (let r := lower_bound c sentry l' in (x :: r.1, r.2)) else ([], l)
  end.

Definition nth_localtime (d : Data) (t : Transition) : outcome Localtime :=
  or_undef (localtimes d !! Z.to_nat (localtimeIdx t)).

Definition findLocaltime (data : Data) (sentry : Transition) (c : bool) : outcome Localtime :=
  match transitions data with
  | [] => or_undef (head (localtimes data))
  | front :: _ =>
      if comp c sentry front then or_undef (head (localtimes data))
      else
        let r := lower_bound c sentry (transitions data) in
        match r.2 with
        | transI :: _ =>
            if equal c sentry transI then nth_localtime data transI
            else
              _ ← assert_ (match r.1 with [] => false | _ => true end);
              t ← or_undef (last r.1);
              nth_localtime data t
        | [] => t ← or_undef (last (transitions data)); nth_localtime data t
        end
  end.

(** ** UTC *)
Definition fillHMS (seconds : Z) : Z * Z * Z :=
  (Z.rem seconds 60, Z.rem (Z.quot seconds 60) 60, Z.quot (Z.quot seconds 60) 60).

Definition toUtcTime (secondsSinceEpoch : Z) (yday : bool) : outcome tm :=
  let seconds := i32 (Z.rem secondsSinceEpoch kSecondsPerDay) in
  let days := i32 (Z.quot secondsSinceEpoch kSecondsPerDay) in
  let seconds' := if seconds <? 0 then seconds + kSecondsPerDay else seconds in
  let days' := if seconds <? 0 then days - 1 else days in
  _ ← ints [days'; days' + kJulianDayOf1970_01_01];
  let date := days' + kJulianDayOf1970_01_01 in
  ymd ← getYearMonthDay date;
  wday ← weekDay date;
  yd ← (if yday then startOfYear ← getJulianDayNumber (year ymd) 1 1; Ret (date - startOfYear) else Ret 0);
  let '(s, m, h) := fillHMS seconds' in
  Ret (MkTm s m h (day ymd) (month ymd - 1) (year ymd - 1900) wday yd false 0 s!"GMT").

Definition fromUtcTime (year month day hour minute seconds : Z) : outcome Z :=
  date ← getJulianDayNumber year month day;
  _ ← ints [hour * 3600; minute * 60; hour * 3600 + minute * 60; hour * 3600 + minute * 60 + seconds;
            date - kJulianDayOf1970_01_01];
  Ret ((date - kJulianDayOf1970_01_01) * kSecondsPerDay + (hour * 3600 + minute * 60 + seconds)).

Definition fromUtcTime_tm (utc : tm) : outcome Z :=
  fromUtcTime (tm_year utc + 1900) (tm_mon utc + 1) (tm_mday utc) (tm_hour utc) (tm_min utc) (tm_sec utc).

(** ** Local time *)
Section Local.
Context (gmtime : Z → tm) (timegm : tm → Z).

(** [&data.abbreviation[i]] *)
Definition zone_name (d : Data) (i : Z) : outcome bytes :=
  _ ← defined ((0 <=? i) && (i <=? zlen (abbreviation d))); Ret (zdrop i (abbreviation d)).

Definition toLocalTime (z : TimeZone) (seconds : Z) : outcome tm :=
  _ ← assert_ (valid z);
  data ← or_undef z;
  local ← findLocaltime data (MkTransition seconds 0 0) true;
  _ ← defined (in_sb 64 (seconds + gmtOffset local));
  zone ← zone_name data (arrbIdx local);
  let t := gmtime (seconds + gmtOffset local) in
  Ret (MkTm (tm_sec t) (tm_min t) (tm_hour t) (tm_mday t) (tm_mon t) (tm_year t) (tm_wday t) (tm_yday t)
            (isDst local) (gmtOffset local) zone).

Definition fromLocalTime (z : TimeZone) (localTm : tm) : outcome Z :=
  _ ← assert_ (valid z);
  data ← or_undef z;
  let seconds := timegm localTm in
  local ← findLocaltime data (MkTransition 0 seconds 0) false;
  seconds' ← (if tm_isdst localTm then
                tryTm ← toLocalTime z (seconds - gmtOffset local);
                Ret (if negb (tm_isdst tryTm) && (tm_hour tryTm =? tm_hour localTm) && (tm_min tryTm =? tm_min localTm)
                     then seconds - 3600 else seconds)
              else Ret seconds);
  Ret (seconds' - gmtOffset local).
End Local.

(** ** The UTC conversions *)

(** From the year -4713 to past the year 1360000. *)
Definition utc_range (t : Z) : Prop := 0 ≤ t / kSecondsPerDay + kJulianDayOf1970_01_01 ≤ 500000000.

Lemma split_day t : utc_range t →
  let seconds := i32 (Z.rem t kSecondsPerDay) in
  let days := i32 (Z.quot t kSecondsPerDay) in
  (if seconds <? 0 then seconds + kSecondsPerDay else seconds) = t mod kSecondsPerDay ∧
  (if seconds <? 0 then days - 1 else days) = t / kSecondsPerDay.
Proof.
  unfold utc_range, kJulianDayOf1970_01_01. change kSecondsPerDay with 86400. intros Ht. change kSecondsPerDay with 86400 in Ht.
  rewrite !i32_small by dlia. cbv zeta. case_if; dlia.
Qed.

Lemma fillHMS_eq s : 0 ≤ s → fillHMS s = (s mod 60, (s / 60) mod 60, s / 3600).
Proof.
  intros Hs. unfold fillHMS. assert (0 ≤ s / 60) by dlia.
  rewrite !Z.rem_mod_nonneg, !Z.quot_div_nonneg, Z.div_div by (rewrite ?Z.quot_div_nonneg by lia; lia).
  done.
Qed.

Lemma yday_range d : is_date d → -4799 ≤ year d →
  0 ≤ day_number d - day_number (MkYMD (year d) 1 1) ≤ 365.
Proof.
  intros Hd Hy. unfold day_number. assert (is_date (MkYMD (year d) 1 1)) as H1 by (split; cbn; lia).
  rewrite (jdn_march _ Hd), (jdn_march _ H1). pose proof (march_bounds d Hd) as (Hm & Hn & _ & Hb).
  destruct Hd as [Hmo _]. unfold march_year, march_day, march_month in *. cbn [year month day] in *.
  change (1 <=? 2) with true. cbv iota. change ((153 * (1 + 9) + 2) / 5) with 306.
  destruct (month d <=? 2) eqn:E; bool_to_prop; [dlia|].
  replace (year d + 4800 - 0) with (year d + 4800 - 1 + 1) by lia. rewrite year_start_next.
  destruct (leap _); dlia.
Qed.

Lemma time_of_day t :
  (t mod kSecondsPerDay) mod 60 = t mod 60 ∧ (t mod kSecondsPerDay / 60) mod 60 = (t / 60) mod 60 ∧
  t mod kSecondsPerDay / 3600 = (t / 3600) mod 24.
Proof. change kSecondsPerDay with 86400. dlia. Qed.

(** The instant [t] and what [toUtcTime] makes of it. *)
Record utc_of (t : Z) (d : YearMonthDay) (yd : Z) (utc : tm) : Prop := {
  utc_date : is_date d;
  utc_years : year_ok (year d);
  utc_day : day_number d = t / kSecondsPerDay + kJulianDayOf1970_01_01;
  utc_yday : yd = day_number d - day_number (MkYMD (year d) 1 1);
  utc_eq : utc = MkTm (t mod 60) ((t / 60) mod 60) ((t / 3600) mod 24) (day d) (month d - 1) (year d - 1900)
    ((day_number d + 1) mod 7) yd false 0 s!"GMT";
}.

Lemma toUtcTime_eq t : utc_range t →
  ∃ d yd utc, toUtcTime t true = Ret utc ∧ utc_of t d yd utc.
Proof.
  intros Ht. destruct (split_day t Ht) as [Es Ed]. unfold toUtcTime. cbv zeta. rewrite Es, Ed.
  set (j := t / kSecondsPerDay + kJulianDayOf1970_01_01). destruct (day_number_onto j) as (d & Hd & Hy & Hj).
  { unfold j, utc_range in *. lia. }
  pose proof (day_number_year d Hd Hy) as Hb. assert (j ≤ 500000000) as Hj' by (unfold j, utc_range in *; lia).
  assert (year_ok (year d)) as Hok by (unfold year_ok; lia).
  exists d, (j - day_number (MkYMD (year d) 1 1)). eexists.
  assert (0 ≤ j) by (unfold j, utc_range in *; lia).
  rewrite ints_ok. 2:{ intros z Hz. unfold kJulianDayOf1970_01_01 in *.
    repeat (apply elem_of_cons in Hz as [->|Hz]; [unfold j in *; lia|]). by apply not_elem_of_nil in Hz. }
  cbn [mbind outcome_bind]. fold j. assert (getYearMonthDay j = Ret d) as -> by (rewrite <-Hj; by apply getYearMonthDay_eq). cbn [mbind outcome_bind].
  unfold weekDay, kDaysPerWeek, ints at 1. cbn [forallb]. rewrite in_sb32 by lia. cbn [andb defined mbind outcome_bind].
  assert (is_date (MkYMD (year d) 1 1)) as H1 by (split; cbn; lia).
  pose proof (getJulianDayNumber_eq _ H1 Hok) as HJ. cbn [year month day] in HJ. rewrite HJ. cbn [mbind outcome_bind].
  rewrite fillHMS_eq by (change kSecondsPerDay with 86400; dlia).
  split; [reflexivity|]. split; [exact Hd|exact Hok|exact Hj|by rewrite Hj|].
  destruct (time_of_day t) as (-> & -> & ->). by rewrite Z.rem_mod_nonneg, Hj by lia.
Qed.

Lemma toUtcTime_yday t : utc_range t → ∃ utc, toUtcTime t false = Ret (MkTm (tm_sec utc) (tm_min utc) (tm_hour utc)
    (tm_mday utc) (tm_mon utc) (tm_year utc) (tm_wday utc) 0 false 0 s!"GMT") ∧ toUtcTime t true = Ret utc.
Proof.
  intros Ht. destruct (toUtcTime_eq t Ht) as (d & yd & utc & He & _). exists utc. split; [|done].
  revert He. unfold toUtcTime. cbv zeta.
  destruct (ints _) as [[]| | |]; [|done..]. cbn [mbind outcome_bind].
  destruct (getYearMonthDay _) as [ymd| | |]; [|done..]. cbn [mbind outcome_bind].
  destruct (weekDay _) as [w| | |]; [|done..]. cbn [mbind outcome_bind].
  destruct (getJulianDayNumber _ _ _) as [y0| | |]; [|done..]. cbn [mbind outcome_bind].
  destruct (fillHMS _) as [[s m] h]. by intros [= <-].
Qed.

Lemma fromUtcTime_eq d h m s :
  is_date d → year_ok (year d) → 0 ≤ h < 24 → 0 ≤ m < 60 → 0 ≤ s < 60 →
  fromUtcTime (year d) (month d) (day d) h m s =
    Ret ((day_number d - kJulianDayOf1970_01_01) * kSecondsPerDay + (h * 3600 + m * 60 + s)).
Proof.
  intros Hd Hy Hh Hm Hs. unfold fromUtcTime. rewrite getJulianDayNumber_eq by done. cbn [mbind outcome_bind].
  rewrite ints_ok; [done|]. pose proof (march_bounds d Hd) as (_ & Hn & _).
  assert (-32044 ≤ day_number d ≤ 540000000).
  { unfold day_number. rewrite jdn_march by done.
    assert (0 ≤ march_year d ≤ 1469800) by (unfold march_year, year_ok in *; case_if; lia).
    pose proof (year_start_bounds (march_year d) ltac:(lia)). lia. }
  unfold day_number, kJulianDayOf1970_01_01 in *. intros z Hz.
  repeat (apply elem_of_cons in Hz as [->|Hz]; [lia|]). by apply not_elem_of_nil in Hz.
Qed.

Lemma utc_inverse t utc : utc_range t → toUtcTime t true = Ret utc → fromUtcTime_tm utc = Ret t.
Proof.
  intros Ht. destruct (toUtcTime_eq t Ht) as (d & yd & u & -> & [Hd Hy Hj Hyd ->]). intros [= <-].
  unfold fromUtcTime_tm. cbn [tm_sec tm_min tm_hour tm_mday tm_mon tm_year].
  replace (year d - 1900 + 1900) with (year d) by lia. replace (month d - 1 + 1) with (month d) by lia.
  assert (day_number d - kJulianDayOf1970_01_01 = t / kSecondsPerDay) as Hdays by lia.
  rewrite fromUtcTime_eq by (done || (apply Z.mod_pos_bound; lia)). rewrite Hdays. f_equal.
  clear. change kSecondsPerDay with 86400. dlia.
Qed.

(** [toUtcTime] and [fromUtcTime] are inverse, from the year -4713 on and
    for negative times too: the broken-down time lies in its ranges, its date
    is a date of the calendar, the day of the year counts from 1 January, and
    turning it back gives the instant. *)
Theorem utc_round_trip t (Ht : utc_range t) :
  ∃ utc, toUtcTime t true = Ret utc ∧ fromUtcTime_tm utc = Ret t ∧
    0 ≤ tm_sec utc < 60 ∧ 0 ≤ tm_min utc < 60 ∧ 0 ≤ tm_hour utc < 24 ∧
    is_date (MkYMD (tm_year utc + 1900) (tm_mon utc + 1) (tm_mday utc)) ∧
    0 ≤ tm_yday utc ≤ 365 ∧ 0 ≤ tm_wday utc < 7 ∧
    fromUtcTime (tm_year utc + 1900) 1 1 0 0 0 = Ret (t - t mod kSecondsPerDay - tm_yday utc * kSecondsPerDay).
Proof.
  destruct (toUtcTime_eq t Ht) as (d & yd & utc & He & [Hd Hy Hj Hyd ->]). eexists. split; [exact He|].
  pose proof (yday_range d Hd) as Hr.
  assert (-4799 ≤ year d) as Hy' by (by destruct Hy).
  unfold fromUtcTime_tm. cbn [tm_sec tm_min tm_hour tm_mday tm_mon tm_year tm_wday tm_yday].
  replace (year d - 1900 + 1900) with (year d) by lia. replace (month d - 1 + 1) with (month d) by lia.
  assert (is_date (MkYMD (year d) 1 1)) as H1 by (split; cbn; lia).
  pose proof (fromUtcTime_eq _ 0 0 0 H1 Hy ltac:(lia) ltac:(lia) ltac:(lia)) as HJ. cbn [year month day] in HJ.
  assert (day_number d - kJulianDayOf1970_01_01 = t / kSecondsPerDay) as Hdays by lia.
  split; [|split; [|split; [|split; [|split; [by destruct d|split; [lia|split]]]]]].
  2-4: apply Z.mod_pos_bound; lia.
  - apply utc_inverse in He; [|done]. unfold fromUtcTime_tm in He. cbn [tm_sec tm_min tm_hour tm_mday tm_mon tm_year] in He.
    replace (year d - 1900 + 1900) with (year d) in He by lia. by replace (month d - 1 + 1) with (month d) in He by lia.
  - apply Z.mod_pos_bound. lia.
  - rewrite HJ, Hyd. f_equal. change kSecondsPerDay with 86400 in *. dlia.
Qed.

Lemma utc_round_trip_witness :
  toUtcTime (-1) true = Ret (MkTm 59 59 23 31 11 69 3 364 false 0 s!"GMT") ∧
  ∃ utc, toUtcTime (-1) true = Ret utc ∧ fromUtcTime_tm utc = Ret (-1).
Proof.
  split; [vm_compute; reflexivity|].
  destruct (utc_round_trip (-1)) as (utc & H1 & H2 & _); [vm_compute; by split|]. exists utc. by split.
Defined.

(** ** The type in force at an instant *)
Definition key (c : bool) (t : Transition) : Z := if c then gmttime t else localtime t.

Lemma comp_key c a b : comp c a b = (key c a <? key c b).
Proof. by destruct c. Qed.
Lemma equal_key c a b : equal c a b = (key c a =? key c b).
Proof. by destruct c. Qed.

Definition ordered (c : bool) (l : list Transition) : Prop := StronglySorted (λ a b, key c a < key c b) l.

(** The zone's data as a proper zone file gives it. *)
Record data_ok (d : Data) : Prop := {
  d_gmt : ordered true (transitions d);
  d_local : ordered false (transitions d);
  d_types t : t ∈ transitions d → ∃ l, nth_localtime d t = Ret l ∧ localtime t = gmttime t + gmtOffset l;
  d_names l : l ∈ localtimes d → 0 ≤ arrbIdx l ≤ zlen (abbreviation d) ∧ - 2 ^ 31 ≤ gmtOffset l < 2 ^ 31;
}.

(** [tr] is the last transition not after [s]. *)
Definition last_before (c : bool) (d : Data) (s : Z) (l1 : list Transition) (tr : Transition) (l2 : list Transition) : Prop :=
  transitions d = l1 ++ tr :: l2 ∧ key c tr ≤ s ∧ ∀ x, head l2 = Some x → s < key c x.

Lemma ordered_app c l1 x l2 : ordered c (l1 ++ x :: l2) → ∀ y, y ∈ l1 → key c y < key c x.
Proof.
  intros Hs y Hy. apply StronglySorted_app in Hs as (H & _ & _). apply H; [done|left].
Qed.

Lemma lower_bound_app c sentry l1 l2 :
  (∀ x, x ∈ l1 → key c x < key c sentry) → (∀ x, head l2 = Some x → key c sentry ≤ key c x) →
  lower_bound c sentry (l1 ++ l2) = (l1, l2).
Proof.
  intros H1 H2. induction l1 as [|x l1 IH]; cbn [app lower_bound].
  - destruct l2 as [|y l2]; [done|]. cbn. rewrite comp_key.
    rewrite (proj2 (Z.ltb_ge _ _)); [done|by apply H2].
  - rewrite comp_key, (proj2 (Z.ltb_lt _ _)) by (apply H1; left).
    rewrite IH; [done|]. intros y Hy. apply H1. by right.
Qed.

(** [findLocaltime] finds the type of the last transition not after the
    sentry, and the first type before all transitions. *)
Lemma findLocaltime_eq c d sentry l1 tr l2 :
  ordered c (transitions d) → last_before c d (key c sentry) l1 tr l2 →
  findLocaltime d sentry c = nth_localtime d tr.
Proof.
  intros Hs (Ht & Hle & Hnext). unfold findLocaltime. rewrite Ht in *.
  assert (∀ y, y ∈ l1 → key c y < key c tr) as Hl1 by (by apply (ordered_app c l1 tr l2)).
  assert (∀ f l, l1 ++ tr :: l2 = f :: l → comp c sentry f = false) as Hfront.
  { intros f l Hf. rewrite comp_key. apply Z.ltb_ge. destruct l1 as [|x l1]; injection Hf as -> _; [done|].
    specialize (Hl1 f ltac:(left)). lia. }
  assert (∃ f l, l1 ++ tr :: l2 = f :: l) as (f & l & El) by (destruct l1; eauto).
  rewrite El. rewrite (Hfront f l El), <-El.
  destruct (decide (key c tr = key c sentry)) as [Heq|Hne].
  - rewrite (lower_bound_app c sentry l1 (tr :: l2)).
    + cbn [fst snd]. by rewrite equal_key, Heq, Z.eqb_refl.
    + intros x Hx. specialize (Hl1 x Hx). lia.
    + intros x [= <-]. lia.
  - replace (l1 ++ tr :: l2) with ((l1 ++ [tr]) ++ l2) by by rewrite <-app_assoc.
    rewrite (lower_bound_app c sentry (l1 ++ [tr]) l2).
    + cbn [fst snd]. destruct l2 as [|x l2].
      * by rewrite app_nil_r, last_snoc.
      * specialize (Hnext x eq_refl). rewrite equal_key, (proj2 (Z.eqb_neq _ _)) by lia. rewrite last_snoc.
        by destruct l1.
    + intros x [Hx| ->%list_elem_of_singleton]%elem_of_app; [specialize (Hl1 x Hx)|]; lia.
    + intros x Hx. specialize (Hnext x Hx). lia.
Qed.

Lemma findLocaltime_first c d sentry :
  (∀ x, head (transitions d) = Some x → key c sentry < key c x) →
  findLocaltime d sentry c = or_undef (head (localtimes d)).
Proof.
  intros Hf. unfold findLocaltime. destruct (transitions d) as [|x l]; [done|].
  by rewrite comp_key, (proj2 (Z.ltb_lt _ _)) by by apply Hf.
Qed.

(** ** Local times *)
Definition same_clock (u v : tm) : Prop :=
  tm_sec u = tm_sec v ∧ tm_min u = tm_min v ∧ tm_hour u = tm_hour v ∧ tm_mday u = tm_mday v ∧
  tm_mon u = tm_mon v ∧ tm_year u = tm_year v.

(** What is relied on of the C library: [timegm] undoes [gmtime_r]. *)
Definition timegm_inverse (gmtime : Z → tm) (timegm : tm → Z) : Prop :=
  ∀ s u, utc_range s → same_clock u (gmtime s) → timegm u = s.

Section Round.
Context (gmtime : Z → tm) (timegm : tm → Z) (Hinv : timegm_inverse gmtime timegm).

Lemma utc_range_small t : utc_range t → - 2 ^ 62 ≤ t < 2 ^ 62.
Proof. unfold utc_range, kJulianDayOf1970_01_01. change kSecondsPerDay with 86400. dlia. Qed.

Lemma nth_in d tr l : nth_localtime d tr = Ret l → l ∈ localtimes d.
Proof.
  unfold nth_localtime. destruct (localtimes d !! _) as [l0|] eqn:E; [|done]. intros [= ->].
  by eapply list_elem_of_lookup_2.
Qed.

(** The broken-down local time of [t] under the type [l]. *)
Definition local_tm (d : Data) (l : Localtime) (t : Z) : tm :=
  let u := gmtime (t + gmtOffset l) in
  MkTm (tm_sec u) (tm_min u) (tm_hour u) (tm_mday u) (tm_mon u) (tm_year u) (tm_wday u) (tm_yday u)
       (isDst l) (gmtOffset l) (zdrop (arrbIdx l) (abbreviation d)).

Lemma toLocalTime_eq d t l :
  data_ok d → utc_range t → findLocaltime d (MkTransition t 0 0) true = Ret l → l ∈ localtimes d →
  toLocalTime gmtime (Some d) t = Ret (local_tm d l t).
Proof.
  intros Hok Ht Hf Hl. unfold toLocalTime. cbn [valid assert_ mbind outcome_bind or_undef from_option].
  rewrite Hf. cbn [mbind outcome_bind]. destruct (d_names _ Hok l Hl) as [Hi Ho].
  pose proof (utc_range_small t Ht). rewrite (proj2 (in_sb_spec 64 _)) by (unfold in_s; lia).
  cbn [defined mbind outcome_bind]. unfold zone_name.
  rewrite (proj2 (Z.leb_le 0 _)), (proj2 (Z.leb_le _ (zlen _))) by lia. done.
Qed.

Lemma timegm_local d l t : utc_range (t + gmtOffset l) → timegm (local_tm d l t) = t + gmtOffset l.
Proof. intros Ht. by apply Hinv. Qed.

(** The local time of [t] is not seen again before the next transition. *)
Definition unambiguous (t : Z) (l : Localtime) (l2 : list Transition) : Prop :=
  ∀ x, head l2 = Some x → t + gmtOffset l < localtime x.

(** [t] is in the hour that daylight saving's end repeats. *)
Definition repeated_hour (d : Data) (t : Z) (l : Localtime) (l2 : list Transition) : Prop :=
  ∃ nx l3 l', l2 = nx :: l3 ∧ isDst l = true ∧ nth_localtime d nx = Ret l' ∧ isDst l' = false ∧
    gmtOffset l' = gmtOffset l - 3600 ∧ localtime nx ≤ t + gmtOffset l ∧
    (∀ y, head l3 = Some y → t + 3600 < gmttime y ∧ t + gmtOffset l < localtime y).

Lemma local_unambiguous d t l1 tr l2 l :
  data_ok d → utc_range t → utc_range (t + gmtOffset l) →
  last_before true d t l1 tr l2 → nth_localtime d tr = Ret l → unambiguous t l l2 →
  fromLocalTime gmtime timegm (Some d) (local_tm d l t) = Ret t.
Proof.
  intros Hok Ht HL Hlb Hn Hu. pose proof (nth_in _ _ _ Hn) as Hl. pose proof Hlb as (Htr & Hle & _).
  assert (findLocaltime d (MkTransition t 0 0) true = Ret l) as Hf.
  { rewrite <-Hn. by apply (findLocaltime_eq true d _ l1 tr l2); [apply Hok|]. }
  destruct (d_types _ Hok tr) as (l0 & Hl0 & Hloc); [rewrite Htr; apply elem_of_app; right; left|].
  rewrite Hn in Hl0. injection Hl0 as <-. cbn in Hle.
  unfold fromLocalTime. cbn [valid assert_ mbind outcome_bind or_undef from_option]. rewrite timegm_local by done.
  rewrite (findLocaltime_eq false d _ l1 tr l2); [|apply Hok|].
  2:{ split; [done|]. cbn. split; [lia|]. intros x Hx. by apply Hu. }
  rewrite Hn. cbn [mbind outcome_bind].
  change (tm_isdst (local_tm d l t)) with (isDst l). destruct (isDst l) eqn:Ed.
  - replace (t + gmtOffset l - gmtOffset l) with t by lia. rewrite (toLocalTime_eq d t l) by done.
    cbn [mbind outcome_bind]. change (tm_isdst (local_tm d l t)) with (isDst l). rewrite Ed.
    cbn [negb andb mbind outcome_bind]. f_equal. lia.
  - cbn [mbind outcome_bind]. f_equal. lia.
Qed.

Lemma local_repeated d t l1 tr l2 l :
  data_ok d → utc_range (t + 3600) → utc_range (t + gmtOffset l) →
  last_before true d t l1 tr l2 → repeated_hour d t l l2 →
  fromLocalTime gmtime timegm (Some d) (local_tm d l t) = Ret t.
Proof.
  intros Hok Ht HL (Htr & Hle & _) (nx & l3 & l' & -> & Hd & Hn & Hd' & Ho & Hloc & Hnext).
  pose proof (nth_in _ _ _ Hn) as Hl'.
  destruct (d_types _ Hok nx) as (l0 & Hl0 & Hg).
  { rewrite Htr. apply elem_of_app. right. right. left. }
  rewrite Hn in Hl0. injection Hl0 as <-.
  assert (transitions d = (l1 ++ [tr]) ++ nx :: l3) as Htr' by (by rewrite Htr, <-app_assoc).
  assert (findLocaltime d (MkTransition (t + 3600) 0 0) true = Ret l') as Hf.
  { rewrite <-Hn. apply (findLocaltime_eq true d _ (l1 ++ [tr]) nx l3); [apply Hok|].
    split; [done|]. cbn. split; [lia|]. intros x Hx. by apply Hnext. }
  unfold fromLocalTime. cbn [valid assert_ mbind outcome_bind or_undef from_option]. rewrite timegm_local by done.
  rewrite (findLocaltime_eq false d _ (l1 ++ [tr]) nx l3); [|apply Hok|].
  2:{ split; [done|]. cbn. split; [lia|]. intros x Hx. by apply Hnext. }
  rewrite Hn. cbn [mbind outcome_bind].
  change (tm_isdst (local_tm d l t)) with (isDst l). rewrite Hd.
  replace (t + gmtOffset l - gmtOffset l') with (t + 3600) by lia. rewrite (toLocalTime_eq d (t + 3600) l') by done.
  cbn [mbind outcome_bind local_tm tm_isdst tm_hour tm_min]. rewrite Hd'.
  replace (t + 3600 + gmtOffset l') with (t + gmtOffset l) by lia. rewrite !Z.eqb_refl.
  cbn [negb andb mbind outcome_bind]. f_equal. lia.
Qed.
End Round.

(** C33: With a C library whose [timegm] undoes [gmtime_r], [fromLocalTime] undoes
    [toLocalTime]: at any instant after the zone's first transition whose local
    time has not yet been reached by the next one, and also in the hour that
    the end of daylight saving repeats; the local time carries the type of the
    last transition. *)
Theorem local_time_round_trip (gmtime : Z → tm) (timegm : tm → Z) (Hinv : timegm_inverse gmtime timegm)
    d t l1 tr l2 l (Hok : data_ok d)
    (Ht : utc_range t ∧ utc_range (t + 3600) ∧ utc_range (t + gmtOffset l))
    (Hlast : last_before true d t l1 tr l2) (Hn : nth_localtime d tr = Ret l)
    (Hu : unambiguous t l l2 ∨ repeated_hour d t l l2) :
  ∃ u, toLocalTime gmtime (Some d) t = Ret u ∧ tm_isdst u = isDst l ∧ tm_gmtoff u = gmtOffset l ∧
    same_clock u (gmtime (t + gmtOffset l)) ∧ fromLocalTime gmtime timegm (Some d) u = Ret t.
Proof.
  destruct Ht as (H1 & H2 & H3). exists (local_tm gmtime d l t).
  assert (findLocaltime d (MkTransition t 0 0) true = Ret l) as Hf.
  { rewrite <-Hn. by apply (findLocaltime_eq true d _ l1 tr l2); [apply Hok|]. }
  split; [apply toLocalTime_eq; [done|done|done|by eapply nth_in]|].
  split; [done|]. split; [done|]. split; [done|].
  destruct Hu as [Hu|Hu]; [by eapply local_unambiguous|by eapply local_repeated].
Qed.

(** The library's two functions, by this file's own. *)
Definition demo_gmtime (s : Z) : tm :=
  match toUtcTime s true with Ret u => u | _ => MkTm 0 0 0 1 0 70 4 0 false 0 s!"GMT" end.
Definition demo_timegm (u : tm) : Z := match fromUtcTime_tm u with Ret s => s | _ => -1 end.

Lemma demo_inverse : timegm_inverse demo_gmtime demo_timegm.
Proof.
  intros s u Hs (E1 & E2 & E3 & E4 & E5 & E6). unfold demo_gmtime in *. unfold demo_timegm.
  destruct (toUtcTime_eq s Hs) as (d & yd & utc & He & _). rewrite He in *. pose proof (utc_inverse s utc Hs He) as Hi.
  unfold fromUtcTime_tm in *. by rewrite E1, E2, E3, E4, E5, E6, Hi.
Qed.

(** Zurich in 2024: standard time, then summer time from 31 March, 01:00 UTC, to
    27 October, 01:00 UTC. *)
Definition zurich : Data := MkData
  [MkTransition 1698541200 1698544800 0; MkTransition 1711846800 1711854000 1; MkTransition 1729990800 1729994400 0]
  [MkLocaltime 3600 false 0; MkLocaltime 7200 true 4] (s!"CET" ++ [Z_byte 0] ++ s!"CEST" ++ [Z_byte 0]).

Lemma zurich_ok : data_ok zurich.
Proof.
  split.
  - repeat constructor.
  - repeat constructor.
  - intros t Ht. repeat (apply elem_of_cons in Ht as [->|Ht]; [eexists; by split|]). by apply not_elem_of_nil in Ht.
  - intros l Hl. repeat (apply elem_of_cons in Hl as [->|Hl]; [done|]). by apply not_elem_of_nil in Hl.
Qed.

Lemma zurich_ranges : utc_range 1729989000 ∧ utc_range (1729989000 + 3600) ∧ utc_range (1729989000 + 7200).
Proof. unfold utc_range. vm_compute. repeat split; discriminate. Qed.

Lemma zurich_last : last_before true zurich 1729989000 [MkTransition 1698541200 1698544800 0]
  (MkTransition 1711846800 1711854000 1) [MkTransition 1729990800 1729994400 0].
Proof. split; [done|]. split; [by vm_compute|]. by intros x [= <-]. Qed.

Lemma zurich_repeated :
  repeated_hour zurich 1729989000 (MkLocaltime 7200 true 4) [MkTransition 1729990800 1729994400 0].
Proof. eexists _, [], (MkLocaltime 3600 false 0). repeat split; try done. Qed.

(** Half past two, summer time, in the night it ends. *)
Lemma local_time_round_trip_witness :
  toLocalTime demo_gmtime (Some zurich) 1729989000 =
    Ret (MkTm 0 30 2 27 9 124 0 300 true 7200 (s!"CEST" ++ [Z_byte 0])) ∧
  ∃ u, toLocalTime demo_gmtime (Some zurich) 1729989000 = Ret u ∧
    fromLocalTime demo_gmtime demo_timegm (Some zurich) u = Ret 1729989000.
Proof.
  split; [vm_compute; reflexivity|].
  destruct (local_time_round_trip demo_gmtime demo_timegm demo_inverse zurich 1729989000 _ _ _ (MkLocaltime 7200 true 4)
    zurich_ok zurich_ranges zurich_last eq_refl (or_intror zurich_repeated)) as (u & H1 & _ & _ & _ & H2).
  exists u. by split.
Defined.

(** ** Zone files *)

(** The bytes of a version 1 zone file with these transitions (instant and
    type), types and abbreviations; [ver], [gmt], [std], [leap] are the fields
    the program skips, [tail] the rest of the file. *)
Definition be32 (z : Z) : bytes := be_bytes 4 z.
Definition type_bytes (l : Localtime) : bytes :=
  be32 (gmtOffset l) ++ [Z_byte (if isDst l then 1 else 0)] ++ [Z_byte (arrbIdx l)].
Definition zone_file (ver : bytes) (gmt std leap : Z) (trans : list (Z * Z)) (types : list Localtime)
    (abbrev tail : bytes) : bytes :=
  s!"TZif" ++ ver ++ be32 gmt ++ be32 std ++ be32 leap ++ be32 (zlen trans) ++ be32 (zlen types) ++ be32 (zlen abbrev) ++
  concat (be32 <$> trans.*1) ++ ((λ i, Z_byte i) <$> trans.*2) ++ concat (type_bytes <$> types) ++ abbrev ++ tail.

(** What the program makes of it. *)
Definition zone_data (trans : list (Z * Z)) (types : list Localtime) (abbrev : bytes) : Data :=
  MkData ((λ p, MkTransition p.1 (p.1 + from_option gmtOffset 0 (types !! Z.to_nat p.2)) p.2) <$> trans) types abbrev.

Record file_ok (trans : list (Z * Z)) (types : list Localtime) (abbrev : bytes) : Prop := {
  f_trans p : p ∈ trans → in_s 32 p.1 ∧ 0 ≤ p.2 < 256 ∧ p.2 < zlen types;
  f_types l : l ∈ types → in_s 32 (gmtOffset l) ∧ 0 ≤ arrbIdx l < 256;
  f_size : zlen trans < 2 ^ 31 ∧ zlen types < 2 ^ 31 ∧ zlen abbrev < 2 ^ 31;
}.

Lemma readBytes_app n b r d : zlen b = n → readBytes n (b ++ r, d) = (Ret b, (r, d)).
Proof.
  intros <-. unfold readBytes, mbind, ST_bind, lift, st_get, st_put, mret, ST_ret.
  rewrite (proj2 (Z.leb_le _ _)) by apply zlen_nonneg. cbn [defined fst snd].
  rewrite (proj2 (Z.leb_le _ _)) by (rewrite zlen_app; pose proof (zlen_nonneg r); lia).
  unfold ztake, zdrop, zlen. rewrite Nat2Z.id, take_app_length, drop_app_length. done.
Qed.

Lemma readInt32_app z r d : in_s 32 z → readInt32 (be32 z ++ r, d) = (Ret z, (r, d)).
Proof.
  intros Hz. unfold readInt32. rewrite (ST_bind_eq _ _ _ (be32 z) (r, d)).
  - unfold be32. rewrite be_val_bytes. change (2 ^ (8 * Z.of_nat 4)) with (2 ^ 32).
    unfold mret, ST_ret. f_equal. f_equal. change (z mod 2 ^ 32) with (wrapu 32 z). unfold i32.
    rewrite wraps_wrapu by done. by apply wraps_small.
  - apply readBytes_app. unfold be32, zlen. by rewrite length_be_bytes.
Qed.

Lemma readUInt8_app z r d : 0 ≤ z < 256 → readUInt8 (Z_byte z :: r, d) = (Ret z, (r, d)).
Proof.
  intros Hz. unfold readUInt8. rewrite (ST_bind_eq _ _ _ [Z_byte z] (r, d)).
  - unfold mret, ST_ret. f_equal. f_equal. unfold be_val. cbn. rewrite byte_Z_byte, Z.mod_small by lia. lia.
  - by apply (readBytes_app 1 [Z_byte z] r d).
Qed.

Lemma read_list_app {A} (p : parser A) (enc : A → bytes) (ok : A → Prop) l r d :
  (∀ a r, ok a → p (enc a ++ r, d) = (Ret a, (r, d))) → Forall ok l →
  read_list p (length l) (concat (enc <$> l) ++ r, d) = (Ret l, (r, d)).
Proof.
  intros Hp. induction 1 as [|a l Ha Hl IH]; [done|]. cbn [fmap list_fmap concat length read_list].
  rewrite <-app_assoc, (ST_bind_eq _ _ _ a (concat (enc <$> l) ++ r, d)) by by apply Hp.
  by rewrite (ST_bind_eq _ _ _ _ _ IH).
Qed.

Lemma read_types_app types r d :
  (∀ l, l ∈ types → in_s 32 (gmtOffset l) ∧ 0 ≤ arrbIdx l < 256) →
  read_types (length types) (concat (type_bytes <$> types) ++ r, d) =
    (Ret (), (r, MkData (transitions d) (localtimes d ++ types) (abbreviation d))).
Proof.
  revert d. induction types as [|l types IH]; intros d Hl; cbn [fmap list_fmap concat length read_types].
  { rewrite app_nil_r. by destruct d. }
  destruct (Hl l ltac:(left)) as [H1 H2]. unfold type_bytes. rewrite <-!app_assoc. cbn [app].
  rewrite (ST_bind_eq _ _ _ _ _ (readInt32_app _ _ _ H1)). cbv beta.
  rewrite (ST_bind_eq _ _ _ _ _ (readUInt8_app (if isDst l then 1 else 0) _ _ ltac:(destruct (isDst l); lia))). cbv beta.
  rewrite (ST_bind_eq _ _ _ _ _ (readUInt8_app _ _ _ H2)). cbv beta.
  erewrite ST_bind_eq by reflexivity. cbn [fst snd].
  change (type_bytes <$> types) with (list_fmap _ _ type_bytes types) in IH.
  rewrite IH by (intros l' Hl'; apply Hl; by right). unfold add_localtime. cbn [transitions localtimes abbreviation].
  rewrite <-app_assoc. cbn [app]. do 4 f_equal.
  destruct l as [o [] a]; done.
Qed.

Lemma read_transitions_eq trans d :
  (∀ p, p ∈ trans → 0 ≤ p.2 < zlen (localtimes d)) → ∀ r,
  read_transitions trans.*1 trans.*2 (r, d) =
    (Ret (), (r, MkData (transitions d ++ transitions (zone_data trans (localtimes d) [])) (localtimes d) (abbreviation d))).
Proof.
  revert d. induction trans as [|p trans IH]; intros d Hp r; cbn [fmap list_fmap read_transitions].
  { cbn. rewrite app_nil_r. by destruct d. }
  rewrite (ST_bind_eq st_get _ _ (r, d) (r, d) eq_refl). cbn [fst snd].
  destruct (Hp p ltac:(left)) as [H1 H2].
  assert (is_Some (localtimes d !! Z.to_nat p.2)) as [l Hl].
  { apply lookup_lt_is_Some. unfold zlen in H2. lia. }
  rewrite Hl. cbn [or_undef from_option].
  rewrite (ST_bind_eq (lift (Ret l)) _ _ l (r, d) eq_refl). erewrite ST_bind_eq by reflexivity. cbn [fst snd].
  change (trans.*1) with (list_fmap _ _ fst trans) in IH. change (trans.*2) with (list_fmap _ _ snd trans) in IH.
  rewrite IH by (intros p' Hp'; apply Hp; by right). unfold add_transition. cbn [transitions localtimes abbreviation].
  rewrite <-app_assoc. cbn. rewrite Hl. done.
Qed.

Lemma readUInt8_list l r d : Forall (λ z, 0 ≤ z < 256) l →
  read_list readUInt8 (length l) (((λ i, Z_byte i) <$> l) ++ r, d) = (Ret l, (r, d)).
Proof.
  induction 1 as [|z l Hz Hl IH]; [done|]. cbn [fmap list_fmap app length read_list].
  rewrite (ST_bind_eq _ _ _ _ _ (readUInt8_app z _ d Hz)). by rewrite (ST_bind_eq _ _ _ _ _ IH).
Qed.

Lemma zlen_in_s {A} (l : list A) : zlen l < 2 ^ 31 → in_s 32 (zlen l).
Proof. unfold in_s. change (32 - 1) with 31. pose proof (zlen_nonneg l). lia. Qed.

Lemma zlen_to_nat {A} (l : list A) : Z.to_nat (zlen l) = length l.
Proof. apply Nat2Z.id. Qed.

Lemma read_body_eq v1 v2 gmt std leap trans types abbrev tail :
  zlen v1 = 1 → zlen v2 = 15 → in_s 32 gmt ∧ in_s 32 std ∧ in_s 32 leap → file_ok trans types abbrev →
  read_body (zone_file (v1 ++ v2) gmt std leap trans types abbrev tail, Data_new) =
    (Ret (), (tail, zone_data trans types abbrev)).
Proof.
  intros Hv1 Hv2 (Hg & Hst & Hle) [Hf Hty (Hs1 & Hs2 & Hs3)]. unfold read_body, zone_file. rewrite <-!app_assoc.
  rewrite (ST_bind_eq _ _ _ _ _ (readBytes_app 4 s!"TZif" _ _ eq_refl)).
  rewrite bool_decide_eq_true_2 by done. erewrite (ST_bind_eq (mret ())) by reflexivity.
  rewrite (ST_bind_eq _ _ _ _ _ (readBytes_app 1 v1 _ _ Hv1)).
  rewrite (ST_bind_eq _ _ _ _ _ (readBytes_app 15 v2 _ _ Hv2)).
  rewrite (ST_bind_eq _ _ _ _ _ (readInt32_app gmt _ _ Hg)), (ST_bind_eq _ _ _ _ _ (readInt32_app std _ _ Hst)),
    (ST_bind_eq _ _ _ _ _ (readInt32_app leap _ _ Hle)),
    (ST_bind_eq _ _ _ _ _ (readInt32_app (zlen trans) _ _ (zlen_in_s _ Hs1))),
    (ST_bind_eq _ _ _ _ _ (readInt32_app (zlen types) _ _ (zlen_in_s _ Hs2))),
    (ST_bind_eq _ _ _ _ _ (readInt32_app (zlen abbrev) _ _ (zlen_in_s _ Hs3))).
  rewrite (proj2 (Z.ltb_ge (zlen trans) 0)) by apply zlen_nonneg. erewrite (ST_bind_eq (mret ())) by reflexivity.
  rewrite !zlen_to_nat. replace (length trans) with (length trans.*1) at 1 by apply length_fmap.
  rewrite (ST_bind_eq _ _ _ _ _ (read_list_app readInt32 be32 (in_s 32) trans.*1 _ _
    (λ a r H, readInt32_app a r _ H) ltac:(apply Forall_fmap, Forall_forall; intros p Hp; by apply Hf))).
  replace (length trans) with (length trans.*2) by apply length_fmap.
  rewrite (ST_bind_eq _ _ _ _ _ (readUInt8_list trans.*2 _ _
    ltac:(apply Forall_fmap, Forall_forall; intros p Hp; by apply Hf))).
  rewrite (ST_bind_eq _ _ _ _ _ (read_types_app types _ _ Hty)). cbn [transitions localtimes abbreviation Data_new app].
  rewrite (ST_bind_eq _ _ _ _ _ (read_transitions_eq trans (MkData [] types []) ltac:(intros p Hp; cbn; destruct (Hf p Hp); lia) _)).
  by rewrite (ST_bind_eq _ _ _ _ _ (readBytes_app (zlen abbrev) abbrev _ _ eq_refl)).
Qed.

(** Reading the bytes of a version 1 zone file gives its transitions, each
    with its local time, its types and abbreviations, whatever the skipped
    fields and the rest of the file hold. *)
Theorem zone_file_round_trip v1 v2 gmt std leap trans types abbrev tail
    (Hv : zlen v1 = 1 ∧ zlen v2 = 15) (Hc : in_s 32 gmt ∧ in_s 32 std ∧ in_s 32 leap)
    (Hok : file_ok trans types abbrev) :
  TimeZone_file (Some (zone_file (v1 ++ v2) gmt std leap trans types abbrev tail)) =
    Ret (Some (zone_data trans types abbrev)).
Proof.
  destruct Hv as [H1 H2]. unfold TimeZone_file, readTimeZoneFile. by rewrite read_body_eq.
Qed.

Lemma zurich_file_ok : file_ok [(1698541200, 0); (1711846800, 1); (1729990800, 0)]
  [MkLocaltime 3600 false 0; MkLocaltime 7200 true 4] (abbreviation zurich).
Proof.
  split.
  - intros p Hp. repeat (apply elem_of_cons in Hp as [->|Hp]; [vm_compute; repeat split; discriminate|]).
    by apply not_elem_of_nil in Hp.
  - intros p Hp. repeat (apply elem_of_cons in Hp as [->|Hp]; [vm_compute; repeat split; discriminate|]).
    by apply not_elem_of_nil in Hp.
  - by vm_compute.
Qed.

Lemma zone_file_round_trip_witness :
  TimeZone_file (Some (zone_file (s!"2" ++ replicate 15 (Z_byte 0)) 2 2 0
    [(1698541200, 0); (1711846800, 1); (1729990800, 0)] [MkLocaltime 3600 false 0; MkLocaltime 7200 true 4]
    (abbreviation zurich) s!"TZif2")) = Ret (Some zurich).
Proof.
  refine (zone_file_round_trip s!"2" (replicate 15 (Z_byte 0)) 2 2 0 _ _ _ _ _ _ zurich_file_ok).
  - vm_compute. by split.
  - vm_compute. repeat split; discriminate.
Defined.

(** A read of [n] bytes in a header that is too short for what is to come. *)
Definition fails (m : parser unit) (b : bytes) : Prop := ∃ r, m (b, Data_new) = (Throw logic_error, (r, Data_new)).

Lemma fails_readBytes n (k : bytes → parser unit) b m :
  0 ≤ n → zlen b < n + m → (∀ b', zlen b' < m → fails (k (ztake n b)) b') → fails (readBytes n ≫= k) b.
Proof.
  intros Hn Hb Hk. unfold fails, readBytes, mbind, ST_bind, lift, st_get, st_put, mret, ST_ret.
  rewrite (proj2 (Z.leb_le 0 n)) by done. cbn [defined fst snd].
  destruct (n <=? zlen b) eqn:E; bool_to_prop; [|by exists b].
  apply (Hk (zdrop n b)). rewrite zlen_zdrop by lia. lia.
Qed.

Lemma fails_ret {A} (a : A) (k : A → parser unit) b : fails (k a) b → fails (mret a ≫= k) b.
Proof. done. Qed.

Lemma fails_readInt32 (k : Z → parser unit) b m :
  zlen b < 4 + m → (∀ z b', zlen b' < m → fails (k z) b') → fails (readInt32 ≫= k) b.
Proof.
  intros Hb Hk. destruct (fails_readBytes 4 (λ c, k (i32 (be_val c))) b m) as [r Hr]; [done|done|by intros; apply Hk|].
  exists r. revert Hr. unfold readInt32, mbind, ST_bind. by destruct (readBytes 4 (b, Data_new)) as [[]].
Qed.

Lemma read_body_short b : zlen b < 44 ∨ ztake 4 b ≠ s!"TZif" → fails read_body b.
Proof.
  intros Hb. unfold read_body. destruct (decide (ztake 4 b = s!"TZif")) as [Hh|Hh].
  - destruct Hb as [Hb|?]; [|done]. apply (fails_readBytes _ _ _ 40); [done|lia|]. intros b1 H1.
    rewrite bool_decide_eq_true_2 by done. apply fails_ret.
    apply (fails_readBytes _ _ _ 39); [done|lia|]. intros b2 H2.
    apply (fails_readBytes _ _ _ 24); [done|lia|]. intros b3 H3.
    apply (fails_readInt32 _ _ 20); [lia|]. intros z4 b4 H4. apply (fails_readInt32 _ _ 16); [lia|]. intros z5 b5 H5.
    apply (fails_readInt32 _ _ 12); [lia|]. intros z6 b6 H6. apply (fails_readInt32 _ _ 8); [lia|]. intros z7 b7 H7.
    apply (fails_readInt32 _ _ 4); [lia|]. intros z8 b8 H8. apply (fails_readInt32 _ _ 0); [lia|]. intros z9 b9 H9.
    pose proof (zlen_nonneg b9). lia.
  - apply (fails_readBytes _ _ _ (zlen b)); [done|lia|]. intros b1 _. rewrite bool_decide_eq_false_2 by done. by exists b1.
Qed.

(** A zone file that is missing, too short for its header, or no zone file
    at all still gives a time zone that says it is valid; asking it for any
    local time is then undefined behaviour. *)
Theorem bad_zone_file_is_valid gmtime zonefile t
    (Hbad : match zonefile with Some b => zlen b < 44 ∨ ztake 4 b ≠ s!"TZif" | None => True end) :
  ∃ z, TimeZone_file zonefile = Ret z ∧ valid z = true ∧ toLocalTime gmtime z t = Undef.
Proof.
  exists (Some Data_new). split; [|done]. destruct zonefile as [b|]; [|done].
  destruct (read_body_short b Hbad) as [r Hr]. unfold TimeZone_file, readTimeZoneFile. by rewrite Hr.
Qed.

Lemma bad_zone_file_is_valid_witness :
  ∃ z, TimeZone_file (Some s!"not a zone file") = Ret z ∧ valid z = true ∧ toLocalTime demo_gmtime z 0 = Undef.
Proof. apply (bad_zone_file_is_valid demo_gmtime (Some s!"not a zone file") 0). left. vm_compute. reflexivity. Defined.
