(* ===== verification/LogStream.v ===== *)
(** * Log streams (master/base/LogStream.h, LogStream.cc)

    A [FixedBuffer] is an array of [SIZE] bytes and an index; a write past the
    array is undefined.  [LogStream] prints into one of [kSmallBuffer] bytes.
    The text [snprintf] makes of a double is given with the operation: the
    format "%.12g" never makes 32 characters.  The contract is a bounded text:
    an item that does not fit is dropped whole. *)
From S2P Require Import Prelude CxxString.
Local Open Scope Z_scope.

Definition kSmallBuffer : Z := 4000.
Definition kLargeBuffer : Z := 4000 * 1000.
Definition kMaxNumericSize : Z := 32.

Record FixedBuffer := MkFixed { data_ : bytes; cur_ : Z }.

(** The array is not initialised: [junk] is what it happens to hold. *)
Definition FixedBuffer_new (junk : bytes) : FixedBuffer := MkFixed junk 0.

Definition avail (b : FixedBuffer) : Z := i32 (zlen (data_ b) - cur_ b).
Definition length_ (b : FixedBuffer) : Z := i32 (cur_ b).
Definition text (b : FixedBuffer) : bytes := ztake (length_ b) (data_ b).

(** Write bytes at an index of the array. *)
Definition poke (pos : Z) (s : bytes) (b : FixedBuffer) : outcome FixedBuffer :=
  if (0 <=? pos) && (pos + zlen s <=? zlen (data_ b))
  then Ret (MkFixed (ztake pos (data_ b) ++ s ++ zdrop (pos + zlen s) (data_ b)) (cur_ b)) else Undef.
Definition add (len : Z) (b : FixedBuffer) : FixedBuffer := MkFixed (data_ b) (cur_ b + len).
Definition reset (b : FixedBuffer) : FixedBuffer := MkFixed (data_ b) 0.

(** [size_t] of the available count: a negative one would be huge. *)
Definition append (s : bytes) (b : FixedBuffer) : outcome FixedBuffer :=
  if zlen s <? u64 (avail b) then b' ← poke (cur_ b) s b; Ret (add (zlen s) b') else Ret b.

Definition debugString (b : FixedBuffer) : outcome bytes :=
  b' ← poke (cur_ b) [Z_byte 0] b; Ret (data_ b').

(** ** Numbers *)
Definition digits : bytes := s!"9876543210123456789".
Definition digitsHex : bytes := s!"0123456789ABCDEF".
(** [zero[lsd]], [zero] being [digits + 9]. *)
Definition zero_at (lsd : Z) : outcome ascii := or_undef (if 0 <=? 9 + lsd then digits !! Z.to_nat (9 + lsd) else None).
Definition hex_at (lsd : Z) : outcome ascii := or_undef (if 0 <=? lsd then digitsHex !! Z.to_nat lsd else None).

(** The do-while loops; one unit of fuel per digit. *)
Fixpoint convert_loop (fuel : nat) (i : Z) : outcome bytes :=
  match fuel with
  | O => Undef
  | S fuel' =>
      c ← zero_at (Z.rem i 10);
      let i' := Z.quot i 10 in
      if i' =? 0 then Ret [c] else l ← convert_loop fuel' i'; Ret (c :: l)
  end.
Fixpoint convertHex_loop (fuel : nat) (i : Z) : outcome bytes :=
  match fuel with
  | O => Undef
  | S fuel' =>
      c ← hex_at (Z.rem i 16);
      let i' := Z.quot i 16 in
      if i' =? 0 then Ret [c] else l ← convertHex_loop fuel' i'; Ret (c :: l)
  end.

(** Twenty decimal and sixteen hexadecimal digits hold 64 bits. *)
Definition convert (value : Z) : outcome bytes :=
  l ← convert_loop 20 value; Ret (reverse (l ++ (if value <? 0 then s!"-" else []))).
Definition convertHex (value : Z) : outcome bytes := l ← convertHex_loop 16 value; Ret (reverse l).

(** The digits end in a NUL that [add] leaves out. *)
Definition formatInteger (v : Z) (b : FixedBuffer) : outcome FixedBuffer :=
  if kMaxNumericSize <=? avail b then
    s ← convert v;
    b' ← poke (cur_ b) (s ++ [Z_byte 0]) b;
    Ret (add (zlen s) b')
  else Ret b.

Definition formatPointer (v : Z) (b : FixedBuffer) : outcome FixedBuffer :=
  if kMaxNumericSize <=? avail b then
    s ← convertHex v;
    b1 ← poke (cur_ b) s!"0x" b;
    b2 ← poke (cur_ b + 2) (s ++ [Z_byte 0]) b1;
    Ret (add (zlen s + 2) b2)
  else Ret b.

(** [snprintf] keeps 31 characters and returns how many there would be. *)
Definition formatDouble (g : bytes) (b : FixedBuffer) : outcome FixedBuffer :=
  if kMaxNumericSize <=? avail b then
    b' ← poke (cur_ b) (ztake (kMaxNumericSize - 1) g ++ [Z_byte 0]) b;
    Ret (add (zlen g) b')
  else Ret b.

(** [Fmt(fmt, val)], given the text: its assertion. *)
Definition Fmt (g : bytes) : outcome bytes := _ ← assert_ (zlen g <? 32); Ret g.

(** ** The insertion operators *)
Inductive item :=
  | LBool (v : bool)
  | LShort (v : Z) | LInt (v : Z) | LLong (v : Z)
  | LUShort (v : Z) | LUInt (v : Z) | LULong (v : Z)
  | LPointer (p : Z)
  | LDouble (g : bytes)
  | LChar (c : ascii)
  | LCString (s : option bytes)
  | LString (s : bytes)
  | LFmt (g : bytes).

Definition insert (x : item) (b : FixedBuffer) : outcome FixedBuffer :=
  match x with
  | LBool v => append (if v then s!"1" else s!"0") b
  | LShort v | LInt v | LLong v | LUShort v | LUInt v | LULong v => formatInteger v b
  | LPointer p => formatPointer p b
  | LDouble g => formatDouble g b
  | LChar c => append [c] b
  | LCString s => append (default s!"(null)" s) b
  | LString s => append s b
  | LFmt g => s ← Fmt g; append s b
  end.

Fixpoint inserts (xs : list item) (b : FixedBuffer) : outcome FixedBuffer :=
  match xs with
  | [] => Ret b
  | x :: xs' => b' ← insert x b; inserts xs' b'
  end.

(** ** The contract *)

(** "%X": hexadecimal digits of a natural number. *)
Definition hex_digit_val (c : ascii) : Z := if byte_Z c <=? 57 then byte_Z c - 48 else byte_Z c - 55.
Definition hex_val (s : bytes) : Z := foldl (λ acc c, 16 * acc + hex_digit_val c) 0 s.

(** The hexadecimal text of a natural number, position by position: the
    character at place [k] from the right is that of the digit
    [p / 16^k mod 16], and there are as many places as the highest bit of [p]
    asks for. *)
Definition hex_char (d : Z) : ascii := Z_byte (if d <? 10 then 48 + d else 55 + d).
Definition hex_text (p : Z) : bytes :=
  (λ k, hex_char (p / 16 ^ k mod 16)) <$> reverse (seqZ 0 (Z.log2 p / 4 + 1)).

(** The text of an item, and whether it is a number. *)
Definition item_text (x : item) : bytes :=
  match x with
  | LBool v => if v then s!"1" else s!"0"
  | LShort v | LInt v | LLong v | LUShort v | LUInt v | LULong v => dec_int v
  | LPointer p => s!"0x" ++ hex_text p
  | LDouble g | LFmt g => g
  | LChar c => [c]
  | LCString s => default s!"(null)" s
  | LString s => s
  end.
Definition is_number (x : item) : bool :=
  match x with LShort _ | LInt _ | LLong _ | LUShort _ | LUInt _ | LULong _ | LPointer _ | LDouble _ => true | _ => false end.

(** The values have their types; C strings hold no NUL and fit a [size_t]. *)
Definition legal_item (x : item) : bool :=
  match x with
  | LShort v => in_sb 16 v | LInt v => in_sb 32 v | LLong v => in_sb 64 v
  | LUShort v => (0 <=? v) && (v <? 2 ^ 16) | LUInt v => (0 <=? v) && (v <? 2 ^ 32)
  | LULong v | LPointer v => (0 <=? v) && (v <? 2 ^ 64)
  | LDouble g | LFmt g => zlen g <? 32
  | LString s => zlen s <? 2 ^ 63
  | LCString (Some s) => (zlen s <? 2 ^ 63) && bool_decide (Z_byte 0 ∉ s)
  | LBool _ | LChar _ | LCString None => true
  end.

(** An item is dropped unless it leaves a byte free; a number also unless 32
    bytes are free. *)
Definition spec_insert (size : Z) (x : item) (t : bytes) : bytes :=
  let free := size - zlen t in
  if if is_number x then kMaxNumericSize <=? free else zlen (item_text x) <? free then t ++ item_text x else t.

Definition spec_inserts (size : Z) (xs : list item) (t : bytes) : bytes := foldl (λ t x, spec_insert size x t) t xs.

(** ** The digits *)
Ltac qlia := Z.to_euclidean_division_equations; lia.

Lemma zero_at_eq r : -10 < r < 10 → zero_at r = Ret (digit_char (Z.abs r)).
Proof.
  intros Hr. assert (∃ n, r = Z.of_nat n - 9 ∧ (n < 19)%nat) as (n & -> & Hn).
  { exists (Z.to_nat (r + 9)). lia. }
  do 19 (destruct n as [|n]; [vm_compute; reflexivity|]). lia.
Qed.

Lemma hex_at_eq r : 0 ≤ r < 16 → hex_at r = Ret (hex_char r) ∧ hex_digit_val (hex_char r) = r.
Proof.
  intros Hr. assert (∃ n, r = Z.of_nat n ∧ (n < 16)%nat) as (n & -> & Hn).
  { exists (Z.to_nat r). lia. }
  do 16 (destruct n as [|n]; [split; vm_compute; reflexivity|]). lia.
Qed.

Lemma convert_loop_S fuel i :
  convert_loop (S fuel) i = (c ← zero_at (Z.rem i 10);
    if Z.quot i 10 =? 0 then Ret [c] else l ← convert_loop fuel (Z.quot i 10); Ret (c :: l)).
Proof. done. Qed.

Lemma dec_rev_S fuel z :
  dec_rev (S fuel) z = digit_char (z mod 10) :: (if z / 10 =? 0 then [] else dec_rev fuel (z / 10)).
Proof. done. Qed.

Lemma abs_digit v : Z.abs (Z.rem v 10) = Z.abs v mod 10 ∧ Z.abs v / 10 = Z.abs (Z.quot v 10).
Proof. qlia. Qed.

Lemma convert_loop_eq fuel v : Z.abs v < 10 ^ Z.of_nat (S fuel) →
  convert_loop (S fuel) v = Ret (dec_rev (S fuel) (Z.abs v)).
Proof.
  revert v. induction fuel as [|fuel IH]; intros v Hv; rewrite convert_loop_S, dec_rev_S, zero_at_eq by qlia;
    cbn [mbind outcome_bind]; destruct (abs_digit v) as [-> ->].
  - assert (Z.quot v 10 = 0) as -> by (change (10 ^ Z.of_nat 1) with 10 in Hv; qlia). done.
  - destruct (decide (Z.quot v 10 = 0)) as [->|Hne]; [done|].
    rewrite !(proj2 (Z.eqb_neq _ _)) by lia. rewrite IH; [done|].
    rewrite (Nat2Z.inj_succ (S fuel)), Z.pow_succ_r in Hv by lia. qlia.
Qed.

Lemma convert_eq v : - 2 ^ 64 < v < 2 ^ 64 → convert v = Ret (dec_int v).
Proof.
  intros Hv. unfold convert. rewrite (convert_loop_eq 19) by (change (10 ^ Z.of_nat 20) with 100000000000000000000; lia).
  cbn [mbind outcome_bind]. unfold dec_int, dec_nat. destruct (v <? 0) eqn:E; bool_to_prop.
  - rewrite reverse_app. by rewrite Z.abs_neq by lia.
  - rewrite app_nil_r. by rewrite Z.abs_eq by lia.
Qed.

Lemma dec_int_length v : - 2 ^ 64 < v < 2 ^ 64 → 0 < zlen (dec_int v) ≤ 21.
Proof.
  intros Hv. unfold dec_int. destruct (v <? 0) eqn:E; bool_to_prop.
  - rewrite zlen_app. change (zlen s!"-") with 1.
    pose proof (dec_nat_length 20 (- v) ltac:(lia) ltac:(change (10 ^ Z.of_nat 20) with 100000000000000000000; lia)).
    pose proof (zlen_nonneg (dec_nat (- v))). lia.
  - pose proof (dec_nat_length 20 v ltac:(lia) ltac:(change (10 ^ Z.of_nat 20) with 100000000000000000000; lia)).
    pose proof (dec_nat_ne v). destruct (dec_nat v) eqn:Ed; [done|]. unfold zlen in *. cbn [length] in *. lia.
Qed.

Lemma hex_val_snoc s c : hex_val (s ++ [c]) = 16 * hex_val s + hex_digit_val c.
Proof. unfold hex_val. by rewrite foldl_app. Qed.

(** One more place: the digits of [v / 16], shifted, after the last one. *)
Lemma hex_places v : 16 ≤ v → Z.log2 v / 4 + 1 = 1 + (Z.log2 (v / 16) / 4 + 1).
Proof.
  intros Hv. assert (Z.log2 (v / 16) = Z.log2 v - 4) as ->.
  { change 16 with (2 ^ 4). rewrite <-Z.shiftr_div_pow2, Z.log2_shiftr by lia.
    pose proof (Z.log2_le_mono 16 v Hv) as Hm. change (Z.log2 16) with 4 in Hm. lia. }
  replace (Z.log2 v - 4) with (Z.log2 v + (-1) * 4) by lia. rewrite Z.div_add by lia. lia.
Qed.

Lemma hex_places_small v : 0 ≤ v < 16 → Z.log2 v / 4 + 1 = 1.
Proof.
  intros Hv. assert (Z.log2 v < 4).
  { destruct (decide (v = 0)) as [->|]; [by vm_compute|]. apply Z.log2_lt_pow2; [lia|]. change (2 ^ 4) with 16. lia. }
  pose proof (Z.log2_nonneg v). rewrite Z.div_small by lia. done.
Qed.

Lemma hex_text_small v : 0 ≤ v < 16 → hex_text v = [hex_char v].
Proof.
  intros Hv. unfold hex_text. rewrite hex_places_small by done. change (reverse (seqZ 0 1)) with [0].
  cbn [fmap list_fmap]. change (16 ^ 0) with 1. by rewrite Z.div_1_r, Z.mod_small by lia.
Qed.

Lemma hex_text_step v : 16 ≤ v → hex_text v = hex_text (v / 16) ++ [hex_char (v mod 16)].
Proof.
  intros Hv. unfold hex_text. rewrite hex_places by done. pose proof (Z.log2_nonneg (v / 16)).
  assert (0 ≤ Z.log2 (v / 16) / 4) by (apply Z.div_pos; lia).
  rewrite seqZ_cons by lia. rewrite reverse_cons, fmap_app.
  replace (Z.pred (1 + (Z.log2 (v / 16) / 4 + 1))) with (Z.log2 (v / 16) / 4 + 1) by lia.
  change (Z.succ 0) with (1 + 0). rewrite <-fmap_add_seqZ, <-fmap_reverse, <-list_fmap_compose. f_equal.
  - apply list_fmap_ext. intros i k Hk. unfold compose.
    assert (0 ≤ k) by (apply list_elem_of_lookup_2, elem_of_reverse, elem_of_seqZ in Hk; lia).
    rewrite Z.add_comm, Z.pow_add_r, Z.pow_1_r by lia. by rewrite Z.mul_comm, Z.div_div by lia.
  - cbn. change (16 ^ 0) with 1. by rewrite Z.div_1_r.
Qed.

Lemma convertHex_loop_eq fuel v : 0 ≤ v < 16 ^ Z.of_nat (S fuel) →
  convertHex_loop (S fuel) v = Ret (reverse (hex_text v)) ∧ (0 < length (hex_text v) ≤ S fuel)%nat ∧ hex_val (hex_text v) = v.
Proof.
  revert v. induction fuel as [|fuel IH]; intros v Hv; cbn [convertHex_loop];
    (destruct (hex_at_eq (Z.rem v 16)) as (-> & Hc); [qlia|]); cbn [mbind outcome_bind];
    assert (Z.rem v 16 = v mod 16 ∧ Z.quot v 16 = v / 16) as [Hr Hq] by qlia; rewrite Hr, Hq in *.
  - change (16 ^ Z.of_nat 1) with 16 in Hv. rewrite Z.div_small, hex_text_small by lia.
    rewrite Z.mod_small in * by lia. split; [done|]. split; [cbn; lia|]. unfold hex_val. cbn [foldl]. lia.
  - destruct (v / 16 =? 0) eqn:E; bool_to_prop.
    + assert (0 ≤ v < 16) by qlia. rewrite hex_text_small, Z.mod_small in * by lia.
      split; [done|]. split; [cbn; lia|]. unfold hex_val. cbn [foldl]. lia.
    + assert (16 ≤ v) as Hge by qlia. rewrite (hex_text_step v Hge).
      assert (0 ≤ v / 16 < 16 ^ Z.of_nat (S fuel)) as Hq'.
      { rewrite (Nat2Z.inj_succ (S fuel)), Z.pow_succ_r in Hv by lia. qlia. }
      destruct (IH _ Hq') as (Hl & Hlen & Hval). split.
      { cbn [convertHex_loop] in Hl |- *. rewrite Hl. cbn [mbind outcome_bind]. by rewrite reverse_snoc. }
      split; [rewrite length_app; cbn; lia|]. rewrite hex_val_snoc, Hval, Hc. qlia.
Qed.

Lemma convertHex_eq v : 0 ≤ v < 2 ^ 64 →
  convertHex v = Ret (hex_text v) ∧ 0 < zlen (hex_text v) ≤ 16 ∧ hex_val (hex_text v) = v.
Proof.
  intros Hv. destruct (convertHex_loop_eq 15 v) as (Hl & Hlen & Hval).
  { change (16 ^ Z.of_nat 16) with (2 ^ 64). lia. }
  unfold convertHex. rewrite Hl. cbn [mbind outcome_bind]. rewrite reverse_involutive. unfold zlen. split; [done|]. split; [lia|done].
Qed.

(** ** The array *)
Definition fixed_ok (size : Z) (b : FixedBuffer) : Prop := zlen (data_ b) = size ∧ 0 ≤ cur_ b < size ∧ size < 2 ^ 31.

Lemma avail_eq size b : fixed_ok size b → avail b = size - cur_ b.
Proof. intros (H1 & H2 & H3). unfold avail. rewrite i32_small by lia. lia. Qed.

Lemma text_eq size b : fixed_ok size b → text b = ztake (cur_ b) (data_ b) ∧ zlen (text b) = cur_ b.
Proof.
  intros (H1 & H2 & H3). unfold text, length_. rewrite i32_small by lia. split; [done|]. apply zlen_ztake. lia.
Qed.

(** Bytes written at the index and [k] of them kept. *)
Lemma poke_add size s k b : fixed_ok size b → 0 ≤ k ≤ zlen s → cur_ b + zlen s ≤ size → cur_ b + k < size →
  ∃ b', poke (cur_ b) s b = Ret b' ∧ fixed_ok size (add k b') ∧ text (add k b') = text b ++ ztake k s.
Proof.
  intros Hok Hk Hs Hroom. pose proof Hok as (H1 & H2 & H3). eexists. unfold poke.
  rewrite (proj2 (Z.leb_le 0 _)), (proj2 (Z.leb_le _ (zlen (data_ b)))) by lia. split; [reflexivity|].
  assert (zlen (ztake (cur_ b) (data_ b)) = cur_ b) as Ht by (apply zlen_ztake; lia).
  assert (fixed_ok size (add k (MkFixed (ztake (cur_ b) (data_ b) ++ s ++ zdrop (cur_ b + zlen s) (data_ b)) (cur_ b)))) as Hok'.
  { split; [|cbn; lia]. cbn. rewrite !zlen_app, Ht, zlen_zdrop by lia. lia. }
  split; [done|]. rewrite (proj1 (text_eq _ _ Hok')), (proj1 (text_eq _ _ Hok)). cbn [add data_ cur_].
  unfold ztake at 1. rewrite take_app, firstn_all2 by (unfold zlen in Ht; lia). f_equal.
  replace (Z.to_nat (cur_ b + k) - length (ztake (cur_ b) (data_ b)))%nat with (Z.to_nat k) by (unfold zlen in Ht; lia).
  rewrite take_app_le; [done|]. unfold zlen in Hk. lia.
Qed.

Lemma append_ok size s b : fixed_ok size b → zlen s < 2 ^ 63 →
  ∃ b', append s b = Ret b' ∧ fixed_ok size b' ∧
    text b' = if zlen s <? size - zlen (text b) then text b ++ s else text b.
Proof.
  intros Hok Hs. pose proof Hok as (H1 & H2 & H3). unfold append. rewrite (avail_eq size b Hok), (proj2 (text_eq _ _ Hok)).
  unfold u64. rewrite wrapu_small by (unfold in_u; lia).
  destruct (zlen s <? size - cur_ b) eqn:E; bool_to_prop; [|by exists b].
  destruct (poke_add size s (zlen s) b Hok) as (b' & -> & Hok' & Ht'); [pose proof (zlen_nonneg s); lia..|].
  eexists. split; [done|]. split; [done|]. rewrite Ht'. f_equal. unfold ztake, zlen. rewrite Nat2Z.id. by apply firstn_all.
Qed.

Lemma number_ok size s b : fixed_ok size b → zlen s < 32 →
  let m := (if kMaxNumericSize <=? avail b then b' ← poke (cur_ b) (s ++ [Z_byte 0]) b; Ret (add (zlen s) b') else Ret b) in
  ∃ b', m = Ret b' ∧ fixed_ok size b' ∧
    text b' = if kMaxNumericSize <=? size - zlen (text b) then text b ++ s else text b.
Proof.
  intros Hok Hs. cbv zeta. rewrite (avail_eq size b Hok), (proj2 (text_eq _ _ Hok)).
  destruct (kMaxNumericSize <=? size - cur_ b) eqn:E; bool_to_prop; [|by exists b]. unfold kMaxNumericSize in E.
  destruct (poke_add size (s ++ [Z_byte 0]) (zlen s) b Hok) as (b' & -> & Hok' & Ht').
  - rewrite zlen_app. change (zlen [Z_byte 0]) with 1. pose proof (zlen_nonneg s). lia.
  - rewrite zlen_app. change (zlen [Z_byte 0]) with 1. lia.
  - lia.
  - eexists. split; [done|]. split; [done|]. rewrite Ht'. f_equal. unfold ztake, zlen. rewrite Nat2Z.id. apply take_app_length.
Qed.

Lemma poke_poke p a c b : 0 ≤ p → p + zlen a + zlen c ≤ zlen (data_ b) →
  (b1 ← poke p a b; poke (p + zlen a) c b1) = poke p (a ++ c) b.
Proof.
  intros Hp Hfit. pose proof (zlen_nonneg a). pose proof (zlen_nonneg c). unfold poke.
  rewrite !zlen_app, !(proj2 (Z.leb_le 0 p)), (proj2 (Z.leb_le (p + zlen a) _)), (proj2 (Z.leb_le (p + (zlen a + zlen c)) _)) by lia.
  cbn [andb mbind outcome_bind data_ cur_]. rewrite !zlen_app.
  assert (zlen (ztake p (data_ b)) = p) as Ht by (apply zlen_ztake; lia). rewrite Ht, zlen_zdrop by lia.
  rewrite (proj2 (Z.leb_le 0 _)), (proj2 (Z.leb_le (p + zlen a + zlen c) _)) by lia. cbn [andb]. do 2 f_equal.
  assert (ztake (p + zlen a) (ztake p (data_ b) ++ a ++ zdrop (p + zlen a) (data_ b)) = ztake p (data_ b) ++ a) as ->.
  { rewrite app_assoc. unfold ztake at 1. apply take_app_length'. rewrite length_app. unfold zlen in *. lia. }
  rewrite <-!app_assoc. do 3 f_equal.
  rewrite app_assoc. unfold zdrop. rewrite drop_app_ge by (rewrite length_app; unfold zlen in *; lia).
  rewrite drop_drop. f_equal. rewrite length_app. unfold zlen in *. lia.
Qed.

Lemma pointer_ok size v b : fixed_ok size b → 0 ≤ v < 2 ^ 64 →
  ∃ b', formatPointer v b = Ret b' ∧ fixed_ok size b' ∧ text b' = spec_insert size (LPointer v) (text b).
Proof.
  intros Hok Hv. destruct (convertHex_eq v Hv) as (Hs & Hlen & _). set (s := hex_text v) in *.
  assert (zlen (s!"0x" ++ s) < 32) as Hl by (rewrite zlen_app; change (zlen s!"0x") with 2; lia).
  destruct (number_ok size (s!"0x" ++ s) b Hok Hl) as (b' & Hm & Hok' & Ht'). exists b'.
  split; [|split; [done|]].
  - rewrite <-Hm. unfold formatPointer. rewrite Hs. destruct (kMaxNumericSize <=? avail b) eqn:E; [|done].
    bool_to_prop. rewrite (avail_eq size b Hok) in E. unfold kMaxNumericSize in E. pose proof Hok as (H1 & H2 & H3).
    cbn [mbind outcome_bind]. rewrite <-app_assoc, <-(poke_poke (cur_ b) s!"0x" (s ++ [Z_byte 0]) b).
    + change (zlen s!"0x") with 2. destruct (poke (cur_ b) s!"0x" b) as [b1| | |]; cbn [mbind outcome_bind]; [|done..].
      destruct (poke (cur_ b + 2) (s ++ [Z_byte 0]) b1) as [b2| | |]; cbn [mbind outcome_bind]; [|done..].
      rewrite zlen_app. change (zlen s!"0x") with 2. by rewrite Z.add_comm.
    + lia.
    + rewrite zlen_app. change (zlen s!"0x") with 2. change (zlen [Z_byte 0]) with 1. lia.
  - rewrite Ht'. unfold spec_insert. done.
Qed.

Lemma integer_ok size v x b : fixed_ok size b → - 2 ^ 64 < v < 2 ^ 64 → is_number x = true → item_text x = dec_int v →
  ∃ b', formatInteger v b = Ret b' ∧ fixed_ok size b' ∧ text b' = spec_insert size x (text b).
Proof.
  intros Hok Hv Hx Ht. pose proof (dec_int_length v Hv).
  destruct (number_ok size (dec_int v) b Hok) as (b' & Hm & Hok' & Ht'); [lia|]. exists b'.
  split; [|split; [done|]].
  - unfold formatInteger. rewrite convert_eq by done. exact Hm.
  - rewrite Ht'. unfold spec_insert. by rewrite Hx, Ht.
Qed.

Lemma insert_ok size x b : fixed_ok size b → legal_item x = true →
  ∃ b', insert x b = Ret b' ∧ fixed_ok size b' ∧ text b' = spec_insert size x (text b).
Proof.
  intros Hok Hl. assert (∀ z, in_sb 16 z = true ∨ in_sb 32 z = true ∨ in_sb 64 z = true → - 2 ^ 64 < z < 2 ^ 64) as Hs.
  { intros z Hz. rewrite !in_sb_spec in Hz. unfold in_s in Hz. lia. }
  destruct x as [v|v|v|v|v|v|v|p|g|c|s|s|g]; cbn [legal_item] in Hl; cbn [insert]; bool_to_prop;
    try (apply integer_ok; [done|first [by apply Hs; auto|lia]|done|done]).
  - destruct v; by apply append_ok.
  - by apply pointer_ok.
  - destruct (number_ok size g b Hok Hl) as (b' & Hm & Hok' & Ht'). exists b'. split; [|by split].
    rewrite <-Hm. unfold formatDouble. unfold ztake. rewrite (firstn_all2 g); [done|].
    unfold zlen in Hl. change (Z.to_nat (kMaxNumericSize - 1)) with 31%nat. lia.
  - by apply append_ok.
  - destruct s as [s|]; cbn in Hl; bool_to_prop; by apply append_ok.
  - by apply append_ok.
  - unfold Fmt. rewrite (proj2 (Z.ltb_lt _ _)) by done. apply append_ok; [done|lia].
Qed.

Lemma inserts_ok size xs b : fixed_ok size b → forallb legal_item xs = true →
  ∃ b', inserts xs b = Ret b' ∧ fixed_ok size b' ∧ text b' = spec_inserts size xs (text b).
Proof.
  intros Hok Hl. revert b Hok. induction xs as [|x xs IH]; intros b Hok; [by exists b|].
  cbn in Hl. apply andb_prop in Hl as [Hx Hl].
  destruct (insert_ok size x b Hok Hx) as (b1 & Hb1 & Hok1 & Ht1).
  destruct (IH Hl b1 Hok1) as (b2 & Hb2 & Hok2 & Ht2). exists b2. cbn [inserts]. rewrite Hb1. cbn [mbind outcome_bind].
  split; [done|]. split; [done|]. rewrite Ht2, Ht1. done.
Qed.

Lemma fixed_new size junk : zlen junk = size → 0 < size < 2 ^ 31 → fixed_ok size (FixedBuffer_new junk).
Proof. intros Hj Hs. unfold fixed_ok. cbn [FixedBuffer_new data_ cur_]. lia. Qed.

Lemma inserts_app xs ys b : inserts (xs ++ ys) b = (b' ← inserts xs b; inserts ys b').
Proof.
  revert b. induction xs as [|x xs IH]; intros b; [done|]. cbn [app inserts]. destruct (insert x b); cbn [mbind outcome_bind]; [|done..].
  apply IH.
Qed.

Lemma spec_inserts_app size xs ys t : spec_inserts size (xs ++ ys) t = spec_inserts size ys (spec_inserts size xs t).
Proof. apply foldl_app. Qed.

(** Items that leave 32 bytes free are all there. *)
Lemma spec_inserts_fits size xs t : zlen t + zlen (concat (item_text <$> xs)) + 32 ≤ size →
  spec_inserts size xs t = t ++ concat (item_text <$> xs).
Proof.
  revert t. induction xs as [|x xs IH]; intros t Hfit; [by rewrite app_nil_r|]. cbn [fmap list_fmap concat] in *.
  rewrite zlen_app in Hfit. pose proof (zlen_nonneg (concat (item_text <$> xs))). pose proof (zlen_nonneg (item_text x)).
  change (spec_inserts size (x :: xs) t) with (spec_inserts size xs (spec_insert size x t)).
  assert (spec_insert size x t = t ++ item_text x) as ->.
  { unfold spec_insert, kMaxNumericSize.
    destruct (is_number x); [rewrite (proj2 (Z.leb_le _ _)) by lia|rewrite (proj2 (Z.ltb_lt _ _)) by lia]; done. }
  rewrite IH; [by rewrite app_assoc|]. rewrite zlen_app. lia.
Qed.

(** ** Properties *)

(** C31: A log stream is a bounded text: whatever is inserted, no byte outside
    the 4000 of its buffer is written, one stays free for the final NUL, and
    the buffer holds the texts of the items in order, those left out that did
    not fit: an integer in decimal, a pointer as "0x" and the hexadecimal
    digits of all its 64 bits from the highest that is not zero, the others
    literally. *)
Theorem log_stream_is_bounded_text xs junk (Hj : zlen junk = kSmallBuffer) (Hl : forallb legal_item xs = true) :
  ∃ b, inserts xs (FixedBuffer_new junk) = Ret b ∧ text b = spec_inserts kSmallBuffer xs [] ∧
    zlen (text b) < kSmallBuffer ∧ is_Ret (debugString b).
Proof.
  destruct (inserts_ok kSmallBuffer xs (FixedBuffer_new junk)) as (b & Hb & Hok & Ht); [|done|].
  { unfold fixed_ok. cbn [FixedBuffer_new data_ cur_]. unfold kSmallBuffer in *. lia. }
  exists b. split; [done|]. split; [by rewrite Ht|]. pose proof Hok as (H1 & H2 & H3).
  rewrite (proj2 (text_eq _ _ Hok)). split; [lia|].
  destruct (poke_add kSmallBuffer [Z_byte 0] 0 b Hok) as (b' & Hp & _); [done|change (zlen [Z_byte 0]) with 1; lia..|lia|].
  unfold debugString. rewrite Hp. by eexists.
Qed.

Lemma log_stream_is_bounded_text_witness :
  spec_inserts kSmallBuffer [LString s!"fd="; LInt (-7); LChar (Z_byte 32); LPointer 48879; LBool true] [] =
    s!"fd=-7 0xBEEF1" ∧
  ∃ b, inserts [LString s!"fd="; LInt (-7); LChar (Z_byte 32); LPointer 48879; LBool true]
    (FixedBuffer_new (replicate 4000 (Z_byte 0))) = Ret b.
Proof.
  split; [vm_compute; reflexivity|].
  destruct (log_stream_is_bounded_text [LString s!"fd="; LInt (-7); LChar (Z_byte 32); LPointer 48879; LBool true]
    (replicate 4000 (Z_byte 0))) as (b & H & _); [|reflexivity|exists b; exact H].
  unfold zlen. rewrite length_replicate. reflexivity.
Defined.

(** The digit loops of [convert] and [convertHex] end and print the number:
    for every 64-bit value, the most negative one included, the text is an
    optional minus sign and digits whose value is the number's magnitude; with
    its NUL it fits the 32 bytes that are checked for. *)
Theorem convert_exact v (Hv : - 2 ^ 63 ≤ v < 2 ^ 64) :
  ∃ s d, convert v = Ret s ∧ s = (if v <? 0 then s!"-" else []) ++ d ∧ all_digits d ∧ digits_val d = Z.abs v ∧
    zlen s + 1 ≤ kMaxNumericSize ∧
    (0 ≤ v → ∃ h, convertHex v = Ret h ∧ hex_val h = v ∧ zlen h + 3 ≤ kMaxNumericSize).
Proof.
  exists (dec_int v), (dec_nat (Z.abs v)). split; [apply convert_eq; lia|].
  assert (Z.abs v < 10 ^ 20) as Ha by lia. pose proof (dec_int_length v ltac:(lia)) as Hl. unfold kMaxNumericSize.
  split.
  { unfold dec_int. destruct (v <? 0) eqn:E; bool_to_prop; [by rewrite Z.abs_neq by lia|by rewrite Z.abs_eq by lia]. }
  split; [apply dec_nat_digits|]. split; [apply dec_nat_val; lia|]. split; [lia|].
  intros Hp. destruct (convertHex_eq v) as (Hh & Hlen & Hval); [lia|]. exists (hex_text v). split; [done|]. split; [done|lia].
Qed.

Lemma convert_exact_witness : convert (- 2 ^ 63) = Ret s!"-9223372036854775808" ∧ ∃ s, convert (- 2 ^ 63) = Ret s.
Proof.
  split; [vm_compute; reflexivity|].
  destruct (convert_exact (- 2 ^ 63)) as (s & d & H & _); [by vm_compute|]. exists s. exact H.
Defined.
