(* ===== verification/AsyncLogging.v ===== *)
(** * Asynchronous logging (master/base/AsyncLogging.h, AsyncLogging.cc)

    Any thread appends lines under the mutex; one logging thread exchanges
    buffers with them and writes to the log file.  A buffer is its text (see
    the file LogStream: [append] keeps a text that fits and drops one that does
    not), a [unique_ptr] an option.  A step is a critical section or a piece
    of the logging thread outside it; the wait on [cond_] may end at any time.
    [output_] is what was handed to the log file; [logged_] the history of the
    lines appended, [dropped_] whether buffers were thrown away. *)
From stdpp Require Import relations.
From S2P Require Import Prelude LogStream.
Local Open Scope Z_scope.

Inductive apc :=
  | Start                         (* threadFunc's while test *)
  | Waiting                       (* in cond_.waitForSeconds *)
  | Writing (buffers : list bytes)  (* outside the lock, holding buffersToWrite *)
  | Done                          (* after the loop *)
  | Failed.                       (* an assertion failed *)

Record AsyncLogging := MkAsync {
  apc_ : apc;
  running_ : bool;
  currentBuffer_ : option bytes;
  nextBuffer_ : option bytes;
  buffers_ : list bytes;
  newBuffer1 : option bytes;
  newBuffer2 : option bytes;
  output_ : bytes;
  logged_ : bytes;
  dropped_ : bool;
}.

(** After [start()]. *)
Definition AsyncLogging_new : AsyncLogging :=
  MkAsync Start true (Some []) (Some []) [] (Some []) (Some []) [] [] false.

(** [FixedBuffer<kLargeBuffer>] *)
Definition buf_avail (t : bytes) : Z := kLargeBuffer - zlen t.
Definition buf_append (line t : bytes) : bytes := if zlen line <? buf_avail t then t ++ line else t.

(** [append]; an empty pointer is dereferenced undefined. *)
Definition append (line : bytes) (s : AsyncLogging) : outcome AsyncLogging :=
  cur ← or_undef (currentBuffer_ s);
  let logged := logged_ s ++ (if zlen line <? kLargeBuffer then line else []) in
  if zlen line <? buf_avail cur then
    Ret (MkAsync (apc_ s) (running_ s) (Some (buf_append line cur)) (nextBuffer_ s) (buffers_ s) (newBuffer1 s)
           (newBuffer2 s) (output_ s) logged (dropped_ s))
  else
    let fresh := match nextBuffer_ s with Some b => b | None => [] end in
    Ret (MkAsync (apc_ s) (running_ s) (Some (buf_append line fresh)) None (buffers_ s ++ [cur]) (newBuffer1 s)
           (newBuffer2 s) (output_ s) logged (dropped_ s)).

Definition stop (s : AsyncLogging) : AsyncLogging :=
  MkAsync (apc_ s) false (currentBuffer_ s) (nextBuffer_ s) (buffers_ s) (newBuffer1 s) (newBuffer2 s) (output_ s)
    (logged_ s) (dropped_ s).

Definition at_apc (p : apc) (s : AsyncLogging) : AsyncLogging :=
  MkAsync p (running_ s) (currentBuffer_ s) (nextBuffer_ s) (buffers_ s) (newBuffer1 s) (newBuffer2 s) (output_ s)
    (logged_ s) (dropped_ s).

(** The exchange under the lock. *)
Definition exchange (s : AsyncLogging) : outcome AsyncLogging :=
  cur ← or_undef (currentBuffer_ s);
  let refill := match nextBuffer_ s with None => true | Some _ => false end in
  Ret (MkAsync (Writing (buffers_ s ++ [cur])) (running_ s) (newBuffer1 s)
    (if refill then newBuffer2 s else nextBuffer_ s) [] None (if refill then None else newBuffer2 s)
    (output_ s) (logged_ s) (dropped_ s)).

(** [assert(newBuffer && newBuffer->length() == 0)] *)
Definition fresh_buffer (b : option bytes) : bool := bool_decide (b = Some []).

(** The test of the loop, its assertions, and the critical section up to the
    wait. *)
Definition loop_top (s : AsyncLogging) : outcome AsyncLogging :=
  if running_ s then
    if fresh_buffer (newBuffer1 s) && fresh_buffer (newBuffer2 s) then
      match buffers_ s with [] => Ret (at_apc Waiting s) | _ => exchange s end
    else Ret (at_apc Failed s)
  else Ret (at_apc Done s).

(** Take the last buffer for a missing one, emptied. *)
Definition take_back (nb : option bytes) (bufs : list bytes) : option (option bytes * list bytes) :=
  match nb with
  | Some b => Some (Some b, bufs)
  | None => match last bufs with Some _ => Some (Some [], removelast bufs) | None => None end
  end.

(** From the write to the end of the loop's body; [notice] is the message
    about dropped buffers. *)
Definition write_out (notice : bytes) (bufs : list bytes) (s : AsyncLogging) : AsyncLogging :=
  let many := (25 <? zlen bufs) in
  let kept := if many then take 2 bufs else bufs in
  let out := output_ s ++ (if many then notice else []) ++ concat kept in
  let reuse := if 2 <? zlen kept then take 2 kept else kept in
  let s' nb1 nb2 p := MkAsync p (running_ s) (currentBuffer_ s) (nextBuffer_ s) (buffers_ s) nb1 nb2 out (logged_ s)
    (dropped_ s || many) in
  match take_back (newBuffer1 s) reuse with
  | None => s' (newBuffer1 s) (newBuffer2 s) Failed
  | Some (nb1, reuse') =>
      match take_back (newBuffer2 s) reuse' with
      | None => s' nb1 (newBuffer2 s) Failed
      | Some (nb2, _) => s' nb1 nb2 Start
      end
  end.

Inductive astep : AsyncLogging → AsyncLogging → Prop :=
  | step_append line s s' : append line s = Ret s' → astep s s'
  | step_stop s : astep s (stop s)
  | step_top s s' : apc_ s = Start → loop_top s = Ret s' → astep s s'
  | step_wake s s' : apc_ s = Waiting → exchange s = Ret s' → astep s s'
  | step_write notice bufs s : apc_ s = Writing bufs → astep s (write_out notice bufs s).

Definition areachable (s : AsyncLogging) : Prop := rtc astep AsyncLogging_new s.

(** ** The invariant *)
Definition in_flight (p : apc) : list bytes := match p with Writing bufs => bufs | _ => [] end.

(** What the thread's own buffers are at each place. *)
Definition own_buffers (s : AsyncLogging) : Prop :=
  match apc_ s with
  | Writing bufs =>
      newBuffer1 s = None ∧
      (newBuffer2 s = Some [] ∧ (1 ≤ length bufs)%nat ∨ newBuffer2 s = None ∧ (2 ≤ length bufs)%nat)
  | Failed => False
  | _ => newBuffer1 s = Some [] ∧ newBuffer2 s = Some []
  end.

Record ainv (s : AsyncLogging) : Prop := {
  i_current : ∃ cur, currentBuffer_ s = Some cur;
  i_next : nextBuffer_ s = Some [] ∨ nextBuffer_ s = None ∧ buffers_ s ≠ [];
  i_own : own_buffers s;
  i_log : dropped_ s = false →
    logged_ s = output_ s ++ concat (in_flight (apc_ s)) ++ concat (buffers_ s) ++ default [] (currentBuffer_ s);
}.

Lemma ainv_new : ainv AsyncLogging_new.
Proof. split; [by eexists|by left|done|done]. Qed.

Lemma buf_append_fits line t : zlen line < buf_avail t → buf_append line t = t ++ line.
Proof. intros H. unfold buf_append. by rewrite (proj2 (Z.ltb_lt _ _)). Qed.

Lemma append_spec line s : ainv s → ∃ s', append line s = Ret s' ∧ ainv s'.
Proof.
  intros [[cur Hc] Hn Ho Hl]. unfold append. rewrite Hc. cbn [or_undef from_option mbind outcome_bind].
  destruct (zlen line <? buf_avail cur) eqn:E; bool_to_prop; eexists; (split; [reflexivity|]).
  - split; cbn; [by eexists|done|exact Ho|]. intros Hd. rewrite (Hl Hd), Hc, buf_append_fits by done.
    assert (zlen line < kLargeBuffer) as Hs by (unfold buf_avail in E; pose proof (zlen_nonneg cur); lia).
    rewrite (proj2 (Z.ltb_lt _ _)) by done. cbn. by rewrite <-!app_assoc.
  - assert (match nextBuffer_ s with Some b => b | None => [] end = []) as ->.
    { by destruct Hn as [->|[-> _]]. }
    split; cbn; [by eexists|right; split; [done|by destruct (buffers_ s)]|exact Ho|].
    intros Hd. rewrite (Hl Hd), Hc. cbn. rewrite concat_app. cbn. rewrite app_nil_r, <-!app_assoc. do 4 f_equal.
Qed.

Lemma exchange_spec s : ainv s → newBuffer1 s = Some [] → newBuffer2 s = Some [] → in_flight (apc_ s) = [] →
  ∃ s', exchange s = Ret s' ∧ ainv s'.
Proof.
  intros [[cur Hc] Hn Ho Hl] H1 H2 Hf. unfold exchange. rewrite Hc. cbn [or_undef from_option mbind outcome_bind].
  eexists. split; [reflexivity|]. rewrite H1, H2. split; cbn; [by eexists| | |].
  - left. by destruct Hn as [->|[-> _]].
  - unfold own_buffers. cbn. split; [done|]. rewrite length_app. cbn.
    destruct Hn as [->|[-> Hne]]; [left; split; [done|lia]|right; split; [done|]].
    destruct (buffers_ s); [done|cbn; lia].
  - intros Hd. rewrite (Hl Hd), Hc, Hf. cbn. rewrite concat_app. cbn. by rewrite !app_nil_r.
Qed.

Lemma take_back_two nb bufs : (nb = Some [] ∨ nb = None ∧ (1 ≤ length bufs)%nat) →
  ∃ bufs', take_back nb bufs = Some (Some [], bufs') ∧ (length bufs ≤ S (length bufs'))%nat ∧
    (nb = Some [] → bufs' = bufs).
Proof.
  intros [->|[-> Hl]]; [exists bufs; split; [done|split; [lia|done]]|].
  destruct bufs as [|b bufs _] using rev_ind; [cbn in Hl; lia|].
  exists bufs. cbn. rewrite last_snoc, removelast_last, length_app. cbn. split; [done|]. split; [lia|done].
Qed.

Lemma write_out_spec notice bufs s : ainv s → apc_ s = Writing bufs → ainv (write_out notice bufs s).
Proof.
  intros [Hc Hn Ho Hl] Hp. unfold own_buffers in Ho. rewrite Hp in Ho, Hl. cbn [in_flight] in Hl.
  destruct Ho as [H1 H2]. unfold write_out. rewrite H1.
  set (kept := if 25 <? zlen bufs then take 2 bufs else bufs).
  set (reuse := if 2 <? zlen kept then take 2 kept else kept).
  assert (length reuse = min 2 (length bufs)) as Hlen.
  { unfold reuse, kept, zlen. destruct (25 <? Z.of_nat (length bufs)) eqn:E1; bool_to_prop;
      (case_if; rewrite ?length_take in *; lia). }
  destruct (take_back_two None reuse) as (r1 & -> & Hr1 & _).
  { right. split; [done|]. rewrite Hlen. lia. }
  destruct (take_back_two (newBuffer2 s) r1) as (r2 & -> & _).
  { destruct H2 as [[-> _]|[-> Hl2]]; [by left|right]. split; [done|]. lia. }
  split; cbn; [done|done|done|]. intros [Hd Hm]%orb_false_iff. rewrite (Hl Hd). unfold kept. rewrite Hm. cbn.
  by rewrite <-app_assoc.
Qed.

Lemma astep_inv s s' : astep s s' → ainv s → ainv s'.
Proof.
  intros Hst Hi. pose proof Hi as [Hc Hn Ho Hl].
  destruct Hst as [line s s' Ha|s|s s' Hp Ht|s s' Hp He|notice bufs s Hp].
  - destruct (append_spec line s Hi) as (s2 & Ha2 & Hi2). rewrite Ha in Ha2. by injection Ha2 as ->.
  - by split.
  - unfold own_buffers in Ho. rewrite Hp in Ho. destruct Ho as [H1 H2]. unfold loop_top in Ht.
    rewrite H1, H2 in Ht. change (fresh_buffer (Some [])) with true in Ht. cbn [andb] in Ht. destruct (running_ s).
    + destruct (buffers_ s) eqn:Eb.
      * injection Ht as <-. split; cbn; rewrite ?Eb; [done|done|by split|]. intros Hd. by rewrite (Hl Hd), Hp, ?Eb.
      * destruct (exchange_spec s Hi H1 H2) as (s2 & Hs2 & Hi2); [by rewrite Hp|]. rewrite Ht in Hs2. by injection Hs2 as ->.
    + injection Ht as <-. split; cbn; [done|done|by split|]. intros Hd. by rewrite (Hl Hd), Hp.
  - unfold own_buffers in Ho. rewrite Hp in Ho. destruct Ho as [H1 H2].
    destruct (exchange_spec s Hi H1 H2) as (s2 & Hs2 & Hi2); [by rewrite Hp|]. rewrite He in Hs2. by injection Hs2 as ->.
  - by apply write_out_spec.
Qed.

Lemma areachable_inv s : areachable s → ainv s.
Proof.
  intros Hr. assert (∀ a, rtc astep a s → ainv a → ainv s) as H; [|by apply (H _ Hr), ainv_new].
  induction 1 as [|a b c Hab _ IH]; [done|]. intros Ha. by apply IH, (astep_inv a).
Qed.

(** ** Properties *)

(** C36: Log lines come out complete and in order: unless more than 25 buffers
    piled up, what has been written, what the logging thread is writing, the
    full buffers and the current one are together exactly the lines appended
    (those shorter than a buffer), in the order the mutex gave them; and no
    assertion of the thread ever fails, no empty pointer is used. *)
Theorem log_lines_in_order s (Hr : areachable s) :
  (dropped_ s = false →
    logged_ s = output_ s ++ concat (in_flight (apc_ s)) ++ concat (buffers_ s) ++ default [] (currentBuffer_ s)) ∧
  apc_ s ≠ Failed ∧
  (∀ line, is_Ret (append line s)) ∧
  (apc_ s = Start → is_Ret (loop_top s)) ∧ (apc_ s = Waiting → is_Ret (exchange s)).
Proof.
  apply areachable_inv in Hr as Hi. pose proof Hi as [[cur Hc] Hn Ho Hl]. unfold own_buffers in Ho.
  split; [done|]. split; [intros Hf; by rewrite Hf in Ho|]. split; [|split].
  - intros line. destruct (append_spec line s Hi) as (s' & Hs & _). by exists s'.
  - intros Hp. rewrite Hp in Ho. destruct Ho as [H1 H2]. unfold loop_top. rewrite H1, H2. cbn.
    destruct (running_ s); [|by eexists]. destruct (buffers_ s); [by eexists|].
    destruct (exchange_spec s Hi H1 H2) as (s' & Hs & _); [by rewrite Hp|]. by exists s'.
  - intros Hp. rewrite Hp in Ho. destruct Ho as [H1 H2].
    destruct (exchange_spec s Hi H1 H2) as (s' & Hs & _); [by rewrite Hp|]. by exists s'.
Qed.

(** A line appended, taken over by the thread, another appended. *)
Definition demo_async : AsyncLogging :=
  match append s!"one" AsyncLogging_new with
  | Ret s1 =>
      match exchange (at_apc Waiting AsyncLogging_new) with
      | Ret _ =>
          match loop_top s1 with
          | Ret s2 => match exchange s2 with
                      | Ret s3 => match append s!"two" s3 with Ret s4 => s4 | _ => s3 end
                      | _ => s2
                      end
          | _ => s1
          end
      | _ => s1
      end
  | _ => AsyncLogging_new
  end.

Lemma demo_async_reachable : areachable demo_async.
Proof.
  eapply rtc_l; [by apply (step_append s!"one")|]. eapply rtc_l; [by apply step_top|].
  eapply rtc_l; [by apply step_wake|]. eapply rtc_l; [by apply (step_append s!"two")|]. apply rtc_refl.
Qed.

Lemma log_lines_in_order_witness :
  in_flight (apc_ demo_async) = [s!"one"] ∧ logged_ demo_async = s!"onetwo" ∧ apc_ demo_async ≠ Failed.
Proof.
  split; [vm_compute; reflexivity|]. split; [vm_compute; reflexivity|].
  exact (proj1 (proj2 (log_lines_in_order demo_async demo_async_reachable))).
Defined.

(** Stopping loses what was appended since the last exchange: the thread leaves
    its loop with the line still in the current buffer. *)
Definition demo_stopped : AsyncLogging := at_apc Done (write_out [] [s!"one"] (stop demo_async)).

Lemma stop_loses_lines : areachable demo_stopped ∧ apc_ demo_stopped = Done ∧ dropped_ demo_stopped = false ∧
  logged_ demo_stopped = s!"onetwo" ∧ output_ demo_stopped = s!"one".
Proof.
  split; [|vm_compute; done]. unfold areachable. etrans; [apply demo_async_reachable|].
  eapply rtc_l; [apply step_stop|]. eapply rtc_l; [by apply (step_write [] [s!"one"])|].
  eapply rtc_l; [by apply step_top|]. apply rtc_refl.
Qed.
