(* ===== verification/Monitors.v ===== *)
(** * Monitors (master/base/BlockingQueue.h, BoundedBlockingQueue.h,
    CountDownLatch.h, CountDownLatch.cc, ThreadPool.h, ThreadPool.cc)

    A member is a loop around [pthread_cond_wait] under one mutex.  A caller is
    ready (about to take the mutex and test) or asleep in a wait; the body from
    one test to the next wait or to the return runs under the mutex, so it is
    one step.  [notify] moves a sleeper, if there is one, to the ready; a
    sleeper may also wake spuriously.  A caller of [put] or [run] is a pair of a
    thread and what it brings. *)
From stdpp Require Import relations.
From S2P Require Import Prelude.
Local Open Scope nat_scope.

(** ** Condition variables *)
Section Condition.
Context `{Countable C}.
Implicit Types (asleep ready : gset C).

(** [Condition::notify]: one sleeper, the choice is the system's. *)
Inductive notify asleep ready : gset C → gset C → Prop :=
  | notify_none : asleep = ∅ → notify asleep ready asleep ready
  | notify_one c : c ∈ asleep → notify asleep ready (asleep ∖ {[c]}) ({[c]} ∪ ready).

(** The sleepers are other callers than the ready ones; if somebody sleeps,
    there are at least [n] ready ones. *)
Definition served (n : nat) asleep ready : Prop := asleep ## ready ∧ (asleep ≠ ∅ → n ≤ size ready).

Lemma notify_one_eq c asleep ready asleep' ready' :
  c ∈ asleep → asleep' = asleep ∖ {[c]} → ready' = {[c]} ∪ ready → notify asleep ready asleep' ready'.
Proof. intros Hc -> ->. by apply notify_one. Qed.

Lemma served_notify n asleep ready asleep' ready' :
  notify asleep ready asleep' ready' → served n asleep ready → served (S n) asleep' ready'.
Proof.
  intros [-> |c Hc] [Hd Hs]; [done|]. split; [set_solver|]. intros _.
  rewrite size_union by set_solver. rewrite size_singleton. assert (asleep ≠ ∅) as Hne by set_solver. specialize (Hs Hne). lia.
Qed.

Lemma served_le n m asleep ready : m ≤ n → served n asleep ready → served m asleep ready.
Proof. intros Hm [Hd Hs]. split; [done|]. intros Hne. specialize (Hs Hne). lia. Qed.

(** A ready caller leaves. *)
Lemma served_leave n c asleep ready :
  c ∈ ready → served (S n) asleep ready → served n asleep (ready ∖ {[c]}).
Proof.
  intros Hc [Hd Hs]. split; [set_solver|]. intros Hne. specialize (Hs Hne).
  rewrite size_difference by set_solver. rewrite size_singleton. lia.
Qed.

(** A ready caller falls asleep: only when nothing is to be served. *)
Lemma served_sleep c asleep ready :
  asleep ## ready → served 0 ({[c]} ∪ asleep) (ready ∖ {[c]}).
Proof. intros Hd. split; [set_solver|]. lia. Qed.

(** A caller comes, or wakes by itself. *)
Lemma served_come n c asleep ready : c ∉ asleep → served n asleep ready → served n asleep ({[c]} ∪ ready).
Proof.
  intros Hc [Hd Hs]. split; [set_solver|]. intros Hne. specialize (Hs Hne).
  assert (size ready ≤ size ({[c]} ∪ ready)) by (apply subseteq_size; set_solver). lia.
Qed.

Lemma served_wake n c asleep ready : served n asleep ready → served n (asleep ∖ {[c]}) ({[c]} ∪ ready).
Proof.
  intros [Hd Hs]. split; [set_solver|]. intros Hne. assert (asleep ≠ ∅) as Hne' by set_solver. specialize (Hs Hne').
  assert (size ready ≤ size ({[c]} ∪ ready)) by (apply subseteq_size; set_solver). lia.
Qed.
End Condition.

(** ** Blocking queues

    [maxSize_] is absent in [BlockingQueue]. *)
Record Queue := MkQueue {
  maxSize_ : option nat;
  queue_ : list nat;
  putters : gset (nat * nat);
  putters_asleep : gset (nat * nat);
  takers : gset nat;
  takers_asleep : gset nat;
  (** History: what was put and taken, in order. *)
  put_ : list nat;
  taken_ : list nat;
}.

Definition Queue_new (max : option nat) : Queue := MkQueue max [] ∅ ∅ ∅ ∅ [] [].

Definition full (s : Queue) : bool :=
  match maxSize_ s with Some m => bool_decide (length (queue_ s) = m) | None => false end.
Definition room (s : Queue) : nat :=
  match maxSize_ s with Some m => m - length (queue_ s) | None => 0 end.

Definition set_putters pr pw s := MkQueue (maxSize_ s) (queue_ s) pr pw (takers s) (takers_asleep s) (put_ s) (taken_ s).
Definition set_takers tr tw s := MkQueue (maxSize_ s) (queue_ s) (putters s) (putters_asleep s) tr tw (put_ s) (taken_ s).

(** [put(x)]: the test fails, or the element goes in and a taker is notified. *)
Definition put_wait (p : nat * nat) s := set_putters (putters s ∖ {[p]}) ({[p]} ∪ putters_asleep s) s.
Definition put_done (p : nat * nat) (tr tw : gset nat) s :=
  MkQueue (maxSize_ s) (queue_ s ++ [p.2]) (putters s ∖ {[p]}) (putters_asleep s) tr tw (put_ s ++ [p.2]) (taken_ s).
(** [take()] *)
Definition take_wait (t : nat) s := set_takers (takers s ∖ {[t]}) ({[t]} ∪ takers_asleep s) s.
Definition take_done (t x : nat) (q : list nat) (pr pw : gset (nat * nat)) s :=
  MkQueue (maxSize_ s) q pr pw (takers s ∖ {[t]}) (takers_asleep s) (put_ s) (taken_ s ++ [x]).

Inductive qstep : Queue → Queue → Prop :=
  | q_put_call p s : (p ∉ putters s) → (p ∉ putters_asleep s) →
      qstep s (set_putters ({[p]} ∪ putters s) (putters_asleep s) s)
  | q_put_wait p s : p ∈ putters s → full s = true → qstep s (put_wait p s)
  | q_put_done p tr tw s : p ∈ putters s → full s = false →
      notify (takers_asleep s) (takers s) tw tr → qstep s (put_done p tr tw s)
  | q_put_wake p s : p ∈ putters_asleep s →
      qstep s (set_putters ({[p]} ∪ putters s) (putters_asleep s ∖ {[p]}) s)
  | q_take_call t s : (t ∉ takers s) → (t ∉ takers_asleep s) → qstep s (set_takers ({[t]} ∪ takers s) (takers_asleep s) s)
  | q_take_wait t s : t ∈ takers s → queue_ s = [] → qstep s (take_wait t s)
  | q_take_done t x q pr pw s : t ∈ takers s → queue_ s = x :: q →
      notify (putters_asleep s) (putters s) pw pr → qstep s (take_done t x q pr pw s)
  | q_take_wake t s : t ∈ takers_asleep s → qstep s (set_takers ({[t]} ∪ takers s) (takers_asleep s ∖ {[t]}) s).

Definition qreachable (max : option nat) (s : Queue) : Prop := rtc qstep (Queue_new max) s.

Record qinv (s : Queue) : Prop := {
  q_fifo : put_ s = taken_ s ++ queue_ s;
  q_bound m : maxSize_ s = Some m → length (queue_ s) ≤ m;
  q_takers : served (length (queue_ s)) (takers_asleep s) (takers s);
  q_putters : served (room s) (putters_asleep s) (putters s);
  q_unbounded : maxSize_ s = None → putters_asleep s = ∅;
}.

Lemma full_false s : full s = false → ∀ m, maxSize_ s = Some m → length (queue_ s) ≠ m.
Proof. unfold full. intros Hf m Hm. rewrite Hm in Hf. by apply bool_decide_eq_false in Hf. Qed.

Lemma qstep_inv s s' : qstep s s' → qinv s → qinv s'.
Proof.
  intros Hst [H1 H2 H3 H4 H5].
  destruct Hst as [p s Hp Hp'|p s Hp Hf|p tr tw s Hp Hf Hn|p s Hp|t s Ht Ht'|t s Ht Hq|t x q pr pw s Ht Hq Hn|t s Ht].
  - split; [done|done|done|by apply served_come|done].
  - split; [done|done|done| |].
    + unfold full in Hf. assert (room (put_wait p s) = 0) as ->.
      { unfold room. cbn. destruct (maxSize_ s) as [m|]; [|done]. apply bool_decide_eq_true in Hf. lia. }
      apply served_sleep. by destruct H4.
    + cbn. intros Hm. unfold full in Hf. by rewrite Hm in Hf.
  - split; cbn.
    + by rewrite H1, app_assoc.
    + intros m Hm. rewrite length_app. cbn. specialize (H2 m Hm). pose proof (full_false s Hf m Hm). lia.
    + rewrite length_app, Nat.add_comm. by eapply served_notify.
    + unfold room in *. cbn. destruct (maxSize_ s) as [m|] eqn:Em.
      * rewrite length_app. cbn. apply served_leave; [done|]. eapply served_le; [|exact H4]. pose proof (H2 m eq_refl).
        pose proof (full_false s Hf m Em). lia.
      * rewrite (H5 eq_refl). split; [set_solver|done].
    + done.
  - split; [done|done|done|by apply served_wake|]. cbn. intros Hm. rewrite (H5 Hm). set_solver.
  - split; [done|done|by apply served_come|done|done].
  - split; [done|done| |done|done]. cbn. rewrite Hq. cbn. apply served_sleep. by destruct H3.
  - split; cbn.
    + rewrite H1, Hq, <-app_assoc. done.
    + intros m Hm. specialize (H2 m Hm). rewrite Hq in H2. cbn in H2. lia.
    + rewrite Hq in H3. by apply served_leave.
    + unfold room in *. cbn. apply (served_le (S (room s))); [|by eapply served_notify].
      unfold room. destruct (maxSize_ s) as [m|]; [|lia]. rewrite Hq. cbn. lia.
    + intros Hm. rewrite (H5 Hm) in Hn. destruct Hn as [|c Hc]; [done|set_solver].
  - split; [done|done|by apply served_wake|done|done].
Qed.

Lemma qreachable_inv max s : qreachable max s → qinv s ∧ maxSize_ s = max.
Proof.
  intros Hr. assert (∀ a, rtc qstep a s → qinv a ∧ maxSize_ a = max → qinv s ∧ maxSize_ s = max) as H.
  { clear Hr. induction 1 as [|a b c Hab _ IH]; [done|]. intros [Ha Hm]. refine (IH (conj (qstep_inv a b Hab Ha) _)).
    by destruct Hab. }
  apply (H _ Hr). split; [|done].
  split; cbn; try done; [intros; lia|split; [set_solver|done]..].
Qed.

(** C40: Blocking queues deliver and nobody sleeps for nothing: elements come out
    in the order they went in, each once; at most [maxSize_] are inside; and
    whenever an element waits while a taker sleeps, at least as many takers as
    there are elements are awake and about to take them, likewise for putters
    and free places, so no wakeup is lost although [notify] wakes only one. *)
Theorem blocking_queue_correct max s (Hr : qreachable max s) :
  put_ s = taken_ s ++ queue_ s ∧ (∀ m, max = Some m → length (queue_ s) ≤ m) ∧
  (takers_asleep s ≠ ∅ → length (queue_ s) ≤ size (takers s)) ∧
  (∀ m, max = Some m → putters_asleep s ≠ ∅ → m - length (queue_ s) ≤ size (putters s)) ∧
  (max = None → putters_asleep s = ∅).
Proof.
  apply qreachable_inv in Hr as [[H1 H2 [_ H3] [_ H4] H5] <-]. split; [done|]. split; [done|]. split; [done|].
  split; [|done]. intros m Hm Hne. unfold room in H4. rewrite Hm in H4. by apply H4.
Qed.

(** One taker asleep, an element arrives: it is woken. *)
Definition demo_queue : Queue :=
  put_done (1, 42) {[7]} ∅ (set_putters {[(1, 42)]} ∅ (take_wait 7 (set_takers {[7]} ∅ (Queue_new (Some 2))))).

Lemma demo_queue_reachable : qreachable (Some 2) demo_queue.
Proof.
  eapply rtc_l; [by apply (q_take_call 7)|]. eapply rtc_l; [apply (q_take_wait 7); [set_solver|done]|].
  eapply rtc_l; [by apply (q_put_call (1, 42))|].
  eapply rtc_l; [apply (q_put_done (1, 42) {[7]} ∅); [set_solver|done|]|].
  { apply (notify_one_eq 7); [set_solver|reflexivity|reflexivity]. }
  apply rtc_refl.
Qed.

Lemma blocking_queue_correct_witness : queue_ demo_queue = [42] ∧ takers demo_queue = {[7]} ∧
  put_ demo_queue = taken_ demo_queue ++ queue_ demo_queue.
Proof.
  split; [reflexivity|]. split; [reflexivity|].
  exact (proj1 (blocking_queue_correct (Some 2) demo_queue demo_queue_reachable)).
Defined.

(** ** The count-down latch *)
Record CountDownLatch := MkLatch { count_ : Z; waiters : gset nat; waiters_asleep : gset nat; released : gset nat }.

Definition CountDownLatch_new (count : Z) : CountDownLatch := MkLatch count ∅ ∅ ∅.
Definition latch_sleep (t : nat) l := MkLatch (count_ l) (waiters l ∖ {[t]}) ({[t]} ∪ waiters_asleep l) (released l).
Definition latch_return (t : nat) l := MkLatch (count_ l) (waiters l ∖ {[t]}) (waiters_asleep l) ({[t]} ∪ released l).
(** [notifyAll] when the count reaches zero. *)
Definition countDown l : CountDownLatch :=
  let n := (count_ l - 1)%Z in
  if (n =? 0)%Z then MkLatch n (waiters l ∪ waiters_asleep l) ∅ (released l)
  else MkLatch n (waiters l) (waiters_asleep l) (released l).

Inductive latch_step : CountDownLatch → CountDownLatch → Prop :=
  | l_wait_call t l : (t ∉ waiters_asleep l) →
      latch_step l (MkLatch (count_ l) ({[t]} ∪ waiters l) (waiters_asleep l) (released l))
  | l_sleep t l : t ∈ waiters l → (0 < count_ l)%Z → latch_step l (latch_sleep t l)
  | l_return t l : t ∈ waiters l → (count_ l ≤ 0)%Z → latch_step l (latch_return t l)
  | l_wake t l : t ∈ waiters_asleep l →
      latch_step l (MkLatch (count_ l) ({[t]} ∪ waiters l) (waiters_asleep l ∖ {[t]}) (released l))
  | l_countDown l : latch_step l (countDown l).

(** A returned waiter saw the count at zero or below; from then on nobody
    sleeps. *)
Lemma latch_releases n l : rtc latch_step (CountDownLatch_new n) l →
  (released l ≠ ∅ → (count_ l ≤ 0)%Z) ∧ ((count_ l ≤ 0)%Z → waiters_asleep l = ∅).
Proof.
  intros Hr. assert (∀ a, rtc latch_step a l →
    (released a ≠ ∅ → (count_ a ≤ 0)%Z) ∧ ((count_ a ≤ 0)%Z → waiters_asleep a = ∅) →
    (released l ≠ ∅ → (count_ l ≤ 0)%Z) ∧ ((count_ l ≤ 0)%Z → waiters_asleep l = ∅)) as H.
  { clear Hr. induction 1 as [|a b c Hab _ IH]; [done|]. intros [H1 H2]. apply IH. clear IH.
    destruct Hab as [t l Ht|t l Ht Hc|t l Ht Hc|t l Ht|l]; cbn.
    - done.
    - split; [done|]. lia.
    - done.
    - split; [done|]. intros Hc. rewrite (H2 Hc). set_solver.
    - unfold countDown. destruct (count_ l - 1 =? 0)%Z eqn:E; cbn; bool_to_prop.
      + split; [intros Hne; lia|done].
      + split; [intros Hne; specialize (H1 Hne); lia|]. intros Hc. apply H2. lia. }
  apply (H _ Hr). done.
Qed.

(** ** The thread pool

    A worker is at the test of its loop, in [take] (ready or asleep), busy
    (running the initialisation callback or a task) or gone.  The workers are the
    threads [0], ..., [threads_ - 1], the others the program's; a thread in
    [run] is a caller, and a busy worker may be one too.  [maxQueueSize_ = 0]
    is no bound; without threads [run] calls the task itself. *)
Record ThreadPool := MkPool {
  threads_ : nat;
  maxQueueSize_ : nat;
  running_ : bool;
  tasks_ : list nat;
  callers : gset (nat * nat);
  callers_asleep : gset (nat * nat);
  testing : gset nat;
  workers : gset nat;
  workers_asleep : gset nat;
  busy : gset nat;
  gone : gset nat;
  (** History: tasks queued and started, in order. *)
  queued_ : list nat;
  started_ : list nat;
}.

Definition worker_ids (n : nat) : gset nat := set_seq 0 n.

(** After [start(numThreads)]: the workers run [threadInitCallback_]. *)
Definition ThreadPool_start (max numThreads : nat) : ThreadPool :=
  MkPool numThreads max true [] ∅ ∅ ∅ ∅ ∅ (worker_ids numThreads) ∅ [] [].

Definition isFull (s : ThreadPool) : bool := bool_decide (0 < maxQueueSize_ s ∧ maxQueueSize_ s ≤ length (tasks_ s)).
Definition pool_room (s : ThreadPool) : nat := maxQueueSize_ s - length (tasks_ s).
(** The threads in [run]. *)
Definition in_run (s : ThreadPool) : gset nat := set_map fst (callers s ∪ callers_asleep s).

Definition set_callers cr cw s := MkPool (threads_ s) (maxQueueSize_ s) (running_ s) (tasks_ s) cr cw (testing s) (workers s)
  (workers_asleep s) (busy s) (gone s) (queued_ s) (started_ s).
Definition set_workers t wr ww b g s := MkPool (threads_ s) (maxQueueSize_ s) (running_ s) (tasks_ s) (callers s) (callers_asleep s)
  t wr ww b g (queued_ s) (started_ s).

(** [run(task)] *)
Definition run_wait (p : nat * nat) s := set_callers (callers s ∖ {[p]}) ({[p]} ∪ callers_asleep s) s.
Definition run_done (p : nat * nat) (wr ww : gset nat) s :=
  MkPool (threads_ s) (maxQueueSize_ s) (running_ s) (tasks_ s ++ [p.2]) (callers s ∖ {[p]}) (callers_asleep s) (testing s) wr ww
    (busy s) (gone s) (queued_ s ++ [p.2]) (started_ s).
(** [run(task)] in a pool without threads. *)
Definition run_inline (p : nat * nat) s :=
  MkPool (threads_ s) (maxQueueSize_ s) (running_ s) (tasks_ s) (callers s) (callers_asleep s) (testing s) (workers s)
    (workers_asleep s) (busy s) (gone s) (queued_ s ++ [p.2]) (started_ s ++ [p.2]).
(** [runInThread]: a callback or task returns; the test. *)
Definition worker_finish (w : nat) s :=
  set_workers ({[w]} ∪ testing s) (workers s) (workers_asleep s) (busy s ∖ {[w]}) (gone s) s.
Definition worker_test (w : nat) s :=
  if running_ s then set_workers (testing s ∖ {[w]}) ({[w]} ∪ workers s) (workers_asleep s) (busy s) (gone s) s
  else set_workers (testing s ∖ {[w]}) (workers s) (workers_asleep s) (busy s) ({[w]} ∪ gone s) s.
(** [take()]: wait, return nothing, or a task. *)
Definition worker_sleep (w : nat) s :=
  set_workers (testing s) (workers s ∖ {[w]}) ({[w]} ∪ workers_asleep s) (busy s) (gone s) s.
Definition worker_none (w : nat) s :=
  set_workers ({[w]} ∪ testing s) (workers s ∖ {[w]}) (workers_asleep s) (busy s) (gone s) s.
Definition worker_task (w x : nat) (q : list nat) (cr cw : gset (nat * nat)) s :=
  MkPool (threads_ s) (maxQueueSize_ s) (running_ s) q cr cw (testing s) (workers s ∖ {[w]}) (workers_asleep s) ({[w]} ∪ busy s)
    (gone s) (queued_ s) (started_ s ++ [x]).
(** [stop()] up to the joins. *)
Definition stop s :=
  MkPool (threads_ s) (maxQueueSize_ s) false (tasks_ s) (callers s) (callers_asleep s) (testing s) (workers s ∪ workers_asleep s) ∅
    (busy s) (gone s) (queued_ s) (started_ s).

(** [notFull_.notify()] only with a bound. *)
Definition notify_if (b : bool) (cw cr cw' cr' : gset (nat * nat)) : Prop :=
  if b then notify cw cr cw' cr' else cw' = cw ∧ cr' = cr.

(** A thread is in one call of [run] at a time, a worker only while it is busy,
    and a worker in [run] does not return from its task. *)
Inductive pstep : ThreadPool → ThreadPool → Prop :=
  | p_run_inline p s : threads_ s = 0 → pstep s (run_inline p s)
  | p_run_call p s : threads_ s ≠ 0 → (p.1 ∉ in_run s) → (p.1 < threads_ s → p.1 ∈ busy s) →
      pstep s (set_callers ({[p]} ∪ callers s) (callers_asleep s) s)
  | p_run_wait p s : p ∈ callers s → isFull s = true → pstep s (run_wait p s)
  | p_run_done p wr ww s : p ∈ callers s → isFull s = false →
      notify (workers_asleep s) (workers s) ww wr → pstep s (run_done p wr ww s)
  | p_run_wake p s : p ∈ callers_asleep s → pstep s (set_callers ({[p]} ∪ callers s) (callers_asleep s ∖ {[p]}) s)
  | p_finish w s : w ∈ busy s → (w ∉ in_run s) → pstep s (worker_finish w s)
  | p_test w s : w ∈ testing s → (w ∉ workers_asleep s) → pstep s (worker_test w s)
  | p_sleep w s : w ∈ workers s → tasks_ s = [] → running_ s = true → pstep s (worker_sleep w s)
  | p_none w s : w ∈ workers s → tasks_ s = [] → running_ s = false → pstep s (worker_none w s)
  | p_task w x q cr cw s : w ∈ workers s → tasks_ s = x :: q →
      notify_if (bool_decide (0 < maxQueueSize_ s)) (callers_asleep s) (callers s) cw cr →
      pstep s (worker_task w x q cr cw s)
  | p_wake w s : w ∈ workers_asleep s →
      pstep s (set_workers (testing s) ({[w]} ∪ workers s) (workers_asleep s ∖ {[w]}) (busy s) (gone s) s)
  | p_stop s : pstep s (stop s).

Definition preachable (max n : nat) (s : ThreadPool) : Prop := rtc pstep (ThreadPool_start max n) s.

(** Where the workers are. *)
Definition everywhere (s : ThreadPool) : gset nat := testing s ∪ workers s ∪ workers_asleep s ∪ busy s ∪ gone s.

Record pinv (s : ThreadPool) : Prop := {
  p_fifo : queued_ s = started_ s ++ tasks_ s;
  p_bound : 0 < maxQueueSize_ s → length (tasks_ s) ≤ maxQueueSize_ s;
  p_workers : served (length (tasks_ s)) (workers_asleep s) (workers s);
  p_callers : served (pool_room s) (callers_asleep s) (callers s);
  p_unbounded : maxQueueSize_ s = 0 → callers_asleep s = ∅;
  p_stopped : running_ s = false → workers_asleep s = ∅;
}.

(** Every worker is somewhere, and leaves only a stopped pool. *)
Definition pplaces (s : ThreadPool) : Prop := everywhere s = worker_ids (threads_ s) ∧ (running_ s = true → gone s = ∅).

Lemma isFull_spec s : isFull s = true ↔ 0 < maxQueueSize_ s ∧ maxQueueSize_ s ≤ length (tasks_ s).
Proof. unfold isFull. apply bool_decide_eq_true. Qed.
Lemma isFull_false s : isFull s = false ↔ ¬ (0 < maxQueueSize_ s ∧ maxQueueSize_ s ≤ length (tasks_ s)).
Proof. unfold isFull. apply bool_decide_eq_false. Qed.

Lemma in_run_spec w s : w ∈ in_run s ↔ ∃ x, (w, x) ∈ callers s ∨ (w, x) ∈ callers_asleep s.
Proof.
  unfold in_run. rewrite elem_of_map. split.
  - intros ([w' x] & -> & H). exists x. set_solver.
  - intros (x & H). exists (w, x). set_solver.
Qed.

Lemma not_in_run p s : (p.1 ∉ in_run s) → (p ∉ callers s) ∧ (p ∉ callers_asleep s).
Proof. destruct p as [w x]. rewrite in_run_spec. intros H. split; intros Hp; apply H; exists x; auto. Qed.

(** A move of one element between two of the sets. *)
Lemma notify_union `{Countable C} (asleep ready asleep' ready' : gset C) :
  notify asleep ready asleep' ready' → ready' ∪ asleep' = ready ∪ asleep.
Proof.
  intros [-> |c Hc]; [done|]. apply set_eq. intros d. destruct (decide (d = c)) as [->|]; set_solver.
Qed.

Lemma notify_if_union (b : bool) (asleep ready asleep' ready' : gset (nat * nat)) :
  notify_if b asleep ready asleep' ready' → ready' ∪ asleep' = ready ∪ asleep.
Proof. destruct b; [apply notify_union|]. by intros [-> ->]. Qed.

Lemma pstep_everywhere s s' : pstep s s' → everywhere s' = everywhere s ∧ threads_ s' = threads_ s.
Proof.
  assert (∀ (w : nat) (X Y Z : gset nat), w ∈ X → Z = X ∖ {[w]} ∪ ({[w]} ∪ Y) → Z = X ∪ Y) as Hmove.
  { intros w X Y Z Hw ->. apply set_eq. intros d. destruct (decide (d = w)) as [->|]; set_solver. }
  unfold everywhere. intros Hst. split; [|destruct Hst; try done; unfold worker_test; by destruct (running_ s)].
  destruct Hst as [p s Hz|p s _ Hp Hb|p s Hp Hf|p wr ww s Hp Hf Hn|p s Hp|w s Hw Hw'|w s Hw Hw'|w s Hw Ht Hr|w s Hw Ht Hr
    |w x q cr cw s Hw Ht Hn|w s Hw|s]; try done; unfold worker_test; try destruct (running_ s); cbn;
    try (apply notify_union in Hn; rewrite <-(assoc_L _ _ wr ww), Hn; set_solver);
    apply set_eq; intros d; try (destruct (decide (d = w)) as [->|]); set_solver.
Qed.

(** Without threads nothing is queued. *)
Definition no_queue (s : ThreadPool) : Prop :=
  threads_ s = 0 → callers s = ∅ ∧ callers_asleep s = ∅ ∧ tasks_ s = [].

Lemma pstep_no_queue s s' : pstep s s' → no_queue s → no_queue s'.
Proof.
  intros Hst Hn Ht. pose proof (pstep_everywhere _ _ Hst) as [_ H0]. rewrite Ht in H0. symmetry in H0.
  specialize (Hn H0) as (Hc & Ha & Hq).
  destruct Hst; cbn in *; try done; try set_solver; try congruence; unfold worker_test; by destruct (running_ s).
Qed.

Lemma pstep_places s s' : pstep s s' → pplaces s → pplaces s'.
Proof.
  intros Hst [H1 H2]. split; [by destruct (pstep_everywhere _ _ Hst) as [-> ->]|].
  destruct Hst; cbn; try done; unfold worker_test; destruct (running_ s) eqn:E; cbn; congruence || auto.
Qed.

Lemma pstep_inv s s' : pstep s s' → no_queue s → pinv s → pinv s'.
Proof.
  intros Hst Hq [H1 H2 H3 H4 H5 H6].
  destruct Hst as [p s Hz|p s _ Hp _|p s Hp Hf|p wr ww s Hp Hf Hn|p s Hp|w s Hw Hw'|w s Hw Hw'|w s Hw Ht Hr|w s Hw Ht Hr
    |w x q cr cw s Hw Ht Hn|w s Hw|s].
  - destruct (Hq Hz) as (_ & _ & Ht). split; cbn; try done. by rewrite H1, Ht, !app_nil_r.
  - apply not_in_run in Hp as [_ Hp]. split; [done|done|done|by apply served_come|done|done].
  - apply isFull_spec in Hf as [Hm Hf]. split; [done|done|done| |cbn; intros; lia|done].
    assert (pool_room (run_wait p s) = 0) as -> by (unfold pool_room; cbn; lia). apply served_sleep. by destruct H4.
  - apply isFull_false in Hf. split; cbn.
    + by rewrite H1, app_assoc.
    + intros Hm. rewrite length_app. cbn. specialize (H2 Hm). lia.
    + rewrite length_app, Nat.add_comm. by eapply served_notify.
    + unfold pool_room in *. cbn. rewrite length_app. cbn.
      destruct (decide (maxQueueSize_ s = 0)) as [Hz|Hz].
      * rewrite (H5 Hz). split; [set_solver|done].
      * apply served_leave; [done|]. eapply served_le; [|exact H4]. specialize (H2 ltac:(lia)). lia.
    + done.
    + intros Hr. rewrite (H6 Hr) in Hn. destruct Hn as [|c Hc]; [done|set_solver].
  - split; [done|done|done|by apply served_wake| |done]. cbn. intros Hm. rewrite (H5 Hm). set_solver.
  - by split.
  - unfold worker_test. destruct (running_ s) eqn:Er.
    + split; cbn; [done|done|by apply served_come|done|done|congruence].
    + split; cbn; [done|done|done|done|done|intros _; by apply H6].
  - split; cbn; [done|done| |done|done|congruence]. rewrite Ht. cbn. apply served_sleep. by destruct H3.
  - split; cbn; [done|done| |done|done|done]. rewrite Ht. rewrite (H6 Hr). cbn. split; [set_solver|done].
  - split; cbn.
    + rewrite H1, Ht, <-app_assoc. done.
    + intros Hm. specialize (H2 Hm). rewrite Ht in H2. cbn in H2. lia.
    + rewrite Ht in H3. by apply served_leave.
    + unfold pool_room in *. cbn. destruct (decide (0 < maxQueueSize_ s)) as [Hm|Hm].
      * rewrite bool_decide_eq_true_2 in Hn by done. cbn in Hn. specialize (H2 Hm). rewrite Ht in *. cbn in *.
        apply (served_le (S (maxQueueSize_ s - S (length q)))); [lia|]. by eapply served_notify.
      * rewrite bool_decide_eq_false_2 in Hn by done. destruct Hn as [-> ->].
        assert (maxQueueSize_ s = 0) as Hz by lia. rewrite (H5 Hz). split; [set_solver|done].
    + intros Hm. rewrite bool_decide_eq_false_2 in Hn by lia. destruct Hn as [-> ->]. by apply H5.
    + intros Hr. by apply H6.
  - split; cbn; [done|done|by apply served_wake|done|done|]. intros Hr. rewrite (H6 Hr). set_solver.
  - split; cbn; [done|done|split; [set_solver|done]|done|done|done].
Qed.

Lemma preachable_inv max n s : preachable max n s → pinv s ∧ pplaces s ∧ threads_ s = n.
Proof.
  intros Hr. assert (∀ a, rtc pstep a s → no_queue a → pinv a → pplaces a → threads_ a = n → pinv s ∧ pplaces s ∧ threads_ s = n) as H.
  { clear Hr. induction 1 as [|a b c Hab _ IH]; [done|]. intros Hn Ha Hp Ht.
    apply IH; [by apply (pstep_no_queue a)|by apply (pstep_inv a)|by apply (pstep_places a)|].
    by rewrite (proj2 (pstep_everywhere _ _ Hab)). }
  apply (H _ Hr); [done| | |done].
  - split; cbn; try done; [intros; lia|split; [set_solver|done]..].
  - split; [|done]. unfold everywhere. cbn. set_solver.
Qed.

(** ** Leaving a stopped pool *)

(** Steps the workers have before them. *)
Definition to_go (s : ThreadPool) : nat := size (testing s) + 2 * size (busy s) + 3 * size (workers s).

Lemma size_leave (w : nat) (X : gset nat) : w ∈ X → S (size (X ∖ {[w]})) = size X.
Proof.
  intros Hw. rewrite size_difference by set_solver. rewrite size_singleton. assert (size X ≠ 0); [|lia].
  apply size_non_empty_iff. set_solver.
Qed.
Lemma size_enter (w : nat) (X : gset nat) : size ({[w]} ∪ X) ≤ S (size X).
Proof. rewrite size_union_alt, size_singleton. assert (size (X ∖ {[w]}) ≤ size X) by (apply subseteq_size; set_solver). lia. Qed.

(** A notification can always be made. *)
Lemma notify_if_some (b : bool) (cw cr : gset (nat * nat)) : ∃ cw' cr', notify_if b cw cr cw' cr'.
Proof.
  destruct b; [|by exists cw, cr]. destruct (decide (cw = ∅)) as [He|Hne].
  - exists cw, cr. by apply notify_none.
  - apply set_choose_L in Hne as (c & Hc). eexists _, _. by apply (notify_one _ _ c).
Qed.

(** In a stopped pool with a worker left, and none in [run], a worker can make
    a step, and is then nearer to its end. *)
Lemma stopped_progress s : running_ s = false → workers_asleep s = ∅ → in_run s ## worker_ids (threads_ s) →
  pplaces s → gone s ≠ worker_ids (threads_ s) →
  ∃ s', pstep s s' ∧ running_ s' = false ∧ in_run s' = in_run s ∧ to_go s' < to_go s.
Proof.
  intros Hr Ha Hd [Hall _] Hne. unfold to_go. destruct (decide (testing s = ∅)) as [Ht|Ht].
  - destruct (decide (busy s = ∅)) as [Hb|Hb].
    + assert (workers s ≠ ∅) as Hw.
      { intros Hw. apply Hne. rewrite <-Hall. unfold everywhere. rewrite Ht, Hw, Ha, Hb. set_solver. }
      apply set_choose_L in Hw as (w & Hw). pose proof (size_leave w _ Hw). destruct (tasks_ s) as [|x q] eqn:Eq.
      * exists (worker_none w s). split; [by apply p_none|]. split; [done|]. split; [done|]. cbn.
        pose proof (size_enter w (testing s)). lia.
      * destruct (notify_if_some (bool_decide (0 < maxQueueSize_ s)) (callers_asleep s) (callers s)) as (cw & cr & Hn).
        exists (worker_task w x q cr cw s). split; [by apply p_task|]. split; [done|].
        split; [unfold in_run; cbn; by rewrite (notify_if_union _ _ _ _ _ Hn)|]. cbn. pose proof (size_enter w (busy s)). lia.
    + apply set_choose_L in Hb as (w & Hw). pose proof (size_leave w _ Hw).
      exists (worker_finish w s). split.
      { apply p_finish; [done|]. intros Hi. apply (Hd w); [done|]. rewrite <-Hall. unfold everywhere. set_solver. }
      split; [done|]. split; [done|]. cbn. pose proof (size_enter w (testing s)). lia.
  - apply set_choose_L in Ht as (w & Hw). pose proof (size_leave w _ Hw).
    exists (worker_test w s). split; [apply p_test; [done|rewrite Ha; set_solver]|]. unfold worker_test. rewrite Hr.
    split; [done|]. split; [done|]. cbn. lia.
Qed.

(** So all workers can be joined, when their tasks return. *)
Lemma stopped_joinable s : pinv s → no_queue s → pplaces s → running_ s = false → in_run s ## worker_ids (threads_ s) →
  ∃ s', rtc pstep s s' ∧ gone s' = worker_ids (threads_ s).
Proof.
  remember (to_go s) as n eqn:En. revert s En. induction (lt_wf n) as [n _ IH]. intros s -> Hi Hq Hp Hr Hd.
  destruct (decide (gone s = worker_ids (threads_ s))) as [|Hne]; [by exists s|].
  destruct (stopped_progress s Hr (p_stopped _ Hi Hr) Hd Hp Hne) as (s1 & Hst & Hr1 & Hi1 & Hlt).
  pose proof (proj2 (pstep_everywhere _ _ Hst)) as Ht.
  destruct (IH _ Hlt s1 eq_refl) as (s2 & H2 & Hg).
  - by apply (pstep_inv s).
  - by apply (pstep_no_queue s).
  - by apply (pstep_places s).
  - done.
  - by rewrite Hi1, Ht.
  - exists s2. split; [by eapply rtc_l|]. by rewrite Hg, Ht.
Qed.

Lemma preachable_no_queue max n s : preachable max n s → no_queue s.
Proof.
  intros Hr. assert (∀ a, rtc pstep a s → no_queue a → no_queue s) as H.
  { clear Hr. induction 1 as [|a b c Hab _ IH]; [done|]. intros Hn. by apply IH, (pstep_no_queue a). }
  by apply (H _ Hr).
Qed.

(** C39: The thread pool takes its tasks in the order they were queued: those
    started are the first of those queued, each started once, and the others
    are still in the queue, at most [maxQueueSize_] with a bound.  No wakeup is
    lost: while a task waits and a worker sleeps, as many workers as there are
    tasks are awake in [take], and likewise for callers asleep in [run] and
    free places.  After [stop] no worker sleeps, and unless one of them is
    itself in [run] of this pool, the workers can all leave, so the joins
    return if the tasks do; what is still queued then is never started. *)
Theorem thread_pool_correct max n s (Hr : preachable max n s) :
  queued_ s = started_ s ++ tasks_ s ∧
  (0 < maxQueueSize_ s → length (tasks_ s) ≤ maxQueueSize_ s) ∧
  (workers_asleep s ≠ ∅ → length (tasks_ s) ≤ size (workers s)) ∧
  (callers_asleep s ≠ ∅ → 0 < maxQueueSize_ s ∧ maxQueueSize_ s - length (tasks_ s) ≤ size (callers s)) ∧
  (running_ s = true → gone s = ∅) ∧
  (running_ s = false → workers_asleep s = ∅ ∧
    (in_run s ## worker_ids n → ∃ s', rtc pstep s s' ∧ gone s' = worker_ids n)).
Proof.
  pose proof (preachable_no_queue _ _ _ Hr) as Hq.
  apply preachable_inv in Hr as (Hi & Hp & <-). pose proof Hi as [H1 H2 [_ H3] [_ H4] H5 H6]. split; [done|]. split; [done|]. split; [done|].
  split; [|split; [apply Hp|intros Hrun; split; [by apply H6|by apply stopped_joinable]]].
  intros Hne. split; [|by apply H4]. destruct (decide (maxQueueSize_ s = 0)) as [Hz|]; [by apply H5 in Hz|lia].
Qed.

(** A task waits, one worker runs another. *)
Definition demo_pool : ThreadPool :=
  run_done (2, 20) ∅ ∅ (set_callers {[(2, 20)]} ∅
    (worker_task 0 10 [] ∅ ∅ (run_done (1, 10) {[0]} ∅ (set_callers {[(1, 10)]} ∅
      (worker_test 0 (worker_finish 0 (ThreadPool_start 1 1))))))).

Ltac pset := try done; vm_compute; intros; first [done|lia|congruence].

Lemma demo_pool_reachable : preachable 1 1 demo_pool.
Proof.
  eapply rtc_l; [apply (p_finish 0); pset|]. eapply rtc_l; [apply (p_test 0); pset|].
  eapply rtc_l; [apply (p_run_call (1, 10)); pset|].
  eapply rtc_l; [apply (p_run_done (1, 10) {[0]} ∅); [set_solver|done|by apply notify_none]|].
  eapply rtc_l; [apply (p_task 0 10 [] ∅ ∅); [set_solver|done|by apply notify_none]|].
  eapply rtc_l; [apply (p_run_call (2, 20)); pset|].
  eapply rtc_l; [apply (p_run_done (2, 20) ∅ ∅); [set_solver|done|by apply notify_none]|]. apply rtc_refl.
Qed.

Lemma thread_pool_correct_witness : started_ demo_pool = [10] ∧ tasks_ demo_pool = [20] ∧
  queued_ demo_pool = started_ demo_pool ++ tasks_ demo_pool.
Proof.
  split; [reflexivity|]. split; [reflexivity|].
  exact (proj1 (thread_pool_correct 1 1 demo_pool demo_pool_reachable)).
Defined.

(** ** Callers who never return *)

(** The queue is full, no worker is in [take] or on its way to it: they are
    gone, or in [run] themselves. *)
Definition stranded (p : nat * nat) (s : ThreadPool) : Prop :=
  threads_ s ≠ 0 ∧ testing s = ∅ ∧ workers s = ∅ ∧ workers_asleep s = ∅ ∧ (busy s ⊆ in_run s) ∧ isFull s = true ∧
  (p ∈ callers s ∨ p ∈ callers_asleep s).

Lemma stranded_step p s s' : pstep s s' → stranded p s → stranded p s'.
Proof.
  intros Hst (H0 & H1 & H2 & H3 & H4 & H5 & H6). unfold stranded.
  destruct Hst as [p' s Hz|p' s _ Hp Hb|p' s Hp Hf|p' wr ww s Hp Hf Hn|p' s Hp|w s Hw Hw'|w s Hw Hw'|w s Hw Ht Hr|w s Hw Ht Hr
    |w x q cr cw s Hw Ht Hn|w s Hw|s]; try congruence;
    try (by rewrite ?H1, ?H2, ?H3 in Hw; apply not_elem_of_empty in Hw); try (by destruct (Hw' (H4 _ Hw))).
  - do 4 (split; [done|]). split; [|split; [done|cbn; set_solver]].
    intros w Hw. apply H4 in Hw. rewrite in_run_spec in *. destruct Hw as (x & Hx). exists x. cbn. set_solver.
  - assert (in_run (run_wait p' s) = in_run s) as He.
    { unfold in_run. cbn. f_equal. apply set_eq. intros d. destruct (decide (d = p')) as [->|]; set_solver. }
    do 4 (split; [done|]). split; [by rewrite He|]. split; [done|]. cbn. destruct (decide (p = p')) as [->|]; set_solver.
  - set (s' := set_callers _ _ s). assert (in_run s' = in_run s) as He.
    { unfold in_run. cbn. f_equal. apply set_eq. intros d. destruct (decide (d = p')) as [->|]; set_solver. }
    do 4 (split; [done|]). split; [by rewrite He|]. split; [done|]. cbn. destruct (decide (p = p')) as [->|]; set_solver.
  - cbn. rewrite H2, H3. do 2 (split; [done|]). split; [set_solver|]. split; [done|]. split; [exact H4|]. by split.
Qed.

(** Such a caller never returns, whatever happens. *)
Lemma stop_strands_callers p s s' : stranded p s → rtc pstep s s' → p ∈ callers s' ∨ p ∈ callers_asleep s'.
Proof.
  intros Hs Hr. assert (stranded p s') as (_ & _ & _ & _ & _ & _ & H); [|done].
  induction Hr as [|a b c Hab _ IH]; [done|]. by apply IH, (stranded_step p a).
Qed.

(** Somebody waits in [run] when the pool is stopped, and the worker leaves
    with the queue full: task 20 is never started either. *)
Definition demo_stranded : ThreadPool := worker_test 0 (worker_finish 0 (stop (set_callers {[(3, 30)]} ∅ demo_pool))).

Lemma demo_stranded_reachable : preachable 1 1 demo_stranded ∧ stranded (3, 30) demo_stranded ∧
  tasks_ demo_stranded = [20] ∧ gone demo_stranded = worker_ids 1.
Proof.
  split; [|split; [|by split]].
  2:{ repeat (split; [vm_compute; done|]); left; vm_compute; done. }
  unfold preachable. etrans; [apply demo_pool_reachable|].
  eapply rtc_l; [apply (p_run_call (3, 30)); pset|]. eapply rtc_l; [apply p_stop|].
  eapply rtc_l; [apply (p_finish 0); pset|]. eapply rtc_l; [apply (p_test 0); pset|]. apply rtc_refl.
Qed.

(** The only worker's task calls [run] of its own full pool: nothing is ever
    started again, and [stop] never returns. *)
Definition demo_own_pool : ThreadPool := set_callers {[(0, 30)]} ∅ demo_pool.

Lemma demo_own_pool_reachable : preachable 1 1 demo_own_pool ∧ stranded (0, 30) demo_own_pool.
Proof.
  split; [|repeat (split; [vm_compute; done|]); left; vm_compute; done].
  unfold preachable. etrans; [apply demo_pool_reachable|].
  eapply rtc_l; [apply (p_run_call (0, 30)); pset|]. apply rtc_refl.
Qed.
