(* ===== verification/Threads.v ===== *)
(** * Threads and locks (master/base/Mutex.h, Condition.h, Condition.cc,
    CurrentThread.h, CurrentThread.cc, Thread.h, Thread.cc, Atomic.h)

    pthreads' mutex, condition variable and threads are their documented
    behaviour; what is modelled is what the classes add: [MutexLock]'s holder,
    the guard of [Condition::wait], the deadline of [waitForSeconds], the cached
    thread id, the start of a thread and the end of its function.  Threads
    interleave at every pthread call and at every access to [holder_]. *)
From stdpp Require Import functions relations.
From S2P Require Import Prelude CxxString Timestamp.
Local Open Scope Z_scope.

(** ** [MutexLock] and [Condition::wait] *)
Module Mutex.

(** Where a thread is; threads are numbered from 1 as the kernel does. *)
Inductive pc :=
  | Outside
  | Owning      (* pthread_mutex_lock or pthread_cond_wait returned, before assignHolder *)
  | Inside      (* between assignHolder and unassignHolder *)
  | Leaving     (* unlock(): before pthread_mutex_unlock *)
  | Guarded     (* wait(): UnassignGuard is constructed, before pthread_cond_wait *)
  | Waiting.    (* in pthread_cond_wait, the mutex released *)

#[export] Instance pc_eq_dec : EqDecision pc.
Proof. solve_decision. Defined.

Record MutexLock := MkMutex { mutex_ : option nat; holder_ : nat; pcs : nat → pc }.
Definition MutexLock_new : MutexLock := MkMutex None 0 (λ _, Outside).

Definition assignHolder (t : nat) (s : MutexLock) : MutexLock := MkMutex (mutex_ s) t (pcs s).
Definition unassignHolder (s : MutexLock) : MutexLock := MkMutex (mutex_ s) 0 (pcs s).
Definition isLockedByThisThread (t : nat) (s : MutexLock) : bool := bool_decide (holder_ s = t).
(** [~MutexLock]'s assertion. *)
Definition MutexLock_dtor (s : MutexLock) : outcome unit := assert_ (bool_decide (holder_ s = 0%nat)).

Definition go (t : nat) (p : pc) (s : MutexLock) : MutexLock := MkMutex (mutex_ s) (holder_ s) (<[t := p]> (pcs s)).
Definition take (t : nat) (s : MutexLock) : MutexLock := MkMutex (Some t) (holder_ s) (pcs s).
Definition release (s : MutexLock) : MutexLock := MkMutex None (holder_ s) (pcs s).

(** [lock], [unlock] and [wait], one move of thread [t] at a time. *)
Inductive mstep (t : nat) (s : MutexLock) : MutexLock → Prop :=
  | m_lock : pcs s t = Outside → mutex_ s = None → mstep t s (go t Owning (take t s))
  | m_assign : pcs s t = Owning → mstep t s (go t Inside (assignHolder t s))
  | m_unassign : pcs s t = Inside → mstep t s (go t Leaving (unassignHolder s))
  | m_unlock : pcs s t = Leaving → mstep t s (go t Outside (release s))
  | m_guard : pcs s t = Inside → mstep t s (go t Guarded (unassignHolder s))
  | m_sleep : pcs s t = Guarded → mstep t s (go t Waiting (release s))
  | m_wake : pcs s t = Waiting → mutex_ s = None → mstep t s (go t Owning (take t s)).

Definition mreachable (s : MutexLock) : Prop := rtc (λ a b, ∃ t, (0 < t)%nat ∧ mstep t a b) MutexLock_new s.

(** Whether a thread there owns the pthread mutex. *)
Definition owns (p : pc) : bool := match p with Outside | Waiting => false | _ => true end.

Record minv (s : MutexLock) : Prop := {
  mi_owner t : owns (pcs s t) = true ↔ mutex_ s = Some t;
  mi_holder t : (0 < t)%nat → holder_ s = t ↔ pcs s t = Inside;
}.

Lemma minv_owner s t u : minv s → owns (pcs s t) = true → owns (pcs s u) = true → t = u.
Proof. intros Hi Ht Hu. apply (mi_owner s Hi) in Ht, Hu. congruence. Qed.

Lemma mstep_inv t s s' : (0 < t)%nat → mstep t s s' → minv s → minv s'.
Proof.
  intros Ht Hst Hi. pose proof (mi_owner s Hi) as Ho. pose proof (mi_holder s Hi) as Hh.
  pose proof (λ u, minv_owner s t u Hi) as Hu. pose proof (Ho t) as Hot. pose proof (Hh t Ht) as Hht.
  assert (∀ p u, <[t := p]> (pcs s) u = if decide (t = u) then p else pcs s u) as Hp.
  { intros p u. case_decide; subst; [by rewrite fn_lookup_insert|by rewrite fn_lookup_insert_ne]. }
  destruct Hst as [Hc Hm|Hc|Hc|Hc|Hc|Hc|Hc Hm]; split; intros u; cbn; rewrite Hp;
    specialize (Ho u); specialize (Hh u); specialize (Hu u); rewrite Hc in *; cbn in Hot, Hu;
    case_decide as He; subst; cbn; try tauto; intuition (subst; try congruence; try lia).
  all: match goal with H : pcs ?s ?u = Inside |- _ => rewrite H in *; cbn in *; intuition congruence end.
Qed.

Lemma mreachable_inv s : mreachable s → minv s.
Proof.
  intros Hr. assert (∀ a, rtc (λ a b, ∃ t, (0 < t)%nat ∧ mstep t a b) a s → minv a → minv s) as H.
  { clear Hr. induction 1 as [|a b c (t & Ht & Hab) _ IH]; [done|]. intros Ha. by apply IH, (mstep_inv t a). }
  apply (H _ Hr). split; cbn; [done|]. intros t Ht. split; [lia|done].
Qed.

(** [isLockedByThisThread] tells the truth: however threads lock, unlock
    and wait, at most one is between [assignHolder] and [unassignHolder], that
    one and no other sees itself as the holder, and it owns the mutex; when no
    thread owns the mutex, the destructor's assertion holds. *)
Theorem mutex_holder_is_owner s (Hr : mreachable s) :
  (∀ t, (0 < t)%nat → isLockedByThisThread t s = true ↔ pcs s t = Inside) ∧
  (∀ t, pcs s t = Inside → mutex_ s = Some t) ∧
  (∀ t u, pcs s t = Inside → pcs s u = Inside → t = u) ∧
  (mutex_ s = None → MutexLock_dtor s = Ret ()).
Proof.
  apply mreachable_inv in Hr as Hi. split; [|split; [|split]].
  - intros t Ht. unfold isLockedByThisThread. rewrite bool_decide_eq_true. by apply mi_holder.
  - intros t Ht. apply (mi_owner s Hi). by rewrite Ht.
  - intros t u Ht Hu. apply (minv_owner s t u Hi); [by rewrite Ht|by rewrite Hu].
  - intros Hm. unfold MutexLock_dtor. rewrite bool_decide_eq_true_2; [done|].
    destruct (holder_ s) as [|t] eqn:Hh; [done|]. exfalso. apply (mi_holder s Hi (S t)) in Hh; [|lia].
    assert (owns (pcs s (S t)) = true) as Ho by (by rewrite Hh). apply (mi_owner s Hi) in Ho. congruence.
Qed.

(** Thread 1 waits inside its critical section while thread 2 has the lock. *)
Definition demo_mutex : MutexLock :=
  let s1 := go 1 Inside (assignHolder 1 (go 1 Owning (take 1 MutexLock_new))) in
  let s2 := go 1 Waiting (release (go 1 Guarded (unassignHolder s1))) in
  go 2 Inside (assignHolder 2 (go 2 Owning (take 2 s2))).

Lemma demo_mutex_reachable : mreachable demo_mutex.
Proof.
  unfold mreachable, demo_mutex.
  eapply rtc_l; [exists 1%nat; split; [lia|by apply m_lock]|]. eapply rtc_l; [exists 1%nat; split; [lia|by apply m_assign]|].
  eapply rtc_l; [exists 1%nat; split; [lia|by apply m_guard]|]. eapply rtc_l; [exists 1%nat; split; [lia|by apply m_sleep]|].
  eapply rtc_l; [exists 2%nat; split; [lia|by apply m_lock]|]. eapply rtc_l; [exists 2%nat; split; [lia|by apply m_assign]|].
  apply rtc_refl.
Qed.

Lemma mutex_holder_is_owner_witness :
  pcs demo_mutex 1 = Waiting ∧ isLockedByThisThread 1 demo_mutex = false ∧ isLockedByThisThread 2 demo_mutex = true ∧
  mutex_ demo_mutex = Some 2%nat.
Proof.
  split; [reflexivity|]. split; [reflexivity|]. split; [reflexivity|].
  exact (proj1 (proj2 (mutex_holder_is_owner demo_mutex demo_mutex_reachable)) 2%nat eq_refl).
Defined.
End Mutex.

(** ** [Condition::waitForSeconds] *)
Definition kNanoSecondsPerSecond : Z := 1000000000.

(** The absolute time, from the clock's and the wait in nanoseconds; the
    division truncates. *)
Definition deadline (tv_sec tv_nsec nanoseconds : Z) : outcome (Z * Z) :=
  _ ← defined (in_sb 64 (tv_nsec + nanoseconds));
  let s := tv_sec + Z.quot (tv_nsec + nanoseconds) kNanoSecondsPerSecond in
  _ ← defined (in_sb 64 s);
  Ret (s, Z.rem (tv_nsec + nanoseconds) kNanoSecondsPerSecond).

(** A wait of no negative length gives a proper timespec, exactly that long
    after the clock. *)
Lemma deadline_exact tv_sec tv_nsec ns s n :
  0 ≤ tv_nsec < kNanoSecondsPerSecond → 0 ≤ ns → deadline tv_sec tv_nsec ns = Ret (s, n) →
  0 ≤ n < kNanoSecondsPerSecond ∧ s * kNanoSecondsPerSecond + n = tv_sec * kNanoSecondsPerSecond + tv_nsec + ns.
Proof.
  unfold deadline, kNanoSecondsPerSecond. intros Hn Hns. destruct (in_sb 64 (tv_nsec + ns)); [|done]. cbn.
  destruct (in_sb 64 _); [|done]. cbn. intros [= <- <-].
  pose proof (Z.quot_rem' (tv_nsec + ns) 1000000000). pose proof (Z.rem_bound_pos (tv_nsec + ns) 1000000000). lia.
Qed.

(** A negative one may give negative nanoseconds, which the kernel rejects:
    the wait then returns at once, as if notified. *)
Lemma deadline_negative : deadline 100 0 (-1) = Ret (100, -1).
Proof. done. Qed.

(** ** [AtomicIntegerT] of [w] bits: the builtins wrap, the additions of the
    results do not *)
Section Atomic.
Context (w : Z).
Definition get (v : Z) : Z * Z := (v, v).
Definition getAndAdd (x v : Z) : Z * Z := (v, wraps w (v + x)).
Definition addAndGet (x v : Z) : outcome Z * Z :=
  let '(r, v') := getAndAdd x v in (_ ← defined (in_sb w (r + x)); Ret (r + x), v').
Definition incrementAndGet : Z → outcome Z * Z := addAndGet 1.
Definition decrementAndGet : Z → outcome Z * Z := addAndGet (-1).
Definition getAndSet (x v : Z) : Z * Z := (v, x).

Lemma addAndGet_agrees x v : 0 < w → in_s w (v + x) → addAndGet x v = (Ret (v + x), v + x).
Proof.
  intros Hw H. unfold addAndGet, getAndAdd. rewrite wraps_small by done. by rewrite (proj2 (in_sb_spec w _) H).
Qed.
End Atomic.

(** ** [CurrentThread] *)
Module CurrentThread.

(** The thread-local variables; [os_tid] is what [gettid] would say. *)
Record Tls := MkTls {
  t_cachedTid : Z;
  t_tidString : bytes;
  t_tidStringLength : Z;
  t_threadName : bytes;
  os_tid : Z;
}.

Definition Tls_new (tid : Z) : Tls := MkTls 0 [] 6 s!"unknown" tid.

(** "%5d " into 32 characters. *)
Definition cacheTid (s : Tls) : Tls :=
  if t_cachedTid s =? 0 then
    let str := dec_pad 5 (os_tid s) ++ s!" " in
    MkTls (os_tid s) (ztake 31 str) (zlen str) (t_threadName s) (os_tid s)
  else s.

Definition tid (s : Tls) : Z * Tls :=
  let s' := if t_cachedTid s =? 0 then cacheTid s else s in (t_cachedTid s', s').

Definition isMainThread (pid : Z) (s : Tls) : bool := fst (tid s) =? pid.

(** [fork()]: the child is another thread for the kernel; [afterFork] runs in
    it, as [ThreadNameInitializer] has asked. *)
Definition afterFork (s : Tls) : Tls :=
  snd (tid (MkTls 0 (t_tidString s) (t_tidStringLength s) s!"main" (os_tid s))).
Definition fork (child : Z) (s : Tls) : Tls :=
  afterFork (MkTls (t_cachedTid s) (t_tidString s) (t_tidStringLength s) (t_threadName s) child).

(** [nanosleep]'s argument. *)
Definition sleepUsec (usec : Z) : outcome (Z * Z) :=
  let r := Z.rem usec kMicroSecondsPerSecond * 1000 in _ ← defined (in_sb 64 r); Ret (Z.quot usec kMicroSecondsPerSecond, r).

(** What is cached is the kernel's id and its text, which fits. *)
Definition tls_ok (s : Tls) : Prop :=
  0 < os_tid s < 2 ^ 31 ∧
  (t_cachedTid s = 0 ∨
   t_cachedTid s = os_tid s ∧ t_tidString s = dec_pad 5 (os_tid s) ++ s!" " ∧ t_tidStringLength s = zlen (t_tidString s)).

Lemma tid_text_fits t : 0 < t < 2 ^ 31 → zlen (dec_pad 5 t ++ s!" ") ≤ 11.
Proof.
  intros Ht. unfold dec_pad, dec_int. rewrite (proj2 (Z.ltb_ge _ _)) by lia.
  pose proof (dec_nat_length 10 t ltac:(lia) ltac:(change (10 ^ Z.of_nat 10) with 10000000000; lia)) as Hl.
  unfold zlen in *. rewrite length_app, length_pad_left. cbn [length b_of_string Stdlib.Strings.String.list_ascii_of_string]. lia.
Qed.

Lemma tid_ok s : tls_ok s → tls_ok (snd (tid s)) ∧ fst (tid s) = os_tid s ∧ os_tid (snd (tid s)) = os_tid s ∧
  t_tidString (snd (tid s)) = dec_pad 5 (os_tid s) ++ s!" " ∧ t_tidStringLength (snd (tid s)) = zlen (t_tidString (snd (tid s))) ∧
  t_threadName (snd (tid s)) = t_threadName s.
Proof.
  intros [Ht Hc]. unfold tid, cacheTid. destruct (t_cachedTid s =? 0) eqn:E; bool_to_prop.
  - pose proof (tid_text_fits _ Ht) as Hl. unfold tls_ok. cbn [fst snd os_tid t_cachedTid t_tidString t_tidStringLength t_threadName].
    unfold ztake. rewrite (firstn_all2 (A := ascii)) by (unfold zlen in Hl; lia). auto 10.
  - destruct Hc as [?|(Hc & Hs & Hl)]; [done|]. cbn [fst snd]. unfold tls_ok. auto 10.
Qed.

Inductive cop := CTid | CFork (child : Z).
Definition crun (s : Tls) (o : cop) : Tls := match o with CTid => snd (tid s) | CFork child => fork child s end.
Definition clegal (o : cop) : Prop := match o with CFork child => 0 < child < 2 ^ 31 | _ => True end.

(** [tid()] is the kernel's id whatever was cached before, also in a child. *)
Lemma tid_follows_forks t ops : 0 < t < 2 ^ 31 → Forall clegal ops →
  let s := foldl crun (Tls_new t) ops in tls_ok s ∧ fst (tid s) = os_tid s.
Proof.
  intros Ht Hops. assert (∀ s, tls_ok s → tls_ok (foldl crun s ops)) as H.
  { induction Hops as [|o ops Ho _ IH]; intros s Hs; [done|]. cbn [foldl]. apply IH. destruct o as [|child].
    - exact (proj1 (tid_ok s Hs)).
    - refine (proj1 (tid_ok _ _)). split; [exact Ho|by left]. }
  assert (tls_ok (foldl crun (Tls_new t) ops)) as Hs by (apply H; split; [done|by left]).
  split; [done|]. exact (proj1 (proj2 (tid_ok _ Hs))).
Qed.
End CurrentThread.

(** ** [Thread] *)
Module ThreadObject.
Import CurrentThread.

(** How the thread's function ends. *)
Inductive ending := EReturn | EException | EStdException | EOther.

(** Where the owner is, and where the new thread is. *)
Inductive ppc := PFree | PStarting (* in latch_.wait() *) | PJoining (* in pthread_join *).
Inductive cpc :=
  | CNone
  | CCreated      (* in startThread, before *tid_ is set *)
  | CTidSet       (* before latch_->countDown() *)
  | CCounted      (* before the name is set *)
  | CRunning      (* in func_() *)
  | CFinished
  | CAborted      (* abort() after an exception *)
  | CRethrown.    (* the exception leaves the thread *)

Record Thread := MkThread {
  started_ : bool; joined_ : bool;
  tid_ : Z;
  name_ : bytes;
  latch_ : Z;
  parent_ : ppc;
  child_ : cpc;
  tls_ : Tls;          (* the new thread's *)
  runs_ : nat;         (* calls of func_ *)
  detached_ : bool;
}.

Definition set_owner (st j : bool) (p : ppc) (d : bool) s := MkThread st j (tid_ s) (name_ s) (latch_ s) p (child_ s) (tls_ s) (runs_ s) d.
Definition set_child (c : cpc) (t l : Z) (tls : Tls) (n : nat) s := MkThread (started_ s) (joined_ s) t (name_ s) l (parent_ s) c tls n (detached_ s).
Definition goto (c : cpc) s := set_child c (tid_ s) (latch_ s) (tls_ s) (runs_ s) s.
Definition set_name (nm : bytes) (t : Tls) : Tls := MkTls (t_cachedTid t) (t_tidString t) (t_tidStringLength t) nm (os_tid t).

(** The constructor and [setDefaultName]; [numCreated_] is the class's. *)
Definition setDefaultName (num : Z) (name : bytes) : bytes :=
  match name with [] => ztake 31 (s!"Thread" ++ dec_int num) | _ => name end.
Definition Thread_new (name : bytes) (os : Z) : ST Z Thread := λ numCreated_,
  let '(r, n') := incrementAndGet 32 numCreated_ in
  (num ← r; Ret (MkThread false false 0 (setDefaultName num name) 1 PFree CNone (Tls_new os) 0 false), n').

Abbreviation thr := (ST Thread).

(** [start()] up to [latch_.wait()], and from there; [created]: pthread_create
    succeeded; [LOG_SYSFATAL] aborts. *)
Definition start (created : bool) : thr unit :=
  s ← st_get;
  lift (assert_ (negb (started_ s))) ;;
  if created then st_modify (λ s, goto CCreated (set_owner true (joined_ s) PStarting (detached_ s) s))
  else lift AssertFail.
Definition start_return : thr unit :=
  s ← st_get;
  lift (assert_ (0 <? tid_ s)) ;;
  st_modify (λ s, set_owner (started_ s) (joined_ s) PFree (detached_ s) s).

(** [join()] up to pthread_join. *)
Definition join : thr unit :=
  s ← st_get;
  lift (assert_ (started_ s)) ;;
  lift (assert_ (negb (joined_ s))) ;;
  st_modify (λ s, set_owner (started_ s) true PJoining (detached_ s) s).
Definition join_return : thr unit := st_modify (λ s, set_owner (started_ s) (joined_ s) PFree (detached_ s) s).
Definition Thread_dtor : thr unit :=
  st_modify (λ s, set_owner (started_ s) (joined_ s) (parent_ s) (started_ s && negb (joined_ s)) s).

(** [runInThread()] *)
Definition run_tid (s : Thread) : Thread :=
  let '(t, tls) := tid (tls_ s) in set_child CTidSet t (latch_ s) tls (runs_ s) s.
Definition run_countDown (s : Thread) : Thread := set_child CCounted (tid_ s) (latch_ s - 1) (tls_ s) (runs_ s) s.
Definition run_func (s : Thread) : Thread :=
  let nm := match name_ s with [] => s!"muduoThread" | _ => name_ s end in
  set_child CRunning (tid_ s) (latch_ s) (set_name nm (tls_ s)) (S (runs_ s)) s.
Definition run_end (e : ending) (s : Thread) : Thread :=
  match e with
  | EReturn => set_child CFinished (tid_ s) (latch_ s) (set_name s!"finished" (tls_ s)) (runs_ s) s
  | EException | EStdException => set_child CAborted (tid_ s) (latch_ s) (set_name s!"crashed" (tls_ s)) (runs_ s) s
  | EOther => set_child CRethrown (tid_ s) (latch_ s) (set_name s!"crashed" (tls_ s)) (runs_ s) s
  end.

(** The owner uses the object from one thread, starts it once, joins it once,
    and destroys it when neither is under way. *)
Inductive hstep (s : Thread) : Thread → Prop :=
  | h_start s' : parent_ s = PFree → started_ s = false → start true s = (Ret (), s') → hstep s s'
  | h_start_return s' : parent_ s = PStarting → latch_ s = 0 → snd (start_return s) = s' → hstep s s'
  | h_join s' : parent_ s = PFree → started_ s = true → joined_ s = false → join s = (Ret (), s') → hstep s s'
  | h_join_return s' : parent_ s = PJoining → child_ s = CFinished → join_return s = (Ret (), s') → hstep s s'
  | h_dtor s' : parent_ s = PFree → Thread_dtor s = (Ret (), s') → hstep s s'
  | h_tid : child_ s = CCreated → hstep s (run_tid s)
  | h_count : child_ s = CTidSet → hstep s (run_countDown s)
  | h_func : child_ s = CCounted → hstep s (run_func s)
  | h_end e : child_ s = CRunning → hstep s (run_end e s).

Definition hreachable (name : bytes) (num os : Z) (s : Thread) : Prop :=
  ∃ s0, fst (Thread_new name os num) = Ret s0 ∧ rtc hstep s0 s.

(** What the new thread has done, by its place. *)
Definition counted (c : cpc) : bool := match c with CNone | CCreated | CTidSet => false | _ => true end.
Definition entered (c : cpc) : nat := match c with CNone | CCreated | CTidSet | CCounted => 0 | _ => 1 end.

Record hinv (os : Z) (s : Thread) : Prop := {
  hi_latch : latch_ s = if counted (child_ s) then 0 else 1;
  hi_tid : child_ s ≠ CNone → child_ s ≠ CCreated → tid_ s = os;
  hi_tls : tls_ok (tls_ s) ∧ os_tid (tls_ s) = os;
  hi_runs : runs_ s = entered (child_ s);
  hi_started : started_ s = false ↔ child_ s = CNone;
  hi_starting : parent_ s = PFree → started_ s = true → counted (child_ s) = true;
  hi_waits : parent_ s ≠ PFree → started_ s = true;
  hi_name : name_ s ≠ [];
  hi_running : child_ s = CRunning → t_threadName (tls_ s) = name_ s;
}.

Lemma set_name_ok nm t : tls_ok t → tls_ok (set_name nm t).
Proof. done. Qed.

Lemma hstep_inv os s s' : hstep s s' → hinv os s → hinv os s'.
Proof.
  intros Hst [H1 H2 [H3 H3'] H4 H5 H6 Hw H7 H8].
  destruct Hst as [s' Hp Hs Hm|s' Hp Hl Hm|s' Hp Hs Hj Hm|s' Hp Hc Hm|s' Hp Hm|Hc|Hc|Hc|e Hc].
  - unfold start, mbind, ST_bind, st_get, lift in Hm. cbn in Hm. rewrite Hs in Hm. injection Hm as <-.
    apply H5 in Hs as Hn. rewrite Hn in *. split; cbn in *; try done; congruence.
  - unfold start_return, mbind, ST_bind, st_get, lift in Hm. cbn in Hm. destruct (assert_ _); subst s'; cbn; split; cbn; try done.
    intros _ Hs. destruct (counted (child_ s)); [done|lia].
  - unfold join, mbind, ST_bind, st_get, lift in Hm. cbn in Hm. rewrite Hs, Hj in Hm. injection Hm as <-. split; cbn; done.
  - injection Hm as <-. split; cbn; try done. by rewrite Hc.
  - injection Hm as <-. split; cbn; try done.
  - destruct (tid_ok _ H3) as (Ht & Hf & Ho & _ & _ & Hnm). unfold run_tid. destruct (tid (tls_ s)) as [t tls].
    cbn in Ht, Hf, Ho, Hnm. rewrite Hc in *. split; cbn in *; try done; try congruence; try (split; [done|congruence]).
    rewrite H5. done.
  - rewrite Hc in *. split; cbn in *; try done; [lia|auto|rewrite H5; done].
  - rewrite Hc in *. split; cbn in *; try done; [auto|lia|rewrite H5; done|]. intros _. by destruct (name_ s).
  - rewrite Hc in *. specialize (H2 ltac:(done) ltac:(done)). destruct e; split; cbn in *; try done; rewrite H5; done.
Qed.

Lemma hinv_new name num os s : 0 < os < 2 ^ 31 → fst (Thread_new name os num) = Ret s → hinv os s.
Proof.
  intros Hos. unfold Thread_new, incrementAndGet, addAndGet, getAndAdd. cbn. unfold defined. destruct (in_sb 32 (num + 1)); [|done].
  cbn. intros [= <-]. split; cbn; try done.
  - split; [split; [done|by left]|done].
  - unfold setDefaultName. destruct name as [|c name]; [|done]. intros Hn. apply (f_equal length) in Hn.
    unfold ztake in Hn. rewrite length_take, length_app in Hn. cbn in Hn. lia.
Qed.

Lemma hreachable_inv name num os s : 0 < os < 2 ^ 31 → hreachable name num os s → hinv os s.
Proof.
  intros Hos (s0 & Hn & Hr). apply (hinv_new name num os s0 Hos) in Hn.
  induction Hr as [s|s s1 s2 Hst _ IH]; [done|]. by apply IH, (hstep_inv os s).
Qed.

(** [Thread::start] returns with the new thread's id: however the two
    threads interleave, its assertion holds and the id is the kernel's; while it
    waits the new thread is on its way to the latch or the latch is open, so it
    does return; the function is called at most once, after the id is known and
    under the thread's name; and the thread's name is never empty. *)
Theorem thread_start_gives_tid name num os s (Hos : 0 < os < 2 ^ 31) (Hr : hreachable name num os s) :
  (parent_ s = PStarting → latch_ s = 0 → fst (start_return s) = Ret () ∧ tid_ s = os) ∧
  (parent_ s = PStarting → latch_ s = 0 ∨ child_ s = CCreated ∧ hstep s (run_tid s) ∨ child_ s = CTidSet ∧ hstep s (run_countDown s)) ∧
  (runs_ s ≤ 1)%nat ∧
  (child_ s = CRunning → tid_ s = os ∧ t_threadName (tls_ s) = name_ s ∧ isMainThread (tid_ s) (tls_ s) = true) ∧
  name_ s ≠ [] ∧ (parent_ s = PFree → started_ s = true → tid_ s = os).
Proof.
  apply hreachable_inv in Hr as Hi; [|done]. destruct Hi as [H1 H2 [H3 H3'] H4 H5 H6 Hw H7 H8].
  assert (counted (child_ s) = true → tid_ s = os) as Ht.
  { intros Hc. apply H2; intros He; by rewrite He in Hc. }
  split; [|split; [|split; [|split; [|split]]]].
  - intros Hp Hl. assert (counted (child_ s) = true) as Hc by (destruct (counted (child_ s)); [done|lia]).
    split; [|by apply Ht]. unfold start_return, mbind, ST_bind, st_get, lift. cbn. rewrite (Ht Hc).
    by rewrite (proj2 (Z.ltb_lt _ _)) by lia.
  - intros Hp. destruct (child_ s) eqn:Hc; cbn in H1; auto 10 using h_tid, h_count.
    specialize (Hw ltac:(congruence)). rewrite (proj2 H5 eq_refl) in Hw. done.
  - rewrite H4. destruct (child_ s); cbn; lia.
  - intros Hc. rewrite Hc in *. rewrite (Ht eq_refl). split; [done|]. split; [by apply H8|].
    unfold isMainThread. destruct (tid_ok _ H3) as (_ & -> & _). by rewrite H3', Z.eqb_refl.
  - done.
  - intros Hp Hs. apply Ht. by apply H6.
Qed.

(** A thread without a name, the seventh of the process, already in its
    function while its owner has not returned from [start]. *)
Definition demo_created : Thread :=
  match fst (Thread_new [] 4242 6) with Ret s => s | _ => MkThread false false 0 [] 0 PFree CNone (Tls_new 0) 0 false end.
Definition demo_running : Thread := run_func (run_countDown (run_tid (snd (start true demo_created)))).

Lemma demo_running_reachable : hreachable [] 6 4242 demo_running.
Proof.
  exists demo_created. split; [vm_compute; reflexivity|].
  eapply rtc_l; [by apply (h_start demo_created (snd (start true demo_created)))|].
  eapply rtc_l; [by apply h_tid|]. eapply rtc_l; [by apply h_count|]. eapply rtc_l; [by apply h_func|]. apply rtc_refl.
Qed.

Lemma thread_start_gives_tid_witness :
  name_ demo_running = s!"Thread7" ∧ parent_ demo_running = PStarting ∧
  fst (start_return demo_running) = Ret () ∧ tid_ demo_running = 4242.
Proof.
  split; [vm_compute; reflexivity|]. split; [reflexivity|].
  refine (proj1 (thread_start_gives_tid [] 6 4242 demo_running ltac:(lia) demo_running_reachable) _ _); reflexivity.
Defined.

(** The default names of threads made after one another are different. *)
Lemma default_names_differ i j : 0 ≤ i < 2 ^ 31 → 0 ≤ j < 2 ^ 31 → setDefaultName i [] = setDefaultName j [] → i = j.
Proof.
  unfold setDefaultName. intros Hi Hj Heq.
  assert (∀ k, 0 ≤ k < 2 ^ 31 → ztake 31 (s!"Thread" ++ dec_int k) = s!"Thread" ++ dec_nat k) as Ht.
  { intros k Hk. unfold dec_int. rewrite (proj2 (Z.ltb_ge _ _)) by lia. apply take_ge.
    pose proof (dec_nat_length 10 k ltac:(lia) ltac:(change (10 ^ Z.of_nat 10) with 10000000000; lia)) as Hl. rewrite length_app. unfold zlen in Hl.
    cbn [length b_of_string Stdlib.Strings.String.list_ascii_of_string]. lia. }
  rewrite !Ht in Heq by done. apply app_inv_head in Heq. rewrite <-(dec_nat_val i), <-(dec_nat_val j) by lia. by rewrite Heq.
Qed.
End ThreadObject.
