(* ===== verification/StackTrace.v ===== *)
(** * Stack traces and exceptions (master/base/CurrentThread.cc, Exception.h,
    Exception.cc)

    [stackTrace] turns what [backtrace_symbols] says about each frame into a
    line, with the symbol's name demangled when that is asked for.  The two
    functions of the platform are parameters. *)
From S2P Require Import Prelude.
Local Open Scope Z_scope.

Definition left_par_char : ascii := ascii_of_N 40.
Definition plus_char : ascii := ascii_of_N 43.
Definition newline_char : ascii := ascii_of_N 10.

(** The loop over a frame's text: the offsets of the last parenthesis and of
    the last plus sign seen so far. *)
Fixpoint scan (p : nat) (s : bytes) (left_par plus : option nat) : option nat * option nat :=
  match s with
  | [] => (left_par, plus)
  | c :: s =>
      if bool_decide (c = left_par_char) then scan (S p) s (Some p) plus
      else if bool_decide (c = plus_char) then scan (S p) s left_par (Some p)
      else scan (S p) s left_par plus
  end.

Section Trace.
(** [abi::__cxa_demangle]: the name, or nothing when the status is not 0. *)
Context (cxa_demangle : bytes → option bytes).

(** The string from [left_par + 1] while [*plus] is a null character. *)
Definition mangled (s : bytes) (left_par plus : nat) : bytes :=
  drop (S left_par) (if (left_par <? plus)%nat then take plus s else s).

Definition frame_line (demangle : bool) (s : bytes) : bytes :=
  let fallback := s ++ [newline_char] in
  if demangle then
    match scan 0 s None None with
    | (Some left_par, Some plus) =>
        match cxa_demangle (mangled s left_par plus) with
        | Some demangled => take (S left_par) s ++ demangled ++ drop plus s ++ [newline_char]
        | None => fallback
        end
    | _ => fallback
    end
  else fallback.

(** The loop starts at frame 1; [strings] is null when there was no memory. *)
Definition stackTrace (demangle : bool) (strings : option (list bytes)) : bytes :=
  match strings with
  | None => []
  | Some strings => concat (frame_line demangle <$> drop 1 strings)
  end.

Record Exception := MkException { message_ : bytes; stack_ : bytes }.

Definition Exception_ctor (msg : bytes) (strings : option (list bytes)) : Exception :=
  MkException msg (stackTrace false strings).

(** ** Properties *)
Lemma scan_app p s s' l q : scan p (s ++ s') l q = let '(l', q') := scan p s l q in scan (p + length s) s' l' q'.
Proof.
  revert p l q. induction s as [|c s IH]; intros p l q; cbn [scan app length]; [by rewrite Nat.add_0_r|].
  rewrite !IH, Nat.add_succ_comm. by repeat case_bool_decide.
Qed.

Lemma scan_plain p s l q : left_par_char ∉ s → plus_char ∉ s → scan p s l q = (l, q).
Proof.
  revert p. induction s as [|c s IH]; intros p; [done|]. rewrite !not_elem_of_cons. intros [H1 H2] [H3 H4].
  cbn [scan]. rewrite !bool_decide_eq_false_2 by congruence. by apply IH.
Qed.

Lemma frame_line_fallback d s : (left_par_char ∉ s) ∨ (plus_char ∉ s) → frame_line d s = s ++ [newline_char].
Proof.
  intros Hs. unfold frame_line. destruct d; [|done].
  assert (∀ p l q, (left_par_char ∉ s → (scan p s l q).1 = l) ∧ (plus_char ∉ s → (scan p s l q).2 = q)) as Hscan.
  { induction s as [|c s IH]; intros p l q; [done|]. assert ((left_par_char ∉ s) ∨ (plus_char ∉ s)) as Hs'.
    { rewrite !not_elem_of_cons in Hs. tauto. }
    rewrite !not_elem_of_cons. cbn [scan]. split; intros [Hc Hn].
    - rewrite bool_decide_eq_false_2 by congruence. case_bool_decide; by apply IH.
    - case_bool_decide; [by apply IH|]. rewrite bool_decide_eq_false_2 by congruence. by apply IH. }
  destruct (Hscan 0%nat None None) as [H1 H2]. destruct (scan 0 s None None) as [l q]. cbn in *.
  destruct Hs as [Hl|Hq]; [by rewrite H1|rewrite H2 by done; by destruct l].
Qed.

(** A frame "file(name+offset) ...": the demangled name takes the place of the
    name when there is one, and nothing else changes. *)
Lemma frame_line_demangles file name rest :
  left_par_char ∉ name → plus_char ∉ name → left_par_char ∉ rest → plus_char ∉ rest →
  frame_line true (file ++ left_par_char :: name ++ plus_char :: rest) =
    file ++ left_par_char :: default name (cxa_demangle name) ++ plus_char :: rest ++ [newline_char].
Proof.
  intros Hn1 Hn2 Hr1 Hr2. unfold frame_line. rewrite scan_app. destruct (scan 0 file None None) as [l q].
  cbn [scan Nat.add]. rewrite bool_decide_eq_true_2 by done. rewrite scan_app, scan_plain by done.
  cbn [scan]. rewrite bool_decide_eq_false_2, bool_decide_eq_true_2 by done. rewrite scan_plain by done.
  set (s := file ++ left_par_char :: name ++ plus_char :: rest).
  assert (take (S (length file)) s = file ++ [left_par_char]) as Htake.
  { unfold s. rewrite cons_middle, app_assoc.
    replace (S (length file)) with (length (file ++ [left_par_char])) by (rewrite length_app; simpl; lia).
    apply take_app_length. }
  assert (take (S (length file) + length name) s = (file ++ [left_par_char]) ++ name ∧
    drop (S (length file) + length name) s = plus_char :: rest) as [Htake2 Hdrop].
  { assert (s = ((file ++ [left_par_char]) ++ name) ++ plus_char :: rest) as ->
      by (unfold s; by rewrite <-!app_assoc).
    replace (S (length file) + length name)%nat with (length ((file ++ [left_par_char]) ++ name))
      by (rewrite !length_app; simpl; lia).
    by rewrite take_app_length, drop_app_length. }
  assert (mangled s (length file) (S (length file) + length name) = name) as ->.
  { unfold mangled. rewrite (proj2 (Nat.ltb_lt _ _)) by lia. rewrite Htake2.
    replace (S (length file)) with (length (file ++ [left_par_char])) by (rewrite length_app; simpl; lia).
    apply drop_app_length. }
  destruct (cxa_demangle name) as [d|]; cbn [default from_option].
  - by rewrite Htake, Hdrop, <-app_assoc.
  - unfold s. by rewrite <-app_assoc, <-app_comm_cons, <-app_assoc, <-app_comm_cons.
Qed.

(** A trace has one line for each frame but the first, in order: the frame's
    text when names are not demangled, and for a frame of the form
    "file(name+offset)" the text with the demangled name in the name's place. *)
Theorem stackTrace_lines (frame0 : bytes) (frames : list bytes) :
  stackTrace false (Some (frame0 :: frames)) = concat ((λ s, s ++ [newline_char]) <$> frames) ∧
  (∀ parts : list (bytes * bytes * bytes),
    Forall (λ x, (left_par_char ∉ x.1.2) ∧ (plus_char ∉ x.1.2) ∧ (left_par_char ∉ x.2) ∧ (plus_char ∉ x.2)) parts →
    let text name x := x.1.1 ++ left_par_char :: name x ++ plus_char :: x.2 in
    stackTrace true (Some (frame0 :: (text (λ x, x.1.2) <$> parts))) =
      concat ((λ x, text (λ x, default x.1.2 (cxa_demangle x.1.2)) x ++ [newline_char]) <$> parts)).
Proof.
  split; [done|]. intros parts Hp text. unfold stackTrace. change (drop 1 (frame0 :: ?l)) with l.
  f_equal. rewrite <-list_fmap_compose.
  apply list_fmap_ext. intros i [[file name] rest] Hi.
  apply (Forall_lookup_1 _ _ _ _ Hp) in Hi as (? & ? & ? & ?). unfold compose, text. cbn [fst snd] in *.
  rewrite frame_line_demangles by done. by rewrite <-app_assoc, <-app_comm_cons, <-app_assoc.
Qed.
End Trace.

Lemma stackTrace_lines_witness :
  stackTrace (λ n, if bool_decide (n = s!"_ZN3Bar4testEv") then Some s!"Bar::test()" else None) true
    (Some [s!"x"; s!"bin/t(_ZN3Bar4testEv+0x79) [0x401909]"; s!"bin/t(main+0x4) [0x401"]) =
  s!"bin/t(Bar::test()+0x79) [0x401909]" ++ [newline_char] ++ s!"bin/t(main+0x4) [0x401" ++ [newline_char].
Proof.
  refine (proj2 (stackTrace_lines _ s!"x" [])
    [(s!"bin/t", s!"_ZN3Bar4testEv", s!"0x79) [0x401909]"); (s!"bin/t", s!"main", s!"0x4) [0x401")] _).
  repeat (apply Forall_cons; split; [split_and!; apply (bool_decide_unpack _); by vm_compute|]). by apply Forall_nil.
Defined.
