(* ===== verification/Singletons.v ===== *)
(** * One object per process, one object per thread
    (master/base/Singleton.h, ThreadLocal.h, ThreadLocalSingleton.h)

    [Singleton] builds its object under [pthread_once]: its threads are a step
    relation, the body of the once routine being one step of the thread that
    runs it.  [ThreadLocal] and [ThreadLocalSingleton] keep a pointer per
    thread under a pthread key, whose destructor runs when the thread ends.
    Objects are addresses that are never used twice; using or deleting a dead
    one is undefined. *)
From S2P Require Import Prelude.
Local Open Scope Z_scope.

(** ** Singleton *)
Module Singleton.

(** [ponce_]: what [pthread_once] knows. *)
Inductive once := Never | Running (t : Z) | Done.

Record Singleton := MkSingleton {
  ponce_ : once;
  value_ : option nat;
  objects_ : gset nat;
  fresh_ : nat;
  at_exit_ : nat;        (* handlers registered with [atexit] *)
}.

Definition Singleton_new : Singleton := MkSingleton Never None ∅ 0 0.

Section Ops.
(** [has_no_destroy<T>::value] *)
Context (has_no_destroy : bool).

Definition init : ST Singleton unit :=
  st_modify (λ s, MkSingleton (ponce_ s) (Some (fresh_ s)) ({[fresh_ s]} ∪ objects_ s) (S (fresh_ s)) (at_exit_ s)) ;;
  if negb has_no_destroy
  then st_modify (λ s, MkSingleton (ponce_ s) (value_ s) (objects_ s) (fresh_ s) (S (at_exit_ s)))
  else mret ().

(** [delete value_; value_ = NULL]; deleting a null pointer does nothing. *)
Definition destroy : ST Singleton unit :=
  s ← st_get;
  match value_ s with
  | None => mret ()
  | Some p => if bool_decide (p ∈ objects_ s)
              then st_put (MkSingleton (ponce_ s) None (objects_ s ∖ {[p]}) (fresh_ s) (at_exit_ s))
              else lift Undef
  end.

(** [exit]: the registered handlers run, each once. *)
Fixpoint run_handlers (n : nat) : ST Singleton unit :=
  match n with O => mret () | S n => destroy ;; run_handlers n end.

Definition exit : ST Singleton unit :=
  s ← st_get;
  run_handlers (at_exit_ s) ;;
  st_modify (λ s, MkSingleton (ponce_ s) (value_ s) (objects_ s) (fresh_ s) 0).

(** [instance] once [pthread_once] has returned. *)
Definition instance_return : ST Singleton nat :=
  s ← st_get;
  lift (assert_ (bool_decide (value_ s ≠ None))) ;;
  lift (or_undef (value_ s)).

Definition set_once (o : once) (s : Singleton) : Singleton :=
  MkSingleton o (value_ s) (objects_ s) (fresh_ s) (at_exit_ s).

(** The threads' steps; the log holds what [instance] returned to whom.
    [pthread_once] lets one thread run [init] and the others wait for it. *)
Inductive step : Singleton * list (Z * nat) → Singleton * list (Z * nat) → Prop :=
  | Enter t s log : ponce_ s = Never → step (s, log) (set_once (Running t) s, log)
  | Init t s s' log : ponce_ s = Running t → init s = (Ret (), s') → step (s, log) (set_once Done s', log)
  | Return t p s log : ponce_ s = Done → instance_return s = (Ret p, s) → step (s, log) (s, (t, p) :: log).

Definition reachable : Singleton * list (Z * nat) → Prop := rtc step (Singleton_new, []).

Definition singleton_inv (x : Singleton * list (Z * nat)) : Prop :=
  match ponce_ x.1 with
  | Done => x.1 = MkSingleton Done (Some 0%nat) {[0%nat]} 1 (if has_no_destroy then 0 else 1) ∧
            Forall (λ r, r.2 = 0%nat) x.2
  | o => x = (set_once o Singleton_new, [])
  end.

Lemma step_inv x y : step x y → singleton_inv x → singleton_inv y.
Proof.
  intros Hs Hi. destruct Hs as [t s log Ho|t s s' log Ho Hinit|t p s log Ho Hr];
    unfold singleton_inv in Hi; cbn [fst snd] in Hi; rewrite Ho in Hi.
  - injection Hi as -> ->. done.
  - injection Hi as -> ->. unfold init, mbind, ST_bind, st_modify, mret, ST_ret in Hinit.
    cbn in Hinit. rewrite union_empty_r_L in Hinit. unfold singleton_inv.
    destruct has_no_destroy; injection Hinit as <-; done.
  - destruct Hi as [-> Hlog]. cbn in Hr. injection Hr as <-. unfold singleton_inv. cbn. by repeat constructor.
Qed.

Lemma singleton_reachable_inv x : reachable x → singleton_inv x.
Proof.
  intros Hr. assert (∀ a, rtc step a x → singleton_inv a → singleton_inv x) as H; [|by apply (H _ Hr)].
  clear Hr. induction 1; [done|]. eauto using step_inv.
Qed.
End Ops.

(** However the threads interleave, the object is built at most once, every
    call returns that object, and it is alive; a call that reaches the end of
    [instance] does not fail its assertion.  [exit] then deletes it exactly when
    it has no [no_destroy] member; a later call fails the assertion. *)
Theorem singleton_built_once (has_no_destroy : bool) (s : Singleton) (log : list (Z * nat)) :
  reachable has_no_destroy (s, log) →
  (fresh_ s ≤ 1)%nat ∧
  (∀ t1 p1 t2 p2, (t1, p1) ∈ log → (t2, p2) ∈ log → p1 = p2 ∧ p1 ∈ objects_ s) ∧
  (ponce_ s = Done → ∃ p, instance_return s = (Ret p, s) ∧ p ∈ objects_ s) ∧
  ∃ s', exit s = (Ret (), s') ∧
    objects_ s' = (if has_no_destroy then objects_ s else ∅) ∧
    (ponce_ s = Done → (instance_return s').1 = if has_no_destroy then Ret 0%nat else AssertFail).
Proof.
  intros Hr%singleton_reachable_inv. unfold singleton_inv in Hr. cbn [fst snd] in Hr.
  destruct (ponce_ s) as [|t|] eqn:E; [injection Hr as -> ->..|destruct Hr as [-> Hlog]].
  - split; [cbn; lia|]. split; [intros ???? []%not_elem_of_nil|]. split; [done|]. eexists. split; [done|].
    by destruct has_no_destroy.
  - split; [cbn; lia|]. split; [intros ???? []%not_elem_of_nil|]. split; [done|]. eexists. split; [done|].
    by destruct has_no_destroy.
  - rewrite Forall_forall in Hlog. split; [cbn; lia|]. split.
    { intros t1 p1 t2 p2 H1%Hlog H2%Hlog. cbn in *. subst. split; [done|set_solver]. }
    split; [intros _; exists 0%nat; split; [done|cbn; set_solver]|].
    destruct has_no_destroy.
    + eexists. split; [done|]. done.
    + eexists. split.
      * unfold exit, mbind, ST_bind, st_get, st_modify. cbn. unfold destroy, mbind, ST_bind, st_get. cbn.
        rewrite bool_decide_eq_true_2 by set_solver. done.
      * split; [cbn; set_solver|done].
Qed.

Lemma singleton_built_once_witness :
  reachable false (MkSingleton Done (Some 0%nat) {[0%nat]} 1 1, [(8, 0%nat); (7, 0%nat)]) ∧
  ∀ t1 p1 t2 p2, (t1, p1) ∈ [(8, 0%nat); (7, 0%nat)] → (t2, p2) ∈ [(8, 0%nat); (7, 0%nat)] →
    p1 = p2 ∧ p1 ∈ objects_ (MkSingleton Done (Some 0%nat) {[0%nat]} 1 1).
Proof.
  assert (reachable false (MkSingleton Done (Some 0%nat) {[0%nat]} 1 1, [(8, 0%nat); (7, 0%nat)])) as Hr.
  { eapply rtc_l; [by apply (Enter false 7)|]. eapply rtc_l; [by eapply (Init false 7)|].
    eapply rtc_l; [by apply (Return false 7 0%nat)|]. eapply rtc_l; [by apply (Return false 8 0%nat)|].
    cbn. apply rtc_refl. }
  split; [exact Hr|]. exact (proj1 (proj2 (singleton_built_once false _ _ Hr))).
Defined.
End Singleton.

(** ** ThreadLocal *)
Module ThreadLocal.

(** [specific_]: the pointer under [pkey_] of each thread, null when absent. *)
Record ThreadLocal := MkThreadLocal {
  specific_ : gmap Z nat;
  objects_ : gset nat;
  fresh_ : nat;
}.

Definition ThreadLocal_ctor : ThreadLocal := MkThreadLocal ∅ ∅ 0.

(** [value] in thread [t]. *)
Definition value (t : Z) : ST ThreadLocal nat :=
  s ← st_get;
  match specific_ s !! t with
  | Some p => mret p
  | None =>
      let newObj := fresh_ s in
      st_put (MkThreadLocal (<[t := newObj]> (specific_ s)) ({[newObj]} ∪ objects_ s) (S newObj)) ;;
      mret newObj
  end.

(** [delete obj] *)
Definition destructor (obj : nat) : ST ThreadLocal unit :=
  s ← st_get;
  if bool_decide (obj ∈ objects_ s)
  then st_put (MkThreadLocal (specific_ s) (objects_ s ∖ {[obj]}) (fresh_ s)) else lift Undef.

(** The end of thread [t]: the value is set to null, then the destructor is
    called with what it was. *)
Definition thread_exit (t : Z) : ST ThreadLocal unit :=
  s ← st_get;
  match specific_ s !! t with
  | None => mret ()
  | Some p => st_put (MkThreadLocal (delete t (specific_ s)) (objects_ s) (fresh_ s)) ;; destructor p
  end.

Inductive call := Value (t : Z) | Exit (t : Z).

Fixpoint run (cs : list call) : ST ThreadLocal (list (option nat)) :=
  match cs with
  | [] => mret []
  | Value t :: cs => p ← value t; rs ← run cs; mret (Some p :: rs)
  | Exit t :: cs => thread_exit t ;; rs ← run cs; mret (None :: rs)
  end.

(** Every pointer is a live object of its own thread, and there is no other. *)
Record tl_inv (s : ThreadLocal) : Prop := {
  tl_lt p : p ∈ objects_ s → (p < fresh_ s)%nat;
  tl_owner p : p ∈ objects_ s ↔ ∃ t, specific_ s !! t = Some p;
  tl_inj t t' p : specific_ s !! t = Some p → specific_ s !! t' = Some p → t = t';
}.

Lemma tl_inv_new : tl_inv ThreadLocal_ctor.
Proof. split; cbn; [set_solver| |done]. intros p. split; [set_solver|]. by intros [t ?]. Qed.

Lemma tl_inv_add t s : tl_inv s → specific_ s !! t = None →
  tl_inv (MkThreadLocal (<[t := fresh_ s]> (specific_ s)) ({[fresh_ s]} ∪ objects_ s) (S (fresh_ s))).
Proof.
  intros [H1 H2 H3] Ht. assert (∀ t', specific_ s !! t' ≠ Some (fresh_ s)) as Hf.
  { intros t' Ht'. assert (fresh_ s ∈ objects_ s) as Hin by (apply H2; eauto). apply H1 in Hin. lia. }
  split; cbn.
  - intros p [->%elem_of_singleton|Hp%H1]%elem_of_union; lia.
  - intros p. rewrite elem_of_union, elem_of_singleton, H2. split.
    + intros [->|[t' Ht']]; [exists t; by rewrite lookup_insert_eq|]. exists t'.
      rewrite lookup_insert_ne; [done|]. congruence.
    + intros [t' [[-> <-]|[_ ?]]%lookup_insert_Some]; eauto.
  - intros t1 t2 p [[<- <-]|[? ?]]%lookup_insert_Some [[<- ?]|[? ?]]%lookup_insert_Some; try done; [| |by eapply H3].
    + by destruct (Hf t2).
    + subst. by destruct (Hf t1).
Qed.

Lemma tl_inv_delete t p s : tl_inv s → specific_ s !! t = Some p →
  tl_inv (MkThreadLocal (delete t (specific_ s)) (objects_ s ∖ {[p]}) (fresh_ s)).
Proof.
  intros [H1 H2 H3] Ht. split; cbn.
  - intros p' [Hp _]%elem_of_difference. by apply H1.
  - intros p'. rewrite elem_of_difference, not_elem_of_singleton, H2. split.
    + intros [[t' Ht'] Hne]. exists t'. apply lookup_delete_Some. split; [congruence|done].
    + intros [t' [Hne Ht']%lookup_delete_Some]. split; [eauto|]. intros ->. apply Hne. by eapply H3.
  - intros t1 t2 p' [_ ?]%lookup_delete_Some [_ ?]%lookup_delete_Some. by eapply H3.
Qed.

(** One call: what it returns and what it leaves. *)
Lemma value_eq t s : tl_inv s → ∃ p s', value t s = (Ret p, s') ∧ tl_inv s' ∧ specific_ s' !! t = Some p ∧
  (∀ t', t' ≠ t → specific_ s' !! t' = specific_ s !! t') ∧ (fresh_ s ≤ fresh_ s')%nat ∧
  (specific_ s !! t = Some p ∨ p = fresh_ s).
Proof.
  intros Hi. unfold value, mbind, ST_bind, st_get, st_put, mret, ST_ret.
  destruct (specific_ s !! t) as [p|] eqn:E; [by exists p, s; auto 10|].
  eexists _, _. split; [done|]. split; [by apply tl_inv_add|]. cbn. rewrite lookup_insert_eq.
  split; [done|]. split; [intros t' Hne; by rewrite lookup_insert_ne|]. split; [lia|by right].
Qed.

Lemma exit_eq t s : tl_inv s → ∃ s', thread_exit t s = (Ret (), s') ∧ tl_inv s' ∧
  specific_ s' = delete t (specific_ s) ∧ fresh_ s' = fresh_ s.
Proof.
  intros Hi. unfold thread_exit, destructor, mbind, ST_bind, st_get, st_put, mret, ST_ret.
  destruct (specific_ s !! t) as [p|] eqn:E.
  - cbn [objects_]. assert (p ∈ objects_ s) as Hin by (apply (tl_owner _ Hi); eauto).
    rewrite bool_decide_eq_true_2 by exact Hin.
    eexists. split; [done|]. split; [by apply (tl_inv_delete t p s)|done].
  - exists s. split; [done|]. split; [done|]. by rewrite delete_id.
Qed.

(** An object no thread holds any more never comes back. *)
Lemma run_never cs s rs s' p : tl_inv s → (p < fresh_ s)%nat → (∀ t, specific_ s !! t ≠ Some p) →
  run cs s = (Ret rs, s') → Some p ∉ rs.
Proof.
  revert s rs s'. induction cs as [|[t|t] cs IH]; intros s rs s' Hi Hp Hno Hr; cbn [run] in Hr.
  - injection Hr as <- _. apply not_elem_of_nil.
  - apply ST_bind_Ret in Hr as (p1 & s1 & H1 & Hr). apply ST_bind_Ret in Hr as (rs1 & s2 & H2 & [= <- _]).
    destruct (value_eq t s Hi) as (p1' & s1' & Hv & Hi1 & Ht & Hoth & Hf & Hnew).
    rewrite Hv in H1. injection H1 as -> ->.
    assert (p1 ≠ p) as Hne by (destruct Hnew as [?| ->]; [intros ->; by apply (Hno t)|lia]).
    apply not_elem_of_cons. split; [congruence|]. eapply (IH s1); [done|lia| |exact H2].
    intros t'. destruct (decide (t' = t)) as [->|?]; [rewrite Ht; congruence|by rewrite Hoth].
  - apply ST_bind_Ret in Hr as ([] & s1 & H1 & Hr). apply ST_bind_Ret in Hr as (rs1 & s2 & H2 & [= <- _]).
    destruct (exit_eq t s Hi) as (s1' & Hv & Hi1 & Hs & Hf). rewrite Hv in H1. injection H1 as ->.
    apply not_elem_of_cons. split; [done|]. eapply (IH s1); [done|lia| |exact H2].
    intros t'. rewrite Hs. intros [_ ?]%lookup_delete_Some. by apply (Hno t').
Qed.

(** While its thread has not ended, an object is what that thread gets, and
    nobody else. *)
Lemma run_owned cs s rs s' t p j t' p' : tl_inv s → specific_ s !! t = Some p → run cs s = (Ret rs, s') →
  cs !! j = Some (Value t') → rs !! j = Some (Some p') →
  p = p' ↔ t = t' ∧ ∀ k, (k < j)%nat → cs !! k ≠ Some (Exit t).
Proof.
  revert s rs s' j. induction cs as [|c cs IH]; intros s rs s' j Hi Ht Hr Hj Hp'; [done|].
  destruct c as [u|u]; cbn [run] in Hr.
  - apply ST_bind_Ret in Hr as (p1 & s1 & H1 & Hr). apply ST_bind_Ret in Hr as (rs1 & s2 & H2 & [= <- _]).
    destruct (value_eq u s Hi) as (p1' & s1' & Hv & Hi1 & Hu & Hoth & Hf & Hnew).
    rewrite Hv in H1. injection H1 as -> ->.
    assert (specific_ s1 !! t = Some p) as Ht1.
    { destruct (decide (t = u)) as [<-|?]; [|by rewrite Hoth]. destruct Hnew as [Heq| ->]; [by rewrite Hu, <-Heq|].
      rewrite Hu, <-Ht. revert Hv. unfold value, mbind, ST_bind, st_get. rewrite Ht. by intros [= <- _]. }
    destruct j as [|j]; cbn in Hj, Hp'.
    + injection Hj as ->. injection Hp' as ->. split.
      * intros ->. split; [by eapply (tl_inj _ Hi1)|lia].
      * intros [-> _]. congruence.
    + rewrite (IH s1 rs1 s2 j Hi1 Ht1 H2 Hj Hp'). split; intros [-> Hk]; (split; [done|]).
      * intros [|k] Hlt; [done|]. apply Hk. lia.
      * intros k Hlt. apply (Hk (S k)). lia.
  - apply ST_bind_Ret in Hr as ([] & s1 & H1 & Hr). apply ST_bind_Ret in Hr as (rs1 & s2 & H2 & [= <- _]).
    destruct (exit_eq u s Hi) as (s1' & Hv & Hi1 & Hs & Hf). rewrite Hv in H1. injection H1 as ->.
    destruct j as [|j]; cbn in Hj, Hp'; [done|].
    destruct (decide (u = t)) as [->|Hne].
    + split; [|intros [_ Hk]; exfalso; apply (Hk 0%nat); [lia|done]]. intros ->. exfalso.
      apply (run_never cs s1 rs1 s2 p' Hi1); [| |done|by eapply list_elem_of_lookup_2].
      * rewrite Hf. apply (tl_lt _ Hi). apply (tl_owner _ Hi). eauto.
      * intros t2. rewrite Hs. intros [Hne ?]%lookup_delete_Some. apply Hne. by eapply (tl_inj _ Hi).
    + rewrite (IH s1 rs1 s2 j Hi1) by (done || by rewrite Hs, lookup_delete_ne).
      split; intros [-> Hk]; (split; [done|]).
      * intros [|k] Hlt; [cbn; congruence|]. apply Hk. lia.
      * intros k Hlt. apply (Hk (S k)). lia.
Qed.

Lemma run_total cs s : tl_inv s → ∃ rs s', run cs s = (Ret rs, s') ∧ tl_inv s'.
Proof.
  revert s. induction cs as [|[t|t] cs IH]; intros s Hi; cbn [run]; [by exists [], s|..].
  - destruct (value_eq t s Hi) as (p & s1 & Hv & Hi1 & _). destruct (IH s1 Hi1) as (rs & s' & Hr & Hi').
    exists (Some p :: rs), s'. by rewrite (ST_bind_eq _ _ _ _ _ Hv), (ST_bind_eq _ _ _ _ _ Hr).
  - destruct (exit_eq t s Hi) as (s1 & Hv & Hi1 & _). destruct (IH s1 Hi1) as (rs & s' & Hr & Hi').
    exists (None :: rs), s'. by rewrite (ST_bind_eq _ _ _ _ _ Hv), (ST_bind_eq _ _ _ _ _ Hr).
Qed.

Lemma run_same cs s rs s' i j t p t' p' : tl_inv s → run cs s = (Ret rs, s') → (i < j)%nat →
  cs !! i = Some (Value t) → rs !! i = Some (Some p) → cs !! j = Some (Value t') → rs !! j = Some (Some p') →
  p = p' ↔ t = t' ∧ ∀ k, (i < k < j)%nat → cs !! k ≠ Some (Exit t).
Proof.
  revert s rs s' i j. induction cs as [|c cs IH]; intros s rs s' i j Hi Hr Hij Hci Hri Hcj Hrj; [done|].
  assert (∃ s1 r rs1, tl_inv s1 ∧ rs = r :: rs1 ∧ run cs s1 = (Ret rs1, s') ∧
    (c = Value t → r = Some p → specific_ s1 !! t = Some p)) as (s1 & r & rs1 & Hi1 & -> & Hr1 & Hs1).
  { destruct c as [u|u]; cbn [run] in Hr; apply ST_bind_Ret in Hr as (a & s1 & H1 & Hr);
      apply ST_bind_Ret in Hr as (rs1 & s2 & H2 & [= <- <-]); eexists s1, _, rs1.
    - destruct (value_eq u s Hi) as (q & s1' & Hv & Hi1 & Hu & _). rewrite Hv in H1. injection H1 as -> ->.
      split; [done|]. split; [done|]. split; [done|]. intros [= ->] [= ->]. done.
    - destruct (exit_eq u s Hi) as (s1' & Hv & Hi1 & _). destruct a. rewrite Hv in H1. injection H1 as ->. done. }
  destruct j as [|j]; [lia|]. cbn in Hcj, Hrj. destruct i as [|i]; cbn in Hci, Hri.
  - injection Hci as ->. injection Hri as ->.
    rewrite (run_owned cs s1 rs1 s' t p j t' p') by auto. split; intros [-> Hk]; (split; [done|]).
    + intros [|k] Hlt; [lia|]. apply Hk. lia.
    + intros k Hlt. apply (Hk (S k)). lia.
  - rewrite (IH s1 rs1 s' i j) by (done || lia). split; intros [-> Hk]; (split; [done|]).
    + intros [|k] Hlt; [lia|]. apply Hk. lia.
    + intros k Hlt. apply (Hk (S k)). lia.
Qed.

(** Any history of [value] calls and thread ends runs without a fault.  Two
    calls return the same object exactly when the same thread made them and
    did not end in between; the objects alive are those of the threads that
    have one, so an ended thread leaves nothing behind. *)
Theorem thread_local_objects (cs : list call) : ∃ rs s, run cs ThreadLocal_ctor = (Ret rs, s) ∧
  (∀ i j t p t' p', (i < j)%nat → cs !! i = Some (Value t) → rs !! i = Some (Some p) →
     cs !! j = Some (Value t') → rs !! j = Some (Some p') →
     p = p' ↔ t = t' ∧ ∀ k, (i < k < j)%nat → cs !! k ≠ Some (Exit t)) ∧
  (∀ p, p ∈ objects_ s ↔ ∃ t, specific_ s !! t = Some p).
Proof.
  destruct (run_total cs _ tl_inv_new) as (rs & s & Hr & Hi). exists rs, s. split; [done|].
  split; [|apply (tl_owner _ Hi)]. intros i j t p t' p' Hij H1 H2 H3 H4. by eapply run_same; [apply tl_inv_new|..].
Qed.
End ThreadLocal.

(** ** ThreadLocalSingleton *)
Module ThreadLocalSingleton.
Import ThreadLocal.

(** [t_value_] is a variable of each thread; [key_] is the deleter's key, over
    the same objects. *)
Record TLS := MkTLS {
  t_value_ : gmap Z nat;
  key_ : ThreadLocal;
}.

Definition TLS_new : TLS := MkTLS ∅ ThreadLocal_ctor.

(** [Deleter::set] *)
Definition set (t : Z) (newObj : nat) : ST TLS unit :=
  s ← st_get;
  lift (assert_ (bool_decide (specific_ (key_ s) !! t = None))) ;;
  st_modify (λ s, MkTLS (t_value_ s)
    (MkThreadLocal (<[t := newObj]> (specific_ (key_ s))) (objects_ (key_ s)) (fresh_ (key_ s)))).

Definition instance (t : Z) : ST TLS nat :=
  s ← st_get;
  (match t_value_ s !! t with
   | Some _ => mret ()
   | None =>
       let newObj := fresh_ (key_ s) in
       st_modify (λ s, MkTLS (<[t := newObj]> (t_value_ s))
         (MkThreadLocal (specific_ (key_ s)) ({[newObj]} ∪ objects_ (key_ s)) (S newObj))) ;;
       set t newObj
   end) ;;
  s ← st_get;
  lift (or_undef (t_value_ s !! t)).

Definition pointer (t : Z) (s : TLS) : option nat := t_value_ s !! t.

(** The key's destructor in thread [t]: [delete t_value_; t_value_ = 0]. *)
Definition tls_destructor (t : Z) (obj : nat) : ST TLS unit :=
  s ← st_get;
  lift (assert_ (bool_decide (t_value_ s !! t = Some obj))) ;;
  if bool_decide (obj ∈ objects_ (key_ s))
  then st_put (MkTLS (delete t (t_value_ s))
         (MkThreadLocal (specific_ (key_ s)) (objects_ (key_ s) ∖ {[obj]}) (fresh_ (key_ s))))
  else lift Undef.

Definition tls_exit (t : Z) : ST TLS unit :=
  s ← st_get;
  match specific_ (key_ s) !! t with
  | None => mret ()
  | Some p =>
      st_put (MkTLS (t_value_ s)
        (MkThreadLocal (delete t (specific_ (key_ s))) (objects_ (key_ s)) (fresh_ (key_ s)))) ;;
      tls_destructor t p
  end.

Fixpoint tls_run (cs : list call) : ST TLS (list (option nat)) :=
  match cs with
  | [] => mret []
  | Value t :: cs => p ← instance t; rs ← tls_run cs; mret (Some p :: rs)
  | Exit t :: cs => tls_exit t ;; rs ← tls_run cs; mret (None :: rs)
  end.

Lemma instance_refines t s : t_value_ s = specific_ (key_ s) → ∃ s',
  instance t s = ((value t (key_ s)).1, s') ∧ key_ s' = (value t (key_ s)).2 ∧ t_value_ s' = specific_ (key_ s').
Proof.
  intros Hv. unfold instance, value, set, lift, mbind, ST_bind, st_get, st_modify, st_put, mret, ST_ret.
  rewrite Hv. destruct (specific_ (key_ s) !! t) as [p|] eqn:E.
  - rewrite Hv, E. by eexists.
  - cbn. rewrite E. cbn. rewrite Hv, lookup_insert_eq. by eexists.
Qed.

Lemma exit_refines t s : tl_inv (key_ s) → t_value_ s = specific_ (key_ s) → ∃ s',
  tls_exit t s = (Ret (), s') ∧ key_ s' = (thread_exit t (key_ s)).2 ∧ t_value_ s' = specific_ (key_ s').
Proof.
  intros Hi Hv. destruct (exit_eq t _ Hi) as (k & Hk & _).
  unfold tls_exit, tls_destructor, thread_exit, destructor, lift, mbind, ST_bind, st_get, st_put, mret, ST_ret in *.
  destruct (specific_ (key_ s) !! t) as [p|] eqn:E; [|by exists s].
  cbn [t_value_ key_ objects_ specific_ fresh_] in *. rewrite Hv, E, bool_decide_eq_true_2 by done. cbn [assert_].
  destruct (bool_decide (p ∈ objects_ (key_ s))); [|done]. by eexists.
Qed.

(** [ThreadLocalSingleton] is [ThreadLocal] with a second copy of the pointer:
    the same calls return the same objects, the two pointers agree at every
    call and the assertions in [set] and in the destructor never fail. *)
Theorem thread_local_singleton_refines (cs : list call) : ∃ rs s k,
  tls_run cs TLS_new = (Ret rs, s) ∧ run cs ThreadLocal_ctor = (Ret rs, k) ∧ key_ s = k ∧
  ∀ t, pointer t s = specific_ k !! t.
Proof.
  assert (∀ s, tl_inv (key_ s) → t_value_ s = specific_ (key_ s) → ∃ rs s',
    tls_run cs s = (Ret rs, s') ∧ run cs (key_ s) = (Ret rs, key_ s') ∧ t_value_ s' = specific_ (key_ s')) as Hall.
  { induction cs as [|[t|t] cs IH]; intros s Hi Hv; cbn [tls_run run]; [by exists [], s|..].
    - destruct (value_eq t _ Hi) as (p & k & Hk & Hi1 & _). destruct (instance_refines t s Hv) as (s1 & H1 & Hk1 & Hv1).
      rewrite Hk in H1, Hk1. cbn in H1, Hk1. subst k. destruct (IH s1 Hi1 Hv1) as (rs & s' & Hr & Hr' & Hv').
      exists (Some p :: rs), s'. rewrite (ST_bind_eq _ _ _ _ _ H1), (ST_bind_eq _ _ _ _ _ Hr).
      by rewrite (ST_bind_eq _ _ _ _ _ Hk), (ST_bind_eq _ _ _ _ _ Hr').
    - destruct (exit_eq t _ Hi) as (k & Hk & Hi1 & _). destruct (exit_refines t s Hi Hv) as (s1 & H1 & Hk1 & Hv1).
      rewrite Hk in Hk1. cbn in Hk1. subst k. destruct (IH s1 Hi1 Hv1) as (rs & s' & Hr & Hr' & Hv').
      exists (None :: rs), s'. rewrite (ST_bind_eq _ _ _ _ _ H1), (ST_bind_eq _ _ _ _ _ Hr).
      by rewrite (ST_bind_eq _ _ _ _ _ Hk), (ST_bind_eq _ _ _ _ _ Hr'). }
  destruct (Hall TLS_new tl_inv_new eq_refl) as (rs & s & Hr & Hr' & Hv).
  exists rs, s, (key_ s). do 3 (split; [done|]). intros t. unfold pointer. by rewrite Hv.
Qed.
End ThreadLocalSingleton.
