(* ===== verification/Logger.v ===== *)
(** * The logger (master/base/Logging.h, Logging.cc, Timestamp.cc)

    A log statement builds a [Logger], which prints the time, the thread and
    the level into its [LogStream], lets the user insert, and on destruction
    adds the place and hands the text to the output function.  The text of the
    second is cached per thread.  What [gmtime_r] computes is a parameter with
    its law; the state is one thread's, with the process's level and zone. *)
From S2P Require Import Prelude CxxString Timestamp Date TimeZone LogStream Threads.
Import CurrentThread.
Local Open Scope Z_scope.

Inductive LogLevel := TRACE | DEBUG | INFO | WARN | ERROR | FATAL.
#[export] Instance level_eq_dec : EqDecision LogLevel.
Proof. solve_decision. Defined.

Definition level_num (l : LogLevel) : Z :=
  match l with TRACE => 0 | DEBUG => 1 | INFO => 2 | WARN => 3 | ERROR => 4 | FATAL => 5 end.
Definition LogLevelName (l : LogLevel) : bytes :=
  match l with
  | TRACE => s!"TRACE " | DEBUG => s!"DEBUG " | INFO => s!"INFO  "
  | WARN => s!"WARN  " | ERROR => s!"ERROR " | FATAL => s!"FATAL "
  end.

(** [getenv] of the two variables. *)
Definition initLogLevel (trace debug : bool) : LogLevel := if trace then TRACE else if debug then DEBUG else INFO.

(** [strrchr(s, '/') + 1] *)
Definition slash : ascii := Z_byte 47.
Fixpoint after_slash (s : bytes) : option bytes :=
  match s with
  | [] => None
  | c :: s' => match after_slash s' with Some r => Some r | None => if decide (c = slash) then Some s' else None end
  end.
(** [SourceFile(arr)]: the data and its size. *)
Definition SourceFile (arr : bytes) : bytes * Z :=
  match after_slash arr with
  | Some d => (d, zlen arr - (zlen arr - zlen d))
  | None => (arr, zlen arr)
  end.

(** [T(str, len)] as an insertion: its assertion, then [append(str, len)]. *)
Definition T_item (str : bytes) (len : Z) : outcome item := _ ← assert_ (zlen str =? len); Ret (LString str).
Definition source_item (f : bytes * Z) : item := LString (ztake f.2 f.1).

Record Log := MkLog {
  tls : Tls;
  t_time : bytes;
  t_lastSecond : Z;
  g_logTimeZone : TimeZone;
  g_logLevel : LogLevel;
  (** What the output function was given. *)
  output : list bytes;
}.

Definition Log_new (t : Tls) (l : LogLevel) : Log := MkLog t [] 0 None l [].
Definition set_tls t s := MkLog t (t_time s) (t_lastSecond s) (g_logTimeZone s) (g_logLevel s) (output s).
Definition set_time txt sec s := MkLog (tls s) txt sec (g_logTimeZone s) (g_logLevel s) (output s).
Definition setLogLevel l s := MkLog (tls s) (t_time s) (t_lastSecond s) (g_logTimeZone s) l (output s).
Definition setTimeZone z s := MkLog (tls s) (t_time s) (t_lastSecond s) z (g_logLevel s) (output s).
Definition g_output txt s := MkLog (tls s) (t_time s) (t_lastSecond s) (g_logTimeZone s) (g_logLevel s) (output s ++ [txt]).

Abbreviation log := (ST Log).

Section Logger.
Context (gmtime : Z → tm).

(** "%4d%02d%02d %02d:%02d:%02d" *)
Definition clock_text (t : tm) : outcome bytes :=
  _ ← defined (in_sb 32 (tm_year t + 1900) && in_sb 32 (tm_mon t + 1));
  Ret (dec_pad 4 (tm_year t + 1900) ++ dec_0 2 (tm_mon t + 1) ++ dec_0 2 (tm_mday t) ++ s!" " ++
       dec_0 2 (tm_hour t) ++ s!":" ++ dec_0 2 (tm_min t) ++ s!":" ++ dec_0 2 (tm_sec t)).

Definition toFormattedString (showMicroseconds : bool) (t : Z) : outcome bytes :=
  txt ← clock_text (gmtime (Z.quot t kMicroSecondsPerSecond));
  Ret (ztake 63 (if showMicroseconds then txt ++ s!"." ++ dec_0 6 (i32 (Z.rem t kMicroSecondsPerSecond)) else txt)).

(** [formatTime()]: the two insertions. *)
Definition formatTime (time_ : Z) : log (list item) :=
  let seconds := Z.quot time_ kMicroSecondsPerSecond in
  let microseconds := i32 (Z.rem time_ kMicroSecondsPerSecond) in
  s ← st_get;
  (if seconds =? t_lastSecond s then mret ()
   else
     st_modify (set_time (t_time s) seconds) ;;
     tm_time ← lift (if valid (g_logTimeZone s) then toLocalTime gmtime (g_logTimeZone s) seconds else Ret (gmtime seconds));
     txt ← lift (clock_text tm_time);
     st_modify (set_time (ztake 63 txt) seconds) ;;
     lift (assert_ (zlen txt =? 17))) ;;
  s ← st_get;
  let zoned := valid (g_logTimeZone s) in
  us ← lift (Fmt (s!"." ++ dec_0 6 microseconds ++ if zoned then s!" " else s!"Z "));
  lift (assert_ (zlen us =? (if zoned then 8 else 9))) ;;
  a ← lift (T_item (t_time s) 17);
  b ← lift (T_item us (if zoned then 8 else 9));
  mret [a; b].

Record Impl := MkImpl { stream_ : FixedBuffer; level_ : LogLevel; line_ : Z; basename_ : bytes * Z }.

Definition insert_all (xs : list item) (i : Impl) : outcome Impl :=
  b ← inserts xs (stream_ i); Ret (MkImpl b (level_ i) (line_ i) (basename_ i)).

(** [Impl(level, savedErrno, file, line)]; [now] is the clock, [junk] the
    uninitialised buffer, [err] [strerror_tl]'s text. *)
Definition Impl_new (now : Z) (junk : bytes) (level : LogLevel) (savedErrno : Z) (err : bytes) (file : bytes * Z) (line : Z) : log Impl :=
  ts ← formatTime now;
  s ← st_get;
  st_put (set_tls (snd (tid (tls s))) s) ;;
  s ← st_get;
  t ← lift (T_item (t_tidString (tls s)) (t_tidStringLength (tls s)));
  l ← lift (T_item (LogLevelName level) 6);
  let errs := if negb (savedErrno =? 0) then [LCString (Some err); LCString (Some s!" (errno="); LInt savedErrno; LCString (Some s!") ")] else [] in
  lift (insert_all (ts ++ [t; l] ++ errs) (MkImpl (FixedBuffer_new junk) level line file)).

Definition finish (i : Impl) : outcome Impl :=
  insert_all [LCString (Some s!" - "); source_item (basename_ i); LChar (Z_byte 58); LInt (line_ i); LChar (Z_byte 10)] i.

(** [~Logger]: a fatal message aborts after its output. *)
Definition Logger_dtor (i : Impl) : log unit :=
  i' ← lift (finish i);
  st_modify (g_output (text (stream_ i'))) ;;
  if bool_decide (level_ i' = FATAL) then lift AssertFail else mret ().

(** ** Log statements *)
Inductive macro := LOG_TRACE | LOG_DEBUG | LOG_INFO | LOG_WARN | LOG_ERROR | LOG_FATAL | LOG_SYSERR | LOG_SYSFATAL.

Definition enabled (m : macro) (g : LogLevel) : bool :=
  match m with
  | LOG_TRACE => level_num g <=? level_num TRACE
  | LOG_DEBUG => level_num g <=? level_num DEBUG
  | LOG_INFO => level_num g <=? level_num INFO
  | _ => true
  end.
Definition macro_level (m : macro) : LogLevel :=
  match m with
  | LOG_TRACE => TRACE | LOG_DEBUG => DEBUG | LOG_INFO => INFO | LOG_WARN => WARN
  | LOG_ERROR | LOG_SYSERR => ERROR | LOG_FATAL | LOG_SYSFATAL => FATAL
  end.
(** Which constructor: with the function's name, with [errno]. *)
Definition func_items (m : macro) (func : bytes) : list item :=
  match m with LOG_TRACE | LOG_DEBUG => [LCString (Some func); LChar (Z_byte 32)] | _ => [] end.
Definition macro_errno (m : macro) (errno : Z) : Z := match m with LOG_SYSERR | LOG_SYSFATAL => errno | _ => 0 end.

(** Where and when a statement runs, and what it inserts. *)
Record site := MkSite {
  st_now : Z; st_junk : bytes; st_errno : Z; st_err : bytes; st_file : bytes; st_line : Z; st_func : bytes; st_items : list item;
}.

Definition log_statement (m : macro) (c : site) : log unit :=
  s ← st_get;
  if enabled m (g_logLevel s) then
    i ← Impl_new (st_now c) (st_junk c) (macro_level m) (macro_errno m (st_errno c)) (st_err c) (SourceFile (st_file c)) (st_line c);
    i' ← lift (insert_all (func_items m (st_func c) ++ st_items c) i);
    Logger_dtor i'
  else mret ().
End Logger.

(** ** The line *)

(** [strrchr]'s answer: what follows the last slash. *)
Lemma after_slash_spec s :
  match after_slash s with
  | Some r => (∃ p, s = p ++ slash :: r) ∧ slash ∉ r
  | None => slash ∉ s
  end.
Proof.
  induction s as [|c s IH]; cbn; [by apply not_elem_of_nil|]. destruct (after_slash s) as [r|].
  - destruct IH as [[p ->] Hr]. split; [by exists (c :: p)|done].
  - case_decide as Hc; [subst; by split; [exists []|]|]. by apply not_elem_of_cons.
Qed.

Lemma SourceFile_eq arr :
  ∃ d, SourceFile arr = (d, zlen d) ∧ (slash ∉ d) ∧ (arr = d ∨ ∃ p, arr = p ++ slash :: d).
Proof.
  pose proof (after_slash_spec arr) as H. unfold SourceFile. destruct (after_slash arr) as [d|].
  - exists d. destruct H as [? ?]. split; [f_equal; lia|auto].
  - exists arr. auto.
Qed.

Section Line.
Context (gmtime : Z → tm).

(** The broken-down time of a second in the logger's zone. *)
Definition second_tm (z : TimeZone) (s : Z) : outcome tm := if valid z then toLocalTime gmtime z s else Ret (gmtime s).

(** The fields of [struct tm] in their documented ranges, in a year of four
    digits. *)
Definition clock_ok (u : tm) : Prop :=
  1000 ≤ tm_year u + 1900 ≤ 9999 ∧ 0 ≤ tm_mon u ≤ 11 ∧ 1 ≤ tm_mday u ≤ 31 ∧
  0 ≤ tm_hour u ≤ 23 ∧ 0 ≤ tm_min u ≤ 59 ∧ 0 ≤ tm_sec u ≤ 60.

(** The clock as digits. *)
Definition clock_digits (u : tm) : bytes :=
  dec_w 4 (tm_year u + 1900) ++ dec_w 2 (tm_mon u + 1) ++ dec_w 2 (tm_mday u) ++ s!" " ++
  dec_w 2 (tm_hour u) ++ s!":" ++ dec_w 2 (tm_min u) ++ s!":" ++ dec_w 2 (tm_sec u).

Lemma dec_pad_4 y : 1000 ≤ y ≤ 9999 → dec_pad 4 y = dec_w 4 y.
Proof.
  intros Hy. unfold dec_pad, dec_int. rewrite (proj2 (Z.ltb_ge _ _)) by lia.
  assert (length (dec_nat y) = 4%nat) as Hl.
  { pose proof (dec_nat_length 4 y ltac:(lia) ltac:(change (10 ^ Z.of_nat 4) with 10000; lia)) as Hl. unfold zlen in Hl.
    assert (¬ (length (dec_nat y) ≤ 3)%nat) as Hn; [|lia]. intros Hn.
    assert (scan_digits 0 (dec_nat y) < 10 ^ Z.of_nat (length (dec_nat y))) as Hb.
    { apply digits_bound, dec_nat_digits. }
    pose proof (dec_nat_val y ltac:(lia)) as Hv. unfold digits_val in Hv. rewrite Hv in Hb.
    assert (10 ^ Z.of_nat (length (dec_nat y)) ≤ 10 ^ 3) by (apply Z.pow_le_mono_r; lia). lia. }
  rewrite pad_left_id by lia. apply digits_unique.
  - apply dec_nat_digits.
  - apply dec_w_digits.
  - by rewrite length_dec_w.
  - rewrite dec_nat_val, dec_w_val by (simpl; lia). done.
Qed.

Lemma clock_text_eq u : clock_ok u → clock_text u = Ret (clock_digits u) ∧ zlen (clock_digits u) = 17.
Proof.
  intros (H1 & H2 & H3 & H4 & H5 & H6). split.
  - unfold clock_text. rewrite !(proj2 (in_sb_spec 32 _)) by (unfold in_s; lia). cbn [defined andb mbind outcome_bind].
    rewrite dec_pad_4, !dec_0_w by (simpl; lia). done.
  - unfold clock_digits, zlen. rewrite !length_app, !length_dec_w. done.
Qed.

Definition micro_text (zoned : bool) (time_ : Z) : bytes :=
  s!"." ++ dec_w 6 (Z.rem time_ kMicroSecondsPerSecond) ++ if zoned then s!" " else s!"Z ".

(** Everything a statement prints, in order. *)
Definition log_items (m : macro) (c : site) (z : TimeZone) (u : tm) (t : Tls) : list item :=
  [LString (clock_digits u); LString (micro_text (valid z) (st_now c)); LString (t_tidString t); LString (LogLevelName (macro_level m))] ++
  (if negb (macro_errno m (st_errno c) =? 0) then
     [LCString (Some (st_err c)); LCString (Some s!" (errno="); LInt (st_errno c); LCString (Some s!") ")] else []) ++
  func_items m (st_func c) ++ st_items c ++
  [LCString (Some s!" - "); source_item (SourceFile (st_file c)); LChar (Z_byte 58); LInt (st_line c); LChar (Z_byte 10)].

(** The cached text is that of the last second, in the zone. *)
Definition log_ok (s : Log) : Prop :=
  tls_ok (tls s) ∧
  (t_lastSecond s = 0 ∨ ∃ u, second_tm (g_logTimeZone s) (t_lastSecond s) = Ret u ∧ clock_ok u ∧ t_time s = clock_digits u).

Definition legal_site (c : site) : Prop :=
  zlen (st_junk c) = kSmallBuffer ∧ kMicroSecondsPerSecond ≤ st_now c < 2 ^ 63 ∧
  in_s 32 (st_errno c) ∧ in_s 32 (st_line c) ∧
  forallb legal_item (LCString (Some (st_err c)) :: LCString (Some (st_func c)) :: LString (st_file c) :: st_items c) = true.

Lemma micro_range t : 0 ≤ t → 0 ≤ Z.rem t kMicroSecondsPerSecond < 1000000.
Proof. intros Ht. pose proof (Z.rem_bound_pos t 1000000). change kMicroSecondsPerSecond with 1000000. lia. Qed.

Lemma micro_text_len z t : zlen (micro_text z t) = if z then 8 else 9.
Proof. unfold micro_text, zlen. rewrite !length_app, length_dec_w. by destruct z. Qed.

Lemma T_item_eq str len : zlen str = len → T_item str len = Ret (LString str).
Proof. intros <-. unfold T_item. by rewrite Z.eqb_refl. Qed.

(** The time, cached or not. *)
Lemma formatTime_eq s t u :
  log_ok s → kMicroSecondsPerSecond ≤ t < 2 ^ 63 →
  second_tm (g_logTimeZone s) (Z.quot t kMicroSecondsPerSecond) = Ret u → clock_ok u →
  ∃ s', formatTime gmtime t s = (Ret [LString (clock_digits u); LString (micro_text (valid (g_logTimeZone s)) t)], s') ∧
    s' = set_time (clock_digits u) (Z.quot t kMicroSecondsPerSecond) s.
Proof.
  intros [_ Hc] Ht Hu Hok. destruct (clock_text_eq u Hok) as [Htxt Hlen].
  set (q := Z.quot t kMicroSecondsPerSecond) in *. eexists. split; [|reflexivity].
  assert (0 < q) as Hq.
  { unfold q. change kMicroSecondsPerSecond with 1000000 in *. pose proof (Z.quot_le_mono 1000000 t 1000000). 
    change (Z.quot 1000000 1000000) with 1 in *. lia. }
  pose proof (micro_range t ltac:(change kMicroSecondsPerSecond with 1000000 in *; lia)) as Hm.
  set (s' := set_time (clock_digits u) q s).
  assert (∀ k, (s ← st_get;
    (if q =? t_lastSecond s then mret () else
      st_modify (set_time (t_time s) q) ;;
      tm_time ← lift (if valid (g_logTimeZone s) then toLocalTime gmtime (g_logTimeZone s) q else Ret (gmtime q));
      txt ← lift (clock_text tm_time); st_modify (set_time (ztake 63 txt) q) ;; lift (assert_ (zlen txt =? 17))) ;; k)
    s = (k : log (list item)) s') as Hfirst.
  { intros k. unfold mbind, ST_bind, st_get. destruct (q =? t_lastSecond s) eqn:E; bool_to_prop.
    - destruct Hc as [?|(u' & Hu' & _ & Hx)]; [lia|]. rewrite <-E in Hu'. rewrite Hu in Hu'. injection Hu' as <-.
      unfold mret, ST_ret. unfold s'. rewrite <-Hx, E. by destruct s.
    - unfold st_modify, lift. unfold second_tm in Hu. rewrite Hu, Htxt. cbn [fst snd].
      rewrite Hlen. cbn [Z.eqb Pos.eqb assert_]. unfold s'. unfold ztake. rewrite (firstn_all2 (clock_digits u)); [by destruct s|].
      unfold zlen in Hlen. lia. }
  unfold formatTime. fold q. rewrite Hfirst. clear Hfirst. unfold mbind, ST_bind, st_get, lift. cbn [fst snd].
  change (g_logTimeZone s') with (g_logTimeZone s). change (t_time s') with (clock_digits u).
  rewrite (i32_small (Z.rem _ _)), (dec_0_w 6) by (simpl; lia).
  fold (micro_text (valid (g_logTimeZone s)) t). unfold Fmt. rewrite micro_text_len.
  rewrite (proj2 (Z.ltb_lt _ _)) by (destruct (valid _); lia). cbn [assert_ mbind outcome_bind].
  rewrite micro_text_len, Z.eqb_refl. cbn [assert_]. rewrite !T_item_eq by (done || apply micro_text_len). done.
Qed.

Lemma insert_all_eq xs i b : inserts xs (stream_ i) = Ret b → insert_all xs i = Ret (MkImpl b (level_ i) (line_ i) (basename_ i)).
Proof. unfold insert_all. by intros ->. Qed.

Lemma level_name_len l : zlen (LogLevelName l) = 6.
Proof. by destruct l. Qed.

(** The constructor: header and state. *)
Lemma Impl_new_eq s c m u :
  log_ok s → legal_site c → second_tm (g_logTimeZone s) (Z.quot (st_now c) kMicroSecondsPerSecond) = Ret u → clock_ok u →
  let tls' := snd (tid (tls s)) in
  let hdr := [LString (clock_digits u); LString (micro_text (valid (g_logTimeZone s)) (st_now c));
     LString (t_tidString tls'); LString (LogLevelName (macro_level m))] ++
    (if negb (macro_errno m (st_errno c) =? 0) then
       [LCString (Some (st_err c)); LCString (Some s!" (errno="); LInt (st_errno c); LCString (Some s!") ")] else []) in
  ∃ b, Impl_new gmtime (st_now c) (st_junk c) (macro_level m) (macro_errno m (st_errno c)) (st_err c) (SourceFile (st_file c)) (st_line c) s =
      (Ret (MkImpl b (macro_level m) (st_line c) (SourceFile (st_file c))),
       set_tls tls' (set_time (clock_digits u) (Z.quot (st_now c) kMicroSecondsPerSecond) s)) ∧
    fixed_ok kSmallBuffer b ∧ text b = spec_inserts kSmallBuffer hdr [] ∧ forallb legal_item hdr = true.
Proof.
  intros Hok (Hj & Hnow & Hen & Hln & Hleg) Hu Hck. cbv zeta.
  destruct (formatTime_eq s (st_now c) u Hok Hnow Hu Hck) as (s1 & Hf & ->).
  destruct (tid_ok (tls s) (proj1 Hok)) as (Htls & _ & _ & Hstr & Hlen & _).
  set (hdr := _ ++ _). cbn [forallb] in Hleg. apply andb_prop in Hleg as [Herr Hleg]. apply andb_prop in Hleg as [Hfn Hleg].
  apply andb_prop in Hleg as [Hfl Hits].
  assert (forallb legal_item hdr = true) as Hhdr.
  { assert (zlen (t_tidString (snd (tid (tls s)))) < 2 ^ 63) as Ht.
    { rewrite Hstr. pose proof (tid_text_fits (os_tid (tls s)) (proj1 (proj1 Hok))). lia. }
    unfold hdr. cbn [app forallb legal_item]. rewrite (proj2 (clock_text_eq u Hck)), micro_text_len, level_name_len.
    rewrite (proj2 (Z.ltb_lt (zlen (t_tidString _)) _)) by done.
    rewrite (proj2 (Z.ltb_lt (if valid _ then _ else _) _)) by (destruct (valid _); lia). cbn [andb].
    destruct (negb _) eqn:E; [|done]. cbn [forallb legal_item] in *. rewrite Herr. rewrite (proj2 (in_sb_spec 32 _)) by done. done. }
  destruct (inserts_ok kSmallBuffer hdr (FixedBuffer_new (st_junk c))) as (b & Hb & Hbok & Htx);
    [apply fixed_new; [done|unfold kSmallBuffer; lia]|done|].
  exists b. split; [|by rewrite Htx].
  unfold Impl_new. rewrite (ST_bind_eq _ _ _ _ _ Hf). unfold mbind, ST_bind, st_get, st_put, lift. cbn [fst snd].
  cbn [tls set_tls set_time]. rewrite (T_item_eq (t_tidString _)) by done. rewrite T_item_eq by apply level_name_len.
  assert (macro_errno m (st_errno c) = 0 ∨ macro_errno m (st_errno c) = st_errno c) as Hme by (destruct m; auto).
  replace (if negb (macro_errno m (st_errno c) =? 0)
     then [LCString (Some (st_err c)); LCString (Some s!" (errno="); LInt (macro_errno m (st_errno c)); LCString (Some s!") ")]
     else []) with (if negb (macro_errno m (st_errno c) =? 0)
     then [LCString (Some (st_err c)); LCString (Some s!" (errno="); LInt (st_errno c); LCString (Some s!") ")]
     else []) by (destruct (macro_errno m (st_errno c) =? 0) eqn:E; [done|]; bool_to_prop; destruct Hme as [?| ->]; done).
  rewrite (insert_all_eq _ _ b); [done|]. cbn [stream_]. rewrite <-Hb. f_equal.
Qed.

(** C38: A log statement prints one line: below its level nothing happens; else
    the output function gets, once, the time, the thread, the level, [errno]
    and its text for the two that ask for it, the function for the two that
    name it, what the user inserted, and the place, in this order, those items
    left out for which the 4000 bytes had no room, and all of them when they
    leave 32; the cached clock stays right, and exactly the fatal levels abort,
    after the output. *)
Theorem log_statement_prints_line m c s u (Hok : log_ok s) (Hc : legal_site c)
    (Hu : second_tm (g_logTimeZone s) (Z.quot (st_now c) kMicroSecondsPerSecond) = Ret u) (Hck : clock_ok u) :
  let xs := log_items m c (g_logTimeZone s) u (snd (tid (tls s))) in
  let '(r, s') := log_statement gmtime m c s in
  if enabled m (g_logLevel s) then
    r = (if decide (macro_level m = FATAL) then AssertFail else Ret ()) ∧
    output s' = output s ++ [spec_inserts kSmallBuffer xs []] ∧ log_ok s' ∧
    (zlen (concat (item_text <$> xs)) + 32 ≤ kSmallBuffer → spec_inserts kSmallBuffer xs [] = concat (item_text <$> xs))
  else r = Ret () ∧ s' = s.
Proof.
  cbv zeta. unfold log_statement. unfold mbind at 1, ST_bind at 1, st_get. cbn [fst snd].
  destruct (enabled m (g_logLevel s)); [|done].
  destruct (Impl_new_eq s c m u Hok Hc Hu Hck) as (b & Hn & Hb & Htx & _). rewrite (ST_bind_eq _ _ _ _ _ Hn). clear Hn.
  destruct Hc as (Hj & Hnow & Hen & Hln & Hleg). cbn [forallb] in Hleg. apply andb_prop in Hleg as [Herr Hleg].
  apply andb_prop in Hleg as [Hfn Hleg]. apply andb_prop in Hleg as [Hfl Hits].
  destruct (inserts_ok kSmallBuffer (func_items m (st_func c) ++ st_items c) b) as (b1 & Hb1 & Hok1 & Ht1); [done| |].
  { rewrite forallb_app, Hits, andb_true_r. destruct m; cbn [func_items forallb]; rewrite ?Hfn; done. }
  destruct (SourceFile_eq (st_file c)) as (d & Hd & _ & Hsuf).
  assert (legal_item (source_item (SourceFile (st_file c))) = true) as Hsrc.
  { rewrite Hd. unfold source_item. cbn [legal_item fst snd]. unfold ztake, zlen. rewrite Nat2Z.id, firstn_all.
    cbn [legal_item] in Hfl. bool_to_prop. unfold zlen in Hfl. apply Z.ltb_lt. destruct Hsuf as [Hp|[p Hp]]; rewrite Hp in Hfl; [lia|].
    rewrite length_app in Hfl. cbn [length] in Hfl. lia. }
  destruct (inserts_ok kSmallBuffer [LCString (Some s!" - "); source_item (SourceFile (st_file c)); LChar (Z_byte 58); LInt (st_line c); LChar (Z_byte 10)] b1)
    as (b2 & Hb2 & Hok2 & Ht2); [done| |].
  { cbn [forallb]. rewrite Hsrc. cbn [legal_item andb]. rewrite (proj2 (in_sb_spec 32 _) Hln). done. }
  unfold mbind at 1, ST_bind at 1, lift at 1. rewrite (insert_all_eq _ _ b1) by done. cbn [fst snd].
  unfold Logger_dtor, finish. cbn [basename_ line_ level_]. unfold mbind, ST_bind, lift, st_modify.
  rewrite (insert_all_eq _ _ b2) by done. cbn [fst snd stream_ level_].
  assert (text b2 = spec_inserts kSmallBuffer (log_items m c (g_logTimeZone s) u (snd (tid (tls s)))) []) as Htext.
  { rewrite Ht2, Ht1, Htx. unfold log_items. by rewrite !spec_inserts_app. }
  rewrite Htext.
  assert (log_ok (g_output (spec_inserts kSmallBuffer (log_items m c (g_logTimeZone s) u (snd (tid (tls s)))) [])
    (set_tls (snd (tid (tls s))) (set_time (clock_digits u) (Z.quot (st_now c) kMicroSecondsPerSecond) s)))) as Hok'.
  { split; [apply (tid_ok _ (proj1 Hok))|]. right. by exists u. }
  assert (zlen (concat (item_text <$> log_items m c (g_logTimeZone s) u (snd (tid (tls s))))) + 32 ≤ kSmallBuffer →
    spec_inserts kSmallBuffer (log_items m c (g_logTimeZone s) u (snd (tid (tls s)))) [] =
    concat (item_text <$> log_items m c (g_logTimeZone s) u (snd (tid (tls s))))) as Hfits.
  { intros Hfit. rewrite spec_inserts_fits; [done|]. change (zlen []) with 0. lia. }
  case_bool_decide; case_decide; try done.
Qed.

(** ** Formatted times *)

(** What the C library documents: [gmtime_r] gives the UTC date and time. *)
Definition gmtime_utc : Prop := ∀ s, utc_range s → ∃ d yd utc, utc_of s d yd utc ∧ same_clock (gmtime s) utc.
Context (Hlaw : gmtime_utc).

Lemma gmtime_clock_ok s : utc_range s → 1000 ≤ tm_year (gmtime s) + 1900 ≤ 9999 → clock_ok (gmtime s).
Proof.
  intros Hs Hy. destruct (Hlaw s Hs) as (d & yd & utc & [Hd _ _ _ ->] & (E1 & E2 & E3 & E4 & E5 & E6)).
  cbn in *. split; [done|]. rewrite E1, E2, E3, E4, E5. destruct Hd as [Hm Hday].
  pose proof (Z.mod_pos_bound s 60). pose proof (Z.mod_pos_bound (s / 60) 60). pose proof (Z.mod_pos_bound (s / 3600) 24).
  pose proof (days_in_month_bounds (year d) (month d) Hm) as Hb.
  repeat split; lia.
Qed.

(** The digits of a clock tell the clock. *)
Lemma dec_w_inj n a b : 0 ≤ a < 10 ^ Z.of_nat n → 0 ≤ b < 10 ^ Z.of_nat n → dec_w n a = dec_w n b → a = b.
Proof. intros Ha Hb He. rewrite <-(dec_w_val n a), <-(dec_w_val n b) by done. by rewrite He. Qed.

Lemma dec_w_app_inj n a b l k : 0 ≤ a < 10 ^ Z.of_nat n → 0 ≤ b < 10 ^ Z.of_nat n →
  dec_w n a ++ l = dec_w n b ++ k → a = b ∧ l = k.
Proof.
  intros Ha Hb He. apply app_inj_1 in He as [He Hl]; [|by rewrite !length_dec_w]. split; [|done]. by apply (dec_w_inj n).
Qed.

Lemma clock_digits_inj u v l k : clock_ok u → clock_ok v → clock_digits u ++ l = clock_digits v ++ k → same_clock u v ∧ l = k.
Proof.
  intros (H1 & H2 & H3 & H4 & H5 & H6) (K1 & K2 & K3 & K4 & K5 & K6) He. unfold clock_digits in He. rewrite <-!app_assoc in He.
  apply dec_w_app_inj in He as [E1 He]; [|simpl; lia..]. apply dec_w_app_inj in He as [E2 He]; [|simpl; lia..].
  apply dec_w_app_inj in He as [E3 He]; [|simpl; lia..]. apply app_inv_head in He.
  apply dec_w_app_inj in He as [E4 He]; [|simpl; lia..]. apply app_inv_head in He.
  apply dec_w_app_inj in He as [E5 He]; [|simpl; lia..]. apply app_inv_head in He.
  apply dec_w_app_inj in He as [E6 He]; [|simpl; lia..]. unfold same_clock. split; [|done]. repeat split; lia.
Qed.

Lemma gmtime_inj s t : utc_range s → utc_range t → same_clock (gmtime s) (gmtime t) → s = t.
Proof.
  intros Hs Ht (E1 & E2 & E3 & E4 & E5 & E6).
  destruct (Hlaw s Hs) as (d & yd & utc & [_ _ Hd _ ->] & (F1 & F2 & F3 & F4 & F5 & F6)).
  destruct (Hlaw t Ht) as (d' & yd' & utc' & [_ _ Hd' _ ->] & (G1 & G2 & G3 & G4 & G5 & G6)). cbn in *.
  assert (day_number d = day_number d') as Hdd by (unfold day_number; f_equal; lia).
  assert (s mod 60 = t mod 60 ∧ (s / 60) mod 60 = (t / 60) mod 60 ∧ (s / 3600) mod 24 = (t / 3600) mod 24) as (M1 & M2 & M3) by lia.
  clear -Hd Hd' Hdd M1 M2 M3. change kSecondsPerDay with 86400 in *. dlia.
Qed.

(** A formatted time tells the instant, to the microsecond. *)
Lemma formatted_time_exact s t : 0 ≤ s → 0 ≤ t →
  utc_range (Z.quot s kMicroSecondsPerSecond) → utc_range (Z.quot t kMicroSecondsPerSecond) →
  1000 ≤ tm_year (gmtime (Z.quot s kMicroSecondsPerSecond)) + 1900 ≤ 9999 →
  1000 ≤ tm_year (gmtime (Z.quot t kMicroSecondsPerSecond)) + 1900 ≤ 9999 →
  ∃ a b, toFormattedString gmtime true s = Ret a ∧ toFormattedString gmtime true t = Ret b ∧ (a = b → s = t).
Proof.
  intros Hs Ht Hrs Hrt Hys Hyt. pose proof (gmtime_clock_ok _ Hrs Hys) as Cs. pose proof (gmtime_clock_ok _ Hrt Hyt) as Ct.
  assert (∀ x, 0 ≤ x → clock_ok (gmtime (Z.quot x kMicroSecondsPerSecond)) → toFormattedString gmtime true x =
    Ret (clock_digits (gmtime (Z.quot x kMicroSecondsPerSecond)) ++ s!"." ++ dec_w 6 (Z.rem x kMicroSecondsPerSecond))) as Hf.
  { intros x Hx Cx. unfold toFormattedString. destruct (clock_text_eq _ Cx) as [-> Hl]. cbn [mbind outcome_bind].
    pose proof (micro_range x Hx). rewrite i32_small, dec_0_w by (simpl; lia). unfold ztake. rewrite firstn_all2; [done|].
    unfold zlen in Hl. rewrite !length_app, length_dec_w. cbn [length b_of_string Stdlib.Strings.String.list_ascii_of_string]. lia. }
  rewrite (Hf s Hs Cs), (Hf t Ht Ct). do 2 eexists. split; [done|]. split; [done|]. intros He.
  apply clock_digits_inj in He as [Hsame He]; [|done..]. apply app_inv_head in He.
  apply dec_w_inj in He; [|apply micro_range; lia..]. apply gmtime_inj in Hsame; [|done..].
  rewrite (Z.quot_rem' s kMicroSecondsPerSecond), (Z.quot_rem' t kMicroSecondsPerSecond). by rewrite Hsame, He.
Qed.
End Line.

(** ** Runs *)
Definition demo_log : Log := Log_new (Tls_new 4242) INFO.
Definition demo_site : site :=
  MkSite 1709210096000042 (replicate 4000 (Z_byte 0)) 9 s!"Bad file descriptor" s!"net/SocketsOps.cc" 175 s!"close"
    [LString s!"sockets::close "; LInt 7].

Lemma demo_log_ok : log_ok demo_gmtime demo_log.
Proof. split; [split; [vm_compute; split; [reflexivity|done]|by left]|by left]. Qed.

Lemma demo_site_legal : legal_site demo_site.
Proof.
  split; [vm_compute; reflexivity|]. split; [vm_compute; split; [discriminate|reflexivity]|].
  split; [vm_compute; split; [discriminate|reflexivity]|]. split; [vm_compute; split; [discriminate|reflexivity]|].
  vm_compute. reflexivity.
Qed.

Definition demo_tm : tm := MkTm 56 34 12 29 1 124 4 59 false 0 s!"GMT".
Lemma demo_clock_ok : clock_ok demo_tm.
Proof. unfold clock_ok, demo_tm. cbn. lia. Qed.

Lemma log_statement_prints_line_witness :
  spec_inserts kSmallBuffer (log_items LOG_SYSERR demo_site None demo_tm (snd (tid (tls demo_log)))) [] =
    s!"20240229 12:34:56.000042Z  4242 ERROR Bad file descriptor (errno=9) sockets::close 7 - SocketsOps.cc:175" ++ [Z_byte 10] ∧
  (let '(r, s') := log_statement demo_gmtime LOG_SYSERR demo_site demo_log in
   r = Ret () ∧ output s' = [spec_inserts kSmallBuffer (log_items LOG_SYSERR demo_site None demo_tm (snd (tid (tls demo_log)))) []]).
Proof.
  split; [vm_compute; reflexivity|].
  pose proof (log_statement_prints_line demo_gmtime LOG_SYSERR demo_site demo_log demo_tm demo_log_ok demo_site_legal
    ltac:(vm_compute; reflexivity) demo_clock_ok) as H.
  cbv zeta in H. revert H. destruct (log_statement demo_gmtime LOG_SYSERR demo_site demo_log) as [r s']. intros (H1 & H2 & _).
  split; [exact H1|exact H2].
Defined.

(** The cached text is not of the zone: a statement in the same second after
    [setTimeZone] still prints the old zone's clock, without its "Z". *)
Lemma stale_zone_text : ∃ s',
  formatTime demo_gmtime 1709210096000042
    (setTimeZone (Some zurich) (snd (formatTime demo_gmtime 1709210096000000 demo_log))) =
  (Ret [LString s!"20240229 12:34:56"; LString s!".000042 "], s') ∧
  (_ ← second_tm demo_gmtime (Some zurich) 1709210096; Ret ()) = Ret () ∧
  (u ← second_tm demo_gmtime (Some zurich) 1709210096; clock_text u) = Ret s!"20240229 13:34:56".
Proof. eexists. split; [vm_compute; reflexivity|]. split; vm_compute; reflexivity. Qed.

(** In the first second of 1970 nothing is cached yet and nothing is printed:
    the assertion on the text's length fails. *)
Lemma first_second_aborts : fst (formatTime demo_gmtime 42 demo_log) = AssertFail.
Proof. vm_compute. reflexivity. Qed.

Lemma demo_gmtime_utc : gmtime_utc demo_gmtime.
Proof.
  intros s Hs. destruct (toUtcTime_eq s Hs) as (d & yd & utc & He & Hu). exists d, yd, utc. split; [done|].
  unfold demo_gmtime. rewrite He. done.
Qed.

Lemma formatted_time_demo : toFormattedString demo_gmtime true 1709210096000042 = Ret s!"20240229 12:34:56.000042" ∧
  toFormattedString demo_gmtime false 1709210096000042 = Ret s!"20240229 12:34:56".
Proof. split; vm_compute; reflexivity. Qed.
