(* ===== verification/FileUtil.v ===== *)
(** * Files (master/base/FileUtil.h, FileUtil.cc)

    [AppendFile] writes to a stdio stream, [ReadSmallFile] reads a descriptor.
    What [fwrite_unlocked] and [read] answer, call by call, is an input; the
    stream is what it has accepted and how much of it [fflush] has handed on.
    Both loops take one unit of fuel per call; a call that makes progress moves
    at least one byte, so the length of the data plus one is enough. *)
From S2P Require Import Prelude.
Local Open Scope Z_scope.

(** ** [AppendFile] *)
Record AppendFile := MkAppend {
  name_ : bytes;
  (** Accepted by the stream; the part flushed; closed. *)
  content_ : bytes;
  flushed_ : nat;
  closed_ : bool;
  writtenBytes_ : Z;
}.

(** [fopen(name, "ae")]: appending to what is there; [old] is that. *)
Definition AppendFile_new (opened : bool) (name old : bytes) : outcome AppendFile :=
  _ ← assert_ opened; Ret (MkAppend name old (length old) false 0).
Definition flush (f : AppendFile) : AppendFile := MkAppend (name_ f) (content_ f) (length (content_ f)) (closed_ f) (writtenBytes_ f).
(** [fclose] flushes. *)
Definition AppendFile_dtor (f : AppendFile) : AppendFile := MkAppend (name_ f) (content_ f) (length (content_ f)) true (writtenBytes_ f).

(** [x] is what [fwrite_unlocked] answers: the number of bytes taken. *)
Definition write (x : Z) (s : bytes) (f : AppendFile) : AppendFile :=
  MkAppend (name_ f) (content_ f ++ ztake x s) (flushed_ f) (closed_ f) (writtenBytes_ f).

(** [ans k] is the answer to the [k]-th call; [remain] is unsigned. *)
Fixpoint append_loop (fuel : nat) (ans : nat → Z) (k : nat) (logline : bytes) (n : Z) (f : AppendFile) : outcome AppendFile :=
  match fuel with
  | O => Undef
  | S fuel' =>
      let remain := u64 (zlen logline - n) in
      if remain =? 0 then Ret f
      else
        let x := ans k in
        let f' := write x (zdrop n logline) f in
        if x =? 0 then Ret f' else append_loop fuel' ans (S k) logline (n + x) f'
  end.

Definition append (ans : nat → Z) (logline : bytes) (f : AppendFile) : outcome AppendFile :=
  let n := ans O in
  let f' := write n logline f in
  f'' ← append_loop (S (length logline)) ans 1 logline n f';
  Ret (MkAppend (name_ f'') (content_ f'') (flushed_ f'') (closed_ f'') (writtenBytes_ f'' + zlen logline)).

(** What the manual says: never more than asked. *)
Definition fwrite_legal (ans : nat → Z) (logline : bytes) : Prop :=
  ∀ k, 0 ≤ ans k ≤ zlen logline - foldr Z.add 0 (ans <$> seq 0 k).

(** Bytes taken by the first [k] calls. *)
Definition taken (ans : nat → Z) (k : nat) : Z := foldr Z.add 0 (ans <$> seq 0 k).

Lemma taken_S ans k : taken ans (S k) = taken ans k + ans k.
Proof.
  unfold taken. rewrite seq_S, fmap_app, foldr_app. cbn. 
  assert (∀ l z, foldr Z.add z l = foldr Z.add 0 l + z) as H by (induction l as [|a l IH]; intros z; cbn; [lia|rewrite IH; lia]).
  rewrite H. lia.
Qed.

Definition put (s : bytes) (f : AppendFile) : AppendFile :=
  MkAppend (name_ f) (content_ f ++ s) (flushed_ f) (closed_ f) (writtenBytes_ f).

Lemma append_loop_eq fuel ans k logline f :
  fwrite_legal ans logline → zlen logline < 2 ^ 63 → (Z.to_nat (zlen logline - taken ans k) < fuel)%nat → taken ans k ≤ zlen logline →
  ∃ j, append_loop fuel ans k logline (taken ans k) f = Ret (put (zdrop (taken ans k) (ztake (taken ans (k + j)) logline)) f) ∧
    taken ans (k + j) ≤ zlen logline ∧ (taken ans (k + j) = zlen logline ∨ ans (k + j - 1)%nat = 0 ∧ (0 < j)%nat).
Proof.
  intros Hl Hs. revert k f. induction fuel as [|fuel IH]; intros k f Hf Hk; [lia|].
  assert (0 ≤ taken ans k) as Hpos.
  { clear -Hl. induction k as [|k IH]; [done|]. rewrite taken_S. specialize (Hl k). lia. }
  cbn [append_loop]. unfold u64. rewrite wrapu_small by (unfold in_u; lia).
  destruct (zlen logline - taken ans k =? 0) eqn:E; bool_to_prop.
  - exists 0%nat. rewrite Nat.add_0_r. split; [|split; [lia|left; lia]]. f_equal. unfold put, zdrop, ztake.
    rewrite drop_ge by (rewrite length_take; lia). rewrite app_nil_r. by destruct f.
  - pose proof (Hl k) as Hk'. fold (taken ans k) in Hk'.
    destruct (ans k =? 0) eqn:E0; bool_to_prop.
    + exists 1%nat. rewrite Nat.add_1_r, taken_S, E0, Z.add_0_r. split; [|split; [lia|right; split; [by rewrite Nat.sub_1_r|lia]]].
      f_equal. unfold write, put. f_equal. f_equal. unfold zdrop, ztake. change (Z.to_nat 0) with 0%nat. rewrite take_0.
      symmetry. apply drop_ge. rewrite length_take. lia.
    + destruct (IH (S k) (write (ans k) (zdrop (taken ans k) logline) f)) as (j & Hj & Hle & Hend); [rewrite taken_S; lia..|].
      exists (S j). rewrite taken_S in Hj. rewrite Hj. replace (k + S j)%nat with (S k + j)%nat by lia.
      split; [|split; [done|destruct Hend as [?|[? ?]]; [by left|right; split; [done|lia]]]].
      assert (taken ans k + ans k ≤ taken ans (S k + j)) as Hmono.
      { rewrite <-taken_S. clear -Hl. induction j as [|j IHj]; [by rewrite Nat.add_0_r|].
        replace (S k + S j)%nat with (S (S k + j)) by lia. rewrite (taken_S _ (S k + j)). specialize (Hl (S k + j)%nat). lia. }
      f_equal. unfold put, write. cbn [name_ content_ flushed_ closed_ writtenBytes_]. f_equal. rewrite <-app_assoc. f_equal.
      clear -Hmono Hpos Hk' Hle. unfold zdrop, ztake. set (a := Z.to_nat (taken ans k)). set (x := Z.to_nat (ans k)).
      replace (Z.to_nat (taken ans k + ans k)) with (a + x)%nat by lia. set (b := Z.to_nat (taken ans (S k + j))).
      assert (a + x ≤ b)%nat by lia. rewrite <-(take_drop x (drop a (take b logline))). f_equal; [|by rewrite drop_drop].
      rewrite !take_drop_commute, take_take. by rewrite Nat.min_l by lia.
Qed.

(** Without an error every byte is taken; the written bytes count the line
    whether or not they were. *)
Definition fwrite_complete (ans : nat → Z) (logline : bytes) : Prop :=
  fwrite_legal ans logline ∧ ∀ k, taken ans k < zlen logline → 0 < ans k.

Definition appended (s : bytes) (len : Z) (f : AppendFile) : AppendFile :=
  MkAppend (name_ f) (content_ f ++ s) (flushed_ f) (closed_ f) (writtenBytes_ f + len).

Lemma append_prefix ans logline f : fwrite_legal ans logline → zlen logline < 2 ^ 63 →
  ∃ n, append ans logline f = Ret (appended (ztake n logline) (zlen logline) f) ∧ 0 ≤ n ≤ zlen logline ∧
    (n = zlen logline ∨ ∃ k, ans k = 0 ∧ taken ans k < zlen logline).
Proof.
  intros Hl Hs. pose proof (Hl 0%nat) as H0. cbn in H0. rewrite Z.sub_0_r in H0.
  assert (taken ans 1 = ans 0%nat) as H1 by (unfold taken; cbn; lia).
  destruct (append_loop_eq (S (length logline)) ans 1 logline (write (ans 0%nat) logline f) Hl Hs) as (j & Hj & Hle & Hend);
    [unfold zlen in *; lia|lia|]. unfold append. rewrite H1 in Hj. rewrite Hj. cbn [mbind outcome_bind].
  exists (taken ans (1 + j)).
  assert (ans 0%nat ≤ taken ans (1 + j)) as Hmono.
  { rewrite <-H1. clear -Hl. induction j as [|j IH]; [done|]. replace (1 + S j)%nat with (S (1 + j)) by lia.
    rewrite (taken_S _ (1 + j)). specialize (Hl (1 + j)%nat). lia. }
  split; [|split; [lia|]].
  - unfold appended, put, write. cbn [name_ content_ flushed_ closed_ writtenBytes_]. do 2 f_equal. rewrite <-app_assoc. f_equal.
    unfold zdrop. rewrite <-(take_drop (Z.to_nat (ans 0%nat)) (ztake (taken ans (1 + j)) logline)) at 2. f_equal.
    unfold ztake. rewrite take_take. f_equal. lia.
  - destruct Hend as [?|[He Hj0]]; [by left|]. destruct (decide (taken ans (1 + j) = zlen logline)) as [?|Hne]; [by left|right].
    exists (1 + j - 1)%nat. split; [done|]. destruct j as [|j]; [lia|]. replace (1 + S j - 1)%nat with (1 + j)%nat in * by lia.
    replace (1 + S j)%nat with (S (1 + j)) in * by lia. rewrite taken_S in Hle, Hne. lia.
Qed.

Lemma append_complete ans logline f : fwrite_complete ans logline → zlen logline < 2 ^ 63 →
  append ans logline f = Ret (appended logline (zlen logline) f).
Proof.
  intros [Hl Hc] Hs. destruct (append_prefix ans logline f Hl Hs) as (n & -> & Hn & [->|(k & H0 & Hk)]).
  - unfold ztake, zlen. rewrite Nat2Z.id, firstn_all. done.
  - specialize (Hc k Hk). lia.
Qed.

(** A failed write cuts the line, and the next one follows it. *)
Lemma short_write_cuts_line :
  append (λ k, match k with O => 2 | _ => 0 end) s!"hello" (MkAppend s!"f" [] 0 false 0) = Ret (MkAppend s!"f" s!"he" 0 false 5).
Proof. reflexivity. Qed.

(** ** [ReadSmallFile] *)
Definition kBufferSize : Z := 64 * 1024.
Definition EISDIR : Z := 21.

(** [open]'s answer; [err_] is [errno] if it failed. *)
Record ReadSmallFile := MkRead { fd_ : bool; err_ : Z }.
Definition ReadSmallFile_new (fd : option Z) : ReadSmallFile :=
  match fd with None => MkRead true 0 | Some e => MkRead false e end.

(** What [read], [pread] and [fstat] answer. *)
Inductive rd := RData (b : bytes) | RErr (e : Z).
Inductive mode := Regular (size : Z) | Directory | OtherMode.
Inductive stat := StatOk (m : mode) (mtime ctime : Z) | StatErr (e : Z).

(** The answers by what was read so far: its length is the file's offset. *)
Fixpoint read_loop (fuel : nat) (read : Z → Z → rd) (maxSize : Z) (err : Z) (content : bytes) : outcome (Z * bytes) :=
  if zlen content <? u64 maxSize then
    match fuel with
    | O => Undef
    | S fuel' =>
        let toRead := Z.min (u64 maxSize - zlen content) kBufferSize in
        match read (zlen content) toRead with
        | RData [] => Ret (err, content)
        | RData b => read_loop fuel' read maxSize err (content ++ b)
        | RErr e => Ret (e, content)
        end
    end
  else Ret (err, content).

(** What [fileSize], [modifyTime] and [createTime] get, when asked for. *)
Record Stats := MkStats { fileSize : option Z; modifyTime : option Z; createTime : option Z }.

Definition readToString (maxSize : Z) (wantSize wantM wantC : bool) (st : stat) (read : Z → Z → rd)
    (content : bytes) (f : ReadSmallFile) : outcome (Z * bytes * Stats) :=
  let none := MkStats None None None in
  if fd_ f then
    let '(err, stats) :=
      if wantSize then
        match st with
        | StatOk m mt ct =>
            (match m with Directory => EISDIR | _ => err_ f end,
             MkStats (match m with Regular n => Some n | _ => None end) (if wantM then Some mt else None) (if wantC then Some ct else None))
        | StatErr e => (e, none)
        end
      else (err_ f, none) in
    '(err', content') ← read_loop (S (Z.to_nat (u64 maxSize))) read maxSize err [];
    Ret (err', content', stats)
  else Ret (err_ f, content, none).

(** [readToBuffer]: the size, if it is set, and the buffer's text. *)
Definition readToBuffer (pread : rd) (f : ReadSmallFile) : Z * option Z * bytes :=
  if fd_ f then
    match pread with RData b => (err_ f, Some (zlen b), b) | RErr e => (e, None, []) end
  else (err_ f, None, []).

(** [readFile]: open and read. *)
Definition readFile (fd : option Z) (maxSize : Z) (wantSize wantM wantC : bool) (st : stat) (read : Z → Z → rd) (content : bytes) :=
  readToString maxSize wantSize wantM wantC st read content (ReadSmallFile_new fd).

(** The file holds [F]: a read below its end gives some of what is there. *)
Definition reads_file (F : bytes) (read : Z → Z → rd) : Prop :=
  ∀ pos toRead, 0 ≤ pos → 0 < toRead →
    if pos <? zlen F then ∃ n, 0 < n ≤ toRead ∧ n ≤ zlen F - pos ∧ read pos toRead = RData (ztake n (zdrop pos F))
    else read pos toRead = RData [].

Lemma read_loop_eq fuel F read maxSize err k :
  reads_file F read → 0 ≤ maxSize < 2 ^ 31 → 0 ≤ k ≤ zlen F → k ≤ maxSize → (Z.to_nat (maxSize - k) < fuel)%nat →
  read_loop fuel read maxSize err (ztake k F) = Ret (err, ztake maxSize F).
Proof.
  intros Hr Hm. revert k. induction fuel as [|fuel IH]; intros k Hk Hkm Hf; [lia|].
  assert (zlen (ztake k F) = k) as Hlen by (apply zlen_ztake; lia).
  cbn [read_loop]. unfold u64. rewrite Hlen, wrapu_small by (unfold in_u; lia). destruct (k <? maxSize) eqn:E; bool_to_prop.
  2:{ by replace k with maxSize by lia. }
  specialize (Hr k (Z.min (maxSize - k) kBufferSize) ltac:(lia) ltac:(unfold kBufferSize; lia)).
  destruct (k <? zlen F) eqn:Ek; bool_to_prop.
  - destruct Hr as (n & Hn & Hn' & ->). destruct (ztake n (zdrop k F)) as [|c b] eqn:Hb.
    { apply (f_equal zlen) in Hb. rewrite zlen_ztake in Hb by (rewrite zlen_zdrop by lia; lia). change (zlen []) with 0 in Hb. lia. }
    rewrite <-Hb. replace (ztake k F ++ ztake n (zdrop k F)) with (ztake (k + n) F).
    2:{ unfold ztake, zdrop. rewrite Z2Nat.inj_add by lia. by rewrite take_take_drop. }
    apply IH; lia.
  - rewrite Hr. f_equal. f_equal. unfold ztake, zlen in *. rewrite !firstn_all2 by lia. done.
Qed.

(** Reading a small file gives its first [maxSize] bytes, however the
    kernel cuts it, and no error; a file that could not be opened leaves the
    content alone and gives [errno]. *)
Theorem small_file_read F read maxSize wantSize wantM wantC size mt ct old
    (Hr : reads_file F read) (Hm : 0 ≤ maxSize < 2 ^ 31) :
  (∃ st, readFile None maxSize wantSize wantM wantC (StatOk (Regular size) mt ct) read old = Ret (0, ztake maxSize F, st) ∧
    (wantSize = true → fileSize st = Some size)) ∧
  (∀ e st, readFile (Some e) maxSize wantSize wantM wantC st read old = Ret (e, old, MkStats None None None)).
Proof.
  split; [|done]. unfold readFile, ReadSmallFile_new, readToString. cbn [fd_ err_].
  assert (u64 maxSize = maxSize) as Hu by (unfold u64; apply wrapu_small; unfold in_u; lia).
  change (@nil ascii) with (ztake 0 F). rewrite Hu.
  destruct wantSize; rewrite (read_loop_eq _ F) by (done || (pose proof (zlen_nonneg F); lia)); cbn [mbind outcome_bind];
    eexists; (split; [reflexivity|]); done.
Qed.

Lemma small_file_read_witness :
  readFile None 7 true false false (StatOk (Regular 12) 0 0) (λ pos n, RData (ztake (Z.min n 3) (zdrop pos s!"hello, world"))) [] =
    Ret (0, s!"hello, ", MkStats (Some 12) None None) ∧
  (∀ e st, readFile (Some e) 7 true false false st (λ pos n, RData (ztake (Z.min n 3) (zdrop pos s!"hello, world"))) s!"old" =
    Ret (e, s!"old", MkStats None None None)).
Proof.
  split; [vm_compute; reflexivity|].
  refine (proj2 (small_file_read s!"hello, world" _ 7 true false false 12 0 0 s!"old" _ ltac:(lia))).
  intros pos n Hp Hn. cbv beta. change (zlen s!"hello, world") with 12. destruct (pos <? 12) eqn:E; bool_to_prop.
  - exists (Z.min (Z.min n 3) (12 - pos)). split; [lia|]. split; [lia|]. f_equal. unfold ztake.
    destruct (decide (Z.min n 3 ≤ 12 - pos)); [by rewrite (Z.min_l (Z.min n 3)) by lia|].
    rewrite !firstn_all2; [done|unfold zdrop; rewrite length_drop; change (length s!"hello, world") with 12%nat; lia..].
  - unfold zdrop. rewrite drop_ge by (change (length s!"hello, world") with 12%nat; lia). unfold ztake. by rewrite firstn_nil.
Defined.
