(* ===== verification/LogFile.v ===== *)
(** * Log files (master/base/LogFile.h, LogFile.cc)

    A [LogFile] appends lines to a file and goes on to a new one when the file
    has grown past [rollSize_] or, tested at every [checkEveryN_]-th line, a day
    of UTC has begun; it also flushes now and then.  The clock's readings, the
    answers of the file system and the writes are inputs; under the mutex its
    calls are one after another.  Files left behind are kept in order. *)
From S2P Require Import Prelude CxxString Date TimeZone Logger FileUtil.
Local Open Scope Z_scope.

Definition kRollPerSeconds_ : Z := 60 * 60 * 24.

Section LogFile.
Context (gmtime : Z → tm).
(** [ProcessInfo::hostname()] and [pid()]. *)
Context (hostname : bytes) (pid : Z).
Context (basename_ : bytes) (rollSize_ flushInterval_ checkEveryN_ : Z).
(** What the directory holds when the program starts; [None]: cannot be opened. *)
Context (existing : bytes → option bytes).

Record LogFile := MkLogFile {
  count_ : Z;
  startOfPeriod_ : Z;
  lastRoll_ : Z;
  lastFlush_ : Z;
  file_ : option AppendFile;
  (** History: the files closed before, first to last. *)
  older_ : list AppendFile;
}.

Definition set_count n s := MkLogFile n (startOfPeriod_ s) (lastRoll_ s) (lastFlush_ s) (file_ s) (older_ s).
Definition set_lastFlush t s := MkLogFile (count_ s) (startOfPeriod_ s) (lastRoll_ s) t (file_ s) (older_ s).
Definition set_file f s := MkLogFile (count_ s) (startOfPeriod_ s) (lastRoll_ s) (lastFlush_ s) (Some f) (older_ s).

Abbreviation logf := (ST LogFile).

(** [strftime] with ".%Y%m%d-%H%M%S."; the rest by [snprintf]. *)
Definition file_clock (u : tm) : bytes :=
  s!"." ++ dec_int (tm_year u + 1900) ++ dec_0 2 (tm_mon u + 1) ++ dec_0 2 (tm_mday u) ++ s!"-" ++
  dec_0 2 (tm_hour u) ++ dec_0 2 (tm_min u) ++ dec_0 2 (tm_sec u) ++ s!".".
Definition getLogFileName (now : Z) : bytes :=
  basename_ ++ file_clock (gmtime now) ++ hostname ++ ztake 31 (s!"." ++ dec_int pid) ++ s!".log".

(** All files, the current one last. *)
Definition files (s : LogFile) : list AppendFile := older_ s ++ match file_ s with Some f => [f] | None => [] end.

(** What is under a name now. *)
Definition fopen (s : LogFile) (name : bytes) : option bytes :=
  match list_find (λ f, name_ f = name) (files s) with
  | Some (_, f) => Some (content_ f)
  | None => existing name
  end.

Definition rollFile (now : Z) : logf bool :=
  let filename := getLogFileName now in
  let start := Z.quot now kRollPerSeconds_ * kRollPerSeconds_ in
  s ← st_get;
  if lastRoll_ s <? now then
    st_put (MkLogFile (count_ s) start now now (file_ s) (older_ s)) ;;
    f ← lift (AppendFile_new (bool_decide (is_Some (fopen s filename))) filename (default [] (fopen s filename)));
    st_modify (λ s, MkLogFile (count_ s) (startOfPeriod_ s) (lastRoll_ s) (lastFlush_ s) (Some f)
                      (older_ s ++ match file_ s with Some g => [AppendFile_dtor g] | None => [] end)) ;;
    mret true
  else mret false.

Definition LogFile_ctor (now : Z) : logf unit :=
  lift (assert_ (bool_decide (slash ∉ basename_))) ;;
  st_put (MkLogFile 0 0 0 0 None []) ;;
  rollFile now ;; mret ().

(** The readings of the clock: in [append_unlocked], in [rollFile]. *)
Definition append_unlocked (logline : bytes) (ans : nat → Z) (t1 t2 : Z) : logf unit :=
  s ← st_get;
  f ← lift (or_undef (file_ s));
  f' ← lift (FileUtil.append ans logline f);
  st_modify (set_file f') ;;
  if rollSize_ <? writtenBytes_ f' then rollFile t2 ;; mret ()
  else
    lift (defined (in_sb 32 (count_ s + 1))) ;;
    st_modify (set_count (count_ s + 1)) ;;
    if checkEveryN_ <=? count_ s + 1 then
      st_modify (set_count 0) ;;
      let thisPeriod_ := Z.quot t1 kRollPerSeconds_ * kRollPerSeconds_ in
      if negb (thisPeriod_ =? startOfPeriod_ s) then rollFile t2 ;; mret ()
      else if flushInterval_ <? t1 - lastFlush_ s then
        st_modify (set_lastFlush t1) ;;
        st_modify (set_file (FileUtil.flush f'))
      else mret ()
    else mret ().

Definition flush : logf unit :=
  s ← st_get;
  f ← lift (or_undef (file_ s));
  st_modify (set_file (FileUtil.flush f)).

(** ** Sessions *)
Inductive fop :=
  | FAppend (logline : bytes) (ans : nat → Z) (t1 t2 : Z)
  | FFlush
  | FRoll (now : Z).

Definition run_fop (o : fop) : logf unit :=
  match o with
  | FAppend logline ans t1 t2 => append_unlocked logline ans t1 t2
  | FFlush => flush
  | FRoll now => rollFile now ;; mret ()
  end.
Fixpoint run_fops (os : list fop) : logf unit :=
  match os with [] => mret () | o :: os' => run_fop o ;; run_fops os' end.

Definition fop_line (o : fop) : list bytes := match o with FAppend l _ _ _ => [l] | _ => [] end.

(** ** The contract *)
Context (Hlaw : gmtime_utc gmtime).
Context (Hslash : slash ∉ basename_).
Context (HN : - 2 ^ 31 ≤ checkEveryN_ < 2 ^ 31).




























End LogFile.





(** The first file's name holds something already; a name of 12:35 cannot be opened. *)
Definition demo_existing (name : bytes) : option bytes :=
  if bool_decide (name = s!"app.20240229-123456.host.42.log") then Some s!"old "
  else if bool_decide (name = s!"app.20240229-123500.host.42.log") then None else Some [].
Definition demo_file (os : list fop) : outcome unit * LogFile :=
  (LogFile_ctor demo_gmtime s!"host" 42 s!"app" demo_existing 1709210096 ;;
   run_fops demo_gmtime s!"host" 42 s!"app" 10 3 1024 demo_existing os) (MkLogFile 0 0 0 0 None []).


(** A file that cannot be opened ends the program. *)
Lemma unopened_file_aborts : fst (demo_file [FRoll 1709210100]) = AssertFail.
Proof. vm_compute. reflexivity. Qed.

