(* ===== verification/ProcessInfo.v ===== *)
(** * What the process says of itself (master/base/ProcessInfo.cc,
    master/net/inspect/ProcessInspector.cc, SystemInspector.cc)

    The texts of /proc, the entries of its directories and the answers of the
    system calls are parameters.  The pages that print CPU times and sizes as
    floating-point numbers are modelled up to the integers they divide. *)
From stdpp Require Import sorting.
From S2P Require Import Prelude CxxString Timestamp HttpContext TimeZone Logger.
Local Open Scope Z_scope.

(** ** ProcessInfo.cc *)

(** A filter sees every name and selects none. *)
Definition starts_with_digit (name : bytes) : bool := match name with c :: _ => is_digit c | [] => false end.

Definition fdDirFilter (t_numOpenedFiles : Z) (d_name : bytes) : outcome Z :=
  if starts_with_digit d_name
  then _ ← defined (in_sb 32 (t_numOpenedFiles + 1)); Ret (t_numOpenedFiles + 1)
  else Ret t_numOpenedFiles.

Definition taskDirFilter (t_pids : list Z) (d_name : bytes) : outcome (list Z) :=
  if starts_with_digit d_name then pid ← atoi d_name; Ret (t_pids ++ [pid]) else Ret t_pids.

(** [entries] is [None] when the directory cannot be read. *)
Fixpoint scan_entries {S} (filter : S → bytes → outcome S) (s : S) (entries : list bytes) : outcome S :=
  match entries with
  | [] => Ret s
  | e :: es => s' ← filter s e; scan_entries filter s' es
  end.
Definition scanDir {S} (filter : S → bytes → outcome S) (entries : option (list bytes)) (s : S) : outcome S :=
  scan_entries filter s (default [] entries).

Definition openedFiles (fd_entries : option (list bytes)) : outcome Z := scanDir fdDirFilter fd_entries 0.

(** [rlim] is [None] when [getrlimit] fails. *)
Definition maxOpenFiles (rlim : option Z) (fd_entries : option (list bytes)) : outcome Z :=
  match rlim with None => openedFiles fd_entries | Some cur => Ret (i32 cur) end.

Definition threads (task_entries : option (list bytes)) : outcome (list Z) :=
  result ← scanDir taskDirFilter task_entries []; Ret (merge_sort Z.le result).

Definition pidString (pid : Z) : bytes := dec_int pid.

(** The bytes [gethostname] leaves in [buf[256]], up to the first NUL. *)
Definition hostname (answer : option bytes) : bytes :=
  match answer with
  | Some name => ztake 255 (fst (break_at (ascii_of_N 0) name))
  | None => s!"unknownhost"
  end.

Definition lparen : ascii := ascii_of_N 40.
Definition rparen : ascii := ascii_of_N 41.

Definition procname (stat : bytes) : bytes :=
  match str_find [lparen] stat 0, str_rfind rparen stat with
  | Some lp, Some rp => if lp <? rp then ztake (rp - lp - 1) (zdrop (lp + 1) stat) else []
  | _, _ => []
  end.

Definition numThreads (status : bytes) : outcome Z :=
  match str_find s!"Threads:" status 0 with
  | Some pos => atoi (zdrop (pos + 8) status)
  | None => Ret 0
  end.

Definition threadStat_path (tid : Z) : bytes := ztake 63 (s!"/proc/self/task/" ++ dec_int tid ++ s!"/stat").

(** ** ProcessInspector.cc *)

Definition uptime (now start : Z) (showMicroseconds : bool) : outcome bytes :=
  let age := now - start in
  _ ← defined (in_sb 64 age);
  let seconds := i32 (Z.quot age kMicroSecondsPerSecond) in
  let days := Z.quot seconds 86400 in
  let hours := Z.quot (Z.rem seconds 86400) 3600 in
  let minutes := Z.quot (Z.rem seconds 3600) 60 in
  let text := dec_int days ++ s!" days " ++ dec_0 2 hours ++ s!":" ++ dec_0 2 minutes ++ s!":" ++
              dec_0 2 (Z.rem seconds 60) in
  Ret (if showMicroseconds
       then text ++ s!"." ++ dec_0 6 (Z.rem age kMicroSecondsPerSecond)
       else text).

Definition getLong (procStatus key : bytes) : Z :=
  match str_find key procStatus 0 with
  | Some pos => strtol (zdrop (pos + zlen key) procStatus)
  | None => 0
  end.

Definition tab : ascii := ascii_of_N 9.
Definition newline : ascii := ascii_of_N 10.

Fixpoint skip_tabs (s : bytes) : bytes :=
  match s with c :: s' => if bool_decide (c = tab) then skip_tabs s' else s | [] => [] end.

(** The search for the line's end does not stop at the text's end. *)
Definition getProcessName (procStatus : bytes) : outcome bytes :=
  match str_find s!"Name:" procStatus 0 with
  | Some pos =>
      match break_at newline (skip_tabs (zdrop (pos + 5) procStatus)) with
      | (name, Some _) => Ret name
      | (_, None) => Undef
      end
  | None => Ret []
  end.

Definition space : ascii := ascii_of_N 32.

Definition next (data : bytes) : bytes :=
  match str_find [space] data 0 with Some pos => zdrop (pos + 1) data | None => [] end.

Fixpoint nexts (n : nat) (data : bytes) : bytes :=
  match n with O => data | S n' => nexts n' (next data) end.

(** [getCpuTime] before its divisions: user and system time in ticks. *)
Definition cpu_ticks (data : bytes) : Z * Z :=
  let data := nexts 10 data in
  (strtol data, strtol (next data)).

(** One line of the page of [threads]: the thread's name, its state, its times.
    The name's end is the closing parenthesis; without a name it points
    nowhere. *)
Definition thread_line (stat : bytes) : outcome (bytes * ascii * (Z * Z)) :=
  match str_find [lparen] stat 0, str_rfind rparen stat with
  | Some lp, Some rp =>
      if lp <? rp then
        state ← or_undef (stat !! Z.to_nat (rp + 2));
        Ret (procname stat, state, cpu_ticks (zdrop (rp + 4) stat))
      else Undef
  | _, _ => Undef
  end.

Definition pid_page (pid : Z) : bytes := ztake 31 (dec_int pid).
Definition openedFiles_page (fd_entries : option (list bytes)) : outcome bytes :=
  n ← openedFiles fd_entries; Ret (ztake 31 (dec_int n)).

(** ** SystemInspector.cc *)

(** [s.c_str()] as a C string. *)
Definition c_str (s : bytes) : bytes := fst (break_at (ascii_of_N 0) s).

(** [stringPrintf]: at most 255 characters of the text. *)
Definition stringPrintf (text : bytes) : bytes := ztake 255 text.

Record utsname := MkUts { nodename : bytes; machine : bytes; sysname : bytes; release : bytes; version : bytes }.

Definition mib_line (label : bytes) (kb : Z) : bytes :=
  stringPrintf (label ++ dec_pad 6 (Z.quot kb 1024) ++ s!" MiB" ++ [newline]).

Definition line (text : bytes) : bytes := text ++ [newline].

(** [un] is [None] when [uname] fails; [long] arithmetic must not overflow. *)
Definition system_overview (gmtime : Z → tm) (now : Z) (un : option utsname) (stat loadavg meminfo : bytes)
    : outcome bytes :=
  generated ← toFormattedString gmtime true now;
  let hardware :=
    match un with
    | Some u => stringPrintf (line (s!"Hostname: " ++ nodename u)) ++ stringPrintf (line (s!"Machine: " ++ machine u)) ++
                stringPrintf (line (s!"OS: " ++ sysname u ++ s!" " ++ release u ++ s!" " ++ version u))
    | None => []
    end in
  let bootTime := kMicroSecondsPerSecond * getLong stat s!"btime " in
  _ ← defined (in_sb 64 bootTime);
  booted ← toFormattedString gmtime false bootTime;
  up ← uptime now bootTime false;
  let total_kb := getLong meminfo s!"MemTotal:" in
  let free_kb := getLong meminfo s!"MemFree:" in
  let buffers_kb := getLong meminfo s!"Buffers:" in
  let cached_kb := getLong meminfo s!"Cached:" in
  _ ← defined (in_sb 64 (total_kb - free_kb) && in_sb 64 (total_kb - free_kb - buffers_kb) &&
               in_sb 64 (total_kb - free_kb - buffers_kb - cached_kb) && in_sb 64 (free_kb + buffers_kb) &&
               in_sb 64 (free_kb + buffers_kb + cached_kb));
  Ret (s!"Page generated at " ++ generated ++ line s!" (UTC)" ++ hardware ++
       s!"Boot time: " ++ booted ++ line s!" (UTC)" ++ s!"Up time: " ++ line up ++
       stringPrintf (line (s!"Processes created: " ++ dec_int (getLong stat s!"processes "))) ++
       stringPrintf (line (s!"Loadavg: " ++ c_str loadavg)) ++
       mib_line s!"Total Memory: " total_kb ++ mib_line s!"Free Memory:  " free_kb ++
       mib_line s!"Buffers:      " buffers_kb ++ mib_line s!"Cached:       " cached_kb ++
       mib_line s!"Real Used:    " (total_kb - free_kb - buffers_kb - cached_kb) ++
       mib_line s!"Real Free:    " (free_kb + buffers_kb + cached_kb)).

(** ** Reading a line of /proc/self/stat *)

Lemma find_from_at c a b i : c ∉ a → find_from [c] (a ++ c :: b) i = Some (i + zlen a).
Proof.
  revert i. induction a as [|d a IH]; intros i Ha; cbn [app find_from is_prefix]; rewrite andb_true_r.
  - rewrite bool_decide_eq_true_2 by done. by rewrite Z.add_0_r.
  - apply not_elem_of_cons in Ha as [Hd Ha]. rewrite bool_decide_eq_false_2, IH by done.
    f_equal. unfold zlen. simpl. lia.
Qed.

Lemma str_find_at c a b : c ∉ a → str_find [c] (a ++ c :: b) 0 = Some (zlen a).
Proof.
  intros Ha. unfold str_find. rewrite (proj2 (Z.leb_le _ _)) by apply zlen_nonneg.
  unfold zdrop. by rewrite Z2Nat.inj_0, drop_0, find_from_at.
Qed.

Lemma rfind_from_none c b i f : c ∉ b → rfind_from c b i f = f.
Proof.
  revert i f. induction b as [|d b IH]; intros i f Hb; [done|]. apply not_elem_of_cons in Hb as [Hd Hb].
  cbn [rfind_from]. rewrite IH by done. by rewrite bool_decide_eq_false_2.
Qed.

Lemma str_rfind_at c a b : c ∉ b → str_rfind c (a ++ c :: b) = Some (zlen a).
Proof.
  intros Hb. unfold str_rfind. assert (∀ i f, rfind_from c (a ++ c :: b) i f = Some (i + zlen a)) as H; [|apply H].
  induction a as [|d a IH]; intros i f; cbn [app rfind_from].
  - rewrite rfind_from_none, bool_decide_eq_true_2 by done. by rewrite Z.add_0_r.
  - rewrite IH. f_equal. unfold zlen. simpl. lia.
Qed.

Lemma procname_between pre name rest :
  lparen ∉ pre → rparen ∉ rest → procname (pre ++ lparen :: name ++ rparen :: rest) = name.
Proof.
  intros Hp Hr. unfold procname. rewrite str_find_at by done.
  replace (pre ++ lparen :: name ++ rparen :: rest) with ((pre ++ lparen :: name) ++ rparen :: rest)
    by (by rewrite <-app_assoc).
  rewrite str_rfind_at by done. rewrite zlen_app. change (lparen :: name) with ([lparen] ++ name).
  rewrite zlen_app. change (zlen [lparen]) with 1. pose proof (zlen_nonneg name).
  rewrite (proj2 (Z.ltb_lt _ _)) by lia. rewrite <-!app_assoc, app_assoc, zdrop_at
    by (rewrite zlen_app; by change (zlen [lparen]) with 1).
  replace (zlen pre + (1 + zlen name) - zlen pre - 1) with (zlen name) by lia.
  unfold ztake, zlen. by rewrite Nat2Z.id, take_app_length.
Qed.

Lemma next_field f rest : space ∉ f → next (f ++ space :: rest) = rest.
Proof.
  intros Hf. unfold next. rewrite str_find_at by done.
  change (space :: rest) with ([space] ++ rest). rewrite app_assoc. apply zdrop_at.
  rewrite zlen_app. by change (zlen [space]) with 1.
Qed.

(** Fields, each with the space that ends it. *)
Definition fields_text (fs : list bytes) : bytes := concat (map (λ f, f ++ [space]) fs).

Lemma nexts_fields fs rest : Forall (λ f, space ∉ f) fs → nexts (length fs) (fields_text fs ++ rest) = rest.
Proof.
  induction 1 as [|f fs Hf _ IH]; [done|]. unfold fields_text. cbn [map concat length nexts].
  rewrite <-!app_assoc. cbn [app]. rewrite next_field by done. apply IH.
Qed.

Lemma digits_free c s : all_digits s → is_digit c = false → c ∉ s.
Proof. intros Hs Hc Hin. unfold all_digits in Hs. rewrite Forall_forall in Hs. specialize (Hs c Hin). simpl in Hs. congruence. Qed.

Lemma strtol_printed z t : 0 ≤ z < 2 ^ 63 → strtol (dec_nat z ++ space :: t) = z.
Proof.
  intros Hz. rewrite strtol_digits.
  - apply dec_nat_val. simpl in *. lia.
  - apply dec_nat_digits.
  - apply dec_nat_ne.
  - by intros c t' [= <- <-].
  - rewrite dec_nat_val; simpl in *; lia.
Qed.

(** The text the kernel writes for a thread (proc(5)): number, name in
    parentheses, state, then the fields, of which the 14th and 15th are the
    user and system time. *)
Definition stat_text (tid : Z) (name : bytes) (state : ascii) (fields4 : list bytes) (utime stime : Z) (rest : bytes) : bytes :=
  dec_nat tid ++ space :: lparen :: name ++ rparen :: space :: state :: space ::
    fields_text fields4 ++ dec_nat utime ++ space :: dec_nat stime ++ space :: rest.

(** A thread's line of /proc is read as the kernel wrote it.  Whatever the
    thread's name is, spaces and parentheses included, as long as no closing
    parenthesis follows it, the page's loop gets back exactly the name, the
    state and the two times. *)
Theorem stat_line_round_trip (tid : Z) (name : bytes) (state : ascii) (fields4 : list bytes)
    (utime stime : Z) (rest : bytes) :
  length fields4 = 10%nat → Forall (λ f, (space ∉ f) ∧ (rparen ∉ f)) fields4 →
  0 ≤ utime < 2 ^ 63 → 0 ≤ stime < 2 ^ 63 → state ≠ rparen → rparen ∉ rest →
  thread_line (stat_text tid name state fields4 utime stime rest) = Ret (name, state, (utime, stime)).
Proof.
  intros Hl Hf Hu Hs Hst Hrest. unfold stat_text.
  set (tail := fields_text fields4 ++ dec_nat utime ++ space :: dec_nat stime ++ space :: rest).
  assert (Htail : rparen ∉ space :: state :: space :: tail).
  { assert (rparen ∉ fields_text fields4).
    { unfold fields_text. clear Hl tail. induction Hf as [|f fs [_ Hf] _ IH]; [apply not_elem_of_nil|].
      cbn [map concat]. rewrite !elem_of_app. intros [[?|?%list_elem_of_singleton]|?]; [done|discriminate|done]. }
    pose proof (digits_free rparen _ (dec_nat_digits utime) eq_refl).
    pose proof (digits_free rparen _ (dec_nat_digits stime) eq_refl).
    rewrite !not_elem_of_cons. repeat split; [done|congruence|done|]. unfold tail.
    rewrite !not_elem_of_app, !not_elem_of_cons, !not_elem_of_app, !not_elem_of_cons. done. }
  set (pre := dec_nat tid ++ [space]).
  replace (dec_nat tid ++ space :: lparen :: name ++ rparen :: space :: state :: space :: tail)
    with (pre ++ lparen :: name ++ rparen :: space :: state :: space :: tail) by (unfold pre; by rewrite <-app_assoc).
  assert (Hpre : lparen ∉ pre).
  { unfold pre. rewrite not_elem_of_app. split; [by apply digits_free; [apply dec_nat_digits|]|].
    by intros ?%list_elem_of_singleton. }
  unfold thread_line. rewrite procname_between, str_find_at by done.
  set (whole := pre ++ lparen :: name).
  replace (pre ++ lparen :: name ++ rparen :: space :: state :: space :: tail)
    with (whole ++ rparen :: space :: state :: space :: tail) by (unfold whole; by rewrite <-app_assoc).
  rewrite str_rfind_at by done. rewrite (proj2 (Z.ltb_lt _ _)).
  2:{ unfold whole. rewrite zlen_app. change (lparen :: name) with ([lparen] ++ name). rewrite zlen_app.
      change (zlen [lparen]) with 1. pose proof (zlen_nonneg name). lia. }
  replace (Z.to_nat (zlen whole + 2)) with (length whole + 2)%nat by (unfold zlen; lia).
  rewrite lookup_app_r, Nat.add_comm, Nat.add_sub by lia.
  cbn [lookup list_lookup or_undef from_option mbind outcome_bind].
  change (rparen :: space :: state :: space :: tail) with ([rparen; space; state; space] ++ tail).
  rewrite app_assoc, zdrop_at by (rewrite zlen_app; by change (zlen [rparen; space; state; space]) with 4).
  unfold cpu_ticks, tail. rewrite <-Hl, nexts_fields by (eapply Forall_impl; [done|by intros f []]).
  rewrite strtol_printed, next_field, strtol_printed by (done || (apply digits_free; [apply dec_nat_digits|done])).
  done.
Qed.

Lemma stat_line_round_trip_witness :
  thread_line (stat_text 77 s!"a) (b" "S"%char
    [s!"1"; s!"77"; s!"77"; s!"0"; s!"-1"; s!"4194304"; s!"12"; s!"0"; s!"0"; s!"0"] 250 31 s!"0 0 20") =
  Ret (s!"a) (b", "S"%char, (250, 31)).
Proof.
  apply stat_line_round_trip; [done| |lia..|done|].
  - refine (bool_decide_eq_true_1 _ _). vm_compute. reflexivity.
  - refine (bool_decide_eq_true_1 _ _). vm_compute. reflexivity.
Defined.

(** ** Counting descriptors and threads *)

Lemma openedFiles_counts names :
  zlen (filter (λ n, starts_with_digit n = true) names) < 2 ^ 31 →
  openedFiles (Some names) = Ret (zlen (filter (λ n, starts_with_digit n = true) names)).
Proof.
  unfold openedFiles, scanDir. cbn [default].
  assert (∀ k, 0 ≤ k → k + zlen (filter (λ n, starts_with_digit n = true) names) < 2 ^ 31 →
    scan_entries fdDirFilter k names = Ret (k + zlen (filter (λ n, starts_with_digit n = true) names))) as H.
  { induction names as [|n names IH]; intros k Hk; cbn [scan_entries]; [by rewrite Z.add_0_r|].
    assert (Hd : fdDirFilter k n = if starts_with_digit n
      then _ ← defined (in_sb 32 (k + 1)); Ret (k + 1) else Ret k) by done.
    rewrite Hd. clear Hd. destruct (starts_with_digit n) eqn:E.
    - rewrite filter_cons_True by done.
      replace (zlen (n :: filter (λ n, starts_with_digit n = true) names))
        with (1 + zlen (filter (λ n, starts_with_digit n = true) names)) by (unfold zlen; simpl; lia).
      intros Hb. pose proof (zlen_nonneg (filter (λ n, starts_with_digit n = true) names)).
      rewrite (proj2 (in_sb_spec 32 (k + 1))) by (unfold in_s; simpl in *; lia).
      cbn. rewrite IH by lia. f_equal. lia.
    - rewrite filter_cons_False by (by rewrite E). intros Hb. cbn. by apply IH. }
  intros Hb. by apply H.
Qed.

(** The pids come out in order, each entry's once. *)
Lemma threads_sorted names pids :
  Forall2 (λ n p, starts_with_digit n = true ∧ atoi n = Ret p) names pids →
  ∃ l, threads (Some names) = Ret l ∧ StronglySorted Z.le l ∧ l ≡ₚ pids.
Proof.
  intros H. exists (merge_sort Z.le pids). unfold threads, scanDir. cbn [default].
  assert (∀ acc, scan_entries taskDirFilter acc names = Ret (acc ++ pids)) as ->.
  { induction H as [|n p names pids [Hd Hp] _ IH]; intros acc; cbn [scan_entries]; [by rewrite app_nil_r|].
    assert (taskDirFilter acc n = Ret (acc ++ [p])) as -> by (unfold taskDirFilter; by rewrite Hd, Hp).
    cbn. by rewrite IH, <-app_assoc. }
  split; [done|]. split; [|apply merge_sort_Permutation].
  apply StronglySorted_merge_sort; [intros ?; lia|intros ??; lia].
Qed.

(** ** The age of the process *)

Lemma uptime_text now start :
  let seconds := Z.quot (now - start) kMicroSecondsPerSecond in
  0 ≤ now - start → seconds < 2 ^ 31 →
  ∃ d h m s, uptime now start false =
      Ret (dec_int d ++ s!" days " ++ dec_w 2 h ++ s!":" ++ dec_w 2 m ++ s!":" ++ dec_w 2 s) ∧
    seconds = d * 86400 + h * 3600 + m * 60 + s ∧ 0 ≤ d ∧ 0 ≤ h < 24 ∧ 0 ≤ m < 60 ∧ 0 ≤ s < 60.
Proof.
  intros seconds H0 Hs. assert (0 ≤ seconds) as Hs0 by (apply Z.quot_pos; [done|unfold kMicroSecondsPerSecond; lia]).
  pose proof (Z.quot_rem' (now - start) kMicroSecondsPerSecond) as Hq. fold seconds in Hq.
  pose proof (Z.rem_bound_pos (now - start) kMicroSecondsPerSecond H0 ltac:(unfold kMicroSecondsPerSecond; lia)) as Hr.
  unfold uptime. rewrite (proj2 (in_sb_spec 64 _)).
  2:{ unfold in_s, kMicroSecondsPerSecond in *. simpl in *. lia. }
  fold seconds. cbn [defined mbind outcome_bind]. rewrite i32_small by (simpl in *; lia).
  rewrite !dec_0_w by (simpl; lia || (clear -Hs0; Z.to_euclidean_division_equations; lia)).
  do 4 eexists. split; [done|]. clear -Hs0. Z.to_euclidean_division_equations. lia.
Qed.

(** A status text cut before the end of its first line is read past its end. *)
Lemma truncated_name_overruns : getProcessName (s!"Name:" ++ tab :: s!"cache") = Undef ∧
  getProcessName (s!"Name:" ++ tab :: s!"cache" ++ [newline]) = Ret s!"cache".
Proof. by vm_compute. Qed.
