(* ===== verification/Rpc.v ===== *)
(** * Remote procedure calls (master/net/protorpc/RpcChannel.h, RpcChannel.cc,
    rpc.proto)

    Both ends of a connection are an [RpcChannel].  Services, their methods and
    the parsing of requests are parameters: [find_service] is the map given to
    [setServices], [find_method] the descriptor's [FindMethodByName],
    [parse_request] the prototype's [ParseFromString].  A service keeps the
    closure of a call it has started ([jobs_]) and runs it when it likes, with
    any response.  A channel's reactions are events; the connection between two
    channels is a queue of messages each way (the framing is the subject of the
    file Codec, the byte stream of TcpConnection). *)
From stdpp Require Import relations.
From S2P Require Import Prelude.
Local Open Scope Z_scope.

Inductive MessageType := REQUEST | RESPONSE | ERROR.
Inductive ErrorCode :=
  NO_ERROR | WRONG_PROTO | NO_SERVICE | NO_METHOD | INVALID_REQUEST | INVALID_RESPONSE | TIMEOUT.

#[export] Instance message_type_eq_dec : EqDecision MessageType.
Proof. solve_decision. Defined.
#[export] Instance error_code_eq_dec : EqDecision ErrorCode.
Proof. solve_decision. Defined.

Record RpcMessage := MkMessage {
  m_type : MessageType;
  m_id : Z;
  m_service : bytes;
  m_method : bytes;
  m_request : bytes;
  m_response : option bytes;
  m_error : option ErrorCode;
}.

(** The response object and the closure the caller gave, by name or null. *)
Record OutstandingCall := MkCall { response : option nat; done_ : option nat }.

Lemma seqZ_snoc n : 0 ≤ n → seqZ 1 (n + 1) = seqZ 1 n ++ [n + 1].
Proof.
  intros Hn. replace (n + 1) with (Z.of_nat (S (Z.to_nat n))) by lia. rewrite seqZ_S.
  replace (Z.of_nat (Z.to_nat n)) with n by lia. do 2 f_equal. lia.
Qed.

Section Channel.
Context {Service Method Request : Type}.
Context (find_service : bytes → option Service) (find_method : Service → bytes → option Method)
  (parse_request : Service → Method → bytes → option Request).

(** A call a service is executing. *)
Abbreviation job := (Service * Method * Request)%type.

Record RpcChannel := MkChannel {
  id_ : Z;
  outstandings_ : gmap Z OutstandingCall;
  has_services : bool;
  jobs_ : list (Z * job);
}.

Definition RpcChannel_new (services : bool) : RpcChannel := MkChannel 0 ∅ services [].

(** What a channel does: hand a message to the codec, give a response to the
    caller of [id] (parsed from the bytes, if any) and run its closure. *)
Inductive event := ESend (m : RpcMessage) | EResponse (id : Z) (obj : nat) (bs : option bytes) | ERun (id : Z) (closure : nat).

Definition CallMethod (service method request : bytes) (out : OutstandingCall) : ST RpcChannel (list event) :=
  s ← st_get;
  let id := i64 (id_ s + 1) in
  st_put (MkChannel id (<[id := out]> (outstandings_ s)) (has_services s) (jobs_ s)) ;;
  mret [ESend (MkMessage REQUEST id service method request None None)].

(** The branch of a response. *)
Definition on_response (m : RpcMessage) : ST RpcChannel (list event) :=
  lift (assert_ (bool_decide (is_Some (m_response m)) || bool_decide (is_Some (m_error m)))) ;;
  s ← st_get;
  match outstandings_ s !! m_id m with
  | None => mret []
  | Some out =>
      st_put (MkChannel (id_ s) (delete (m_id m) (outstandings_ s)) (has_services s) (jobs_ s)) ;;
      match response out with
      | None => mret []
      | Some obj =>
          mret (EResponse (m_id m) obj (m_response m) ::
                match done_ out with Some c => [ERun (m_id m) c] | None => [] end)
      end
  end.

(** What a request comes to: an error, or the call of a method. *)
Definition resolve (services : bool) (m : RpcMessage) : ErrorCode + job :=
  if services then
    match find_service (m_service m) with
    | Some service =>
        match find_method service (m_method m) with
        | Some method =>
            match parse_request service method (m_request m) with
            | Some r => inr (service, method, r)
            | None => inl INVALID_REQUEST
            end
        | None => inl NO_METHOD
        end
    | None => inl NO_SERVICE
    end
  else inl NO_SERVICE.

Definition on_request (m : RpcMessage) : ST RpcChannel (list event) :=
  s ← st_get;
  match resolve (has_services s) m with
  | inr j =>
      st_put (MkChannel (id_ s) (outstandings_ s) (has_services s) (jobs_ s ++ [(m_id m, j)])) ;; mret []
  | inl e => mret [ESend (MkMessage RESPONSE (m_id m) [] [] [] None (Some e))]
  end.

Definition onRpcMessage (m : RpcMessage) : ST RpcChannel (list event) :=
  match m_type m with
  | RESPONSE => on_response m
  | REQUEST => on_request m
  | ERROR => mret []
  end.

(** The closure of the [k]-th running call is run. *)
Definition doneCallback (k : nat) (bs : bytes) : ST RpcChannel (list event) :=
  s ← st_get;
  j ← lift (or_undef (jobs_ s !! k));
  st_put (MkChannel (id_ s) (outstandings_ s) (has_services s) (delete k (jobs_ s))) ;;
  mret [ESend (MkMessage RESPONSE j.1 [] [] [] (Some bs) None)].

(** [~RpcChannel] deletes what is outstanding: the callers' objects. *)
Definition RpcChannel_dtor (s : RpcChannel) : list OutstandingCall := (map_to_list (outstandings_ s)).*2.

(** ** A client and a server *)
Record System := MkSystem {
  client : RpcChannel;
  server : RpcChannel;
  to_server : list RpcMessage;
  to_client : list RpcMessage;
  (** History: the calls made, the responses services gave, and what the
      client's callers saw. *)
  calls_ : list (Z * (RpcMessage * OutstandingCall));
  answers_ : list (Z * (job * bytes));
  seen_ : list event;
  ok_ : bool;
}.

Definition System_new : System := MkSystem (RpcChannel_new false) (RpcChannel_new true) [] [] [] [] [] true.

Definition sends (es : list event) : list RpcMessage := omap (λ e, match e with ESend m => Some m | _ => None end) es.
Definition seen (es : list event) : list event := omap (λ e, match e with ESend _ => None | _ => Some e end) es.

(** The effect of a call on either side; [ok_] falls when it does not return. *)
Definition client_does (c : ST RpcChannel (list event)) (q : list RpcMessage)
    (log : list event → list (Z * (RpcMessage * OutstandingCall))) (s : System) : System :=
  match c (client s) with
  | (Ret es, c') =>
      MkSystem c' (server s) (to_server s ++ sends es) q (calls_ s ++ log es) (answers_ s) (seen_ s ++ seen es) (ok_ s)
  | (_, c') => MkSystem c' (server s) (to_server s) q (calls_ s) (answers_ s) (seen_ s) false
  end.
Definition server_does (c : ST RpcChannel (list event)) (q : list RpcMessage) (log : list (Z * (job * bytes)))
    (s : System) : System :=
  match c (server s) with
  | (Ret es, c') =>
      MkSystem (client s) c' q (to_client s ++ sends es) (calls_ s) (answers_ s ++ log) (seen_ s) (ok_ s)
  | (_, c') => MkSystem (client s) c' q (to_client s) (calls_ s) (answers_ s) (seen_ s) false
  end.

Definition call_log (out : OutstandingCall) (es : list event) : list (Z * (RpcMessage * OutstandingCall)) :=
  (λ m, (m_id m, (m, out))) <$> sends es.

Inductive rpc_step : System → System → Prop :=
  | step_call service method request out s : id_ (client s) < 2 ^ 63 - 1 →
      rpc_step s (client_does (CallMethod service method request out) (to_client s) (call_log out) s)
  | step_to_server m q s : to_server s = m :: q → rpc_step s (server_does (onRpcMessage m) q [] s)
  | step_done k i j bs s : jobs_ (server s) !! k = Some (i, j) →
      rpc_step s (server_does (doneCallback k bs) (to_server s) [(i, (j, bs))] s)
  | step_to_client m q s : to_client s = m :: q → rpc_step s (client_does (onRpcMessage m) q (λ _, []) s).

Definition rpc_reachable (s : System) : Prop := rtc rpc_step System_new s.

(** ** The invariant *)

(** The calls on their way: requests, running, responses. *)
Definition under_way (s : System) : list Z :=
  (m_id <$> to_server s) ++ (jobs_ (server s)).*1 ++ (m_id <$> to_client s).

(** What the service answered to the request of call [i], or the error the
    request comes to. *)
Definition answered (s : System) (i : Z) (req : RpcMessage) (bs : option bytes) (e : option ErrorCode) : Prop :=
  match resolve true req with
  | inr j => ∃ b, bs = Some b ∧ e = None ∧ (i, (j, b)) ∈ answers_ s
  | inl err => bs = None ∧ e = Some err
  end.

Definition responses (es : list event) : list Z :=
  omap (λ e, match e with EResponse i _ _ => Some i | _ => None end) es.

Record rpc_inv (s : System) : Prop := {
  r_ok : ok_ s = true;
  r_client : has_services (client s) = false ∧ jobs_ (client s) = [];
  r_server : has_services (server s) = true ∧ outstandings_ (server s) = ∅;
  r_count : 0 ≤ id_ (client s) < 2 ^ 63;
  r_ids : (calls_ s).*1 = seqZ 1 (id_ (client s));
  r_nodup : NoDup (under_way s);
  r_dom i : is_Some (outstandings_ (client s) !! i) ↔ i ∈ under_way s;
  r_out i out : outstandings_ (client s) !! i = Some out → ∃ req, (i, (req, out)) ∈ calls_ s;
  r_request m : m ∈ to_server s → m_type m = REQUEST ∧ ∃ out, (m_id m, (m, out)) ∈ calls_ s;
  r_job i j : (i, j) ∈ jobs_ (server s) → ∃ req out, (i, (req, out)) ∈ calls_ s ∧ resolve true req = inr j;
  r_response m : m ∈ to_client s → m_type m = RESPONSE ∧
    ∃ req out, (m_id m, (req, out)) ∈ calls_ s ∧ answered s (m_id m) req (m_response m) (m_error m);
  r_answers : NoDup (answers_ s).*1;
  r_answered i : i ∈ (answers_ s).*1 → (i ∉ m_id <$> to_server s) ∧ (i ∉ (jobs_ (server s)).*1) ∧ 1 ≤ i ≤ id_ (client s);
  r_seen i obj bs : EResponse i obj bs ∈ seen_ s → 1 ≤ i ≤ id_ (client s) ∧ (i ∉ under_way s) ∧
    ∃ req out e, (i, (req, out)) ∈ calls_ s ∧ response out = Some obj ∧ answered s i req bs e;
  r_once : NoDup (responses (seen_ s));
  r_complete i req out obj : (i, (req, out)) ∈ calls_ s → response out = Some obj →
    i ∈ under_way s ∨
    (∃ bs, EResponse i obj bs ∈ seen_ s) ∧ ∀ c, done_ out = Some c → ERun i c ∈ seen_ s;
}.

Lemma rpc_inv_new : rpc_inv System_new.
Proof.
  split; cbn; try done; try apply NoDup_nil_2;
    try (intros; match goal with H : _ ∈ [] |- _ => by apply not_elem_of_nil in H end).
  intros i. split; [intros [x Hx]; by rewrite lookup_empty in Hx|by intros ?%not_elem_of_nil].
Qed.

Lemma call_id s i x : rpc_inv s → (i, x) ∈ calls_ s → 1 ≤ i ≤ id_ (client s).
Proof.
  intros Hi Hx. assert (i ∈ (calls_ s).*1) as Hin by (apply list_elem_of_fmap; by exists (i, x)).
  rewrite (r_ids _ Hi) in Hin. apply elem_of_seqZ in Hin. lia.
Qed.

Lemma calls_unique s i x y : rpc_inv s → (i, x) ∈ calls_ s → (i, y) ∈ calls_ s → x = y.
Proof.
  intros Hi Hx Hy. assert (NoDup (calls_ s).*1) as Hnd by (rewrite (r_ids _ Hi); apply NoDup_seqZ).
  apply list_elem_of_lookup in Hx as [k Hk], Hy as [l Hl].
  assert (k = l) as ->; [|congruence].
  apply (NoDup_lookup _ _ _ i Hnd); rewrite list_lookup_fmap; [by rewrite Hk|by rewrite Hl].
Qed.

Lemma under_way_id s i : rpc_inv s → i ∈ under_way s → 1 ≤ i ≤ id_ (client s).
Proof.
  intros Hi Hin. apply (r_dom _ Hi) in Hin as [out Ho]. destruct (r_out _ Hi i out Ho) as [req Hc]. by apply (call_id s i (req, out)).
Qed.

Lemma answered_mono s s' i req bs e :
  (∀ x, x ∈ answers_ s → x ∈ answers_ s') → answered s i req bs e → answered s' i req bs e.
Proof. intros Ha. unfold answered. destruct (resolve true req); [done|]. intros (b & ? & ? & ?). exists b. auto. Qed.

(** ** The steps *)
Lemma inv_call service method request out s :
  rpc_inv s → id_ (client s) < 2 ^ 63 - 1 →
  rpc_inv (client_does (CallMethod service method request out) (to_client s) (call_log out) s).
Proof.
  intros Hi Hc. pose proof Hi as [H1 H2 H3 H4 H5 H6 H7 H8 H9 H10 H11 H12 H13 H14 H15 H16].
  unfold client_does, CallMethod, mbind, ST_bind, st_get, st_put, mret, ST_ret.
  assert (i64 (id_ (client s) + 1) = id_ (client s) + 1) as ->.
  { apply wraps_small; [done|]. unfold in_s. change (64 - 1) with 63. lia. }
  set (n := id_ (client s) + 1). set (req := MkMessage REQUEST n service method request None None).
  cbn [sends omap list_omap call_log fmap list_fmap seen m_id req]. rewrite (app_nil_r (seen_ s)).
  set (s' := MkSystem _ _ _ _ _ _ _ _).
  assert (n ∉ under_way s) as Hn by (intros Hu%(under_way_id s n Hi); lia).
  assert (under_way s' ≡ₚ n :: under_way s) as Hu.
  { unfold under_way, s'. cbn. rewrite fmap_app. cbn. rewrite <-app_assoc. cbn. symmetry. apply Permutation_middle. }
  assert (∀ i x, (i, x) ∈ calls_ s → (i, x) ∈ calls_ s') as Hcm by (intros i x Hx; apply elem_of_app; by left).
  assert ((n, (req, out)) ∈ calls_ s') as Hnew by (apply elem_of_app; right; left).
  assert (∀ i r bs e, answered s i r bs e → answered s' i r bs e) as Ham by (intros i r bs e; by apply answered_mono).
  split; try done.
  - cbn. lia.
  - cbn. rewrite fmap_app, H5. cbn. symmetry. apply seqZ_snoc. lia.
  - rewrite Hu. by constructor.
  - intros i. rewrite Hu, elem_of_cons, <-H7. unfold s'. cbn. rewrite lookup_insert_is_Some'. naive_solver.
  - intros i o. unfold s'. cbn. rewrite lookup_insert_Some. intros [[<- <-]|[_ Ho]]; [by exists req|].
    destruct (H8 i o Ho) as [r Hr]. exists r. by apply Hcm.
  - intros m. unfold s'. cbn. intros [Hm| ->%list_elem_of_singleton]%elem_of_app; [|split; [done|by exists out]].
    destruct (H9 m Hm) as (Ht & o & Ho). split; [done|]. exists o. by apply Hcm.
  - intros i j Hj. destruct (H10 i j Hj) as (r & o & Hr & Hj'). exists r, o. auto.
  - intros m Hm. destruct (H11 m Hm) as (Ht & r & o & Hr & Ha). split; [done|]. exists r, o. auto.
  - intros i Ha. destruct (H13 i Ha) as (G1 & G2 & G3). unfold s'. cbn. rewrite fmap_app, not_elem_of_app. cbn.
    split; [split; [done|]|split; [done|lia]]. rewrite list_elem_of_singleton. lia.
  - intros i obj bs Hs. destruct (H14 i obj bs Hs) as (G1 & G2 & r & o & e & G3 & G4 & G5).
    split; [unfold s'; cbn; lia|]. split; [|exists r, o, e; auto].
    rewrite Hu, not_elem_of_cons. split; [lia|done].
  - intros i r o obj [Hold|[= -> -> ->]%list_elem_of_singleton]%elem_of_app Ho; [|left; rewrite Hu; left].
    destruct (H16 i r o obj Hold Ho) as [G|G]; [left; rewrite Hu; by right|by right].
Qed.

(** A step of the server that only moves an id along. *)
Lemma inv_server_move srv q tc log s :
  rpc_inv s → has_services srv = true → outstandings_ srv = ∅ →
  (∀ m, m ∈ q → m ∈ to_server s) →
  (let s' := MkSystem (client s) srv q tc (calls_ s) (answers_ s ++ log) (seen_ s) (ok_ s) in
   under_way s' ≡ₚ under_way s →
   (∀ i j, (i, j) ∈ jobs_ srv → ∃ req out, (i, (req, out)) ∈ calls_ s ∧ resolve true req = inr j) →
   (∀ m, m ∈ tc → m ∈ to_client s ∨ m_type m = RESPONSE ∧
      ∃ req out, (m_id m, (req, out)) ∈ calls_ s ∧ answered s' (m_id m) req (m_response m) (m_error m)) →
   NoDup (answers_ s').*1 →
   (∀ i, i ∈ (answers_ s').*1 → (i ∉ m_id <$> q) ∧ (i ∉ (jobs_ srv).*1) ∧ 1 ≤ i ≤ id_ (client s)) →
   rpc_inv s').
Proof.
  intros [H1 H2 H3 H4 H5 H6 H7 H8 H9 H10 H11 H12 H13 H14 H15 H16] Hs Ho Hq. cbv zeta.
  set (s' := MkSystem _ _ _ _ _ _ _ _). intros Hu Hj Htc Hnd Han.
  assert (∀ i r bs e, answered s i r bs e → answered s' i r bs e) as Ham.
  { intros i r bs e. apply answered_mono. intros x Hx. apply elem_of_app. by left. }
  split; try done.
  - by rewrite Hu.
  - intros i. rewrite Hu. apply H7.
  - intros m Hm. by apply H9, Hq.
  - intros m Hm. destruct (Htc m Hm) as [Hold|Hnew]; [|done].
    destruct (H11 m Hold) as (Ht & r & o & Hr & Ha). split; [done|]. exists r, o. auto.
  - intros i obj bs Hsn. destruct (H14 i obj bs Hsn) as (G1 & G2 & r & o & e & G3 & G4 & G5).
    split; [done|]. split; [by rewrite Hu|]. exists r, o, e. auto.
  - intros i r o obj Hr Hob. rewrite Hu. by apply (H16 i r o).
Qed.

Lemma inv_to_server m q s :
  rpc_inv s → to_server s = m :: q → rpc_inv (server_does (onRpcMessage m) q [] s).
Proof.
  intros Hi Hq. pose proof Hi as [H1 H2 [H3 H3'] H4 H5 H6 H7 H8 H9 H10 H11 H12 H13 H14 H15 H16].
  destruct (H9 m) as (Ht & out & Hc); [rewrite Hq; left|].
  unfold server_does, onRpcMessage. rewrite Ht. unfold on_request, mbind, ST_bind, st_get, st_put, mret, ST_ret.
  rewrite H3. destruct (resolve true m) as [e|j] eqn:Er.
  - apply (inv_server_move (server s)); try done.
    + intros m' Hm'. rewrite Hq. by right.
    + unfold under_way. cbn. rewrite Hq, fmap_app. cbn. rewrite !app_assoc. symmetry. apply Permutation_cons_append.
    + intros m' [Hm'| ->%list_elem_of_singleton]%elem_of_app; [by left|right]. split; [done|].
      exists m, out. split; [done|]. unfold answered. by rewrite Er.
    + cbn. by rewrite app_nil_r.
    + cbn. intros i. rewrite app_nil_r. intros Ha. destruct (H13 i Ha) as (G1 & G2 & G3). split; [|done].
      rewrite Hq in G1. cbn in G1. by apply not_elem_of_cons in G1 as [_ ?].
  - cbn [sends omap list_omap]. rewrite (app_nil_r (to_client s)). apply (inv_server_move _ q (to_client s) []); try done.
    + intros m' Hm'. rewrite Hq. by right.
    + unfold under_way. cbn. rewrite Hq, fmap_app. cbn. rewrite <-app_assoc. cbn. by rewrite <-!Permutation_middle.
    + cbn. intros i j' [Hj'| [= -> ->]%list_elem_of_singleton]%elem_of_app; [by apply H10|]. by exists m, out.
    + intros m' Hm'. by left.
    + cbn. by rewrite app_nil_r.
    + cbn. intros i. rewrite app_nil_r. intros Ha. destruct (H13 i Ha) as (G1 & G2 & G3).
      rewrite Hq in G1. cbn in G1. apply not_elem_of_cons in G1 as [G0 G1]. split; [done|]. split; [|done].
      rewrite fmap_app, not_elem_of_app. cbn. split; [done|]. by rewrite list_elem_of_singleton.
Qed.

Lemma inv_done k i j bs s :
  rpc_inv s → jobs_ (server s) !! k = Some (i, j) →
  rpc_inv (server_does (doneCallback k bs) (to_server s) [(i, (j, bs))] s).
Proof.
  intros Hi Hk. pose proof Hi as [H1 H2 [H3 H3'] H4 H5 H6 H7 H8 H9 H10 H11 H12 H13 H14 H15 H16].
  pose proof (delete_Permutation _ _ _ Hk) as Hp.
  assert ((i, j) ∈ jobs_ (server s)) as Hin by by eapply list_elem_of_lookup_2.
  assert (i ∈ (jobs_ (server s)).*1) as Hin1 by (apply list_elem_of_fmap; by exists (i, j)).
  destruct (H10 i j Hin) as (req & out & Hc & Hr).
  assert (i ∉ (answers_ s).*1) as Hna by (intros Ha; by destruct (H13 i Ha) as (_ & ? & _)).
  unfold under_way in H6. rewrite Hp in H6. cbn [fmap list_fmap app] in H6.
  rewrite <-Permutation_middle in H6. apply NoDup_cons in H6 as [Hni H6].
  rewrite !not_elem_of_app in Hni. destruct Hni as (N1 & N2 & N3).
  unfold server_does, doneCallback, mbind, ST_bind, st_get, st_put, lift, mret, ST_ret. rewrite Hk.
  cbn [or_undef from_option fst].
  apply inv_server_move; try done; cbn [sends omap list_omap].
  - unfold under_way. cbn. rewrite Hp at 2. rewrite fmap_app. cbn.
    rewrite <-(Permutation_middle (m_id <$> to_server s)), !app_assoc. symmetry. apply Permutation_cons_append.
  - cbn. intros i' j' Hj'. apply H10. rewrite Hp. by right.
  - intros m [Hm| ->%list_elem_of_singleton]%elem_of_app; [by left|right]. split; [done|]. exists req, out.
    split; [done|]. unfold answered. rewrite Hr. exists bs. split; [done|]. split; [done|]. apply elem_of_app. right. left.
  - cbn. rewrite fmap_app. cbn. rewrite Permutation_app_comm. by constructor.
  - cbn. intros i'. rewrite fmap_app, elem_of_app. cbn. rewrite list_elem_of_singleton. intros [Ha| ->].
    + destruct (H13 i' Ha) as (G1 & G2 & G3). split; [done|]. split; [|done].
      rewrite Hp in G2. cbn in G2. by apply not_elem_of_cons in G2 as [_ ?].
    + split; [done|]. split; [done|]. by apply (call_id s i (req, out)).
Qed.

Lemma responses_in es i : i ∈ responses es → ∃ obj bs, EResponse i obj bs ∈ es.
Proof.
  unfold responses. intros (e & He & Hi)%list_elem_of_omap. destruct e as [|i' obj bs|]; try done.
  injection Hi as ->. by exists obj, bs.
Qed.

(** What the caller's side does with the answer to an outstanding call. *)
Definition reaction (i : Z) (out : OutstandingCall) (bs : option bytes) : list event :=
  match response out with
  | None => []
  | Some obj => EResponse i obj bs :: match done_ out with Some c => [ERun i c] | None => [] end
  end.

Lemma reaction_sends i out bs : sends (reaction i out bs) = [] ∧ seen (reaction i out bs) = reaction i out bs.
Proof. unfold reaction. by destruct (response out), (done_ out). Qed.

Lemma reaction_responses i out bs i' obj bs' : EResponse i' obj bs' ∈ reaction i out bs →
  i' = i ∧ response out = Some obj ∧ bs' = bs.
Proof.
  unfold reaction. destruct (response out) as [o|]; [|by intros ?%not_elem_of_nil].
  intros [[= -> -> ->]|He]%elem_of_cons; [done|].
  destruct (done_ out); [apply list_elem_of_singleton in He; done|by apply not_elem_of_nil in He].
Qed.

Lemma reaction_NoDup i out bs : NoDup (responses (reaction i out bs)).
Proof.
  unfold reaction. destruct (response out), (done_ out); cbn; try apply NoDup_nil_2; apply NoDup_singleton.
Qed.

Lemma onRpcMessage_reacts m ch out : m_type m = RESPONSE →
  is_Some (m_response m) ∨ is_Some (m_error m) → outstandings_ ch !! m_id m = Some out →
  onRpcMessage m ch = (Ret (reaction (m_id m) out (m_response m)),
    MkChannel (id_ ch) (delete (m_id m) (outstandings_ ch)) (has_services ch) (jobs_ ch)).
Proof.
  intros Ht Hsome Hout. unfold onRpcMessage. rewrite Ht. unfold on_response.
  assert (assert_ (bool_decide (is_Some (m_response m)) || bool_decide (is_Some (m_error m))) = Ret ()) as Hasr.
  { by apply assert_true, orb_true_iff; rewrite !bool_decide_eq_true. }
  rewrite (ST_bind_eq _ _ ch () ch) by (unfold lift; by rewrite Hasr).
  unfold mbind, ST_bind, st_get, st_put, mret, ST_ret. rewrite Hout. unfold reaction. by destruct (response out).
Qed.

Lemma inv_to_client m q s :
  rpc_inv s → to_client s = m :: q → rpc_inv (client_does (onRpcMessage m) q (λ _, []) s).
Proof.
  intros Hi Hq. pose proof Hi as [H1 H2 H3 H4 H5 H6 H7 H8 H9 H10 H11 H12 H13 H14 H15 H16].
  destruct (H11 m) as (Ht & req & out0 & Hc0 & Ha); [rewrite Hq; left|].
  assert (under_way s ≡ₚ m_id m :: ((m_id <$> to_server s) ++ (jobs_ (server s)).*1 ++ (m_id <$> q))) as Hu.
  { unfold under_way. rewrite Hq. cbn. rewrite !app_assoc. symmetry. apply Permutation_middle. }
  assert (m_id m ∈ under_way s) as Hin by (rewrite Hu; left).
  pose proof H6 as Hnd. rewrite Hu in Hnd. apply NoDup_cons in Hnd as [Hni Hnd].
  apply H7 in Hin as Hout. destruct Hout as [out Hout]. destruct (H8 _ _ Hout) as [req' Hc].
  pose proof (calls_unique s _ _ _ Hi Hc Hc0) as [= -> <-]. clear Hc0.
  assert (is_Some (m_response m) ∨ is_Some (m_error m)) as Hsome.
  { unfold answered in Ha. destruct (resolve true req); [right; destruct Ha as [_ ->]|left; destruct Ha as (b & -> & _)]; by eexists. }
  unfold client_does. rewrite (onRpcMessage_reacts _ _ _ Ht Hsome Hout).
  pose proof (reaction_responses (m_id m) out (m_response m)) as Hes.
  destruct (reaction_sends (m_id m) out (m_response m)) as [Es1 Es2].
  rewrite Es1, Es2, (app_nil_r (to_server s)), (app_nil_r (calls_ s)).
  split; cbn [client server to_server to_client calls_ answers_ seen_ ok_ id_ outstandings_ has_services jobs_]; try done.
  - intros i. rewrite lookup_delete_is_Some, H7, Hu, elem_of_cons. unfold under_way. cbn.
    split; [naive_solver|]. intros Hi'. split; [intros <-; by apply Hni|by right].
  - intros i o [_ Ho]%lookup_delete_Some. by apply H8.
  - intros m' Hm'. apply H11. rewrite Hq. by right.
  - intros i obj bs [Hold|Hnew]%elem_of_app.
    + destruct (H14 i obj bs Hold) as (G1 & G2 & G3). split; [done|]. split; [|done]. rewrite Hu in G2.
      by apply not_elem_of_cons in G2 as [_ ?].
    + destruct (Hes i obj bs Hnew) as (-> & Ho & ->). split; [by apply (call_id s (m_id m) (req, out))|]. split; [done|].
      exists req, out, (m_error m). done.
  - unfold responses. rewrite omap_app. apply NoDup_app. split; [done|]. split.
    + intros i Hold%responses_in Hnew%responses_in. destruct Hold as (o1 & b1 & Hold), Hnew as (o2 & b2 & Hnew).
      destruct (Hes i o2 b2 Hnew) as (-> & _). destruct (H14 _ _ _ Hold) as (_ & G2 & _). done.
    + apply reaction_NoDup.
  - intros i r o obj Hr Hob. destruct (H16 i r o obj Hr Hob) as [G|[[bs G1] G2]].
    + rewrite Hu in G. apply elem_of_cons in G as [->|G]; [right|left; exact G].
      pose proof (calls_unique s _ _ _ Hi Hr Hc) as [= -> ->]. unfold reaction. rewrite Hob.
      split; [exists (m_response m); apply elem_of_app; right; left|]. intros c ->. apply elem_of_app. right. right. left.
    + right. split; [exists bs; apply elem_of_app; by left|]. intros c Hdc. apply elem_of_app. left. by apply G2.
Qed.

Lemma rpc_reachable_inv s : rpc_reachable s → rpc_inv s.
Proof.
  intros Hr. assert (∀ a, rtc rpc_step a s → rpc_inv a → rpc_inv s) as H; [|by apply (H _ Hr), rpc_inv_new].
  clear Hr. induction 1 as [|a b c Hab _ IH]; [done|]. intros Ha. apply IH. destruct Hab.
  - by apply inv_call.
  - by apply inv_to_server.
  - by eapply inv_done.
  - by apply inv_to_client.
Qed.

(** ** Properties *)

(** C34: Remote calls are matched: over a connection that delivers messages in
    order, whatever calls are made and however long services take, no
    assertion fails; ids are never reused; what a caller's response object
    gets is what the service answered to that very request, or nothing when the
    request came to an error, at most once; and no call is lost: it is
    outstanding exactly as long as it is under way, and once it is not its
    response was delivered and its closure run. *)
Theorem rpc_calls_matched s (Hr : rpc_reachable s) :
  ok_ s = true ∧ (calls_ s).*1 = seqZ 1 (id_ (client s)) ∧ NoDup (responses (seen_ s)) ∧
  (∀ i obj bs, EResponse i obj bs ∈ seen_ s →
    ∃ req out e, (i, (req, out)) ∈ calls_ s ∧ response out = Some obj ∧ answered s i req bs e) ∧
  NoDup (under_way s) ∧ (∀ i, is_Some (outstandings_ (client s) !! i) ↔ i ∈ under_way s) ∧
  (∀ i req out obj, (i, (req, out)) ∈ calls_ s → response out = Some obj → i ∉ under_way s →
    (∃ bs, EResponse i obj bs ∈ seen_ s) ∧ ∀ c, done_ out = Some c → ERun i c ∈ seen_ s).
Proof.
  apply rpc_reachable_inv in Hr as [H1 H2 H3 H4 H5 H6 H7 H8 H9 H10 H11 H12 H13 H14 H15 H16].
  do 3 (split; [done|]). split; [intros i obj bs Hs; by destruct (H14 i obj bs Hs) as (_ & _ & ?)|].
  split; [done|]. split; [done|]. intros i req out obj Hc Ho Hn. by destruct (H16 i req out obj Hc Ho).
Qed.
End Channel.

(** ** A concrete pair *)

(** One service with one method that takes any nonempty request. *)
Definition demo_find (s : bytes) : option unit := if bool_decide (s = s!"Sudoku") then Some () else None.
Definition demo_method (_ : unit) (m : bytes) : option unit := if bool_decide (m = s!"Solve") then Some () else None.
Definition demo_parse (_ _ : unit) (r : bytes) : option bytes := match r with [] => None | _ => Some r end.

Abbreviation demo_system := (@System unit unit bytes).
Definition demo_call (m : bytes) (out : OutstandingCall) (s : demo_system) : demo_system :=
  client_does (CallMethod s!"Sudoku" m s!"53" out) (to_client s) (call_log out) s.
Definition demo_deliver (s : demo_system) : demo_system :=
  match to_server s with
  | m :: q => server_does (onRpcMessage demo_find demo_method demo_parse m) q [] s
  | [] => s
  end.
(** Two calls, of a method and of none; both delivered; the error comes back,
    then the answer. *)
Definition demo1 : demo_system :=
  demo_deliver (demo_deliver (demo_call s!"None" (MkCall (Some 2%nat) (Some 8%nat))
    (demo_call s!"Solve" (MkCall (Some 1%nat) (Some 7%nat)) System_new))).
Definition demo2 : demo_system := server_does (doneCallback 0 s!"42") (to_server demo1) [(1, ((), (), s!"53", s!"42"))] demo1.
Definition demo_return (s : demo_system) : demo_system :=
  match to_client s with
  | m :: q => client_does (onRpcMessage demo_find demo_method demo_parse m) q (λ _, []) s
  | [] => s
  end.
Definition demo3 : demo_system := demo_return (demo_return demo2).

Lemma demo3_reachable : rpc_reachable demo_find demo_method demo_parse demo3.
Proof.
  eapply rtc_l; [by apply (step_call _ _ _ s!"Sudoku" s!"Solve" s!"53" (MkCall (Some 1%nat) (Some 7%nat)))|].
  eapply rtc_l; [by apply (step_call _ _ _ s!"Sudoku" s!"None" s!"53" (MkCall (Some 2%nat) (Some 8%nat)))|].
  eapply rtc_l; [by eapply step_to_server|]. eapply rtc_l; [by eapply step_to_server|].
  eapply rtc_l; [by apply (step_done _ _ _ 0 1 ((), (), s!"53") s!"42")|].
  eapply rtc_l; [by eapply step_to_client|]. eapply rtc_l; [by eapply step_to_client|]. apply rtc_refl.
Qed.

Lemma rpc_calls_matched_witness :
  seen_ demo3 = [EResponse 2 2 None; ERun 2 8; EResponse 1 1 (Some s!"42"); ERun 1 7] ∧ ok_ demo3 = true.
Proof.
  split; [vm_compute; reflexivity|].
  exact (proj1 (rpc_calls_matched demo_find demo_method demo_parse demo3 demo3_reachable)).
Defined.

(** A peer that sends a response without response and error aborts the
    process. *)
Lemma empty_response_aborts (s : RpcChannel) i :
  fst (onRpcMessage demo_find demo_method demo_parse (MkMessage RESPONSE i [] [] [] None None) s) = AssertFail.
Proof. done. Qed.
