(* ===== verification/RpcWire.v ===== *)
(** * Remote calls over a connection (master/net/protorpc/RpcServer.cc,
    RpcCodec.h, RpcCodec.cc, and the parts of RpcChannel.cc that use the codec)

    The two channels of the file Rpc with the codec of the file Codec between
    them: each side writes frames, the network carries the bytes in any pieces,
    and the receiver's [onMessage] parses what its input buffer holds.  The main
    theorem is a refinement: whatever the pieces, this system behaves as the one
    of the file Rpc, in which whole messages are queued. *)
From stdpp Require Import relations.
From S2P Require Import Prelude StdContainers CxxString Endian Buffer Codec Rpc.
Local Open Scope Z_scope.

Definition rpctag : bytes := s!"RPC0".

Section Wire.
Context {Service Method Request : Type}.
Context (find_method : Service → bytes → option Method) (parse_request : Service → Method → bytes → option Request).
Context `{PM : ProtoMessage RpcMessage}.

Abbreviation channel := (@RpcChannel Service Method Request).

(** ** The server's registry and its connections *)

(** [services_], by the full names of the services. *)
Definition registerService (full_name : bytes) (service : Service) (services_ : list (bytes * Service)) :
    list (bytes * Service) := smap_insert full_name service services_.

(** The connection's context: its channel while it is up. *)
Definition onConnection (connected : bool) (ctx : option channel) : option channel :=
  if connected then Some (RpcChannel_new true) else None.

(** A service's closure holds a raw pointer to the channel. *)
Definition run_closure (k : nat) (bs : bytes) (ctx : option channel) : outcome (list event) :=
  match ctx with Some c => fst (doneCallback k bs c) | None => Undef end.

Context (services_ : list (bytes * Service)).
Definition find_service (name : bytes) : option Service := smap_find name services_.

(** ** One end: a channel and its connection's input buffer *)
Definition on_channel {A} (c : ST channel A) : ST (channel * Buffer) A := λ s,
  let '(o, c') := c s.1 in (o, (c', s.2)).
Definition on_buffer {A} (b : ST Buffer A) : ST (channel * Buffer) A := λ s,
  let '(o, b') := b s.2 in (o, (s.1, b')).

(** The codec's callbacks; an error shuts the connection down. *)
Fixpoint on_codec_events (es : list codec_event) : ST channel (list event * bool) :=
  match es with
  | [] => mret ([], false)
  | EMessage m :: es' =>
      evs ← onRpcMessage find_service find_method parse_request m;
      r ← on_codec_events es';
      mret (evs ++ r.1, r.2)
  | EError _ :: es' => r ← on_codec_events es'; mret (r.1, true)
  end.

Definition channel_onMessage (e : endian) : ST (channel * Buffer) (list event * bool) :=
  es ← on_buffer (Codec.onMessage e rpctag None);
  on_channel (on_codec_events es).

(** Bytes arrive: they are read into the buffer and the callback runs. *)
Definition receive (e : endian) (bs : bytes) : ST (channel * Buffer) (list event * bool) :=
  on_buffer (append bs) ;; channel_onMessage e.

(** [codec_.send] of every message a channel sends. *)
Fixpoint send_all (e : endian) (ms : list RpcMessage) : outcome bytes :=
  match ms with
  | [] => Ret []
  | m :: ms' => b ← send e rpctag m; bs ← send_all e ms'; Ret (b ++ bs)
  end.

(** ** Two ends and the network *)
Context (ec es : endian).

Record Wire := MkWire {
  w_client : channel;
  w_server : channel;
  c_buf : Buffer;
  s_buf : Buffer;
  (** The bytes on their way to the server and to the client. *)
  c2s : bytes;
  s2c : bytes;
  (** History, as in the file Rpc. *)
  w_calls : list (Z * (RpcMessage * OutstandingCall));
  w_answers : list (Z * ((Service * Method * Request) * bytes));
  w_seen : list event;
  w_ok : bool;
}.

Definition Wire_new : Wire :=
  MkWire (RpcChannel_new false) (RpcChannel_new true) (Buffer_new kInitialSize) (Buffer_new kInitialSize)
    [] [] [] [] [] true.

Definition client_acts (c : ST (channel * Buffer) (list event * bool)) (rest : bytes)
    (log : list event → list (Z * (RpcMessage * OutstandingCall))) (w : Wire) : Wire :=
  match c (w_client w, c_buf w) with
  | (Ret (evs, shut), (c', b')) =>
      match send_all ec (sends evs) with
      | Ret out => MkWire c' (w_server w) b' (s_buf w) (c2s w ++ out) rest (w_calls w ++ log evs) (w_answers w)
                     (w_seen w ++ seen evs) (w_ok w && negb shut)
      | _ => MkWire c' (w_server w) b' (s_buf w) (c2s w) rest (w_calls w) (w_answers w) (w_seen w) false
      end
  | (_, (c', b')) => MkWire c' (w_server w) b' (s_buf w) (c2s w) rest (w_calls w) (w_answers w) (w_seen w) false
  end.

Definition server_acts (c : ST (channel * Buffer) (list event * bool)) (rest : bytes)
    (log : list (Z * ((Service * Method * Request) * bytes))) (w : Wire) : Wire :=
  match c (w_server w, s_buf w) with
  | (Ret (evs, shut), (c', b')) =>
      match send_all es (sends evs) with
      | Ret out => MkWire (w_client w) c' (c_buf w) b' rest (s2c w ++ out) (w_calls w) (w_answers w ++ log)
                     (w_seen w) (w_ok w && negb shut)
      | _ => MkWire (w_client w) c' (c_buf w) b' rest (s2c w) (w_calls w) (w_answers w) (w_seen w) false
      end
  | (_, (c', b')) => MkWire (w_client w) c' (c_buf w) b' rest (s2c w) (w_calls w) (w_answers w) (w_seen w) false
  end.

(** A member that leaves the buffer alone. *)
Definition quiet (c : ST channel (list event)) : ST (channel * Buffer) (list event * bool) :=
  on_channel (evs ← c; mret (evs, false)).

Definition request_of (id : Z) (service method request : bytes) : RpcMessage :=
  MkMessage REQUEST (i64 (id + 1)) service method request None None.
Definition response_of (id : Z) (bs : bytes) : RpcMessage := MkMessage RESPONSE id [] [] [] (Some bs) None.
Definition error_of (id : Z) (e : Rpc.ErrorCode) : RpcMessage := MkMessage RESPONSE id [] [] [] None (Some e).

Inductive wire_step : Wire → Wire → Prop :=
  | wire_call service method request out w :
      id_ (w_client w) < 2 ^ 63 - 1 → msg_ok rpctag (request_of (id_ (w_client w)) service method request) →
      wire_step w (client_acts (quiet (CallMethod service method request out)) (s2c w) (call_log out) w)
  | wire_to_server n w :
      0 ≤ n ≤ zlen (c2s w) → zlen (buffer_ (s_buf w)) + n ≤ max_size →
      wire_step w (server_acts (receive es (ztake n (c2s w))) (zdrop n (c2s w)) [] w)
  | wire_done k i j bs w :
      jobs_ (w_server w) !! k = Some (i, j) → msg_ok rpctag (response_of i bs) →
      wire_step w (server_acts (quiet (doneCallback k bs)) (c2s w) [(i, (j, bs))] w)
  | wire_to_client n w :
      0 ≤ n ≤ zlen (s2c w) → zlen (buffer_ (c_buf w)) + n ≤ max_size →
      wire_step w (client_acts (receive ec (ztake n (s2c w))) (zdrop n (s2c w)) (λ _, []) w).

Definition wire_reachable (w : Wire) : Prop := rtc wire_step Wire_new w.
End Wire.

(** ** Frames on the wire *)
Section Frames.
Context `{PM : ProtoMessage RpcMessage, !ProtoMessageLaws RpcMessage}.

Lemma rpctag_ok : tag_ok rpctag.
Proof. vm_compute. discriminate. Qed.

Lemma frames_app ms ms' : frames rpctag (ms ++ ms') = frames rpctag ms ++ frames rpctag ms'.
Proof. induction ms as [|m ms IH]; [done|]. cbn [app frames]. by rewrite IH, app_assoc. Qed.

Lemma send_all_frames e ms : Forall (msg_ok rpctag) ms → send_all e ms = Ret (frames rpctag ms).
Proof.
  induction 1 as [|m ms Hm _ IH]; [done|]. cbn [send_all frames].
  rewrite send_frame by (apply rpctag_ok || done). cbn. by rewrite IH.
Qed.

Lemma ztake_app_front {A} (l k : list A) n : n ≤ zlen l → ztake n (l ++ k) = ztake n l.
Proof. intros Hn. unfold ztake, zlen in *. apply take_app_le. lia. Qed.

(** The bytes of frames cut anywhere: whole frames and a proper prefix. *)
Lemma frames_cut ms data rest :
  data ++ rest = frames rpctag ms →
  ∃ ms1 ms2 part, ms = ms1 ++ ms2 ∧ data = frames rpctag ms1 ++ part ∧ part ++ rest = frames rpctag ms2 ∧
    match ms2 with
    | [] => part = []
    | m :: _ => ∃ k, 0 ≤ k < zlen (frame rpctag m) ∧ part = ztake k (frame rpctag m)
    end.
Proof.
  revert data. induction ms as [|m ms IH]; intros data Heq.
  { apply app_eq_nil in Heq as [-> ->]. by exists [], [], []. }
  cbn [frames] in Heq. destruct (Z.lt_ge_cases (zlen data) (zlen (frame rpctag m))) as [Hlt|Hge].
  - exists [], (m :: ms), data. split; [done|]. split; [done|]. split; [done|].
    exists (zlen data). split; [pose proof (zlen_nonneg data); lia|].
    assert (Ht : ztake (zlen data) (data ++ rest) = ztake (zlen data) (frame rpctag m ++ frames rpctag ms)) by (by rewrite Heq).
    rewrite ztake_zlen_app, ztake_app_front in Ht by (done || lia). exact Ht.
  - assert (data = frame rpctag m ++ zdrop (zlen (frame rpctag m)) data) as Hd.
    { rewrite <-(ztake_zdrop (zlen (frame rpctag m)) data) at 1. f_equal.
      assert (Ht : ztake (zlen (frame rpctag m)) (data ++ rest) = ztake (zlen (frame rpctag m)) (frame rpctag m ++ frames rpctag ms))
        by (by rewrite Heq).
      rewrite (ztake_zlen_app (frame rpctag m)), ztake_app_front in Ht by (done || lia). exact Ht. }
    rewrite Hd in Heq. rewrite <-app_assoc in Heq. apply app_inv_head in Heq.
    destruct (IH _ Heq) as (ms1 & ms2 & part & -> & Hdata & Hrest).
    exists (m :: ms1), ms2, part. split; [done|]. split; [|done]. cbn [frames]. rewrite <-app_assoc, <-Hdata. exact Hd.
Qed.

Lemma frame_pos m : 0 < zlen (frame rpctag m).
Proof. unfold frame. rewrite zlen_app, zlen_be_bytes. pose proof (zlen_nonneg (frame_body rpctag m)). lia. Qed.

(** Less than the first frame. *)
Definition short (data : bytes) (ms : list RpcMessage) : Prop :=
  match ms with [] => True | m :: _ => zlen data < zlen (frame rpctag m) end.

(** What a receiver that has read [data] and now [bs] makes of them. *)
Lemma receive_frames e p b data bs rest ms :
  kCheapPrepend ≤ p → holds p b data → zlen (buffer_ b) + zlen bs ≤ max_size →
  data ++ bs ++ rest = frames rpctag ms → Forall (msg_ok rpctag) ms →
  ∃ b1 b' p' ms1 ms2 part, append bs b = (Ret (), b1) ∧
    Codec.onMessage e rpctag None b1 = (Ret (EMessage <$> ms1), b') ∧ ms = ms1 ++ ms2 ∧
    holds p' b' part ∧ kCheapPrepend ≤ p' ∧ part ++ rest = frames rpctag ms2 ∧ short part ms2.
Proof.
  intros Hp Hh Hmax Heq Hok. rewrite app_assoc in Heq.
  destruct (append_holds _ _ _ _ Hh Hmax) as (b1 & p1 & Ha & Hh1 & Hp1 & _).
  destruct (frames_cut _ _ _ Heq) as (ms1 & ms2 & part & -> & Hdata & Hrest & Hpart).
  apply Forall_app in Hok as [Hok1 Hok2]. rewrite Hdata in Hh1.
  assert (kCheapPrepend ≤ p1) as Hp1' by lia.
  assert (∃ b' p', Codec.onMessage e rpctag None b1 = (Ret (EMessage <$> ms1), b') ∧ holds p' b' part ∧
    kCheapPrepend ≤ p') as (b' & p' & Hm & Hh' & Hp').
  { destruct ms2 as [|m ms2].
    - subst part. destruct ms1 as [|m ms1].
      + pose proof (codec_loop_content e rpctag None rpctag_ok (S (Z.to_nat (readableBytes b1))) p1 b1 _ Hp1' Hh1) as Hres.
        unfold Codec.onMessage. destruct (codec_loop _ _ _ _ b1) as [o b']. cbn in Hres.
        destruct Hres as (Ho & (p' & Hp' & Hh') & _). simpl in *. subst o. by exists b', p'.
      + change ([] : bytes) with (ztake 0 (frame rpctag m)) in Hh1 |- *.
        apply (onMessage_frames e rpctag None rpctag_ok p1 b1 (m :: ms1) m 0); try done.
        * constructor; [by apply Forall_cons in Hok1 as [? _]|done].
        * by apply Forall_forall.
    - destruct Hpart as (k & Hk & ->). apply Forall_cons in Hok2 as [Hm _].
      apply (onMessage_frames e rpctag None rpctag_ok p1 b1 ms1 m k); try done; [by constructor|by apply Forall_forall]. }
  exists b1, b', p', ms1, ms2, part. do 6 (split; [done|]). unfold short.
  destruct ms2 as [|m ms2]; [done|]. destruct Hpart as (k & Hk & ->). rewrite zlen_ztake by lia; lia.
Qed.
End Frames.

(** ** The refinement *)
Section Refinement.
Context {Service Method Request : Type}.
Context (find_method : Service → bytes → option Method) (parse_request : Service → Method → bytes → option Request).
Context `{PM : ProtoMessage RpcMessage, !ProtoMessageLaws RpcMessage}.
Context (services_ : list (bytes * Service)) (ec es : endian).
(** Protobuf's text of an error response is a few bytes. *)
Hypothesis small_errors : ∀ id e, in_s 64 id → msg_ok rpctag (error_of id e).

Abbreviation fs := (find_service services_).
Abbreviation system := (@System Service Method Request).
Abbreviation wire := (@Wire Service Method Request).
Abbreviation step := (rpc_step fs find_method parse_request).

(** One direction: the buffer and the bytes on their way are the frames. *)
Definition carries (b : Buffer) (bs : bytes) (ms : list RpcMessage) : Prop :=
  ∃ p data, kCheapPrepend ≤ p ∧ holds p b data ∧ data ++ bs = frames rpctag ms ∧ Forall (msg_ok rpctag) ms ∧
    short data ms.

Record refines (w : wire) (s : system) : Prop := {
  rf_reach : rpc_reachable fs find_method parse_request s;
  rf_client : w_client w = client s;
  rf_server : w_server w = server s;
  rf_to_server : carries (s_buf w) (c2s w) (to_server s);
  rf_to_client : carries (c_buf w) (s2c w) (to_client s);
  rf_calls : w_calls w = calls_ s;
  rf_answers : w_answers w = answers_ s;
  rf_seen : w_seen w = seen_ s;
  rf_ok : w_ok w = true;
}.

Lemma carries_send b bs ms m out :
  carries b bs ms → Forall (msg_ok rpctag) m → out = frames rpctag m → carries b (bs ++ out) (ms ++ m).
Proof.
  intros (p & data & Hp & Hh & Heq & Hok & Hsh) Hm ->. exists p, data. split; [done|]. split; [done|].
  rewrite frames_app, app_assoc, Heq. split; [done|]. split; [by apply Forall_app|].
  destruct ms as [|m1 ms]; [|done]. destruct m as [|m1 m]; [done|]. apply app_eq_nil in Heq as [-> _]. apply frame_pos.
Qed.

Lemma carries_empty b ms : carries b [] ms → ms = [].
Proof.
  intros (p & data & _ & _ & Heq & _ & Hsh). rewrite app_nil_r in Heq. destruct ms as [|m ms]; [done|].
  unfold short in Hsh. subst data. cbn [frames] in Hsh. rewrite zlen_app in Hsh.
  pose proof (zlen_nonneg (frames rpctag ms)). lia.
Qed.

(** What a channel sends by itself is an error response. *)
Lemma reply_small m (c c' : RpcChannel) evs :
  in_s 64 (m_id m) → onRpcMessage fs find_method parse_request m c = (Ret evs, c') → Forall (msg_ok rpctag) (sends evs).
Proof.
  intros Hid. unfold onRpcMessage. destruct (m_type m); [|unfold on_response|by intros [= <- <-]].
  - unfold on_request, mbind, ST_bind, st_get, st_put, mret, ST_ret.
    destruct (resolve _ _ _ _ _) as [err|j]; intros [= <- <-]; [|done].
    constructor; [by apply small_errors|done].
  - unfold mbind, ST_bind, st_get, st_put, mret, ST_ret, lift. destruct (assert_ _); [|done..].
    destruct (outstandings_ c !! m_id m) as [out|]; [|by intros [= <- <-]].
    destruct (response out), (done_ out); by intros [= <- <-].
Qed.

Lemma id_on_the_way (s : system) m :
  rpc_reachable fs find_method parse_request s → m ∈ to_server s ∨ m ∈ to_client s → in_s 64 (m_id m).
Proof.
  intros Hi%rpc_reachable_inv Hm. assert (1 ≤ m_id m ≤ id_ (client s)) as Hid.
  { apply (under_way_id fs find_method parse_request s _ Hi). unfold under_way. rewrite !elem_of_app.
    destruct Hm; [left|right; right]; by apply list_elem_of_fmap_2. }
  pose proof (r_count _ _ _ _ Hi). unfold in_s. change (64 - 1) with 63. lia.
Qed.

(** The server takes the messages [ms1] one by one. *)
Lemma server_takes ms1 q (s : system) :
  rpc_reachable fs find_method parse_request s → to_server s = ms1 ++ q →
  ∃ evs c', on_codec_events find_method parse_request services_ (EMessage <$> ms1) (server s) = (Ret (evs, false), c') ∧
    Forall (msg_ok rpctag) (sends evs) ∧
    rpc_reachable fs find_method parse_request
      (MkSystem (client s) c' q (to_client s ++ sends evs) (calls_ s) (answers_ s) (seen_ s) true).
Proof.
  revert s. induction ms1 as [|m ms1 IH]; intros s Hr Hq.
  { exists [], (server s). split; [done|]. split; [done|]. cbn in *. rewrite app_nil_r, <-Hq.
    rewrite <-(r_ok _ _ _ _ (rpc_reachable_inv _ _ _ _ Hr)). by destruct s. }
  assert (Hr' : rpc_reachable fs find_method parse_request (server_does (onRpcMessage fs find_method parse_request m) (ms1 ++ q) [] s)).
  { eapply rtc_r; [exact Hr|]. by apply step_to_server. }
  pose proof (r_ok _ _ _ _ (rpc_reachable_inv _ _ _ _ Hr')) as Hok. revert Hr' Hok. unfold server_does.
  destruct (onRpcMessage fs find_method parse_request m (server s)) as [[evs| | |] c'] eqn:E; [|done..].
  intros Hr' _. destruct (IH _ Hr' eq_refl) as (evs2 & c2 & He & Hs & Hr2). cbn [server client to_client calls_ answers_ seen_] in *.
  exists (evs ++ evs2), c2. split.
  - cbn [fmap list_fmap on_codec_events]. rewrite (ST_bind_eq _ _ _ _ _ E), (ST_bind_eq _ _ _ _ _ He). done.
  - unfold sends in *. rewrite omap_app. split; [apply Forall_app; split; [apply (reply_small m _ _ _) in E; [done|]|done]|].
    { apply (id_on_the_way s); [done|]. left. rewrite Hq. left. }
    rewrite app_nil_r, <-app_assoc in Hr2. exact Hr2.
Qed.

Lemma client_takes ms1 q (s : system) :
  rpc_reachable fs find_method parse_request s → to_client s = ms1 ++ q →
  ∃ evs c', on_codec_events find_method parse_request services_ (EMessage <$> ms1) (client s) = (Ret (evs, false), c') ∧
    Forall (msg_ok rpctag) (sends evs) ∧
    rpc_reachable fs find_method parse_request
      (MkSystem c' (server s) (to_server s ++ sends evs) q (calls_ s) (answers_ s) (seen_ s ++ seen evs) true).
Proof.
  revert s. induction ms1 as [|m ms1 IH]; intros s Hr Hq.
  { exists [], (client s). split; [done|]. split; [done|]. cbn in *. rewrite !app_nil_r, <-Hq.
    rewrite <-(r_ok _ _ _ _ (rpc_reachable_inv _ _ _ _ Hr)). by destruct s. }
  assert (Hr' : rpc_reachable fs find_method parse_request
    (client_does (onRpcMessage fs find_method parse_request m) (ms1 ++ q) (λ _, []) s)).
  { eapply rtc_r; [exact Hr|]. by apply step_to_client. }
  pose proof (r_ok _ _ _ _ (rpc_reachable_inv _ _ _ _ Hr')) as Hok. revert Hr' Hok. unfold client_does.
  destruct (onRpcMessage fs find_method parse_request m (client s)) as [[evs| | |] c'] eqn:E; [|done..].
  intros Hr' _. destruct (IH _ Hr' eq_refl) as (evs2 & c2 & He & Hs & Hr2).
  cbn [server client to_server to_client calls_ answers_ seen_] in *.
  exists (evs ++ evs2), c2. split.
  - cbn [fmap list_fmap on_codec_events]. rewrite (ST_bind_eq _ _ _ _ _ E), (ST_bind_eq _ _ _ _ _ He). done.
  - unfold sends, seen in *. rewrite !omap_app. split; [apply Forall_app; split; [apply (reply_small m _ _ _) in E; [done|]|done]|].
    { apply (id_on_the_way s); [done|]. right. rewrite Hq. left. }
    rewrite app_nil_r, <-!app_assoc in Hr2. exact Hr2.
Qed.

(** Bytes that arrive: [receive] takes whole messages and keeps a rest. *)
Lemma receive_carries e (c : RpcChannel) b bs rest ms :
  carries b (bs ++ rest) ms → zlen (buffer_ b) + zlen bs ≤ max_size →
  ∃ ms1 ms2 b', ms = ms1 ++ ms2 ∧ carries b' rest ms2 ∧
    receive find_method parse_request services_ e bs (c, b) =
      (let '(o, c') := on_codec_events find_method parse_request services_ (EMessage <$> ms1) c in (o, (c', b'))).
Proof.
  intros (p & data & Hp & Hh & Heq & Hok & _) Hmax.
  destruct (receive_frames e p b data bs rest ms Hp Hh Hmax Heq Hok)
    as (b1 & b' & p' & ms1 & ms2 & part & Ha & Hm & -> & Hh' & Hp' & Hrest & Hsh).
  exists ms1, ms2, b'. split; [done|]. split.
  - exists p', part. apply Forall_app in Hok as [_ Hok]. done.
  - unfold receive, channel_onMessage, on_buffer, on_channel, mbind, ST_bind. cbn [fst snd]. rewrite Ha. cbn [fst snd].
    rewrite Hm. cbn [fst snd]. by destruct (on_codec_events _ _ _ _ c).
Qed.

Lemma refine_step w w' s :
  refines w s → wire_step find_method parse_request services_ ec es w w' → ∃ s', refines w' s'.
Proof.
  intros [Hr Hc Hs Hts Htc Hca Han Hse Hok] Hstep.
  destruct Hstep as [service method request out w Hid Hm|n w Hn Hmax|k i j bs w Hk Hm|n w Hn Hmax].
  - exists (client_does (CallMethod service method request out) (to_client s) (call_log out) s).
    assert (Hr' := rtc_r _ _ _ Hr (step_call fs find_method parse_request service method request out s ltac:(by rewrite <-Hc))).
    rewrite Hc in Hm. unfold request_of in Hm.
    unfold client_acts, quiet, on_channel, client_does, CallMethod, mbind, ST_bind, st_get, st_put, mret, ST_ret in *.
    cbn [fst snd] in *. rewrite Hc. cbn [sends omap list_omap].
    rewrite send_all_frames by (constructor; done).
    split; cbn [w_client w_server c_buf s_buf c2s s2c w_calls w_answers w_seen w_ok client server to_server to_client calls_ answers_ seen_]; try done.
    + apply (carries_send _ _ _ _ _ Hts); [by constructor|done].
    + by rewrite Hca.
    + by rewrite Hse.
    + by rewrite Hok.
  - rewrite <-(ztake_zdrop n (c2s w)) in Hts.
    destruct (receive_carries es (w_server w) _ _ _ _ Hts) as (ms1 & ms2 & b' & Hms & Hb' & Hrec); [rewrite zlen_ztake by lia; done|].
    destruct (server_takes ms1 ms2 s Hr Hms) as (evs & c' & He & Hsm & Hr').
    unfold server_acts. rewrite Hrec, Hs, He, send_all_frames by done. eexists. split; try exact Hr'; try done.
    + by apply (carries_send _ _ _ _ _ Htc).
    + cbn. by rewrite app_nil_r.
    + cbn. by rewrite Hok.
  - rewrite Hs in Hk.
    exists (server_does (doneCallback k bs) (to_server s) [(i, (j, bs))] s).
    assert (Hr' := rtc_r _ _ _ Hr (step_done fs find_method parse_request k i j bs s Hk)).
    unfold server_acts, quiet, on_channel, server_does, doneCallback, lift, mbind, ST_bind, st_get, st_put, mret, ST_ret in *.
    cbn [fst snd] in *. rewrite Hs, Hk in *. cbn [or_undef from_option sends omap list_omap fst] in *.
    rewrite send_all_frames by (constructor; done).
    split; cbn [w_client w_server c_buf s_buf c2s s2c w_calls w_answers w_seen w_ok client server to_server to_client calls_ answers_ seen_]; try done.
    + apply (carries_send _ _ _ _ _ Htc); [by constructor|done].
    + by rewrite Han.
    + by rewrite Hok.
  - rewrite <-(ztake_zdrop n (s2c w)) in Htc.
    destruct (receive_carries ec (w_client w) _ _ _ _ Htc) as (ms1 & ms2 & b' & Hms & Hb' & Hrec); [rewrite zlen_ztake by lia; done|].
    destruct (client_takes ms1 ms2 s Hr Hms) as (evs & c' & He & Hsm & Hr').
    unfold client_acts. rewrite Hrec, Hc, He, send_all_frames by done. eexists. split; try exact Hr'; try done.
    + by apply (carries_send _ _ _ _ _ Hts).
    + cbn. by rewrite app_nil_r.
    + cbn. by rewrite Hse.
    + cbn. by rewrite Hok.
Qed.

Lemma wire_refines w : wire_reachable find_method parse_request services_ ec es w → ∃ s, refines w s.
Proof.
  intros Hr. assert (∀ a s, rtc (wire_step find_method parse_request services_ ec es) a w → refines a s → ∃ s', refines w s')
    as H.
  { intros a s Ha. revert s. induction Ha as [|a b c Hab _ IH]; intros s Hs; [by exists s|].
    destruct (refine_step _ _ _ Hs Hab) as [s' Hs']. by apply (IH Hr s'). }
  apply (H Wire_new System_new); [done|].
  assert (carries (Buffer_new kInitialSize) [] []) as Hc.
  { exists kCheapPrepend, []. split; [done|]. split; [apply holds_new; vm_compute; discriminate|done]. }
  split; try done. apply rtc_refl.
Qed.
End Refinement.

(** ** Properties *)

(** C35: Remote calls over a connection.  Whatever calls are made, however long
    services take and in whatever pieces the network delivers the bytes, every
    state of the two channels, their codecs and their input buffers is one of
    the two channels with queues of whole messages between them: no codec
    error or assertion occurs, and the callers see the same responses.  Once
    no byte is on its way in a direction, no message of it is unhandled. *)
Theorem rpc_over_the_wire {Service Method Request : Type}
    (find_method : Service → bytes → option Method) (parse_request : Service → Method → bytes → option Request)
    `{PM : ProtoMessage RpcMessage, !ProtoMessageLaws RpcMessage}
    (services_ : list (bytes * Service)) (ec es : endian) (w : Wire) :
  (∀ id e, in_s 64 id → msg_ok rpctag (error_of id e)) →
  wire_reachable find_method parse_request services_ ec es w →
  w_ok w = true ∧
  ∃ s, rpc_reachable (find_service services_) find_method parse_request s ∧
    w_client w = client s ∧ w_server w = server s ∧
    w_calls w = calls_ s ∧ w_answers w = answers_ s ∧ w_seen w = seen_ s ∧
    (c2s w = [] → to_server s = []) ∧ (s2c w = [] → to_client s = []).
Proof.
  intros Hsmall Hr. destruct (wire_refines find_method parse_request services_ ec es Hsmall w Hr)
    as [s [H1 H2 H3 H4 H5 H6 H7 H8 H9]].
  split; [done|]. exists s. do 6 (split; [done|]).
  split; [intros Hc; rewrite Hc in H4|intros Hc; rewrite Hc in H5]; by eapply carries_empty.
Qed.

(** ** A concrete encoding of messages, and a run *)

Fixpoint enc_pos (p : positive) : bytes :=
  match p with
  | xH => [Z_byte 101]
  | xO p' => Z_byte 48 :: enc_pos p'
  | xI p' => Z_byte 49 :: enc_pos p'
  end.
Fixpoint dec_pos (s : bytes) : option (positive * bytes) :=
  match s with
  | [] => None
  | c :: s' =>
      if byte_Z c =? 101 then Some (xH, s')
      else '(p, r) ← dec_pos s'; Some (if byte_Z c =? 48 then xO p else xI p, r)
  end.

(** A list of bytes: each after a mark, then an end mark. *)
Fixpoint enc_list (s : bytes) : bytes :=
  match s with [] => [Z_byte 46] | c :: s' => Z_byte 99 :: c :: enc_list s' end.
Fixpoint dec_list (fuel : nat) (s : bytes) : option (bytes * bytes) :=
  match fuel, s with
  | S fuel', m :: s' =>
      if byte_Z m =? 46 then Some ([], s')
      else match s' with c :: s'' => '(l, r) ← dec_list fuel' s''; Some (c :: l, r) | [] => None end
  | _, _ => None
  end.
Definition dec_bytes (s : bytes) : option (bytes * bytes) := dec_list (length s) s.

Definition enc_Z (z : Z) : bytes :=
  match z with Z0 => [Z_byte 122] | Zpos p => Z_byte 43 :: enc_pos p | Zneg p => Z_byte 45 :: enc_pos p end.
Definition dec_Z (s : bytes) : option (Z * bytes) :=
  match s with
  | c :: s' =>
      if byte_Z c =? 122 then Some (0, s')
      else '(p, r) ← dec_pos s'; Some (if byte_Z c =? 43 then Zpos p else Zneg p, r)
  | [] => None
  end.

Definition error_num (e : option Rpc.ErrorCode) : Z :=
  match e with
  | None => 0 | Some NO_ERROR => 1 | Some WRONG_PROTO => 2 | Some NO_SERVICE => 3 | Some NO_METHOD => 4
  | Some INVALID_REQUEST => 5 | Some INVALID_RESPONSE => 6 | Some TIMEOUT => 7
  end.
Definition num_error (z : Z) : option Rpc.ErrorCode :=
  if z =? 0 then None else if z =? 1 then Some NO_ERROR else if z =? 2 then Some WRONG_PROTO
  else if z =? 3 then Some NO_SERVICE else if z =? 4 then Some NO_METHOD
  else if z =? 5 then Some INVALID_REQUEST else if z =? 6 then Some INVALID_RESPONSE else Some TIMEOUT.
Definition type_num (t : MessageType) : Z := match t with REQUEST => 1 | RESPONSE => 2 | ERROR => 3 end.
Definition num_type (z : Z) : MessageType := if z =? 1 then REQUEST else if z =? 2 then RESPONSE else ERROR.

Definition enc_message (m : RpcMessage) : bytes :=
  enc_Z (type_num (m_type m)) ++ enc_Z (m_id m) ++ enc_list (m_service m) ++ enc_list (m_method m) ++
  enc_list (m_request m) ++ enc_Z (match m_response m with Some _ => 1 | None => 0 end) ++ enc_list (default [] (m_response m)) ++
  enc_Z (error_num (m_error m)).
Definition dec_message (s : bytes) : option RpcMessage :=
  '(t, s) ← dec_Z s; '(id, s) ← dec_Z s; '(sv, s) ← dec_bytes s; '(me, s) ← dec_bytes s;
  '(rq, s) ← dec_bytes s; '(has, s) ← dec_Z s; '(rs, s) ← dec_bytes s; '(e, _) ← dec_Z s;
  Some (MkMessage (num_type t) id sv me rq (if has =? 1 then Some rs else None) (num_error e)).

Definition demo_messages : ProtoMessage RpcMessage := {|
  serialize := enc_message;
  parseFromArray := dec_message;
  adler32 s := foldr (λ c acc, acc + byte_Z c) 1 s;
|}.

Lemma dec_enc_pos p r : dec_pos (enc_pos p ++ r) = Some (p, r).
Proof. induction p as [p IH|p IH|]; simpl; [by rewrite IH|by rewrite IH|done]. Qed.
Lemma dec_enc_Z z r : dec_Z (enc_Z z ++ r) = Some (z, r).
Proof. destruct z; simpl; [done|by rewrite dec_enc_pos..]. Qed.
Lemma dec_enc_list b r : dec_bytes (enc_list b ++ r) = Some (b, r).
Proof.
  unfold dec_bytes. assert (∀ n, (length b < n)%nat → dec_list n (enc_list b ++ r) = Some (b, r)) as H.
  { induction b as [|c b IH]; intros [|n] Hn; simpl in *; [lia|done|lia|]. by rewrite IH by lia. }
  apply H. clear H. induction b; simpl; rewrite ?length_app in *; simpl in *; lia.
Qed.

Lemma demo_messages_laws : @ProtoMessageLaws RpcMessage demo_messages.
Proof.
  intros [t id sv me rq rs e]. cbn. unfold enc_message, dec_message. cbn [m_type m_id m_service m_method m_request m_response m_error].
  rewrite !dec_enc_Z. cbn. rewrite !dec_enc_Z. cbn. rewrite dec_enc_list. cbn. rewrite dec_enc_list. cbn.
  rewrite dec_enc_list. cbn. rewrite dec_enc_Z. cbn. rewrite dec_enc_list. cbn.
  rewrite <-(app_nil_r (enc_Z (error_num e))), dec_enc_Z. cbn.
  by destruct t, rs, e as [[]|].
Qed.

Lemma length_enc_pos n p : Z.pos p < 2 ^ Z.of_nat n → (length (enc_pos p) ≤ n)%nat.
Proof.
  revert n. induction p as [p IH|p IH|]; intros n Hp.
  - destruct n as [|n]; [simpl in Hp; lia|]. rewrite Nat2Z.inj_succ, Z.pow_succ_r in Hp by lia.
    simpl. specialize (IH n). lia.
  - destruct n as [|n]; [simpl in Hp; lia|]. rewrite Nat2Z.inj_succ, Z.pow_succ_r in Hp by lia.
    simpl. specialize (IH n). lia.
  - destruct n as [|n]; [simpl in Hp; lia|]. simpl. lia.
Qed.

Lemma length_enc_Z z : in_s 64 z → (length (enc_Z z) ≤ 65)%nat.
Proof.
  intros [H1 H2]. change (64 - 1) with 63 in *.
  assert (2 ^ 63 < 2 ^ Z.of_nat 64) by (simpl; lia).
  destruct z as [|p|p]; simpl; [lia|..]; assert (length (enc_pos p) ≤ 64)%nat; try lia; apply length_enc_pos; lia.
Qed.

Lemma demo_small_errors id e : in_s 64 id → @msg_ok RpcMessage demo_messages rpctag (error_of id e).
Proof.
  intros Hid%length_enc_Z. unfold msg_ok, frame_body. rewrite !zlen_app, zlen_be_bytes. cbn [serialize demo_messages].
  unfold enc_message, error_of. cbn [m_type m_id m_service m_method m_request m_response m_error default].
  rewrite !zlen_app. change (zlen rpctag) with 4.
  assert (zlen (enc_Z (error_num (Some e))) ≤ 4) by (by destruct e; vm_compute).
  change (zlen (enc_Z (type_num RESPONSE))) with 3. change (zlen (enc_list [])) with 1.
  change (zlen (enc_Z 0)) with 1. change (zlen (enc_Z (id))) with (Z.of_nat (length (enc_Z id))).
  unfold kMaxMessageLen. lia.
Qed.

(** A service registered as "Sudoku"; the request arrives in two pieces, is
    answered, and the response arrives in two pieces. *)
Definition demo_services : list (bytes * unit) := registerService s!"Sudoku" () [].
#[local] Existing Instance demo_messages.
Abbreviation demo_wire := (@Wire unit unit bytes).

Definition wire1 : demo_wire :=
  client_acts LittleEndian (quiet (CallMethod s!"Sudoku" s!"Solve" s!"53" (MkCall (Some 1%nat) (Some 7%nat))))
    [] (call_log (MkCall (Some 1%nat) (Some 7%nat))) Wire_new.
Definition to_server_bytes (n : Z) (w : demo_wire) : demo_wire :=
  server_acts BigEndian (receive demo_method demo_parse demo_services BigEndian (ztake n (c2s w))) (zdrop n (c2s w)) [] w.
Definition to_client_bytes (n : Z) (w : demo_wire) : demo_wire :=
  client_acts LittleEndian (receive demo_method demo_parse demo_services LittleEndian (ztake n (s2c w))) (zdrop n (s2c w)) (λ _, []) w.
Definition wire2 : demo_wire := to_server_bytes 5 wire1.
Definition wire3 : demo_wire := to_server_bytes (zlen (c2s wire2)) wire2.
Definition wire4 : demo_wire :=
  server_acts BigEndian (quiet (doneCallback 0 s!"42")) (c2s wire3) [(1, ((), (), s!"53", s!"42"))] wire3.
Definition wire5 : demo_wire := to_client_bytes 9 wire4.
Definition wire6 : demo_wire := to_client_bytes (zlen (s2c wire5)) wire5.

Abbreviation demo_wire_step := (wire_step demo_method demo_parse demo_services LittleEndian BigEndian).

Lemma to_server_bytes_step n w :
  (0 <=? n) && (n <=? zlen (c2s w)) && (zlen (buffer_ (s_buf w)) + n <=? max_size) = true →
  demo_wire_step w (to_server_bytes n w).
Proof. intros H. bool_to_prop. apply wire_to_server; lia. Qed.

Lemma to_client_bytes_step n w :
  (0 <=? n) && (n <=? zlen (s2c w)) && (zlen (buffer_ (c_buf w)) + n <=? max_size) = true →
  demo_wire_step w (to_client_bytes n w).
Proof. intros H. bool_to_prop. apply wire_to_client; lia. Qed.

Lemma wire6_reachable : wire_reachable demo_method demo_parse demo_services LittleEndian BigEndian wire6.
Proof.
  apply (rtc_l _ _ wire1); [apply wire_call; [reflexivity|vm_compute; discriminate]|].
  apply (rtc_l _ _ wire2); [apply to_server_bytes_step; vm_compute; reflexivity|].
  apply (rtc_l _ _ wire3); [apply to_server_bytes_step; vm_compute; reflexivity|].
  apply (rtc_l _ _ wire4); [apply wire_done; [vm_compute; reflexivity|vm_compute; discriminate]|].
  apply (rtc_l _ _ wire5); [apply to_client_bytes_step; vm_compute; reflexivity|].
  apply (rtc_l _ _ wire6); [apply to_client_bytes_step; vm_compute; reflexivity|].
  apply rtc_refl.
Qed.

Lemma rpc_over_the_wire_witness :
  w_seen wire6 = [EResponse 1 1 (Some s!"42"); ERun 1 7] ∧ c2s wire6 = [] ∧ s2c wire6 = [] ∧
  w_ok wire6 = true ∧
  ∃ s, rpc_reachable (find_service demo_services) demo_method demo_parse s ∧
    w_client wire6 = client s ∧ w_server wire6 = server s ∧
    w_calls wire6 = calls_ s ∧ w_answers wire6 = answers_ s ∧ w_seen wire6 = seen_ s ∧
    (c2s wire6 = [] → to_server s = []) ∧ (s2c wire6 = [] → to_client s = []).
Proof.
  split; [vm_compute; reflexivity|]. split; [vm_compute; reflexivity|]. split; [vm_compute; reflexivity|].
  exact (@rpc_over_the_wire unit unit bytes demo_method demo_parse demo_messages demo_messages_laws demo_services
    LittleEndian BigEndian wire6 demo_small_errors wire6_reachable).
Defined.

(** A service that answers after its client has gone runs a closure of a
    channel that was destroyed with the connection. *)
Lemma late_answer_undefined (k : nat) (bs : bytes) (c : RpcChannel (Service := unit) (Method := unit) (Request := bytes)) :
  run_closure k bs (onConnection false (Some c)) = Undef.
Proof. done. Qed.
